(* ===== verification/_CoqProject ===== *)
-Q . S2P
Prelude.v
SpscQueue.v
Errors.v
CppLib.v
Query.v
CoreTypes.v
Json.v
RestParse.v
Auth.v
Hmac.v
HttpClient.v
HttpTasks.v
Exchanges.v
Executors.v
HttpLife.v
RestClient.v
RestLife.v
Concurrent.v
SubClients.v
Session.v
Timeouts.v
WsParse.v
ParsedTypes.v
MarketStream.v
UserStream.v
WebSocketClient.v
WsInterleave.v
Handshake.v
Platform.v
BaseClient.v
StreamLife.v
UserLife.v
TypedStreams.v
KeepAlive.v
Conformance.v
Examples.v
