(* ===== verification/Prelude.v ===== *)
(** * bintrade: a verification library

    bintrade is a C++20 client for the Binance REST and WebSocket APIs.
    This library models its implementation (src/include/bintrade and
    src/src) by executable definitions, one file per component, and proves
    the properties that make the components correct.  Where the code does
    not do what it means to, the theorem says what it does.

    ** The program and its models

    - [Prelude] (this file): outcomes of C++ calls (a value, an exception,
      or undefined behaviour and std::terminate), the state monad [stM]
      of the stateful components, 64-bit wrap-around, labelled transition
      systems with invariants and simulations, shared lemmas, hint
      databases ([bintrade], [nocrash], [str]) and tactics.
    - [SpscQueue]: core/spsc_queue.hpp.  [Seq] is the queue on one thread
      with [size_t] counters modulo 2^64; [Conc] is the producer and the
      consumer at one memory access per step under release/acquire, where
      an acquire load may return an old value.  Both refine the bounded
      queue [Fifo], which is all the streams rely on.
    - [Errors], [CoreTypes]: core/error, core/types, core/config and
      models/.  A [Timestamp] is a 64-bit count of nanoseconds.
    - [CppLib]: what the sources use of the C++ library: tolower, integer
      printing, std::stoi, std::to_string(double), std::stod over IEEE
      binary64 ([SpecFloat]).  The decimal printer's fuel is the bit
      length of the number, which [digits_fuel_enough] shows sufficient.
    - [Query]: unordered_map<string, string> as the list of its elements
      in iteration order; where an insertion lands is the parameter
      [HashOrder].  The key=value&... loops and a decoder for them.  A
      copy of a map keeps its order.
    - [Json]: nlohmann/json as the interface [JsonLib] with its documented
      behaviour [JsonLaws]; [Tree] is an instance with a parser (fuel: the
      length of the text), used by the examples.
    - [RestParse]: rest/detail/json_parse.hpp.
    - [Auth]: auth/credentials.cpp (with the bytes that clear() wipes) and
      auth/signer.cpp; HMAC-SHA256 is a parameter.  [Hmac] has the real
      function, so that signatures can be evaluated.
    - [HttpClient]: rest/detail/http_client.cpp for one request at a time:
      URL parsing ([Url]), the connection pool as a vector with addresses
      and reallocation ([Pool]), do_connect, do_request, the retry loop of
      execute and the public methods ([Exec]).  Beast, Asio and OpenSSL
      are the class [Network].  execute's loop runs at most
      [max_attempts] = 2 times, which is the fuel of [execute_from].
    - [HttpTasks]: several execute coroutines interleaved at their
      suspension points, with the validity of what they hold across them.
      [Exchanges] adds what travels on the connections: which requests of
      a connection await an answer, and whose answer a read is given.
    - [Executors]: the threads, io_contexts, coroutines and futures that
      blocking and asynchronous calls run on (get, async_get,
      http_client_sync.hpp's sync_await), and
      examples/async_market_data_example.cpp.  [HttpLife] adds ~Impl as
      steps of its own beside those threads.
    - [RestClient], [SubClients]: rest/client.cpp over the interface
      [HttpTransport] (http_transport.hpp), which [HttpClient] implements,
      and the endpoint clients market_data_client.cpp,
      trading_client.cpp, account_client.cpp, blocking and asynchronous.
      [RestLife] has client objects at addresses with coroutines in
      flight, moves and destruction; [Concurrent] puts the coroutines of
      one client on the transport of [Exchanges].
    - [Session]: any sequence of public calls of these clients over the
      pooled transport, against the journal of requests that the
      exchange's table of endpoints asks for.  [Timeouts] takes the
      network apart into resolve, connect, handshake, write and read with
      a clock in milliseconds and the limits of expires_after, and runs
      the same clients on it.
    - [WsParse]: ws/detail/ws_parse.hpp.  [ParsedTypes] gives all parsed
      values, REST and stream, their types.
    - [WebSocketClient]: ws/detail/websocket_client.cpp as a state machine
      over the operations outstanding on its io_context, each handler one
      step.  [WsInterleave] splits the handlers and disconnect into their
      accesses to shared state; a handler has at most eight, which is the
      fuel of [run_instrs].  [Handshake] does the same to connect and the
      start of the I/O thread.
    - [BaseClient]: ws/client.cpp, objects at addresses whose handlers
      captured [this], with moves and destruction, over the state machine
      of [WebSocketClient].
    - [MarketStream]: ws/market_stream.cpp; [Delivery] is the path of a
      message to the callback in both dispatch modes.  [StreamLife] puts a
      market stream on its connection: socket, base class, queue,
      consumer, callback, and the order of destruction.
    - [UserStream]: ws/user_stream.cpp: listen keys, dispatch, and the
      three threads of a started stream.  [KeepAlive] is the keep-alive
      thread and stop() at their synchronisation operations, with time.
      [UserLife] puts the user stream on its connection and follows its
      threads through any sequence of calls; [Drain] is how the consumer
      thread of both streams ends.
    - [TypedStreams]: typed_market_stream.hpp, typed_user_stream.hpp and
      handler_traits.hpp, compared with the streams they replace.
    - [Platform]: core/platform/clock.hpp, thread_affinity.cpp and
      core/logger.cpp.
    - [Examples]: the programs under src/examples on these models.
      [Conformance]: the expectations of the unit tests, evaluated.

    ** What the theorems show

    Queue: it refines a bounded FIFO for all interleavings, without races
    and wait-free (C1, C2, C9, C32).  REST sessions: whatever the network
    does, the wire sees exactly the documented request of each call, once
    or not at all, signed so that the exchange accepts and decodes it
    (C3, C24), within a time bound (C37).  Transport: the pool invariant
    in all interleavings, exclusive use of connections and every answer
    with its own request when connects are not disturbed, safety of
    sequential use, at most two sends, and every request ends (C5-C7, C12,
    C13, C14); the sequential model is a run of the interleaved one
    (C35); the pool is confined to the client's thread, blocking calls
    return, with the result of execute (C16-C18), and destruction
    completes (C25).  Client objects: calls keep the client they started
    on (C19), and concurrent calls return what they would alone (C20).
    Quantities are rounded to six decimals (C34).  Responses: exactly
    which responses are accepted (C23), rate limits (C36), results well
    typed (C31).  WebSocket client: it always reads, retries or has given
    up (C8), follows its back-off schedule with jitter (C26), is quiet
    after disconnect, which returns (C10, C11), between any two accesses,
    and connect is the handshake of two threads (C33); the base class
    forwards its calls exactly (C15).  Streams: end to end delivery of
    market and user streams (C4, C30), typed streams equal the untyped
    ones (C28, C29), market streams end cleanly (C39), user
    streams start and stop and own their threads (C27, C38), the
    keep-alive thread ends and keeps the key alive (C21, C22).  C40 is the URL round
    trip.  Unnumbered theorems carry the properties next in importance:
    typed streams from the socket to the handler, the parsers without
    undefined behaviour, the parameters of orders, the clock, the
    examples.  Those named in the manifest's findings state defects: what
    the code does where it does not do what it means to.

    ** Not modelled

    TLS and socket options (they are part of how a connection attempt
    ends), log output, and callbacks that call back into the client whose
    thread runs them, other than disconnect from a message callback.
    Beast, Asio, OpenSSL, nlohmann/json and spdlog are parameters with
    their documented behaviour; the server of [Concurrent] is a function
    of the request, so that a call can be compared with the same call
    alone.  The name lookup has no limit in the code; the time bound takes
    one as a hypothesis on the system's resolver.  The lines of the
    implementation that no definition translates are includes, forward
    declarations, comments, constructors the compiler generates and calls
    of the logger.  Build files, benchmarks and the documentation have no
    behaviour of their own; the unit tests are evaluated in
    [Conformance]. *)

From stdpp Require Export prelude strings list gmap.
From Stdlib Require Export ZArith Lia.
#[export] Set Warnings "-clear-no-such-hyp,-register-all".

(** ** Outcomes of C++ code

    A call returns a value, throws an exception of type [E], or does
    something no [catch] can intercept: undefined behaviour, or
    [std::terminate]. *)

Inductive fatal : Type :=
| ub_missing_key        (* const [operator[]] of a JSON object on an absent key *)
| ub_index_range        (* const [operator[]] of a JSON array out of range *)
| ub_dangling           (* use of a reference whose object is gone *)
| ub_null               (* access through a null pointer *)
| ub_signed_overflow    (* signed integer overflow, division by zero *)
| std_terminate.        (* exception escaping a thread, joinable thread lost *)

Inductive outcome (E A : Type) : Type :=
| Ok (a : A)
| Throw (e : E)
| Crash (f : fatal).
Arguments Ok {E A} _.
Arguments Throw {E A} _.
Arguments Crash {E A} _.

#[global] Instance fatal_eq_dec : EqDecision fatal.
Proof. solve_decision. Defined.

#[global] Instance outcome_ret {E} : MRet (outcome E) := λ A a, Ok a.

#[global] Instance outcome_bind {E} : MBind (outcome E) := λ A B f m,
  match m with
  | Ok a => f a
  | Throw e => Throw e
  | Crash u => Crash u
  end.

(** [try { m } catch (const std::exception& e) { h(e) }] *)
Definition catch {E A} (m : outcome E A) (h : E → outcome E A) : outcome E A :=
  match m with
  | Throw e => h e
  | _ => m
  end.

Definition is_Ok {E A} (m : outcome E A) : bool :=
  match m with Ok _ => true | _ => false end.

Definition outcome_map {E A B} (f : A → B) (m : outcome E A) : outcome E B :=
  a ← m; Ok (f a).

(** Run [f] on each element from left to right, stopping at the first
    failure: the loops [for (x : xs) out.push_back(f(x))]. *)
Fixpoint traverse {E A B} (f : A → outcome E B) (l : list A) : outcome E (list B) :=
  match l with
  | [] => Ok []
  | x :: l => y ← f x; ys ← traverse f l; Ok (y :: ys)
  end.

(** ** Stateful code that may throw: the state survives a throw. *)

Definition stM (S E A : Type) : Type := S → outcome E A * S.

#[global] Instance stM_ret {S E} : MRet (stM S E) := λ A a s, (Ok a, s).

#[global] Instance stM_bind {S E} : MBind (stM S E) := λ A B f m s,
  match m s with
  | (Ok a, s') => f a s'
  | (Throw e, s') => (Throw e, s')
  | (Crash u, s') => (Crash u, s')
  end.

Definition lift {S E A} (m : outcome E A) : stM S E A := λ s, (m, s).

(** [try { m } catch (const std::exception& e) { h(e) }] on stateful code:
    the handler starts in the state the exception left. *)
Definition catch_st {S E A} (m : stM S E A) (h : E → stM S E A) : stM S E A := λ s,
  match m s with
  | (Throw e, s') => h e s'
  | r => r
  end.

(** ** Lemmas on outcomes *)

Lemma bind_Ok_inv {E A B} (m : outcome E A) (f : A → outcome E B) b :
  (x ← m; f x) = Ok b → ∃ a, m = Ok a ∧ f a = Ok b.
Proof. destruct m; naive_solver. Qed.

Lemma bind_assoc {E A B C} (m : outcome E A) (f : A → outcome E B) (g : B → outcome E C) :
  (y ← (x ← m; f x); g y) = (x ← m; y ← f x; g y).
Proof. by destruct m. Qed.

(** Code that cannot crash with [f], compositionally. *)
Definition no_crash {E A} (f : fatal) (m : outcome E A) : Prop := m ≠ Crash f.

Lemma no_crash_bind {E A B} f (m : outcome E A) (k : A → outcome E B) :
  no_crash f m → (∀ a, no_crash f (k a)) → no_crash f (x ← m; k x).
Proof. unfold no_crash. destruct m; simpl; [|done|]; naive_solver. Qed.

Lemma no_crash_Ok {E A} f (a : A) : no_crash f (Ok (E := E) a).
Proof. done. Qed.

Lemma no_crash_Throw {E A} f (e : E) : no_crash f (Throw (A := A) e).
Proof. done. Qed.

Lemma no_crash_traverse {E A B} f (g : A → outcome E B) l :
  (∀ x, x ∈ l → no_crash f (g x)) → no_crash f (traverse g l).
Proof.
  induction l as [|x l IH]; intros Hg; simpl; [apply no_crash_Ok|].
  apply no_crash_bind; [apply Hg; set_solver|]. intros y.
  apply no_crash_bind; [apply IH; set_solver | intros; apply no_crash_Ok].
Qed.

Section traverse_lemmas.
Context {E A B : Type}.

Lemma traverse_Ok_iff (f : A → outcome E B) l ys :
  traverse f l = Ok ys ↔ Forall2 (λ x y, f x = Ok y) l ys.
Proof.
  revert ys. induction l as [|x l IH]; intros ys; simpl.
  - split; [by intros [= <-] | by inversion 1].
  - split.
    + intros (y & Hy & (ys' & Hys & [= <-])%bind_Ok_inv)%bind_Ok_inv.
      constructor; [done | by apply IH].
    + inversion 1 as [|? y ? ys' Hy Hl]; subst.
      rewrite Hy. simpl. apply IH in Hl. by rewrite Hl.
Qed.

Lemma traverse_length (f : A → outcome E B) l ys :
  traverse f l = Ok ys → length ys = length l.
Proof. intros H%traverse_Ok_iff. symmetry. by eapply Forall2_length. Qed.

Lemma traverse_ext (f g : A → outcome E B) l :
  (∀ x, f x = g x) → traverse f l = traverse g l.
Proof. intros H. induction l; simpl; [done|]. by rewrite H, IHl. Qed.
End traverse_lemmas.

(** ** Strings *)

Lemma str_app_cons c s t : String c s +:+ t = String c (s +:+ t).
Proof. reflexivity. Qed.

Lemma str_app_nil_l s : "" +:+ s = s.
Proof. reflexivity. Qed.

Lemma str_app_nil_r s : s +:+ "" = s.
Proof. induction s as [|c s IH]; [done|]. by rewrite str_app_cons, IH. Qed.

Lemma str_app_assoc s t u : (s +:+ t) +:+ u = s +:+ t +:+ u.
Proof. induction s as [|c s IH]; [done|]. by rewrite !str_app_cons, IH. Qed.

Lemma str_length_app s t : String.length (s +:+ t) = (String.length s + String.length t)%nat.
Proof. induction s as [|c s IH]; [done|]. rewrite str_app_cons. simpl. by rewrite IH. Qed.

Create Rewrite HintDb str.
#[export] Hint Rewrite str_app_cons str_app_nil_l str_app_nil_r str_app_assoc : str.

(** ** Fixed-width integers *)

Definition u64_mod : Z := 2 ^ 64.
Definition wrap_u64 (z : Z) : Z := z mod u64_mod.
Definition in_u64 (z : Z) : Prop := (0 ≤ z < u64_mod)%Z.
Definition in_i64 (z : Z) : Prop := (- 2 ^ 63 ≤ z < 2 ^ 63)%Z.
Definition in_i32 (z : Z) : Prop := (- 2 ^ 31 ≤ z < 2 ^ 31)%Z.
Definition in_i64b (z : Z) : bool := ((- 2 ^ 63 <=? z) && (z <? 2 ^ 63))%Z.
Definition in_i32b (z : Z) : bool := ((- 2 ^ 31 <=? z) && (z <? 2 ^ 31))%Z.

Lemma in_i64b_spec z : in_i64b z = true ↔ in_i64 z.
Proof. unfold in_i64b, in_i64. rewrite andb_true_iff, Z.leb_le, Z.ltb_lt. lia. Qed.

Lemma in_i32b_spec z : in_i32b z = true ↔ in_i32 z.
Proof. unfold in_i32b, in_i32. rewrite andb_true_iff, Z.leb_le, Z.ltb_lt. lia. Qed.

Lemma wrap_u64_range z : in_u64 (wrap_u64 z).
Proof. unfold in_u64, wrap_u64, u64_mod. apply Z.mod_pos_bound. lia. Qed.

(** Two integers less than [2^64] apart with the same residue are equal. *)
Lemma wrap_u64_inj x y :
  (Z.abs (x - y) < u64_mod)%Z → wrap_u64 x = wrap_u64 y → x = y.
Proof.
  unfold wrap_u64. intros Hd Heq.
  assert ((x - y) mod u64_mod = 0)%Z as H0.
  { rewrite Zminus_mod, Heq, Z.sub_diag. done. }
  apply Z.mod_divide in H0; [|done]. destruct H0 as [k Hk].
  unfold u64_mod in *. nia.
Qed.

(** ** Labelled transition systems

    Every concurrent or event-driven component is a relation
    [step : state → label → state → Prop]; a run collects the labels. *)

Section lts.
Context {S L : Type} (step : S → L → S → Prop).

Inductive run : S → list L → S → Prop :=
| run_nil s : run s [] s
| run_snoc s tr s1 l s2 : run s tr s1 → step s1 l s2 → run s (tr ++ [l]) s2.

Lemma run_one s l s' : step s l s' → run s [l] s'.
Proof. intros. apply (run_snoc s [] s l s'); [constructor | done]. Qed.

Lemma run_app s tr1 s1 tr2 s2 : run s tr1 s1 → run s1 tr2 s2 → run s (tr1 ++ tr2) s2.
Proof.
  intros H1 H2. induction H2 as [|? tr ? l ? ? IH Hst].
  - by rewrite (right_id_L [] (++)).
  - rewrite (assoc_L (++)). eapply run_snoc; [by apply IH | done].
Qed.

Lemma run_cons s l s1 tr s2 : step s l s1 → run s1 tr s2 → run s (l :: tr) s2.
Proof. intros H1 H2. apply (run_app s [l] s1 tr s2); [by apply run_one | done]. Qed.

(** Invariants by induction on the run; [P] may mention the trace. *)
Lemma run_invariant (P : list L → S → Prop) s0 :
  P [] s0 →
  (∀ tr s l s', run s0 tr s → P tr s → step s l s' → P (tr ++ [l]) s') →
  ∀ tr s, run s0 tr s → P tr s.
Proof.
  intros H0 HS tr s Hr. remember s0 as s1 eqn:He. revert He.
  induction Hr; intros ->; eauto.
Qed.
End lts.

Section simulation.
Context {S1 S2 L1 L2 : Type}.
Context (step1 : S1 → L1 → S1 → Prop) (step2 : S2 → L2 → S2 → Prop).
Context (R : S1 → S2 → Prop) (obs : L1 → option L2).

(** Each step of the detailed system is a stutter or one visible step. *)
Context (sim : ∀ s1 l s1' s2, R s1 s2 → step1 s1 l s1' →
  match obs l with
  | None => R s1' s2
  | Some l2 => ∃ s2', step2 s2 l2 s2' ∧ R s1' s2'
  end).

Lemma simulation_run s1 s2 tr s1' :
  R s1 s2 → run step1 s1 tr s1' →
  ∃ s2', run step2 s2 (omap obs tr) s2' ∧ R s1' s2'.
Proof using sim.
  intros HR Hr. induction Hr as [|s1 tr t1 l t1' Hr IH Hst].
  - exists s2. split; [constructor | done].
  - destruct (IH HR) as (t2 & Hr2 & HR2).
    pose proof (sim _ _ _ _ HR2 Hst) as Hsim.
    rewrite omap_app. simpl. destruct (obs l) as [l2|].
    + destruct Hsim as (t2' & Hst2 & ?). exists t2'. split; [|done].
      eapply run_snoc; eauto.
    + exists t2. by rewrite (right_id_L [] (++)).
Qed.
End simulation.

(** ** Automation shared by the components *)

Create HintDb bintrade.
#[export] Hint Resolve wrap_u64_range : bintrade.
#[export] Hint Constructors run : bintrade.

Create HintDb nocrash.
#[export] Hint Resolve no_crash_bind no_crash_Ok no_crash_Throw : nocrash.

(** Case analysis on the [if]s and [match]es of a transcribed function. *)
Ltac split_code :=
  repeat (simpl in *; first [ progress simplify_eq | case_match ]).
