(* ===== verification/SpscQueue.v ===== *)
(** * include/bintrade/core/spsc_queue.hpp: the SPSC ring buffer

    [Seq] is the queue as one thread sees it: counters of type [size_t]
    that wrap at [2^64], a mask, and an array of [Capacity] slots.
    [Conc] is the two-thread program at the granularity of one memory
    access per step, under release/acquire: an acquire load of the other
    thread's counter may return any value of its modification order that
    is not older than one already seen.  Both refine the bounded FIFO
    queue of [Fifo]. *)

From S2P Require Import Prelude.
Local Open Scope Z_scope.

(** The [static_assert] on the template argument. *)
Class CapacityOk (Capacity : Z) : Prop := {
  capacity_range : 0 < Capacity < u64_mod;
  capacity_pow2 : Z.land Capacity (Capacity - 1) = 0
}.

(** ** The abstract queue *)
Module Fifo.

Inductive qlabel (T : Type) : Type :=
| Push (v : T)
| PushFull (v : T)
| Pop (v : T)
| PopEmpty.
Arguments Push {T} _.
Arguments PushFull {T} _.
Arguments Pop {T} _.
Arguments PopEmpty {T}.

Section fifo.
Context {T : Type} (cap : nat).

Inductive bq_step : list T → qlabel T → list T → Prop :=
| bq_push q v : (length q < cap)%nat → bq_step q (Push v) (q ++ [v])
| bq_push_full q v : bq_step q (PushFull v) q
| bq_pop q v : bq_step (v :: q) (Pop v) q
| bq_pop_empty q : bq_step q PopEmpty q.

Definition pushed (l : qlabel T) : option T :=
  match l with Push v => Some v | _ => None end.
Definition popped (l : qlabel T) : option T :=
  match l with Pop v => Some v | _ => None end.

(** What was pushed is what was popped followed by what is queued. *)
Lemma bq_run_fifo tr q :
  run bq_step [] tr q → omap pushed tr = omap popped tr ++ q ∧ (length q ≤ cap)%nat.
Proof.
  revert tr q. apply (run_invariant bq_step (λ tr q,
    omap pushed tr = omap popped tr ++ q ∧ (length q ≤ cap)%nat)).
  { split; simpl; [done | lia]. }
  intros tr q l q' _ [Heq Hlen] Hst. rewrite !omap_app. simpl. inversion Hst; subst; simpl.
  all: rewrite ?app_nil_r, ?length_app, Heq; split; simpl in *; try lia; by list_simplifier.
Qed.
End fifo.
End Fifo.

(** ** Arithmetic of the wrapped counters *)
Section arith.
Context (Capacity : Z) {cap_ok : CapacityOk Capacity}.

Definition k_mask : Z := Capacity - 1.

(** [buffer_[i & k_mask]] *)
Definition slot (i : Z) : nat := Z.to_nat (Z.land i k_mask).

Definition capn : nat := Z.to_nat Capacity.

Lemma capn_pos : (0 < capn)%nat.
Proof using cap_ok. pose proof capacity_range. unfold capn. lia. Qed.

Lemma capacity_is_pow2 : Capacity = 2 ^ Z.log2 Capacity.
Proof using cap_ok.
  pose proof capacity_range as [Hpos _]. pose proof capacity_pow2 as Hland.
  pose proof (Z.log2_spec Capacity Hpos) as [Hlo Hhi].
  destruct (decide (Capacity = 2 ^ Z.log2 Capacity)) as [|Hne]; [done|].
  exfalso. assert (Hl : Z.log2 (Capacity - 1) = Z.log2 Capacity).
  { apply Z.log2_unique; [apply Z.log2_nonneg |]. lia. }
  assert (Z.testbit (Z.land Capacity (Capacity - 1)) (Z.log2 Capacity) = true) as Hb.
  { rewrite Z.land_spec, Z.bit_log2 by done. rewrite <- Hl, Z.bit_log2; [done|].
    pose proof (Z.log2_nonneg Capacity). pose proof (Z.pow_pos_nonneg 2 (Z.log2 Capacity)). lia. }
  rewrite Hland, Z.testbit_0_l in Hb. done.
Qed.

Lemma capacity_divides : (Capacity | u64_mod).
Proof using cap_ok.
  pose proof capacity_range as [Hpos Hlt]. rewrite capacity_is_pow2 in Hlt |- *.
  pose proof (Z.log2_nonneg Capacity).
  unfold u64_mod in Hlt. apply Z.pow_lt_mono_r_iff in Hlt; [|lia..].
  exists (2 ^ (64 - Z.log2 Capacity)). unfold u64_mod.
  rewrite <- Z.pow_add_r by lia. f_equal. lia.
Qed.

Lemma capacity_below : 2 * Capacity ≤ u64_mod.
Proof using cap_ok.
  pose proof capacity_range as [? ?]. destruct capacity_divides as [k Hk].
  assert (2 ≤ k) by nia. nia.
Qed.

Lemma slot_mod i : slot i = Z.to_nat (i mod Capacity).
Proof using cap_ok.
  unfold slot, k_mask.
  replace (Capacity - 1) with (Z.ones (Z.log2 Capacity)).
  - rewrite Z.land_ones by apply Z.log2_nonneg. by rewrite <- capacity_is_pow2.
  - rewrite Z.ones_equiv, <- capacity_is_pow2. lia.
Qed.

Lemma slot_lt i : (slot i < capn)%nat.
Proof using cap_ok.
  rewrite slot_mod. pose proof capacity_range as [? _]. unfold capn.
  pose proof (Z.mod_pos_bound i Capacity). lia.
Qed.

Lemma slot_wrap i : slot (wrap_u64 i) = slot i.
Proof using cap_ok.
  rewrite !slot_mod. f_equal. unfold wrap_u64.
  apply Z.mod_mod_divide, capacity_divides.
Qed.

(** Distinct indices that share a slot are at least [Capacity] apart. *)
Lemma slot_inj_near i j : slot i = slot j → i < j → i + Capacity ≤ j.
Proof using cap_ok.
  rewrite !slot_mod. pose proof capacity_range as [Hpos _]. intros Heq Hlt.
  pose proof (Z.mod_pos_bound i Capacity Hpos). pose proof (Z.mod_pos_bound j Capacity Hpos).
  apply Z2Nat.inj in Heq; [|lia..].
  rewrite (Z.div_mod i Capacity), (Z.div_mod j Capacity), Heq in Hlt |- * by lia.
  assert (i / Capacity < j / Capacity) by nia. nia.
Qed.

(** The occupancy test [head - tail >= Capacity] reads the true count. *)
Lemma wrap_sub_small h t :
  0 ≤ h - t ≤ Capacity → wrap_u64 (wrap_u64 h - wrap_u64 t) = h - t.
Proof using cap_ok.
  intros ?. unfold wrap_u64. rewrite <- Zminus_mod.
  apply Z.mod_small. pose proof capacity_below. pose proof capacity_range. lia.
Qed.

Lemma wrap_eq_near h t : 0 ≤ h - t ≤ Capacity → wrap_u64 t = wrap_u64 h ↔ t = h.
Proof using cap_ok.
  intros ?. split; [|by intros ->]. apply wrap_u64_inj. pose proof capacity_range. lia.
Qed.

Lemma wrap_succ i : wrap_u64 (wrap_u64 i + 1) = wrap_u64 (i + 1).
Proof. unfold wrap_u64. by rewrite Zplus_mod_idemp_l. Qed.
End arith.

Section arith_more.
Context (Capacity : Z) {cap_ok : CapacityOk Capacity}.

Lemma slot_wrap_add a i : slot Capacity (wrap_u64 a + i) = slot Capacity (a + i).
Proof using cap_ok.
  rewrite <- (slot_wrap _ (wrap_u64 a + i)), <- (slot_wrap _ (a + i)).
  f_equal. unfold wrap_u64. by rewrite Zplus_mod_idemp_l.
Qed.

Lemma slot_ne_near i j : i < j < i + Capacity → slot Capacity i ≠ slot Capacity j.
Proof using cap_ok. intros [? ?] Heq%slot_inj_near; [lia | done | done]. Qed.
End arith_more.

(** ** One thread at a time *)
Module Seq.

Section seq_queue.
(** [inhabitant] is the value-initialised element; [moved x] is what a
    move leaves in the object that held [x]. *)
Context {T : Type} `{Inhabited T} (moved : T → T).
Context (Capacity : Z) {cap_ok : CapacityOk Capacity}.

Record queue : Type := Queue { head_ : Z; tail_ : Z; buffer_ : list T }.

Definition init : queue :=
  {| head_ := 0; tail_ := 0; buffer_ := replicate (capn Capacity) inhabitant |}.

(** [try_push(const T&)] *)
Definition try_push (value : T) (q : queue) : bool * queue :=
  let head := head_ q in
  let tail := tail_ q in
  if Capacity <=? wrap_u64 (head - tail) then (false, q)
  else (true, {| head_ := wrap_u64 (head + 1); tail_ := tail;
                 buffer_ := <[slot Capacity head := value]> (buffer_ q) |}).

(** [try_push(T&&)]: the caller's object is returned as it is left. *)
Definition try_push_rvalue (value : T) (q : queue) : bool * T * queue :=
  let head := head_ q in
  let tail := tail_ q in
  if Capacity <=? wrap_u64 (head - tail) then (false, value, q)
  else (true, moved value,
        {| head_ := wrap_u64 (head + 1); tail_ := tail;
           buffer_ := <[slot Capacity head := value]> (buffer_ q) |}).

Definition try_pop (q : queue) : option T * queue :=
  let tail := tail_ q in
  let head := head_ q in
  if tail =? head then (None, q)
  else let x := buffer_ q !!! slot Capacity tail in
       (Some x, {| head_ := head; tail_ := wrap_u64 (tail + 1);
                   buffer_ := <[slot Capacity tail := moved x]> (buffer_ q) |}).

Definition size_approx (q : queue) : Z := wrap_u64 (head_ q - tail_ q).
Definition empty (q : queue) : bool := size_approx q =? 0.
Definition capacity : Z := Capacity.

(** [~SpscQueue]: [while (try_pop().has_value()) {}], with the values
    it destroys; [None] when the fuel runs out. *)
Fixpoint drain (fuel : nat) (q : queue) : option (list T * queue) :=
  match fuel with
  | O => None
  | S fuel =>
      match try_pop q with
      | (None, q') => Some ([], q')
      | (Some x, q') => '(xs, q'') ← drain fuel q'; Some (x :: xs, q'')
      end
  end.

Record wf (q : queue) : Prop := Wf {
  wf_head : in_u64 (head_ q);
  wf_tail : in_u64 (tail_ q);
  wf_size : size_approx q ≤ Capacity;
  wf_len : length (buffer_ q) = capn Capacity
}.

Definition size_nat (q : queue) : nat := Z.to_nat (size_approx q).

(** The elements from the oldest to the newest. *)
Definition contents (q : queue) : list T :=
  (λ i : nat, buffer_ q !!! slot Capacity (tail_ q + Z.of_nat i)) <$> seq 0 (size_nat q).

Lemma size_nonneg q : 0 ≤ size_approx q.
Proof. apply wrap_u64_range. Qed.

Lemma contents_length q : length (contents q) = size_nat q.
Proof. unfold contents. by rewrite length_fmap, length_seq. Qed.

(** [head] is [tail] plus the occupancy, up to wrap-around. *)
Lemma head_from_tail q : wf q → head_ q = wrap_u64 (tail_ q + size_approx q).
Proof using cap_ok.
  intros [Hh Ht _ _]. unfold size_approx, wrap_u64. rewrite Zplus_mod_idemp_r.
  replace (tail_ q + (head_ q - tail_ q)) with (head_ q) by lia.
  by rewrite Z.mod_small.
Qed.

Lemma slot_head q i : wf q → slot Capacity (head_ q) = slot Capacity (tail_ q + i) →
  0 ≤ i < size_approx q → size_approx q < Capacity → False.
Proof using cap_ok.
  intros Hwf Heq [? ?] ?. rewrite (head_from_tail q Hwf), (slot_wrap Capacity) in Heq.
  apply (slot_ne_near Capacity (tail_ q + i) (tail_ q + size_approx q)); [lia | done].
Qed.

Lemma try_push_full value q :
  wf q → size_approx q = Capacity → try_push value q = (false, q).
Proof. intros _ Hs. unfold try_push. fold (size_approx q). by rewrite Hs, Z.leb_refl. Qed.

Lemma try_push_room value q :
  wf q → size_approx q < Capacity →
  ∃ q', try_push value q = (true, q') ∧ wf q' ∧ contents q' = contents q ++ [value].
Proof using cap_ok.
  intros Hwf Hs. pose proof Hwf as [Hh Ht _ Hlen]. pose proof (size_nonneg q) as Hn.
  unfold try_push. fold (size_approx q). rewrite (proj2 (Z.leb_gt _ _)) by done.
  eexists. split; [done|].
  assert (Hsz : wrap_u64 (wrap_u64 (head_ q + 1) - tail_ q) = size_approx q + 1).
  { unfold size_approx, wrap_u64. rewrite Zminus_mod_idemp_l.
    replace (head_ q + 1 - tail_ q) with (head_ q - tail_ q + 1) by lia.
    rewrite <- Zplus_mod_idemp_l. fold (wrap_u64 (head_ q - tail_ q)) (size_approx q).
    apply Z.mod_small. pose proof (capacity_below Capacity). lia. }
  split.
  - constructor; unfold size_approx; simpl; auto using wrap_u64_range; [|by rewrite length_insert].
    rewrite Hsz. lia.
  - unfold contents, size_nat. unfold size_approx at 1. simpl. rewrite Hsz.
    replace (Z.to_nat (size_approx q + 1)) with (S (Z.to_nat (size_approx q))) by lia.
    rewrite seq_S, fmap_app. simpl. f_equal.
    + apply list_fmap_ext. intros i j [-> Hlt]%lookup_seq. simpl in *.
      rewrite list_lookup_total_insert_ne; [done|].
      intros Heq. eapply (slot_head q _ Hwf Heq); lia.
    + f_equal. replace (tail_ q + Z.of_nat (Z.to_nat (size_approx q))) with (tail_ q + size_approx q) by lia.
      rewrite <- (slot_wrap Capacity), <- head_from_tail by done.
      apply list_lookup_total_insert_eq. rewrite Hlen. by apply slot_lt.
Qed.

Lemma try_pop_empty q : wf q → size_approx q = 0 → try_pop q = (None, q).
Proof using cap_ok.
  intros Hwf Hs. unfold try_pop. rewrite (head_from_tail q Hwf), Hs, Z.add_0_r.
  unfold wrap_u64. rewrite Z.mod_small by apply Hwf. by rewrite Z.eqb_refl.
Qed.

Lemma try_pop_some q :
  wf q → 0 < size_approx q →
  ∃ x q', try_pop q = (Some x, q') ∧ wf q' ∧ contents q = x :: contents q'.
Proof using cap_ok.
  intros Hwf Hs. pose proof Hwf as [Hh Ht Hcap Hlen].
  unfold try_pop. destruct (Z.eqb_spec (tail_ q) (head_ q)) as [He|He].
  { unfold size_approx in Hs. rewrite He, Z.sub_diag in Hs. done. }
  do 2 eexists. split; [done|].
  assert (Hsz : wrap_u64 (head_ q - wrap_u64 (tail_ q + 1)) = size_approx q - 1).
  { unfold size_approx, wrap_u64. rewrite Zminus_mod_idemp_r.
    replace (head_ q - (tail_ q + 1)) with (head_ q - tail_ q - 1) by lia.
    rewrite <- Zminus_mod_idemp_l. fold (wrap_u64 (head_ q - tail_ q)) (size_approx q).
    apply Z.mod_small. pose proof (capacity_below Capacity). lia. }
  split.
  - constructor; unfold size_approx; simpl; auto using wrap_u64_range; [|by rewrite length_insert].
    rewrite Hsz. lia.
  - unfold contents, size_nat. unfold size_approx at 2. simpl. rewrite Hsz.
    replace (Z.to_nat (size_approx q)) with (S (Z.to_nat (size_approx q - 1))) by lia.
    simpl. f_equal; [by rewrite Z.add_0_r|].
    rewrite <- fmap_S_seq, <- list_fmap_compose. apply list_fmap_ext.
    intros i j [-> Hlt]%lookup_seq. simpl in *. rewrite (slot_wrap_add Capacity).
    replace (tail_ q + 1 + Z.of_nat i) with (tail_ q + Z.of_nat (S i)) by lia.
    rewrite list_lookup_total_insert_ne; [done|].
    apply (slot_ne_near Capacity). lia.
Qed.

(** A client's calls and their answers. *)
Inductive call : Type :=
| CPush (v : T) | CPushMove (v : T) | CPop | CSize | CEmpty.
Inductive answer : Type :=
| APushed (ok : bool)
| APushMoved (ok : bool) (source : T)
| APopped (r : option T)
| ASize (n : Z)
| AEmpty (b : bool).

Definition exec_call (c : call) (q : queue) : answer * queue :=
  match c with
  | CPush v => let '(b, q') := try_push v q in (APushed b, q')
  | CPushMove v => let '(b, src, q') := try_push_rvalue v q in (APushMoved b src, q')
  | CPop => let '(r, q') := try_pop q in (APopped r, q')
  | CSize => (ASize (size_approx q), q)
  | CEmpty => (AEmpty (empty q), q)
  end.

Fixpoint exec_calls (cs : list call) (q : queue) : list answer * queue :=
  match cs with
  | [] => ([], q)
  | c :: cs => let '(a, q') := exec_call c q in
               let '(rs, q'') := exec_calls cs q' in (a :: rs, q'')
  end.

(** The same calls on a list bounded by [cap]. *)
Definition spec_call (cap : nat) (c : call) (l : list T) : answer * list T :=
  match c with
  | CPush v => if decide (length l < cap)%nat then (APushed true, l ++ [v])
               else (APushed false, l)
  | CPushMove v => if decide (length l < cap)%nat then (APushMoved true (moved v), l ++ [v])
                   else (APushMoved false v, l)
  | CPop => match l with
            | [] => (APopped None, [])
            | x :: l' => (APopped (Some x), l')
            end
  | CSize => (ASize (Z.of_nat (length l)), l)
  | CEmpty => (AEmpty (bool_decide (l = [])), l)
  end.

Fixpoint spec_calls (cap : nat) (cs : list call) (l : list T) : list answer * list T :=
  match cs with
  | [] => ([], l)
  | c :: cs => let '(a, l') := spec_call cap c l in
               let '(rs, l'') := spec_calls cap cs l' in (a :: rs, l'')
  end.

Lemma init_wf : wf init.
Proof using cap_ok.
  pose proof (capacity_range (Capacity := Capacity)).
  constructor; [done | done | | by simpl; rewrite length_replicate].
  assert (size_approx init = 0) as -> by done. lia.
Qed.

Lemma try_push_rvalue_spec v q :
  try_push_rvalue v q =
  (let '(b, q') := try_push v q in (b, if b then moved v else v, q')).
Proof. unfold try_push_rvalue, try_push. by case_match. Qed.

Lemma try_push_spec v q :
  wf q →
  ∃ q', try_push v q = (bool_decide (length (contents q) < capn Capacity)%nat, q') ∧ wf q' ∧
        contents q' = (if decide (length (contents q) < capn Capacity)%nat
                       then contents q ++ [v] else contents q).
Proof using cap_ok.
  intros Hwf. pose proof (size_nonneg q) as H0. pose proof (wf_size _ Hwf) as H1.
  rewrite contents_length. unfold size_nat, capn.
  destruct (decide (size_approx q < Capacity)) as [Hlt|Hge].
  - destruct (try_push_room v q Hwf Hlt) as (q' & -> & ? & ?). exists q'.
    rewrite bool_decide_true, decide_True by lia. done.
  - rewrite (try_push_full v q Hwf) by lia. exists q.
    rewrite bool_decide_false, decide_False by lia. done.
Qed.

Lemma try_pop_spec q :
  wf q →
  ∃ q', try_pop q = (head (contents q), q') ∧ wf q' ∧ contents q' = tail (contents q).
Proof using cap_ok.
  intros Hwf. pose proof (size_nonneg q) as H0.
  destruct (decide (0 < size_approx q)) as [Hlt|Hge].
  - destruct (try_pop_some q Hwf Hlt) as (x & q' & -> & ? & ->). eauto.
  - rewrite (try_pop_empty q Hwf) by lia. pose proof (contents_length q) as Hlen.
    unfold size_nat in Hlen. exists q. destruct (contents q); [done | simpl in Hlen; lia].
Qed.

Lemma size_approx_spec q : size_approx q = Z.of_nat (length (contents q)).
Proof. rewrite contents_length. unfold size_nat. pose proof (size_nonneg q). lia. Qed.

Lemma empty_spec q : empty q = bool_decide (contents q = []).
Proof.
  unfold empty. rewrite size_approx_spec.
  by destruct (contents q).
Qed.

Lemma exec_call_refines c q :
  wf q →
  ∃ q', exec_call c q = ((spec_call (capn Capacity) c (contents q)).1, q') ∧ wf q' ∧
        contents q' = (spec_call (capn Capacity) c (contents q)).2.
Proof using cap_ok.
  intros Hwf. destruct c as [v|v| | |]; simpl.
  - destruct (try_push_spec v q Hwf) as (q' & -> & ? & Hc). exists q'. rewrite Hc.
    case_decide as Hd; [rewrite (bool_decide_true _ Hd) | rewrite (bool_decide_false _ Hd)]; done.
  - rewrite try_push_rvalue_spec.
    destruct (try_push_spec v q Hwf) as (q' & -> & ? & Hc). exists q'. rewrite Hc.
    case_decide as Hd; [rewrite (bool_decide_true _ Hd) | rewrite (bool_decide_false _ Hd)]; done.
  - destruct (try_pop_spec q Hwf) as (q' & -> & ? & Hc). exists q'. rewrite Hc. by destruct (contents q).
  - exists q. by rewrite size_approx_spec.
  - exists q. by rewrite empty_spec.
Qed.

Lemma drain_contents fuel q :
  wf q → (size_nat q < fuel)%nat →
  ∃ q', drain fuel q = Some (contents q, q') ∧ wf q' ∧ contents q' = [].
Proof using cap_ok.
  revert q. induction fuel as [|fuel IH]; intros q Hwf Hf; [lia|]. simpl.
  pose proof (size_nonneg q). pose proof (contents_length q) as Hlen. unfold size_nat in *.
  destruct (decide (0 < size_approx q)) as [Hlt|Hge].
  - destruct (try_pop_some q Hwf Hlt) as (x & q' & -> & Hwf' & Heq). rewrite Heq in Hlen |- *.
    pose proof (contents_length q'). unfold size_nat in *. simpl in Hlen.
    destruct (IH q' Hwf') as (q'' & -> & ? & ?); [lia|]. simpl. eauto.
  - rewrite (try_pop_empty q Hwf) by lia. exists q.
    destruct (contents q); [done | simpl in Hlen; lia].
Qed.

(** C9: Any sequence of try_push, try_pop, size_approx and empty on one thread gives the
    answers of a bounded FIFO list, whatever the values of the 64-bit counters, wrap-
    around included; a rejected rvalue push leaves its argument unchanged. *)
Theorem calls_refine_fifo cs q :
  wf q →
  ∃ q', exec_calls cs q = ((spec_calls (capn Capacity) cs (contents q)).1, q') ∧ wf q' ∧
        contents q' = (spec_calls (capn Capacity) cs (contents q)).2.
Proof using cap_ok.
  revert q. induction cs as [|c cs IH]; intros q Hwf; simpl; [by exists q|].
  destruct (exec_call_refines c q Hwf) as (q1 & -> & Hwf1 & Hc1).
  destruct (spec_call (capn Capacity) c (contents q)) as [a l1]. simpl in *. subst l1.
  destruct (IH q1 Hwf1) as (q2 & -> & Hwf2 & Hc2).
  destruct (spec_calls (capn Capacity) cs (contents q1)) as [rs l2]. simpl in *. eauto.
Qed.

(** The destructor's loop ends after at most one try_pop per stored element and one
    more, returning the elements in order and leaving the queue empty. *)
Theorem destructor_drains fuel q :
  wf q → (capn Capacity < fuel)%nat →
  ∃ q', drain fuel q = Some (contents q, q') ∧ contents q' = [].
Proof using cap_ok.
  intros Hwf Hf. pose proof (wf_size _ Hwf). pose proof (size_nonneg q).
  destruct (drain_contents fuel q Hwf) as (q' & ? & ? & ?); [|eauto].
  unfold size_nat, capn in *. lia.
Qed.
End seq_queue.
End Seq.

(** ** Producer and consumer threads *)
Module Conc.

Section conc_queue.
Context {T : Type} `{Inhabited T} (moved : T → T).
Context (Capacity : Z) {cap_ok : CapacityOk Capacity}.

(** Where each thread is inside [try_push] / [try_pop], with the values
    it holds in registers. *)
Inductive producer_pc : Type :=
| PIdle
| PHead (value : T) (head : Z)             (* head_ loaded *)
| PTail (value : T) (head tail : Z)        (* tail_ loaded *)
| PStored (value : T) (head : Z).          (* slot written, head_ not yet stored *)

Inductive consumer_pc : Type :=
| CIdle
| CTail (tail : Z)                         (* tail_ loaded *)
| CHead (tail head : Z)                    (* head_ loaded *)
| CRead (result : T) (tail : Z).           (* slot moved out, tail_ not yet stored *)

(** [head_mo] and [tail_mo] are the modification orders of the two
    atomics, oldest first; [p_seen] and [c_seen] index the newest value
    of the other thread's counter that the producer and the consumer
    have acquired.  For each slot, [p_epoch] is the index of the
    [head_] store that publishes the producer's last write, [c_epoch]
    the index of the [tail_] store that publishes the consumer's last
    access. *)
Record config : Type := Config {
  head_mo : list Z;
  tail_mo : list Z;
  buffer : list T;
  ppc : producer_pc;
  cpc : consumer_pc;
  p_seen : nat;
  c_seen : nat;
  p_epoch : list (option nat);
  c_epoch : list (option nat)
}.

Definition init_config : config :=
  {| head_mo := [0]; tail_mo := [0];
     buffer := replicate (capn Capacity) inhabitant;
     ppc := PIdle; cpc := CIdle; p_seen := 0; c_seen := 0;
     p_epoch := replicate (capn Capacity) None;
     c_epoch := replicate (capn Capacity) None |}.

Definition last_store (mo : list Z) : Z := mo !!! (length mo - 1)%nat.

(** [None] labels the steps internal to a call. *)
Inductive step : config → option (Fifo.qlabel T) → config → Prop :=
| p_load_head hm tm b cp ps cs pe ce v :
    step (Config hm tm b PIdle cp ps cs pe ce) None
         (Config hm tm b (PHead v (last_store hm)) cp ps cs pe ce)
| p_load_tail hm tm b cp ps cs pe ce v h i t :
    (ps ≤ i)%nat → tm !! i = Some t →
    step (Config hm tm b (PHead v h) cp ps cs pe ce) None
         (Config hm tm b (PTail v h t) cp i cs pe ce)
| p_full hm tm b cp ps cs pe ce v h t :
    Capacity ≤ wrap_u64 (h - t) →
    step (Config hm tm b (PTail v h t) cp ps cs pe ce) (Some (Fifo.PushFull v))
         (Config hm tm b PIdle cp ps cs pe ce)
| p_write hm tm b cp ps cs pe ce v h t :
    wrap_u64 (h - t) < Capacity →
    step (Config hm tm b (PTail v h t) cp ps cs pe ce) None
         (Config hm tm (<[slot Capacity h := v]> b) (PStored v h) cp ps cs
                 (<[slot Capacity h := Some (length hm)]> pe) ce)
| p_store hm tm b cp ps cs pe ce v h :
    step (Config hm tm b (PStored v h) cp ps cs pe ce) (Some (Fifo.Push v))
         (Config (hm ++ [wrap_u64 (h + 1)]) tm b PIdle cp ps cs pe ce)
| c_load_tail hm tm b pp ps cs pe ce :
    step (Config hm tm b pp CIdle ps cs pe ce) None
         (Config hm tm b pp (CTail (last_store tm)) ps cs pe ce)
| c_load_head hm tm b pp ps cs pe ce t i h :
    (cs ≤ i)%nat → hm !! i = Some h →
    step (Config hm tm b pp (CTail t) ps cs pe ce) None
         (Config hm tm b pp (CHead t h) ps i pe ce)
| c_empty hm tm b pp ps cs pe ce t h :
    t = h →
    step (Config hm tm b pp (CHead t h) ps cs pe ce) (Some Fifo.PopEmpty)
         (Config hm tm b pp CIdle ps cs pe ce)
| c_read hm tm b pp ps cs pe ce t h x :
    t ≠ h → b !! slot Capacity t = Some x →
    step (Config hm tm b pp (CHead t h) ps cs pe ce) None
         (Config hm tm (<[slot Capacity t := moved x]> b) pp (CRead x t) ps cs
                 pe (<[slot Capacity t := Some (length tm)]> ce))
| c_store hm tm b pp ps cs pe ce x t :
    step (Config hm tm b pp (CRead x t) ps cs pe ce) (Some (Fifo.Pop x))
         (Config hm (tm ++ [wrap_u64 (t + 1)]) b pp CIdle ps cs pe ce).

(** A data race: a thread is about to access a slot that the other
    thread accessed without that access happening before. *)
Definition producer_race (c : config) : Prop :=
  ∃ v h t r, ppc c = PTail v h t ∧ wrap_u64 (h - t) < Capacity ∧
             c_epoch c !! slot Capacity h = Some (Some r) ∧ (p_seen c < r)%nat.
Definition consumer_race (c : config) : Prop :=
  ∃ t h w, cpc c = CHead t h ∧ t ≠ h ∧
           p_epoch c !! slot Capacity t = Some (Some w) ∧ (c_seen c < w)%nat.
Definition racy (c : config) : Prop := producer_race c ∨ consumer_race c.

(** *** The invariant

    [H] and [N] count the completed pushes and pops, [vals] lists every
    value pushed so far. *)
Definition n_push (c : config) : nat := (length (head_mo c) - 1)%nat.
Definition n_pop (c : config) : nat := (length (tail_mo c) - 1)%nat.

Definition counter_mo (mo : list Z) (n : nat) : Prop :=
  mo = (λ i : nat, wrap_u64 (Z.of_nat i)) <$> seq 0 (S n).

(** Slots the consumer is done with: one more than [tail_] says while it
    is between the move and the store. *)
Definition n_taken (c : config) : nat :=
  (match cpc c with CRead _ _ => 1 | _ => 0 end + n_pop c)%nat.
Definition n_written (c : config) : nat :=
  (match ppc c with PStored _ _ => 1 | _ => 0 end + n_push c)%nat.

Definition producer_inv (c : config) : Prop :=
  match ppc c with
  | PIdle => True
  | PHead _ h => h = wrap_u64 (Z.of_nat (n_push c))
  | PTail _ h t => h = wrap_u64 (Z.of_nat (n_push c)) ∧ t = wrap_u64 (Z.of_nat (p_seen c))
  | PStored v h => h = wrap_u64 (Z.of_nat (n_push c)) ∧
                   (n_push c < p_seen c + capn Capacity)%nat ∧
                   buffer c !! slot Capacity (Z.of_nat (n_push c)) = Some v
  end.

Definition consumer_inv (vals : list T) (c : config) : Prop :=
  match cpc c with
  | CIdle => True
  | CTail t => t = wrap_u64 (Z.of_nat (n_pop c))
  | CHead t h => t = wrap_u64 (Z.of_nat (n_pop c)) ∧ h = wrap_u64 (Z.of_nat (c_seen c))
  | CRead x t => t = wrap_u64 (Z.of_nat (n_pop c)) ∧ (n_pop c < c_seen c)%nat ∧
                 vals !! n_pop c = Some x
  end.

(** An epoch [Some (S i)] at slot [s] records the access at index [i]. *)
Definition epochs_inv (es : list (option nat)) (bound : nat) : Prop :=
  ∀ s r, es !! s = Some (Some r) →
    (1 ≤ r ≤ bound)%nat ∧ slot Capacity (Z.of_nat (r - 1)) = s.

Record inv (vals : list T) (c : config) : Prop := Inv {
  i_head : counter_mo (head_mo c) (n_push c);
  i_tail : counter_mo (tail_mo c) (n_pop c);
  i_buf : length (buffer c) = capn Capacity;
  i_vals : length vals = n_push c;
  i_pseen : (p_seen c ≤ n_pop c)%nat;
  i_room : (n_push c ≤ p_seen c + capn Capacity)%nat;
  i_cseen : (n_pop c ≤ c_seen c ≤ n_push c)%nat;
  i_prod : producer_inv c;
  i_cons : consumer_inv vals c;
  i_data : ∀ i, (n_taken c ≤ i < n_push c)%nat →
             buffer c !! slot Capacity (Z.of_nat i) = vals !! i;
  i_pe : epochs_inv (p_epoch c) (n_written c);
  i_ce : epochs_inv (c_epoch c) (n_taken c)
}.

Lemma counter_mo_length mo n : counter_mo mo n → length mo = S n.
Proof. intros ->. by rewrite length_fmap, length_seq. Qed.

Lemma counter_mo_lookup mo n i z :
  counter_mo mo n → mo !! i = Some z → (i ≤ n)%nat ∧ z = wrap_u64 (Z.of_nat i).
Proof.
  intros ->. rewrite list_lookup_fmap. intros (j & [-> Hj]%lookup_seq & ->)%fmap_Some.
  split; [lia | by rewrite Nat.add_0_l].
Qed.

Lemma counter_mo_last mo n : counter_mo mo n → last_store mo = wrap_u64 (Z.of_nat n).
Proof.
  intros Hmo. unfold last_store. rewrite (counter_mo_length _ _ Hmo).
  replace (S n - 1)%nat with n by lia. rewrite Hmo.
  apply list_lookup_total_correct. rewrite list_lookup_fmap.
  by rewrite lookup_seq_lt by lia.
Qed.

Lemma counter_mo_snoc mo n :
  counter_mo mo n → counter_mo (mo ++ [wrap_u64 (wrap_u64 (Z.of_nat n) + 1)]) (S n).
Proof.
  unfold counter_mo. intros ->. rewrite (seq_S (S n)), fmap_app. f_equal. simpl.
  rewrite wrap_succ. do 2 f_equal. lia.
Qed.

Lemma slot_ne_nat i j : (i < j < i + capn Capacity)%nat →
  slot Capacity (Z.of_nat i) ≠ slot Capacity (Z.of_nat j).
Proof using cap_ok.
  intros Hij. pose proof (capacity_range (Capacity := Capacity)).
  apply (slot_ne_near Capacity). unfold capn in Hij. lia.
Qed.

Lemma slot_lookup {A} (l : list A) i : length l = capn Capacity → is_Some (l !! slot Capacity i).
Proof using cap_ok. intros Hl. apply lookup_lt_is_Some. rewrite Hl. by apply slot_lt. Qed.

Lemma epochs_insert es bound n :
  epochs_inv es bound → (S n ≤ bound)%nat →
  epochs_inv (<[slot Capacity (Z.of_nat n) := Some (S n)]> es) bound.
Proof.
  intros He Hn s r. destruct (decide (s = slot Capacity (Z.of_nat n))) as [->|Hne].
  - intros Hlk. destruct (decide (slot Capacity (Z.of_nat n) < length es)%nat) as [Hlt|Hge].
    + rewrite list_lookup_insert_eq in Hlk by done. injection Hlk as <-.
      replace (S n - 1)%nat with n by lia. split; [lia | done].
    + rewrite list_insert_ge in Hlk by lia. by apply He.
  - rewrite list_lookup_insert_ne by done. apply He.
Qed.

Lemma epochs_weaken es b1 b2 : epochs_inv es b1 → (b1 ≤ b2)%nat → epochs_inv es b2.
Proof. intros He Hb s r [? ?]%He. split; [lia | done]. Qed.

(** Occupancy as the producer computes it. *)
Lemma producer_full_iff vals c :
  inv vals c →
  wrap_u64 (wrap_u64 (Z.of_nat (n_push c)) - wrap_u64 (Z.of_nat (p_seen c)))
  = Z.of_nat (n_push c) - Z.of_nat (p_seen c).
Proof using cap_ok.
  intros Hi. apply (wrap_sub_small Capacity).
  pose proof (i_pseen _ _ Hi). pose proof (i_room _ _ Hi). pose proof (i_cseen _ _ Hi).
  pose proof (capacity_range (Capacity := Capacity)). unfold capn in *. lia.
Qed.

Lemma consumer_empty_iff vals c :
  inv vals c →
  wrap_u64 (Z.of_nat (n_pop c)) = wrap_u64 (Z.of_nat (c_seen c)) ↔ n_pop c = c_seen c.
Proof using cap_ok.
  intros Hi. pose proof (i_pseen _ _ Hi). pose proof (i_room _ _ Hi).
  pose proof (i_cseen _ _ Hi). pose proof (capacity_range (Capacity := Capacity)).
  rewrite (wrap_eq_near Capacity); [lia|]. unfold capn in *. lia.
Qed.

Ltac conc_unfold :=
  unfold producer_inv, consumer_inv, n_taken, n_written in *;
  unfold n_push, n_pop in *; simpl in *.
Ltac conc_open H :=
  destruct H as [Hh Ht Hb Hv Hps Hrm Hcs Hp Hc Hd Hpe Hce]; conc_unfold.

Lemma init_inv : inv [] init_config.
Proof using cap_ok.
  assert (Hep : ∀ n, epochs_inv (replicate (capn Capacity) None) n).
  { intros n s r [? _]%lookup_replicate. done. }
  constructor; conc_unfold; try done; try lia; [by rewrite length_replicate].
Qed.

(** Loads and failed calls only move a view forward. *)
Lemma inv_producer_quiet vals c pp i :
  inv vals c →
  (∀ v h, ppc c ≠ PStored v h) → (∀ v h, pp ≠ PStored v h) →
  (p_seen c ≤ i ≤ n_pop c)%nat →
  producer_inv (Config (head_mo c) (tail_mo c) (buffer c) pp (cpc c) i (c_seen c) (p_epoch c) (c_epoch c)) →
  inv vals (Config (head_mo c) (tail_mo c) (buffer c) pp (cpc c) i (c_seen c) (p_epoch c) (c_epoch c)).
Proof.
  intros Hi Hold Hnew Hir Hpi. destruct c as [hm tm b pp0 cp ps cs pe ce]. conc_open Hi.
  assert (match pp with PStored _ _ => 1 | _ => 0 end = match pp0 with PStored _ _ => 1 | _ => 0 end)%nat
    as Heq.
  { destruct pp as [| | |v h], pp0 as [| | |v' h'];
      first [done | by destruct (Hnew v h) | by destruct (Hold v' h')]. }
  constructor; conc_unfold; auto; try lia. by rewrite Heq.
Qed.

Lemma inv_consumer_quiet vals c cp i :
  inv vals c →
  (∀ x t, cpc c ≠ CRead x t) → (∀ x t, cp ≠ CRead x t) →
  (c_seen c ≤ i ≤ n_push c)%nat →
  consumer_inv vals (Config (head_mo c) (tail_mo c) (buffer c) (ppc c) cp (p_seen c) i (p_epoch c) (c_epoch c)) →
  inv vals (Config (head_mo c) (tail_mo c) (buffer c) (ppc c) cp (p_seen c) i (p_epoch c) (c_epoch c)).
Proof.
  intros Hi Hold Hnew Hir Hci. destruct c as [hm tm b pp cp0 ps cs pe ce]. conc_open Hi.
  assert (match cp with CRead _ _ => 1 | _ => 0 end = match cp0 with CRead _ _ => 1 | _ => 0 end)%nat
    as Heq.
  { destruct cp as [| | |v h], cp0 as [| | |v' h'];
      first [done | by destruct (Hnew v h) | by destruct (Hold v' h')]. }
  constructor; conc_unfold; rewrite ?Heq; auto; lia.
Qed.

Lemma inv_p_write vals hm tm b cp ps cs pe ce v h t :
  inv vals (Config hm tm b (PTail v h t) cp ps cs pe ce) → wrap_u64 (h - t) < Capacity →
  inv vals (Config hm tm (<[slot Capacity h := v]> b) (PStored v h) cp ps cs
                   (<[slot Capacity h := Some (length hm)]> pe) ce).
Proof using cap_ok.
  intros Hi Hroom. pose proof (producer_full_iff _ _ Hi) as Hocc.
  conc_open Hi. destruct Hp as [-> ->]. rewrite Hocc in Hroom.
  pose proof (counter_mo_length _ _ Hh) as Hl. rewrite slot_wrap by done.
  assert (Hlt : (length hm - 1 < ps + capn Capacity)%nat) by (unfold capn; lia).
  constructor; conc_unfold; auto.
  - by rewrite length_insert.
  - split_and!; [done | done |]. rewrite list_lookup_insert_eq; [done|]. rewrite Hb. by apply slot_lt.
  - intros i Hir. rewrite list_lookup_insert_ne; [by apply Hd|].
    intros Heq. symmetry in Heq. revert Heq. apply slot_ne_nat.
    destruct cp; lia.
  - replace (Some (length hm)) with (Some (S (length hm - 1))) by (f_equal; lia).
    apply epochs_insert; [|lia]. eapply epochs_weaken; [exact Hpe | lia].
Qed.

Lemma inv_p_store vals hm tm b cp ps cs pe ce v h :
  inv vals (Config hm tm b (PStored v h) cp ps cs pe ce) →
  inv (vals ++ [v]) (Config (hm ++ [wrap_u64 (h + 1)]) tm b PIdle cp ps cs pe ce).
Proof.
  intros Hi. conc_open Hi. destruct Hp as (-> & Hlt & Hbuf).
  pose proof (counter_mo_length _ _ Hh) as Hl.
  assert (Hn : (length (hm ++ [wrap_u64 (wrap_u64 (Z.of_nat (length hm - 1)) + 1)]) - 1
                = S (length hm - 1))%nat) by (rewrite length_app; simpl; lia).
  constructor; conc_unfold; rewrite ?Hn; auto; try lia.
  - by apply counter_mo_snoc.
  - rewrite length_app. simpl. lia.
  - destruct cp; auto. destruct Hc as (? & ? & ?). split_and!; auto. by apply lookup_app_l_Some.
  - intros i Hir. destruct (decide (i = length hm - 1)%nat) as [->|Hne].
    + rewrite Hbuf, lookup_app_r by lia. by rewrite Hv, Nat.sub_diag.
    + rewrite lookup_app_l by lia. apply Hd. lia.
Qed.

Lemma inv_c_read vals hm tm b pp ps cs pe ce t h x :
  inv vals (Config hm tm b pp (CHead t h) ps cs pe ce) → t ≠ h → b !! slot Capacity t = Some x →
  inv vals (Config hm tm (<[slot Capacity t := moved x]> b) pp (CRead x t) ps cs
                   pe (<[slot Capacity t := Some (length tm)]> ce)).
Proof using cap_ok.
  intros Hi Hne Hx. pose proof (consumer_empty_iff _ _ Hi) as Hemp.
  conc_open Hi. destruct Hc as [-> ->]. rewrite Hemp in Hne.
  pose proof (counter_mo_length _ _ Ht) as Hl. rewrite slot_wrap in * by done.
  constructor; conc_unfold; auto; try lia.
  - by rewrite length_insert.
  - destruct pp; auto. destruct Hp as (-> & Hlt & Hbuf). split_and!; [done | done |].
    rewrite list_lookup_insert_ne; [done|]. apply slot_ne_nat. lia.
  - split_and!; [done | lia |]. rewrite <- Hd; [done | lia].
  - intros i Hir. rewrite list_lookup_insert_ne; [apply Hd; lia|]. apply slot_ne_nat. lia.
  - replace (Some (length tm)) with (Some (S (length tm - 1))) by (f_equal; lia).
    apply epochs_insert; [|lia]. eapply epochs_weaken; [exact Hce | lia].
Qed.

Lemma inv_c_store vals hm tm b pp ps cs pe ce x t :
  inv vals (Config hm tm b pp (CRead x t) ps cs pe ce) →
  inv vals (Config hm (tm ++ [wrap_u64 (t + 1)]) b pp CIdle ps cs pe ce).
Proof.
  intros Hi. conc_open Hi. destruct Hc as (-> & Hlt & Hval).
  pose proof (counter_mo_length _ _ Ht) as Hl.
  assert (Hn : (length (tm ++ [wrap_u64 (wrap_u64 (Z.of_nat (length tm - 1)) + 1)]) - 1
                = S (length tm - 1))%nat) by (rewrite length_app; simpl; lia).
  constructor; conc_unfold; rewrite ?Hn; auto; try lia.
  by apply counter_mo_snoc.
Qed.

(** The abstract queue a configuration stands for. *)
Definition abs (c : config) (q : list T) : Prop :=
  ∃ vals, inv vals c ∧ q = drop (n_pop c) vals.

Lemma inv_quiet_step vals c l c' :
  inv vals c → step c l c' →
  (∀ v, l ≠ Some (Fifo.Push v)) → (∀ v, l ≠ Some (Fifo.Pop v)) →
  inv vals c' ∧ n_pop c' = n_pop c.
Proof using cap_ok.
  intros Hi Hst Hpush Hpop.
  destruct Hst as [?????????|???????????? Hle Hlk|??????????? Hfull|??????????? Hroom|??????????
                  |????????|??????????? Hle Hlk|?????????? Heq|??????????? Hne Hx|??????????];
    try (exfalso; by eapply Hpush); try (exfalso; by eapply Hpop); (split; [|done]).
  - pose proof (counter_mo_last _ _ (i_head _ _ Hi)) as Hl.
    apply (inv_producer_quiet _ _ _ _ Hi); simpl; try done. pose proof (i_pseen _ _ Hi). simpl in *. lia.
  - destruct (counter_mo_lookup _ _ _ _ (i_tail _ _ Hi) Hlk) as [? ->].
    pose proof (i_prod _ _ Hi) as Hp. simpl in Hp.
    apply (inv_producer_quiet _ _ _ _ Hi); simpl; done.
  - apply (inv_producer_quiet _ _ _ _ Hi); simpl; try done. pose proof (i_pseen _ _ Hi). simpl in *. lia.
  - by eapply inv_p_write.
  - pose proof (counter_mo_last _ _ (i_tail _ _ Hi)) as Hl.
    apply (inv_consumer_quiet _ _ _ _ Hi); simpl; try done. pose proof (i_cseen _ _ Hi). simpl in *. lia.
  - destruct (counter_mo_lookup _ _ _ _ (i_head _ _ Hi) Hlk) as [? ->].
    pose proof (i_cons _ _ Hi) as Hc. simpl in Hc.
    apply (inv_consumer_quiet _ _ _ _ Hi); simpl; done.
  - apply (inv_consumer_quiet _ _ _ _ Hi); simpl; try done. pose proof (i_cseen _ _ Hi). simpl in *. lia.
  - by eapply inv_c_read.
Qed.

Lemma step_simulates c l c' q :
  abs c q → step c l c' →
  match l with
  | None => abs c' q
  | Some ev => ∃ q', Fifo.bq_step (capn Capacity) q ev q' ∧ abs c' q'
  end.
Proof using cap_ok.
  intros (vals & Hi & ->) Hst.
  destruct l as [[v|v|x|]|].
  - inversion Hst; subst; clear Hst. eexists. split; [|eexists; split; [by eapply inv_p_store | done]].
    pose proof (inv_p_store _ _ _ _ _ _ _ _ _ _ _ Hi) as Hi'.
    conc_open Hi. destruct Hp as (-> & Hlt & ?).
    rewrite drop_app_le by lia. constructor. rewrite length_drop. lia.
  - destruct (inv_quiet_step _ _ _ _ Hi Hst) as [Hi' Hn]; [done | done |].
    eexists. split; [constructor|]. exists vals. by rewrite Hn.
  - inversion Hst; subst; clear Hst. eexists. split; [|eexists; split; [by eapply inv_c_store | done]].
    conc_open Hi. destruct Hc as (-> & ? & Hval).
    pose proof (counter_mo_length _ _ Ht) as Hl.
    rewrite (drop_S _ _ _ Hval), length_app. simpl.
    replace (length tm + 1 - 1)%nat with (S (length tm - 1)) by lia. constructor.
  - destruct (inv_quiet_step _ _ _ _ Hi Hst) as [Hi' Hn]; [done | done |].
    eexists. split; [constructor|]. exists vals. by rewrite Hn.
  - destruct (inv_quiet_step _ _ _ _ Hi Hst) as [Hi' Hn]; [done | done |].
    exists vals. by rewrite Hn.
Qed.

Lemma init_abs : abs init_config [].
Proof using cap_ok. exists []. split; [apply init_inv | done]. Qed.

Lemma reachable_abs tr c :
  run step init_config tr c →
  ∃ q, run (Fifo.bq_step (capn Capacity)) [] (omap id tr) q ∧ abs c q.
Proof using cap_ok.
  apply (simulation_run step (Fifo.bq_step (capn Capacity)) abs id); [|apply init_abs].
  intros s1 l s1' s2 Habs Hst. exact (step_simulates _ _ _ _ Habs Hst).
Qed.

Lemma inv_not_racy vals c : inv vals c → ¬ racy c.
Proof using cap_ok.
  intros Hi. pose proof (producer_full_iff _ _ Hi) as Hocc.
  pose proof (consumer_empty_iff _ _ Hi) as Hemp.
  destruct c as [hm tm b pp cp ps cs pe ce]. conc_open Hi.
  pose proof (capacity_range (Capacity := Capacity)) as [? _].
  intros [(v & h & t & r & Hpp & Hroom & Hep & Hlt) | (t & h & w & Hcp & Hne & Hep & Hlt)];
    simpl in *; subst.
  - destruct Hp as [-> ->]. rewrite Hocc in Hroom. rewrite slot_wrap in Hep by done.
    apply Hce in Hep as [Hr Hs]. apply slot_inj_near in Hs; [|done|]; unfold capn in *;
      destruct cp; simpl in *; lia.
  - destruct Hc as [-> ->]. rewrite Hemp in Hne. rewrite slot_wrap in Hep by done.
    apply Hpe in Hep as [Hw Hs]. symmetry in Hs.
    apply slot_inj_near in Hs; [|done|]; unfold capn in *; destruct pp; simpl in *; lia.
Qed.

(** C1: The two-thread ring buffer refines a bounded FIFO queue: for every interleaving
    of the producer's and the consumer's memory accesses, with acquire loads free to
    return older values, the pushes, pops and failed attempts seen from outside are a
    run of the bounded FIFO queue. *)
Theorem conc_refines_fifo tr c :
  run step init_config tr c →
  ∃ q, run (Fifo.bq_step (capn Capacity)) [] (omap id tr) q ∧ abs c q.
Proof using cap_ok. apply reachable_abs. Qed.

(** Values come out in the order they went in, none lost, none twice. *)
Theorem conc_fifo tr c :
  run step init_config tr c →
  ∃ rest, omap Fifo.pushed (omap id tr) = omap Fifo.popped (omap id tr) ++ rest ∧
          (length rest ≤ capn Capacity)%nat.
Proof using cap_ok.
  intros (q & Hq & _)%reachable_abs. exists q. by apply Fifo.bq_run_fifo.
Qed.

(** C2: In no reachable state of the ring buffer are the producer about to write and the
    consumer about to read the same slot: the plain accesses to buffer_ never race. *)
Theorem conc_race_free tr c : run step init_config tr c → ¬ racy c.
Proof using cap_ok. intros (q & _ & vals & Hi & _)%reachable_abs. by eapply inv_not_racy. Qed.

Lemma counter_mo_is_Some mo n i : counter_mo mo n → (i ≤ n)%nat → is_Some (mo !! i).
Proof. intros Hmo Hi. apply lookup_lt_is_Some. rewrite (counter_mo_length _ _ Hmo). lia. Qed.

Lemma producer_progress vals c :
  inv vals c → ∃ l c', step c l c' ∧ cpc c' = cpc c ∧ ppc c' ≠ ppc c.
Proof using All.
  destruct c as [hm tm b pp cp ps cs pe ce]. intros Hi. destruct pp as [|v h|v h t|v h].
  - do 2 eexists. split; [apply (p_load_head _ _ _ _ _ _ _ _ inhabitant) | done].
  - destruct (counter_mo_is_Some tm _ ps (i_tail _ _ Hi)) as [t Ht]; [apply (i_pseen _ _ Hi)|].
    do 2 eexists. split; [by eapply p_load_tail | done].
  - destruct (Z.le_gt_cases Capacity (wrap_u64 (h - t))).
    + do 2 eexists. split; [by apply p_full | done].
    + do 2 eexists. split; [by apply p_write | done].
  - do 2 eexists. split; [apply p_store | done].
Qed.

Lemma consumer_progress vals c :
  inv vals c → ∃ l c', step c l c' ∧ ppc c' = ppc c ∧ cpc c' ≠ cpc c.
Proof using cap_ok.
  destruct c as [hm tm b pp cp ps cs pe ce]. intros Hi. destruct cp as [|t|t h|x t].
  - do 2 eexists. split; [apply c_load_tail | done].
  - destruct (counter_mo_is_Some hm _ cs (i_head _ _ Hi)) as [h Hh]; [apply (i_cseen _ _ Hi)|].
    do 2 eexists. split; [by eapply c_load_head | done].
  - destruct (decide (t = h)) as [->|Hne].
    + do 2 eexists. split; [by apply c_empty | done].
    + destruct (slot_lookup b t (i_buf _ _ Hi)) as [x Hx].
      do 2 eexists. split; [by apply c_read | done].
  - do 2 eexists. split; [apply c_store | done].
Qed.

End conc_queue.
End Conc.

(** ** Concrete instances *)

#[export] Instance capacity_4 : CapacityOk 4.
Proof. split; [unfold u64_mod; lia | done]. Qed.

(** [k_queue_capacity] of the streams' [QueueState]. *)
#[export] Instance capacity_4096 : CapacityOk 4096.
Proof. split; [unfold u64_mod; lia | done]. Qed.

Module SpscWitness.

(** A queue of strings at the last counter value before the wrap. *)
Definition near_wrap : Seq.queue (T := string) :=
  {| Seq.head_ := 2 ^ 64 - 1; Seq.tail_ := 2 ^ 64 - 3; Seq.buffer_ := ["a"; "b"; "c"; "d"] |}.

Definition near_wrap_calls : list (Seq.call (T := string)) :=
  [Seq.CPush "x"; Seq.CPush "y"; Seq.CPushMove "z"; Seq.CSize; Seq.CPop; Seq.CPop; Seq.CPop;
   Seq.CPop; Seq.CPop; Seq.CEmpty].

Lemma near_wrap_wf : Seq.wf 4 near_wrap.
Proof. by constructor; vm_compute. Qed.

Lemma calls_refine_fifo_witness :
  Seq.wf 4 near_wrap ∧
  ∃ q', Seq.exec_calls (λ _, "") 4 near_wrap_calls near_wrap =
    ([Seq.APushed true; Seq.APushed true; Seq.APushMoved false "z"; Seq.ASize 4;
      Seq.APopped (Some "b"); Seq.APopped (Some "c"); Seq.APopped (Some "x");
      Seq.APopped (Some "y"); Seq.APopped None; Seq.AEmpty true], q').
Proof.
  split; [exact near_wrap_wf|].
  destruct (Seq.calls_refine_fifo (λ _, "") 4 near_wrap_calls near_wrap near_wrap_wf) as (q' & Hq & _).
  exists q'. exact Hq.
Defined.

Lemma destructor_drains_witness :
  ∃ q', Seq.drain (λ _, "") 4 5 near_wrap = Some (["b"; "c"], q') ∧ Seq.contents 4 q' = [].
Proof.
  destruct (Seq.destructor_drains (λ _, "") 4 5 near_wrap near_wrap_wf) as (q' & Hq & Hc);
    [vm_compute; lia|].
  exists q'. split; [exact Hq | exact Hc].
Defined.

(** The producer pushes 7 while the consumer polls, then the consumer
    takes it after the producer has reloaded a stale [tail_]. *)
Definition demo_trace : list (option (Fifo.qlabel Z)) :=
  [None; None; None; None; None; Some Fifo.PopEmpty; Some (Fifo.Push 7);
   None; None; None; Some (Fifo.Pop 7)].

Lemma demo_run : ∃ c, run (Conc.step (λ _, 0) 4) (Conc.init_config 4) demo_trace c.
Proof.
  eexists. unfold demo_trace, Conc.init_config.
  eapply run_cons; [apply (Conc.p_load_head _ _ _ _ _ _ _ _ _ _ 7)|].
  eapply run_cons; [eapply (Conc.p_load_tail _ _ _ _ _ _ _ _ _ _ _ _ 0); [lia | done]|].
  eapply run_cons; [by apply Conc.p_write|].
  eapply run_cons; [apply Conc.c_load_tail|].
  eapply run_cons; [eapply (Conc.c_load_head _ _ _ _ _ _ _ _ _ _ _ 0); [lia | done]|].
  eapply run_cons; [by apply Conc.c_empty|].
  eapply run_cons; [apply Conc.p_store|].
  eapply run_cons; [apply Conc.c_load_tail|].
  eapply run_cons; [eapply (Conc.c_load_head _ _ _ _ _ _ _ _ _ _ _ 1); [lia | done]|].
  eapply run_cons; [by eapply (Conc.c_read _ _ _ _ _ _ _ _ _ _ _ _ 7)|].
  eapply run_cons; [apply Conc.c_store|].
  apply run_nil.
Qed.

Lemma conc_refines_fifo_witness :
  ∃ q, run (Fifo.bq_step (capn 4)) [] (omap id demo_trace) q.
Proof.
  destruct demo_run as [c Hr].
  destruct (Conc.conc_refines_fifo (λ _, 0) 4 demo_trace c Hr) as (q & Hq & _). by exists q.
Defined.

Lemma conc_fifo_witness : ∃ rest : list Z, [7] = [7] ++ rest ∧ (length rest ≤ capn 4)%nat.
Proof.
  destruct demo_run as [c Hr]. exact (Conc.conc_fifo (λ _, 0) 4 demo_trace c Hr).
Defined.

Lemma conc_race_free_witness :
  ∃ c, run (Conc.step (λ _, 0) 4) (Conc.init_config 4) demo_trace c ∧ ¬ Conc.racy 4 c.
Proof.
  destruct demo_run as [c Hr]. exists c. split; [exact Hr|].
  exact (Conc.conc_race_free (λ _, 0) 4 demo_trace c Hr).
Defined.

End SpscWitness.
