(* ===== verification/Errors.v ===== *)
(** * include/bintrade/core/error.hpp, src/core/error.cpp

    Error codes, the error category and the exception hierarchy, together
    with the exceptions of other libraries that the sources throw or
    catch. *)

From S2P Require Import Prelude.
Local Open Scope Z_scope.

Inductive ErrorCode : Type :=
| Success | ConnectionFailed | Timeout | InvalidApiKey | InvalidSignature
| InvalidTimestamp | RateLimitExceeded | InvalidSymbol | InvalidOrderType
| InvalidQuantity | InvalidPrice | InsufficientBalance | ParseError | UnknownError.

#[global] Instance ErrorCode_eq_dec : EqDecision ErrorCode.
Proof. solve_decision. Defined.

(** [static_cast<int>(e)]: enumerators are numbered in order from 0. *)
Definition error_code_to_int (e : ErrorCode) : Z :=
  match e with
  | Success => 0 | ConnectionFailed => 1 | Timeout => 2 | InvalidApiKey => 3
  | InvalidSignature => 4 | InvalidTimestamp => 5 | RateLimitExceeded => 6
  | InvalidSymbol => 7 | InvalidOrderType => 8 | InvalidQuantity => 9
  | InvalidPrice => 10 | InsufficientBalance => 11 | ParseError => 12
  | UnknownError => 13
  end.

(** [static_cast<ErrorCode>(ev)]; [None] is a value with no enumerator. *)
Definition error_code_of_int (ev : Z) : option ErrorCode :=
  if ev =? 0 then Some Success
  else if ev =? 1 then Some ConnectionFailed
  else if ev =? 2 then Some Timeout
  else if ev =? 3 then Some InvalidApiKey
  else if ev =? 4 then Some InvalidSignature
  else if ev =? 5 then Some InvalidTimestamp
  else if ev =? 6 then Some RateLimitExceeded
  else if ev =? 7 then Some InvalidSymbol
  else if ev =? 8 then Some InvalidOrderType
  else if ev =? 9 then Some InvalidQuantity
  else if ev =? 10 then Some InvalidPrice
  else if ev =? 11 then Some InsufficientBalance
  else if ev =? 12 then Some ParseError
  else if ev =? 13 then Some UnknownError
  else None.

(** [ErrorCategory::message] *)
Definition category_message (ev : Z) : string :=
  match error_code_of_int ev with
  | Some Success => "Success"
  | Some ConnectionFailed => "Connection failed"
  | Some Timeout => "Request timed out"
  | Some InvalidApiKey => "Invalid API key"
  | Some InvalidSignature => "Invalid signature"
  | Some InvalidTimestamp => "Invalid timestamp"
  | Some RateLimitExceeded => "Rate limit exceeded"
  | Some InvalidSymbol => "Invalid symbol"
  | Some InvalidOrderType => "Invalid order type"
  | Some InvalidQuantity => "Invalid quantity"
  | Some InvalidPrice => "Invalid price"
  | Some InsufficientBalance => "Insufficient balance"
  | Some ParseError => "JSON parse error"
  | Some UnknownError => "Unknown error"
  | None => "Unknown error code"
  end.

(** [std::error_category]: what the code uses of the interface. *)
Record category : Type := { cat_name : string; cat_message : Z → string }.

(** [ErrorCategory::name], [get_error_category] *)
Definition get_error_category : category :=
  {| cat_name := "bintrade"; cat_message := category_message |}.

(** [std::error_code] *)
Record error_code : Type := { ec_value : Z; ec_category : category }.

Definition ec_message (ec : error_code) : string := cat_message (ec_category ec) (ec_value ec).

Definition make_error_code (e : ErrorCode) : error_code :=
  {| ec_value := error_code_to_int e; ec_category := get_error_category |}.

(** The class of a thrown [bintrade::Exception]; only [ApiException]
    adds a field. *)
Inductive exception_class : Type :=
| CException
| NetworkException
| ApiException_ (http_code_ : Z)
| AuthenticationException
| ValidationException.

Record Exception : Type := mkException {
  class_ : exception_class;
  code_ : error_code;
  message_ : string
}.

(** [Exception(std::string)], [Exception(std::error_code)],
    [Exception(std::error_code, std::string)] *)
Definition Exception_msg (c : exception_class) (message : string) : Exception :=
  mkException c (make_error_code UnknownError) message.
Definition Exception_ec (c : exception_class) (ec : error_code) : Exception :=
  mkException c ec (ec_message ec).
Definition Exception_ec_msg (c : exception_class) (ec : error_code) (message : string) : Exception :=
  mkException c ec message.

(** [ApiException(int, std::string)] *)
Definition ApiException (http_code : Z) (message : string) : Exception :=
  Exception_msg (ApiException_ http_code) message.

Definition what (e : Exception) : string := message_ e.
Definition code (e : Exception) : error_code := code_ e.
(** [ApiException::http_code]; [None] on another class. *)
Definition http_code (e : Exception) : option Z :=
  match class_ e with ApiException_ c => Some c | _ => None end.

(** Everything that can propagate as a C++ exception here.  The integer
    of the JSON errors is the exception id the library documents. *)
Inductive exn : Type :=
| bt (e : Exception)
| std_invalid_argument (what : string)
| std_out_of_range (what : string)
| std_bad_function_call
| std_system_error (what : string)
| beast_system_error (what : string)
| json_parse_error (id : Z)
| json_type_error (id : Z)
| json_out_of_range (id : Z).

Definition throw_network {A} (msg : string) : outcome exn A :=
  Throw (bt (Exception_msg NetworkException msg)).
Definition throw_api {A} (c : Z) (msg : string) : outcome exn A :=
  Throw (bt (ApiException c msg)).
Definition throw_auth {A} (msg : string) : outcome exn A :=
  Throw (bt (Exception_msg AuthenticationException msg)).
Definition throw_validation {A} (msg : string) : outcome exn A :=
  Throw (bt (Exception_msg ValidationException msg)).

Lemma error_code_round_trip e : error_code_of_int (error_code_to_int e) = Some e.
Proof. by destruct e. Qed.

Lemma error_code_of_int_Some ev e : error_code_of_int ev = Some e → ev = error_code_to_int e.
Proof.
  unfold error_code_of_int. intros H.
  repeat (case_match; [by simplify_eq; apply Z.eqb_eq|]). done.
Qed.

(** Every defined code has its own text, and a foreign integer gets the
    fallback, which no defined code uses. *)
Theorem error_message_identifies_code ev1 ev2 :
  (category_message ev1 = "Unknown error code" ↔ error_code_of_int ev1 = None) ∧
  (category_message ev1 = category_message ev2 →
   ev1 = ev2 ∨ (error_code_of_int ev1 = None ∧ error_code_of_int ev2 = None)).
Proof.
  unfold category_message. split.
  - by destruct (error_code_of_int ev1) as [[]|].
  - destruct (error_code_of_int ev1) as [e1|] eqn:H1, (error_code_of_int ev2) as [e2|] eqn:H2;
      try apply error_code_of_int_Some in H1; try apply error_code_of_int_Some in H2; subst.
    + by destruct e1, e2; intros; left.
    + by destruct e1.
    + by destruct e2.
    + by right.
Qed.
