(* ===== verification/CppLib.v ===== *)
(** * The C++ library functions the sources call

    [std::to_string], [std::stoi], [std::stod], [std::tolower],
    [std::string::find]/[substr], [double] arithmetic (IEEE binary64 as
    [spec_float]) and [std::unordered_map<string,string>].  Integers are
    mathematical with their range tests written out; behaviour that the
    standard leaves to the implementation follows glibc/libstdc++ in the
    "C" locale. *)

From Stdlib Require Import SpecFloat Ascii.
From S2P Require Import Prelude Errors.
Local Open Scope Z_scope.

(** ** Characters *)
Module Chars.

Definition code (c : ascii) : Z := Z.of_N (N_of_ascii c).
Definition chr (z : Z) : ascii := ascii_of_N (Z.to_N z).

Definition is_digit (c : ascii) : bool := (48 <=? code c) && (code c <=? 57).
Definition is_upper (c : ascii) : bool := (65 <=? code c) && (code c <=? 90).
Definition is_space (c : ascii) : bool := (code c =? 32) || ((9 <=? code c) && (code c <=? 13)).

Definition tolower (c : ascii) : ascii := if is_upper c then chr (code c + 32) else c.

Definition digit_char (d : Z) : ascii := chr (48 + d).
Definition digit_val (c : ascii) : Z := code c - 48.

(** [std::ranges::transform(s, s.begin(), tolower)] *)
Fixpoint lower (s : string) : string :=
  match s with
  | EmptyString => EmptyString
  | String c s => String (tolower c) (lower s)
  end.

Fixpoint skip_space (s : string) : string :=
  match s with
  | String c s' => if is_space c then skip_space s' else s
  | EmptyString => s
  end.

Lemma digit_char_spec d :
  0 ≤ d < 10 → is_digit (digit_char d) = true ∧ digit_val (digit_char d) = d.
Proof.
  intros Hd. assert (∃ n : nat, d = Z.of_nat n ∧ (n < 10)%nat) as (n & -> & Hn).
  { exists (Z.to_nat d). lia. }
  do 10 (destruct n as [|n]; [done|]). lia.
Qed.

Lemma lower_idem s : lower (lower s) = lower s.
Proof.
  induction s as [|c s IH]; [done|]. simpl. rewrite IH. f_equal.
  by destruct c as [[] [] [] [] [] [] [] []].
Qed.

Lemma lower_app s t : lower (s +:+ t) = lower s +:+ lower t.
Proof. induction s as [|c s IH]; [done|]. rewrite str_app_cons. simpl.
  by rewrite IH. Qed.
End Chars.

(** ** Decimal digits *)
Module Dec.
Import Chars.

(** Most significant first; [fuel] bounds the number of digits. *)
Fixpoint digits (fuel : nat) (n : Z) : list Z :=
  match fuel with
  | O => []
  | S fuel => if n <? 10 then [n] else digits fuel (n / 10) ++ [n mod 10]
  end.

Definition digits_fuel (n : Z) : nat := S (Z.to_nat (Z.log2 n)).

Definition of_digits (ds : list Z) : string :=
  foldr (λ d s, String (digit_char d) s) EmptyString ds.

Definition value_from (acc : Z) (ds : list Z) : Z := foldl (λ v d, 10 * v + d) acc ds.

Definition print_nat (n : Z) : string := of_digits (digits (digits_fuel n) n).

(** [std::to_string] on the integer types *)
Definition to_string (z : Z) : string :=
  if z <? 0 then "-" +:+ print_nat (- z) else print_nat z.

(** The longest prefix of digits, and what follows it. *)
Fixpoint scan_digits (s : string) : list Z * string :=
  match s with
  | String c s' =>
      if is_digit c then let '(ds, r) := scan_digits s' in (digit_val c :: ds, r) else ([], s)
  | EmptyString => ([], EmptyString)
  end.

(** Exactly [n] digits, zero-padded on the left ([%0nd] on [0 ≤ z < 10^n]). *)
Fixpoint pad_digits (n : nat) (z : Z) : list Z :=
  match n with
  | O => []
  | S n => pad_digits n (z / 10) ++ [z mod 10]
  end.

Definition starts_nondigit (s : string) : bool :=
  match s with String c _ => negb (is_digit c) | EmptyString => true end.

Lemma value_app acc ds d : value_from acc (ds ++ [d]) = 10 * value_from acc ds + d.
Proof. unfold value_from. by rewrite foldl_app. Qed.

Lemma digits_value fuel n :
  0 ≤ n < 2 ^ Z.of_nat fuel → value_from 0 (digits fuel n) = n.
Proof.
  revert n. induction fuel as [|fuel IH]; intros n Hn; [simpl in *; lia|].
  simpl. destruct (Z.ltb_spec n 10) as [Hlt|Hge]; [simpl; lia|].
  rewrite value_app, IH; [pose proof (Z.div_mod n 10); lia|].
  rewrite Nat2Z.inj_succ, Z.pow_succ_r in Hn by lia.
  pose proof (Z.div_pos n 10). pose proof (Z.mul_div_le n 10). lia.
Qed.

Lemma digits_fuel_enough n : 0 ≤ n → 0 ≤ n < 2 ^ Z.of_nat (digits_fuel n).
Proof.
  intros Hn. split; [done|]. unfold digits_fuel.
  rewrite Nat2Z.inj_succ, Z2Nat.id by apply Z.log2_nonneg.
  destruct (decide (n = 0)) as [->|]; [done|]. apply Z.log2_spec. lia.
Qed.

Lemma digits_range fuel n : 0 ≤ n → Forall (λ d, 0 ≤ d < 10) (digits fuel n).
Proof.
  revert n. induction fuel as [|fuel IH]; intros n Hn; simpl; [constructor|].
  destruct (Z.ltb_spec n 10); [repeat constructor; lia|].
  apply Forall_app. split; [apply IH; by apply Z.div_pos|].
  repeat constructor; apply Z.mod_pos_bound; lia.
Qed.

Lemma digits_nonempty fuel n : digits (S fuel) n ≠ [].
Proof. simpl. case_match; [done|]. by intros [_ ?]%app_nil. Qed.

Lemma pad_digits_range n z : Forall (λ d, 0 ≤ d < 10) (pad_digits n z).
Proof.
  revert z. induction n as [|n IH]; intros z; simpl; [constructor|].
  apply Forall_app. split; [apply IH|]. repeat constructor; apply Z.mod_pos_bound; lia.
Qed.

Lemma pad_digits_length n z : length (pad_digits n z) = n.
Proof. revert z. induction n; intros z; simpl; [done|]. rewrite length_app, IHn. simpl. lia. Qed.

Lemma pad_digits_value n z acc :
  value_from acc (pad_digits n z) = acc * 10 ^ Z.of_nat n + z mod 10 ^ Z.of_nat n.
Proof.
  revert z. induction n as [|n IH]; intros z; simpl; [rewrite Z.mod_1_r; lia|].
  rewrite value_app, IH, Nat2Z.inj_succ, Z.pow_succ_r by lia.
  rewrite Z.rem_mul_r by lia. lia.
Qed.

Lemma scan_of_digits ds r :
  Forall (λ d, 0 ≤ d < 10) ds → starts_nondigit r = true →
  scan_digits (of_digits ds +:+ r) = (ds, r).
Proof.
  intros Hds Hr. induction Hds as [|d ds Hd Hds IH].
  - rewrite str_app_nil_l. destruct r as [|c r]; [done|]. simpl in *. by destruct (is_digit c).
  - change (of_digits (d :: ds) +:+ r) with (String (digit_char d) (of_digits ds +:+ r)).
    simpl. destruct (digit_char_spec d Hd) as [-> ->].
    by rewrite IH.
Qed.

Lemma print_nat_value n r :
  0 ≤ n → starts_nondigit r = true →
  ∃ ds, scan_digits (print_nat n +:+ r) = (ds, r) ∧ value_from 0 ds = n ∧ ds ≠ [].
Proof.
  intros Hn Hr. exists (digits (digits_fuel n) n). split_and!.
  - apply scan_of_digits; [by apply digits_range | done].
  - apply digits_value. by apply digits_fuel_enough.
  - apply digits_nonempty.
Qed.
End Dec.

(** ** [std::stoi] *)
Module Stoi.
Import Chars.

Definition scan_sign (s : string) : bool * string :=
  match s with
  | String c s' =>
      if code c =? 45 then (true, s') else if code c =? 43 then (false, s') else (false, s)
  | EmptyString => (false, s)
  end.

(** [strtol] in base 10, then the range test of [int]. *)
Definition stoi (s : string) : outcome exn Z :=
  let '(neg, s1) := scan_sign (skip_space s) in
  let '(ds, _) := Dec.scan_digits s1 in
  match ds with
  | [] => Throw (std_invalid_argument "stoi")
  | _ => let v := if neg then - Dec.value_from 0 ds else Dec.value_from 0 ds in
         if in_i32b v then Ok v else Throw (std_out_of_range "stoi")
  end.

Lemma print_nat_head n : 0 ≤ n → ∃ d s, 0 ≤ d < 10 ∧ Dec.print_nat n = String (digit_char d) s.
Proof.
  intros Hn. unfold Dec.print_nat, Dec.digits_fuel.
  pose proof (Dec.digits_range (S (Z.to_nat (Z.log2 n))) n Hn) as Hr.
  pose proof (Dec.digits_nonempty (Z.to_nat (Z.log2 n)) n) as Hne.
  destruct (Dec.digits _ n) as [|d ds]; [done|]. inversion Hr; subst.
  by exists d, (Dec.of_digits ds).
Qed.

Lemma digit_char_plain d : 0 ≤ d < 10 →
  is_space (digit_char d) = false ∧ (code (digit_char d) =? 45) = false ∧ (code (digit_char d) =? 43) = false.
Proof.
  intros Hd. assert (∃ n : nat, d = Z.of_nat n ∧ (n < 10)%nat) as (n & -> & Hn).
  { exists (Z.to_nat d). lia. }
  do 10 (destruct n as [|n]; [done|]). lia.
Qed.

(** [skip_space] and [scan_sign] leave printed naturals alone. *)
Lemma scan_print_nat n r : 0 ≤ n →
  skip_space (Dec.print_nat n +:+ r) = Dec.print_nat n +:+ r ∧
  scan_sign (Dec.print_nat n +:+ r) = (false, Dec.print_nat n +:+ r).
Proof.
  intros Hn. destruct (print_nat_head n Hn) as (d & s & Hd & ->).
  destruct (digit_char_plain d Hd) as (Hs & Hm & Hp).
  rewrite str_app_cons. simpl. by rewrite Hs, Hm, Hp.
Qed.

Lemma scan_to_string z :
  ∃ ds, (let '(neg, s1) := scan_sign (skip_space (Dec.to_string z)) in
         (neg, Dec.scan_digits s1)) = (z <? 0, (ds, "")) ∧
        Dec.value_from 0 ds = Z.abs z ∧ ds ≠ [].
Proof.
  assert (Hn : ∀ n, 0 ≤ n → ∃ ds, Dec.scan_digits (Dec.print_nat n) = (ds, "") ∧
                                  Dec.value_from 0 ds = n ∧ ds ≠ []).
  { intros n Hn. rewrite <- (str_app_nil_r (Dec.print_nat n)). by apply Dec.print_nat_value. }
  unfold Dec.to_string. destruct (Z.ltb_spec z 0) as [Hz|Hz].
  - destruct (Hn (- z)) as (ds & Hs & Hv & Hne); [lia|]. exists ds.
    change ("-" +:+ Dec.print_nat (- z)) with (String "-" (Dec.print_nat (- z))).
    simpl. rewrite Hs. split_and!; [done | lia | done].
  - destruct (Hn z) as (ds & Hs & Hv & Hne); [lia|]. exists ds.
    destruct (scan_print_nat z "" Hz) as [Hsp Hsg]. rewrite str_app_nil_r in Hsp, Hsg.
    rewrite Hsp, Hsg, Hs. split_and!; [done | lia | done].
Qed.

Lemma stoi_to_string z : in_i32 z → stoi (Dec.to_string z) = Ok z.
Proof.
  intros Hr. destruct (scan_to_string z) as (ds & Heq & Hv & Hne). unfold stoi.
  destruct (scan_sign _) as [neg s1]. injection Heq as -> Hs. rewrite Hs.
  destruct ds as [|d ds]; [done|]. rewrite Hv.
  replace (if z <? 0 then - Z.abs z else Z.abs z) with z by (destruct (Z.ltb_spec z 0); lia).
  by rewrite (proj2 (in_i32b_spec z)).
Qed.
End Stoi.

(** ** [double] *)
Module Dbl.
Import Chars.

Definition double : Type := spec_float.
Definition prec : Z := 53.
Definition emax : Z := 1024.

Definition dzero : double := S754_zero false.
Definition dmul : double → double → double := SFmul prec emax.
Definition dadd : double → double → double := SFadd prec emax.
(** [x > 0.0] *)
Definition dpos (x : double) : bool := SFltb dzero x.

(** Nearest integer to [n / d], ties to even. *)
Definition rne_div (n d : Z) : Z :=
  let q := n / d in
  let r := n mod d in
  match Z.compare (2 * r) d with
  | Lt => q
  | Gt => q + 1
  | Eq => if Z.even q then q else q + 1
  end.

(** The magnitude [m * 2^e] in millionths, rounded as [printf("%f")]. *)
Definition micros (m : positive) (e : Z) : Z :=
  if 0 <=? e then Z.pos m * 10 ^ 6 * 2 ^ e else rne_div (Z.pos m * 10 ^ 6) (2 ^ (- e)).

Definition print_micros (neg : bool) (u : Z) : string :=
  (if neg then "-" else "") +:+ Dec.print_nat (u / 10 ^ 6) +:+ "." +:+
  Dec.of_digits (Dec.pad_digits 6 (u mod 10 ^ 6)).

(** [std::to_string(double)] is [printf("%f")]. *)
Definition to_string (x : double) : string :=
  match x with
  | S754_nan => "nan"
  | S754_infinity s => if s then "-inf" else "inf"
  | S754_zero s => print_micros s 0
  | S754_finite s m e => print_micros s (micros m e)
  end.

(** *** [std::stod] *)

(** Sign, decimal significand, power of ten: what the text denotes. *)
Record decimal : Type := { d_neg : bool; d_mant : Z; d_exp : Z }.

Definition is_char (c : ascii) (z : Z) : bool := code c =? z.

(** Optional exponent part; absent unless a digit follows. *)
Definition scan_exponent (marks : list Z) (s : string) : Z :=
  match s with
  | String c s' =>
      if existsb (is_char c) marks then
        let '(neg, s1) := Stoi.scan_sign s' in
        match Dec.scan_digits s1 with
        | ([], _) => 0
        | (ds, _) => if neg then - Dec.value_from 0 ds else Dec.value_from 0 ds
        end
      else 0
  | EmptyString => 0
  end.

Definition scan_fraction (s : string) : list Z * string :=
  match s with
  | String c s' => if is_char c 46 then Dec.scan_digits s' else ([], s)
  | EmptyString => ([], s)
  end.

(** [None]: no conversion.  Letters (hexadecimal, inf, nan) are below. *)
Definition scan_decimal (s : string) : option decimal :=
  let '(neg, s1) := Stoi.scan_sign (skip_space s) in
  let '(int_ds, s2) := Dec.scan_digits s1 in
  let '(fs, s3) := scan_fraction s2 in
  match int_ds ++ fs with
  | [] => None
  | ds => Some {| d_neg := neg; d_mant := Dec.value_from 0 ds;
                  d_exp := scan_exponent [101; 69] s3 - Z.of_nat (length fs) |}
  end.

(** Rounding of [m * 10^e] to binary64 with glibc's [ERANGE] test: overflow,
    or a subnormal or zero result that is not exact. *)
Definition num_digits (m : Z) : Z := Z.of_nat (length (Dec.digits (Dec.digits_fuel m) m)).

Definition exact_result (m e : Z) (r : double) : bool :=
  match r with
  | S754_finite _ mr er =>
      Z.pos mr * 2 ^ Z.max 0 er * 10 ^ Z.max 0 (- e) =? m * 10 ^ Z.max 0 e * 2 ^ Z.max 0 (- er)
  | _ => false
  end.

Definition is_subnormal (r : double) : bool :=
  match r with
  | S754_zero _ => true
  | S754_finite _ mr _ => Z.pos (digits2_pos mr) <? prec
  | _ => false
  end.

Definition round_decimal (neg : bool) (m e : Z) : double :=
  match m with
  | Zpos p =>
      if 0 <=? e then binary_normalize prec emax (if neg then - (m * 10 ^ e) else m * 10 ^ e) 0 neg
      else let '(q, e', l) := SFdiv_core_binary prec emax m 0 (10 ^ (- e)) 0 in
           binary_round_aux prec emax neg q e' l
  | _ => S754_zero neg
  end.

Definition decimal_to_double (d : decimal) : outcome exn double :=
  let '{| d_neg := neg; d_mant := m; d_exp := e |} := d in
  if m =? 0 then Ok (S754_zero neg)
  else if 400 <? e + num_digits m then Throw (std_out_of_range "stod")
  else if e + num_digits m <? -400 then Throw (std_out_of_range "stod")
  else match round_decimal neg m e with
       | S754_infinity _ => Throw (std_out_of_range "stod")
       | r => if is_subnormal r && negb (exact_result m e r) then Throw (std_out_of_range "stod")
              else Ok r
       end.

(** Prefix test ignoring case. *)
Fixpoint has_prefix_ci (p s : string) : bool :=
  match p, s with
  | EmptyString, _ => true
  | String a p, String b s => (code a =? code (tolower b)) && has_prefix_ci p s
  | _, _ => false
  end.

Definition hex_val (c : ascii) : option Z :=
  let z := code (tolower c) in
  if is_digit c then Some (digit_val c)
  else if (97 <=? z) && (z <=? 102) then Some (z - 87) else None.

Fixpoint scan_hex (s : string) : list Z * string :=
  match s with
  | String c s' => match hex_val c with
                   | Some h => let '(hs, r) := scan_hex s' in (h :: hs, r)
                   | None => ([], s)
                   end
  | EmptyString => ([], s)
  end.

(** After [0x]: hexadecimal significand and binary exponent. *)
Definition scan_hexfloat (s : string) : option (Z * Z) :=
  let '(int_ds, s2) := scan_hex s in
  let '(fs, s3) := match s2 with
                   | String c s' => if is_char c 46 then scan_hex s' else ([], s2)
                   | EmptyString => ([], s2)
                   end in
  match int_ds ++ fs with
  | [] => None
  | hs => Some (foldl (λ v h, 16 * v + h) 0 hs,
                scan_exponent [112; 80] s3 - 4 * Z.of_nat (length fs))
  end.

Definition hex_to_double (neg : bool) (m e : Z) : outcome exn double :=
  match m with
  | Zpos p =>
      let bits := e + Z.pos (digits2_pos p) in
      if 1100 <? bits then Throw (std_out_of_range "stod")
      else if bits <? -1200 then Throw (std_out_of_range "stod")
      else match binary_round prec emax neg p e with
           | S754_infinity _ => Throw (std_out_of_range "stod")
           | S754_zero _ => Throw (std_out_of_range "stod")
           | S754_finite s mr er =>
               if (Z.pos (digits2_pos mr) <? prec)
                  && negb (Z.pos mr * 2 ^ Z.max 0 (er - e) =? m * 2 ^ Z.max 0 (e - er))
               then Throw (std_out_of_range "stod") else Ok (S754_finite s mr er)
           | r => Ok r
           end
  | _ => Ok (S754_zero neg)
  end.

Definition stod (s : string) : outcome exn double :=
  let '(neg, s1) := Stoi.scan_sign (skip_space s) in
  if has_prefix_ci "inf" s1 then Ok (S754_infinity neg)
  else if has_prefix_ci "nan" s1 then Ok S754_nan
  else if has_prefix_ci "0x" s1 then
    match scan_hexfloat (String.substring 2 (String.length s1 - 2) s1) with
    | Some (m, e) => hex_to_double neg m e
    | None => Ok (S754_zero neg)
    end
  else match scan_decimal s with
       | None => Throw (std_invalid_argument "stod")
       | Some d => decimal_to_double d
       end.

(** *** Printing is exact to half a millionth *)

Lemma rne_div_error n d : 0 < d → Z.abs (2 * (n - d * rne_div n d)) ≤ d.
Proof.
  intros Hd. unfold rne_div. pose proof (Z.div_mod n d). pose proof (Z.mod_pos_bound n d Hd).
  destruct (Z.compare_spec (2 * (n mod d)) d); [destruct (Z.even (n / d))|..]; nia.
Qed.

(** Rounding does not cross a multiple of the unit. *)
Lemma rne_div_ge n d q : 0 < d → d * q ≤ n → q ≤ rne_div n d.
Proof. intros Hd Hq. pose proof (rne_div_error n d Hd). nia. Qed.

Lemma rne_div_le n d q : 0 < d → n ≤ d * q → rne_div n d ≤ q.
Proof. intros Hd Hq. pose proof (rne_div_error n d Hd). nia. Qed.

Lemma rne_div_nonneg n d : 0 < d → 0 ≤ n → 0 ≤ rne_div n d.
Proof.
  intros Hd Hn. unfold rne_div. pose proof (Z.div_pos n d Hn Hd).
  destruct (_ ?= _); [destruct (Z.even _)|..]; lia.
Qed.

Lemma micros_nonneg m e : 0 ≤ micros m e.
Proof.
  unfold micros. destruct (Z.leb_spec 0 e).
  - pose proof (Z.pow_nonneg 2 e). lia.
  - apply rne_div_nonneg; [apply Z.pow_pos_nonneg; lia | lia].
Qed.

Lemma micros_error m e :
  Z.abs (2 * (Z.pos m * 10 ^ 6 * 2 ^ Z.max 0 e - 2 ^ Z.max 0 (- e) * micros m e)) ≤ 2 ^ Z.max 0 (- e).
Proof.
  unfold micros. destruct (Z.leb_spec 0 e).
  - rewrite (Z.max_r 0 e), (Z.max_l 0 (- e)) by lia. lia.
  - rewrite (Z.max_l 0 e), (Z.max_r 0 (- e)), Z.mul_1_r by lia.
    apply rne_div_error, Z.pow_pos_nonneg; lia.
Qed.

(** At most half a unit in the last printed place prints as zero. *)
Lemma micros_dust m e :
  2 * Z.pos m * 10 ^ 6 * 2 ^ Z.max 0 e ≤ 2 ^ Z.max 0 (- e) → micros m e = 0.
Proof.
  unfold micros. destruct (Z.leb_spec 0 e).
  - rewrite (Z.max_r 0 e), (Z.max_l 0 (- e)) by lia. pose proof (Z.pow_pos_nonneg 2 e). nia.
  - rewrite (Z.max_l 0 e), (Z.max_r 0 (- e)) by lia. intros Hd. unfold rne_div.
    assert (0 < Z.pos m * 10 ^ 6 < 2 ^ (- e)) as Hs by nia.
    rewrite Z.div_small, Z.mod_small by lia.
    destruct (Z.compare_spec (2 * (Z.pos m * 10 ^ 6)) (2 ^ (- e))); [done | done | lia].
Qed.

Lemma scan_print_micros s u :
  0 ≤ u →
  scan_decimal (print_micros s u) = Some {| d_neg := s; d_mant := u; d_exp := -6 |}.
Proof.
  intros Hu. unfold scan_decimal, print_micros.
  set (r := "." +:+ Dec.of_digits (Dec.pad_digits 6 (u mod 10 ^ 6))).
  assert (Hq : 0 ≤ u / 10 ^ 6) by (apply Z.div_pos; lia).
  destruct (Stoi.scan_print_nat (u / 10 ^ 6) r Hq) as [Hsp Hsg].
  assert (Hscan : Stoi.scan_sign (skip_space ((if s then "-" else "") +:+ Dec.print_nat (u / 10 ^ 6) +:+ r))
                  = (s, Dec.print_nat (u / 10 ^ 6) +:+ r)).
  { destruct s; [done|]. rewrite str_app_nil_l. by rewrite Hsp, Hsg. }
  rewrite Hscan. destruct (Dec.print_nat_value (u / 10 ^ 6) r Hq) as (ds & -> & Hv & Hne); [done|].
  subst r. change ("." +:+ ?x) with (String "." x).
  pose proof (Dec.scan_of_digits _ "" (Dec.pad_digits_range 6 (u mod 10 ^ 6)) eq_refl) as Hf.
  rewrite str_app_nil_r in Hf. unfold scan_fraction, is_char.
  change (code "." =? 46) with true. cbv iota. rewrite Hf. rewrite Dec.pad_digits_length.
  destruct (ds ++ _) as [|d l] eqn:Happ; [by apply app_nil in Happ as [-> _]|].
  rewrite <- Happ. unfold Dec.value_from. rewrite foldl_app.
  fold (Dec.value_from 0 ds). rewrite Hv. fold (Dec.value_from (u / 10 ^ 6) (Dec.pad_digits 6 (u mod 10 ^ 6))).
  rewrite Dec.pad_digits_value, Z.mod_mod by lia. do 2 f_equal.
  pose proof (Z.div_mod u (10 ^ 6)). simpl Z.of_nat. lia.
Qed.

(** What [std::to_string] prints of a finite double, read back as a
    decimal, is the double's value to within half a unit of the sixth
    decimal. *)
Lemma to_string_finite s m e :
  scan_decimal (to_string (S754_finite s m e)) =
  Some {| d_neg := s; d_mant := micros m e; d_exp := -6 |}.
Proof. apply scan_print_micros, micros_nonneg. Qed.
End Dbl.
