(* ===== verification/Query.v ===== *)
(** * [std::unordered_map<std::string, std::string>] and query strings

    A [Params] value is the list of its elements in iteration order.  The
    standard fixes that order neither across insertions nor across
    implementations, so where a new element lands is a parameter
    ([HashOrder]); [order_stable] holds of an insertion that does not
    rehash.  The three loops of the sources that turn a map into
    [k1=v1&k2=v2...] are transcribed here: [Signer::sign_parameters],
    [build_query_string] and [Client::signed_post]. *)

From Stdlib Require Import Ascii.
From S2P Require Import Prelude.

Definition Params : Type := list (string * string).

Class HashOrder : Type := {
  place : list (string * string) → string * string → list (string * string);
  place_perm : ∀ m kv, place m kv ≡ₚ kv :: m
}.

(** An insertion keeps the relative order of the elements already there. *)
Definition order_stable (H : HashOrder) : Prop :=
  ∀ m kv, ∃ l1 l2, m = l1 ++ l2 ∧ place m kv = l1 ++ kv :: l2.

Section unordered_map.
Context `{HashOrder}.

Definition keys (m : Params) : list string := m.*1.

#[export] Instance keys_proper : Proper ((≡ₚ) ==> (≡ₚ)) keys.
Proof. intros m1 m2 Hm. unfold keys. by rewrite Hm. Qed.

(** [m.find(k)] *)
Fixpoint find (k : string) (m : Params) : option string :=
  match m with
  | [] => None
  | (k', v) :: m => if decide (k = k') then Some v else find k m
  end.

Fixpoint assign (k v : string) (m : Params) : Params :=
  match m with
  | [] => []
  | (k', v') :: m => if decide (k = k') then (k', v) :: m else (k', v') :: assign k v m
  end.

(** [m[k] = v] *)
Definition set (k v : string) (m : Params) : Params :=
  match find k m with
  | Some _ => assign k v m
  | None => place m (k, v)
  end.

Lemma find_None k m : find k m = None ↔ k ∉ keys m.
Proof.
  induction m as [|[k' v] m IH]; simpl; [set_solver|].
  case_decide; subst; [split; set_solver|]. rewrite IH. set_solver.
Qed.

Lemma find_Some_elem k v m : NoDup (keys m) → find k m = Some v ↔ (k, v) ∈ m.
Proof.
  induction m as [|[k' v'] m IH]; simpl; [set_solver|].
  intros [Hni Hnd]%NoDup_cons. case_decide; subst.
  - split; [intros [= ->]; set_solver|]. intros [[= ->]|Hin]%elem_of_cons; [done|].
    destruct Hni. apply list_elem_of_fmap. by exists (k', v).
  - rewrite IH, elem_of_cons by done. naive_solver.
Qed.

Lemma find_perm k m1 m2 : NoDup (keys m1) → m1 ≡ₚ m2 → find k m1 = find k m2.
Proof.
  intros Hnd Hp. assert (NoDup (keys m2)) as Hnd2 by (by rewrite <- Hp).
  apply option_eq. intros v. rewrite !find_Some_elem, Hp by done. done.
Qed.

Lemma assign_keys k v m : keys (assign k v m) = keys m.
Proof. induction m as [|[k' v'] m IH]; simpl; [done|]. case_decide; simpl; by rewrite ?IH. Qed.

Lemma find_assign k v m k' :
  is_Some (find k m) → find k' (assign k v m) = if decide (k' = k) then Some v else find k' m.
Proof.
  induction m as [|[k0 v0] m IH]; simpl; [intros []; done|].
  repeat (case_decide; simpl; subst); intros Hs; try done; rewrite ?IH by done; by rewrite ?decide_True, ?decide_False by done.
Qed.

Lemma set_NoDup k v m : NoDup (keys m) → NoDup (keys (set k v m)).
Proof.
  intros Hnd. unfold set. destruct (find k m) eqn:Hf; [by rewrite assign_keys|].
  rewrite place_perm. simpl. constructor; [by apply find_None | done].
Qed.

Lemma find_set k v m k' :
  NoDup (keys m) → find k' (set k v m) = if decide (k' = k) then Some v else find k' m.
Proof.
  intros Hnd. unfold set. destruct (find k m) eqn:Hf; [by apply find_assign; rewrite Hf|].
  assert (NoDup (keys (place m (k, v)))) as Hnd'.
  { rewrite place_perm. by constructor; [apply find_None|]. }
  by rewrite (find_perm k' _ _ Hnd' (place_perm m (k, v))).
Qed.
End unordered_map.

(** ** Query strings *)

(** One iteration of [for (const auto& [key, value] : params)]. *)
Definition query_step (query : string) (kv : string * string) : string :=
  (if decide (query = "") then query else query +:+ "&") +:+ kv.1 +:+ "=" +:+ kv.2.

Definition query_loop (m : Params) : string := foldl query_step "" m.

Definition pair_str (kv : string * string) : string := kv.1 +:+ "=" +:+ kv.2.

Fixpoint join (m : Params) : string :=
  match m with
  | [] => ""
  | [kv] => pair_str kv
  | kv :: m => pair_str kv +:+ "&" +:+ join m
  end.

(** What the receiver of a query string reads: pairs separated by ['&'],
    each cut at its first ['=']. *)
Fixpoint split_on (c : ascii) (s : string) : list string :=
  match s with
  | EmptyString => [EmptyString]
  | String a s => if decide (a = c) then EmptyString :: split_on c s
                  else match split_on c s with
                       | [] => [String a EmptyString]
                       | x :: xs => String a x :: xs
                       end
  end.

Fixpoint parse_pair (s : string) : string * string :=
  match s with
  | EmptyString => (EmptyString, EmptyString)
  | String a s => if decide (a = "="%char) then (EmptyString, s)
                  else let '(k, v) := parse_pair s in (String a k, v)
  end.

Definition parse_query (s : string) : Params :=
  if decide (s = "") then [] else parse_pair <$> split_on "&" s.

Fixpoint no_char (c : ascii) (s : string) : bool :=
  match s with
  | EmptyString => true
  | String a s => negb (bool_decide (a = c)) && no_char c s
  end.

(** Neither separator occurs where it would be misread. *)
Definition pair_clean (kv : string * string) : Prop :=
  no_char "&" kv.1 = true ∧ no_char "=" kv.1 = true ∧ no_char "&" kv.2 = true.

Definition without (k : string) (m : list (string * string)) : list (string * string) :=
  filter (λ kv, kv.1 ≠ k) m.

Lemma pair_str_nonempty kv : pair_str kv ≠ "".
Proof. destruct kv as [[|a k] v]; done. Qed.

Lemma str_app_nonempty s t : s ≠ "" → s +:+ t ≠ "".
Proof. by destruct s. Qed.

Lemma join_nonempty kv m : join (kv :: m) ≠ "".
Proof. destruct m; [apply pair_str_nonempty | apply str_app_nonempty, pair_str_nonempty]. Qed.

Lemma query_step_acc query kv : query ≠ "" → query_step query kv = query +:+ "&" +:+ pair_str kv.
Proof. intros Hq. unfold query_step. rewrite decide_False by done. by rewrite str_app_assoc. Qed.

Lemma foldl_query_step query m :
  query ≠ "" → foldl query_step query m = match m with [] => query | _ => query +:+ "&" +:+ join m end.
Proof.
  revert query. induction m as [|kv m IH]; intros query Hq; [done|].
  cbn [foldl]. rewrite query_step_acc by done. rewrite IH by by apply str_app_nonempty.
  destruct m; [done|]. by rewrite !str_app_assoc.
Qed.

Lemma query_loop_join m : query_loop m = join m.
Proof.
  destruct m as [|kv m]; [done|]. unfold query_loop. cbn [foldl].
  change (query_step "" kv) with (pair_str kv).
  rewrite foldl_query_step by apply pair_str_nonempty. by destruct m.
Qed.

Lemma split_on_nonempty c s : split_on c s ≠ [].
Proof. destruct s; simpl; [done|]. case_decide; [done|]. by case_match. Qed.

Lemma split_on_app c s t : no_char c s = true → split_on c (s +:+ String c t) = s :: split_on c t.
Proof.
  induction s as [|a s IH]; intros Hs.
  - rewrite str_app_nil_l. simpl. by rewrite decide_True.
  - rewrite str_app_cons. simpl in *. apply andb_true_iff in Hs as [Ha Hs].
    rewrite decide_False by (by intros ->; rewrite bool_decide_true in Ha).
    by rewrite IH.
Qed.

Lemma split_on_none c s : no_char c s = true → split_on c s = [s].
Proof.
  induction s as [|a s IH]; intros Hs; [done|]. simpl in *. apply andb_true_iff in Hs as [Ha Hs].
  rewrite decide_False by (by intros ->; rewrite bool_decide_true in Ha). by rewrite IH.
Qed.

Lemma no_char_app c s t : no_char c (s +:+ t) = no_char c s && no_char c t.
Proof.
  induction s as [|a s IH]; [done|]. rewrite str_app_cons. simpl. rewrite IH. by rewrite andb_assoc.
Qed.

Lemma parse_pair_str k v : no_char "=" k = true → parse_pair (k +:+ "=" +:+ v) = (k, v).
Proof.
  induction k as [|a k IH]; intros Hk; [done|]. rewrite str_app_cons. simpl in *.
  apply andb_true_iff in Hk as [Ha Hk].
  rewrite decide_False by (by intros ->; rewrite bool_decide_true in Ha). by rewrite IH.
Qed.

Lemma pair_clean_no_amp kv : pair_clean kv → no_char "&" (pair_str kv) = true.
Proof.
  intros (Hk & _ & Hv). unfold pair_str. rewrite !no_char_app, Hk, Hv. done.
Qed.

Lemma split_join m kv :
  Forall pair_clean (kv :: m) → parse_pair <$> split_on "&" (join (kv :: m)) = kv :: m.
Proof.
  revert kv. induction m as [|kv' m IH]; intros kv; intros [Hc Hm]%Forall_cons.
  - simpl join. rewrite split_on_none by by apply pair_clean_no_amp.
    destruct kv, Hc as (_ & ? & _). simpl. unfold pair_str. by rewrite parse_pair_str.
  - change (join (kv :: kv' :: m)) with (pair_str kv +:+ String "&" (join (kv' :: m))).
    rewrite split_on_app by by apply pair_clean_no_amp. rewrite fmap_cons, IH by done.
    destruct kv, Hc as (_ & ? & _). unfold pair_str. by rewrite parse_pair_str.
Qed.

Lemma parse_query_join m : Forall pair_clean m → parse_query (join m) = m.
Proof.
  intros Hm. unfold parse_query. destruct m as [|kv m]; [done|].
  rewrite decide_False by apply join_nonempty. by apply split_join.
Qed.

Lemma without_fresh k m : k ∉ keys m → without k m = m.
Proof.
  unfold without. induction m as [|[k' v] m IH]; intros Hk; [done|].
  change (keys ((k', v) :: m)) with (k' :: keys m) in Hk.
  rewrite filter_cons_True by (simpl; set_solver). by rewrite IH by set_solver.
Qed.
