(* ===== verification/CoreTypes.v ===== *)
(** * include/bintrade/core/types.hpp, src/core/types.cpp,
      include/bintrade/core/config.hpp, include/bintrade/models/*.hpp

    Enumerations with their wire names, configuration structs and the
    model structs.  [Timestamp] is [std::chrono::system_clock::time_point]:
    a signed 64-bit count of nanoseconds since the epoch (libstdc++). *)

From S2P Require Import Prelude Errors CppLib.
Local Open Scope Z_scope.

Definition Timestamp : Type := Z.
Definition OrderId : Type := Z.
Definition ClientOrderId : Type := string.
Definition Symbol : Type := string.
Definition Price : Type := Dbl.double.
Definition Quantity : Type := Dbl.double.

(** [Timestamp(std::chrono::milliseconds(ms))]: the conversion multiplies
    in signed 64-bit arithmetic. *)
Definition Timestamp_ms (ms : Z) : outcome exn Timestamp :=
  if in_i64b (ms * 1000000) then Ok (ms * 1000000) else Crash ub_signed_overflow.

Inductive Side : Type := Buy | Sell.
Inductive OrderType : Type :=
| Limit | Market | StopLoss | StopLossLimit | TakeProfit | TakeProfitLimit | LimitMaker.
Inductive TimeInForce : Type := GTC | IOC | FOK.
Inductive OrderStatus : Type :=
| New | PartiallyFilled | Filled | Canceled | PendingCancel | Rejected | Expired.

#[global] Instance Side_eq_dec : EqDecision Side.
Proof. solve_decision. Defined.
#[global] Instance OrderType_eq_dec : EqDecision OrderType.
Proof. solve_decision. Defined.
#[global] Instance TimeInForce_eq_dec : EqDecision TimeInForce.
Proof. solve_decision. Defined.
#[global] Instance OrderStatus_eq_dec : EqDecision OrderStatus.
Proof. solve_decision. Defined.

Definition side_to_string (side : Side) : string :=
  match side with Buy => "BUY" | Sell => "SELL" end.

Definition order_type_to_string (type : OrderType) : string :=
  match type with
  | Limit => "LIMIT" | Market => "MARKET" | StopLoss => "STOP_LOSS"
  | StopLossLimit => "STOP_LOSS_LIMIT" | TakeProfit => "TAKE_PROFIT"
  | TakeProfitLimit => "TAKE_PROFIT_LIMIT" | LimitMaker => "LIMIT_MAKER"
  end.

Definition time_in_force_to_string (tif : TimeInForce) : string :=
  match tif with GTC => "GTC" | IOC => "IOC" | FOK => "FOK" end.

Definition order_status_to_string (status : OrderStatus) : string :=
  match status with
  | New => "NEW" | PartiallyFilled => "PARTIALLY_FILLED" | Filled => "FILLED"
  | Canceled => "CANCELED" | PendingCancel => "PENDING_CANCEL"
  | Rejected => "REJECTED" | Expired => "EXPIRED"
  end.

Definition side_from_string (str : string) : outcome exn Side :=
  if decide (str = "BUY") then Ok Buy
  else if decide (str = "SELL") then Ok Sell
  else Throw (std_invalid_argument ("Unknown side: " +:+ str)).

Definition order_type_from_string (str : string) : outcome exn OrderType :=
  if decide (str = "LIMIT") then Ok Limit
  else if decide (str = "MARKET") then Ok Market
  else if decide (str = "STOP_LOSS") then Ok StopLoss
  else if decide (str = "STOP_LOSS_LIMIT") then Ok StopLossLimit
  else if decide (str = "TAKE_PROFIT") then Ok TakeProfit
  else if decide (str = "TAKE_PROFIT_LIMIT") then Ok TakeProfitLimit
  else if decide (str = "LIMIT_MAKER") then Ok LimitMaker
  else Throw (std_invalid_argument ("Unknown order type: " +:+ str)).

Definition time_in_force_from_string (str : string) : outcome exn TimeInForce :=
  if decide (str = "GTC") then Ok GTC
  else if decide (str = "IOC") then Ok IOC
  else if decide (str = "FOK") then Ok FOK
  else Throw (std_invalid_argument ("Unknown time in force: " +:+ str)).

Definition order_status_from_string (str : string) : outcome exn OrderStatus :=
  if decide (str = "NEW") then Ok New
  else if decide (str = "PARTIALLY_FILLED") then Ok PartiallyFilled
  else if decide (str = "FILLED") then Ok Filled
  else if decide (str = "CANCELED") then Ok Canceled
  else if decide (str = "PENDING_CANCEL") then Ok PendingCancel
  else if decide (str = "REJECTED") then Ok Rejected
  else if decide (str = "EXPIRED") then Ok Expired
  else Throw (std_invalid_argument ("Unknown order status: " +:+ str)).

(** A wire name names one enumerator and nothing else parses: for each
    of the four enumerations, [from_string] is the inverse of [to_string]
    on its image and throws [std::invalid_argument] off it. *)
Lemma side_from_string_spec str s :
  side_from_string str = Ok s ↔ str = side_to_string s.
Proof. unfold side_from_string. destruct s; repeat case_decide; naive_solver. Qed.

Lemma order_type_from_string_spec str t :
  order_type_from_string str = Ok t ↔ str = order_type_to_string t.
Proof. unfold order_type_from_string. destruct t; repeat case_decide; naive_solver. Qed.

Lemma time_in_force_from_string_spec str t :
  time_in_force_from_string str = Ok t ↔ str = time_in_force_to_string t.
Proof. unfold time_in_force_from_string. destruct t; repeat case_decide; naive_solver. Qed.

Lemma order_status_from_string_spec str s :
  order_status_from_string str = Ok s ↔ str = order_status_to_string s.
Proof. unfold order_status_from_string. destruct s; repeat case_decide; naive_solver. Qed.

(** Each from_string function accepts exactly the names its to_string function writes,
    and returns the value written. *)
Theorem wire_names_round_trip str :
  (∀ s, side_from_string str = Ok s ↔ str = side_to_string s) ∧
  (∀ t, order_type_from_string str = Ok t ↔ str = order_type_to_string t) ∧
  (∀ t, time_in_force_from_string str = Ok t ↔ str = time_in_force_to_string t) ∧
  (∀ s, order_status_from_string str = Ok s ↔ str = order_status_to_string s).
Proof.
  split_and!; intros; [apply side_from_string_spec | apply order_type_from_string_spec
    | apply time_in_force_from_string_spec | apply order_status_from_string_spec].
Qed.

(** ** config.hpp *)

Inductive DispatchMode : Type := Inline | Queued.
#[global] Instance DispatchMode_eq_dec : EqDecision DispatchMode.
Proof. solve_decision. Defined.

Record RestConfig : Type := {
  rc_base_url : string;
  rc_timeout : Z;
  rc_use_testnet : bool;
  rc_proxy : option string;
  rc_verify_ssl : bool
}.

Definition RestConfig_default : RestConfig :=
  {| rc_base_url := "https://api.binance.com"; rc_timeout := 30; rc_use_testnet := false;
     rc_proxy := None; rc_verify_ssl := true |}.

Record WebSocketConfig : Type := {
  wc_base_url : string;
  wc_use_testnet : bool;
  wc_ping_interval : Z;
  wc_reconnect_interval : Z;
  wc_max_reconnect_attempts : Z;
  wc_io_core_id : Z
}.

Definition WebSocketConfig_default : WebSocketConfig :=
  {| wc_base_url := "wss://stream.binance.com:9443"; wc_use_testnet := false;
     wc_ping_interval := 30; wc_reconnect_interval := 5; wc_max_reconnect_attempts := 10;
     wc_io_core_id := -1 |}.

(** The numbering of spdlog's levels. *)
Inductive LogLevel : Type := Trace_ | Debug_ | Info_ | Warn_ | Error_ | Critical_ | Off_.

Definition log_level_to_int (l : LogLevel) : Z :=
  match l with
  | Trace_ => 0 | Debug_ => 1 | Info_ => 2 | Warn_ => 3 | Error_ => 4 | Critical_ => 5 | Off_ => 6
  end.

Record LogConfig : Type := {
  lc_level : LogLevel;
  lc_pattern : string;
  lc_use_async : bool;
  lc_async_queue_size : Z;
  lc_async_thread_count : Z
}.

Definition LogConfig_default : LogConfig :=
  {| lc_level := Info_; lc_pattern := "[%Y-%m-%d %H:%M:%S.%e] [%n] [%l] [t:%t] %v";
     lc_use_async := true; lc_async_queue_size := 8192; lc_async_thread_count := 1 |}.

(** ** models/ *)

Record Balance : Type := { asset : string; free : Dbl.double; locked : Dbl.double }.

Definition total (b : Balance) : Dbl.double := Dbl.dadd (free b) (locked b).

Record AccountInfo : Type := {
  can_trade : bool;
  can_withdraw : bool;
  can_deposit : bool;
  ai_update_time : Timestamp;
  account_type : string;
  balances : list Balance
}.

Definition AccountInfo_default : AccountInfo :=
  {| can_trade := false; can_withdraw := false; can_deposit := false;
     ai_update_time := 0; account_type := ""; balances := [] |}.

Record Ticker : Type := { tk_symbol : Symbol; tk_price : Price; tk_time : Timestamp }.

Record Ticker24h : Type := {
  t24_symbol : Symbol;
  t24_open : Price;
  t24_high : Price;
  t24_low : Price;
  t24_close : Price;
  t24_volume : Quantity;
  t24_quote_volume : Quantity;
  t24_open_time : Timestamp;
  t24_close_time : Timestamp;
  t24_num_trades : Z;
  t24_price_change : Price;
  t24_price_change_percent : Dbl.double
}.

Record OrderBookEntry : Type := { obe_price : Price; obe_quantity : Quantity }.

Record OrderBook : Type := {
  ob_symbol : Symbol;
  last_update_id : Z;
  bids : list OrderBookEntry;
  asks : list OrderBookEntry
}.

Record Kline : Type := {
  k_open_time : Timestamp;
  k_open : Price;
  k_high : Price;
  k_low : Price;
  k_close : Price;
  k_volume : Quantity;
  k_close_time : Timestamp;
  k_quote_volume : Quantity;
  k_num_trades : Z
}.

Record NewOrderRequest : Type := {
  nr_symbol : Symbol;
  nr_side : Side;
  nr_type : OrderType;
  nr_time_in_force : TimeInForce;
  nr_quantity : Quantity;
  nr_price : option Price;
  nr_client_order_id : option ClientOrderId;
  nr_stop_price : option Price
}.

Record Order : Type := {
  o_symbol : Symbol;
  o_order_id : OrderId;
  o_client_order_id : ClientOrderId;
  o_price : Price;
  o_orig_qty : Quantity;
  o_executed_qty : Quantity;
  o_cummulative_quote_qty : Quantity;
  o_status : OrderStatus;
  o_time_in_force : TimeInForce;
  o_type : OrderType;
  o_side : Side;
  o_time : Timestamp;
  o_update_time : Timestamp
}.

Record CancelOrderRequest : Type := {
  cr_symbol : Symbol;
  cr_order_id : option OrderId;
  cr_client_order_id : option ClientOrderId
}.

Record Trade : Type := {
  t_id : Z;
  t_order_id : OrderId;
  t_price : Price;
  t_qty : Quantity;
  t_quote_qty : Quantity;
  t_time : Timestamp;
  t_is_buyer : bool;
  t_is_maker : bool
}.

Record AccountTrade : Type := {
  at_symbol : Symbol;
  at_id : Z;
  at_order_id : OrderId;
  at_price : Price;
  at_qty : Quantity;
  at_quote_qty : Quantity;
  at_commission : Dbl.double;
  at_commission_asset : string;
  at_time : Timestamp;
  at_is_buyer : bool;
  at_is_maker : bool
}.

(** models/common.hpp: declared for exchange information, which no
    operation of the library fills yet. *)
Record SymbolInfo : Type := {
  si_symbol : Symbol;
  si_base_asset : string;
  si_quote_asset : string;
  si_status : string;
  si_min_price : Price;
  si_max_price : Price;
  si_tick_size : Price;
  si_min_qty : Quantity;
  si_max_qty : Quantity;
  si_step_size : Quantity
}.

Definition SymbolInfo_default : SymbolInfo :=
  {| si_symbol := ""; si_base_asset := ""; si_quote_asset := ""; si_status := "";
     si_min_price := Dbl.dzero; si_max_price := Dbl.dzero; si_tick_size := Dbl.dzero;
     si_min_qty := Dbl.dzero; si_max_qty := Dbl.dzero; si_step_size := Dbl.dzero |}.

Record Filter : Type := {
  f_filter_type : string;
  f_min_price : option Price;
  f_max_price : option Price;
  f_min_qty : option Quantity;
  f_max_qty : option Quantity
}.
