(* ===== verification/Json.v ===== *)
(** * The nlohmann/json interface

    The sources use a third-party JSON library.  [JsonLib] is the part of
    it they call, as parameters; [JsonLaws] states what the library
    documents about those calls and is what the client theorems assume.
    [Tree] is a small instance with its own parser that satisfies the
    laws; the examples run on it. *)

From Stdlib Require Import Ascii.
From S2P Require Import Prelude Errors CppLib.
Local Open Scope Z_scope.

Class JsonLib : Type := {
  json : Type;
  json_parse : string → outcome exn json;       (* json::parse *)
  json_null : json;                             (* json{} *)
  is_object : json → bool;
  is_array : json → bool;
  lookup_member : json → string → option json;  (* the members of an object *)
  elements : json → list json;                  (* what a range-for visits *)
  contains : json → string → bool;
  member : json → string → outcome exn json;    (* operator[](key) const *)
  index : json → nat → outcome exn json;        (* operator[](i) const *)
  at_key : json → string → outcome exn json;    (* at(key) *)
  get_string : json → outcome exn string;       (* get<T>() *)
  get_int : json → outcome exn Z;
  get_i64 : json → outcome exn Z;
  get_u64 : json → outcome exn Z;
  get_bool : json → outcome exn bool;
  value_string : json → string → string → outcome exn string;  (* value(key, default) *)
  value_i64 : json → string → Z → outcome exn Z;
  value_u64 : json → string → Z → outcome exn Z;
  value_bool : json → string → bool → outcome exn bool
}.

(** [value(key, d)] in terms of [get<T>()]: the documented behaviour. *)
Definition value_spec `{JsonLib} {A} (get : json → outcome exn A) (j : json) (k : string) (d : A)
    : outcome exn A :=
  if is_object j then
    match lookup_member j k with Some v => get v | None => Ok d end
  else Throw (json_type_error 306).

Class JsonLaws `(L : JsonLib) : Prop := {
  (** [contains] answers false on everything but an object. *)
  law_contains j k :
    contains j k = is_object j && bool_decide (is_Some (lookup_member j k));
  (** The const subscript does not insert: an absent key is undefined. *)
  law_member j k :
    member j k = if is_object j
                 then match lookup_member j k with Some v => Ok v | None => Crash ub_missing_key end
                 else Throw (json_type_error 305);
  law_index j i :
    index j i = if is_array j
                then match elements j !! i with Some v => Ok v | None => Crash ub_index_range end
                else Throw (json_type_error 305);
  law_at j k :
    at_key j k = if is_object j
                 then match lookup_member j k with Some v => Ok v | None => Throw (json_out_of_range 403) end
                 else Throw (json_type_error 304);
  law_value_string j k d : value_string j k d = value_spec get_string j k d;
  law_value_i64 j k d : value_i64 j k d = value_spec get_i64 j k d;
  law_value_u64 j k d : value_u64 j k d = value_spec get_u64 j k d;
  law_value_bool j k d : value_bool j k d = value_spec get_bool j k d;
  (** Parsing and conversions throw; they have no precondition. *)
  law_parse_total s f : json_parse s ≠ Crash f;
  law_string_total j f : get_string j ≠ Crash f;
  law_int_total j f : get_int j ≠ Crash f;
  law_i64_total j f : get_i64 j ≠ Crash f;
  law_u64_total j f : get_u64 j ≠ Crash f;
  law_bool_total j f : get_bool j ≠ Crash f;
  law_i64_range j z : get_i64 j = Ok z → in_i64 z;
  law_u64_range j z : get_u64 j = Ok z → in_u64 z;
  law_int_range j z : get_int j = Ok z → in_i32 z;
  law_null_elements : elements json_null = [];
  law_null_object : is_object json_null = false;
  law_object_array j : is_object j = true → is_array j = false
}.

Section json_lemmas.
Context `{LL : JsonLaws}.

Lemma value_string_absent j k d :
  is_object j = true → lookup_member j k = None → value_string j k d = Ok d.
Proof using LL. intros Ho Hk. rewrite law_value_string. unfold value_spec. by rewrite Ho, Hk. Qed.

Lemma contains_true j k :
  contains j k = true ↔ is_object j = true ∧ is_Some (lookup_member j k).
Proof using LL. rewrite law_contains, andb_true_iff, bool_decide_eq_true. done. Qed.

Lemma member_contained j k :
  contains j k = true → ∃ v, lookup_member j k = Some v ∧ member j k = Ok v.
Proof using LL. intros [Ho [v Hv]]%contains_true. exists v. by rewrite law_member, Ho, Hv. Qed.

Lemma value_spec_total {A} (get : json → outcome exn A) j k d f :
  (∀ v, get v ≠ Crash f) → value_spec get j k d ≠ Crash f.
Proof. unfold value_spec. intros Hg. repeat case_match; done. Qed.

Lemma value_string_total j k d f : value_string j k d ≠ Crash f.
Proof using LL. rewrite law_value_string. apply value_spec_total. intros; apply law_string_total. Qed.

Lemma value_i64_total j k d f : value_i64 j k d ≠ Crash f.
Proof using LL. rewrite law_value_i64. apply value_spec_total. intros; apply law_i64_total. Qed.

Lemma value_u64_total j k d f : value_u64 j k d ≠ Crash f.
Proof using LL. rewrite law_value_u64. apply value_spec_total. intros; apply law_u64_total. Qed.

Lemma value_bool_total j k d f : value_bool j k d ≠ Crash f.
Proof using LL. rewrite law_value_bool. apply value_spec_total. intros; apply law_bool_total. Qed.

Lemma value_u64_range j k d z : in_u64 d → value_u64 j k d = Ok z → in_u64 z.
Proof using LL.
  rewrite law_value_u64. unfold value_spec. intros Hd. repeat case_match; intros Hz; simplify_eq; try done.
  by eapply law_u64_range.
Qed.
End json_lemmas.


(** ** An instance: JSON trees *)
Module Tree.
Import Chars.

Inductive tree : Type :=
| JNull
| JBool (b : bool)
| JInt (z : Z)
| JFloat (d : Dbl.double)
| JStr (s : string)
| JArr (l : list tree)
| JObj (l : list (string * tree)).

Fixpoint assoc (k : string) (l : list (string * tree)) : option tree :=
  match l with
  | [] => None
  | (k', v) :: l => if decide (k = k') then Some v else assoc k l
  end.

Definition tree_is_object (j : tree) : bool := match j with JObj _ => true | _ => false end.
Definition tree_is_array (j : tree) : bool := match j with JArr _ => true | _ => false end.

Definition tree_member (j : tree) (k : string) : option tree :=
  match j with JObj l => assoc k l | _ => None end.

Definition tree_elements (j : tree) : list tree :=
  match j with JArr l => l | JObj l => l.*2 | JNull => [] | _ => [j] end.

(** Number conversions are [static_cast]s; booleans convert only to [int]. *)
Definition wrap_i64 (z : Z) : Z := (z + 2 ^ 63) mod 2 ^ 64 - 2 ^ 63.
Definition wrap_i32 (z : Z) : Z := (z + 2 ^ 31) mod 2 ^ 32 - 2 ^ 31.

Definition tree_i64 (j : tree) : outcome exn Z :=
  match j with JInt z => Ok (wrap_i64 z) | _ => Throw (json_type_error 302) end.
Definition tree_u64 (j : tree) : outcome exn Z :=
  match j with JInt z => Ok (wrap_u64 z) | _ => Throw (json_type_error 302) end.
Definition tree_int (j : tree) : outcome exn Z :=
  match j with
  | JInt z => Ok (wrap_i32 z)
  | JBool b => Ok (if b then 1 else 0)
  | _ => Throw (json_type_error 302)
  end.
Definition tree_string (j : tree) : outcome exn string :=
  match j with JStr s => Ok s | _ => Throw (json_type_error 302) end.
Definition tree_bool (j : tree) : outcome exn bool :=
  match j with JBool b => Ok b | _ => Throw (json_type_error 302) end.

(** A recursive-descent parser; strings without escapes. *)
Fixpoint take_string (s : string) : option (string * string) :=
  match s with
  | EmptyString => None
  | String c s => if code c =? 34 then Some (EmptyString, s)
                  else '(x, r) ← take_string s; Some (String c x, r)
  end.

Definition eat (c : Z) (s : string) : option string :=
  match skip_space s with
  | String a r => if code a =? c then Some r else None
  | EmptyString => None
  end.

Definition number_end (s : string) : bool :=
  match s with
  | String c _ => negb ((code c =? 46) || (code c =? 101) || (code c =? 69))
  | EmptyString => true
  end.

Definition parse_int (s : string) : option (tree * string) :=
  let '(neg, s1) := match s with
                    | String c s' => if code c =? 45 then (true, s') else (false, s)
                    | EmptyString => (false, s)
                    end in
  let '(ds, r) := Dec.scan_digits s1 in
  match ds with
  | [] => None
  | _ => if number_end r
         then Some (JInt (if neg then - Dec.value_from 0 ds else Dec.value_from 0 ds), r)
         else None
  end.

Fixpoint parse_value (fuel : nat) (s : string) : option (tree * string) :=
  match fuel with
  | O => None
  | S fuel =>
      match skip_space s with
      | EmptyString => None
      | String c r =>
          if code c =? 34 then '(x, r') ← take_string r; Some (JStr x, r')
          else if code c =? 91 then
            match eat 93 r with
            | Some r' => Some (JArr [], r')
            | None => '(l, r') ← parse_elems fuel r; Some (JArr l, r')
            end
          else if code c =? 123 then
            match eat 125 r with
            | Some r' => Some (JObj [], r')
            | None => '(l, r') ← parse_members fuel r; Some (JObj l, r')
            end
          else if Dbl.has_prefix_ci "true" (String c r) then Some (JBool true, String.substring 4 (String.length r) (String c r))
          else if Dbl.has_prefix_ci "false" (String c r) then Some (JBool false, String.substring 5 (String.length r) (String c r))
          else if Dbl.has_prefix_ci "null" (String c r) then Some (JNull, String.substring 4 (String.length r) (String c r))
          else parse_int (String c r)
      end
  end
with parse_elems (fuel : nat) (s : string) : option (list tree * string) :=
  match fuel with
  | O => None
  | S fuel =>
      '(v, r) ← parse_value fuel s;
      match eat 44 r with
      | Some r' => '(l, r'') ← parse_elems fuel r'; Some (v :: l, r'')
      | None => r' ← eat 93 r; Some ([v], r')
      end
  end
with parse_members (fuel : nat) (s : string) : option (list (string * tree) * string) :=
  match fuel with
  | O => None
  | S fuel =>
      q ← eat 34 s;
      '(k, r0) ← take_string q;
      r1 ← eat 58 r0;
      '(v, r) ← parse_value fuel r1;
      match eat 44 r with
      | Some r' => '(l, r'') ← parse_members fuel r'; Some ((k, v) :: l, r'')
      | None => r' ← eat 125 r; Some ([(k, v)], r')
      end
  end.

Definition parse (s : string) : outcome exn tree :=
  match parse_value (S (String.length s)) s with
  | Some (j, r) => if decide (skip_space r = "") then Ok j else Throw (json_parse_error 101)
  | None => Throw (json_parse_error 101)
  end.

Definition tree_value {A} (get : tree → outcome exn A) (j : tree) (k : string) (d : A) : outcome exn A :=
  if tree_is_object j then match tree_member j k with Some v => get v | None => Ok d end
  else Throw (json_type_error 306).

#[export] Instance TreeJson : JsonLib := {|
  json := tree;
  json_parse := parse;
  json_null := JNull;
  is_object := tree_is_object;
  is_array := tree_is_array;
  lookup_member := tree_member;
  elements := tree_elements;
  contains j k := tree_is_object j && bool_decide (is_Some (tree_member j k));
  member j k := if tree_is_object j
                then match tree_member j k with Some v => Ok v | None => Crash ub_missing_key end
                else Throw (json_type_error 305);
  index j i := if tree_is_array j
               then match tree_elements j !! i with Some v => Ok v | None => Crash ub_index_range end
               else Throw (json_type_error 305);
  at_key j k := if tree_is_object j
                then match tree_member j k with Some v => Ok v | None => Throw (json_out_of_range 403) end
                else Throw (json_type_error 304);
  get_string := tree_string;
  get_int := tree_int;
  get_i64 := tree_i64;
  get_u64 := tree_u64;
  get_bool := tree_bool;
  value_string := tree_value tree_string;
  value_i64 := tree_value tree_i64;
  value_u64 := tree_value tree_u64;
  value_bool := tree_value tree_bool
|}.

#[export] Instance TreeJsonLaws : JsonLaws TreeJson.
Proof.
  constructor; try done; try (by intros [] f).
  - intros s f. simpl. unfold parse. by repeat case_match.
  - intros [| |z0| | | |] z; simpl; intros [= <-]. unfold in_i64, wrap_i64.
    pose proof (Z.mod_pos_bound (z0 + 2 ^ 63) (2 ^ 64)). lia.
  - intros [] z'; simpl; intros [= <-]. apply wrap_u64_range.
  - intros [|[]|z0| | | |] z; simpl; intros [= <-]; unfold in_i32; [lia..|]. unfold wrap_i32.
    pose proof (Z.mod_pos_bound (z0 + 2 ^ 31) (2 ^ 32)). lia.
Qed.

(** JSON text written with single quotes. *)
Fixpoint quoted (s : string) : string :=
  match s with
  | EmptyString => EmptyString
  | String c s => String (if code c =? 39 then chr 34 else c) (quoted s)
  end.

Example parse_sample :
  parse (quoted "{'code': -1121, 'msg': 'Invalid symbol.', 'l': [1, true], 'o': {}}") =
  Ok (JObj [("code", JInt (-1121)); ("msg", JStr "Invalid symbol.");
            ("l", JArr [JInt 1; JBool true]); ("o", JObj [])]).
Proof. vm_compute. reflexivity. Qed.
End Tree.
