(* ===== verification/RestParse.v ===== *)
(** * src/rest/detail/json_parse.hpp: REST responses to model structs

    One definition per parser, statements in the order of the source: the
    first field that cannot be converted decides the exception. *)

From S2P Require Import Prelude Errors CppLib CoreTypes Json.
Local Open Scope Z_scope.

Section rest_parse.
Context `{L : JsonLib}.

Definition check_api_error (status_code : Z) (j : json) : outcome exn () :=
  if (400 <=? status_code) && contains j "code" && contains j "msg" then
    c ← (v ← member j "code"; get_int v);
    m ← (v ← member j "msg"; get_string v);
    throw_api c m
  else Ok ().

Definition parse_response (status_code : Z) (body : string) : outcome exn json :=
  if decide (body = "") then
    if 400 <=? status_code then throw_api status_code "Empty error response"
    else Ok json_null
  else
    j ← json_parse body;
    _ ← check_api_error status_code j;
    Ok j.

(** [std::stod(json.value(k, d))] *)
Definition stod_value (j : json) (k d : string) : outcome exn Dbl.double :=
  s ← value_string j k d; Dbl.stod s.

(** [Timestamp(std::chrono::milliseconds(json.value(k, int64_t{0})))] *)
Definition time_value (j : json) (k : string) : outcome exn Timestamp :=
  ms ← value_i64 j k 0; Timestamp_ms ms.

Definition parse_ticker (j : json) : outcome exn Ticker :=
  symbol ← value_string j "symbol" "";
  price ← stod_value j "price" "0";
  Ok {| tk_symbol := symbol; tk_price := price; tk_time := 0 |}.

Definition parse_ticker_24h (j : json) : outcome exn Ticker24h :=
  symbol ← value_string j "symbol" "";
  price_change ← stod_value j "priceChange" "0";
  price_change_percent ← stod_value j "priceChangePercent" "0";
  open ← stod_value j "openPrice" "0";
  high ← stod_value j "highPrice" "0";
  low ← stod_value j "lowPrice" "0";
  close ← stod_value j "lastPrice" "0";
  volume ← stod_value j "volume" "0";
  quote_volume ← stod_value j "quoteVolume" "0";
  open_time ← time_value j "openTime";
  close_time ← time_value j "closeTime";
  num_trades ← value_u64 j "count" 0;
  Ok {| t24_symbol := symbol; t24_open := open; t24_high := high; t24_low := low;
        t24_close := close; t24_volume := volume; t24_quote_volume := quote_volume;
        t24_open_time := open_time; t24_close_time := close_time;
        t24_num_trades := num_trades; t24_price_change := price_change;
        t24_price_change_percent := price_change_percent |}.

(** [std::stod(json[i].get<std::string>())] *)
Definition stod_at (j : json) (i : nat) : outcome exn Dbl.double :=
  v ← index j i; s ← get_string v; Dbl.stod s.

Definition time_at (j : json) (i : nat) : outcome exn Timestamp :=
  v ← index j i; ms ← get_i64 v; Timestamp_ms ms.

Definition parse_order_book_entry (j : json) : outcome exn OrderBookEntry :=
  price ← stod_at j 0;
  quantity ← stod_at j 1;
  Ok {| obe_price := price; obe_quantity := quantity |}.

Definition parse_order_book (j : json) (symbol : string) : outcome exn OrderBook :=
  last_update_id ← value_u64 j "lastUpdateId" 0;
  jb ← member j "bids";
  bids ← traverse parse_order_book_entry (elements jb);
  ja ← member j "asks";
  asks ← traverse parse_order_book_entry (elements ja);
  Ok {| ob_symbol := symbol; last_update_id := last_update_id; bids := bids; asks := asks |}.

Definition parse_trade (j : json) : outcome exn Trade :=
  id ← value_u64 j "id" 0;
  price ← stod_value j "price" "0";
  qty ← stod_value j "qty" "0";
  quote_qty ← stod_value j "quoteQty" "0";
  time ← time_value j "time";
  is_buyer ← value_bool j "isBuyerMaker" false;
  is_maker ← value_bool j "isBuyerMaker" false;
  Ok {| t_id := id; t_order_id := 0; t_price := price; t_qty := qty; t_quote_qty := quote_qty;
        t_time := time; t_is_buyer := is_buyer; t_is_maker := is_maker |}.

Definition parse_kline (j : json) : outcome exn Kline :=
  open_time ← time_at j 0;
  open ← stod_at j 1;
  high ← stod_at j 2;
  low ← stod_at j 3;
  close ← stod_at j 4;
  volume ← stod_at j 5;
  close_time ← time_at j 6;
  quote_volume ← stod_at j 7;
  num_trades ← (v ← index j 8; get_u64 v);
  Ok {| k_open_time := open_time; k_open := open; k_high := high; k_low := low;
        k_close := close; k_volume := volume; k_close_time := close_time;
        k_quote_volume := quote_volume; k_num_trades := num_trades |}.

Definition parse_order (j : json) : outcome exn Order :=
  symbol ← value_string j "symbol" "";
  order_id ← value_u64 j "orderId" 0;
  client_order_id ← value_string j "clientOrderId" "";
  price ← stod_value j "price" "0";
  orig_qty ← stod_value j "origQty" "0";
  executed_qty ← stod_value j "executedQty" "0";
  cummulative_quote_qty ← stod_value j "cummulativeQuoteQty" "0";
  status ← (s ← value_string j "status" "NEW"; order_status_from_string s);
  type ← (s ← value_string j "type" "LIMIT"; order_type_from_string s);
  side ← (s ← value_string j "side" "BUY"; side_from_string s);
  time_in_force ← (s ← value_string j "timeInForce" "GTC"; time_in_force_from_string s);
  time ← time_value j "time";
  update_time ← time_value j "updateTime";
  Ok {| o_symbol := symbol; o_order_id := order_id; o_client_order_id := client_order_id;
        o_price := price; o_orig_qty := orig_qty; o_executed_qty := executed_qty;
        o_cummulative_quote_qty := cummulative_quote_qty; o_status := status;
        o_time_in_force := time_in_force; o_type := type; o_side := side;
        o_time := time; o_update_time := update_time |}.

Definition parse_balance (j : json) : outcome exn Balance :=
  asset ← value_string j "asset" "";
  free ← stod_value j "free" "0";
  locked ← stod_value j "locked" "0";
  Ok {| asset := asset; free := free; locked := locked |}.

(** The loop over [json["balances"]]. *)
Fixpoint collect_balances (l : list json) : outcome exn (list Balance) :=
  match l with
  | [] => Ok []
  | b :: l =>
      balance ← parse_balance b;
      rest ← collect_balances l;
      Ok (if Dbl.dpos (free balance) || Dbl.dpos (locked balance) then balance :: rest else rest)
  end.

Definition parse_account_info (j : json) : outcome exn AccountInfo :=
  can_trade ← value_bool j "canTrade" false;
  can_withdraw ← value_bool j "canWithdraw" false;
  can_deposit ← value_bool j "canDeposit" false;
  account_type ← value_string j "accountType" "";
  update_time ← time_value j "updateTime";
  jb ← member j "balances";
  balances ← collect_balances (elements jb);
  Ok {| can_trade := can_trade; can_withdraw := can_withdraw; can_deposit := can_deposit;
        ai_update_time := update_time; account_type := account_type; balances := balances |}.

Definition parse_account_trade (j : json) : outcome exn AccountTrade :=
  symbol ← value_string j "symbol" "";
  id ← value_u64 j "id" 0;
  order_id ← value_u64 j "orderId" 0;
  price ← stod_value j "price" "0";
  qty ← stod_value j "qty" "0";
  quote_qty ← stod_value j "quoteQty" "0";
  commission ← stod_value j "commission" "0";
  commission_asset ← value_string j "commissionAsset" "";
  time ← time_value j "time";
  is_buyer ← value_bool j "isBuyer" false;
  is_maker ← value_bool j "isMaker" false;
  Ok {| at_symbol := symbol; at_id := id; at_order_id := order_id; at_price := price;
        at_qty := qty; at_quote_qty := quote_qty; at_commission := commission;
        at_commission_asset := commission_asset; at_time := time;
        at_is_buyer := is_buyer; at_is_maker := is_maker |}.
End rest_parse.

(** ** Properties *)
Section rest_parse_lemmas.
Context `{LL : JsonLaws}.

Lemma stod_no_crash f s : no_crash f (Dbl.stod s).
Proof. unfold no_crash, Dbl.stod, Dbl.hex_to_double, Dbl.decimal_to_double. repeat case_match; done. Qed.

Lemma timestamp_no_crash f ms : f ≠ ub_signed_overflow → no_crash f (Timestamp_ms ms).
Proof. unfold no_crash, Timestamp_ms. case_match; congruence. Qed.

Lemma value_string_no_crash f j k d : no_crash f (value_string j k d).
Proof using LL. apply value_string_total. Qed.
Lemma value_i64_no_crash f j k d : no_crash f (value_i64 j k d).
Proof using LL. apply value_i64_total. Qed.
Lemma value_u64_no_crash f j k d : no_crash f (value_u64 j k d).
Proof using LL. apply value_u64_total. Qed.
Lemma value_bool_no_crash f j k d : no_crash f (value_bool j k d).
Proof using LL. apply value_bool_total. Qed.

Lemma side_no_crash f s : no_crash f (side_from_string s).
Proof. unfold no_crash, side_from_string. repeat case_decide; done. Qed.
Lemma order_type_no_crash f s : no_crash f (order_type_from_string s).
Proof. unfold no_crash, order_type_from_string. repeat case_decide; done. Qed.
Lemma time_in_force_no_crash f s : no_crash f (time_in_force_from_string s).
Proof. unfold no_crash, time_in_force_from_string. repeat case_decide; done. Qed.
Lemma order_status_no_crash f s : no_crash f (order_status_from_string s).
Proof. unfold no_crash, order_status_from_string. repeat case_decide; done. Qed.
End rest_parse_lemmas.

#[export] Hint Resolve stod_no_crash timestamp_no_crash value_string_no_crash value_i64_no_crash
  value_u64_no_crash value_bool_no_crash side_no_crash order_type_no_crash
  time_in_force_no_crash order_status_no_crash : nocrash.

(** Walk down a parser's [do] block. *)
Ltac no_crash_walk :=
  repeat (apply no_crash_bind; [solve [eauto 6 with nocrash] | intros ?]); eauto 6 with nocrash.

Section rest_parse_props.
Context `{LL : JsonLaws}.

Lemma stod_value_no_crash f j k d : no_crash f (stod_value j k d).
Proof using LL. unfold stod_value. no_crash_walk. Qed.

Lemma time_value_no_crash f j k : f ≠ ub_signed_overflow → no_crash f (time_value j k).
Proof using LL. intros. unfold time_value. no_crash_walk. Qed.

Hint Resolve stod_value_no_crash time_value_no_crash : nocrash.

(** The REST parsers that read members by value() have no undefined behaviour on any
    JSON value, apart from a time outside the clock's range: they return or throw. *)
Theorem object_parsers_defined f j :
  f ≠ ub_signed_overflow →
  no_crash f (parse_ticker j) ∧ no_crash f (parse_ticker_24h j) ∧ no_crash f (parse_trade j) ∧
  no_crash f (parse_order j) ∧ no_crash f (parse_balance j) ∧ no_crash f (parse_account_trade j).
Proof using LL.
  intros Hf. unfold parse_ticker, parse_ticker_24h, parse_trade, parse_order, parse_balance,
    parse_account_trade.
  split_and!; no_crash_walk.
Qed.

Lemma check_api_error_Ok st j u :
  check_api_error st j = Ok u ↔ (st < 400 ∨ contains j "code" = false ∨ contains j "msg" = false).
Proof using LL.
  unfold check_api_error. destruct u.
  destruct (Z.leb_spec 400 st); simpl; [|split; [by left; lia | done]].
  destruct (contains j "code"), (contains j "msg"); simpl; try (split; [by auto | done]).
  split; [|intros [?|[?|?]]; [lia | done | done]].
  intros (c & _ & (m & _ & Ht)%bind_Ok_inv)%bind_Ok_inv. done.
Qed.

(** Exactly which responses are let through.  An error status is caught
    only when the body is empty or carries both a code and a message. *)
Lemma parse_response_accepts_iff st body j :
  parse_response st body = Ok j ↔
  (body = "" ∧ st < 400 ∧ j = json_null) ∨
  (body ≠ "" ∧ json_parse body = Ok j ∧
   (st < 400 ∨ contains j "code" = false ∨ contains j "msg" = false)).
Proof using LL.
  unfold parse_response. case_decide as Hb.
  - destruct (Z.leb_spec 400 st).
    + split; [done|]. intros [(_ & ? & _)|[? _]]; [lia | done].
    + split; [intros [= <-]; by left|]. by intros [(_ & _ & ->)|[? _]].
  - split.
    + intros (j' & Hj & (u & Hc & [= ->])%bind_Ok_inv)%bind_Ok_inv.
      apply check_api_error_Ok in Hc. naive_solver.
    + intros [[? _]|(_ & Hj & Hc)]; [done|]. rewrite Hj. simpl.
      assert (check_api_error st j = Ok ()) as -> by by apply check_api_error_Ok. done.
Qed.

(** An error status whose body has a code and a msg throws an ApiException with that
    code and message. *)
Theorem api_error_reported st body j jc jm c m :
  400 ≤ st → body ≠ "" → json_parse body = Ok j →
  is_object j = true → lookup_member j "code" = Some jc → lookup_member j "msg" = Some jm →
  get_int jc = Ok c → get_string jm = Ok m →
  parse_response st body = Throw (bt (ApiException c m)).
Proof using LL.
  intros Hst Hb Hj Ho Hc Hm Hgc Hgm. unfold parse_response, check_api_error.
  rewrite decide_False, Hj by done. simpl.
  rewrite (proj2 (Z.leb_le _ _) Hst), !law_contains, !law_member, Ho, Hc, Hm. simpl.
  by rewrite Hgc, Hgm.
Qed.

(** ** Order books *)

Definition price_level (j : json) : Prop :=
  is_array j = true ∧ (2 ≤ length (elements j))%nat.

Lemma index_no_crash f j i :
  is_array j = true → (i < length (elements j))%nat → no_crash f (index j i).
Proof using LL.
  intros Ha Hi. rewrite law_index, Ha. apply lookup_lt_is_Some in Hi as [v ->]. done.
Qed.

Lemma order_book_entry_defined f j : price_level j → no_crash f (parse_order_book_entry j).
Proof using LL.
  intros [Ha Hl]. unfold parse_order_book_entry, stod_at.
  assert (no_crash f (index j 0) ∧ no_crash f (index j 1)) as [? ?]
    by (split; apply index_no_crash; [done | lia | done | lia]).
  assert (∀ v, no_crash f (get_string v)) by (intros v; apply law_string_total).
  repeat first [apply no_crash_bind; [|intros ?] | solve [eauto with nocrash]].
Qed.

(** parse_order_book has no undefined behaviour on a document with bids and asks whose
    elements are arrays of at least two entries. *)
Theorem order_book_defined f j jb ja symbol :
  is_object j = true →
  lookup_member j "bids" = Some jb → lookup_member j "asks" = Some ja →
  (∀ x, x ∈ elements jb ++ elements ja → price_level x) →
  no_crash f (parse_order_book j symbol).
Proof using LL.
  intros Ho Hb Ha Hl. unfold parse_order_book. rewrite !law_member, Ho, Hb, Ha.
  apply no_crash_bind; [auto with nocrash | intros n]. simpl.
  apply no_crash_bind; [apply no_crash_traverse; intros; apply order_book_entry_defined, Hl; set_solver|].
  intros bs. apply no_crash_bind; [|auto with nocrash].
  apply no_crash_traverse. intros. apply order_book_entry_defined, Hl. set_solver.
Qed.

Theorem order_book_without_bids_undefined j n symbol :
  is_object j = true → value_u64 j "lastUpdateId" 0 = Ok n → lookup_member j "bids" = None →
  parse_order_book j symbol = Crash ub_missing_key.
Proof using LL.
  intros Ho Hn Hb. unfold parse_order_book. rewrite Hn, (law_member j "bids"), Ho, Hb. done.
Qed.

(** ** Account *)

Definition nonzero (b : Balance) : bool := Dbl.dpos (free b) || Dbl.dpos (locked b).

Lemma collect_balances_spec l :
  collect_balances l = outcome_map (filter (λ b, nonzero b = true)) (traverse parse_balance l).
Proof.
  induction l as [|x l IH]; [done|]. simpl. rewrite IH. unfold outcome_map.
  destruct (parse_balance x) as [b| |]; simpl; try done.
  destruct (traverse parse_balance l) as [bs| |]; simpl; try done.
  unfold nonzero. case_match eqn:Hn.
  - by rewrite filter_cons_True.
  - rewrite filter_cons_False; [done|]. by rewrite Hn.
Qed.

(** The account lists exactly the balances of the document with something free or
    locked, in the document's order. *)
Theorem account_balances_nonzero j info :
  parse_account_info j = Ok info →
  ∃ jb all, lookup_member j "balances" = Some jb ∧
    traverse parse_balance (elements jb) = Ok all ∧
    balances info = filter (λ b, nonzero b = true) all.
Proof using LL.
  unfold parse_account_info. intros H.
  do 5 (apply bind_Ok_inv in H as (? & _ & H)).
  apply bind_Ok_inv in H as (jb & Hm & H). apply bind_Ok_inv in H as (bs & Hbs & [= <-]).
  rewrite collect_balances_spec in Hbs. apply bind_Ok_inv in Hbs as (all & Hall & [= <-]).
  exists jb, all. split_and!; [|done|done].
  rewrite law_member in Hm. repeat case_match; by simplify_eq.
Qed.

(** ** Orders *)

Definition str_at (j : json) (k s : string) : Prop :=
  ∃ v, lookup_member j k = Some v ∧ get_string v = Ok s.
Definition double_at (j : json) (k : string) (d : Dbl.double) : Prop :=
  ∃ s, str_at j k s ∧ Dbl.stod s = Ok d.
Definition u64_at (j : json) (k : string) (z : Z) : Prop :=
  ∃ v, lookup_member j k = Some v ∧ get_u64 v = Ok z.
Definition time_at_ms (j : json) (k : string) (t : Timestamp) : Prop :=
  ∃ v ms, lookup_member j k = Some v ∧ get_i64 v = Ok ms ∧ t = ms * 1000000 ∧ in_i64 t.

(** The document [j] describes the order [o]. *)
Record order_document (j : json) (o : Order) : Prop := {
  od_object : is_object j = true;
  od_symbol : str_at j "symbol" (o_symbol o);
  od_id : u64_at j "orderId" (o_order_id o);
  od_client : str_at j "clientOrderId" (o_client_order_id o);
  od_price : double_at j "price" (o_price o);
  od_orig : double_at j "origQty" (o_orig_qty o);
  od_exec : double_at j "executedQty" (o_executed_qty o);
  od_quote : double_at j "cummulativeQuoteQty" (o_cummulative_quote_qty o);
  od_status : str_at j "status" (order_status_to_string (o_status o));
  od_type : str_at j "type" (order_type_to_string (o_type o));
  od_side : str_at j "side" (side_to_string (o_side o));
  od_tif : str_at j "timeInForce" (time_in_force_to_string (o_time_in_force o));
  od_time : time_at_ms j "time" (o_time o);
  od_update : time_at_ms j "updateTime" (o_update_time o)
}.

Lemma value_string_at j k d s : is_object j = true → str_at j k s → value_string j k d = Ok s.
Proof using LL. intros Ho (v & Hk & Hv). rewrite law_value_string. unfold value_spec. by rewrite Ho, Hk. Qed.

Lemma stod_value_at j k d x : is_object j = true → double_at j k x → stod_value j k d = Ok x.
Proof using LL.
  intros Ho (s & Hs & Hx). unfold stod_value. by rewrite (value_string_at j k d s Ho Hs).
Qed.

Lemma value_u64_at j k d z : is_object j = true → u64_at j k z → value_u64 j k d = Ok z.
Proof using LL. intros Ho (v & Hk & Hv). rewrite law_value_u64. unfold value_spec. by rewrite Ho, Hk. Qed.

Lemma time_value_at j k t : is_object j = true → time_at_ms j k t → time_value j k = Ok t.
Proof using LL.
  intros Ho (v & ms & Hk & Hv & -> & Hr). unfold time_value. rewrite law_value_i64. unfold value_spec.
  rewrite Ho, Hk, Hv. simpl. unfold Timestamp_ms. by rewrite (proj2 (in_i64b_spec _) Hr).
Qed.

Lemma order_document_parses j o : order_document j o → parse_order j = Ok o.
Proof using LL.
  intros [Ho ?????????????]. unfold parse_order.
  erewrite !value_string_at, !stod_value_at, !time_value_at, value_u64_at by eauto. simpl.
  rewrite (proj2 (order_status_from_string_spec _ _) eq_refl),
    (proj2 (order_type_from_string_spec _ _) eq_refl), (proj2 (side_from_string_spec _ _) eq_refl),
    (proj2 (time_in_force_from_string_spec _ _) eq_refl). by destruct o.
Qed.
End rest_parse_props.

(** ** Examples on concrete documents *)
Module RestParseWitness.
Import Tree.

Definition book_doc : json :=
  JObj [("lastUpdateId", JInt 160);
        ("bids", JArr [JArr [JStr "4.00000000"; JStr "431.00000000"]]);
        ("asks", JArr [JArr [JStr "4.00000200"; JStr "12.00000000"]])].

Definition account_doc : json :=
  JObj [("canTrade", JBool true); ("updateTime", JInt 123456789);
        ("balances", JArr [JObj [("asset", JStr "BTC"); ("free", JStr "0.5"); ("locked", JStr "0")];
                           JObj [("asset", JStr "LTC"); ("free", JStr "0.00"); ("locked", JStr "0.00")]])].

Lemma object_parsers_defined_witness :
  no_crash ub_missing_key (parse_order JNull) ∧ no_crash ub_missing_key (parse_ticker (JArr [])).
Proof.
  pose proof (object_parsers_defined (L := TreeJson) ub_missing_key JNull ltac:(done)) as (_ & _ & _ & H1 & _).
  pose proof (object_parsers_defined (L := TreeJson) ub_missing_key (JArr []) ltac:(done)) as (H2 & _).
  split; [exact H1 | exact H2].
Defined.

Lemma api_error_reported_witness :
  parse_response 400 (quoted "{'code': -1121, 'msg': 'Invalid symbol.'}") =
  Throw (bt (ApiException (-1121) "Invalid symbol.")).
Proof.
  apply (api_error_reported (L := TreeJson) 400 (quoted "{'code': -1121, 'msg': 'Invalid symbol.'}")
           (JObj [("code", JInt (-1121)); ("msg", JStr "Invalid symbol.")])
           (JInt (-1121)) (JStr "Invalid symbol.")); [lia | done | vm_compute; reflexivity | done..].
Defined.

Lemma order_book_defined_witness : no_crash ub_index_range (parse_order_book book_doc "LTCBTC").
Proof.
  eapply (order_book_defined (L := TreeJson) ub_index_range book_doc); [done | done | done |].
  intros x. simpl. rewrite !elem_of_cons. intros [->|[->|H]]; [split; [done | simpl; lia].. | set_solver].
Defined.

Lemma order_book_without_bids_undefined_witness :
  parse_order_book (JObj [("lastUpdateId", JInt 7)]) "LTCBTC" = Crash ub_missing_key.
Proof. by apply (order_book_without_bids_undefined (L := TreeJson) (JObj [("lastUpdateId", JInt 7)]) 7 "LTCBTC"). Defined.

Lemma account_balances_nonzero_witness :
  ∃ info, parse_account_info account_doc = Ok info ∧ (asset <$> balances info) = ["BTC"] ∧
    ∃ jb all, lookup_member account_doc "balances" = Some jb ∧
      traverse parse_balance (elements jb) = Ok all ∧
      balances info = filter (λ b, nonzero b = true) all.
Proof.
  destruct (parse_account_info account_doc) as [info|e|f] eqn:Hi; [|vm_compute in Hi; discriminate..].
  exists info. split; [done|]. split; [vm_compute in Hi; injection Hi as <-; reflexivity|].
  exact (account_balances_nonzero (L := TreeJson) account_doc info Hi).
Defined.
End RestParseWitness.
