(* ===== verification/Auth.v ===== *)
(** * include/bintrade/auth, src/auth: credentials and request signing

    HMAC-SHA256 (OpenSSL) and the wall clock are parameters.  The
    receiver's signature check is [server_accepts]: recompute the HMAC of
    everything in the query string but the signature. *)

From Stdlib Require Import Ascii.
From S2P Require Import Prelude Errors CppLib Query.
Local Open Scope Z_scope.

(** ** Credentials *)
Module Creds.

(** A [std::string] with its storage, of which [used] bytes are live. *)
Record cpp_string : Type := { storage : list ascii; used : nat }.

Definition of_string (s : string) : cpp_string :=
  {| storage := String.list_ascii_of_string s; used := String.length s |}.

Definition view (s : cpp_string) : string := String.string_of_list_ascii (take (used s) (storage s)).

(** [std::memset(s.data(), 0, s.size()); s.clear();] *)
Definition wipe (s : cpp_string) : cpp_string :=
  {| storage := replicate (used s) zero ++ drop (used s) (storage s); used := 0 |}.

Record Impl : Type := { api_key_ : cpp_string; api_secret_ : cpp_string }.

(** [Impl::clear] *)
Definition impl_clear (i : Impl) : Impl :=
  {| api_key_ := if decide (used (api_key_ i) = 0%nat) then api_key_ i else wipe (api_key_ i);
     api_secret_ := if decide (used (api_secret_ i) = 0%nat) then api_secret_ i
                    else wipe (api_secret_ i) |}.

(** [std::unique_ptr<Impl>] *)
Definition Credentials : Type := option Impl.

Definition make_default : Credentials := None.
Definition make (api_key api_secret : string) : Credentials :=
  Some {| api_key_ := of_string api_key; api_secret_ := of_string api_secret |}.

(** Move construction and assignment: the new value and what is left of
    the source. *)
Definition move_construct (src : Credentials) : Credentials * Credentials := (src, None).
Definition move_assign (dst src : Credentials) : Credentials * Credentials := (src, None).

Definition has_credentials (c : Credentials) : bool :=
  match c with Some _ => true | None => false end.
Definition api_key (c : Credentials) : string :=
  match c with Some i => view (api_key_ i) | None => "" end.
Definition api_secret (c : Credentials) : string :=
  match c with Some i => view (api_secret_ i) | None => "" end.
Definition clear (c : Credentials) : Credentials := impl_clear <$> c.

Lemma view_of_string s : view (of_string s) = s.
Proof.
  unfold view, of_string. simpl.
  replace (String.length s) with (length (String.list_ascii_of_string s)).
  - by rewrite firstn_all, String.string_of_list_ascii_of_string.
  - induction s; simpl; [done | by f_equal].
Qed.

Lemma make_fields k s : api_key (make k s) = k ∧ api_secret (make k s) = s.
Proof. split; apply view_of_string. Qed.

Lemma wipe_bytes s b : b ∈ take (used s) (storage (wipe s)) → b = zero.
Proof.
  unfold wipe. simpl. rewrite take_app_le by by rewrite length_replicate.
  rewrite take_replicate. intros Hb. by apply elem_of_replicate in Hb as [-> _].
Qed.

Lemma view_cleared s : view (if decide (used s = 0%nat) then s else wipe s) = "".
Proof. case_decide as Hu; [unfold view; by rewrite Hu | done]. Qed.

Lemma bytes_cleared s b :
  b ∈ take (used s) (storage (if decide (used s = 0%nat) then s else wipe s)) → b = zero.
Proof. case_decide as Hu; [rewrite Hu; set_solver | apply wipe_bytes]. Qed.

(** After clear neither view shows anything, every byte that held the key or the secret
    is zero, and the object still counts as having credentials. *)
Theorem clear_wipes i :
  api_key (clear (Some i)) = "" ∧ api_secret (clear (Some i)) = "" ∧
  has_credentials (clear (Some i)) = true ∧
  (∀ b, b ∈ take (used (api_key_ i)) (storage (api_key_ (impl_clear i))) → b = zero) ∧
  (∀ b, b ∈ take (used (api_secret_ i)) (storage (api_secret_ (impl_clear i))) → b = zero).
Proof.
  split_and!; [apply view_cleared | apply view_cleared | done | apply bytes_cleared | apply bytes_cleared].
Qed.
End Creds.

(** ** Signer *)
Module Sign.
Import Chars.

(** [stream << std::hex << std::setfill('0') << std::setw(2) << int] *)
Definition hex_digit (d : Z) : ascii := if d <? 10 then chr (48 + d) else chr (87 + d).
Definition hex_byte (b : Z) : string :=
  String (hex_digit (b / 16)) (String (hex_digit (b mod 16)) EmptyString).

Fixpoint hex_stream (digest : list Z) : string :=
  match digest with
  | [] => EmptyString
  | b :: digest => hex_byte b +:+ hex_stream digest
  end.

(** The inverse, for the receiver. *)
Fixpoint unhex (s : string) : option (list Z) :=
  match s with
  | EmptyString => Some []
  | String a (String b s) =>
      x ← Dbl.hex_val a; y ← Dbl.hex_val b; l ← unhex s; Some (16 * x + y :: l)
  | String _ EmptyString => None
  end.

Section signer.
(** [HMAC(EVP_sha256(), key, data)]: 32 bytes. *)
Context (hmac_sha256 : string → string → list Z).
Context `{HO : HashOrder}.
Context (credentials_ : Creds.Credentials).

Definition sign (query : string) : string :=
  hex_stream (hmac_sha256 (Creds.api_secret credentials_) query).

(** [now] is [system_clock::now()] in milliseconds. *)
Definition sign_parameters (now : Z) (params : Params) : Params :=
  let params := Query.set "timestamp" (Dec.to_string now) params in
  let query := query_loop params in
  Query.set "signature" (sign query) params.

(** What the exchange does with the query string it receives. *)
Definition server_accepts (secret : string) (query : string) : bool :=
  let m := parse_query query in
  bool_decide (find "signature" m = Some (hex_stream (hmac_sha256 secret (query_loop (without "signature" m))))).
End signer.

Lemma hex_digit_val d : 0 ≤ d < 16 → Dbl.hex_val (hex_digit d) = Some d.
Proof.
  intros Hd. assert (∃ n : nat, d = Z.of_nat n ∧ (n < 16)%nat) as (n & -> & Hn).
  { exists (Z.to_nat d). lia. }
  do 16 (destruct n as [|n]; [done|]). lia.
Qed.

Lemma hex_digit_clean d : 0 ≤ d < 16 →
  hex_digit d ≠ "&"%char ∧ (is_digit (hex_digit d) || ((97 <=? code (hex_digit d)) && (code (hex_digit d) <=? 102))) = true.
Proof.
  intros Hd. assert (∃ n : nat, d = Z.of_nat n ∧ (n < 16)%nat) as (n & -> & Hn).
  { exists (Z.to_nat d). lia. }
  do 16 (destruct n as [|n]; [done|]). lia.
Qed.

Lemma byte_nibbles b : 0 ≤ b < 256 → 0 ≤ b / 16 < 16 ∧ 0 ≤ b mod 16 < 16 ∧ 16 * (b / 16) + b mod 16 = b.
Proof.
  intros Hb. pose proof (Z.div_mod b 16). pose proof (Z.mod_pos_bound b 16).
  pose proof (Z.div_pos b 16). pose proof (Z.div_lt_upper_bound b 16 16). lia.
Qed.

Lemma unhex_hex_stream bs : Forall (λ b, 0 ≤ b < 256) bs → unhex (hex_stream bs) = Some bs.
Proof.
  induction 1 as [|b bs Hb Hbs IH]; [done|].
  destruct (byte_nibbles b Hb) as (H1 & H2 & H3). simpl hex_stream. unfold hex_byte.
  rewrite !str_app_cons, str_app_nil_l. simpl. rewrite !hex_digit_val by done. simpl.
  rewrite IH. simpl. by rewrite H3.
Qed.

Lemma hex_stream_length bs : String.length (hex_stream bs) = (2 * length bs)%nat.
Proof. induction bs as [|b bs IH]; [done|]. simpl hex_stream. rewrite str_length_app, IH. simpl. lia. Qed.

Lemma hex_stream_no_amp bs : Forall (λ b, 0 ≤ b < 256) bs → no_char "&" (hex_stream bs) = true.
Proof.
  induction 1 as [|b bs Hb Hbs IH]; [done|]. destruct (byte_nibbles b Hb) as (H1 & H2 & _).
  simpl hex_stream. rewrite no_char_app, IH. simpl.
  destruct (hex_digit_clean _ H1), (hex_digit_clean _ H2). by rewrite !bool_decide_false by done.
Qed.

Lemma digits_no_amp ds : Forall (λ d, 0 ≤ d < 10) ds → no_char "&" (Dec.of_digits ds) = true.
Proof.
  induction 1 as [|d ds Hd Hds IH]; [done|]. simpl. rewrite IH, andb_true_r.
  destruct (decide (digit_char d = "&"%char)) as [He|]; [|by rewrite bool_decide_false].
  destruct (digit_char_spec d Hd) as [Hdig _]. by rewrite He in Hdig.
Qed.

Lemma to_string_no_amp z : no_char "&" (Dec.to_string z) = true.
Proof.
  assert (∀ n, 0 ≤ n → no_char "&" (Dec.print_nat n) = true) as Hn
    by (intros; by apply digits_no_amp, Dec.digits_range).
  unfold Dec.to_string. destruct (Z.ltb_spec z 0); [rewrite no_char_app|]; apply Hn; lia.
Qed.

Section signer_lemmas.
Context (hmac_sha256 : string → string → list Z).
Context (hmac_bytes : ∀ k m, Forall (λ b, 0 ≤ b < 256) (hmac_sha256 k m)).
Context (hmac_length : ∀ k m, length (hmac_sha256 k m) = 32%nat).
Context `{HO : HashOrder} (c : Creds.Credentials).

Lemma set_clean k v m :
  pair_clean (k, v) → Forall pair_clean m → Forall pair_clean (Query.set k v m).
Proof.
  intros Hkv Hm. unfold Query.set. destruct (find k m) eqn:Hf; [|by rewrite place_perm; constructor].
  clear Hf. induction Hm as [|[k' v'] m Hk Hm IH]; simpl; [constructor|].
  case_decide; constructor; auto. destruct Hkv as (? & ? & ?), Hk as (? & ? & ?). by split_and!.
Qed.

(** The signature is 64 hexadecimal digits that decode to the MAC of the query under the
    secret. *)
Theorem signature_is_hex_mac query :
  unhex (sign hmac_sha256 c query) = Some (hmac_sha256 (Creds.api_secret c) query) ∧
  String.length (sign hmac_sha256 c query) = 64%nat.
Proof using hmac_bytes hmac_length.
  unfold sign. split; [by apply unhex_hex_stream|]. by rewrite hex_stream_length, hmac_length.
Qed.

Lemma sign_parameters_find now p k :
  NoDup (keys p) →
  find k (sign_parameters hmac_sha256 c now p) =
  if decide (k = "signature")
  then Some (sign hmac_sha256 c (query_loop (Query.set "timestamp" (Dec.to_string now) p)))
  else if decide (k = "timestamp") then Some (Dec.to_string now) else find k p.
Proof.
  intros Hnd. unfold sign_parameters. rewrite find_set by by apply set_NoDup.
  case_decide; [done|]. by rewrite find_set.
Qed.

Lemma sign_parameters_clean now p :
  Forall pair_clean p → Forall pair_clean (sign_parameters hmac_sha256 c now p).
Proof using hmac_bytes.
  intros Hcl. unfold sign_parameters. apply set_clean; [|apply set_clean; [|done]].
  - repeat split. by apply hex_stream_no_amp.
  - repeat split. apply to_string_no_amp.
Qed.

(** Signing adds a timestamp and the signature of the stamped parameters, keeps keys
    unique and changes nothing else. *)
Theorem sign_parameters_adds_two now p :
  NoDup (keys p) →
  NoDup (keys (sign_parameters hmac_sha256 c now p)) ∧
  find "timestamp" (sign_parameters hmac_sha256 c now p) = Some (Dec.to_string now) ∧
  find "signature" (sign_parameters hmac_sha256 c now p) =
    Some (sign hmac_sha256 c (query_loop (Query.set "timestamp" (Dec.to_string now) p))) ∧
  ∀ k, k ≠ "timestamp" → k ≠ "signature" →
    find k (sign_parameters hmac_sha256 c now p) = find k p.
Proof.
  intros Hnd. split_and!.
  - unfold sign_parameters. by do 2 apply set_NoDup.
  - by rewrite sign_parameters_find.
  - by rewrite sign_parameters_find.
  - intros k Hts Hsg. rewrite sign_parameters_find by done. by rewrite !decide_False.
Qed.

(** End to end: as long as inserting the signature does not reorder the
    map, the query string that is sent passes the receiver's check. *)
Lemma signed_query_verifies now p :
  order_stable HO → NoDup (keys p) → Forall pair_clean p → "signature" ∉ keys p →
  server_accepts hmac_sha256 (Creds.api_secret c)
    (query_loop (sign_parameters hmac_sha256 c now p)) = true.
Proof using hmac_bytes.
  intros Hst Hnd Hcl Hsig. unfold server_accepts. apply bool_decide_eq_true.
  set (p1 := Query.set "timestamp" (Dec.to_string now) p).
  assert (Hcl1 : Forall pair_clean p1) by (apply set_clean; [|done]; repeat split; apply to_string_no_amp).
  assert (Hnd1 : NoDup (keys p1)) by by apply set_NoDup.
  assert (Hf1 : find "signature" p1 = None) by (unfold p1; rewrite find_set by done; by apply find_None).
  assert (Hsg : pair_clean ("signature", sign hmac_sha256 c (query_loop p1)))
    by (repeat split; by apply hex_stream_no_amp).
  destruct (Hst p1 ("signature", sign hmac_sha256 c (query_loop p1))) as (l1 & l2 & Hp1 & Hpl).
  assert (Hr : sign_parameters hmac_sha256 c now p = l1 ++ ("signature", sign hmac_sha256 c (query_loop p1)) :: l2).
  { unfold sign_parameters, Query.set at 1. fold p1. by rewrite Hf1. }
  assert (Hparse : parse_query (query_loop (sign_parameters hmac_sha256 c now p)) = sign_parameters hmac_sha256 c now p).
  { rewrite query_loop_join. by apply parse_query_join, sign_parameters_clean. }
  rewrite Hparse. rewrite sign_parameters_find by done. simpl. f_equal. unfold sign. do 3 f_equal.
  fold p1. rewrite Hr. unfold without. rewrite filter_app, filter_cons_False by (simpl; congruence).
  rewrite <- filter_app. change (filter ?P (l1 ++ l2)) with (without "signature" (l1 ++ l2)).
  rewrite <- Hp1. symmetry. apply without_fresh. by apply find_None.
Qed.
End signer_lemmas.

(** An order that reverses on every insertion, as a rehash may. *)
Program Definition rehashing : HashOrder := {| place m kv := reverse (kv :: m) |}.
Next Obligation. intros m kv. by rewrite reverse_Permutation. Qed.

(** The signature covers the iteration order at the time of signing.  When
    inserting it reorders the map, the receiver recomputes the MAC over a
    different string and rejects the request. *)
Theorem signature_breaks_on_rehash hmac_sha256 c :
  (∀ k m, Forall (λ b, 0 ≤ b < 256) (hmac_sha256 k m)) →
  hmac_sha256 (Creds.api_secret c) "symbol=BTCUSDT&timestamp=1000" ≠
  hmac_sha256 (Creds.api_secret c) "timestamp=1000&symbol=BTCUSDT" →
  server_accepts hmac_sha256 (Creds.api_secret c)
    (query_loop (sign_parameters hmac_sha256 (HO := rehashing) c 1000 [("symbol", "BTCUSDT")])) = false.
Proof.
  intros Hb Hne. unfold server_accepts. apply bool_decide_eq_false.
  set (sg := sign hmac_sha256 c "symbol=BTCUSDT&timestamp=1000").
  assert (Hcl : Forall pair_clean [("timestamp", "1000"); ("symbol", "BTCUSDT"); ("signature", sg)]).
  { repeat constructor; try done. by apply hex_stream_no_amp. }
  change (sign_parameters hmac_sha256 c 1000 [("symbol", "BTCUSDT")])
    with [("timestamp", "1000"); ("symbol", "BTCUSDT"); ("signature", sg)].
  rewrite query_loop_join, parse_query_join by done.
  change (find "signature" _) with (Some sg). intros [= Heq]. apply Hne. clear Hcl.
  change (query_loop _) with "timestamp=1000&symbol=BTCUSDT" in Heq.
  apply (f_equal unhex) in Heq. unfold sg, sign in Heq. rewrite !unhex_hex_stream in Heq by done.
  by injection Heq.
Qed.
End Sign.

(** ** Examples with a stand-in for the MAC *)
Module AuthWitness.
Import Sign Chars.

(** 32 bytes that depend on the first byte and the length of the message. *)
Definition toy_mac (k m : string) : list Z :=
  let h := match m with String a _ => code a | EmptyString => 0 end in
  (h + Z.of_nat (String.length m)) mod 256 :: replicate 31 (Z.of_nat (String.length k) mod 256).

Lemma toy_mac_bytes k m : Forall (λ b, 0 ≤ b < 256) (toy_mac k m).
Proof.
  constructor; [apply Z.mod_pos_bound; lia|]. apply Forall_replicate, Z.mod_pos_bound. lia.
Qed.

Lemma toy_mac_length k m : length (toy_mac k m) = 32%nat.
Proof. done. Qed.

Definition creds : Creds.Credentials := Creds.make "key" "secret".

Lemma signature_is_hex_mac_witness :
  unhex (sign toy_mac creds "a=1") = Some (toy_mac (Creds.api_secret creds) "a=1") ∧
  String.length (sign toy_mac creds "a=1") = 64%nat.
Proof. exact (signature_is_hex_mac toy_mac toy_mac_bytes toy_mac_length creds "a=1"). Defined.

Lemma sign_parameters_adds_two_witness :
  find "symbol" (sign_parameters toy_mac (HO := rehashing) creds 1000 [("symbol", "BTCUSDT")]) = Some "BTCUSDT".
Proof.
  pose proof (sign_parameters_adds_two toy_mac (HO := rehashing) creds 1000 [("symbol", "BTCUSDT")]) as H.
  destruct H as (_ & _ & _ & H); [repeat constructor; set_solver|]. by apply H.
Defined.

Lemma signature_breaks_on_rehash_witness :
  server_accepts toy_mac (Creds.api_secret creds)
    (query_loop (sign_parameters toy_mac (HO := rehashing) creds 1000 [("symbol", "BTCUSDT")])) = false.
Proof. apply signature_breaks_on_rehash; [exact toy_mac_bytes | by vm_compute]. Defined.
End AuthWitness.
