(* ===== verification/Hmac.v ===== *)
(** * HMAC-SHA256

    The message authentication code that src/auth/signer.cpp takes from
    OpenSSL is a parameter of Auth.v.  This file has the function itself,
    as FIPS 180-4 and RFC 2104 define it (round constants included), so that the theorems about
    signed requests can be stated for the real one and signatures can be
    evaluated. *)

From S2P Require Import Prelude Errors CppLib Query Auth.
Local Open Scope Z_scope.

Module Sha256.

(** 32-bit words. *)
Definition add32 (x y : Z) : Z := (x + y) mod 2 ^ 32.
Definition rotr (n x : Z) : Z := Z.lor (Z.shiftr x n) (Z.shiftl x (32 - n) mod 2 ^ 32).
Definition not32 (x : Z) : Z := Z.lxor x (2 ^ 32 - 1).

Definition Ch (x y z : Z) : Z := Z.lxor (Z.land x y) (Z.land (not32 x) z).
Definition Maj (x y z : Z) : Z := Z.lxor (Z.lxor (Z.land x y) (Z.land x z)) (Z.land y z).
Definition Sigma0 (x : Z) : Z := Z.lxor (Z.lxor (rotr 2 x) (rotr 13 x)) (rotr 22 x).
Definition Sigma1 (x : Z) : Z := Z.lxor (Z.lxor (rotr 6 x) (rotr 11 x)) (rotr 25 x).
Definition sigma0 (x : Z) : Z := Z.lxor (Z.lxor (rotr 7 x) (rotr 18 x)) (Z.shiftr x 3).
Definition sigma1 (x : Z) : Z := Z.lxor (Z.lxor (rotr 17 x) (rotr 19 x)) (Z.shiftr x 10).

(** The constants are the first 32 fractional bits of roots of primes.
    [root n bits x]: the largest number below [2 ^ bits] whose [n]-th power
    is at most [x], bit by bit. *)
Definition root (n : Z) (bits : nat) (x : Z) : Z :=
  foldr (λ b r, let r' := r + 2 ^ Z.of_nat b in if r' ^ n <=? x then r' else r) 0 (seq 0 bits).

Definition is_prime (p : nat) : bool :=
  forallb (λ d, negb (Nat.eqb (p mod d) 0)) (seq 2 (p - 2)).

(** The sixty-fourth prime is 311. *)
Definition primes : list Z := Z.of_nat <$> List.filter is_prime (seq 2 310).

(** 2^32 times the [n]-th root of [p], without the bits above the point. *)
Definition root_fraction (n p : Z) : Z := root n 37 (p * 2 ^ (32 * n)) mod 2 ^ 32.

Definition K : list Z := Eval vm_compute in root_fraction 3 <$> primes.

Example K_ends : length K = 64%nat ∧ head K = Some 0x428a2f98 ∧ last K = Some 0xc67178f2.
Proof. done. Qed.

(** The chaining value. *)
Record hash : Type := Hash { ha : Z; hb : Z; hc : Z; hd : Z; he : Z; hf : Z; hg : Z; hh : Z }.

Definition H0 : hash := Eval vm_compute in
  let w i := root_fraction 2 (nth i primes 0) in Hash (w 0%nat) (w 1%nat) (w 2%nat) (w 3%nat) (w 4%nat) (w 5%nat) (w 6%nat) (w 7%nat).

(** The message schedule: [n] words from a window of sixteen. *)
Fixpoint schedule (n : nat) (w : list Z) : list Z :=
  match n, w with
  | S n, w0 :: rest =>
      let new := add32 (add32 (sigma1 (nth 14 w 0)) (nth 9 w 0)) (add32 (sigma0 (nth 1 w 0)) w0) in
      w0 :: schedule n (rest ++ [new])
  | _, _ => []
  end.

Definition round (s : hash) (kw : Z * Z) : hash :=
  let '(Hash a b c d e f g h) := s in
  let t1 := add32 (add32 (add32 h (Sigma1 e)) (add32 (Ch e f g) kw.1)) kw.2 in
  let t2 := add32 (Sigma0 a) (Maj a b c) in
  Hash (add32 t1 t2) a b c (add32 d t1) e f g.

Definition compress (s : hash) (block : list Z) : hash :=
  let r := foldl round s (zip K (schedule 64 block)) in
  Hash (add32 (ha s) (ha r)) (add32 (hb s) (hb r)) (add32 (hc s) (hc r)) (add32 (hd s) (hd r))
       (add32 (he s) (he r)) (add32 (hf s) (hf r)) (add32 (hg s) (hg r)) (add32 (hh s) (hh r)).

(** Big-endian bytes. *)
Definition byte_at (n x : Z) : Z := Z.shiftr x (8 * n) mod 256.
Definition be4 (x : Z) : list Z := [byte_at 3 x; byte_at 2 x; byte_at 1 x; byte_at 0 x].
Definition be8 (x : Z) : list Z := be4 (Z.shiftr x 32) ++ be4 x.

Definition word (a b c d : Z) : Z := 2 ^ 24 * a + 2 ^ 16 * b + 2 ^ 8 * c + d.

Fixpoint words (bytes : list Z) : list Z :=
  match bytes with
  | a :: b :: c :: d :: rest => word a b c d :: words rest
  | _ => []
  end.

Definition pad (m : list Z) : list Z :=
  let n := Z.of_nat (length m) in
  m ++ [128] ++ replicate (Z.to_nat ((55 - n) mod 64)) 0 ++ be8 (8 * n).

(** Blocks of sixteen words; the fuel is the number of words. *)
Fixpoint process (fuel : nat) (s : hash) (ws : list Z) : hash :=
  match fuel, ws with
  | S fuel, _ :: _ => process fuel (compress s (take 16 ws)) (drop 16 ws)
  | _, _ => s
  end.

Definition sha256 (m : list Z) : list Z :=
  let ws := words (pad m) in
  let '(Hash a b c d e f g h) := process (length ws) H0 ws in
  be4 a ++ be4 b ++ be4 c ++ be4 d ++ be4 e ++ be4 f ++ be4 g ++ be4 h.

Definition bytes_of (s : string) : list Z := Chars.code <$> String.list_ascii_of_string s.

(** RFC 2104, blocks of 64 bytes. *)
Definition hmac_block (key : list Z) : list Z :=
  let k := if (64 <? Z.of_nat (length key)) then sha256 key else key in
  k ++ replicate (64 - length k) 0.

Definition hmac_sha256 (key message : string) : list Z :=
  let k := hmac_block (bytes_of key) in
  sha256 ((Z.lxor 0x5c <$> k) ++ sha256 ((Z.lxor 0x36 <$> k) ++ bytes_of message)).

Lemma be4_bytes x : Forall (λ b, 0 ≤ b < 256) (be4 x).
Proof. repeat constructor; apply Z.mod_pos_bound; lia. Qed.

Lemma sha256_bytes m : Forall (λ b, 0 ≤ b < 256) (sha256 m).
Proof. unfold sha256. destruct (process _ _ _). rewrite !Forall_app. by repeat split; apply be4_bytes. Qed.

Lemma sha256_length m : length (sha256 m) = 32%nat.
Proof. unfold sha256. by destruct (process _ _ _). Qed.

(** What Auth.v asks of the code. *)
Lemma hmac_bytes k m : Forall (λ b, 0 ≤ b < 256) (hmac_sha256 k m).
Proof. apply sha256_bytes. Qed.

Lemma hmac_length k m : length (hmac_sha256 k m) = 32%nat.
Proof. apply sha256_length. Qed.

(** The words of a padded message are whole blocks, and [process] has
    enough fuel for them. *)
Lemma pad_blocks m : (64 | Z.of_nat (length (pad m))).
Proof.
  unfold pad, be8. rewrite !length_app, length_replicate. simpl. set (n := Z.of_nat (length m)).
  pose proof (Z.mod_pos_bound (55 - n) 64). pose proof (Z.div_mod (55 - n) 64).
  exists (1 + - ((55 - n) / 64)). lia.
Qed.

Lemma process_fuel f f' s ws : (length ws ≤ f)%nat → (length ws ≤ f')%nat → process f s ws = process f' s ws.
Proof.
  revert f' s ws. induction f as [|f IH]; intros f' s [|w ws] Hf Hf'; simpl in *; try lia; [by destruct f' | by destruct f'|].
  destruct f' as [|f']; [lia|]. simpl. apply IH; rewrite length_drop; simpl; lia.
Qed.

(** *** Published test vectors *)

(** FIPS 180-4: SHA-256 of abc. *)
Example sha256_abc :
  Sign.hex_stream (sha256 (bytes_of "abc")) = "ba7816bf8f01cfea414140de5dae2223b00361a396177a9cb410ff61f20015ad".
Proof. vm_compute. reflexivity. Qed.

(** RFC 4231, test case 2. *)
Example hmac_rfc4231_2 :
  Sign.hex_stream (hmac_sha256 "Jefe" "what do ya want for nothing?") =
  "5bdcc146bf60754e6a042426089575c75a003f089d2739839dec58b964ec3843".
Proof. vm_compute. reflexivity. Qed.
End Sha256.
