(* ===== verification/HttpClient.v ===== *)
(** * src/rest/detail/http_client.cpp: the pooled HTTPS transport

    [Url] parses the base URL.  [Pool] is the connection pool with the
    code of [acquire_connection] and [release_connection]; [Exec] is one
    request driven to completion ([do_connect], [do_request], [execute]
    and the public methods).  Several requests interleaved at the points
    where a coroutine suspends are the subject of HttpTasks.v.  Beast,
    Asio, OpenSSL and the network are parameters. *)

From Stdlib Require Import Ascii.
From S2P Require Import Prelude Errors CppLib Query CoreTypes.
Local Open Scope nat_scope.

(** ** URLs *)
Module Url.

(** The part of [ParsedUrl::from] and [ParsedWssUrl::from] after the
    scheme: [find(':')], [find('/')], [substr]. *)
Definition host_and_port (url : string) (host_start : nat) (dflt : string) : string * string :=
  let port_pos := String.index host_start ":" url in
  let path_pos := default (String.length url) (String.index host_start "/" url) in
  match port_pos with
  | Some p =>
      if p <? path_pos then
        (String.substring host_start (p - host_start) url,
         String.substring (p + 1) (path_pos - p - 1) url)
      else (String.substring host_start (path_pos - host_start) url, dflt)
  | None => (String.substring host_start (path_pos - host_start) url, dflt)
  end.

Record ParsedUrl : Type := { scheme : string; host : string; port : string }.

Definition from (url : string) : outcome exn ParsedUrl :=
  match String.index 0 "://" url with
  | None => Throw (std_invalid_argument ("Invalid base_url: " +:+ url))
  | Some pos =>
      let scheme := String.substring 0 pos url in
      let '(h, p) := host_and_port url (pos + 3) (if decide (scheme = "https") then "443" else "80") in
      Ok {| scheme := scheme; host := h; port := p |}
  end.

(** *** [find] and [substr] on concatenations *)

Lemma index_skip p n pat s :
  String.index (String.length p + n) pat (p +:+ s) =
  (λ k, String.length p + k) <$> String.index n pat s.
Proof.
  induction p as [|a p IH].
  - rewrite str_app_nil_l. simpl. by destruct (String.index n pat s).
  - rewrite str_app_cons. simpl. rewrite IH. by destruct (String.index n pat s).
Qed.

Lemma prefix_head c pat a s : a ≠ c → String.prefix (String c pat) (String a s) = false.
Proof. intros Hne. simpl. by destruct (ascii_dec c a). Qed.

Lemma index_char_here c s t :
  no_char c s = true → String.index 0 (String c "") (s +:+ String c t) = Some (String.length s).
Proof.
  induction s as [|a s IH]; intros Hs.
  - rewrite str_app_nil_l. simpl. by destruct (ascii_dec c c); destruct t.
  - simpl in Hs. apply andb_true_iff in Hs as [Ha Hs].
    rewrite str_app_cons. cbn [String.index].
    rewrite prefix_head by (by intros ->; rewrite bool_decide_true in Ha).
    by rewrite IH.
Qed.

Lemma index_char_none c s : no_char c s = true → String.index 0 (String c "") s = None.
Proof.
  induction s as [|a s IH]; intros Hs; [done|]. simpl in Hs. apply andb_true_iff in Hs as [Ha Hs].
  cbn [String.index]. rewrite prefix_head by (by intros ->; rewrite bool_decide_true in Ha).
  by rewrite IH.
Qed.

(** A match found past a prefix without the pattern's first character. *)
Lemma index_app_later c s t k :
  no_char c s = true → String.index 0 (String c "") t = k →
  String.index 0 (String c "") (s +:+ t) = (λ k, String.length s + k) <$> k.
Proof.
  intros Hs <-. induction s as [|a s IH].
  - rewrite str_app_nil_l. by destruct (String.index 0 _ t).
  - simpl in Hs. apply andb_true_iff in Hs as [Ha Hs]. rewrite str_app_cons. cbn [String.index].
    rewrite prefix_head by (by intros ->; rewrite bool_decide_true in Ha).
    rewrite IH by done. by destruct (String.index 0 _ t).
Qed.

Lemma index_scheme s t :
  no_char ":" s = true → String.index 0 "://" (s +:+ "://" +:+ t) = Some (String.length s).
Proof.
  induction s as [|a s IH]; intros Hs.
  - rewrite str_app_nil_l. change ("://" +:+ t) with (String ":" (String "/" (String "/" t))).
    simpl. by destruct t.
  - simpl in Hs. apply andb_true_iff in Hs as [Ha Hs]. rewrite str_app_cons. cbn [String.index].
    rewrite prefix_head by (by intros ->; rewrite bool_decide_true in Ha). by rewrite IH.
Qed.

Lemma substring_skip p n s :
  String.substring (String.length p) n (p +:+ s) = String.substring 0 n s.
Proof. induction p as [|a p IH]; [done|]. rewrite str_app_cons. exact IH. Qed.

Lemma substring_prefix s t : String.substring 0 (String.length s) (s +:+ t) = s.
Proof.
  induction s as [|a s IH].
  - rewrite str_app_nil_l. by destruct t.
  - rewrite str_app_cons. simpl. by rewrite IH.
Qed.

Lemma substring_middle p s t n :
  n = String.length s → String.substring (String.length p) n (p +:+ s +:+ t) = s.
Proof. intros ->. by rewrite substring_skip, substring_prefix. Qed.

Definition path_ok (path : string) : Prop := path = "" ∨ ∃ t, path = String "/" t.

(** What follows [prefix] is [host:port] and an optional path. *)
Lemma host_port_explicit pre h p path dflt :
  no_char ":" h = true → no_char "/" h = true → no_char "/" p = true → path_ok path →
  host_and_port (pre +:+ h +:+ ":" +:+ p +:+ path) (String.length pre) dflt = (h, p).
Proof.
  intros Hc Hs Hp Hpath. unfold host_and_port.
  rewrite <- (Nat.add_0_r (String.length pre)), !index_skip.
  change (":" +:+ p +:+ path) with (String ":" (p +:+ path)).
  rewrite index_char_here by done. simpl.
  assert (default (String.length (pre +:+ h +:+ String ":" (p +:+ path)))
            ((λ k, String.length pre + k) <$> String.index 0 "/" (h +:+ String ":" (p +:+ path)))
          = String.length pre + String.length h + 1 + String.length p) as ->.
  { replace (h +:+ String ":" (p +:+ path)) with ((h +:+ ":" +:+ p) +:+ path)
      by by rewrite !str_app_assoc.
    assert (Hns : no_char "/" (h +:+ ":" +:+ p) = true) by by rewrite !no_char_app, Hs, Hp.
    destruct Hpath as [->|[t ->]].
    - rewrite (index_app_later "/" _ "" None) by done. simpl.
      rewrite !str_length_app. simpl. lia.
    - rewrite index_char_here by done. simpl. rewrite !str_length_app. simpl. lia. }
  destruct (Nat.ltb_spec (String.length pre + String.length h)
              (String.length pre + String.length h + 1 + String.length p)); [|lia].
  rewrite Nat.add_0_r. f_equal.
  - apply substring_middle. lia.
  - replace (pre +:+ h +:+ String ":" (p +:+ path)) with ((pre +:+ h +:+ ":") +:+ p +:+ path)
      by by rewrite !str_app_assoc.
    replace (String.length pre + String.length h + 1) with (String.length (pre +:+ h +:+ ":"))
      by (rewrite !str_length_app; simpl; lia).
    apply substring_middle. rewrite !str_length_app. simpl. lia.
Qed.

Lemma host_port_default pre h path dflt :
  no_char ":" h = true → no_char "/" h = true → path_ok path →
  host_and_port (pre +:+ h +:+ path) (String.length pre) dflt = (h, dflt).
Proof.
  intros Hc Hs Hpath. unfold host_and_port.
  rewrite <- (Nat.add_0_r (String.length pre)), !index_skip, Nat.add_0_r.
  destruct Hpath as [->|[t ->]].
  - rewrite (index_app_later ":" h "" None), (index_app_later "/" h "" None) by done. simpl.
    f_equal. apply substring_middle. rewrite !str_length_app. simpl. lia.
  - rewrite (index_char_here "/") by done. rewrite (index_app_later ":" h _ _ Hc eq_refl). simpl.
    destruct (ascii_dec ":" "/"); [done|].
    destruct (String.index 0 ":" t) as [k|]; simpl.
    + destruct (Nat.ltb_spec (String.length pre + (String.length h + S k)) (String.length pre + String.length h));
        [lia|]. f_equal. apply substring_middle. lia.
    + f_equal. apply substring_middle. lia.
Qed.

(** C40: ParsedUrl::from takes scheme://host:port/path apart into the parts it was put
    together from, and fills in port 443 or 80 by the scheme when the port is missing.
    *)
Theorem parsed_url_round_trip sch h p path :
  no_char ":" sch = true → no_char ":" h = true → no_char "/" h = true →
  no_char "/" p = true → path_ok path →
  from (sch +:+ "://" +:+ h +:+ ":" +:+ p +:+ path) = Ok {| scheme := sch; host := h; port := p |} ∧
  from (sch +:+ "://" +:+ h +:+ path) =
    Ok {| scheme := sch; host := h; port := if decide (sch = "https") then "443" else "80" |}.
Proof.
  intros Hsch Hc Hs Hp Hpath. unfold from.
  assert (Hpre : ∀ t, sch +:+ "://" +:+ t = (sch +:+ "://") +:+ t) by (intros; by rewrite str_app_assoc).
  assert (Hlen : String.length sch + 3 = String.length (sch +:+ "://")) by (by rewrite str_length_app).
  rewrite !index_scheme, !substring_prefix, Hlen by done.
  split; [rewrite Hpre, host_port_explicit by done | rewrite Hpre, host_port_default by done]; done.
Qed.
End Url.

(** ** The connection pool *)
Module Pool.

(** [PooledConnection]; [sid] is its address. *)
Record slot : Type := Slot { sid : nat; in_use : bool; connected : bool }.

(** [std::vector<std::unique_ptr<PooledConnection>> pool_].  [epoch]
    changes when the vector reallocates its storage, [next_id] supplies
    fresh addresses. *)
Record vec : Type := Vec { slots : list slot; vcap : nat; epoch : nat; next_id : nat }.

Definition empty_vec : vec := Vec [] 0 0 0.

(** A reference to an element of the vector. *)
Record ref : Type := Ref { r_epoch : nat; r_index : nat }.

(** Where [acquire_connection] is at its first suspension point. *)
Inductive acquired : Type :=
| Ready (id : nat)                      (* idle connected slot: returned at once *)
| ConnectIdle (id : nat) (r : ref)      (* idle unconnected slot, do_connect pending *)
| ConnectNew (id : nat) (r : ref).      (* new slot appended, do_connect pending *)

Definition set_in_use (b : bool) (s : slot) : slot := Slot (sid s) b (connected s).
Definition set_connected (s : slot) : slot := Slot (sid s) (in_use s) true.

Definition with_slots (v : vec) (l : list slot) : vec := Vec l (vcap v) (epoch v) (next_id v).

(** [pool_.emplace_back(std::make_unique<PooledConnection>(...))], with
    [in_use = true]; the storage doubles when it is full. *)
Definition emplace_back (v : vec) : vec :=
  let full := bool_decide (length (slots v) = vcap v) in
  Vec (slots v ++ [Slot (next_id v) true false])
      (if full then Nat.max 1 (2 * vcap v) else vcap v)
      (if full then S (epoch v) else epoch v)
      (S (next_id v)).

(** [acquire_connection] up to its [co_await] or [co_return]. *)
Definition acquire_begin (v : vec) : acquired * vec :=
  match list_find (λ s, in_use s = false ∧ connected s = true) (slots v) with
  | Some (i, s) => (Ready (sid s), with_slots v (<[i := set_in_use true s]> (slots v)))
  | None =>
      match list_find (λ s, in_use s = false ∧ connected s = false) (slots v) with
      | Some (i, s) =>
          (ConnectIdle (sid s) (Ref (epoch v) i), with_slots v (<[i := set_in_use true s]> (slots v)))
      | None =>
          let v' := emplace_back v in
          (ConnectNew (next_id v) (Ref (epoch v') (length (slots v))), v')
      end
  end.

(** [conn.connected = true] at the end of [do_connect]; [None] when the
    connection object no longer exists. *)
Definition mark_connected (id : nat) (v : vec) : option vec :=
  match list_find (λ s, sid s = id) (slots v) with
  | Some (i, s) => Some (with_slots v (<[i := set_connected s]> (slots v)))
  | None => None
  end.

(** [slot.get()] through a reference into the vector's storage; [None]
    when the storage moved or the element is gone. *)
Definition deref (r : ref) (v : vec) : option nat :=
  if decide (r_epoch r = epoch v) then sid <$> slots v !! r_index r else None.

(** [acquire_connection] resumed after a successful [do_connect]. *)
Definition acquire_resume (id : nat) (r : ref) (v : vec) : outcome exn nat * vec :=
  match mark_connected id v with
  | None => (Crash ub_dangling, v)
  | Some v' => match deref r v' with
               | None => (Crash ub_dangling, v')
               | Some got => (Ok got, v')
               end
  end.

(** [pool_.pop_back()] in the handler of the failed overflow slot. *)
Definition pop_back (v : vec) : vec := with_slots v (removelast (slots v)).

Definition release_connection (pool_size : nat) (id : nat) (keep_alive : bool) (v : vec) : vec :=
  match list_find (λ s, sid s = id) (slots v) with
  | None => v
  | Some (i, s) =>
      if negb keep_alive || (pool_size <? length (slots v)) then with_slots v (delete i (slots v))
      else with_slots v (<[i := set_in_use false s]> (slots v))
  end.

Definition ids (v : vec) : list nat := sid <$> slots v.
Definition idle (s : slot) : Prop := in_use s = false.
Definition is_connected (id : nat) (v : vec) : bool :=
  match list_find (λ s, sid s = id) (slots v) with Some (_, s) => connected s | None => false end.

(** *** The pool invariant *)
Record pool_inv (pool_size : nat) (v : vec) : Prop := {
  pi_nodup : NoDup (ids v);
  pi_fresh : Forall (λ id, id < next_id v) (ids v);
  (** an idle slot is always connected *)
  pi_idle : ∀ s, s ∈ slots v → idle s → connected s = true;
  (** idle slots exist only while the pool is within its size *)
  pi_size : ∀ s, s ∈ slots v → idle s → length (slots v) ≤ pool_size;
  pi_vcap : length (slots v) ≤ vcap v
}.

Lemma ids_insert v i s s' :
  slots v !! i = Some s → sid s' = sid s → ids (with_slots v (<[i := s']> (slots v))) = ids v.
Proof.
  intros Hi Hs. unfold ids. simpl. rewrite list_fmap_insert. apply list_insert_id.
  by rewrite list_lookup_fmap, Hi, Hs.
Qed.

Lemma elem_of_update (l : list slot) i s' x : x ∈ <[i := s']> l → x = s' ∨ x ∈ l.
Proof.
  intros [j Hj]%list_elem_of_lookup. destruct (decide (i = j)) as [->|Hne].
  - apply list_lookup_insert_Some in Hj as [(_ & -> & _)|(? & _)]; [by left | done].
  - rewrite list_lookup_insert_ne in Hj by done. right. by eapply list_elem_of_lookup_2.
Qed.

(** Replacing a slot in place by one that is busy, or idle within the
    limit and connected. *)
Lemma pool_inv_update n v i s s' :
  pool_inv n v → slots v !! i = Some s → sid s' = sid s →
  (idle s' → connected s' = true ∧ length (slots v) ≤ n) →
  pool_inv n (with_slots v (<[i := s']> (slots v))).
Proof.
  intros [Hnd Hfr Hid Hsz Hcp] Hi Hs Hs'. pose proof (ids_insert v i s s' Hi Hs) as Hids.
  constructor; simpl; rewrite ?Hids; rewrite ?length_insert; try done.
  - intros x [->|Hx]%elem_of_update; [naive_solver | by apply Hid].
  - intros x [->|Hx]%elem_of_update Hidle; [naive_solver | by eapply Hsz].
Qed.

(** Dropping slots keeps the invariant. *)
Lemma pool_inv_sublist n v l :
  pool_inv n v → l `sublist_of` slots v → pool_inv n (with_slots v l).
Proof.
  intros [Hnd Hfr Hid Hsz Hcp] Hsub.
  assert (Hin : ∀ x, x ∈ l → x ∈ slots v) by (intros x Hx; by eapply elem_of_sublist).
  pose proof (sublist_length _ _ Hsub).
  assert (Hsub' : (sid <$> l) `sublist_of` ids v) by by apply fmap_sublist.
  constructor; simpl.
  - by eapply sublist_NoDup.
  - rewrite Forall_forall in Hfr |- *. intros x Hx. by eapply Hfr, elem_of_sublist.
  - eauto.
  - intros s Hs Hi. pose proof (Hsz s (Hin s Hs) Hi). lia.
  - lia.
Qed.

Lemma empty_inv n : pool_inv n empty_vec.
Proof. constructor; [by apply NoDup_nil | by apply Forall_nil | set_solver | set_solver | done]. Qed.

Lemma emplace_inv n v :
  pool_inv n v → (∀ s, s ∈ slots v → in_use s = true) → pool_inv n (emplace_back v).
Proof.
  intros [Hnd Hfr Hid Hsz Hcp] Hbusy. unfold ids, idle in *.
  assert (Hb : ∀ s, s ∈ slots v ++ [Slot (next_id v) true false] → in_use s = true).
  { intros s [Hs|Hs%list_elem_of_singleton]%elem_of_app; [by apply Hbusy | by subst]. }
  rewrite Forall_forall in Hfr.
  constructor; unfold ids, idle; simpl.
  - rewrite fmap_app. apply NoDup_app. split_and!; [done | | apply NoDup_singleton].
    intros x Hx ->%list_elem_of_singleton. pose proof (Hfr _ Hx). simpl in *. lia.
  - rewrite fmap_app, Forall_app, Forall_forall. split; [|repeat constructor; lia].
    intros x Hx. pose proof (Hfr _ Hx). lia.
  - intros s Hs Hi. rewrite Hb in Hi by done. done.
  - intros s Hs Hi. rewrite Hb in Hi by done. done.
  - rewrite length_app. simpl. case_bool_decide; lia.
Qed.

(** With no idle slot found by either loop every slot is busy. *)
Lemma no_idle_busy l :
  list_find (λ s, in_use s = false ∧ connected s = true) l = None →
  list_find (λ s, in_use s = false ∧ connected s = false) l = None →
  ∀ s, s ∈ l → in_use s = true.
Proof.
  rewrite !list_find_None, !Forall_forall. intros H1 H2 s Hs.
  specialize (H1 s Hs). specialize (H2 s Hs). destruct s as [? [] []]; naive_solver.
Qed.

Lemma acquire_begin_inv n v a v' :
  pool_inv n v → acquire_begin v = (a, v') → pool_inv n v'.
Proof.
  intros Hi. unfold acquire_begin.
  destruct (list_find _ _) as [[i s]|] eqn:H1.
  { intros [= <- <-]. apply list_find_Some in H1 as (Hl & _ & _).
    eapply pool_inv_update; eauto. by intros. }
  destruct (list_find (λ s, in_use s = false ∧ connected s = false) _) as [[i s]|] eqn:H2.
  { intros [= <- <-]. apply list_find_Some in H2 as (Hl & _ & _).
    eapply pool_inv_update; eauto. by intros. }
  intros [= <- <-]. apply emplace_inv; [done|]. by apply no_idle_busy.
Qed.

(** The loop that looks for an idle unconnected slot never finds one. *)
Lemma acquire_never_idle_unconnected n v id r v' :
  pool_inv n v → acquire_begin v ≠ (ConnectIdle id r, v').
Proof.
  intros Hi. unfold acquire_begin. destruct (list_find _ _) as [[i s]|] eqn:H1; [done|].
  destruct (list_find (λ s, in_use s = false ∧ connected s = false) _) as [[i s]|] eqn:H2; [|done].
  apply list_find_Some in H2 as (Hl & [Hu Hc] & _). apply list_elem_of_lookup_2 in Hl.
  pose proof (pi_idle _ _ Hi s Hl Hu). congruence.
Qed.

Lemma mark_connected_inv n v id v' :
  pool_inv n v → mark_connected id v = Some v' → pool_inv n v'.
Proof.
  intros Hi. unfold mark_connected. destruct (list_find _ _) as [[i s]|] eqn:H1; [|done].
  intros [= <-]. apply list_find_Some in H1 as (Hl & _ & _).
  eapply pool_inv_update; eauto. intros Hidle. split; [done|].
  apply list_elem_of_lookup_2 in Hl. by apply (pi_size _ _ Hi s Hl).
Qed.

Lemma pop_back_inv n v : pool_inv n v → pool_inv n (pop_back v).
Proof.
  intros Hi. unfold pop_back. apply pool_inv_sublist; [done|].
  rewrite removelast_firstn_len. apply sublist_take.
Qed.

Lemma release_inv n v id keep :
  pool_inv n v → (keep = true → is_connected id v = true) →
  pool_inv n (release_connection n id keep v).
Proof.
  intros Hi Hc. unfold release_connection, is_connected in *.
  destruct (list_find _ _) as [[i s]|] eqn:H1; [|done].
  apply list_find_Some in H1 as (Hl & _ & _).
  destruct keep; simpl; [|apply pool_inv_sublist; [done | apply sublist_delete]].
  destruct (Nat.ltb_spec n (length (slots v))); [apply pool_inv_sublist; [done | apply sublist_delete]|].
  eapply pool_inv_update; [done | done | done |]. intros _. simpl. auto.
Qed.
End Pool.

(** ** Executing a request *)
Module Exec.
Import Pool Url.

Inductive verb : Type := get_ | post_ | delete_.

(** [http::request]; [q_fields] are the calls [req.set(name, value)] in order. *)
Record request : Type := { q_method : verb; q_target : string;
                           q_fields : list (string * string); q_body : string }.

(** [http::response] as the library hands it over. *)
Record raw_response : Type := { rr_status : Z; rr_body : string;
                                rr_fields : list (string * string) }.

Record HttpResponse : Type := { status_code : Z; body : string; headers : Params }.

(** Beast, Asio and OpenSSL over the network, as one request sees them. *)
Class Network : Type := {
  net : Type;
  session : Type;                                        (* SSL_SESSION *)
  set_sni : string → net → bool;                         (* SSL_set_tlsext_host_name *)
  (** resolve, connect and TLS handshake of connection [id]; the session
      that [SSL_get1_session] returns, if any *)
  tls_connect : nat → string → string → option session → net → outcome exn (option session) * net;
  (** async_write of the request and async_read of the response *)
  http_exchange : nat → request → net → outcome exn raw_response * net
}.

(** The libraries report failure by throwing. *)
Class NetworkLaws `(N : Network) : Prop := {
  law_connect_total id h p s w f : (tls_connect id h p s w).1 ≠ Crash f;
  law_exchange_total id q w f : (http_exchange id q w).1 ≠ Crash f
}.

Definition exn_what (e : exn) : string :=
  match e with
  | bt e => what e
  | std_invalid_argument w | std_out_of_range w | std_system_error w | beast_system_error w => w
  | std_bad_function_call => "bad_function_call"
  | json_parse_error _ | json_type_error _ | json_out_of_range _ => "json.exception"
  end.

Section exec.
Context `{HO : HashOrder} `{N : Network}.

(** [HttpClient::Impl]; [sent] records the requests put on the wire. *)
Record client : Type := Client {
  parsed_url_ : ParsedUrl;
  pool_size_ : nat;
  api_key_ : string;
  ssl_session_cache_ : gmap string session;
  pool_ : vec;
  sent : list request;
  world : net
}.

Definition with_pool (c : client) (v : vec) : client :=
  Client (parsed_url_ c) (pool_size_ c) (api_key_ c) (ssl_session_cache_ c) v (sent c) (world c).

Definition default_pool_size : nat := 4.

(** [HttpClient(config, pool_size)] *)
Definition make_client (config : RestConfig) (pool_size : nat) (w : net) : outcome exn client :=
  url ← from (rc_base_url config);
  Ok (Client url pool_size "" ∅ empty_vec [] w).

Definition set_api_key (key : string) (c : client) : client :=
  Client (parsed_url_ c) (pool_size_ c) key (ssl_session_cache_ c) (pool_ c) (sent c) (world c).

Definition cache_key (c : client) : string := host (parsed_url_ c) +:+ ":" +:+ port (parsed_url_ c).

(** [do_connect], up to [conn.connected = true]. *)
Definition do_connect (id : nat) : stM client exn () := λ c,
  if negb (set_sni (host (parsed_url_ c)) (world c)) then
    (throw_network "Failed to set SNI hostname", c)
  else
    match tls_connect id (host (parsed_url_ c)) (port (parsed_url_ c))
                      (ssl_session_cache_ c !! cache_key c) (world c) with
    | (Ok sess, w) =>
        let cache := match sess with
                     | Some s => <[cache_key c := s]> (ssl_session_cache_ c)
                     | None => ssl_session_cache_ c
                     end in
        (Ok (), Client (parsed_url_ c) (pool_size_ c) (api_key_ c) cache (pool_ c) (sent c) w)
    | (Throw e, w) =>
        (Throw e, Client (parsed_url_ c) (pool_size_ c) (api_key_ c) (ssl_session_cache_ c)
                         (pool_ c) (sent c) w)
    | (Crash f, w) => (Crash f, c)
    end.

Definition acquire_connection : stM client exn nat := λ c,
  match acquire_begin (pool_ c) with
  | (Ready id, v) => (Ok id, with_pool c v)
  | (ConnectIdle id r, v) =>
      match do_connect id (with_pool c v) with
      | (Ok _, c') => let '(o, v') := acquire_resume id r (pool_ c') in (o, with_pool c' v')
      | (Throw e, c') => (Throw e, c')
      | (Crash f, c') => (Crash f, c')
      end
  | (ConnectNew id r, v) =>
      match do_connect id (with_pool c v) with
      | (Ok _, c') => let '(o, v') := acquire_resume id r (pool_ c') in (o, with_pool c' v')
      | (Throw e, c') => (Throw e, with_pool c' (pop_back (pool_ c')))
      | (Crash f, c') => (Crash f, c')
      end
  end.

Definition request_fields (c : client) (body : string) (extra_headers : Params) : list (string * string) :=
  [("Host", host (parsed_url_ c)); ("User-Agent", "bintrade/0.1.0");
   ("Accept", "application/json"); ("Connection", "keep-alive")]
  ++ (if decide (api_key_ c = "") then [] else [("X-MBX-APIKEY", api_key_ c)])
  ++ extra_headers
  ++ (if decide (body = "") then [] else [("Content-Type", "application/x-www-form-urlencoded")]).

(** Header names are lower-cased; a repeated name keeps the last value. *)
Definition response_headers (fields : list (string * string)) : Params :=
  foldl (λ h nv, Query.set (Chars.lower nv.1) nv.2 h) [] fields.

Definition do_request (id : nat) (method : verb) (target body : string) (extra_headers : Params)
    : stM client exn HttpResponse := λ c,
  let req := {| q_method := method; q_target := target;
                q_fields := request_fields c body extra_headers; q_body := body |} in
  let '(o, w) := http_exchange id req (world c) in
  let c' := Client (parsed_url_ c) (pool_size_ c) (api_key_ c) (ssl_session_cache_ c) (pool_ c)
                   (sent c ++ [req]) w in
  match o with
  | Ok res => (Ok {| status_code := rr_status res; body := rr_body res;
                     headers := response_headers (rr_fields res) |}, c')
  | Throw e => (Throw e, c')
  | Crash f => (Crash f, c')
  end.

Definition res_keep_alive (resp : HttpResponse) : bool :=
  match find "connection" (headers resp) with
  | Some v => bool_decide (v ≠ "close")
  | None => true
  end.

Definition release (id : nat) (keep : bool) (c : client) : client :=
  with_pool c (release_connection (pool_size_ c) id keep (pool_ c)).

Definition max_attempts : nat := 2.

(** [(attempt == 0) && (pool_.size() > 1 || !conn->connected)] *)
Definition was_preconnected (attempt : nat) (id : nat) (c : client) : bool :=
  (attempt =? 0) && ((1 <? length (slots (pool_ c))) || negb (is_connected id (pool_ c))).

(** The loop of [execute] from iteration [attempt]; [todo] iterations remain. *)
Fixpoint execute_from (todo attempt : nat) (method : verb) (target body : string)
    (extra_headers : Params) : stM client exn HttpResponse := λ c,
  match todo with
  | O => (throw_network "Unexpected: all retry attempts exhausted", c)
  | S todo =>
      match acquire_connection c with
      | (Throw e, c1) => (Throw e, c1)
      | (Crash f, c1) => (Crash f, c1)
      | (Ok id, c1) =>
          let was := was_preconnected attempt id c1 in
          match do_request id method target body extra_headers c1 with
          | (Ok resp, c2) => (Ok resp, release id (res_keep_alive resp) c2)
          | (Throw (beast_system_error w), c2) =>
              let c3 := release id false c2 in
              if negb was || (attempt =? max_attempts - 1) then (throw_network w, c3)
              else execute_from todo (S attempt) method target body extra_headers c3
          | (Throw e, c2) => (throw_network (exn_what e), release id false c2)
          | (Crash f, c2) => (Crash f, c2)
          end
      end
  end.

Definition execute := execute_from max_attempts 0.

Definition build_query_string (params : Params) : string :=
  if decide (params = []) then "" else query_loop params.

(** [path] or [path?query] *)
Definition target_of (path : string) (params : Params) : string :=
  let query := build_query_string params in
  if decide (query = "") then path else path +:+ "?" +:+ query.

Definition async_get (path : string) (params : Params) : stM client exn HttpResponse :=
  execute get_ (target_of path params) "" [].
Definition async_post (path body : string) (headers : Params) : stM client exn HttpResponse :=
  execute post_ path body headers.
Definition async_del (path : string) (params : Params) : stM client exn HttpResponse :=
  execute delete_ (target_of path params) "" [].

(** The blocking calls run the coroutine on the I/O thread and wait. *)
Definition get (path : string) (params : Params) : stM client exn HttpResponse := async_get path params.
Definition post (path body : string) (headers : Params) : stM client exn HttpResponse :=
  async_post path body headers.
Definition del (path : string) (params : Params) : stM client exn HttpResponse := async_del path params.

(** *** One request at a time *)

(** Between requests: invariant, and every slot idle. *)
Definition calm (n : nat) (v : vec) : Prop :=
  pool_inv n v ∧ ∀ s, s ∈ slots v → in_use s = false.

(** During a request: its slot first, connected; the others idle. *)
Definition busy (n : nat) (id : nat) (v : vec) : Prop :=
  pool_inv n v ∧
  ∃ rest, slots v = Slot id true true :: rest ∧ ∀ s, s ∈ rest → in_use s = false.

Lemma release_busy n id keep v : busy n id v → calm n (release_connection n id keep v).
Proof.
  intros [Hi (rest & Hs & Hrest)]. unfold release_connection. rewrite Hs. simpl.
  rewrite decide_True by done. simpl.
  assert (Hdel : calm n (with_slots v rest)).
  { split; [|done]. apply pool_inv_sublist; [done|]. rewrite Hs. by constructor. }
  destruct keep; simpl; [|done]. destruct (Nat.ltb_spec n (S (length rest))); [done|].
  split; [|simpl; intros s [->|?]%elem_of_cons; auto].
  replace (set_in_use false (Slot id true true) :: rest)
    with (<[0 := Slot id false true]> (slots v)) by by rewrite Hs.
  eapply pool_inv_update; [done | by rewrite Hs | done |]. intros _. split; [done|]. by rewrite Hs.
Qed.

Lemma acquire_begin_calm n v :
  calm n v →
  match slots v with
  | [] => acquire_begin v = (ConnectNew (next_id v) (Ref (epoch (emplace_back v)) 0), emplace_back v)
  | s :: rest => acquire_begin v = (Ready (sid s), with_slots v (set_in_use true s :: rest)) ∧
                 connected s = true
  end.
Proof.
  intros [Hi Hidle]. unfold acquire_begin. destruct (slots v) as [|s rest] eqn:Hs; [done|].
  assert (in_use s = false) as Hu by (apply Hidle; set_solver).
  assert (connected s = true) as Hc by (apply (pi_idle _ _ Hi); rewrite ?Hs; [set_solver | done]).
  cbn [list_find]. rewrite decide_True by done. by rewrite ?Hs.
Qed.

Context {NL : NetworkLaws N}.

(** What [do_connect] leaves alone. *)
Lemma do_connect_frame id c o c' :
  do_connect id c = (o, c') →
  pool_ c' = pool_ c ∧ pool_size_ c' = pool_size_ c ∧ sent c' = sent c ∧ ∀ f, o ≠ Crash f.
Proof using NL.
  unfold do_connect. case_match; [by intros [= <- <-]|].
  pose proof (law_connect_total id (host (parsed_url_ c)) (port (parsed_url_ c))
                (ssl_session_cache_ c !! cache_key c) (world c)) as Ht.
  destruct (tls_connect _ _ _ _ _) as [[se|e|f] w]; intros [= <- <-]; simpl in *; try done.
  by destruct (Ht f).
Qed.

Lemma acquire_calm c :
  calm (pool_size_ c) (pool_ c) →
  ∃ o c', acquire_connection c = (o, c') ∧ pool_size_ c' = pool_size_ c ∧ sent c' = sent c ∧
    length (slots (pool_ c')) ≤ Nat.max 1 (length (slots (pool_ c))) ∧
    match o with
    | Ok id => busy (pool_size_ c) id (pool_ c')
    | Throw _ => calm (pool_size_ c) (pool_ c')
    | Crash _ => False
    end.
Proof using NL.
  intros Hc. pose proof (acquire_begin_calm _ _ Hc) as Hb. unfold acquire_connection.
  destruct (acquire_begin (pool_ c)) as [a v] eqn:Ha.
  pose proof (acquire_begin_inv _ _ _ _ (proj1 Hc) Ha) as Hinv. destruct Hc as [Hi Hidle].
  destruct (slots (pool_ c)) as [|s rest] eqn:Hs.
  - apply pair_eq in Hb as [-> ->]. set (v := emplace_back (pool_ c)) in *.
    remember (Ref (epoch v) 0) as r eqn:Hr. cbv iota.
    destruct (do_connect _ _) as [o c'] eqn:Hd.
    apply do_connect_frame in Hd as (Hp & Hn & Hsent & Hf). simpl in Hp, Hn, Hsent.
    assert (Hv : slots v = [Slot (next_id (pool_ c)) true false]) by (unfold v; simpl; by rewrite Hs).
    assert (Hep : deref r (with_slots v [Slot (next_id (pool_ c)) true true]) = Some (next_id (pool_ c)))
      by (subst r; unfold deref; simpl; by rewrite decide_True by done).
    clearbody v.
    destruct o as [[]|e|f]; [| |by destruct (Hf f)].
    + unfold acquire_resume. rewrite Hp.
      unfold mark_connected. rewrite Hv. simpl. rewrite decide_True by done.
      unfold set_connected. simpl. rewrite Hep.
      do 2 eexists. split_and!; [done | done | done | simpl; lia |]. simpl.
      split; [|exists []; split; [done | set_solver]].
      eapply (mark_connected_inv _ v (next_id (pool_ c))); [done|].
      unfold mark_connected. rewrite Hv. simpl. by rewrite decide_True by done.
    + do 2 eexists. split_and!; [done | done | done | |]; simpl; rewrite Hp; unfold pop_back; simpl.
      * rewrite Hv. simpl. lia.
      * split; [by apply pop_back_inv|]. simpl. rewrite Hv. simpl. set_solver.
  - destruct Hb as [[= -> ->] Hcon]. do 2 eexists. split_and!; [done | done | done | simpl; lia |].
    split; [done|]. exists rest. simpl. unfold set_in_use. rewrite Hcon.
    split; [done|]. intros s' Hs'. apply Hidle. set_solver.
Qed.

Lemma do_request_frame id m t b h c o c' :
  do_request id m t b h c = (o, c') →
  pool_ c' = pool_ c ∧ pool_size_ c' = pool_size_ c ∧
  sent c' = sent c ++ [{| q_method := m; q_target := t; q_fields := request_fields c b h; q_body := b |}] ∧
  ∀ f, o ≠ Crash f.
Proof using NL.
  unfold do_request. intros H. pose proof (law_exchange_total id
    {| q_method := m; q_target := t; q_fields := request_fields c b h; q_body := b |} (world c)) as Ht.
  destruct (http_exchange _ _ _) as [[res|e|f] w]; injection H as <- <-; simpl in *; try done.
  by destruct (Ht f).
Qed.

Lemma busy_connected n id v : busy n id v → is_connected id v = true.
Proof.
  intros [_ (rest & Hs & _)]. unfold is_connected. rewrite Hs. simpl. by rewrite decide_True.
Qed.

Lemma release_length n id keep v : length (slots (release_connection n id keep v)) ≤ length (slots v).
Proof.
  unfold release_connection. destruct (list_find _ _) as [[i s]|] eqn:Hf; [|done].
  case_match; simpl; [|by rewrite length_insert].
  apply sublist_length, sublist_delete.
Qed.

(** The whole loop, from a calm pool to a calm pool. *)
Lemma execute_from_calm todo attempt m t b h c o c' :
  calm (pool_size_ c) (pool_ c) →
  execute_from todo attempt m t b h c = (o, c') →
  calm (pool_size_ c') (pool_ c') ∧ pool_size_ c' = pool_size_ c ∧
  length (slots (pool_ c')) ≤ Nat.max 1 (length (slots (pool_ c))) ∧ ∀ f, o ≠ Crash f.
Proof using NL.
  revert attempt c. induction todo as [|todo IH]; intros attempt c Hc; simpl.
  { intros [= <- <-]. split_and!; [done | done | lia | done]. }
  destruct (acquire_calm c Hc) as (oa & c1 & -> & Hn1 & _ & Hl1 & Hst).
  destruct oa as [id|e|f]; [| |done].
  2:{ intros [= <- <-]. rewrite Hn1. split_and!; [done | done | done | done]. }
  destruct (do_request id m t b h c1) as [o2 c2] eqn:Hr.
  apply do_request_frame in Hr as (Hp2 & Hn2 & _ & Hf2).
  assert (Hrel : ∀ keep, calm (pool_size_ (release id keep c2)) (pool_ (release id keep c2)) ∧
            pool_size_ (release id keep c2) = pool_size_ c ∧
            length (slots (pool_ (release id keep c2))) ≤ Nat.max 1 (length (slots (pool_ c)))).
  { intros keep. unfold release. simpl. rewrite Hn2, Hn1, Hp2.
    split_and!; [by apply release_busy | done |].
    pose proof (release_length (pool_size_ c) id keep (pool_ c1)). lia. }
  destruct o2 as [resp|e|f]; [|destruct e|by destruct (Hf2 f)];
    try (intros [= <- <-]; destruct (Hrel false) as (? & ? & ?); by split_and!).
  - intros [= <- <-]. destruct (Hrel (res_keep_alive resp)) as (? & ? & ?). by split_and!.
  - destruct (Hrel false) as (Hc3 & Hn3 & Hl3). case_match.
    + intros [= <- <-]. by split_and!.
    + intros Hex. destruct (IH _ _ Hc3 Hex) as (? & ? & ? & ?). split_and!; [done | congruence | lia | done].
Qed.

(** A caller that waits for each response before the next request. *)
Definition job : Type := verb * string * string * Params.

Fixpoint run_jobs (jobs : list job) (c : client) : list (outcome exn HttpResponse) * client :=
  match jobs with
  | [] => ([], c)
  | (m, t, b, h) :: jobs =>
      let '(o, c1) := execute m t b h c in
      let '(os, c2) := run_jobs jobs c1 in (o :: os, c2)
  end.

Lemma run_jobs_calm jobs c os c' :
  calm (pool_size_ c) (pool_ c) → run_jobs jobs c = (os, c') →
  calm (pool_size_ c') (pool_ c') ∧ pool_size_ c' = pool_size_ c ∧
  length (slots (pool_ c')) ≤ Nat.max 1 (length (slots (pool_ c))) ∧
  length os = length jobs ∧ Forall (λ o, ∀ f, o ≠ Crash f) os.
Proof using NL.
  revert c os. induction jobs as [|[[[m t] b] h] jobs IH]; intros c os Hc; simpl.
  { intros [= <- <-]. split_and!; [done | done | lia | done | done]. }
  destruct (execute m t b h c) as [o c1] eqn:Hx. destruct (run_jobs jobs c1) as [os' c2] eqn:Hr.
  intros [= <- <-]. apply execute_from_calm in Hx as (Hc1 & Hn & Hl & Hf); [|done].
  destruct (IH _ _ Hc1 Hr) as (? & ? & ? & ? & ?).
  split_and!; [done | congruence | lia | simpl; lia | by constructor].
Qed.

(** C12: A caller that waits for each response never triggers undefined behaviour in the
    transport, whatever the network does, and between requests the pool holds at most
    one connection, idle and connected. *)
Theorem sequential_requests_safe config pool_size w c jobs os c' :
  make_client config pool_size w = Ok c → run_jobs jobs c = (os, c') →
  Forall (λ o, ∀ f, o ≠ Crash f) os ∧ length os = length jobs ∧
  length (slots (pool_ c')) ≤ 1 ∧
  ∀ s, s ∈ slots (pool_ c') → in_use s = false ∧ connected s = true.
Proof using NL.
  intros Hm Hr. unfold make_client in Hm. destruct (from _) as [url|e|f]; [|done|done].
  injection Hm as <-. apply run_jobs_calm in Hr as ([Hi Hidle] & _ & Hl & Hlen & Hf).
  - split_and!; [done | done | done |]. intros s Hs. split; [by apply Hidle|].
    apply (pi_idle _ _ Hi s Hs). by apply Hidle.
  - split; [apply empty_inv | set_solver].
Qed.

(** What a request leaves alone, whatever the pool. *)
Lemma acquire_frame c o c' :
  acquire_connection c = (o, c') →
  sent c' = sent c ∧ (∀ b h, request_fields c' b h = request_fields c b h).
Proof using NL.
  unfold acquire_connection. destruct (acquire_begin _) as [[id|id r|id r] v]; [by intros [= <- <-]|..];
    unfold do_connect; simpl; (destruct (negb _); [by intros [= <- <-]|]);
    (destruct (tls_connect _ _ _ _ _) as [[se|e|f] w']; simpl; [|by intros [= <- <-]..]);
    destruct (acquire_resume _ _ _) as [o' v']; by intros [= <- <-].
Qed.

Lemma execute_from_sent todo attempt m t b h c o c' :
  execute_from todo attempt m t b h c = (o, c') →
  ∃ k, k ≤ todo ∧ (is_Ok o → 1 ≤ k) ∧ sent c' = sent c ++
    replicate k {| q_method := m; q_target := t; q_fields := request_fields c b h; q_body := b |}.
Proof using NL.
  revert attempt c. induction todo as [|todo IH]; intros attempt c; simpl.
  { intros [= <- <-]. exists 0. rewrite app_nil_r. split_and!; [done | by intros [] | done]. }
  destruct (acquire_connection c) as [oa c1] eqn:Ha.
  apply acquire_frame in Ha as [Hs1 Hq1].
  destruct oa as [id|e|f].
  2,3: intros [= <- <-]; exists 0; rewrite app_nil_r; split_and!; [lia | by intros [] | done].
  destruct (do_request id m t b h c1) as [o2 c2] eqn:Hr.
  assert (Hq2 : ∀ b h, request_fields c2 b h = request_fields c1 b h)
    by (unfold do_request in Hr; repeat case_match; by simplify_eq).
  apply do_request_frame in Hr as (_ & _ & Hs2 & _). rewrite Hs1, Hq1 in Hs2.
  destruct o2 as [resp|e|f]; [|destruct e|];
    try (intros [= <- <-]; exists 1; split_and!; [lia | done | done]).
  case_match; [intros [= <- <-]; exists 1; split_and!; [lia | done | done]|].
  intros (k & Hk & _ & Hsent)%IH. exists (S k). split_and!; [lia | lia |].
  rewrite Hsent. simpl. rewrite Hs2, <- (assoc_L (++)). simpl. do 3 f_equal.
  unfold release, with_pool, request_fields in *. simpl in *. rewrite (Hq2 b h), (Hq1 b h). done.
Qed.

(** C13: One call of execute puts the same request on the wire at most twice, and at
    least once if it returns a response. *)
Theorem execute_sends_at_most_twice m t b h c o c' :
  execute m t b h c = (o, c') →
  ∃ k, k ≤ 2 ∧ (is_Ok o → 1 ≤ k) ∧ sent c' = sent c ++
    replicate k {| q_method := m; q_target := t; q_fields := request_fields c b h; q_body := b |}.
Proof using NL. apply execute_from_sent. Qed.

(** A transport error on a reused connection that is the only one in the pool is not
    retried: NetworkException is thrown after one request, which the comment in execute
    says is retried. *)
Theorem stale_sole_connection_not_retried m t b h c id w w' :
  slots (pool_ c) = [Slot id false true] →
  http_exchange id {| q_method := m; q_target := t; q_fields := request_fields c b h; q_body := b |}
    (world c) = (Throw (beast_system_error w), w') →
  ∃ c', execute m t b h c = (throw_network w, c') ∧ slots (pool_ c') = [] ∧
    sent c' = sent c ++ [{| q_method := m; q_target := t; q_fields := request_fields c b h; q_body := b |}].
Proof.
  intros Hs Hx. unfold execute. cbn [execute_from max_attempts].
  unfold acquire_connection, acquire_begin. rewrite Hs. simpl. rewrite ?Hs.
  unfold was_preconnected, is_connected. simpl. rewrite (decide_True (P := id = id)) by done. simpl.
  unfold do_request. simpl. unfold request_fields in *. simpl in *. rewrite Hx.
  unfold release, release_connection. simpl. rewrite (decide_True (P := id = id)) by done. simpl.
  eexists. split_and!; done.
Qed.
End exec.
End Exec.

(** ** A scripted network, for examples *)
Module HttpWitness.
Import Url Pool Exec.

(** The queue of answers; an empty queue is a closed connection. *)
#[export] Instance scripted : Network := {|
  net := list (exn + raw_response);
  session := ();
  set_sni _ _ := true;
  tls_connect _ _ _ _ w := (Ok (Some ()), w);
  http_exchange _ _ w :=
    match w with
    | [] => (Throw (beast_system_error "end of stream"), [])
    | inl e :: w => (Throw e, w)
    | inr r :: w => (Ok r, w)
    end
|}.

#[export] Instance scripted_laws : NetworkLaws scripted.
Proof. constructor; [done|]. by intros id q [|[|] w] f. Qed.

#[export] Program Instance insertion_order : HashOrder := {| place m kv := m ++ [kv] |}.
Next Obligation. intros m kv. apply Permutation_app_comm. Qed.

Definition reply (b : string) : exn + raw_response :=
  inr {| rr_status := 200; rr_body := b; rr_fields := [("X-MBX-USED-WEIGHT-1M", "7")] |}.

Definition start (pool_size : nat) (w : net) : client :=
  {| parsed_url_ := {| scheme := "https"; host := "api.binance.com"; port := "443" |};
     pool_size_ := pool_size; api_key_ := ""; ssl_session_cache_ := ∅; pool_ := empty_vec;
     sent := []; world := w |}.

Definition script : net := [reply "{}"; inl (beast_system_error "reset")].

Definition two_jobs : list job :=
  [(get_, "/api/v3/ping", "", []); (get_, "/api/v3/time", "", [])].

Lemma parsed_url_round_trip_witness :
  from "https://testnet.binance.vision:8443/api" =
  Ok {| scheme := "https"; host := "testnet.binance.vision"; port := "8443" |}.
Proof.
  apply (parsed_url_round_trip "https" "testnet.binance.vision" "8443" "/api");
    [done | done | done | done | right; by exists "api"].
Defined.

Lemma sequential_requests_safe_witness :
  ∃ os c', run_jobs two_jobs (start 4 script) = (os, c') ∧
    Forall (λ o, ∀ f, o ≠ Crash f) os ∧ length os = 2 ∧ length (slots (pool_ c')) ≤ 1.
Proof.
  destruct (run_jobs two_jobs (start 4 script)) as [os c'] eqn:Hr.
  exists os, c'. split; [done|].
  destruct (sequential_requests_safe RestConfig_default 4 script
              (start 4 script) two_jobs os c')
    as (H1 & H2 & H3 & _); [vm_compute; reflexivity | done |]. done.
Defined.

Lemma execute_sends_at_most_twice_witness :
  ∃ o c', execute get_ "/api/v3/ping" "" [] (start 4 [reply "{}"]) = (o, c') ∧ length (sent c') ≤ 2.
Proof.
  destruct (execute get_ "/api/v3/ping" "" [] (start 4 [reply "{}"])) as [o c'] eqn:Hx.
  exists o, c'. split; [done|].
  destruct (execute_sends_at_most_twice _ _ _ _ _ _ _ Hx) as (k & Hk & _ & ->).
  simpl. by rewrite length_replicate.
Defined.

Lemma stale_sole_connection_not_retried_witness :
  ∃ c', execute get_ "/api/v3/ping" "" [] (with_pool (start 4 []) (Vec [Slot 0 false true] 1 1 1))
        = (throw_network "end of stream", c') ∧ slots (pool_ c') = [].
Proof.
  destruct (stale_sole_connection_not_retried get_ "/api/v3/ping" "" []
              (with_pool (start 4 []) (Vec [Slot 0 false true] 1 1 1)) 0 "end of stream" [])
    as (c' & H1 & H2 & _); [done | done |]. by exists c'.
Defined.
End HttpWitness.
