(* ===== verification/HttpTasks.v ===== *)
(** * Interleaved requests over one connection pool

    src/rest/detail/http_client.cpp runs every [execute] coroutine on one
    I/O thread: coroutines interleave only where they suspend, in
    [do_connect] (resolve, connect, handshake) and in [do_request] (write,
    read).  A task is one call of [execute]; a step runs one task from a
    suspension point to the next.  The references and pointers a task
    keeps across a suspension (to the vector's element in
    [acquire_connection], to the connection in [execute]) are looked up
    again when it resumes, and a lookup of what no longer exists is
    [Crash ub_dangling]. *)

From S2P Require Import Prelude Errors CppLib Query CoreTypes HttpClient.
Import Pool.
Local Open Scope nat_scope.

Module Tasks.

(** Where a task is suspended; [attempt] is the loop variable. *)
Inductive task : Type :=
| Starting                                                     (* spawned, not yet run *)
| Connecting (attempt : nat) (id : nat) (r : ref) (fresh : bool)  (* in do_connect *)
| Requesting (attempt : nat) (id : nat) (was_pre : bool)        (* in do_request *)
| Finished (ok : bool).                                         (* responded, or threw *)

Record state : Type := State { pool : vec; tasks : list task; crashed : bool }.

Definition init : state := State empty_vec [] false.

(** What the I/O layer reports to a suspended task. *)
Inductive event : Type :=
| Spawn                          (* a caller starts a request *)
| Run (i : nat)                  (* the coroutine gets to run first *)
| ConnectDone (i : nat)          (* handshake complete *)
| ConnectError (i : nat)         (* resolve, connect or handshake threw *)
| Response (i : nat) (keep : bool)
| TransportError (i : nat)       (* beast::system_error *)
| OtherError (i : nat).          (* another std::exception *)

Definition actor (e : event) : option nat :=
  match e with
  | Spawn => None
  | Run i | ConnectDone i | ConnectError i | Response i _ | TransportError i | OtherError i => Some i
  end.

Definition exists_slot (id : nat) (v : vec) : bool := bool_decide (id ∈ ids v).

(** [bool was_preconnected] of [execute]. *)
Definition was_preconnected (attempt id : nat) (v : vec) : bool :=
  (attempt =? 0) && ((1 <? length (slots v)) || negb (is_connected id v)).

(** From the top of the loop in [execute] to the next suspension. *)
Definition attempt_from (attempt : nat) (v : vec) : task * vec :=
  match acquire_begin v with
  | (Ready id, v') => (Requesting attempt id (was_preconnected attempt id v'), v')
  | (ConnectIdle id r, v') => (Connecting attempt id r false, v')
  | (ConnectNew id r, v') => (Connecting attempt id r true, v')
  end.

Section tasks.
Context (pool_size : nat).

Definition update (i : nat) (r : task * vec) (s : state) : state :=
  State r.2 (<[i := r.1]> (tasks s)) (crashed s).

Definition crash (s : state) : state := State (pool s) (tasks s) true.

Definition release (id : nat) (keep : bool) (v : vec) : vec := release_connection pool_size id keep v.

(** One event; [None] when the event cannot happen in this state.  A
    response needs a connection that is up, and resuming a task whose
    connection object has been destroyed is undefined behaviour. *)
Definition exec_event (e : event) (s : state) : option state :=
  if crashed s then None else
  match e with
  | Spawn => Some (State (pool s) (tasks s ++ [Starting]) false)
  | Run i =>
      match tasks s !! i with
      | Some Starting => Some (update i (attempt_from 0 (pool s)) s)
      | _ => None
      end
  | ConnectDone i =>
      match tasks s !! i with
      | Some (Connecting a id r _) =>
          match acquire_resume id r (pool s) with
          | (Ok got, v) => Some (update i (Requesting a got (was_preconnected a got v), v) s)
          | _ => Some (crash s)
          end
      | _ => None
      end
  | ConnectError i =>
      match tasks s !! i with
      | Some (Connecting a id r true) =>
          match slots (pool s) with
          | [] => Some (crash s)                           (* pop_back on an empty vector *)
          | _ => Some (update i (Finished false, pop_back (pool s)) s)
          end
      | Some (Connecting a id r false) => Some (update i (Finished false, pool s) s)
      | _ => None
      end
  | Response i keep =>
      match tasks s !! i with
      | Some (Requesting a id w) =>
          if exists_slot id (pool s) then
            if is_connected id (pool s)
            then Some (update i (Finished true, release id keep (pool s)) s) else None
          else Some (crash s)
      | _ => None
      end
  | TransportError i =>
      match tasks s !! i with
      | Some (Requesting a id w) =>
          let v := release id false (pool s) in
          if negb w || (a =? Exec.max_attempts - 1) then Some (update i (Finished false, v) s)
          else Some (update i (attempt_from (S a) v) s)
      | _ => None
      end
  | OtherError i =>
      match tasks s !! i with
      | Some (Requesting a id w) => Some (update i (Finished false, release id false (pool s)) s)
      | _ => None
      end
  end.

Definition step (s : state) (e : event) (s' : state) : Prop := exec_event e s = Some s'.

Fixpoint exec_events (es : list event) (s : state) : option state :=
  match es with
  | [] => Some s
  | e :: es => match exec_event e s with Some s' => exec_events es s' | None => None end
  end.

Lemma exec_events_run es s s' : exec_events es s = Some s' → run step s es s'.
Proof.
  revert s. induction es as [|e es IH]; intros s; simpl; [intros [= ->]; constructor|].
  destruct (exec_event e s) as [s1|] eqn:He; [|done]. intros H.
  eapply run_cons; [exact He | by apply IH].
Qed.

(** *** Every interleaving keeps the pool invariant *)

Lemma attempt_from_inv a v : pool_inv pool_size v → pool_inv pool_size (attempt_from a v).2.
Proof.
  intros Hi. unfold attempt_from. destruct (acquire_begin v) as [o v'] eqn:Ha.
  apply (acquire_begin_inv _ _ _ _ Hi) in Ha. by destruct o.
Qed.

Lemma acquire_resume_inv id r v o v' :
  pool_inv pool_size v → acquire_resume id r v = (o, v') → pool_inv pool_size v'.
Proof.
  intros Hi. unfold acquire_resume. destruct (mark_connected id v) as [v1|] eqn:Hm.
  - apply (mark_connected_inv _ _ _ _ Hi) in Hm. destruct (deref r v1); by intros [= <- <-].
  - by intros [= <- <-].
Qed.

Lemma step_pool_inv s e s' : pool_inv pool_size (pool s) → step s e s' → pool_inv pool_size (pool s').
Proof.
  intros Hi Hst. unfold step, exec_event, update, crash in Hst.
  destruct (crashed s); [done|].
  destruct e as [|i|i|i|i keep|i|i]; try (destruct (tasks s !! i) as [[]|] eqn:Ht; try done).
  - by injection Hst as <-.
  - injection Hst as <-. by apply attempt_from_inv.
  - destruct (acquire_resume id r (pool s)) as [o v] eqn:Ha.
    pose proof (acquire_resume_inv _ _ _ _ _ Hi Ha). destruct o; by injection Hst as <-.
  - destruct fresh; [|by injection Hst as <-].
    destruct (slots (pool s)); injection Hst as <-; [done | by apply pop_back_inv].
  - case_match; [|by injection Hst as <-]. destruct (is_connected id (pool s)) eqn:Hc; [|done].
    injection Hst as <-. by apply release_inv.
  - assert (pool_inv pool_size (release id false (pool s))) by by apply release_inv.
    case_match; injection Hst as <-; [done | by apply attempt_from_inv].
  - injection Hst as <-. by apply release_inv.
Qed.

(** C5: However requests interleave at their suspension points, the pool never holds a
    connection twice, every idle connection is connected, and an idle connection is kept
    only while the pool is within pool_size. *)
Theorem pool_invariant_reachable es s :
  run step init es s →
  NoDup (ids (pool s)) ∧
  (∀ c, c ∈ slots (pool s) → in_use c = false →
     connected c = true ∧ length (slots (pool s)) ≤ pool_size).
Proof.
  intros Hr.
  assert (Hi : pool_inv pool_size (pool s)).
  { revert es s Hr. apply (run_invariant step (λ _ s, pool_inv pool_size (pool s))).
    - apply empty_inv.
    - intros tr s e s' _ Hi Hst. by eapply step_pool_inv. }
  split; [apply (pi_nodup _ _ Hi)|]. intros c Hc Hu.
  split; [by apply (pi_idle _ _ Hi) | by apply (pi_size _ _ Hi c)].
Qed.

(** *** Requests whose connects are not disturbed *)

(** The connection a task works on. *)
Definition holds (t : task) : option nat :=
  match t with Connecting _ id _ _ | Requesting _ id _ => Some id | _ => None end.

Definition connecting (t : task) : bool := match t with Connecting _ _ _ _ => true | _ => false end.

(** While another task is in [do_connect] no slot is added or removed. *)
Definition undisturbed (v v' : vec) (ts : list task) (i : nat) : Prop :=
  ∀ j t, ts !! j = Some t → connecting t = true → j ≠ i → ids v' = ids v ∧ epoch v' = epoch v.

Definition quiet_step (s : state) (e : event) (s' : state) : Prop :=
  step s e s' ∧ ∀ i, actor e = Some i → undisturbed (pool s) (pool s') (tasks s) i.

(** What a suspended task knows of its connection. *)
Definition task_ok (v : vec) (t : task) : Prop :=
  match t with
  | Requesting _ id _ => Slot id true true ∈ slots v
  | Connecting _ id r fresh =>
      fresh = true ∧ r_epoch r = epoch v ∧ ids v !! r_index r = Some id ∧
      S (r_index r) = length (ids v) ∧ Slot id true false ∈ slots v
  | _ => True
  end.

Record owns (s : state) : Prop := {
  ow_inv : pool_inv pool_size (pool s);
  ow_run : crashed s = false;
  ow_task : ∀ i t, tasks s !! i = Some t → task_ok (pool s) t;
  ow_excl : ∀ i j t t' id, tasks s !! i = Some t → tasks s !! j = Some t' →
              holds t = Some id → holds t' = Some id → i = j;
  ow_held : ∀ c, c ∈ slots (pool s) → in_use c = true →
              ∃ i t, tasks s !! i = Some t ∧ holds t = Some (sid c)
}.

Lemma slot_unique v c c' :
  NoDup (ids v) → c ∈ slots v → c' ∈ slots v → sid c = sid c' → c = c'.
Proof.
  intros Hnd [i Hi]%list_elem_of_lookup [j Hj]%list_elem_of_lookup Heq.
  assert (i = j) as <-; [|congruence].
  eapply (NoDup_lookup (ids v)); [done | |]; unfold ids; rewrite list_lookup_fmap.
  - by rewrite Hi.
  - by rewrite Hj, Heq.
Qed.

Lemma held_slot s i t id :
  owns s → tasks s !! i = Some t → holds t = Some id → ∃ c, Slot id true c ∈ slots (pool s).
Proof.
  intros Ho Ht Hh. pose proof (ow_task _ Ho _ _ Ht). destruct t; simpl in *; naive_solver.
Qed.

Lemma elem_of_update_iff v i c c' x :
  NoDup (ids v) → slots v !! i = Some c →
  x ∈ <[i := c']> (slots v) ↔ x = c' ∨ (x ∈ slots v ∧ sid x ≠ sid c).
Proof.
  intros Hnd Hi. rewrite !list_elem_of_lookup. split.
  - intros [j [(-> & -> & _)|[Hne Hj]]%list_lookup_insert_Some]; [by left|right].
    split; [by exists j|]. intros Heq. apply Hne.
    eapply (NoDup_lookup (ids v)); [done | |]; unfold ids; rewrite list_lookup_fmap;
      [by rewrite Hi | by rewrite Hj, <- Heq].
  - intros [->|[[j Hj] Hne]].
    + exists i. rewrite list_lookup_insert_eq; [done | by eapply lookup_lt_Some].
    + exists j. rewrite list_lookup_insert_ne; [done|]. intros ->. congruence.
Qed.

Lemma elem_of_delete_iff v i c x :
  NoDup (ids v) → slots v !! i = Some c →
  x ∈ delete i (slots v) ↔ x ∈ slots v ∧ sid x ≠ sid c.
Proof.
  intros Hnd Hi. rewrite !list_elem_of_lookup. split.
  - intros [j Hj].
    assert (Hk : ∃ k, k ≠ i ∧ slots v !! k = Some x).
    { destruct (decide (j < i)).
      - exists j. rewrite list_lookup_delete_lt in Hj by done. split; [lia | done].
      - exists (S j). rewrite list_lookup_delete_ge in Hj by lia. split; [lia | done]. }
    destruct Hk as (k & Hki & Hk). split; [by exists k|]. intros Heq. apply Hki.
    eapply (NoDup_lookup (ids v)); [done | |]; unfold ids; rewrite list_lookup_fmap;
      [by rewrite Hk | by rewrite Hi, Heq].
  - intros [[k Hk] Hx]. destruct (decide (k < i)).
    + exists k. by rewrite list_lookup_delete_lt.
    + exists (k - 1). assert (k ≠ i) by (intros ->; congruence).
      rewrite list_lookup_delete_ge by lia. by replace (S (k - 1)) with k by lia.
Qed.

(** One task moves from [t] to [t'] and touches only its connections. *)
Lemma owns_update s i t t' v' :
  owns s → tasks s !! i = Some t → pool_inv pool_size v' →
  (∀ c, holds t ≠ Some (sid c) → holds t' ≠ Some (sid c) → c ∈ slots v' ↔ c ∈ slots (pool s)) →
  (∀ id, holds t' = Some id → holds t = Some id ∨ ∀ c, Slot id true c ∉ slots (pool s)) →
  task_ok v' t' →
  (∀ c, c ∈ slots v' → holds t = Some (sid c) → holds t' ≠ Some (sid c) → in_use c = false) →
  undisturbed (pool s) v' (tasks s) i →
  owns (update i (t', v') s).
Proof.
  intros Ho Ht Hi' Hfr Hfresh Hok Hrel Hq.
  assert (Hother : ∀ j u id, tasks s !! j = Some u → j ≠ i → holds u = Some id →
            holds t ≠ Some id ∧ holds t' ≠ Some id).
  { intros j u id Hj Hne Hu.
    assert (Hni : holds t ≠ Some id) by (intros ?; by apply Hne, (ow_excl _ Ho j i u t id)).
    split; [done|]. intros [?|Hnone]%Hfresh; [done|].
    destruct (held_slot _ _ _ _ Ho Hj Hu) as [c Hc]. by apply (Hnone c). }
  constructor; simpl.
  - done.
  - apply Ho.
  - intros j u [(-> & -> & _)|[Hne Hj]]%list_lookup_insert_Some; [done|].
    pose proof (ow_task _ Ho _ _ Hj) as Hu. destruct u; simpl in *; try done.
    + destruct Hu as (Hf & He & Hid & Hlen & Hin).
      destruct (Hq j _ Hj eq_refl ltac:(done)) as [-> ->].
      destruct (Hother j _ id Hj ltac:(done) eq_refl). split_and!; [done..|]. by apply Hfr.
    + destruct (Hother j _ id Hj ltac:(done) eq_refl). by apply Hfr.
  - intros j k u u' id [(-> & -> & _)|[Hne Hj]]%list_lookup_insert_Some
      [(? & -> & _)|[Hne' Hk]]%list_lookup_insert_Some Hu Hu'; try done.
    + by destruct (Hother k u' id Hk ltac:(done) Hu').
    + subst. by destruct (Hother j u id Hj ltac:(done) Hu).
    + by eapply (ow_excl _ Ho).
  - intros c Hc Hu. assert (Hlt : i < length (tasks s)) by by eapply lookup_lt_Some.
    destruct (decide (holds t' = Some (sid c))) as [?|Hn'].
    { exists i, t'. by rewrite list_lookup_insert_eq. }
    destruct (decide (holds t = Some (sid c))) as [?|Hn]; [by rewrite (Hrel c) in Hu|].
    destruct (ow_held _ Ho c) as (j & u & Hj & Hh); [by apply Hfr | done |].
    exists j, u. rewrite list_lookup_insert_ne; [done|]. intros <-. congruence.
Qed.

Lemma find_slot v c :
  NoDup (ids v) → c ∈ slots v →
  ∃ k, list_find (λ s, sid s = sid c) (slots v) = Some (k, c) ∧ slots v !! k = Some c.
Proof.
  intros Hnd Hc. destruct (list_find (λ s, sid s = sid c) (slots v)) as [[k c']|] eqn:Hf.
  - apply list_find_Some in Hf as (Hk & Hs & _). assert (c' = c) as ->.
    { eapply slot_unique; [done | by eapply list_elem_of_lookup_2 | done | done]. }
    by exists k.
  - apply list_find_None in Hf. rewrite Forall_forall in Hf. by destruct (Hf c Hc).
Qed.

Lemma owns_attempt s i t a :
  owns s → tasks s !! i = Some t → holds t = None →
  undisturbed (pool s) (attempt_from a (pool s)).2 (tasks s) i →
  owns (update i (attempt_from a (pool s)) s).
Proof.
  intros Ho Ht Hn Hq. pose proof (ow_inv _ Ho) as Hi. pose proof (pi_nodup _ _ Hi) as Hnd.
  pose proof (attempt_from_inv a _ Hi) as Hi'.
  rewrite (surjective_pairing (attempt_from a (pool s))).
  assert (Hrest : ∀ id v', (attempt_from a (pool s)).2 = v' → holds (attempt_from a (pool s)).1 = Some id →
    (∀ c, sid c ≠ id → c ∈ slots v' ↔ c ∈ slots (pool s)) → (∀ c, Slot id true c ∉ slots (pool s)) →
    task_ok v' (attempt_from a (pool s)).1 →
    owns (update i ((attempt_from a (pool s)).1, v') s)).
  { intros id v' <- Hh Hfr Hno Hok. eapply owns_update; eauto.
    - intros c _ Hc. apply Hfr. congruence.
    - intros id' Hid'. right. intros c. rewrite Hh in Hid'. injection Hid' as <-. apply Hno.
    - intros c _ Hc. congruence. }
  unfold attempt_from in *. destruct (acquire_begin (pool s)) as [[id|id r|id r] v'] eqn:Ha.
  - apply (Hrest id); [done | done |..]; unfold acquire_begin in Ha; repeat case_match; simplify_eq;
      match goal with H : list_find _ _ = Some (?k, ?c) |- _ => apply list_find_Some in H as (Hk & [Hu Hc] & _) end.
    + intros c' Hne. simpl. rewrite (elem_of_update_iff _ _ _ _ _ Hnd Hk). naive_solver.
    + intros c' Hin. apply list_elem_of_lookup_2 in Hk.
      pose proof (slot_unique _ _ _ Hnd Hk Hin eq_refl) as Heq. apply (f_equal in_use) in Heq. simpl in Heq. congruence.
    + simpl. apply list_elem_of_lookup_2 with n. rewrite list_lookup_insert_eq by by eapply lookup_lt_Some.
      unfold set_in_use. by rewrite Hc.
  - by apply (acquire_never_idle_unconnected _ _ _ _ _ Hi) in Ha.
  - assert (id = next_id (pool s) ∧ r = Ref (epoch (emplace_back (pool s))) (length (slots (pool s))) ∧
            v' = emplace_back (pool s)) as (-> & -> & ->).
    { unfold acquire_begin in Ha. repeat case_match; try done. by simplify_eq. }
    apply (Hrest (next_id (pool s))); [done | done |..].
    + intros c Hne. simpl. rewrite elem_of_app, list_elem_of_singleton. naive_solver.
    + intros c Hin. pose proof (pi_fresh _ _ Hi) as Hfr. rewrite Forall_forall in Hfr.
      assert (next_id (pool s) < next_id (pool s)); [|lia]. apply Hfr.
      apply list_elem_of_fmap. by exists (Slot (next_id (pool s)) true c).
    + unfold task_ok. split_and!; [done | done | | |].
      * unfold ids. simpl. rewrite fmap_app, lookup_app_r by by rewrite length_fmap.
        by rewrite length_fmap, Nat.sub_diag.
      * unfold ids. simpl. rewrite length_fmap, length_app. simpl. lia.
      * simpl. set_solver.
Qed.

Lemma owns_connected s i a id r :
  owns s → tasks s !! i = Some (Connecting a id r true) →
  ∃ v, acquire_resume id r (pool s) = (Ok id, v) ∧
       ∀ w, owns (update i (Requesting a id w, v) s).
Proof.
  intros Ho Ht. pose proof (ow_inv _ Ho) as Hi. pose proof (pi_nodup _ _ Hi) as Hnd.
  destruct (ow_task _ Ho _ _ Ht) as (_ & He & Hid & Hlen & Hin).
  destruct (find_slot _ _ Hnd Hin) as (k & Hf & Hk). simpl in Hf.
  pose proof (ids_insert _ _ _ (Slot id true true) Hk eq_refl) as Hids.
  unfold acquire_resume, mark_connected. rewrite Hf. unfold set_connected, deref. simpl.
  rewrite decide_True by done.
  assert (sid <$> <[k:=Slot id true true]> (slots (pool s)) !! r_index r = Some id) as ->.
  { unfold ids in Hids, Hid. simpl in Hids. rewrite <- list_lookup_fmap, Hids. exact Hid. }
  eexists. split; [done|]. intros w. eapply owns_update; eauto.
  - eapply pool_inv_update; [done | done | done | done].
  - intros c Hc _. simpl in *. rewrite (elem_of_update_iff _ _ _ _ _ Hnd Hk). naive_solver.
  - simpl. apply list_elem_of_lookup_2 with k. by rewrite list_lookup_insert_eq by by eapply lookup_lt_Some.
  - intros c _ Hc Hc'. simpl in *. congruence.
  - intros j t _ _ _. by rewrite Hids.
Qed.

Lemma owns_connect_failed s i a id r :
  owns s → tasks s !! i = Some (Connecting a id r true) →
  undisturbed (pool s) (pop_back (pool s)) (tasks s) i →
  slots (pool s) ≠ [] ∧ owns (update i (Finished false, pop_back (pool s)) s).
Proof.
  intros Ho Ht Hq. pose proof (ow_inv _ Ho) as Hi. pose proof (pi_nodup _ _ Hi) as Hnd.
  destruct (ow_task _ Ho _ _ Ht) as (_ & He & Hid & Hlen & Hin).
  destruct (slots (pool s)) as [|c l _] eqn:Hs using rev_ind; [set_solver|].
  split; [by destruct l|].
  assert (sid c = id) as Hc.
  { unfold ids in *. rewrite Hs, fmap_app in Hid. rewrite Hs, length_fmap, length_app in Hlen. simpl in *.
    rewrite lookup_app_r in Hid by (rewrite length_fmap; lia).
    rewrite length_fmap in Hid. replace (r_index r - length l) with 0 in Hid by lia. by simplify_eq/=. }
  assert (Hsl : slots (pop_back (pool s)) = l) by (unfold pop_back; simpl; by rewrite Hs, removelast_last).
  assert (Hl : ∀ x, x ∈ l → sid x ≠ id).
  { unfold ids in Hnd. rewrite Hs, fmap_app in Hnd. apply NoDup_app in Hnd as (_ & Hd & _).
    intros x Hx Heq. apply (Hd (sid x)); [by apply list_elem_of_fmap_2|]. simpl. set_solver. }
  eapply owns_update; eauto.
  - by apply pop_back_inv.
  - intros x Hx _. rewrite Hsl, Hs, elem_of_app, list_elem_of_singleton. simpl in Hx.
    split; [auto|]. intros [?| ->]; [done | congruence].
  - done.
  - done.
  - intros x Hx Hh. rewrite Hsl in Hx. simpl in Hh. apply Hl in Hx. congruence.
Qed.

Lemma owns_released s i a id w keep t' :
  owns s → tasks s !! i = Some (Requesting a id w) → holds t' = None →
  undisturbed (pool s) (release id keep (pool s)) (tasks s) i →
  owns (update i (t', release id keep (pool s)) s).
Proof.
  intros Ho Ht Hn Hq. pose proof (ow_inv _ Ho) as Hi. pose proof (pi_nodup _ _ Hi) as Hnd.
  pose proof (ow_task _ Ho _ _ Ht) as Hin. simpl in Hin.
  destruct (find_slot _ _ Hnd Hin) as (k & Hf & Hk). simpl in Hf.
  assert (Hi' : pool_inv pool_size (release id keep (pool s))).
  { apply release_inv; [done|]. intros _. unfold is_connected. by rewrite Hf. }
  unfold release, release_connection in *. rewrite Hf in *.
  eapply owns_update; eauto; simpl.
  - intros c Hc _. assert (sid c ≠ id) by congruence. case_match; simpl.
    + rewrite (elem_of_delete_iff _ _ _ _ Hnd Hk). naive_solver.
    + rewrite (elem_of_update_iff _ _ _ _ _ Hnd Hk). naive_solver.
  - congruence.
  - by destruct t'.
  - intros c Hc [= ->] _. case_match; simpl in Hc.
    + apply (elem_of_delete_iff _ _ _ _ Hnd Hk) in Hc as [_ Hc]. done.
    + by apply (elem_of_update_iff _ _ _ _ _ Hnd Hk) in Hc as [->|[_ Hc]].
Qed.

Lemma update_twice s i r r' : update i r' (update i r s) = update i r' s.
Proof. unfold update. simpl. by rewrite list_insert_insert_eq. Qed.

Lemma attempt_ids a v x : x ∈ ids (attempt_from a v).2 → x ∈ ids v ∨ x = next_id v.
Proof.
  unfold attempt_from, acquire_begin. intros Hx.
  destruct (list_find _ (slots v)) as [[m c]|] eqn:H1; [|destruct (list_find (λ s, in_use s = false ∧ connected s = false) (slots v)) as [[m c]|] eqn:H2];
    cbn [snd] in Hx.
  1: apply list_find_Some in H1 as [Hm _]. 2: apply list_find_Some in H2 as [Hm _].
  1,2: left; by rewrite (ids_insert v m c (set_in_use true c) Hm eq_refl) in Hx.
  unfold ids in *. simpl in Hx. rewrite fmap_app, elem_of_app in Hx. simpl in Hx.
  rewrite list_elem_of_singleton in Hx. done.
Qed.

(** A retry never reuses the failed connection, so it is undisturbed
    only when no other task is connecting. *)
Lemma retry_alone s i a id w b :
  owns s → tasks s !! i = Some (Requesting a id w) →
  undisturbed (pool s) (attempt_from b (release id false (pool s))).2 (tasks s) i →
  ∀ v, undisturbed (pool s) v (tasks s) i.
Proof.
  intros Ho Ht Hq v j t Hj Hc Hne. exfalso. destruct (Hq j t Hj Hc Hne) as [Hids _].
  pose proof (ow_inv _ Ho) as Hi. pose proof (pi_nodup _ _ Hi) as Hnd.
  pose proof (ow_task _ Ho _ _ Ht) as Hin. simpl in Hin.
  destruct (find_slot _ _ Hnd Hin) as (k & Hf & Hk). simpl in Hf.
  pose proof (pi_fresh _ _ Hi) as Hfr. rewrite Forall_forall in Hfr.
  assert (Hid : id ∈ ids (pool s)) by (apply list_elem_of_fmap; by exists (Slot id true true)).
  assert (Hgone : id ∉ sid <$> delete k (slots (pool s))).
  { intros (x & -> & Hx)%list_elem_of_fmap. by apply (elem_of_delete_iff _ _ _ _ Hnd Hk) in Hx as [_ ?]. }
  rewrite <- Hids in Hid. apply attempt_ids in Hid.
  unfold release, release_connection in Hid. rewrite Hf in Hid. destruct Hid as [?|Hid]; [done|]. simpl in *.
  assert (next_id (pool s) < next_id (pool s)); [|lia]. apply Hfr. rewrite <- Hid at 1.
  apply list_elem_of_fmap. by exists (Slot id true true).
Qed.

Lemma quiet_step_owns s e s' : owns s → quiet_step s e s' → owns s'.
Proof.
  intros Ho [Hst Hq]. unfold step, exec_event in Hst. rewrite (ow_run _ Ho) in Hst.
  destruct e as [|i|i|i|i keep|i|i]; try (specialize (Hq i eq_refl);
    destruct (tasks s !! i) as [[]|] eqn:Ht; try done).
  - injection Hst as <-. destruct Ho as [H1 H2 H3 H4 H5]. constructor; simpl; [done | done | | |].
    + intros i t [?|[_ Hl]]%lookup_app_Some; [by eapply H3|].
      apply list_lookup_singleton_Some in Hl as [_ <-]. done.
    + intros i j t t' id [?|[_ Hl]]%lookup_app_Some [?|[_ Hl']]%lookup_app_Some Hh Hh'; [by eapply H4|..];
        repeat match goal with H : [_] !! _ = Some _ |- _ =>
          apply list_lookup_singleton_Some in H as [_ <-] end; done.
    + intros c Hc Hu. destruct (H5 c Hc Hu) as (i & t & Hi & Hh). exists i, t.
      split; [by apply lookup_app_l_Some | done].
  - injection Hst as <-. by eapply owns_attempt.
  - destruct (ow_task _ Ho _ _ Ht) as (-> & _).
    destruct (owns_connected _ _ _ _ _ Ho Ht) as (v & Hv & Hw). rewrite Hv in Hst.
    injection Hst as <-. apply Hw.
  - destruct (ow_task _ Ho _ _ Ht) as (-> & _).
    destruct (slots (pool s)) eqn:Hs; injection Hst as <-.
    + destruct (ow_task _ Ho _ _ Ht) as (_ & _ & _ & _ & Hin). rewrite Hs in Hin. set_solver.
    + by eapply owns_connect_failed.
  - pose proof (ow_task _ Ho _ _ Ht) as Hin. simpl in Hin.
    unfold exists_slot in Hst. rewrite bool_decide_true in Hst by (apply list_elem_of_fmap; by exists (Slot id true true)).
    case_match; [|done]. injection Hst as <-. by eapply owns_released.
  - case_match; injection Hst as <-; [by eapply owns_released|].
    pose proof (retry_alone _ _ _ _ _ _ Ho Ht Hq) as Hall.
    assert (Ho' : owns (update i (Starting, release id false (pool s)) s)) by by eapply owns_released.
    rewrite <- (update_twice s i (Starting, release id false (pool s))).
    eapply (owns_attempt (update i (Starting, release id false (pool s)) s) i Starting); [done | | done |].
    + simpl. apply list_lookup_insert_eq. by eapply lookup_lt_Some.
    + intros j t [(? & ? & _)|[Hne Hj]]%list_lookup_insert_Some Hc Hji; [by subst|].
      simpl. destruct (Hall (Vec [] 0 (S (epoch (pool s))) 0) j t Hj Hc Hji) as [_ He].
      simpl in He. lia.
  - injection Hst as <-. by eapply owns_released.
Qed.

Lemma quiet_reachable es s : run quiet_step init es s → owns s.
Proof.
  revert es s. apply (run_invariant quiet_step (λ _ s, owns s)).
  - constructor; simpl; [apply empty_inv | done | done | done | set_solver].
  - intros tr s e s' _ Ho Hst. by eapply quiet_step_owns.
Qed.

(** C6: As long as no connection is added or removed while another task is inside
    do_connect, interleaved requests never touch a destroyed connection, two requests
    never share a connection, and when all are done the pool is within pool_size with
    every connection idle and connected. *)
Theorem undisturbed_requests_exclusive es s :
  run quiet_step init es s →
  crashed s = false ∧
  (∀ i a id w, tasks s !! i = Some (Requesting a id w) → Slot id true true ∈ slots (pool s)) ∧
  (∀ i j a a' id w w', tasks s !! i = Some (Requesting a id w) →
     tasks s !! j = Some (Requesting a' id w') → i = j) ∧
  ((∀ t, t ∈ tasks s → holds t = None) →
     length (slots (pool s)) ≤ pool_size ∧
     ∀ c, c ∈ slots (pool s) → in_use c = false ∧ connected c = true).
Proof.
  intros Ho%quiet_reachable. split_and!.
  - apply Ho.
  - intros i a id w Ht. by apply (ow_task _ Ho) in Ht.
  - intros. by eapply (ow_excl _ Ho i j).
  - intros Hnone.
    assert (Hidle : ∀ c, c ∈ slots (pool s) → in_use c = false).
    { intros c Hc. destruct (in_use c) eqn:Hu; [|done].
      destruct (ow_held _ Ho c Hc Hu) as (i & t & Hi & Hh).
      rewrite Hnone in Hh by by eapply list_elem_of_lookup_2. done. }
    split.
    + destruct (slots (pool s)) as [|c l] eqn:Hs; [simpl; lia|]. rewrite <- Hs.
      apply (pi_size _ _ (ow_inv _ Ho) c); [rewrite Hs; set_solver | apply Hidle; set_solver].
    + intros c Hc. split; [by apply Hidle|]. by apply (pi_idle _ _ (ow_inv _ Ho)), Hidle.
Qed.
End tasks.

(** *** The sequential [execute] of HttpClient.v is a run of one task *)
Section lone.
Context `{HO : HashOrder} `{N : Exec.Network} {NL : Exec.NetworkLaws N}.

Lemma exec_events_app n es es' s s1 :
  exec_events n es s = Some s1 → exec_events n (es ++ es') s = exec_events n es' s1.
Proof.
  revert s. induction es as [|e es IH]; intros s; simpl; [by intros [= ->]|].
  destruct (exec_event n e s); [apply IH | done].
Qed.

(** [acquire_connection] and the events of its task, from the state that
    the top of the loop leaves to the next suspension. *)
Lemma acquire_events a i s c o c1 :
  Exec.calm (Exec.pool_size_ c) (Exec.pool_ c) → crashed s = false → i < length (tasks s) →
  Exec.acquire_connection c = (o, c1) →
  ∃ es, exec_events (Exec.pool_size_ c) es (update i (attempt_from a (Exec.pool_ c)) s) =
    Some (update i (match o with
                    | Ok id => Requesting a id (was_preconnected a id (Exec.pool_ c1))
                    | _ => Finished false
                    end, Exec.pool_ c1) s).
Proof using NL.
  intros Hc Hcr Hi Ha. pose proof (Exec.acquire_begin_calm _ _ Hc) as Hb.
  destruct (Exec.acquire_calm c Hc) as (o' & c' & Ha' & _ & _ & _ & Hst).
  rewrite Ha in Ha'. injection Ha' as <- <-.
  unfold Exec.acquire_connection in Ha. unfold attempt_from.
  destruct (slots (Exec.pool_ c)) as [|sl rest] eqn:Hs.
  - rewrite Hb in Ha |- *. set (v := emplace_back (Exec.pool_ c)) in *. set (r := Ref (epoch v) 0) in *.
    cbv iota in Ha |- *. destruct (Exec.do_connect _ _) as [od cd] eqn:Hd.
    apply Exec.do_connect_frame in Hd as (Hp & _ & _ & Hf). simpl in Hp.
    destruct od as [[]|e|f]; [| |by destruct (Hf f)].
    + destruct (acquire_resume _ _ _) as [o1 v1] eqn:Hres. injection Ha as <- <-.
      rewrite Hp in Hres. destruct o1 as [id|e|f]; [|exfalso|done].
      * exists [ConnectDone i]. unfold update. cbn [exec_events]. unfold exec_event. simpl. rewrite Hcr, list_lookup_insert_eq by done.
        simpl. rewrite Hres. unfold update. simpl. by rewrite list_insert_insert_eq.
      * unfold acquire_resume in Hres. repeat case_match; simplify_eq.
    + injection Ha as <- <-. exists [ConnectError i]. unfold update. cbn [exec_events]. unfold exec_event. simpl.
      rewrite Hcr, list_lookup_insert_eq by done. simpl. unfold update. simpl.
      rewrite Hs. simpl. rewrite Hp. by rewrite list_insert_insert_eq.
  - destruct Hb as [Hb _]. rewrite Hb in Ha |- *. injection Ha as <- <-. by exists [].
Qed.

(** The three ways a request ends. *)
Lemma requesting_events n a i s id w v :
  crashed s = false → i < length (tasks s) → Exec.busy n id v →
  let s1 := update i (Requesting a id w, v) s in
  (∀ keep, exec_events n [Response i keep] s1 = Some (update i (Finished true, release n id keep v) s)) ∧
  exec_events n [OtherError i] s1 = Some (update i (Finished false, release n id false v) s) ∧
  exec_events n [TransportError i] s1 =
    Some (update i (if negb w || (a =? Exec.max_attempts - 1) then (Finished false, release n id false v)
                    else attempt_from (S a) (release n id false v)) s).
Proof.
  intros Hcr Hi Hb s1.
  assert (Hex : exists_slot id v = true).
  { apply bool_decide_eq_true. destruct Hb as [_ (rest & Hs & _)]. unfold ids. rewrite Hs. set_solver. }
  pose proof (Exec.busy_connected _ _ _ Hb) as Hcon.
  split_and!; [intros keep|..]; cbn [exec_events]; unfold exec_event, s1, update; simpl;
    rewrite Hcr, list_lookup_insert_eq by done; simpl; rewrite ?Hex, ?Hcon; try destruct (negb w || _);
    unfold update; simpl; by rewrite list_insert_insert_eq.
Qed.

Lemma execute_from_events todo a i s m t b h c o c' :
  Exec.calm (Exec.pool_size_ c) (Exec.pool_ c) → crashed s = false → i < length (tasks s) →
  S a + todo = Exec.max_attempts →
  Exec.execute_from (S todo) a m t b h c = (o, c') →
  ∃ es, exec_events (Exec.pool_size_ c) es (update i (attempt_from a (Exec.pool_ c)) s) =
    Some (update i (Finished (is_Ok o), Exec.pool_ c') s).
Proof using NL.
  revert a c. induction todo as [|todo IH]; intros a c Hc Hcr Hi Hta Hx; cbn [Exec.execute_from] in Hx;
    (destruct (Exec.acquire_connection c) as [oa c1] eqn:Ha;
     destruct (acquire_events a i s c oa c1 Hc Hcr Hi Ha) as [es Hes];
     destruct (Exec.acquire_calm c Hc) as (oa' & c1' & Ha' & Hn1 & _ & _ & Hst);
     rewrite Ha in Ha'; injection Ha' as <- <-;
     destruct oa as [id|e|f]; [|injection Hx as <- <-; by exists es|done]).
  all: destruct (Exec.do_request id m t b h c1) as [o2 c2] eqn:Hr;
    apply Exec.do_request_frame in Hr as (Hp2 & Hn2 & _ & Hf2);
    change (Exec.was_preconnected a id c1) with (was_preconnected a id (Exec.pool_ c1)) in Hx;
    set (w := was_preconnected a id (Exec.pool_ c1)) in *;
    destruct (requesting_events _ a i s id w _ Hcr Hi Hst) as (Hok & Hother & Htransport);
    assert (Hrel : ∀ keep, Exec.pool_ (Exec.release id keep c2) = release (Exec.pool_size_ c) id keep (Exec.pool_ c1))
      by (intros keep; simpl; by rewrite Hn2, Hn1, Hp2);
    destruct o2 as [resp|[]|f]; [..|by destruct (Hf2 f)];
    try (injection Hx as <- <-; eexists (es ++ [_]); rewrite (exec_events_app _ _ _ _ _ Hes), Hrel;
         first [apply Hok | apply Hother]).
  - exists (es ++ [TransportError i]). rewrite (exec_events_app _ _ _ _ _ Hes), Htransport.
    assert ((a =? Exec.max_attempts - 1) = true) as Ha1 by (apply Nat.eqb_eq; lia).
    rewrite Ha1, orb_true_r in Hx |- *. injection Hx as <- <-. by rewrite Hrel.
  - destruct (negb w || (a =? Exec.max_attempts - 1)).
    { injection Hx as <- <-. exists (es ++ [TransportError i]).
      by rewrite (exec_events_app _ _ _ _ _ Hes), Htransport, Hrel. }
    apply IH in Hx as [es' Hes']; [|simpl; rewrite Hn2, Hn1, Hp2; by apply Exec.release_busy | done | done | lia].
    exists (es ++ [TransportError i] ++ es').
    rewrite (exec_events_app _ _ _ _ _ Hes), (exec_events_app _ _ _ _ _ Htransport), <- Hrel.
    rewrite <- Hes'. simpl. by rewrite Hn2, Hn1.
Qed.

End lone.

(** Two requests started together on a fresh client reach a dangling reference: the
    second emplace_back reallocates the pool's storage while the first is suspended
    holding a reference into it. *)
Theorem concurrent_first_requests_dangle pool_size :
  ∃ s, run (step pool_size) init [Spawn; Spawn; Run 0; Run 1; ConnectDone 0] s ∧ crashed s = true.
Proof. eexists. split; [by apply exec_events_run | done]. Qed.

(** A failed connect removes the last slot of the pool, which may be another task's: the
    failed task's own slot stays, marked in use. *)
Theorem failed_connect_drops_other_slot pool_size :
  ∃ s, run (step pool_size) init [Spawn; Spawn; Run 0; Run 1; ConnectError 0] s ∧
    tasks s !! 0 = Some (Finished false) ∧
    (∃ a r, tasks s !! 1 = Some (Connecting a 1 r true)) ∧ ids (pool s) = [0].
Proof. eexists. split; [by apply exec_events_run | split_and!; [done | by eexists _, _ | done]]. Qed.
End Tasks.

(** ** Example: two requests sharing the pool *)
Module TasksWitness.
Import Tasks HttpWitness.

(** The first request connects and runs alone until it is in [do_request];
    the second then opens a connection of its own; both complete. *)
Definition overlapping : list event :=
  [Spawn; Spawn; Run 0; ConnectDone 0; Run 1; ConnectDone 1; Response 0 true; Response 1 true].

(** Run the events, checking at each that no other connect is disturbed. *)
Definition undisturbedb (v v' : vec) (ts : list task) (i : nat) : bool :=
  forallb (λ j, (j =? i) || match ts !! j with
                            | Some t => negb (connecting t) ||
                                bool_decide (ids v' = ids v ∧ epoch v' = epoch v)
                            | None => true
                            end) (seq 0 (length ts)).

Lemma undisturbedb_spec v v' ts i : undisturbedb v v' ts i = true → undisturbed v v' ts i.
Proof.
  intros H j t Hj Hc Hne. unfold undisturbedb in H. rewrite forallb_forall in H.
  specialize (H j). rewrite Hj, Hc in H. simpl in H.
  destruct (Nat.eqb_spec j i); [done|]. simpl in H.
  apply (bool_decide_eq_true (ids v' = ids v ∧ epoch v' = epoch v)). apply H.
  apply in_seq. pose proof (lookup_lt_Some _ _ _ Hj). lia.
Qed.

Fixpoint exec_quiet (n : nat) (es : list event) (s : state) : option state :=
  match es with
  | [] => Some s
  | e :: es =>
      match exec_event n e s with
      | Some s' =>
          if match actor e with Some i => undisturbedb (pool s) (pool s') (tasks s) i | None => true end
          then exec_quiet n es s' else None
      | None => None
      end
  end.

Lemma exec_quiet_run n es s s' : exec_quiet n es s = Some s' → run (quiet_step n) s es s'.
Proof.
  revert s. induction es as [|e es IH]; intros s; simpl; [intros [= ->]; constructor|].
  destruct (exec_event n e s) as [s1|] eqn:He; [|done].
  destruct (match actor e with Some i => _ | None => true end) eqn:Hq; [|done]. intros H.
  eapply run_cons; [|by apply IH]. split; [exact He|].
  intros i Hi. rewrite Hi in Hq. by apply undisturbedb_spec.
Qed.

Lemma pool_invariant_reachable_witness :
  ∃ s, run (step 4) init overlapping s ∧ NoDup (ids (pool s)) ∧ length (slots (pool s)) = 2.
Proof.
  destruct (exec_events 4 overlapping init) as [s|] eqn:Hs; [|vm_compute in Hs; discriminate].
  apply exec_events_run in Hs as Hr. exists s. split; [done|].
  destruct (pool_invariant_reachable 4 overlapping s Hr) as [Hnd _]. split; [done|].
  vm_compute in Hs. injection Hs as <-. reflexivity.
Defined.

Lemma undisturbed_requests_exclusive_witness :
  ∃ s, run (quiet_step 4) init overlapping s ∧ crashed s = false.
Proof.
  destruct (exec_quiet 4 overlapping init) as [s|] eqn:Hs; [|vm_compute in Hs; discriminate].
  apply exec_quiet_run in Hs as Hr. exists s. split; [done|].
  exact (proj1 (undisturbed_requests_exclusive 4 overlapping s Hr)).
Defined.

End TasksWitness.
