(* ===== verification/Exchanges.v ===== *)
(** * Requests and their answers

    HttpTasks.v follows the connections of interleaved requests; this file
    adds what travels on them.  [do_request] of
    src/rest/detail/http_client.cpp is taken apart at its two suspension
    points, the write and the read, and every connection carries the
    requests that have reached the server and are not answered yet.  A
    server answers the requests of a connection in order (RFC 9112), so a
    read completes with the answer to the oldest of them, whoever reads.
    The question is whether a request gets its own answer. *)

From S2P Require Import Prelude Errors HttpClient HttpTasks.
Import Pool.
Local Open Scope nat_scope.

Module Exchange.

(** Where [do_request] of a task is; [Outside] when it is not in it. *)
Inductive phase : Type := Outside | Writing | Reading.

#[global] Instance phase_eq_dec : EqDecision phase.
Proof. solve_decision. Defined.

Record state : Type := State {
  sys : Tasks.state;
  phases : list phase;              (* of each task *)
  lines : gmap nat (list nat);      (* of each connection: whose requests wait for an answer *)
  wire : list nat;                  (* whose requests have reached the server *)
  answers : list (nat * nat)        (* (i, j): task i was given the answer to task j *)
}.

Definition init : state := State Tasks.init [] ∅ [] [].

Inductive event : Type :=
| Pooled (e : Tasks.event)                        (* Spawn, Run, ConnectDone, ConnectError *)
| Wrote (i : nat)                                 (* http::async_write completed *)
| Answered (i : nat) (keep : bool)                (* http::async_read completed *)
| Failed (i : nat) (transport reached : bool).    (* either of them threw *)

Definition line (id : nat) (s : state) : list nat := default [] (lines s !! id).

(** The phase a task is in when it is first suspended there. *)
Definition enter (t : option Tasks.task) : phase :=
  match t with Some (Tasks.Requesting _ _ _) => Writing | _ => Outside end.

Section exchange.
Context (pool_size : nat).

Definition with_sys (i : nat) (s' : Tasks.state) (s : state) : state :=
  State s' (<[i := enter (Tasks.tasks s' !! i)]> (phases s)) (lines s) (wire s) (answers s).

Definition arrive (i id : nat) (s : state) : state :=
  State (sys s) (phases s) (<[id := line id s ++ [i]]> (lines s)) (wire s ++ [i]) (answers s).

Definition exec (e : event) (s : state) : option state :=
  match e with
  | Pooled (Tasks.Spawn as te) =>
      s' ← Tasks.exec_event pool_size te (sys s);
      Some (State s' (phases s ++ [Outside]) (lines s) (wire s) (answers s))
  | Pooled (Tasks.Run i as te) | Pooled (Tasks.ConnectDone i as te) | Pooled (Tasks.ConnectError i as te) =>
      s' ← Tasks.exec_event pool_size te (sys s); Some (with_sys i s' s)
  | Pooled _ => None
  | Wrote i =>
      match Tasks.crashed (sys s), Tasks.tasks (sys s) !! i, phases s !! i with
      | false, Some (Tasks.Requesting _ id _), Some Writing =>
          (* conn.read_buffer.consume(...) *)
          if Tasks.exists_slot id (Tasks.pool (sys s)) then
            let s1 := arrive i id s in
            Some (State (sys s1) (<[i := Reading]> (phases s1)) (lines s1) (wire s1) (answers s1))
          else Some (State (Tasks.crash (sys s)) (phases s) (lines s) (wire s) (answers s))
      | _, _, _ => None
      end
  | Answered i keep =>
      match Tasks.tasks (sys s) !! i, phases s !! i with
      | Some (Tasks.Requesting _ id _), Some Reading =>
          match line id s with
          | j :: rest =>
              s' ← Tasks.exec_event pool_size (Tasks.Response i keep) (sys s);
              Some (if Tasks.crashed s' then State s' (phases s) (lines s) (wire s) (answers s)
                    else State s' (<[i := Outside]> (phases s)) (<[id := rest]> (lines s)) (wire s) (answers s ++ [(i, j)]))
          | [] => None
          end
      | _, _ => None
      end
  | Failed i transport reached =>
      match Tasks.tasks (sys s) !! i, phases s !! i with
      | Some (Tasks.Requesting _ id _), Some ph =>
          s' ← Tasks.exec_event pool_size (if transport then Tasks.TransportError i else Tasks.OtherError i) (sys s);
          Some (with_sys i s' (if reached && bool_decide (ph = Writing) then arrive i id s else s))
      | _, _ => None
      end
  end.

Definition step (s : state) (e : event) (s' : state) : Prop := exec e s = Some s'.

Fixpoint exec_all (es : list event) (s : state) : option state :=
  match es with
  | [] => Some s
  | e :: es => match exec e s with Some s' => exec_all es s' | None => None end
  end.

Lemma exchange_all_run es s s' : exec_all es s = Some s' → run step s es s'.
Proof.
  revert s. induction es as [|e es IH]; intros s; simpl; [intros [= ->]; constructor|].
  destruct (exec e s) as [s1|] eqn:He; [|done]. intros H.
  eapply run_cons; [exact He | by apply IH].
Qed.

(** What an event is to HttpTasks.v; completing a write is nothing. *)
Definition pool_event (e : event) : option Tasks.event :=
  match e with
  | Pooled e => Some e
  | Wrote _ => None
  | Answered i keep => Some (Tasks.Response i keep)
  | Failed i true _ => Some (Tasks.TransportError i)
  | Failed i false _ => Some (Tasks.OtherError i)
  end.

(** *** Every step is one of HttpTasks.v, or a completed write *)
Lemma exec_sys e s s' :
  exec e s = Some s' →
  match pool_event e with
  | Some te => Tasks.exec_event pool_size te (sys s) = Some (sys s')
  | None => sys s' = sys s ∨ Tasks.crashed (sys s') = true
  end.
Proof.
  unfold exec. destruct e as [te|i|i keep|i tr re]; simpl; intros H.
  - destruct te; simplify_option_eq; done.
  - repeat case_match; simplify_eq/=; auto.
  - repeat case_match; simplify_option_eq; try done; by case_match.
  - destruct tr; repeat case_match; simplify_option_eq; done.
Qed.

(** *** What an event of the pool changes *)

Definition requesting (t : Tasks.task) : option nat :=
  match t with Tasks.Requesting _ id _ => Some id | _ => None end.

(** Connections come from the pool or are new. *)
Definition grows (v v' : vec) : Prop :=
  next_id v ≤ next_id v' ∧ ∀ id, id ∈ ids v' → id ∈ ids v ∨ next_id v ≤ id.

Lemma grows_refl v : grows v v.
Proof. split; auto. Qed.

Lemma grows_trans v1 v2 v3 : grows v1 v2 → grows v2 v3 → grows v1 v3.
Proof. intros [H1 H2] [H3 H4]. split; [lia|]. intros id [[?|?]%H2|?]%H4; [auto | auto | right; lia]. Qed.

Lemma grows_slots v l : l ⊆ slots v → grows v (with_slots v l).
Proof.
  intros Hl. split; [done|]. intros id (c & -> & Hc)%list_elem_of_fmap. left. by apply list_elem_of_fmap_2, Hl.
Qed.

Lemma grows_ids v l : sid <$> l = ids v → grows v (with_slots v l).
Proof. intros Hl. split; [done|]. unfold ids at 1. simpl. rewrite Hl. auto. Qed.

Lemma grows_release id keep v : grows v (Tasks.release pool_size id keep v).
Proof.
  unfold Tasks.release, release_connection. destruct (list_find _ _) as [[k c]|] eqn:Hf; [|apply grows_refl].
  apply list_find_Some in Hf as (Hk & _ & _). case_match.
  - apply grows_slots. intros x Hx. by eapply elem_of_sublist, sublist_delete.
  - apply grows_ids. by apply (ids_insert v k c).
Qed.

Lemma grows_attempt a v : grows v (Tasks.attempt_from a v).2.
Proof.
  split; [|intros id [?| ->]%Tasks.attempt_ids; auto].
  unfold Tasks.attempt_from, acquire_begin. repeat case_match; simplify_eq/=; lia.
Qed.

Lemma grows_resume id r v o v' : acquire_resume id r v = (o, v') → grows v v'.
Proof.
  unfold acquire_resume, mark_connected. destruct (list_find _ _) as [[k c]|] eqn:Hf.
  - apply list_find_Some in Hf as (Hk & _ & _). intros H.
    assert (v' = with_slots v (<[k := set_connected c]> (slots v))) as -> by (case_match; by simplify_eq).
    apply grows_ids. by apply (ids_insert v k c).
  - intros [= _ <-]. apply grows_refl.
Qed.

(** The task that an event is about, and the pool after it. *)
Lemma event_task te i s s' :
  Tasks.actor te = Some i → Tasks.exec_event pool_size te s = Some s' → Tasks.crashed s' = false →
  (∃ t t', Tasks.tasks s !! i = Some t ∧ Tasks.tasks s' = <[i := t']> (Tasks.tasks s)) ∧
  grows (Tasks.pool s) (Tasks.pool s').
Proof.
  intros Hi He Hc. unfold Tasks.exec_event in He.
  assert (Hup : ∀ t t' v, Tasks.tasks s !! i = Some t → s' = Tasks.update i (t', v) s → grows (Tasks.pool s) v →
    (∃ t t', Tasks.tasks s !! i = Some t ∧ Tasks.tasks s' = <[i := t']> (Tasks.tasks s)) ∧
    grows (Tasks.pool s) (Tasks.pool s')) by (intros ? ? ? ? -> ?; eauto).
  destruct (Tasks.crashed s); [done|].
  destruct te as [|k|k|k|k keep|k|k]; simplify_eq/=; destruct (Tasks.tasks s !! i) as [[]|] eqn:Ht; try done.
  - eapply (Hup _ _ _ eq_refl); [by rewrite <- surjective_pairing; injection He as <- | apply grows_attempt].
  - destruct (acquire_resume id r (Tasks.pool s)) as [o v] eqn:Ha.
    destruct o; injection He as <-; try done. eapply Hup; [done | done | by eapply grows_resume].
  - destruct fresh; [|injection He as <-; eapply Hup; [done | done | apply grows_refl]].
    destruct (slots (Tasks.pool s)) as [|c l] eqn:Hs; injection He as <-; [done|].
    eapply Hup; [done | done |]. apply grows_slots. rewrite Hs. intros x.
    rewrite (app_removelast_last (l := c :: l) c) at 2 by done. set_solver.
  - case_match; [|by injection He as <-]. case_match; [|done]. injection He as <-.
    eapply Hup; [done | done | apply grows_release].
  - case_match; injection He as <-; [eapply Hup; [done | done | apply grows_release]|].
    eapply (Hup _ _ _ eq_refl); [by rewrite <- surjective_pairing|].
    eapply grows_trans; [apply grows_release | apply grows_attempt].
  - injection He as <-. eapply Hup; [done | done | apply grows_release].
Qed.

(** A failed request leaves its connection to nobody. *)
Lemma failed_gone te i a id w s s' :
  te = Tasks.TransportError i ∨ te = Tasks.OtherError i → Tasks.tasks s !! i = Some (Tasks.Requesting a id w) →
  pool_inv pool_size (Tasks.pool s) → id ∈ ids (Tasks.pool s) →
  Tasks.exec_event pool_size te s = Some s' → id ∉ ids (Tasks.pool s').
Proof.
  intros Hte Ht Hi Hid He.
  assert (Hlt : id < next_id (Tasks.pool s)).
  { pose proof (pi_fresh _ _ Hi) as Hf. rewrite Forall_forall in Hf. by apply Hf. }
  assert (Hrel : (id ∉ ids (Tasks.release pool_size id false (Tasks.pool s))) ∧
                 next_id (Tasks.release pool_size id false (Tasks.pool s)) = next_id (Tasks.pool s)).
  { apply list_elem_of_fmap in Hid as (c & -> & Hc). pose proof (pi_nodup _ _ Hi) as Hnd.
    destruct (Tasks.find_slot _ _ Hnd Hc) as (k & Hf & Hk). unfold Tasks.release, release_connection.
    rewrite Hf. simpl. split; [|done]. intros (x & Hx & Hin)%list_elem_of_fmap.
    apply (Tasks.elem_of_delete_iff _ _ _ _ Hnd Hk) in Hin as [_ Hne]. congruence. }
  destruct Hrel as [Hno Hnx]. unfold Tasks.exec_event in He. destruct (Tasks.crashed s); [done|].
  destruct Hte as [-> | ->]; rewrite Ht in He.
  - case_match; injection He as <-; [done|]. simpl. intros [?|Heq]%Tasks.attempt_ids; [done|]. lia.
  - by injection He as <-.
Qed.

(** *** Undisturbed exchanges *)

(** No connection is added or removed while another task is inside
    [do_connect] (HttpTasks.v). *)
Definition quiet_step (s : state) (e : event) (s' : state) : Prop :=
  step s e s' ∧ ∀ te i, pool_event e = Some te → Tasks.actor te = Some i →
    Tasks.undisturbed (Tasks.pool (sys s)) (Tasks.pool (sys s')) (Tasks.tasks (sys s)) i.

(** A connection carries nothing, or the one request of the task that
    reads from it. *)
Record matched (s : state) : Prop := {
  ma_owns : Tasks.owns pool_size (sys s);
  ma_len : length (phases s) = length (Tasks.tasks (sys s));
  ma_task : ∀ i t id, Tasks.tasks (sys s) !! i = Some t → requesting t = Some id →
    (phases s !! i = Some Writing ∧ line id s = []) ∨ (phases s !! i = Some Reading ∧ line id s = [i]);
  ma_free : ∀ id, (∀ i t, Tasks.tasks (sys s) !! i = Some t → requesting t ≠ Some id) →
    id ∈ ids (Tasks.pool (sys s)) ∨ next_id (Tasks.pool (sys s)) ≤ id → line id s = [];
  ma_own : Forall (λ a, a.1 = a.2) (answers s)
}.

Lemma requesting_holds t id : requesting t = Some id → Tasks.holds t = Some id.
Proof. by destruct t. Qed.

Lemma requesting_in_pool s i t id :
  Tasks.owns pool_size s → Tasks.tasks s !! i = Some t → requesting t = Some id → id ∈ ids (Tasks.pool s).
Proof.
  intros Ho Ht Hr. destruct t as [| |a id' w|]; try done. injection Hr as ->.
  apply (Tasks.ow_task _ _ Ho) in Ht. apply list_elem_of_fmap. by exists (Slot id true true).
Qed.

Lemma requesting_alone s i j t u id :
  Tasks.owns pool_size s → Tasks.tasks s !! i = Some t → Tasks.tasks s !! j = Some u →
  requesting t = Some id → requesting u = Some id → i = j.
Proof. intros Ho Hi Hj ?%requesting_holds ?%requesting_holds. by eapply (Tasks.ow_excl _ _ Ho i j). Qed.

(** One task moves from [t] to [t'], and only the line of the connection
    it was using changes. *)
Lemma matched_update s s' i t t' ph :
  matched s → Tasks.tasks (sys s) !! i = Some t → Tasks.owns pool_size (sys s') →
  Tasks.tasks (sys s') = <[i := t']> (Tasks.tasks (sys s)) → phases s' = <[i := ph]> (phases s) →
  grows (Tasks.pool (sys s)) (Tasks.pool (sys s')) →
  (∀ id, requesting t ≠ Some id → line id s' = line id s) →
  (∀ id, requesting t' = Some id → (ph = Writing ∧ line id s' = []) ∨ (ph = Reading ∧ line id s' = [i])) →
  (∀ id, requesting t = Some id → requesting t' ≠ Some id → id ∈ ids (Tasks.pool (sys s')) → line id s' = []) →
  Forall (λ a, a.1 = a.2) (answers s') → matched s'.
Proof.
  intros Hm Ht Ho' Hts Hph [Hnx Hids] Hfr Hnew Hold Hans. pose proof (ma_owns _ Hm) as Ho.
  assert (Hi : i < length (Tasks.tasks (sys s))) by by eapply lookup_lt_Some.
  assert (Hi' : i < length (phases s)) by by rewrite (ma_len _ Hm).
  split; [done | by rewrite Hph, Hts, !length_insert, (ma_len _ Hm) | | | done].
  - intros j u id. rewrite Hts, Hph. intros [(<- & -> & _)|[Hne Hj]]%list_lookup_insert_Some Hu.
    + rewrite list_lookup_insert_eq by done. destruct (Hnew id Hu) as [[-> ?]|[-> ?]]; auto.
    + rewrite list_lookup_insert_ne, Hfr by (try done; intros Hr; by apply Hne, (requesting_alone (sys s) i j t u id)).
      by eapply (ma_task _ Hm).
  - intros id Hnone Hin.
    destruct (decide (requesting t = Some id)) as [Hr|Hr].
    + assert (Hr' : requesting t' ≠ Some id) by (apply (Hnone i); rewrite Hts; by apply list_lookup_insert_eq).
      apply Hold; [done | done |]. destruct Hin as [?|Hge]; [done|].
      pose proof (requesting_in_pool _ _ _ _ Ho Ht Hr) as Hp. pose proof (pi_fresh _ _ (Tasks.ow_inv _ _ Ho)) as Hf.
      rewrite Forall_forall in Hf. apply Hf in Hp. lia.
    + rewrite Hfr by done. apply (ma_free _ Hm).
      * intros j u Hj Hu. destruct (decide (j = i)) as [->|Hne]; [by simplify_eq|].
        apply (Hnone j u); [|done]. by rewrite Hts, list_lookup_insert_ne.
      * destruct Hin as [?%Hids|?]; [done | right; lia].
Qed.

(** An event of the pool that leaves the connection the task was using,
    if any, to nobody. *)
Lemma matched_pool s sa te i s1 :
  matched s → Tasks.actor te = Some i → Tasks.quiet_step pool_size (sys s) te s1 →
  phases sa = phases s → answers sa = answers s →
  (∀ t id, Tasks.tasks (sys s) !! i = Some t → requesting t ≠ Some id → line id sa = line id s) →
  (∀ t id, Tasks.tasks (sys s) !! i = Some t → requesting t = Some id → id ∉ ids (Tasks.pool s1)) →
  matched (with_sys i s1 sa).
Proof.
  intros Hm Ha Hq Hph Hans Hfr Hgone. pose proof (ma_owns _ Hm) as Ho.
  pose proof (Tasks.quiet_step_owns _ _ _ _ Ho Hq) as Ho1. destruct Hq as [He _].
  destruct (event_task te i _ _ Ha He (Tasks.ow_run _ _ Ho1)) as [(t & t' & Ht & Hts) Hgr].
  assert (Ht' : Tasks.tasks s1 !! i = Some t') by (rewrite Hts; apply list_lookup_insert_eq; by eapply lookup_lt_Some).
  eapply (matched_update s _ i t t'); [done | done | done | done | simpl; by rewrite Hph | done | | | |].
  - intros id Hr. by eapply Hfr.
  - intros id Hr. left. split; [rewrite Ht'; by destruct t'|].
    assert (Hp : id ∈ ids (Tasks.pool s1)) by by eapply (requesting_in_pool s1).
    assert (Hrt : requesting t ≠ Some id) by (intros Hr'; by eapply Hgone).
    change (line id sa = []). rewrite (Hfr t) by done. apply (ma_free _ Hm); [|by apply Hgr].
    intros j u Hj Hu. destruct (decide (j = i)) as [->|Hne]; [congruence|]. apply Hne.
    eapply (requesting_alone s1 j i u t' id); try done. by rewrite Hts, list_lookup_insert_ne.
  - intros id Hr _ Hin. exfalso. by eapply Hgone.
  - simpl. rewrite Hans. apply Hm.
Qed.

Lemma line_insert id id' l s : 
  default [] (<[id' := l]> (lines s) !! id) = if decide (id' = id) then l else line id s.
Proof. unfold line. case_decide; [subst; by rewrite lookup_insert_eq | by rewrite lookup_insert_ne]. Qed.

Lemma exists_slot_pool s i t id :
  Tasks.owns pool_size s → Tasks.tasks s !! i = Some t → requesting t = Some id →
  Tasks.exists_slot id (Tasks.pool s) = true.
Proof. intros. apply bool_decide_eq_true. by eapply requesting_in_pool. Qed.

Lemma matched_wrote s i s' : matched s → exec (Wrote i) s = Some s' → matched s'.
Proof.
  intros Hm. pose proof (ma_owns _ Hm) as Ho. unfold exec. rewrite (Tasks.ow_run _ _ Ho).
  destruct (Tasks.tasks (sys s) !! i) as [[| |a id w|]|] eqn:Ht; try done.
  destruct (phases s !! i) as [[]|] eqn:Hp; try done. rewrite (exists_slot_pool _ _ _ id Ho Ht eq_refl).
  intros [= <-]. destruct (ma_task _ Hm _ _ id Ht eq_refl) as [[_ Hl]|[? _]]; [|congruence].
  assert (Hline : ∀ id', line id' (arrive i id s) = if decide (id = id') then [i] else line id' s).
  { intros id'. unfold arrive. unfold line at 1. simpl. by rewrite line_insert, Hl. }
  eapply (matched_update s _ i (Tasks.Requesting a id w) (Tasks.Requesting a id w) Reading); try done.
  - simpl. by rewrite list_insert_id.
  - apply grows_refl.
  - intros id' Hne. change (line id' (arrive i id s) = line id' s). rewrite Hline, decide_False; [done | naive_solver].
  - intros id' [= <-]. right. change (Reading = Reading ∧ line id (arrive i id s) = [i]). by rewrite Hline, decide_True.
  - apply Hm.
Qed.

Lemma matched_answered s i keep s' :
  matched s → quiet_step s (Answered i keep) s' → matched s'.
Proof.
  intros Hm [Hst Hq]. pose proof (ma_owns _ Hm) as Ho. unfold step, exec in Hst.
  destruct (Tasks.tasks (sys s) !! i) as [[| |a id w|]|] eqn:Ht; try done.
  destruct (phases s !! i) as [[]|] eqn:Hp; try done.
  destruct (ma_task _ Hm _ _ id Ht eq_refl) as [[? _]|[_ Hl]]; [congruence|]. rewrite Hl in Hst.
  destruct (Tasks.exec_event _ _ _) as [s1|] eqn:He; [|done]. simpl in Hst.
  assert (Ho1 : Tasks.owns pool_size s1).
  { eapply Tasks.quiet_step_owns; [exact Ho|]. split; [exact He|]. intros k [= <-].
    specialize (Hq _ i eq_refl eq_refl). by destruct (Tasks.crashed s1); injection Hst as <-. }
  rewrite (Tasks.ow_run _ _ Ho1) in Hst. injection Hst as <-.
  destruct (event_task (Tasks.Response i keep) i _ _ eq_refl He (Tasks.ow_run _ _ Ho1)) as [(t & t' & Ht2 & Hts) Hgr].
  simplify_eq.
  assert (t' = Tasks.Finished true) as ->.
  { unfold Tasks.exec_event in He. rewrite (Tasks.ow_run _ _ Ho), Ht in He.
    rewrite (exists_slot_pool _ _ _ id Ho Ht eq_refl) in He. case_match; [|done]. injection He as <-. simpl in Hts.
    assert (Hlt : i < length (Tasks.tasks (sys s))) by by eapply lookup_lt_Some.
    apply (f_equal (lookup i)) in Hts. rewrite !list_lookup_insert_eq in Hts by done. by simplify_eq. }
  eapply (matched_update s _ i (Tasks.Requesting a id w) (Tasks.Finished true) Outside); try done; simpl.
  - intros id' Hne. unfold line at 1. simpl. rewrite line_insert, decide_False; [done | naive_solver].
  - intros id' [= <-] _ _. unfold line. simpl. by rewrite lookup_insert_eq.
  - rewrite Forall_app, Forall_singleton. split; [apply Hm | done].
Qed.

Lemma matched_failed s i tr re s' :
  matched s → quiet_step s (Failed i tr re) s' → matched s'.
Proof.
  intros Hm [Hst Hq]. pose proof (ma_owns _ Hm) as Ho. unfold step, exec in Hst.
  destruct (Tasks.tasks (sys s) !! i) as [[| |a id w|]|] eqn:Ht; try done.
  destruct (phases s !! i) as [ph|] eqn:Hp; try done.
  set (te := if tr then Tasks.TransportError i else Tasks.OtherError i) in *.
  assert (Hte : te = Tasks.TransportError i ∨ te = Tasks.OtherError i) by (destruct tr; auto).
  assert (Hact : Tasks.actor te = Some i ∧ pool_event (Failed i tr re) = Some te) by by destruct tr.
  destruct (Tasks.exec_event pool_size te (sys s)) as [s1|] eqn:He; [|done]. injection Hst as <-.
  eapply (matched_pool s _ te i); [done | apply Hact | | | | |].
  - split; [exact He|]. intros k Hk. apply (Hq te k); [apply Hact | done].
  - by destruct (re && _).
  - by destruct (re && _).
  - intros t id' Ht' Hne. simplify_eq. destruct (re && _); [|done]. unfold arrive. unfold line at 1. simpl.
    rewrite line_insert, decide_False; [done | simpl in Hne; congruence].
  - intros t id' Ht' Hr. simplify_eq. injection Hr as <-.
    eapply failed_gone; [exact Hte | exact Ht | apply Ho | by eapply requesting_in_pool | exact He].
Qed.

Lemma quiet_step_matched s e s' : matched s → quiet_step s e s' → matched s'.
Proof.
  intros Hm Hq. destruct e as [te|i|i keep|i tr re].
  2: by eapply matched_wrote; [|apply Hq].
  2: by eapply matched_answered.
  2: by eapply matched_failed.
  destruct Hq as [Hst Hq]. unfold step, exec in Hst. pose proof (ma_owns _ Hm) as Ho.
  assert (Hact : ∀ i s1, Tasks.actor te = Some i → Tasks.exec_event pool_size te (sys s) = Some s1 →
    s' = with_sys i s1 s → (∀ t, Tasks.tasks (sys s) !! i = Some t → requesting t = None) → matched s').
  { intros i s1 Ha He -> Hn. eapply (matched_pool s s te i); try done.
    - split; [exact He|]. intros k Hk. by apply (Hq te k).
    - intros t id Ht Hr. by rewrite (Hn t Ht) in Hr. }
  destruct te as [|i|i|i| | |]; try done;
    (destruct (Tasks.exec_event _ _ (sys s)) as [s1|] eqn:He; [|done]; injection Hst as <-).
  2-4: eapply (Hact i s1); [done | done | done |]; intros t Ht; unfold Tasks.exec_event in He;
    rewrite (Tasks.ow_run _ _ Ho), Ht in He; by destruct t.
  assert (Ho1 : Tasks.owns pool_size s1).
  { eapply Tasks.quiet_step_owns; [exact Ho|]. split; [exact He|]. intros k Hk. by apply (Hq Tasks.Spawn k). }
  unfold Tasks.exec_event in He. rewrite (Tasks.ow_run _ _ Ho) in He. injection He as <-.
  split; simpl; [done | by rewrite !length_app, (ma_len _ Hm) | | | apply Hm].
  - intros i t id [Hi|[_ Hi]]%lookup_app_Some Hr.
    + rewrite lookup_app_l by (rewrite (ma_len _ Hm); by eapply lookup_lt_Some). by eapply (ma_task _ Hm).
    + apply list_lookup_singleton_Some in Hi as [_ <-]. done.
  - intros id Hnone Hin. apply (ma_free _ Hm); [|done]. intros i t Hi. apply (Hnone i). by apply lookup_app_l_Some.
Qed.

Lemma matched_init : matched init.
Proof.
  split; [|done|done| |constructor].
  - constructor; simpl; [apply empty_inv | done | done | done | set_solver].
  - intros id _ _. unfold line. simpl. by rewrite lookup_empty.
Qed.

Lemma quiet_matched es s : run quiet_step init es s → matched s.
Proof.
  revert es s. apply (run_invariant quiet_step (λ _ s, matched s)); [apply matched_init|].
  intros tr s e s' _ Hm Hst. by eapply quiet_step_matched.
Qed.

(** *** How often, in every interleaving *)

Definition sends (i : nat) (s : state) : nat := length (filter (λ j, j = i) (wire s)).
Definition got (i : nat) (s : state) : nat := length (filter (λ a, a.1 = i) (answers s)).

(** The attempts a task has behind it, at most. *)
Definition attempts (t : Tasks.task) : nat :=
  match t with
  | Tasks.Starting => 0
  | Tasks.Connecting a _ _ _ | Tasks.Requesting a _ _ => a
  | Tasks.Finished _ => Exec.max_attempts
  end.

Definition live (t : Tasks.task) : bool := match t with Tasks.Finished _ => false | _ => true end.

Definition succeeded (t : Tasks.task) : nat := match t with Tasks.Finished true => 1 | _ => 0 end.

Definition spent (t : Tasks.task) (ph : phase) : nat := if decide (ph = Reading) then S (attempts t) else attempts t.

Record counted (s : state) : Prop := {
  co_len : length (phases s) = length (Tasks.tasks (sys s));
  co_new : ∀ i, length (Tasks.tasks (sys s)) ≤ i → sends i s = 0 ∧ got i s = 0;
  co_task : ∀ i t ph, Tasks.tasks (sys s) !! i = Some t → phases s !! i = Some ph →
    (live t = true → attempts t < Exec.max_attempts) ∧ (requesting t = None → ph = Outside) ∧
    sends i s ≤ spent t ph ∧ got i s = succeeded t
}.

Lemma attempt_from_attempts a v : attempts (Tasks.attempt_from a v).1 = a ∧ live (Tasks.attempt_from a v).1 = true.
Proof. unfold Tasks.attempt_from. by destruct (acquire_begin v) as [[] ?]. Qed.

Definition fails (te : Tasks.event) : bool :=
  match te with Tasks.TransportError _ | Tasks.OtherError _ => true | _ => false end.

(** A task's attempts through one event. *)
Lemma event_attempts te i s s' t :
  Tasks.actor te = Some i → Tasks.exec_event pool_size te s = Some s' → Tasks.tasks s !! i = Some t →
  (live t = true → attempts t < Exec.max_attempts) →
  ∃ t', Tasks.tasks s' = <[i := t']> (Tasks.tasks s) ∧ live t = true ∧
    (live t' = true → attempts t' < Exec.max_attempts) ∧
    attempts t + (if fails te then 1 else 0) ≤ attempts t' ∧
    (t' = Tasks.Finished true → ∃ keep, te = Tasks.Response i keep ∧ Tasks.crashed s' = false) ∧
    (∀ keep, te = Tasks.Response i keep → Tasks.crashed s' = false → t' = Tasks.Finished true).
Proof.
  intros Ha He Ht Hl. unfold Tasks.exec_event in He. destruct (Tasks.crashed s) eqn:Hcr; [done|].
  assert (Hid : Tasks.tasks s = <[i := t]> (Tasks.tasks s)) by by rewrite list_insert_id.
  assert (Hmax : Exec.max_attempts = 2) by done.
  destruct te as [|k|k|k|k keep|k|k]; simplify_eq/=; rewrite Ht in He; destruct t as [|a id r fr|a id w|ok]; try done;
    specialize (Hl eq_refl); simpl in Hl.
  - injection He as <-. eexists. split; [done|]. destruct (attempt_from_attempts 0 (Tasks.pool s)) as [-> Hlv].
    split_and!; try done. intros Hf. by rewrite Hf in Hlv.
  - destruct (acquire_resume id r (Tasks.pool s)) as [[got'|e|f] v]; injection He as <-;
      [eexists; split; [reflexivity|] | eexists; split; [exact Hid|]..]; split_and!; try done; simpl; lia.
  - destruct fr; [destruct (slots (Tasks.pool s))|]; injection He as <-;
      [eexists; split; [exact Hid|] | eexists; split; [reflexivity|]..]; split_and!; try done; simpl; lia.
  - destruct (Tasks.exists_slot id (Tasks.pool s)); [destruct (is_connected id (Tasks.pool s)); [|done]|]; injection He as <-;
      [eexists; split; [reflexivity|] | eexists; split; [exact Hid|]]; split_and!; try done; simpl; try lia.
    by exists keep.
  - destruct (negb w || (a =? 1)) eqn:Hw; injection He as <-; eexists; (split; [reflexivity|]).
    + split_and!; try done; simpl; lia.
    + destruct (attempt_from_attempts (S a) (Tasks.release pool_size id false (Tasks.pool s))) as [-> Hlv].
      apply orb_false_iff in Hw as [_ Hw]. apply Nat.eqb_neq in Hw.
      split_and!; try done; [lia | simpl; lia |]. intros Hf. by rewrite Hf in Hlv.
  - injection He as <-. eexists. split; [reflexivity|]. split_and!; try done; simpl; lia.
Qed.

Lemma count_snoc {A} (P : A → Prop) `{!∀ x, Decision (P x)} l x :
  length (filter P (l ++ [x])) = length (filter P l) + if decide (P x) then 1 else 0.
Proof. rewrite filter_app, length_app, filter_cons, filter_nil. by case_decide. Qed.

(** Task [i] moves; only its own counts change. *)
Lemma counted_update s s' i t t' ph :
  counted s → Tasks.tasks (sys s) !! i = Some t →
  Tasks.tasks (sys s') = <[i := t']> (Tasks.tasks (sys s)) → phases s' = <[i := ph]> (phases s) →
  (∀ j, j ≠ i → sends j s' = sends j s ∧ got j s' = got j s) →
  (live t' = true → attempts t' < Exec.max_attempts) → (requesting t' = None → ph = Outside) →
  sends i s' ≤ spent t' ph → got i s' = succeeded t' → counted s'.
Proof.
  intros Hc Ht Hts Hph Hfr Hl Hr Hs Hg. pose proof (lookup_lt_Some _ _ _ Ht) as Hlt.
  split; [by rewrite Hts, Hph, !length_insert, (co_len _ Hc)|..].
  - intros j. rewrite Hts, length_insert. intros Hj. destruct (Hfr j) as [-> ->]; [lia|]. by apply (co_new _ Hc).
  - intros j u ph'. rewrite Hts, Hph. intros [(<- & -> & _)|[Hne Hj]]%list_lookup_insert_Some.
    + rewrite list_lookup_insert_eq by by rewrite (co_len _ Hc). intros [= <-]. by split_and!.
    + rewrite list_lookup_insert_ne by done. intros Hp. destruct (Hfr j) as [-> ->]; [done|]. by apply (co_task _ Hc).
Qed.

Lemma counted_phase s i t : counted s → Tasks.tasks (sys s) !! i = Some t → ∃ ph, phases s !! i = Some ph.
Proof.
  intros Hc Ht. apply lookup_lt_is_Some. rewrite (co_len _ Hc). by eapply lookup_lt_Some.
Qed.

(** An event of the pool other than a response, of a task that may have
    sent once more meanwhile. *)
Lemma counted_pool s sa te i s1 extra :
  counted s → Tasks.actor te = Some i → Tasks.exec_event pool_size te (sys s) = Some s1 →
  (∀ keep, te ≠ Tasks.Response i keep) → phases sa = phases s → answers sa = answers s →
  (∀ j, sends j sa = sends j s + if decide (j = i) then extra else 0) →
  (∀ t ph, Tasks.tasks (sys s) !! i = Some t → phases s !! i = Some ph →
     spent t ph + extra ≤ attempts t + if fails te then 1 else 0) →
  counted (with_sys i s1 sa).
Proof.
  intros Hc Ha He Hne Hph Hans Hsend Hle.
  destruct (Tasks.tasks (sys s) !! i) as [t|] eqn:Ht.
  2:{ unfold Tasks.exec_event in He. destruct (Tasks.crashed (sys s)); [done|].
      destruct te; simplify_eq/=; by rewrite Ht in He. }
  destruct (counted_phase _ _ _ Hc Ht) as [ph Hp]. destruct (co_task _ Hc _ _ _ Ht Hp) as (Hl & Hr & Hs & Hg).
  destruct (event_attempts te i _ _ t Ha He Ht Hl) as (t' & Hts & Hlive & Hl' & Hatt & Hfin & _).
  assert (Hlook : Tasks.tasks s1 !! i = Some t') by (rewrite Hts; apply list_lookup_insert_eq; by eapply lookup_lt_Some).
  eapply (counted_update s _ i t t' (enter (Tasks.tasks s1 !! i))); try done; simpl.
  - by rewrite Hph.
  - intros j Hj. split; [|unfold got; simpl; by rewrite Hans].
    change (sends j sa = sends j s). by rewrite Hsend, decide_False, Nat.add_0_r.
  - intros Hq. rewrite Hlook. by destruct t'.
  - change (sends i sa ≤ spent t' (enter (Tasks.tasks s1 !! i))). rewrite Hsend, decide_True by done.
    specialize (Hle t ph eq_refl Hp). unfold spent at 1. rewrite decide_False; [lia|].
    rewrite Hlook. by destruct t'.
  - unfold got. simpl. rewrite Hans. fold (got i s). rewrite Hg. destruct t as [| | |[]]; try done;
      (destruct t' as [| | |[]]; try done; by destruct Hfin as (keep & ? & _); [|destruct (Hne keep)]).
Qed.

Lemma arrive_sends i id s j : sends j (arrive i id s) = sends j s + if decide (j = i) then 1 else 0.
Proof. unfold sends, arrive. simpl. rewrite count_snoc. repeat case_decide; congruence || done. Qed.

Lemma counted_wrote s i s' : counted s → exec (Wrote i) s = Some s' → counted s'.
Proof.
  intros Hc. unfold exec. destruct (Tasks.crashed (sys s)); [done|].
  destruct (Tasks.tasks (sys s) !! i) as [[| |a id w|]|] eqn:Ht; try done.
  destruct (phases s !! i) as [[]|] eqn:Hp; try done. case_match; intros [= <-].
  2:{ destruct Hc as [H1 H2 H3]. by split. }
  destruct (co_task _ Hc _ _ _ Ht Hp) as (Hl & _ & Hs & Hg). unfold spent in Hs. rewrite decide_False in Hs by done.
  eapply (counted_update s _ i _ (Tasks.Requesting a id w) Reading); try done; simpl.
  - by rewrite list_insert_id.
  - intros j Hj. split; [|done]. change (sends j (arrive i id s) = sends j s).
    by rewrite arrive_sends, decide_False, Nat.add_0_r.
  - change (sends i (arrive i id s) ≤ spent (Tasks.Requesting a id w) Reading).
    rewrite arrive_sends, decide_True by done. unfold spent. rewrite decide_True by done. simpl in *. lia.
Qed.

Lemma counted_answered s i keep s' : counted s → exec (Answered i keep) s = Some s' → counted s'.
Proof.
  intros Hc. unfold exec. destruct (Tasks.tasks (sys s) !! i) as [[| |a id w|]|] eqn:Ht; try done.
  destruct (phases s !! i) as [[]|] eqn:Hp; try done. destruct (line id s) as [|j rest]; [done|].
  destruct (Tasks.exec_event _ _ _) as [s1|] eqn:He; [|done]. simpl.
  destruct (co_task _ Hc _ _ _ Ht Hp) as (Hl & _ & Hs & Hg).
  destruct (event_attempts (Tasks.Response i keep) i _ _ _ eq_refl He Ht Hl) as (t' & Hts & _ & Hl' & Hatt & _ & Hfin).
  destruct (Tasks.crashed s1) eqn:Hcr; intros [= <-].
  - assert (Hsame : Tasks.tasks s1 = Tasks.tasks (sys s)).
    { unfold Tasks.exec_event in He. rewrite Ht in He. destruct (Tasks.crashed (sys s)) eqn:Hcs; [done|].
      destruct (Tasks.exists_slot _ _); [|by injection He as <-].
      destruct (is_connected _ _); [|done]. injection He as <-. simpl in Hcr. congruence. }
    destruct Hc as [H1 H2 H3]. split; simpl; rewrite ?Hsame; done.
  - rewrite (Hfin keep eq_refl eq_refl) in *.
    eapply (counted_update s _ i _ (Tasks.Finished true) Outside); try done; simpl.
    + intros k Hk. split; [done|]. unfold got. simpl. rewrite count_snoc, decide_False, Nat.add_0_r; [done|]. simpl. congruence.
    + etransitivity; [exact Hs|]. unfold spent. rewrite decide_True, decide_False by done. specialize (Hl eq_refl). simpl in *. lia.
    + unfold got. simpl. rewrite count_snoc, decide_True by done. fold (got i s). by rewrite Hg.
Qed.

Lemma counted_failed s i tr re s' : counted s → exec (Failed i tr re) s = Some s' → counted s'.
Proof.
  intros Hc. unfold exec. destruct (Tasks.tasks (sys s) !! i) as [[| |a id w|]|] eqn:Ht; try done.
  destruct (phases s !! i) as [ph|] eqn:Hp; try done.
  set (te := if tr then Tasks.TransportError i else Tasks.OtherError i).
  destruct (Tasks.exec_event _ te _) as [s1|] eqn:He; [|done]. intros [= <-].
  assert (Hf : fails te = true ∧ Tasks.actor te = Some i) by by destruct tr.
  eapply (counted_pool s _ te i s1 (if re && bool_decide (ph = Writing) then 1 else 0)); try done.
  - apply Hf.
  - intros keep. by destruct tr.
  - by destruct (re && _).
  - by destruct (re && _).
  - intros j. destruct (re && _); [apply arrive_sends|]. case_decide; lia.
  - intros t ph' [= <-]%(eq_trans (eq_sym Ht)) [= <-]%(eq_trans (eq_sym Hp)). destruct Hf as [-> _].
    unfold spent. destruct re, ph; simpl; lia.
Qed.

Lemma step_counted s e s' : counted s → step s e s' → counted s'.
Proof.
  intros Hc Hst. destruct e as [te|i|i keep|i tr re].
  2: by eapply counted_wrote. 2: by eapply counted_answered. 2: by eapply counted_failed.
  unfold step, exec in Hst. destruct te as [|i|i|i| | |]; try done;
    destruct (Tasks.exec_event _ _ (sys s)) as [s1|] eqn:He; try done; injection Hst as <-.
  2-4: eapply (counted_pool s s _ i s1 0); [exact Hc | | exact He | done | done | done | intros j; case_decide; lia |]; [done|];
    intros t ph Ht Hp; unfold Tasks.exec_event in He; rewrite Ht in He; destruct (Tasks.crashed (sys s)); [done|];
    destruct (co_task _ Hc _ _ _ Ht Hp) as (_ & Hr & _); destruct t; try done; rewrite Hr by done; simpl; unfold spent; simpl; lia.
  unfold Tasks.exec_event in He. destruct (Tasks.crashed (sys s)); [done|]. injection He as <-.
  split; simpl.
  - by rewrite !length_app, (co_len _ Hc).
  - intros i. rewrite length_app. intros Hi. apply (co_new _ Hc i). simpl in Hi. lia.
  - intros i t ph [Hi|[Hge Hi]]%lookup_app_Some Hp.
    + rewrite lookup_app_l in Hp by (rewrite (co_len _ Hc); by eapply lookup_lt_Some). by apply (co_task _ Hc).
    + apply list_lookup_singleton_Some in Hi as [Hi <-]. destruct (co_new _ Hc i Hge) as [Hs Hg].
      rewrite lookup_app_r in Hp by by rewrite (co_len _ Hc).
      apply list_lookup_singleton_Some in Hp as [_ <-].
      unfold sends, got in *. simpl. rewrite Hs, Hg. split_and!; try done. intros _. unfold Exec.max_attempts. simpl. lia.
Qed.

Lemma run_counted es s : run step init es s → counted s.
Proof.
  revert es s. apply (run_invariant step (λ _ s, counted s)).
  - by split.
  - intros tr s e s' _ Hc Hst. by eapply step_counted.
Qed.

(** In every interleaving the request of a task reaches the server at most twice, and a
    task has been given an answer, exactly one, if and only if it succeeded. *)
Theorem requests_answered_once es s i :
  run step init es s →
  sends i s ≤ 2 ∧ got i s = default 0 (succeeded <$> Tasks.tasks (sys s) !! i).
Proof.
  intros Hc%run_counted. destruct (Tasks.tasks (sys s) !! i) as [t|] eqn:Ht; simpl.
  - destruct (counted_phase _ _ _ Hc Ht) as [ph Hp]. destruct (co_task _ Hc _ _ _ Ht Hp) as (Hl & Hr & Hs & Hg).
    split; [|done]. etransitivity; [exact Hs|]. unfold spent.
    destruct t as [| | |ok]; simpl in *; unfold Exec.max_attempts in *; case_decide; try (specialize (Hl eq_refl); lia); try lia.
    rewrite Hr in *; done.
  - apply lookup_ge_None in Ht. destruct (co_new _ Hc i Ht) as [-> ->]. split; [lia | done].
Qed.

(** C7: Interleaved requests get their own answers: as long as no connection is added or
    removed while another task is inside do_connect, a connection carries at most the
    one request of the task that reads from it, an idle one carries none, and every
    answer given to a task is the answer to its own request, retries and failures
    included. *)
Theorem responses_matched es s :
  run quiet_step init es s →
  (∀ i j, (i, j) ∈ answers s → i = j) ∧
  (∀ i j a a' id w w', Tasks.tasks (sys s) !! i = Some (Tasks.Requesting a id w) →
     Tasks.tasks (sys s) !! j = Some (Tasks.Requesting a' id w') → i = j) ∧
  (∀ c, c ∈ slots (Tasks.pool (sys s)) → in_use c = false → line (sid c) s = []) ∧
  (∀ i a id w, Tasks.tasks (sys s) !! i = Some (Tasks.Requesting a id w) → line id s = [] ∨ line id s = [i]).
Proof.
  intros Hm%quiet_matched. pose proof (ma_owns _ Hm) as Ho. split_and!.
  - intros i j Hin. pose proof (ma_own _ Hm) as Hown. rewrite Forall_forall in Hown. by apply (Hown (i, j)).
  - intros i j a a' id w w' Hi Hj. by eapply (requesting_alone (sys s) i j).
  - intros c Hc Hu. apply (ma_free _ Hm); [|left; by apply list_elem_of_fmap_2].
    intros i t Ht Hr. destruct t as [| |a id w|]; try done. injection Hr as ->.
    apply (Tasks.ow_task _ _ Ho) in Ht. simpl in Ht.
    pose proof (Tasks.slot_unique _ _ _ (pi_nodup _ _ (Tasks.ow_inv _ _ Ho)) Hc Ht eq_refl) as Heq. by rewrite Heq in Hu.
  - intros i a id w Ht. destruct (ma_task _ Hm _ _ id Ht eq_refl) as [[_ ?]|[_ ?]]; auto.
Qed.
(** *** Every request comes to an end *)

(** The events a task can still take: a connect, a write and a read for
    each attempt it has left. *)
Definition weight (t : Tasks.task) (ph : phase) : nat :=
  match t with
  | Tasks.Starting => 7
  | Tasks.Connecting a _ _ _ => 3 + 3 * (1 - a)
  | Tasks.Requesting a _ _ => (if decide (ph = Reading) then 1 else 2) + 3 * (1 - a)
  | Tasks.Finished _ => 0
  end.

Definition total (s : state) : nat :=
  sum_list_with (λ tp, weight tp.1 tp.2) (zip (Tasks.tasks (sys s)) (phases s)).

Lemma sum_insert {A} (f : A → nat) l i x y :
  l !! i = Some x → sum_list_with f (<[i := y]> l) + f x = sum_list_with f l + f y.
Proof.
  intros Hi. rewrite <- (take_drop_middle l i x Hi) at 2. rewrite insert_take_drop by by eapply lookup_lt_Some.
  rewrite !sum_list_with_app. simpl. lia.
Qed.

Lemma total_update s s' i t t' ph ph' :
  Tasks.tasks (sys s) !! i = Some t → phases s !! i = Some ph →
  Tasks.tasks (sys s') = <[i := t']> (Tasks.tasks (sys s)) → phases s' = <[i := ph']> (phases s) →
  total s' + weight t ph = total s + weight t' ph'.
Proof.
  intros Ht Hp Hts Hph. unfold total. rewrite Hts, Hph, <- insert_zip_with.
  apply (sum_insert (λ tp, weight tp.1 tp.2) _ i (t, ph) (t', ph')). apply lookup_zip_with_Some. by exists t, ph.
Qed.

Lemma attempt_from_weight a v : weight (Tasks.attempt_from a v).1 Writing ≤ 3 + 3 * (1 - a).
Proof. unfold Tasks.attempt_from. destruct (acquire_begin v) as [[] ?]; simpl; lia. Qed.

Lemma weight_enter t : weight t (enter (Some t)) = weight t Writing.
Proof. by destruct t. Qed.

(** The task of an event has less to do after it. *)
Lemma event_weight te i s s' t ph :
  Tasks.actor te = Some i → Tasks.exec_event pool_size te s = Some s' → Tasks.crashed s' = false →
  Tasks.tasks s !! i = Some t → (live t = true → attempts t < Exec.max_attempts) →
  ∃ t', Tasks.tasks s' = <[i := t']> (Tasks.tasks s) ∧ weight t' Writing < weight t ph.
Proof.
  intros Ha He Hc Ht Hl. assert (Exec.max_attempts = 2) by done. unfold Tasks.exec_event in He. destruct (Tasks.crashed s) eqn:Hcr; [done|].
  destruct te as [|k|k|k|k keep|k|k]; simplify_eq/=; rewrite Ht in He; destruct t as [|a id r fr|a id w|ok]; try done.
  - injection He as <-. eexists. split; [reflexivity|]. pose proof (attempt_from_weight 0 (Tasks.pool s)). simpl. lia.
  - destruct (acquire_resume id r (Tasks.pool s)) as [[]]; injection He as <-; try done.
    eexists. split; [reflexivity|]. simpl. lia.
  - destruct fr; [destruct (slots (Tasks.pool s))|]; injection He as <-; try done; eexists; (split; [reflexivity|]); simpl; lia.
  - destruct (Tasks.exists_slot id (Tasks.pool s)); [destruct (is_connected id (Tasks.pool s)); [|done]|];
      injection He as <-; [|done]. eexists. split; [reflexivity|]. simpl. case_decide; lia.
  - destruct (negb w || (a =? 1)) eqn:Hw; injection He as <-; eexists; (split; [reflexivity|]).
    + simpl. case_decide; lia.
    + apply orb_false_iff in Hw as [_ Hw%Nat.eqb_neq]. specialize (Hl eq_refl).
      pose proof (attempt_from_weight (S a) (Tasks.release pool_size id false (Tasks.pool s))). simpl in *. case_decide; lia.
  - injection He as <-. eexists. split; [reflexivity|]. simpl. case_decide; lia.
Qed.

Definition spawns (e : event) : bool := match e with Pooled Tasks.Spawn => true | _ => false end.

Lemma step_total s e s' :
  counted s → step s e s' → Tasks.crashed (sys s') = false →
  if spawns e then total s' = total s + 7 else total s' < total s.
Proof.
  intros Hc Hst Hcr. unfold step, exec in Hst.
  assert (Hev : ∀ te i s1 sa, Tasks.actor te = Some i → Tasks.exec_event pool_size te (sys s) = Some s1 →
    Tasks.crashed s1 = false → sys sa = sys s → phases sa = phases s → total (with_sys i s1 sa) < total s).
  { intros te i s1 sa Ha He Hc1 Hsys Hph.
    destruct (event_task te i _ _ Ha He Hc1) as [(t & _ & Ht & _) _]. destruct (counted_phase _ _ _ Hc Ht) as [ph Hp].
    destruct (event_weight te i _ _ t ph Ha He Hc1 Ht) as (t' & Hts & Hlt); [by apply (co_task _ Hc _ _ _ Ht Hp)|].
    assert (Hl : Tasks.tasks s1 !! i = Some t') by (rewrite Hts; apply list_lookup_insert_eq; by eapply lookup_lt_Some).
    pose proof (total_update s (with_sys i s1 sa) i t t' ph (enter (Some t')) Ht Hp Hts) as Htot.
    rewrite weight_enter in Htot. simpl in Htot. rewrite Hl, Hph in Htot. specialize (Htot eq_refl). lia. }
  destruct e as [te|i|i keep|i tr re]; simpl.
  - destruct te as [|i|i|i| | |]; try done; destruct (Tasks.exec_event _ _ (sys s)) as [s1|] eqn:He; try done;
      injection Hst as <-.
    2-4: eapply (Hev _ i s1 s); [|exact He | exact Hcr | done | done]; done.
    unfold Tasks.exec_event in He. destruct (Tasks.crashed (sys s)); [done|]. injection He as <-. unfold total. simpl.
    rewrite zip_with_app by (symmetry; apply (co_len _ Hc)). rewrite sum_list_with_app. simpl. lia.
  - destruct (Tasks.crashed (sys s)); [done|]. destruct (Tasks.tasks (sys s) !! i) as [[| |a id w|]|] eqn:Ht; try done.
    destruct (phases s !! i) as [[]|] eqn:Hp; try done. case_match; injection Hst as <-; [|done].
    match goal with |- total ?x < _ => pose proof (total_update s x i _ (Tasks.Requesting a id w) _ Reading Ht Hp) as Htot end.
    simpl in Htot. rewrite list_insert_id in Htot by done. specialize (Htot eq_refl eq_refl). lia.
  - destruct (Tasks.tasks (sys s) !! i) as [[| |a id w|]|] eqn:Ht; try done.
    destruct (phases s !! i) as [[]|] eqn:Hp; try done. destruct (line id s) as [|j rest]; [done|].
    destruct (Tasks.exec_event _ _ _) as [s1|] eqn:He; [|done]. simpl in Hst.
    destruct (Tasks.crashed s1) eqn:Hc1; injection Hst as <-; [simpl in Hcr; congruence|].
    destruct (event_weight (Tasks.Response i keep) i _ _ _ Reading eq_refl He Hc1 Ht) as (t' & Hts & Hlt); [by apply (co_task _ Hc _ _ _ Ht Hp)|].
    match goal with |- total ?x < _ => pose proof (total_update s x i _ t' _ Outside Ht Hp Hts eq_refl) as Htot end.
    assert (weight t' Outside = weight t' Writing) by by destruct t'. lia.
  - destruct (Tasks.tasks (sys s) !! i) as [[| |a id w|]|] eqn:Ht; try done.
    destruct (phases s !! i) as [ph|] eqn:Hp; try done. destruct (Tasks.exec_event _ _ _) as [s1|] eqn:He; [|done].
    injection Hst as <-. eapply (Hev _ i s1); [|exact He | exact Hcr | |]; [by destruct tr | by destruct (re && _)..].
Qed.

(** What can always happen to a task that is not done. *)
Definition next_event (i : nat) (t : Tasks.task) : event :=
  match t with
  | Tasks.Starting => Pooled (Tasks.Run i)
  | Tasks.Connecting _ _ _ _ => Pooled (Tasks.ConnectError i)
  | _ => Failed i true false
  end.

Lemma live_steps s i t :
  counted s → Tasks.crashed (sys s) = false → Tasks.tasks (sys s) !! i = Some t → live t = true →
  ∃ s', step s (next_event i t) s'.
Proof.
  intros Hc Hcr Ht Hl. destruct (counted_phase _ _ _ Hc Ht) as [ph Hp]. unfold step.
  destruct t as [|a id r fr|a id w|]; try done; simpl; unfold Tasks.exec_event; rewrite Hcr, Ht.
  - by eexists.
  - destruct fr; [destruct (slots _)|]; by eexists.
  - rewrite Hp. simpl. destruct (negb w || (a =? 1)); by eexists.
Qed.

End exchange.

(** Four requests on a fresh client, one of whose connections the server closes while
    another is being opened: erasing it shifts the vector under the reference that
    acquire_connection holds, the request sends over a connection that is in use, and
    the two requests on it get each other's answers. *)
Theorem responses_crossed :
  ∃ s, run (step 4) init
    ([Pooled Tasks.Spawn; Pooled Tasks.Spawn; Pooled Tasks.Spawn; Pooled Tasks.Spawn;
      Pooled (Tasks.Run 0); Pooled (Tasks.ConnectDone 0); Wrote 0;
      Pooled (Tasks.Run 1); Pooled (Tasks.ConnectDone 1); Wrote 1;
      Pooled (Tasks.Run 2); Pooled (Tasks.Run 3); Pooled (Tasks.ConnectDone 3); Wrote 3;
      Answered 0 false; Pooled (Tasks.ConnectDone 2); Wrote 2;
      Answered 2 true; Answered 3 true; Answered 1 true]) s ∧
    answers s = [(0, 0); (2, 3); (3, 2); (1, 1)] ∧ Tasks.crashed (sys s) = false ∧
    Tasks.tasks (sys s) = replicate 4 (Tasks.Finished true).
Proof. eexists. split; [apply exchange_all_run; vm_compute; reflexivity | by vm_compute]. Qed.
End Exchange.

(** ** Example: overlapping requests *)
Module ExchangeWitness.
Import Exchange TasksWitness.

Fixpoint exec_quiet (n : nat) (es : list event) (s : state) : option state :=
  match es with
  | [] => Some s
  | e :: es =>
      match exec n e s with
      | Some s' =>
          if match te ← pool_event e; Tasks.actor te with
             | Some i => undisturbedb (Tasks.pool (sys s)) (Tasks.pool (sys s')) (Tasks.tasks (sys s)) i
             | None => true
             end
          then exec_quiet n es s' else None
      | None => None
      end
  end.

Lemma exchange_quiet_run n es s s' : exec_quiet n es s = Some s' → run (quiet_step n) s es s'.
Proof.
  revert s. induction es as [|e es IH]; intros s; simpl; [intros [= ->]; constructor|].
  destruct (exec n e s) as [s1|] eqn:He; [|done].
  destruct (match te ← pool_event e; Tasks.actor te with Some i => _ | None => true end) eqn:Hq; [|done]. intros H.
  eapply run_cons; [|by apply IH]. split; [exact He|].
  intros te i Hte Hi. rewrite Hte in Hq. simpl in Hq. rewrite Hi in Hq. by apply undisturbedb_spec.
Qed.

(** Two requests on connections of their own; the second connection is
    then reset under a third request, which is retried on the first. *)
Definition overlapping : list event :=
  [Pooled Tasks.Spawn; Pooled Tasks.Spawn; Pooled Tasks.Spawn;
   Pooled (Tasks.Run 0); Pooled (Tasks.ConnectDone 0); Wrote 0;
   Pooled (Tasks.Run 1); Pooled (Tasks.ConnectDone 1); Wrote 1;
   Answered 1 true; Answered 0 true; Pooled (Tasks.Run 2); Wrote 2; Failed 2 true false; Wrote 2; Answered 2 true].

Lemma responses_matched_witness :
  ∃ s, run (quiet_step 4) init overlapping s ∧ length (answers s) = 3 ∧ ∀ i j, (i, j) ∈ answers s → i = j.
Proof.
  destruct (exec_quiet 4 overlapping init) as [s|] eqn:Hs; [|vm_compute in Hs; discriminate].
  apply exchange_quiet_run in Hs as Hr. exists s. split; [done|]. split.
  - vm_compute in Hs. by injection Hs as <-.
  - exact (proj1 (responses_matched 4 overlapping s Hr)).
Defined.

(** The request sent twice is counted twice and answered once. *)
Lemma requests_answered_once_witness :
  ∃ s, run (step 4) init overlapping s ∧ wire s = [0; 1; 2; 2] ∧ got 2 s = 1.
Proof.
  destruct (exec_all 4 overlapping init) as [s|] eqn:Hs; [|vm_compute in Hs; discriminate].
  apply exchange_all_run in Hs as Hr. exists s. split; [done|].
  destruct (requests_answered_once 4 overlapping s 2 Hr) as [_ ->].
  vm_compute in Hs. by injection Hs as <-.
Defined.

End ExchangeWitness.
