(* ===== verification/Executors.v ===== *)
(** * Threads, executors and coroutines of the REST transport

    How the blocking and asynchronous methods of
    src/rest/detail/http_client.cpp meet on threads: [HttpClient] owns an
    io_context with one thread; async_get, async_post and async_del spawn
    [Impl::execute] on it and await it from whatever executor the caller's
    coroutine runs on; get, post and del spawn such a coroutine with
    use_future and block on the future, as does [sync_await] of
    http_client_sync.hpp.  A coroutine is a tree of what it does between
    its suspension points; [Impl::execute] is any coroutine that accesses
    the members of [Impl] and awaits I/O.  Contexts are driven by threads
    that are inside run().  examples/async_market_data_example.cpp is one
    such program. *)

From S2P Require Import Prelude Errors.
Local Open Scope nat_scope.

Module Exe.
Definition ctx : Type := nat.

Section exe.
(** The members of [HttpClient::Impl], the results of I/O operations and
    the values of coroutines. *)
Context {M IO R : Type}.

Inductive prog : Type :=
| PDone (r : R)                                        (* co_return r, or an exception *)
| PAccess (upd : M → M) (k : M → prog)                 (* code working on Impl's members *)
| PAwait (k : IO → prog)                               (* co_await of an I/O operation *)
| PCall (x : ctx) (p : prog) (k : R → prog)            (* co_await co_spawn(x, p, use_awaitable) *)
| PSpawn (x : ctx) (p : prog) (k : nat → prog)         (* co_spawn(x, p, use_future) *)
| PGet (f : nat) (k : R → prog).                       (* f.get() *)

(** What the end of a coroutine does: resume the awaiting one on its own
    executor, or complete a future. *)
Inductive target : Type :=
| TNone
| TFut (f : nat)
| TCont (x : ctx) (k : R → prog) (tg : target).

(** A thread inside run() of a context, or a plain one. *)
Record thread : Type := Thread { drives : option ctx; cur : option (prog * target) }.

Record state : Type := State {
  threads : list thread;
  ready : list (ctx * prog * target);            (* queued on the contexts *)
  waiting : list (ctx * (IO → prog) * target);   (* for I/O *)
  futs : list (option R);
  mem : M
}.

Inductive label : Type := Run (t : nat) | Complete (i : nat) (e : IO).

Definition set_thread (t : nat) (th : thread) (s : state) : state :=
  State (<[t := th]> (threads s)) (ready s) (waiting s) (futs s) (mem s).
Definition set_cur (t : nat) (x : option ctx) (c : option (prog * target)) (s : state) : state :=
  set_thread t (Thread x c) s.
Definition post (x : ctx) (p : prog) (tg : target) (s : state) : state :=
  State (threads s) (ready s ++ [(x, p, tg)]) (waiting s) (futs s) (mem s).
Definition add_wait (x : ctx) (k : IO → prog) (tg : target) (s : state) : state :=
  State (threads s) (ready s) (waiting s ++ [(x, k, tg)]) (futs s) (mem s).
Definition with_futs (l : list (option R)) (s : state) : state :=
  State (threads s) (ready s) (waiting s) l (mem s).
Definition with_mem (m : M) (s : state) : state :=
  State (threads s) (ready s) (waiting s) (futs s) m.
Definition with_ready (l : list (ctx * prog * target)) (s : state) : state :=
  State (threads s) l (waiting s) (futs s) (mem s).

Definition deliver (tg : target) (r : R) (s : state) : state :=
  match tg with
  | TNone => s
  | TFut f => with_futs (<[f := Some r]> (futs s)) s
  | TCont x k tg => post x (k r) tg s
  end.

(** A context runs its handlers in the order they were posted. *)
Fixpoint take_first (x : ctx) (l : list (ctx * prog * target)) : option (prog * target * list (ctx * prog * target)) :=
  match l with
  | [] => None
  | (y, p, tg) :: l =>
      if decide (y = x) then Some (p, tg, l)
      else '(q, tg', l') ← take_first x l; Some (q, tg', (y, p, tg) :: l')
  end.

(** One step of thread [t]. *)
Definition exec_thread (t : nat) (th : thread) (s : state) : option state :=
  let x := drives th in
  match cur th with
  | Some (PDone r, tg) => Some (deliver tg r (set_cur t x None s))
  | Some (PAccess u k, tg) => Some (set_cur t x (Some (k (mem s), tg)) (with_mem (u (mem s)) s))
  | Some (PAwait k, tg) => x' ← x; Some (add_wait x' k tg (set_cur t x None s))
  | Some (PCall y p k, tg) => x' ← x; Some (post y p (TCont x' k tg) (set_cur t x None s))
  | Some (PSpawn y p k, tg) =>
      let f := length (futs s) in
      Some (post y p (TFut f) (set_cur t x (Some (k f, tg)) (with_futs (futs s ++ [None]) s)))
  | Some (PGet f k, tg) =>
      match futs s !! f with
      | Some (Some r) => Some (set_cur t x (Some (k r, tg)) s)
      | _ => None
      end
  | None =>
      x' ← x;
      '(p, tg, l) ← take_first x' (ready s);
      Some (set_cur t x (Some (p, tg)) (with_ready l s))
  end.

Definition exec (l : label) (s : state) : option state :=
  match l with
  | Run t => th ← threads s !! t; exec_thread t th s
  | Complete i e =>
      '(x, k, tg) ← waiting s !! i;
      Some (post x (k e) tg (State (threads s) (ready s) (delete i (waiting s)) (futs s) (mem s)))
  end.

Definition step (s : state) (l : label) (s' : state) : Prop := exec l s = Some s'.

Fixpoint exec_all (l : list label) (s : state) : option state :=
  match l with [] => Some s | a :: l => s' ← exec a s; exec_all l s' end.

Lemma exe_exec_run l s s' : exec_all l s = Some s' → run step s l s'.
Proof.
  revert s. induction l as [|a l IH]; intros s; simpl; [intros [= ->]; constructor|].
  destruct (exec a s) as [s1|] eqn:Ha; simpl; [|done]. intros H. eapply run_cons; [exact Ha | by apply IH].
Qed.

(** *** The interface of HttpClient *)

(** [HttpClient]'s own context. *)
Definition io : ctx := 0.

(** [co_await client.async_get(...)], where [execute] is the coroutine
    that [Impl::execute] creates. *)
Definition async_request (execute : prog) (k : R → prog) : prog := PCall io execute k.

(** The awaitable itself, as handed to [co_spawn]. *)
Definition async_get (execute : prog) : prog := async_request execute PDone.

Definition sync_await (x : ctx) (aw : prog) (k : R → prog) : prog := PSpawn x aw (λ f, PGet f k).

(** [client.get(...)] and its siblings. *)
Definition get (execute : prog) (k : R → prog) : prog := sync_await io (async_get execute) k.

(** [Impl::execute]: accesses and I/O. *)
Inductive client_code : prog → Prop :=
| cc_done r : client_code (PDone r)
| cc_access u k : (∀ m, client_code (k m)) → client_code (PAccess u k)
| cc_await k : (∀ e, client_code (k e)) → client_code (PAwait k).

(** *** Steps as rewriting of the set of coroutines *)

Inductive item : Type :=
| ICur (t : nat) (x : option ctx) (p : prog) (tg : target)
| IReady (x : ctx) (p : prog) (tg : target)
| IWait (x : ctx) (k : IO → prog) (tg : target).

Definition cur_item (t : nat) (th : thread) : list item :=
  match cur th with Some (p, tg) => [ICur t (drives th) p tg] | None => [] end.
Fixpoint cur_items (t : nat) (l : list thread) : list item :=
  match l with [] => [] | th :: l => cur_item t th ++ cur_items (S t) l end.
Definition ready_item (fr : ctx * prog * target) : item := let '(x, p, tg) := fr in IReady x p tg.
Definition wait_item (fr : ctx * (IO → prog) * target) : item := let '(x, k, tg) := fr in IWait x k tg.
Definition items (s : state) : list item :=
  cur_items 0 (threads s) ++ (ready_item <$> ready s) ++ (wait_item <$> waiting s).

Definition resumes (tg : target) : bool := match tg with TCont _ _ _ => true | _ => false end.

(** What a step does to one coroutine; the side conditions are what the
    invariants need. *)
Inductive local (s : state) : item → list item → Prop :=
| l_access t x u k tg : local s (ICur t x (PAccess u k) tg) [ICur t x (k (mem s)) tg]
| l_await t x k tg : local s (ICur t (Some x) (PAwait k) tg) [IWait x k tg]
| l_call t x y p k tg : local s (ICur t (Some x) (PCall y p k) tg) [IReady y p (TCont x k tg)]
| l_spawn t x y p k tg :
    local s (ICur t x (PSpawn y p k) tg) [IReady y p (TFut (length (futs s))); ICur t x (k (length (futs s))) tg]
| l_get t x f k tg r : futs s !! f = Some (Some r) → local s (ICur t x (PGet f k) tg) [ICur t x (k r) tg]
| l_return t x r y k tg : local s (ICur t x (PDone r) (TCont y k tg)) [IReady y (k r) tg]
| l_done t x r tg : resumes tg = false → local s (ICur t x (PDone r) tg) []
| l_take t x p tg : threads s !! t = Some (Thread (Some x) None) → local s (IReady x p tg) [ICur t (Some x) p tg]
| l_io x k tg e : local s (IWait x k tg) [IReady x (k e) tg].

(** What it does to the futures. *)
Definition futs_step (s s' : state) (it : item) : Prop :=
  match it with
  | ICur _ _ (PSpawn _ _ _) _ => futs s' = futs s ++ [None]
  | ICur _ _ (PDone r) (TFut f) => futs s' = <[f := Some r]> (futs s)
  | _ => futs s' = futs s
  end.

Lemma cur_items_insert l i th t :
  l !! i = Some th →
  ∃ rest, cur_items t l ≡ₚ cur_item (t + i) th ++ rest ∧
    ∀ th', cur_items t (<[i := th']> l) ≡ₚ cur_item (t + i) th' ++ rest.
Proof.
  revert i t. induction l as [|th0 l IH]; intros [|i] t Hi; simplify_eq/=.
  - exists (cur_items (S t) l). by rewrite Nat.add_0_r.
  - destruct (IH i (S t) Hi) as (rest & H1 & H2). exists (cur_item t th0 ++ rest).
    rewrite <- plus_n_Sm. simpl in *. split.
    + rewrite H1. solve_Permutation.
    + intros th'. rewrite H2. solve_Permutation.
Qed.

Lemma take_first_perm x l p tg l' : take_first x l = Some (p, tg, l') → l ≡ₚ (x, p, tg) :: l'.
Proof.
  revert l'. induction l as [|[[y q] tg0] l IH]; intros l'; simpl; [done|]. case_decide; [by intros; simplify_eq|].
  destruct (take_first x l) as [[[q1 tg1] l1]|] eqn:Ht; simpl; [|done]. intros [= -> -> <-].
  rewrite (IH _ eq_refl). apply Permutation_swap.
Qed.

Lemma take_first_Some x l p tg : (x, p, tg) ∈ l → is_Some (take_first x l).
Proof.
  induction l as [|[[y q] tg0] l IH]; simpl; [by intros ?%elem_of_nil|]. case_decide; [by eexists|].
  intros [?|Hin]%elem_of_cons; [congruence|]. destruct (IH Hin) as [[[? ?] ?] ->]. by eexists.
Qed.

(** Every step rewrites one coroutine and leaves the others. *)
Lemma drives_insert (l : list thread) t th th' :
  l !! t = Some th → drives th' = drives th → drives <$> (<[t := th']> l) = drives <$> l.
Proof.
  intros Ht Hd. rewrite list_fmap_insert, Hd. apply list_insert_id. by rewrite list_lookup_fmap, Ht.
Qed.

Lemma other_threads (l : list thread) t th' t' th :
  t ≠ t' → l !! t' = Some th → <[t := th']> l !! t' = Some th.
Proof. intros. by rewrite list_lookup_insert_ne. Qed.

Ltac item_done H2 th :=
  split; [simpl; solve_Permutation|];
  split; [rewrite (H2 th), ?fmap_app; unfold cur_item; simpl; solve_Permutation|];
  split; [once (by constructor)|]; split; [done|]; split; [by eapply drives_insert|];
  let Hne := fresh "Hne" in let Hc := fresh "Hc" in let Hl := fresh "Hl" in
  intros ? Hne ? Hc Hl; apply other_threads;
    [intros ->; first [by eapply Hne | rewrite Hl in *; simplify_eq; by destruct Hc] | done].

Lemma step_items s l s' :
  step s l s' →
  ∃ it new rest, items s ≡ₚ it :: rest ∧ items s' ≡ₚ new ++ rest ∧ local s it new ∧ futs_step s s' it ∧
    drives <$> threads s' = drives <$> threads s ∧
    (∀ t, (∀ x p tg, it ≠ ICur t x p tg) → ∀ th, cur th ≠ None → threads s !! t = Some th → threads s' !! t = Some th).
Proof.
  unfold step, exec. destruct l as [t|i e].
  - destruct (threads s !! t) as [[x c]|] eqn:Ht; simpl; [|done].
    destruct (cur_items_insert _ _ _ 0 Ht) as (rest & H1 & H2). unfold cur_item in H1. simpl in H1.
    unfold exec_thread, items. cbn [cur drives].
    destruct c as [[[r|u k|k|y p k|y p k|f k] tg]|]; intros Hst.
    + injection Hst as <-. exists (ICur t x (PDone r) tg),
        (match tg with TCont y k tg' => [IReady y (k r) tg'] | _ => [] end), (rest ++ (ready_item <$> ready s) ++ (wait_item <$> waiting s)).
      rewrite H1. destruct tg as [|f|y k tg]; simpl; item_done H2 (Thread x None).
    + simplify_eq/=. eexists _, [ICur t x (k (mem s)) tg], (rest ++ (ready_item <$> ready s) ++ (wait_item <$> waiting s)).
      rewrite H1. item_done H2 (Thread x (Some (k (mem s), tg))).
    + destruct x as [x|]; simplify_eq/=. eexists _, [IWait x k tg], (rest ++ (ready_item <$> ready s) ++ (wait_item <$> waiting s)).
      rewrite H1. item_done H2 (Thread (Some x) None).
    + destruct x as [x|]; simplify_eq/=. eexists _, [IReady y p (TCont x k tg)], (rest ++ (ready_item <$> ready s) ++ (wait_item <$> waiting s)).
      rewrite H1. item_done H2 (Thread (Some x) None).
    + simplify_eq/=. eexists _, [IReady y p (TFut (length (futs s))); ICur t x (k (length (futs s))) tg], (rest ++ (ready_item <$> ready s) ++ (wait_item <$> waiting s)).
      rewrite H1. item_done H2 (Thread x (Some (k (length (futs s)), tg))).
    + destruct (futs s !! f) as [[r|]|] eqn:Hf; simplify_eq/=. eexists _, [ICur t x (k r) tg], (rest ++ (ready_item <$> ready s) ++ (wait_item <$> waiting s)).
      rewrite H1. item_done H2 (Thread x (Some (k r, tg))).
    + destruct x as [x|]; simpl in Hst; [|done].
      destruct (take_first x (ready s)) as [[[p tg] l']|] eqn:Htk; simplify_eq/=. apply take_first_perm in Htk.
      exists (IReady x p tg), [ICur t (Some x) p tg], (rest ++ (ready_item <$> l') ++ (wait_item <$> waiting s)).
      rewrite H1, Htk. item_done H2 (Thread (Some x) (Some (p, tg))).
  - destruct (waiting s !! i) as [[[x k] tg]|] eqn:Hw; simpl; [|done]. intros [= <-].
    exists (IWait x k tg), [IReady x (k e) tg], (cur_items 0 (threads s) ++ (ready_item <$> ready s) ++ (wait_item <$> delete i (waiting s))).
    unfold items. simpl. rewrite (delete_Permutation _ _ _ Hw) at 1. simpl. rewrite fmap_app. simpl.
    split; [solve_Permutation|]. split; [solve_Permutation|]. split; [by constructor|]. done.
Qed.

(** An invariant of single coroutines is an invariant of the system. *)
Lemma items_invariant (P : item → Prop) s0 :
  (∀ s it new, P it → local s it new → Forall P new) → Forall P (items s0) →
  ∀ tr s, run step s0 tr s → Forall P (items s).
Proof.
  intros HP H0. apply (run_invariant step (λ _ s, Forall P (items s))); [done|].
  intros tr s l s' _ IH Hst. destruct (step_items _ _ _ Hst) as (it & new & rest & H1 & H2 & Hl & _).
  rewrite H1 in IH. apply Forall_cons in IH as [Hit Hrest]. rewrite H2. apply Forall_app. eauto.
Qed.

Lemma cur_items_elem l t0 t x p tg :
  ICur t x p tg ∈ cur_items t0 l ↔ ∃ i, t = t0 + i ∧ l !! i = Some (Thread x (Some (p, tg))).
Proof.
  revert t0. induction l as [|[y c] l IH]; intros t0; simpl.
  - split; [by intros ?%elem_of_nil | intros (i & _ & Hi); by rewrite lookup_nil in Hi].
  - rewrite elem_of_app, IH. unfold cur_item. simpl. split.
    + intros [Hin|(i & -> & Hi)]; [|exists (S i); split; [lia | done]].
      destruct c as [[q tg']|]; [|by apply elem_of_nil in Hin]. apply list_elem_of_singleton in Hin. simplify_eq.
      exists 0. split; [lia | done].
    + intros ([|i] & -> & Hi); simplify_eq/=; [left | right; exists i; split; [lia | done]].
      rewrite Nat.add_0_r. by apply list_elem_of_singleton.
Qed.

Lemma cur_items_cur l t0 it : it ∈ cur_items t0 l → ∃ t x p tg, it = ICur t x p tg.
Proof.
  revert t0. induction l as [|[x [[p tg]|]] l IH]; intros t0 Hin; simpl in Hin; [by apply elem_of_nil in Hin| |by eapply IH].
  unfold cur_item in Hin. simpl in Hin. apply elem_of_cons in Hin as [->|Hin]; [eauto | by eapply IH].
Qed.

Lemma items_cur s t x p tg : threads s !! t = Some (Thread x (Some (p, tg))) ↔ ICur t x p tg ∈ items s.
Proof.
  unfold items. rewrite !elem_of_app, cur_items_elem. split.
  - intros Ht. left. by exists t.
  - intros [(i & -> & Hi)|[Hin|Hin]]; [done | |];
      apply list_elem_of_fmap in Hin as ([[? ?] ?] & ? & _); done.
Qed.

(** *** Where the members of the client are accessed *)

(** [x] is the context of the thread that runs the code. *)
Inductive placed : option ctx → prog → Prop :=
| pl_done x r : placed x (PDone r)
| pl_access u k : (∀ m, placed (Some io) (k m)) → placed (Some io) (PAccess u k)
| pl_await x k : (∀ e, placed x (k e)) → placed x (PAwait k)
| pl_call x y p k : placed (Some y) p → (∀ r, placed x (k r)) → placed x (PCall y p k)
| pl_spawn x y p k : placed (Some y) p → (∀ f, placed x (k f)) → placed x (PSpawn y p k)
| pl_get x f k : (∀ r, placed x (k r)) → placed x (PGet f k).

Fixpoint placed_target (tg : target) : Prop :=
  match tg with TCont x k tg => (∀ r, placed (Some x) (k r)) ∧ placed_target tg | _ => True end.

Definition placed_item (it : item) : Prop :=
  match it with
  | ICur _ x p tg => placed x p ∧ placed_target tg
  | IReady x p tg => placed (Some x) p ∧ placed_target tg
  | IWait x k tg => (∀ e, placed (Some x) (k e)) ∧ placed_target tg
  end.

Lemma placed_local s it new : placed_item it → local s it new → Forall placed_item new.
Proof.
  intros Hit Hl. destruct Hl; simpl in Hit; destruct Hit as [Hp Ht]; repeat constructor; simpl in *; try done;
    try (by inversion Hp; subst); try naive_solver.
Qed.

(** What users write: their own code and I/O, coroutines of their own on
    any executor, and the methods of the client. *)
Inductive user_code : prog → Prop :=
| uc_done r : user_code (PDone r)
| uc_await k : (∀ e, user_code (k e)) → user_code (PAwait k)
| uc_call x p k : user_code p → (∀ r, user_code (k r)) → user_code (PCall x p k)
| uc_spawn x p k : user_code p → (∀ f, user_code (k f)) → user_code (PSpawn x p k)
| uc_future f k : (∀ r, user_code (k r)) → user_code (PGet f k)
| uc_async execute k : client_code execute → (∀ r, user_code (k r)) → user_code (async_request execute k)
| uc_get execute k : client_code execute → (∀ r, user_code (k r)) → user_code (get execute k).

Lemma client_placed p : client_code p → placed (Some io) p.
Proof. induction 1; by constructor. Qed.

Lemma user_placed p : user_code p → ∀ x, placed x p.
Proof.
  induction 1; intros x'; try (by constructor; eauto using client_placed).
  constructor; [|intros; constructor; eauto]. constructor; [by apply client_placed | constructor].
Qed.

(** At the start: threads inside run() or about to run the user's code,
    and coroutines the user has already spawned. *)
Definition fresh_item (it : item) : Prop :=
  match it with
  | ICur _ _ p tg | IReady _ p tg => user_code p ∧ resumes tg = false
  | IWait _ _ _ => False
  end.

Lemma fresh_placed it : fresh_item it → placed_item it.
Proof.
  destruct it as [t x p tg|x p tg|]; simpl; [| |done]; intros [Hp Ht]; (split; [by apply user_placed|]); by destruct tg.
Qed.

Lemma threads_drive s s' t x c :
  drives <$> threads s' = drives <$> threads s → threads s' !! t = Some (Thread x c) →
  ∃ c', threads s !! t = Some (Thread x c').
Proof.
  intros Hd Ht. assert (Hx : (drives <$> threads s) !! t = Some x) by (rewrite <- Hd, list_lookup_fmap, Ht; done).
  rewrite list_lookup_fmap in Hx. destruct (threads s !! t) as [[y c']|]; simplify_eq/=. by exists c'.
Qed.

Lemma run_drives s0 tr s : run step s0 tr s → drives <$> threads s = drives <$> threads s0.
Proof.
  revert tr s. apply (run_invariant step (λ _ s, drives <$> threads s = drives <$> threads s0)); [done|].
  intros tr s l0 s' _ IH Hst. destruct (step_items _ _ _ Hst) as (? & ? & ? & _ & _ & _ & _ & -> & _). done.
Qed.

(** C16: Whatever threads and executors a program has, as long as it uses the public
    methods, blocking or asynchronous, the members of HttpClient::Impl (pool, TLS
    session cache) are only ever accessed by a thread that runs the client's own
    io_context. *)
Theorem members_confined s0 tr s t x u k tg :
  Forall fresh_item (items s0) → run step s0 tr s →
  threads s !! t = Some (Thread x (Some (PAccess u k, tg))) →
  x = Some io ∧ ∃ c, threads s0 !! t = Some (Thread (Some io) c).
Proof.
  intros Hl Hr Ht. assert (Hp : placed_item (ICur t x (PAccess u k) tg)).
  { eapply Forall_forall; [eapply items_invariant; [apply placed_local | | exact Hr] | by apply items_cur].
    eapply Forall_impl; [exact Hl | apply fresh_placed]. }
  destruct Hp as [Hp _]. inversion Hp; subst. split; [done|]. eapply threads_drive; [by eapply run_drives | done].
Qed.

(** *** Waiting for oneself *)

(** The future at the end of a chain of awaiting coroutines. *)
Fixpoint leads (f : nat) (tg : target) : Prop :=
  match tg with TNone => False | TFut g => g = f | TCont _ _ tg => leads f tg end.

(** The chain needs context [x] to go on. *)
Fixpoint passes (x : ctx) (tg : target) : Prop :=
  match tg with TCont y _ tg => y = x ∨ passes x tg | _ => False end.

Definition item_target (it : item) : target :=
  match it with ICur _ _ _ tg | IReady _ _ tg | IWait _ _ tg => tg end.

(** Whatever completes [f] must first get a turn on [x]. *)
Definition behind (x : ctx) (f : nat) (it : item) : Prop :=
  leads f (item_target it) →
  match it with
  | ICur _ _ _ tg => passes x tg
  | IReady y _ tg | IWait y _ tg => y = x ∨ passes x tg
  end.

(** No coroutine completes a future that does not exist yet. *)
Definition futures_exist (s : state) : Prop :=
  ∀ it f, it ∈ items s → leads f (item_target it) → f < length (futs s).

Lemma futs_step_length s s' it : futs_step s s' it → length (futs s) ≤ length (futs s').
Proof.
  unfold futs_step. repeat case_match; intros ->; rewrite ?length_app, ?length_insert; lia.
Qed.

Lemma futures_exist_step s l s' : futures_exist s → step s l s' → futures_exist s'.
Proof.
  intros Hex Hst it f Hin Hf. destruct (step_items _ _ _ Hst) as (it0 & new & rest & H1 & H2 & Hl & Hfs & _).
  pose proof (futs_step_length _ _ _ Hfs) as Hlen. rewrite H2 in Hin. apply elem_of_app in Hin as [Hin|Hin].
  - assert (Hold : leads f (item_target it0) → f < length (futs s)) by (apply Hex; rewrite H1; left).
    destruct Hl; simpl in *; try (apply list_elem_of_singleton in Hin as ->; simpl in *; lia || (specialize (Hold Hf); lia)).
    + apply elem_of_cons in Hin as [->|Hin]; [simpl in Hf; subst|].
      { rewrite Hfs, length_app. simpl. lia. }
      apply list_elem_of_singleton in Hin as ->. simpl in *. specialize (Hold Hf). lia.
    + by apply elem_of_nil in Hin.
  - assert (f < length (futs s)); [|lia]. apply (Hex it); [rewrite H1; by right | done].
Qed.

(** Thread [t], the only one that runs [x], waits for [f]. *)
Record self_wait (t : nat) (x : ctx) (f : nat) (k : R → prog) (tg : target) (s : state) : Prop := {
  sw_thread : threads s !! t = Some (Thread (Some x) (Some (PGet f k, tg)));
  sw_only : ∀ t' c, threads s !! t' = Some (Thread (Some x) c) → t' = t;
  sw_open : futs s !! f = Some None;
  sw_behind : ∀ it, it ∈ items s → (∀ y p tg', it ≠ ICur t y p tg') → behind x f it
}.

Lemma self_wait_step t x f k tg s l s' : self_wait t x f k tg s → step s l s' → self_wait t x f k tg s'.
Proof.
  intros [Ht Honly Hopen Hbeh] Hst.
  destruct (step_items _ _ _ Hst) as (it & new & rest & H1 & H2 & Hl & Hfs & Hdr & Hkeep).
  assert (Hlt : f < length (futs s)) by (by eapply lookup_lt_Some).
  assert (Hin : it ∈ items s) by (rewrite H1; left).
  assert (Hne : ∀ y p tg', it ≠ ICur t y p tg').
  { intros y p tg' ->. apply items_cur in Hin. rewrite Ht in Hin. simplify_eq. inversion Hl; subst. congruence. }
  specialize (Hbeh it Hin Hne) as Hit. split.
  - by apply (Hkeep t Hne).
  - intros t' c Ht'. destruct (threads_drive _ _ _ _ _ Hdr Ht') as [c' Hc']. by eapply Honly.
  - destruct Hl; simpl in Hfs; try (rewrite Hfs; done).
    + rewrite Hfs. by rewrite lookup_app_l.
    + destruct tg0 as [|g|]; [by rewrite Hfs | | by rewrite Hfs]. rewrite Hfs.
      destruct (decide (g = f)) as [->|]; [by destruct (Hit eq_refl) | by rewrite list_lookup_insert_ne].
  - intros it' Hin' Hne'. rewrite H2 in Hin'. apply elem_of_app in Hin' as [Hin'|Hin'];
      [|apply Hbeh; [rewrite H1; by right | done]].
    destruct Hl; unfold behind in *; simpl in *; try (apply list_elem_of_singleton in Hin' as ->; simpl; naive_solver).
    + apply elem_of_cons in Hin' as [->|Hin']; [intros Hf; simpl in Hf; lia|].
      apply list_elem_of_singleton in Hin' as ->. done.
    + by apply elem_of_nil in Hin'.
Qed.

Lemma futures_exist_run s0 tr s : futures_exist s0 → run step s0 tr s → futures_exist s.
Proof. intros H0. revert tr s. apply (run_invariant step (λ _ s, futures_exist s)); eauto using futures_exist_step. Qed.

(** A coroutine that calls sync_await, or a blocking method, for the context its own
    thread alone runs waits forever, whatever else happens. *)
Theorem sync_await_on_own_thread_hangs s0 tr s t x aw k tg s1 tr' s' :
  futures_exist s0 → run step s0 tr s →
  (∀ t' c, threads s0 !! t' = Some (Thread (Some x) c) → t' = t) →
  threads s !! t = Some (Thread (Some x) (Some (sync_await x aw k, tg))) →
  step s (Run t) s1 → run step s1 tr' s' →
  threads s' !! t = Some (Thread (Some x) (Some (PGet (length (futs s)) k, tg))) ∧
  futs s' !! length (futs s) = Some None ∧ exec (Run t) s' = None.
Proof.
  intros H0 Hr Honly Ht Hst Hr'.
  assert (Hsw : self_wait t x (length (futs s)) k tg s').
  { revert tr' s' Hr'. apply (run_invariant step (λ _ s', self_wait t x (length (futs s)) k tg s'));
      [|eauto using self_wait_step].
    pose proof (futures_exist_run _ _ _ H0 Hr) as Hex.
    assert (Hr1 : run step s0 (tr ++ [Run t]) s1) by (by eapply run_snoc).
    unfold step, exec in Hst. rewrite Ht in Hst. simpl in Hst. injection Hst as Hs1. split.
    - subst. simpl. rewrite list_lookup_insert_eq; [done | by eapply lookup_lt_Some].
    - intros t' c Ht'. destruct (threads_drive s0 s1 t' _ _ (run_drives _ _ _ Hr1) Ht') as [c' Hc']. by eapply Honly.
    - subst. simpl. by rewrite lookup_app_r, Nat.sub_diag.
    - intros it' Hin Hne Hf. assert (Hit : it' ∈ items s ∨ it' = IReady x aw (TFut (length (futs s)))).
      { subst s1. unfold items in Hin |- *. simpl in Hin. rewrite fmap_app, !elem_of_app in Hin. rewrite !elem_of_app.
        destruct Hin as [Hin|[[Hin|Hin]|Hin]]; [|by eauto | right; by apply list_elem_of_singleton in Hin | by eauto].
        left. left. destruct (cur_items_cur _ _ _ Hin) as (t' & y & p & tg' & ->).
        apply cur_items_elem in Hin as (i & Hi & Hli). simpl in Hi. subst i. apply cur_items_elem. exists t'. split; [done|].
        rewrite list_lookup_insert_ne in Hli; [done|]. intros ->. by eapply Hne. }
      destruct Hit as [Hit| ->]; [|by left]. pose proof (Hex _ _ Hit Hf). lia. }
  destruct Hsw as [Hth _ Ho _]. split_and!; [done | done|]. unfold exec. rewrite Hth. simpl. unfold exec_thread. simpl. by rewrite Ho.
Qed.

(** *** Blocking calls return *)

(** An upper bound on the steps a coroutine takes, with those of the
    coroutines it starts and the scheduling in between. *)
Inductive bnd : nat → prog → Prop :=
| b_done r : bnd 0 (PDone r)
| b_access n u k : (∀ m, bnd n (k m)) → bnd (n + 1) (PAccess u k)
| b_await n k : (∀ e, bnd n (k e)) → bnd (n + 3) (PAwait k)
| b_call a n x p k : bnd a p → (∀ r, bnd n (k r)) → bnd (a + n + 4) (PCall x p k)
| b_spawn a n x p k : bnd a p → (∀ f, bnd n (k f)) → bnd (a + n + 3) (PSpawn x p k)
| b_get n f k : (∀ r, bnd n (k r)) → bnd (n + 1) (PGet f k).

Inductive bnd_target : nat → target → Prop :=
| bt_none : bnd_target 0 TNone
| bt_fut f : bnd_target 0 (TFut f)
| bt_cont n a x k tg : (∀ r, bnd n (k r)) → bnd_target a tg → bnd_target (n + a + 2) (TCont x k tg).

Inductive bnd_item : nat → item → Prop :=
| bi_cur n a t x p tg : bnd n p → bnd_target a tg → bnd_item (n + a + 1) (ICur t x p tg)
| bi_ready n a x p tg : bnd n p → bnd_target a tg → bnd_item (n + a + 2) (IReady x p tg)
| bi_wait n a x k tg : (∀ e, bnd n (k e)) → bnd_target a tg → bnd_item (n + a + 3) (IWait x k tg).

Inductive total : list item → nat → Prop :=
| total_nil : total [] 0
| total_cons c n it l : bnd_item c it → total l n → total (it :: l) (c + n).

Lemma total_app l1 l2 n1 n2 : total l1 n1 → total l2 n2 → total (l1 ++ l2) (n1 + n2).
Proof. induction 1; simpl; [done|]. rewrite <- Nat.add_assoc. constructor; auto. Qed.

Lemma total_perm l l' n : l ≡ₚ l' → total l n → total l' n.
Proof.
  intros Hp. revert n. induction Hp as [|it l l' _ IH|it it' l|l1 l2 l3 _ IH1 _ IH2]; intros n Ht; [done| | |auto].
  - inversion Ht; subst. constructor; auto.
  - inversion Ht as [|c1 n1 ? ? Hc1 Ht1]; subst. inversion Ht1 as [|c2 n2 ? ? Hc2 Ht2]; subst.
    replace (c1 + (c2 + n2)) with (c2 + (c1 + n2)) by lia. by repeat constructor.
Qed.

Lemma local_total s it new c : bnd_item c it → local s it new → ∃ n, total new n ∧ n < c.
Proof.
  assert (Hone : ∀ it' n, bnd_item n it' → n < c → ∃ n, total [it'] n ∧ n < c).
  { intros it' n Hn Hc. exists (n + 0). split; [|lia]. by repeat constructor. }
  intros Hc Hl.
  destruct Hl as [t x u k tg|t x k tg|t x y p k tg|t x y p k tg|t x f k tg r Hf|t x r y k tg|t x r tg|t x p tg|x k tg e];
    inversion Hc as [n a ? ? ? ? Hp Ht|n a ? ? ? Hp Ht|n a ? ? ? Hp Ht]; subst.
  - inversion Hp; subst. eapply Hone; [by constructor | lia].
  - inversion Hp; subst. eapply Hone; [by constructor | lia].
  - inversion Hp; subst. eapply Hone; [constructor; [done | by constructor] | lia].
  - inversion Hp as [| | | |b n' ? ? ? Hb Hk|]; subst. eexists. split.
    + constructor; [constructor; [done | constructor]|]. constructor; [by constructor | constructor].
    + lia.
  - inversion Hp; subst. eapply Hone; [by constructor | lia].
  - inversion Ht; subst. eapply Hone; [by constructor | lia].
  - exists 0. split; [constructor | lia].
  - eapply Hone; [by constructor | lia].
  - eapply Hone; [by constructor | lia].
Qed.

Lemma total_step s l s' n : total (items s) n → step s l s' → ∃ n', total (items s') n' ∧ n' < n.
Proof.
  intros Ht Hst. destruct (step_items _ _ _ Hst) as (it & new & rest & H1 & H2 & Hl & _).
  apply (total_perm _ _ _ H1) in Ht. inversion Ht as [|c m ? ? Hc Hm]; subst.
  destruct (local_total _ _ _ _ Hc Hl) as (n' & Hn' & Hlt). exists (n' + m). split; [|lia].
  eapply total_perm; [symmetry; exact H2 | by apply total_app].
Qed.

Section returns.
(** The contexts that some thread runs. *)
Context (D : list ctx).

(** A coroutine that never blocks its thread. *)
Inductive coroutine : prog → Prop :=
| co_done r : coroutine (PDone r)
| co_access u k : (∀ m, coroutine (k m)) → coroutine (PAccess u k)
| co_await k : (∀ e, coroutine (k e)) → coroutine (PAwait k)
| co_call x p k : x ∈ D → coroutine p → (∀ r, coroutine (k r)) → coroutine (PCall x p k)
| co_spawn x p k : x ∈ D → coroutine p → (∀ f, coroutine (k f)) → coroutine (PSpawn x p k).

(** A thread that makes blocking calls, one after the other. *)
Inductive caller : prog → Prop :=
| ca_done r : caller (PDone r)
| ca_sync x p k : x ∈ D → coroutine p → (∀ r, caller (k r)) → caller (sync_await x p k).

Fixpoint good_target (n : nat) (tg : target) : Prop :=
  match tg with
  | TNone => True
  | TFut f => f < n
  | TCont x k tg => x ∈ D ∧ (∀ r, coroutine (k r)) ∧ good_target n tg
  end.

Definition good_item (n : nat) (it : item) : Prop :=
  match it with
  | ICur _ None p tg =>
      tg = TNone ∧ (caller p ∨ ∃ f k, p = PGet f k ∧ f < n ∧ ∀ r, caller (k r))
  | ICur _ (Some x) p tg => x ∈ D ∧ coroutine p ∧ good_target n tg
  | IReady x p tg => x ∈ D ∧ coroutine p ∧ good_target n tg
  | IWait x k tg => x ∈ D ∧ (∀ e, coroutine (k e)) ∧ good_target n tg
  end.

Definition all_good (s : state) : Prop := Forall (good_item (length (futs s))) (items s).

(** Every open future has a coroutine that will complete it. *)
Definition open_served (s : state) : Prop :=
  ∀ f, futs s !! f = Some None → ∃ it, it ∈ items s ∧ leads f (item_target it).

(** Who drives what does not change. *)
Definition all_driven (s : state) : Prop := ∀ x, x ∈ D → ∃ t c, threads s !! t = Some (Thread (Some x) c).

Lemma good_target_mono n n' tg : n ≤ n' → good_target n tg → good_target n' tg.
Proof. intros Hn. induction tg; simpl; [done | lia | naive_solver]. Qed.

Lemma good_item_mono n n' it : n ≤ n' → good_item n it → good_item n' it.
Proof.
  intros Hn. destruct it as [t [x|] p tg|x p tg|x k tg]; simpl; [| |naive_solver eauto using good_target_mono..].
  - naive_solver eauto using good_target_mono.
  - intros [-> [?|(f & k & -> & ? & ?)]]; (split; [done|]); [by left | right]. exists f, k. split_and!; [done | lia | done].
Qed.

Lemma good_local s s' it new :
  good_item (length (futs s)) it → local s it new → futs_step s s' it →
  Forall (good_item (length (futs s'))) new.
Proof.
  intros Hit Hl Hfs. pose proof (futs_step_length _ _ _ Hfs) as Hlen. apply (good_item_mono _ _ _ Hlen) in Hit.
  destruct Hl as [t x u k tg|t x k tg|t x y p k tg|t x y p k tg|t x f k tg r Hf|t x r y k tg|t x r tg|t x p tg|x k tg e];
    simpl in Hfs.
  - destruct x as [x|]; [destruct Hit as (HD & Hp & Htg) | destruct Hit as [-> [Hp|(f & k0 & ? & _)]]];
      [inversion Hp; subst; repeat constructor; auto | by inversion Hp | done].
  - destruct Hit as (HD & Hp & Htg). inversion Hp; subst. repeat constructor; auto.
  - destruct Hit as (HD & Hp & Htg). inversion Hp; subst. repeat constructor; auto.
  - rewrite Hfs, length_app in *. simpl in *.
    destruct x as [x|]; [destruct Hit as (HD & Hp & Htg) | destruct Hit as [-> [Hp|(f & k0 & ? & _)]]]; [| |done];
      inversion Hp; subst; (constructor; [split_and!; simpl; auto; lia|]); (constructor; [|constructor]).
    + split_and!; auto.
    + split; [done|]. right. eexists _, _. split_and!; [done | lia | done].
  - destruct x as [x|]; [destruct Hit as (HD & Hp & Htg) | destruct Hit as [-> [Hp|(f0 & k0 & ? & _ & Hk)]]];
      [by inversion Hp | by inversion Hp |]. simplify_eq. repeat constructor. auto.
  - destruct x as [x|]; [|by destruct Hit]. destruct Hit as (HD & Hp & Hy & Hk & Htg). repeat constructor; auto.
  - constructor.
  - repeat constructor; apply Hit.
  - destruct Hit as (HD & Hk & Htg). repeat constructor; auto.
Qed.

Lemma all_good_step s l s' : all_good s → step s l s' → all_good s'.
Proof.
  intros Hg Hst. destruct (step_items _ _ _ Hst) as (it & new & rest & H1 & H2 & Hl & Hfs & _).
  unfold all_good in *. rewrite H1 in Hg. apply Forall_cons in Hg as [Hit Hrest]. rewrite H2. apply Forall_app. split.
  - by eapply good_local.
  - eapply Forall_impl; [exact Hrest|]. intros it0. apply good_item_mono. by eapply futs_step_length.
Qed.

Lemma served_local s it new f :
  local s it new → leads f (item_target it) → (∃ it', it' ∈ new ∧ leads f (item_target it')) ∨
  ∃ t x r, it = ICur t x (PDone r) (TFut f).
Proof.
  intros Hl Hf. destruct Hl; simpl in *; try (left; eexists; split; [by left | done]).
  - left. eexists. split; [right; by left | done].
  - destruct tg as [|g|]; simpl in *; [done | subst; eauto | done].
Qed.

(** A future that is open after a step was open before or is new. *)
Lemma open_before s s' it f :
  futs_step s s' it → futs s' !! f = Some None →
  futs s !! f = Some None ∨ (f = length (futs s) ∧ ∃ t x y p k tg, it = ICur t x (PSpawn y p k) tg).
Proof.
  unfold futs_step. intros Hfs Hf.
  destruct it as [t x p tg| |]; [|rewrite Hfs in Hf; by left..].
  destruct p; try (rewrite Hfs in Hf; by left).
  - destruct tg as [|g|]; try (rewrite Hfs in Hf; by left). rewrite Hfs in Hf. left.
    apply list_lookup_insert_Some in Hf as [(_ & ? & _)|[_ ?]]; done.
  - rewrite Hfs in Hf. apply lookup_app_Some in Hf as [Hf|[Hge Hf]]; [by left|]. right.
    apply list_lookup_singleton_Some in Hf as [? _]. split; [lia|]. by repeat eexists.
Qed.

Lemma open_served_step s l s' : open_served s → step s l s' → open_served s'.
Proof.
  intros Ho Hst f Hf. destruct (step_items _ _ _ Hst) as (it & new & rest & H1 & H2 & Hl & Hfs & _).
  setoid_rewrite H2. setoid_rewrite elem_of_app.
  destruct (open_before _ _ _ _ Hfs Hf) as [Hold|(-> & t & x & y & p & k & tg & ->)].
  - destruct (Ho f Hold) as (it0 & Hin & Hle). rewrite H1 in Hin. apply elem_of_cons in Hin as [->|Hin]; [|by eauto].
    destruct (served_local _ _ _ _ Hl Hle) as [(it' & ? & ?)|(t & x & r & ->)]; [by eauto|].
    simpl in Hfs. rewrite Hfs in Hf. apply list_lookup_insert_Some in Hf as [(_ & ? & _)|[? _]]; done.
  - inversion Hl; subst. eexists. split; [left; by left | done].
Qed.

Lemma coroutine_runs s t x p tg :
  threads s !! t = Some (Thread (Some x) (Some (p, tg))) → coroutine p → ∃ s', step s (Run t) s'.
Proof. unfold step, exec. intros -> Hp. inversion Hp; simpl; unfold exec_thread; simpl; by eexists. Qed.

Lemma items_ready s x p tg : IReady x p tg ∈ items s ↔ (x, p, tg) ∈ ready s.
Proof.
  unfold items. rewrite !elem_of_app, !list_elem_of_fmap. split.
  - intros [Hin|[([[? ?] ?] & ? & ?)|([[? ?] ?] & ? & _)]]; simplify_eq/=; [|done].
    by destruct (cur_items_cur _ _ _ Hin) as (? & ? & ? & ? & ?).
  - intros Hin. right. left. by exists (x, p, tg).
Qed.

Lemma items_wait s x k tg : IWait x k tg ∈ items s → (x, k, tg) ∈ waiting s.
Proof.
  unfold items. rewrite !elem_of_app, !list_elem_of_fmap.
  intros [Hin|[([[? ?] ?] & ? & _)|([[? ?] ?] & ? & ?)]]; simplify_eq/=; [|done].
  by destruct (cur_items_cur _ _ _ Hin) as (? & ? & ? & ? & ?).
Qed.

(** A context with work that some thread runs gets on. *)
Lemma driver_runs s t x c p tg :
  all_good s → threads s !! t = Some (Thread (Some x) c) → (x, p, tg) ∈ ready s → ∃ s', step s (Run t) s'.
Proof.
  intros Hg Ht Hin. destruct c as [[q tg']|].
  - assert (Hq : good_item (length (futs s)) (ICur t (Some x) q tg')) by (eapply Forall_forall; [exact Hg | by apply items_cur]).
    eapply coroutine_runs; [exact Ht | apply Hq].
  - destruct (take_first_Some _ _ _ _ Hin) as [[[q tg'] l'] Hl]. unfold step, exec. rewrite Ht. simpl.
    unfold exec_thread. simpl. rewrite Hl. by eexists.
Qed.

Lemma served_runs `{!Inhabited IO} s f it :
  all_good s → all_driven s → it ∈ items s → leads f (item_target it) → ∃ l s', step s l s'.
Proof.
  intros Hg Hd Hin Hf. assert (Hit : good_item (length (futs s)) it) by (by eapply Forall_forall).
  destruct it as [t [x|] p tg|x p tg|x k tg]; simpl in *.
  - apply items_cur in Hin. destruct (coroutine_runs s t x p tg Hin) as [s' ?]; [apply Hit | eauto].
  - by destruct Hit as [-> _].
  - apply items_ready in Hin. destruct (Hd x) as (t & c & Ht); [apply Hit|].
    destruct (driver_runs s t x c p tg Hg Ht Hin) as [s' ?]. eauto.
  - apply items_wait, list_elem_of_lookup in Hin as [i Hi]. exists (Complete i inhabitant). unfold step, exec.
    rewrite Hi. simpl. by eexists.
Qed.

Definition unfinished (th : thread) : bool := match drives th, cur th with None, Some _ => true | _, _ => false end.

Lemma progress `{!Inhabited IO} s :
  all_good s → open_served s → all_driven s →
  (∀ th, th ∈ threads s → unfinished th = false) ∨ ∃ l s', step s l s'.
Proof.
  intros Hg Ho Hd. destruct (existsb unfinished (threads s)) eqn:He; [right|left].
  - apply existsb_exists in He as (th & Hth & Hu). apply list_elem_of_In, list_elem_of_lookup in Hth as [t Ht].
    destruct th as [[x|] [[p tg]|]]; try done.
    assert (Hit : good_item (length (futs s)) (ICur t None p tg)) by (eapply Forall_forall; [exact Hg | by apply items_cur]).
    destruct Hit as [-> [Hp|(f & k & -> & Hf & Hk)]].
    + exists (Run t). unfold step, exec. rewrite Ht. inversion Hp; simpl; unfold exec_thread; simpl; by eexists.
    + destruct (lookup_lt_is_Some_2 _ _ Hf) as [[r|] Hr].
      * exists (Run t). unfold step, exec. rewrite Ht. simpl. unfold exec_thread. simpl. rewrite Hr. by eexists.
      * destruct (Ho f Hr) as (it & Hin & Hle). by eapply served_runs.
  - intros th Hth. destruct (unfinished th) eqn:Hu; [|done]. assert (existsb unfinished (threads s) = true); [|congruence].
    apply existsb_exists. exists th. split; [by apply list_elem_of_In | done].
Qed.
End returns.

(** Threads at the start: inside run(), or about to make blocking calls. *)
Definition starting (D : list ctx) (th : thread) : Prop :=
  match th with
  | Thread (Some _) c => c = None
  | Thread None (Some (p, tg)) => tg = TNone ∧ caller D p ∧ ∃ n, bnd n p
  | Thread None None => True
  end.

Lemma starting_items D t l :
  Forall (starting D) l → Forall (good_item D 0) (cur_items t l) ∧ ∃ n, total (cur_items t l) n.
Proof.
  intros Hl. revert t. induction Hl as [|[[x|] [[p tg]|]] l Hth Hl IH]; intros t; unfold cur_item; simpl in *;
    try (by apply IH); [split; [constructor | exists 0; constructor] | done |].
  destruct (IH (S t)) as [IH1 [n IHn]], Hth as (-> & Hp & [b Hb]). split.
  - constructor; [split; [done | by left] | done].
  - eexists. constructor; [by constructor; [|constructor] | exact IHn].
Qed.


(** *** What a blocking call returns *)

(** [execute] run from start to end, whatever its I/O yields. *)
Inductive eval : prog → M → R → M → Prop :=
| e_done r m : eval (PDone r) m r m
| e_access u k m r m' : eval (k m) (u m) r m' → eval (PAccess u k) m r m'
| e_await k m e r m' : eval (k e) m r m' → eval (PAwait k) m r m'.

Section one_call.
Context (ex : prog) (m : M).

Definition call_threads (c d : option (prog * target)) : list thread := [Thread (Some io) c; Thread None d].
Definition blocked : option (prog * target) := Some (PGet 0 PDone, TNone).
Definition resume : target := TCont io PDone (TFut 0).

(** [p] in members [m1] is what is left of [ex]. *)
Definition rest_of (p : prog) (m1 : M) : Prop := client_code p ∧ ∀ r m2, eval p m1 r m2 → eval ex m r m2.

(** The stages of [client.get(...)] on a thread of its own. *)
Inductive stage : state → Prop :=
| st_start : stage (State (call_threads None (Some (get ex PDone, TNone))) [] [] [] m)
| st_spawned : stage (State (call_threads None blocked) [(io, async_get ex, TFut 0)] [] [None] m)
| st_async : stage (State (call_threads (Some (async_get ex, TFut 0)) blocked) [] [] [None] m)
| st_ready p m1 : rest_of p m1 → stage (State (call_threads None blocked) [(io, p, resume)] [] [None] m1)
| st_runs p m1 : rest_of p m1 → stage (State (call_threads (Some (p, resume)) blocked) [] [] [None] m1)
| st_waits k m1 : (∀ e, rest_of (k e) m1) → stage (State (call_threads None blocked) [] [(io, k, resume)] [None] m1)
| st_back r m1 : eval ex m r m1 → stage (State (call_threads None blocked) [(io, PDone r, TFut 0)] [] [None] m1)
| st_ends r m1 : eval ex m r m1 → stage (State (call_threads (Some (PDone r, TFut 0)) blocked) [] [] [None] m1)
| st_set r m1 : eval ex m r m1 → stage (State (call_threads None blocked) [] [] [Some r] m1)
| st_got r m1 : eval ex m r m1 → stage (State (call_threads None (Some (PDone r, TNone))) [] [] [Some r] m1)
| st_over r m1 : eval ex m r m1 → stage (State (call_threads None None) [] [] [Some r] m1).

Lemma rest_runs p m1 s' l :
  rest_of p m1 → step (State (call_threads (Some (p, resume)) blocked) [] [] [None] m1) l s' → stage s'.
Proof.
  intros [Hc Hp] Hst. destruct l as [[|[|t]]|i e]; try done. unfold step in Hst. cbn in Hst.
  destruct Hc as [r|u k Hk|k Hk]; simplify_eq/=.
  - apply st_back, Hp. constructor.
  - apply (st_runs (k m1) (u m1)). split; [done|]. intros r m2 He. apply Hp. by constructor.
  - apply (st_waits k m1). intros e. split; [done|]. intros r m2 He. apply Hp. by econstructor.
Qed.

Lemma stage_step s l s' : client_code ex → stage s → step s l s' → stage s'.
Proof.
  intros Hex Hs Hst. destruct Hs as [| | |p m1 Hp|p m1 Hp|k m1 Hk| | | | |];
    try (by eapply rest_runs); destruct l as [[|[|t]]|i e]; unfold step in Hst; cbn in Hst; simplify_eq/=;
    try (by constructor); try (by rewrite lookup_nil in Hst).
  destruct i as [|i]; simplify_eq/=. by apply st_ready.
Qed.
End one_call.


(** *** examples/async_market_data_example.cpp *)

(** The context of main's own io_context. *)
Definition ioc : ctx := 1.

(** An asynchronous endpoint of [MarketDataClient]: a request, and the
    parsing of its response. *)
Definition async_endpoint (execute : prog) (parse : R → R) : prog := async_request execute (λ resp, PDone (parse resp)).

Definition fetch_market_data (price_ticker order_book ticker_24h : prog) (parse : R → R) : prog :=
  PSpawn ioc (async_endpoint price_ticker parse) (λ ticker_fut,
  PSpawn ioc (async_endpoint order_book parse) (λ book_fut,
  PGet ticker_fut (λ _, PGet book_fut (λ _, async_request ticker_24h (λ resp, PDone (parse resp)))))).

(** main has spawned the coroutine and is inside [ioc.run()]; the first
    thread is the client's. *)
Definition example_main (fetch : prog) (m : M) : state :=
  State [Thread (Some io) None; Thread (Some ioc) None] [(ioc, fetch, TFut 0)] [] [None] m.

(** The asynchronous example blocks on a future whose coroutine is queued on the
    io_context that the blocked thread runs: after three steps nothing can happen, no
    request has been sent and main never gets its result. *)
Theorem async_example_hangs price_ticker order_book ticker_24h parse m tr s :
  run step (example_main (fetch_market_data price_ticker order_book ticker_24h parse) m) tr s →
  futs s !! 0 = Some None ∧ mem s = m ∧ length tr ≤ 3 ∧ (length tr = 3 → ∀ l, exec l s = None).
Proof.
  set (ts := λ c, [Thread (Some io) None; Thread (Some ioc) c]).
  set (tk := (ioc, async_endpoint price_ticker parse, TFut 1)). set (bk := (ioc, async_endpoint order_book parse, TFut 2)).
  set (rest := λ f1 f2, PGet f1 (λ _, PGet f2 (λ _, async_request ticker_24h (λ resp, PDone (parse resp))))).
  intros Hr. assert (Hs : match tr with
    | [] => s = example_main (fetch_market_data price_ticker order_book ticker_24h parse) m
    | [_] => s = State (ts (Some (fetch_market_data price_ticker order_book ticker_24h parse, TFut 0))) [] [] [None] m
    | [_; _] => s = State (ts (Some (PSpawn ioc (async_endpoint order_book parse) (rest 1), TFut 0))) [tk] [] [None; None] m
    | [_; _; _] => s = State (ts (Some (rest 1 2, TFut 0))) [tk; bk] [] [None; None; None] m
    | _ => False end).
  { revert tr s Hr. apply run_invariant; [done|]. intros tr s l s' _ IH Hst.
    destruct tr as [|l1 [|l2 [|l3 [|l4 tr]]]]; simpl in *; try done; subst s;
      destruct l as [[|[|t]]|i e]; cbn in Hst; try discriminate; try (by injection Hst as <-);
      by rewrite lookup_nil in Hst. }
  destruct tr as [|l1 [|l2 [|l3 [|l4 tr]]]]; try done; subst s; simpl; split_and!; try done; try lia.
  intros _ [[|[|t]]|i e]; try done.
Qed.
End exe.

Arguments prog : clear implicits.
Arguments target : clear implicits.
Arguments thread : clear implicits.
Arguments state : clear implicits.
Arguments label : clear implicits.
End Exe.

(** ** Examples *)
Module ExeWitness.
Import Exe.

(** A request that counts itself and adds what it reads. *)
Definition execute : prog nat nat nat := PAccess S (λ _, PAwait (λ e, PAccess (λ m, m + e) (λ m, PDone (m + e)))).

Lemma execute_client : client_code execute.
Proof. repeat constructor. Qed.

(** A blocking call on a plain thread beside the client's own. *)
Definition two_threads : list (thread nat nat nat) := call_threads None (Some (get execute PDone, TNone)).
Definition whole_call : list (label nat) :=
  [Run 1; Run 0; Run 0; Run 0; Run 0; Run 0; Complete 0 5; Run 0; Run 0; Run 0; Run 0; Run 0; Run 1].


Lemma members_confined_witness :
  ∃ s u k tg, run step (State two_threads [] [] [] 10) [Run 1; Run 0; Run 0; Run 0] s ∧
    threads s !! 0 = Some (Thread (Some io) (Some (PAccess u k, tg))) ∧
    ∃ c, two_threads !! 0 = Some (Thread (Some io) c).
Proof.
  destruct (exec_all [Run 1; Run 0; Run 0; Run 0] (State two_threads [] [] [] 10)) as [s|] eqn:Hs; [|vm_compute in Hs; discriminate].
  assert (Ht : ∃ u k tg, threads s !! 0 = Some (Thread (Some io) (Some (PAccess u k, tg))))
    by (vm_compute in Hs; injection Hs as <-; do 3 eexists; reflexivity).
  destruct Ht as (u & k & tg & Ht). apply exe_exec_run in Hs. exists s, u, k, tg. split; [exact Hs|]. split; [exact Ht|].
  apply (members_confined (State two_threads [] [] [] 10) [Run 1; Run 0; Run 0; Run 0] s 0 (Some io) u k tg).
  - unfold items. simpl. constructor; [|constructor]. split; [|done]. apply uc_get; [apply execute_client | constructor].
  - exact Hs.
  - exact Ht.
Defined.


(** A coroutine on main's context that waits for another one there. *)
Definition own : list (thread nat nat nat) :=
  [Thread (Some io) None; Thread (Some ioc) (Some (sync_await ioc (async_get execute) PDone, TNone))].

Lemma sync_await_on_own_thread_hangs_witness :
  ∃ s, step (State own [] [] [] 10) (Run 1) s ∧ exec (Run 1) s = None ∧ futs s !! 0 = Some None.
Proof.
  destruct (exec (Run 1) (State own [] [] [] 10)) as [s|] eqn:Hs; [|vm_compute in Hs; discriminate].
  exists s. split; [exact Hs|].
  destruct (sync_await_on_own_thread_hangs (State own [] [] [] 10) [] (State own [] [] [] 10) 1 ioc (async_get execute) PDone
              TNone s [] s) as (_ & Hf & He).
  - intros it f Hin Hf. unfold items in Hin. simpl in Hin. apply list_elem_of_singleton in Hin as ->. done.
  - apply run_nil.
  - intros [|[|t']] c Ht; simplify_eq/=. done.
  - reflexivity.
  - exact Hs.
  - apply run_nil.
  - split; [exact He | exact Hf].
Defined.

Lemma async_example_hangs_witness :
  ∃ s, run step (example_main (fetch_market_data execute execute execute id) 10) [Run 1; Run 1; Run 1] s ∧
    (∀ l, exec l s = None) ∧ mem s = 10.
Proof.
  destruct (exec_all [Run 1; Run 1; Run 1] (example_main (fetch_market_data execute execute execute id) 10)) as [s|] eqn:Hs;
    [|vm_compute in Hs; discriminate].
  apply exe_exec_run in Hs. exists s. split; [exact Hs|].
  destruct (async_example_hangs execute execute execute id 10 [Run 1; Run 1; Run 1] s Hs) as (_ & Hm & _ & Hl).
  split; [by apply Hl | exact Hm].
Defined.
End ExeWitness.
