(* ===== verification/HttpLife.v ===== *)
(** * Destroying an HttpClient

    [~Impl] of src/rest/detail/http_client.cpp runs beside whatever the
    other threads do: it drops the work guard, stops the io_context, joins
    the I/O thread and lets the members go; the destructor of the
    io_context destroys the coroutines that are still suspended on it,
    which breaks the promises behind them.  The threads, coroutines and
    futures are those of Executors.v; this file adds the destructor as
    steps of its own.  A step of a thread that uses the client after it is
    gone, and joining the I/O thread from itself, are faults. *)

From S2P Require Import Prelude Errors Executors.
Import Exe.
Local Open Scope nat_scope.

Module HttpLife.
Section life.
Context {M IO R : Type}.
(** What get() of a future whose promise was destroyed yields:
    std::future_error(broken_promise). *)
Context (broken : R).
(** The thread that runs the destructor. *)
Context (owner : nat).

(** Before ioc_.stop(); after it; after io_thread_.join(); after the
    members are destroyed. *)
Inductive phase : Type := Alive | Stopped | Joined | Gone.

#[global] Instance phase_eq_dec : EqDecision phase.
Proof. solve_decision. Defined.

Record life : Type := Life { sys : state M IO R; ph : phase; faulted : bool }.

Inductive event : Type :=
| Step (l : label IO)        (* a thread, or an I/O operation completes *)
| Stop                           (* work_guard_.reset(); ioc_.stop() *)
| Exit (t : nat)                 (* run() returns on a stopped context *)
| Join                           (* io_thread_.join() returns *)
| Destroy.                       (* the members' destructors *)

(** The promises at the end of a destroyed chain of coroutines. *)
Fixpoint break (tg : target M IO R) (fs : list (option R)) : list (option R) :=
  match tg with
  | TNone => fs
  | TFut f => <[f := Some broken]> fs
  | TCont _ _ tg => break tg fs
  end.

Definition on_io {A} (fr : ctx * A * target M IO R) : bool := bool_decide (fr.1.1 = io).
Definition off_io {A} (fr : ctx * A * target M IO R) : bool := negb (on_io fr).

(** ~io_context: what is queued and what waits is destroyed. *)
Definition destroy_io (s : state M IO R) : state M IO R :=
  let gone := (snd <$> List.filter on_io (ready s)) ++ (snd <$> List.filter on_io (waiting s)) in
  State (threads s) (List.filter off_io (ready s)) (List.filter off_io (waiting s))
        (foldr break (futs s) gone) (mem s).

(** Code that goes through [impl_] or posts to its io_context. *)
Definition uses_client (c : option (prog M IO R * target M IO R)) : bool :=
  match c with
  | Some (PAccess _ _, _) => true
  | Some (PCall x _ _, _) | Some (PSpawn x _ _, _) => bool_decide (x = io)
  | Some (PDone _, TCont x _ _) => bool_decide (x = io)
  | _ => false
  end.

Definition exec_life (l : event) (s : life) : option life :=
  if faulted s then None else
  match l with
  | Step (Run t) =>
      th ← threads (sys s) !! t;
      if bool_decide (ph s ≠ Alive ∧ drives th = Some io ∧ cur th = None) then None
      else if bool_decide (ph s = Gone) && uses_client (cur th) then Some (Life (sys s) (ph s) true)
      else s' ← exec (Run t) (sys s); Some (Life s' (ph s) false)
  | Step (Complete i e) =>
      fr ← waiting (sys s) !! i;
      if bool_decide (ph s ≠ Alive) && on_io fr then None
      else s' ← exec (Complete i e) (sys s); Some (Life s' (ph s) false)
  | Stop => if decide (ph s = Alive) then Some (Life (sys s) Stopped false) else None
  | Exit t =>
      match ph s, threads (sys s) !! t with
      | Stopped, Some (Thread (Some 0) None) => Some (Life (set_thread t (Thread None None) (sys s)) Stopped false)
      | _, _ => None
      end
  | Join =>
      if decide (ph s = Stopped) then
        match threads (sys s) !! owner with
        | Some (Thread (Some 0) _) => Some (Life (sys s) (ph s) true)   (* joins itself *)
        | _ => if forallb (λ th, bool_decide (drives th ≠ Some io)) (threads (sys s))
               then Some (Life (sys s) Joined false) else None
        end
      else None
  | Destroy => if decide (ph s = Joined) then Some (Life (destroy_io (sys s)) Gone false) else None
  end.

Definition life_step (s : life) (l : event) (s' : life) : Prop := exec_life l s = Some s'.

(** Nothing runs the client's io_context. *)
Definition undriven (s : state M IO R) : Prop := ∀ th, th ∈ threads s → drives th ≠ Some io.

Definition late (p : phase) : bool := match p with Joined | Gone => true | _ => false end.

Lemma exit_items (s : state M IO R) t x :
  threads s !! t = Some (Thread x None) → items (set_thread t (Thread None None) s) ≡ₚ items s.
Proof.
  intros Ht. destruct (cur_items_insert _ _ _ 0 Ht) as (rest & H1 & H2).
  unfold items. simpl. by rewrite H1, (H2 (Thread None None)).
Qed.

Lemma filter_sublist {A} (f : A → bool) (l : list A) : List.filter f l `sublist_of` l.
Proof. induction l as [|a l IH]; simpl; [done|]. destruct (f a); by constructor. Qed.

Lemma destroy_items (s : state M IO R) : items (destroy_io s) `sublist_of` items s.
Proof.
  unfold items, destroy_io. simpl. apply sublist_app; [done|].
  apply sublist_app; apply fmap_sublist, filter_sublist.
Qed.

Lemma Forall_sublist {A} (P : A → Prop) l l' : l `sublist_of` l' → Forall P l' → Forall P l.
Proof. rewrite !Forall_forall. intros Hs Hf a Ha. apply Hf. by eapply elem_of_sublist. Qed.

(** What a step of the destructor does to the coroutines and threads. *)
Lemma life_step_cases s l s' :
  life_step s l s' →
  faulted s = false ∧
  ((∃ a, ph s' = ph s ∧ faulted s' = false ∧ step (sys s) a (sys s') ∧
      (ph s = Gone → ∀ t th, a = Run t → threads (sys s) !! t = Some th → uses_client (cur th) = false)) ∨
   (ph s' = ph s ∧ sys s' = sys s ∧ faulted s' = true ∧ ∃ t th, threads (sys s) !! t = Some th ∧
      ((ph s = Gone ∧ uses_client (cur th) = true) ∨ (t = owner ∧ drives th = Some io))) ∨
   (ph s = Alive ∧ ph s' = Stopped ∧ sys s' = sys s ∧ faulted s' = false) ∨
   (∃ t, threads (sys s) !! t = Some (Thread (Some io) None) ∧ ph s = Stopped ∧ ph s' = Stopped ∧
         faulted s' = false ∧ sys s' = set_thread t (Thread None None) (sys s)) ∨
   (ph s = Stopped ∧ ph s' = Joined ∧ sys s' = sys s ∧ undriven (sys s) ∧ faulted s' = false) ∨
   (ph s = Joined ∧ ph s' = Gone ∧ sys s' = destroy_io (sys s) ∧ faulted s' = false)).
Proof.
  unfold life_step, exec_life. destruct (faulted s); [done|]. intros Hl. split; [done|].
  destruct l as [[t|i e]| |t| |].
  - destruct (threads (sys s) !! t) as [th|] eqn:Ht; simpl in Hl; [|done]. case_match; [done|].
    case_match eqn:Hu.
    { simplify_eq. right; left. apply andb_true_iff in Hu as [Hp%bool_decide_eq_true Hu].
      split_and!; try done. exists t, th. auto. }
    left. exists (Run t).
    change (exec (Run t) (sys s) ≫= (λ s1, Some (Life s1 (ph s) false)) = Some s') in Hl.
    destruct (exec (Run t) (sys s)) eqn:He; simplify_eq/=. split_and!; try done.
    intros Hg t' th' [= <-] Ht'. simplify_eq. by rewrite Hg in Hu.
  - destruct (waiting (sys s) !! i) as [[[x k] tg]|] eqn:Hw; simpl in Hl; [|done]. case_match; [done|].
    left. exists (Complete i e).
    change (exec (Complete i e) (sys s) ≫= (λ s1, Some (Life s1 (ph s) false)) = Some s') in Hl.
    destruct (exec (Complete i e) (sys s)) eqn:He; by simplify_eq/=.
  - case_decide; simplify_eq. right; right; left. by split_and!.
  - destruct (ph s) eqn:Hp; try done. destruct (threads (sys s) !! t) as [[[[|]|] [|]]|] eqn:Ht; simplify_eq.
    do 3 right. left. by exists t.
  - case_decide as Hp; [|done]. set (own := threads (sys s) !! owner) in Hl.
    assert (Hc : (∃ c, own = Some (Thread (Some io) c) ∧ s' = Life (sys s) (ph s) true) ∨
                 (forallb (λ th, bool_decide (drives th ≠ Some io)) (threads (sys s)) = true ∧ s' = Life (sys s) Joined false)).
    { destruct own as [[[[|]|] ?]|]; try (case_match; simplify_eq; by right). simplify_eq. left. by eexists. }
    destruct Hc as [(c & Hc & ->)|[Hall ->]].
    { right; left. split_and!; try done. exists owner, (Thread (Some io) c). auto. }
     do 4 right. left. split_and!; try done.
    intros th Hth. rewrite forallb_forall in Hall. specialize (Hall th (proj1 (list_elem_of_In _ _) Hth)).
    by apply bool_decide_eq_true in Hall.
  - case_decide; simplify_eq. do 5 right. by split_and!.
Qed.

(** *** The members are not used after the join *)

Lemma undriven_step s l s' : undriven s → step s l s' → undriven s'.
Proof.
  intros Hu Hst th Hth. destruct (step_items _ _ _ Hst) as (? & ? & ? & _ & _ & _ & _ & Hd & _).
  apply list_elem_of_lookup in Hth as [t Ht]. destruct th as [y c].
  destruct (threads_drive _ _ _ _ _ Hd Ht) as [c' Ht']. simpl.
  apply (Hu (Thread y c')). by eapply list_elem_of_lookup_2.
Qed.

Lemma late_undriven s l s' :
  life_step s l s' → (late (ph s) = true → undriven (sys s)) → late (ph s') = true → undriven (sys s').
Proof.
  intros (_ & [(a & Hp & _ & Hst & _)|[(Hp & -> & _)|[(_ & Hp & _)|[(t & _ & _ & Hp & _)|[(_ & _ & -> & Hu & _)|(Hp & _ & -> & _)]]]]])%life_step_cases
    Hi Hl; rewrite ?Hp in *; try done; auto.
  eapply undriven_step; [|exact Hst]. auto.
Qed.

Lemma placed_step s l s' : life_step s l s' → Forall placed_item (items (sys s)) → Forall placed_item (items (sys s')).
Proof.
  intros (_ & [(a & _ & _ & Hst & _)|[(_ & -> & _)|[(_ & _ & -> & _)|[(t & Ht & _ & _ & _ & ->)|[(_ & _ & -> & _)|(_ & _ & -> & _)]]]]])%life_step_cases
    Hi; try done.
  - eapply (items_invariant placed_item (sys s)); [apply placed_local | done | by apply run_one].
  - by rewrite (exit_items _ _ _ Ht).
  - apply (Forall_sublist _ _ _ (destroy_items (sys s)) Hi).
Qed.

(** Once ~Impl has joined the I/O thread no thread is about to access the pool or the
    TLS session cache, so destroying them races with nothing, whatever requests were in
    flight. *)
Theorem destruction_confined s0 tr s t x u k tg :
  Forall fresh_item (items s0) → run life_step (Life s0 Alive false) tr s → late (ph s) = true →
  threads (sys s) !! t ≠ Some (Thread x (Some (PAccess u k, tg))).
Proof.
  intros Hf Hr Hl Ht.
  assert (Hp : Forall placed_item (items (sys s)) ∧ (late (ph s) = true → undriven (sys s))).
  { clear Hl Ht. revert tr s Hr.
    apply (run_invariant life_step (λ _ s, Forall placed_item (items (sys s)) ∧ (late (ph s) = true → undriven (sys s)))).
    - split; [|done]. eapply Forall_impl; [exact Hf | apply fresh_placed].
    - intros tr s l s' _ [Hp Hu] Hst. split; [by eapply placed_step | by eapply late_undriven]. }
  destruct Hp as [Hp Hu]. apply items_cur in Ht as Hin. rewrite Forall_forall in Hp.
  apply Hp in Hin as [Hin _]. inversion Hin; subst.
  apply (Hu Hl (Thread (Some io) (Some (PAccess u k, tg)))); [by eapply list_elem_of_lookup_2 | done].
Qed.

(** *** Destruction beside threads that make blocking calls *)

Lemma break_open tg fs f : break tg fs !! f = Some None → fs !! f = Some None ∧ ¬ leads f tg.
Proof.
  induction tg as [|g|x k tg IH]; simpl; [auto | |done].
  intros [(_ & ? & _)|[Hne Hf]]%list_lookup_insert_Some; done.
Qed.

Lemma breaks_open tgs fs f :
  foldr break fs tgs !! f = Some None → fs !! f = Some None ∧ ∀ tg, tg ∈ tgs → ¬ leads f tg.
Proof.
  induction tgs as [|tg tgs IH]; simpl; [intros ?; split; [done | set_solver]|].
  intros [Hf Hn]%break_open. destruct (IH Hf) as [? Hall]. split; [done|].
  intros tg' [->|?]%elem_of_cons; auto.
Qed.

Lemma breaks_length tgs fs : length (foldr break fs tgs) = length fs.
Proof.
  assert (Hb : ∀ tg l, length (break tg l) = length l)
    by (induction tg; intros l; simpl; [done | apply length_insert | done]).
  induction tgs as [|tg tgs IH]; simpl; [done|]. by rewrite Hb.
Qed.

Lemma filter_on_io {A} (l : list (ctx * A * target M IO R)) fr :
  fr ∈ l → fr.1.1 = io → fr ∈ List.filter on_io l.
Proof.
  intros Hin Hio. apply list_elem_of_In, filter_In. split; [by apply list_elem_of_In|].
  by apply bool_decide_eq_true.
Qed.

Lemma filter_off_io {A} (l : list (ctx * A * target M IO R)) :
  (∀ fr, fr ∈ l → fr.1.1 = io) → List.filter off_io l = [].
Proof.
  induction l as [|fr l IH]; simpl; intros Hl; [done|]. unfold off_io at 1, on_io.
  rewrite bool_decide_true by (apply Hl; set_solver). simpl. apply IH. set_solver.
Qed.

(** Callers and the client's own thread; [calls_ok] says every promise
    has somebody to keep it until the client is gone, and none is left
    open then. *)
Record calls_ok (s : life) : Prop := {
  co_good : all_good [io] (sys s);
  co_served : open_served (sys s);
  co_late : late (ph s) = true → undriven (sys s);
  co_owner : ∀ c, threads (sys s) !! owner ≠ Some (Thread (Some io) c);
  co_gone : ph s = Gone → ready (sys s) = [] ∧ waiting (sys s) = [] ∧ ∀ f, futs (sys s) !! f ≠ Some None
}.

(** A thread that runs something once nothing drives the client. *)
Lemma undriven_cur s t x p tg :
  all_good [io] s → undriven s → threads s !! t = Some (Thread x (Some (p, tg))) →
  x = None ∧ tg = TNone ∧ (caller [io] p ∨ ∃ f k, p = PGet f k ∧ f < length (futs s) ∧ ∀ r, caller [io] (k r)).
Proof.
  intros Hg Hu Ht. apply items_cur in Ht as Hin. unfold all_good in Hg. rewrite Forall_forall in Hg.
  apply Hg in Hin. destruct x as [y|]; [|by destruct Hin].
  destruct Hin as (->%list_elem_of_singleton & _). exfalso.
  apply (Hu (Thread (Some io) (Some (p, tg)))); [by eapply list_elem_of_lookup_2 | done].
Qed.

(** Its next step if it does not use the client. *)
Lemma gone_step s l s' :
  all_good [io] s → undriven s → ready s = [] → waiting s = [] → step s l s' →
  (∀ t th, l = Run t → threads s !! t = Some th → uses_client (cur th) = false) →
  ready s' = [] ∧ waiting s' = [] ∧ futs s' = futs s.
Proof.
  intros Hg Hu Hr Hw Hst Hn. unfold step, exec in Hst. destruct l as [t|i e]; [|by rewrite Hw in Hst].
  destruct (threads s !! t) as [[x [[p tg]|]]|] eqn:Ht; simpl in Hst; [| |done].
  - destruct (undriven_cur _ _ _ _ _ Hg Hu Ht) as (-> & -> & Hp). specialize (Hn t _ eq_refl Ht). simpl in Hn.
    unfold exec_thread in Hst. destruct Hp as [Hp|(f & k & -> & _)].
    + destruct Hp as [r|y p k Hy _ _]; [by simplify_eq/=|]. apply list_elem_of_singleton in Hy as ->. done.
    + simpl in Hst. by repeat case_match; simplify_eq.
  - unfold exec_thread in Hst. simpl in Hst. rewrite Hr in Hst. by destruct x.
Qed.

Lemma good_perm (s s' : state M IO R) :
  items s' ≡ₚ items s → futs s' = futs s → all_good [io] s → open_served s → all_good [io] s' ∧ open_served s'.
Proof.
  intros Hi Hf Hg Ho. unfold all_good. rewrite Hi, Hf. split; [done|]. intros f. rewrite Hf. intros Hop.
  destruct (Ho f Hop) as (it & Hin & ?). exists it. by rewrite Hi.
Qed.

(** Destroying the io_context leaves no promise open. *)
Lemma destroy_closes s :
  all_good [io] s → open_served s → undriven s →
  let s' := destroy_io s in
  all_good [io] s' ∧ ready s' = [] ∧ waiting s' = [] ∧ ∀ f, futs s' !! f ≠ Some None.
Proof.
  intros Hg Ho Hu s'. assert (Hall := Hg). unfold all_good in Hall. rewrite Forall_forall in Hall. split_and!.
  - unfold all_good, s'. simpl. rewrite breaks_length. apply (Forall_sublist _ _ _ (destroy_items s) Hg).
  - apply filter_off_io. intros [[x p] tg] Hin. apply items_ready, Hall in Hin.
    destruct Hin as (Hx & _). by apply list_elem_of_singleton in Hx.
  - apply filter_off_io. intros [[x k] tg] Hin.
    assert (Hit : IWait x k tg ∈ items s).
    { unfold items. rewrite !elem_of_app. right. right. apply list_elem_of_fmap. by exists (x, k, tg). }
    apply Hall in Hit as (Hx & _). by apply list_elem_of_singleton in Hx.
  - intros f [Hop Hn]%breaks_open. destruct (Ho f Hop) as (it & Hin & Hle). pose proof (Hall it Hin) as Hit.
    destruct it as [t x p tg|x p tg|x k tg]; simpl in Hle.
    + apply items_cur in Hin. by destruct (undriven_cur _ _ _ _ _ Hg Hu Hin) as (_ & -> & _).
    + destruct Hit as (->%list_elem_of_singleton & _). apply (Hn tg); [|done]. apply elem_of_app. left.
      apply list_elem_of_fmap. exists (io, p, tg). split; [done|]. apply filter_on_io; [by apply items_ready | done].
    + destruct Hit as (->%list_elem_of_singleton & _). apply (Hn tg); [|done]. apply elem_of_app. right.
      apply list_elem_of_fmap. exists (io, k, tg). split; [done|]. apply filter_on_io; [by apply items_wait | done].
Qed.

Lemma calls_ok_step s l s' : calls_ok s → life_step s l s' → calls_ok s'.
Proof.
  intros Hc Hst. pose proof (late_undriven _ _ _ Hst (co_late _ Hc)) as Hlate. destruct Hc as [Hg Ho Hu Hown Hgone].
  apply life_step_cases in Hst as (_ & [(a & Hp & _ & Hst & Hn)|[(Hp & Hs & _)|[(_ & Hp & Hs & _)|[(t & Ht & _ & Hp & _ & Hs)|[(_ & Hp & Hs & _)|(Hp0 & Hp & Hs & _)]]]]]).
  - split; [by eapply all_good_step | by eapply open_served_step | done | |].
    + destruct (step_items _ _ _ Hst) as (? & ? & ? & _ & _ & _ & _ & Hd & _).
      intros c Ht. destruct (threads_drive _ _ _ _ _ Hd Ht) as [c' ?]. by apply (Hown c').
    + rewrite Hp. intros Hph. destruct (Hgone Hph) as (Hr & Hw & Hf). rewrite Hph in Hu.
      destruct (gone_step _ _ _ Hg (Hu eq_refl) Hr Hw Hst (Hn Hph)) as (? & ? & ->). done.
  - rewrite <- Hs in *. rewrite <- Hp in *. by split.
  - rewrite <- Hs in *. split; try done. by rewrite Hp.
  - destruct (good_perm (sys s) (sys s')) as [??]; [rewrite Hs; by eapply exit_items | by rewrite Hs | done | done |].
    split; try done; [|by rewrite Hp]. intros c. rewrite Hs. simpl.
    intros [(_ & ? & _)|[_ ?]]%list_lookup_insert_Some; [done | by apply (Hown c)].
  - rewrite <- Hs in *. split; try done. by rewrite Hp.
  - rewrite Hp0 in Hu. destruct (destroy_closes (sys s) Hg Ho (Hu eq_refl)) as (H1 & H2 & H3 & H4).
    rewrite <- Hs in *. split; try done; [|by rewrite Hs]. intros f Hf. by destruct (H4 f).
Qed.

(** How long it can take: the coroutines' own steps, the I/O threads that
    have to return, the steps of the destructor. *)
Fixpoint drivers (l : list (option ctx)) : nat :=
  match l with [] => 0 | d :: l => (if bool_decide (d = Some io) then 1 else 0) + drivers l end.

Definition weight (p : phase) : nat := match p with Alive => 3 | Stopped => 2 | Joined => 1 | Gone => 0 end.

Definition left_over (s : life) : nat :=
  drivers (drives <$> threads (sys s)) + weight (ph s) + (if faulted s then 0 else 1).

Lemma drivers_exit l t (c : option (prog M IO R * target M IO R)) :
  l !! t = Some (Thread (Some io) c) → S (drivers (drives <$> <[t := Thread None None]> l)) = drivers (drives <$> l).
Proof. revert t. induction l as [|th l IH]; intros [|t] Ht; simplify_eq/=; [done|]. rewrite <- (IH t Ht). lia. Qed.

Lemma total_sublist (l l' : list (item (M := M) (IO := IO) (R := R))) n : l `sublist_of` l' → total l' n → ∃ n', total l n' ∧ n' ≤ n.
Proof.
  intros Hs. revert n. induction Hs as [|it l l' _ IH|it l l' _ IH]; intros n Ht; [by exists n|..];
    inversion Ht as [|c m ? ? Hc Hm]; subst; destruct (IH m Hm) as (n' & Hn' & ?).
  - exists (c + n'). split; [by constructor | lia].
  - exists n'. split; [done | lia].
Qed.

Lemma left_over_step s l s' n :
  total (items (sys s)) n → life_step s l s' →
  ∃ n', total (items (sys s')) n' ∧ n' + left_over s' < n + left_over s.
Proof.
  intros Ht Hst. unfold left_over.
  apply life_step_cases in Hst as (-> & [(a & -> & -> & Hst & _)|[(-> & -> & -> & _)|[(-> & -> & -> & ->)|[(t & Hth & -> & -> & -> & ->)|[(-> & -> & -> & _ & ->)|(-> & -> & -> & ->)]]]]]).
  - destruct (total_step _ _ _ _ Ht Hst) as (n' & ? & ?). exists n'. split; [done|].
    destruct (step_items _ _ _ Hst) as (? & ? & ? & _ & _ & _ & _ & -> & _). lia.
  - exists n. split; [done | lia].
  - exists n. split; [done | simpl; lia].
  - exists n. split; [by eapply total_perm; [symmetry; eapply exit_items|]|].
    pose proof (drivers_exit _ _ _ Hth). simpl. lia.
  - exists n. split; [done | simpl; lia].
  - destruct (total_sublist _ _ _ (destroy_items (sys s)) Ht) as (n' & ? & ?). exists n'. split; [done | simpl; lia].
Qed.

(** Until the client is gone and every caller has its answer, something
    can move. *)
Lemma life_progress s :
  calls_ok s → faulted s = false →
  (ph s = Gone ∧ ∀ th, th ∈ threads (sys s) → unfinished th = false) ∨ ∃ e s', life_step s e s'.
Proof.
  intros [Hg Ho Hu Hown Hgone] Hf. unfold life_step. destruct (ph s) eqn:Hp.
  - right. exists Stop. unfold exec_life. rewrite Hf, Hp. by eexists.
  - right. destruct (forallb (λ th, bool_decide (drives th ≠ Some io)) (threads (sys s))) eqn:Hd.
    + exists Join. unfold exec_life. rewrite Hf, Hp. simpl.
      destruct (threads (sys s) !! owner) as [[[[|]|] c]|] eqn:Ht; rewrite ?Hd; try by eexists.
    + assert (Hex : ∃ t c, threads (sys s) !! t = Some (Thread (Some io) c)).
      { clear -Hd. induction (threads (sys s)) as [|[x c] l IH]; simpl in Hd; [done|].
        destruct (decide (x = Some io)) as [->|]; [by exists 0, c|]. rewrite bool_decide_true in Hd by done.
        destruct (IH Hd) as (t & c' & ?). by exists (S t), c'. }
      destruct Hex as (t & [[p tg]|] & Ht).
      * exists (Step (Run t)). unfold exec_life. rewrite Hf, Ht, Hp. simpl. rewrite ?bool_decide_false by naive_solver.
        destruct (coroutine_runs [io] (sys s) t io p tg Ht) as [s1 Hs1].
        { apply items_cur in Ht. unfold all_good in Hg. rewrite Forall_forall in Hg. apply (Hg _ Ht). }
        unfold step, exec in Hs1. rewrite Hs1. by eexists.
      * exists (Exit t). unfold exec_life. rewrite Hf, Hp, Ht. by eexists.
  - right. exists Destroy. unfold exec_life. rewrite Hf, Hp. by eexists.
  - destruct (Hgone eq_refl) as (Hr & Hw & Hfu). specialize (Hu eq_refl).
    destruct (existsb unfinished (threads (sys s))) eqn:He; [right|left].
    + apply existsb_exists in He as (th & Hth & Hun). apply list_elem_of_In, list_elem_of_lookup in Hth as [t Ht].
      destruct th as [[x|] [[p tg]|]]; try done. destruct (undriven_cur _ _ _ _ _ Hg Hu Ht) as (_ & -> & Hc).
      exists (Step (Run t)). unfold exec_life. rewrite Hf, Ht, Hp. simpl. rewrite ?bool_decide_false by naive_solver.
      destruct Hc as [Hc|(f & k & -> & Hlt & _)].
      * destruct Hc as [r|x p k ->%list_elem_of_singleton _ _]; simpl; rewrite ?Ht; by eexists.
      * simpl. rewrite Ht. simpl. unfold exec_thread. simpl.
        destruct (lookup_lt_is_Some_2 _ _ Hlt) as [[r|] Hr']; [rewrite Hr'; by eexists | by destruct (Hfu f)].
    + split; [done|]. intros th Hth. destruct (unfinished th) eqn:Hun; [|done].
      assert (existsb unfinished (threads (sys s)) = true); [|congruence].
      apply existsb_exists. exists th. split; [by apply list_elem_of_In | done].
Qed.

Lemma fault_is_late_call s l s' :
  calls_ok s → life_step s l s' → faulted s' = true →
  ph s' = Gone ∧ ∃ t p k, threads (sys s') !! t = Some (Thread None (Some (PSpawn io p k, TNone))).
Proof.
  intros [Hg _ Hu Hown _] Hst Hf.
  apply life_step_cases in Hst as (_ & [(? & _ & ? & _)|[(Hp & Hs & _ & t & th & Ht & Hc)|[(_ & _ & _ & ?)|[(? & _ & _ & _ & ? & _)|[(_ & _ & _ & _ & ?)|(_ & _ & _ & ?)]]]]]);
    try congruence.
  destruct Hc as [[Hph Hc]|[-> Hd]]; [|destruct th as [x c]; simpl in Hd; subst; by destruct (Hown c)].
  rewrite Hp, Hs. split; [done|]. rewrite Hph in Hu. destruct th as [x [[p tg]|]]; [|done].
  destruct (undriven_cur _ _ _ _ _ Hg (Hu eq_refl) Ht) as (-> & -> & Hcl).
  destruct Hcl as [Hcl|(f & k & -> & _)]; [|done].
  destruct Hcl as [r|x p k ->%list_elem_of_singleton _ _]; [done|]. unfold sync_await in Ht. eauto.
Qed.

End life.
End HttpLife.

(** ** Example: a client destroyed under a blocked caller *)
Module HttpLifeWitness.
Import HttpLife ExeWitness.

(** Thread 0 runs the client's context, thread 1 calls get, thread 2
    destroys the client. *)
Definition threads3 : list (thread nat nat nat) := two_threads ++ [Thread None None].

(** The caller's request waits for its first I/O operation when the client
    is stopped; the caller then gets a broken promise (99). *)
Definition under_a_caller : list (event (IO := nat)) :=
  [Step (Run 1); Step (Run 0); Step (Run 0); Step (Run 0); Stop; Step (Run 0); Step (Run 0); Exit 0; Join; Destroy;
   Step (Run 1)].

Fixpoint exec_lives (es : list event) (s : life) : option (life (M := nat) (IO := nat) (R := nat)) :=
  match es with [] => Some s | e :: es => s' ← exec_life 99 2 e s; exec_lives es s' end.

Lemma exec_lives_run es s s' : exec_lives es s = Some s' → run (life_step 99 2) s es s'.
Proof.
  revert s. induction es as [|e es IH]; intros s; simpl; [intros [= ->]; constructor|].
  destruct (exec_life 99 2 e s) as [s1|] eqn:He; simpl; [|done]. intros H. eapply run_cons; [exact He | by apply IH].
Qed.

Definition destroyed : option life := exec_lives under_a_caller (Life (State threads3 [] [] [] 10) Alive false).

Example caller_released :
  (λ s, (ph s, threads (sys s) !! 1)) <$> destroyed = Some (Gone, Some (Thread None (Some (PDone 99, TNone)))).
Proof. vm_compute. done. Qed.

Lemma destruction_confined_witness :
  ∃ s, destroyed = Some s ∧ late (ph s) = true ∧
    ∀ t x u k tg, threads (sys s) !! t ≠ Some (Thread x (Some (PAccess u k, tg))).
Proof.
  destruct destroyed as [s|] eqn:Hs; [|vm_compute in Hs; discriminate].
  assert (Hp : late (ph s) = true) by (vm_compute in Hs; by injection Hs as <-).
  apply exec_lives_run in Hs as Hr. exists s. split; [done|]. split; [exact Hp|]. intros t x u k tg.
  apply (destruction_confined 99 2 (State threads3 [] [] [] 10) under_a_caller s t x u k tg); [|exact Hr | exact Hp].
  unfold items. simpl. constructor; [|constructor]. split; [|done]. apply uc_get; [apply execute_client | constructor].
Defined.

End HttpLifeWitness.
