(* ===== verification/RestClient.v ===== *)
(** * src/rest/client.cpp: the REST base client

    [HttpTransport] is the interface of rest/detail/http_transport.hpp;
    the client's theorems are proved against it, and [HttpClientTransport]
    shows that the pooled client of HttpClient.v implements it.  [Impl] is
    [Client::Impl]; each operation returns an outcome and the new state.
    The time of a signed call ([system_clock::now()], in milliseconds) is
    its argument [now]. *)

From S2P Require Import Prelude Errors CppLib Query CoreTypes Json RestParse Auth HttpClient.
Import Exec.
Local Open Scope Z_scope.

Class HttpTransport (T : Type) : Type := {
  t_set_api_key : string → T → T;
  t_get : string → Params → stM T exn HttpResponse;
  t_post : string → string → Params → stM T exn HttpResponse;
  t_del : string → Params → stM T exn HttpResponse;
  t_async_get : string → Params → stM T exn HttpResponse;
  t_async_post : string → string → Params → stM T exn HttpResponse;
  t_async_del : string → Params → stM T exn HttpResponse
}.

(** The blocking and the asynchronous methods perform the same request:
    the default [async_*] call the blocking ones, [HttpClient]'s blocking
    methods wait for the asynchronous ones. *)
Class TransportLaws {T} (HT : HttpTransport T) : Prop := {
  law_async_get path params : t_async_get path params = t_get path params;
  law_async_post path body headers : t_async_post path body headers = t_post path body headers;
  law_async_del path params : t_async_del path params = t_del path params
}.

#[export] Instance HttpClientTransport `{HashOrder} `{Network} : HttpTransport client := {|
  t_set_api_key := set_api_key;
  t_get := get;
  t_post := post;
  t_del := del;
  t_async_get := async_get;
  t_async_post := async_post;
  t_async_del := async_del
|}.

#[export] Instance HttpClientTransportLaws `{HO : HashOrder} `{N : Network} :
  TransportLaws (HttpClientTransport (H := HO) (H0 := N)).
Proof. by constructor. Qed.

Module Client.
Section client.
Context `{L : JsonLib} `{HO : HashOrder} {T : Type} `{HT : HttpTransport T}.
Context (hmac_sha256 : string → string → list Z).

(** [signer] is the [Credentials] the [Signer] refers to. *)
Record Impl : Type := MkImpl {
  http : T;
  credentials : option Creds.Credentials;
  signer : option Creds.Credentials;
  used_weight_1m : Z;
  order_count_10s : Z;
  order_count_1d : Z
}.

Definition try_parse (v : string) : Z :=
  match Stoi.stoi v with Ok n => n | _ => -1 end.

(** [it = headers.find(name); if (it != end) counter.store(try_parse(it->second))] *)
Definition store_limit (name : string) (hs : Params) (old : Z) : Z :=
  match find name hs with Some v => try_parse v | None => old end.

Definition update_rate_limits (resp : HttpResponse) (c : Impl) : Impl :=
  let hs := headers resp in
  MkImpl (http c) (credentials c) (signer c)
         (store_limit "x-mbx-used-weight-1m" hs (used_weight_1m c))
         (store_limit "x-mbx-order-count-10s" hs (order_count_10s c))
         (store_limit "x-mbx-order-count-1d" hs (order_count_1d c)).

(** [Impl(transport)] and [Impl(transport, creds)] *)
Definition make_public (transport : T) : Impl := MkImpl transport None None 0 0 0.
Definition make_signed (transport : T) (creds : Creds.Credentials) : Impl :=
  MkImpl (t_set_api_key (Creds.api_key creds) transport) (Some creds) (Some creds) 0 0 0.

Definition sign_params (now : Z) (params : Params) : stM Impl exn Params := λ c,
  match signer c with
  | None => (throw_auth "No credentials provided for signed request", c)
  | Some creds => (Ok (Sign.sign_parameters hmac_sha256 creds now params), c)
  end.

(** A call on [impl_->http]. *)
Definition on_http {A} (m : stM T exn A) : stM Impl exn A := λ c,
  let '(o, t) := m (http c) in
  (o, MkImpl t (credentials c) (signer c) (used_weight_1m c) (order_count_10s c) (order_count_1d c)).

Definition note_limits (resp : HttpResponse) : stM Impl exn () := λ c,
  (Ok (), update_rate_limits resp c).

(** [if (resp.status_code >= 400) detail::parse_response(...);] *)
Definition check_status (resp : HttpResponse) : outcome exn () :=
  if 400 <=? status_code resp then _ ← parse_response (status_code resp) (body resp); Ok ()
  else Ok ().

Definition ping : stM Impl exn bool :=
  resp ← on_http (t_get "/api/v3/ping" []);
  _ ← note_limits resp;
  mret (bool_decide (status_code resp = 200)).

Definition server_time : stM Impl exn Timestamp :=
  resp ← on_http (t_get "/api/v3/time" []);
  _ ← note_limits resp;
  j ← lift (parse_response (status_code resp) (body resp));
  ms ← lift (value_i64 j "serverTime" 0);
  lift (Timestamp_ms ms).

Definition public_get (path : string) (params : Params) : stM Impl exn string :=
  resp ← on_http (t_get path params);
  _ ← note_limits resp;
  _ ← lift (check_status resp);
  mret (body resp).

Definition signed_get (now : Z) (path : string) (params : Params) : stM Impl exn string :=
  params ← sign_params now params;
  resp ← on_http (t_get path params);
  _ ← note_limits resp;
  _ ← lift (check_status resp);
  mret (body resp).

Definition signed_post (now : Z) (path : string) (params : Params) : stM Impl exn string :=
  params ← sign_params now params;
  let form := query_loop params in
  resp ← on_http (t_post path form []);
  _ ← note_limits resp;
  _ ← lift (check_status resp);
  mret (body resp).

Definition signed_delete (now : Z) (path : string) (params : Params) : stM Impl exn string :=
  params ← sign_params now params;
  resp ← on_http (t_del path params);
  _ ← note_limits resp;
  _ ← lift (check_status resp);
  mret (body resp).

Definition async_ping : stM Impl exn bool :=
  resp ← on_http (t_async_get "/api/v3/ping" []);
  _ ← note_limits resp;
  mret (bool_decide (status_code resp = 200)).

Definition async_server_time : stM Impl exn Timestamp :=
  resp ← on_http (t_async_get "/api/v3/time" []);
  _ ← note_limits resp;
  j ← lift (parse_response (status_code resp) (body resp));
  ms ← lift (value_i64 j "serverTime" 0);
  lift (Timestamp_ms ms).

Definition async_public_get (path : string) (params : Params) : stM Impl exn string :=
  resp ← on_http (t_async_get path params);
  _ ← note_limits resp;
  _ ← lift (check_status resp);
  mret (body resp).

Definition async_signed_get (now : Z) (path : string) (params : Params) : stM Impl exn string :=
  params ← sign_params now params;
  resp ← on_http (t_async_get path params);
  _ ← note_limits resp;
  _ ← lift (check_status resp);
  mret (body resp).

Definition async_signed_post (now : Z) (path : string) (params : Params) : stM Impl exn string :=
  params ← sign_params now params;
  let form := query_loop params in
  resp ← on_http (t_async_post path form []);
  _ ← note_limits resp;
  _ ← lift (check_status resp);
  mret (body resp).

Definition async_signed_delete (now : Z) (path : string) (params : Params) : stM Impl exn string :=
  params ← sign_params now params;
  resp ← on_http (t_async_del path params);
  _ ← note_limits resp;
  _ ← lift (check_status resp);
  mret (body resp).

(** *** Every call that goes through, in one shape *)

(** The tail shared by the helpers: limits, status check, body. *)
Definition finish (r : outcome exn HttpResponse * T) (c : Impl) : outcome exn string * Impl :=
  let c1 := MkImpl r.2 (credentials c) (signer c) (used_weight_1m c) (order_count_10s c) (order_count_1d c) in
  match r.1 with
  | Ok resp => ((_ ← check_status resp; Ok (body resp)), update_rate_limits resp c1)
  | Throw e => (Throw e, c1)
  | Crash f => (Crash f, c1)
  end.

Lemma finish_spec (m : stM T exn HttpResponse) c :
  (resp ← on_http m; _ ← note_limits resp; _ ← lift (check_status resp); mret (body resp)) c =
  finish (m (http c)) c.
Proof.
  unfold mbind, stM_bind, on_http, finish, note_limits, lift, mret, stM_ret.
  destruct (m (http c)) as [[resp|e|f] t]; simpl; try done. by destruct (check_status resp).
Qed.

Lemma public_get_spec path params c : public_get path params c = finish (t_get path params (http c)) c.
Proof. apply finish_spec. Qed.

Lemma signed_post_spec now path params c creds :
  signer c = Some creds →
  signed_post now path params c =
  finish (t_post path (query_loop (Sign.sign_parameters hmac_sha256 creds now params)) [] (http c)) c.
Proof.
  intros Hs. unfold signed_post, sign_params. unfold mbind at 1, stM_bind at 1. rewrite Hs. apply finish_spec.
Qed.

Lemma signed_get_spec now path params c creds :
  signer c = Some creds →
  signed_get now path params c =
  finish (t_get path (Sign.sign_parameters hmac_sha256 creds now params) (http c)) c.
Proof.
  intros Hs. unfold signed_get, sign_params. unfold mbind at 1, stM_bind at 1. rewrite Hs. apply finish_spec.
Qed.

Lemma signed_delete_spec now path params c creds :
  signer c = Some creds →
  signed_delete now path params c =
  finish (t_del path (Sign.sign_parameters hmac_sha256 creds now params) (http c)) c.
Proof.
  intros Hs. unfold signed_delete, sign_params. unfold mbind at 1, stM_bind at 1. rewrite Hs. apply finish_spec.
Qed.

Definition auth_error {A} : outcome exn A := throw_auth "No credentials provided for signed request".

Lemma unsigned_throws now path params c :
  signer c = None →
  signed_get now path params c = (auth_error, c) ∧ signed_post now path params c = (auth_error, c) ∧
  signed_delete now path params c = (auth_error, c).
Proof.
  intros Hs. unfold signed_get, signed_post, signed_delete, sign_params.
  unfold mbind, stM_bind. by rewrite Hs.
Qed.

(** *** Rate limits *)

Lemma try_parse_range v : in_i32 (try_parse v).
Proof.
  unfold try_parse, Stoi.stoi. repeat case_match; simplify_eq;
    try (by apply in_i32b_spec); by unfold in_i32; lia.
Qed.

Definition limits_ok (c : Impl) : Prop :=
  in_i32 (used_weight_1m c) ∧ in_i32 (order_count_10s c) ∧ in_i32 (order_count_1d c).

Lemma update_rate_limits_ok resp c : limits_ok c → limits_ok (update_rate_limits resp c).
Proof.
  intros (H1 & H2 & H3). unfold limits_ok, update_rate_limits, store_limit. simpl.
  split_and!; case_match; auto using try_parse_range.
Qed.

Lemma store_limit_spec name hs old :
  (find name hs = None → store_limit name hs old = old) ∧
  (∀ n, in_i32 n → find name hs = Some (Dec.to_string n) → store_limit name hs old = n) ∧
  (∀ v e, find name hs = Some v → Stoi.stoi v = Throw e → store_limit name hs old = -1).
Proof.
  unfold store_limit, try_parse. split_and!; [by intros -> | |by intros v e -> ->].
  intros n Hn ->. by rewrite Stoi.stoi_to_string.
Qed.


Context {LL : JsonLaws L}.

(** C23: public_get returns the body exactly when the status is below 400, or the body
    is JSON that lacks a code or a msg member; every other error status throws. So an
    error page that is JSON but not an error object is returned as a success. *)
Theorem public_get_accepts_iff path params c resp t b :
  t_get path params (http c) = (Ok resp, t) →
  (public_get path params c).1 = Ok b ↔
  b = body resp ∧
  (status_code resp < 400 ∨
   (body resp ≠ "" ∧ ∃ j, json_parse (body resp) = Ok j ∧
      (contains j "code" = false ∨ contains j "msg" = false))).
Proof using LL.
  intros Ht. rewrite public_get_spec, Ht. unfold finish, check_status. simpl.
  destruct (Z.leb_spec 400 (status_code resp)) as [Hs|Hs].
  - split.
    + intros (u & (j & Hj & _)%bind_Ok_inv & [= <-])%bind_Ok_inv. split; [done|right].
      apply parse_response_accepts_iff in Hj as [(_ & ? & _)|(Hb & Hj & [?|Hc])]; [lia | lia |].
      split; [done|]. by exists j.
    + intros [-> [?|(Hb & j & Hj & Hc)]]; [lia|].
      rewrite (proj2 (parse_response_accepts_iff (status_code resp) (body resp) j)); [done|].
      right. auto.
  - simpl. split; [intros [= <-]; auto | by intros [-> _]].
Qed.

Context (hmac_bytes : ∀ k m, Forall (λ b, 0 ≤ b < 256) (hmac_sha256 k m)).

(** The form that is posted passes the receiver's check and decodes to
    the parameters. *)
Lemma signed_post_verifies now path params c creds :
  signer c = Some creds → order_stable HO → NoDup (keys params) → Forall pair_clean params →
  "signature" ∉ keys params →
  ∃ form, signed_post now path params c = finish (t_post path form [] (http c)) c ∧
    Sign.server_accepts hmac_sha256 (Creds.api_secret creds) form = true ∧
    ∀ k, k ≠ "timestamp" → k ≠ "signature" → find k (parse_query form) = find k params.
Proof using hmac_bytes.
  intros Hs Hst Hnd Hcl Hsig. eexists. split_and!; [by apply signed_post_spec | |].
  - by apply Sign.signed_query_verifies.
  - intros k Hts Hsg. rewrite query_loop_join, parse_query_join by by apply Sign.sign_parameters_clean.
    rewrite Sign.sign_parameters_find by done. by rewrite !decide_False.
Qed.
End client.

(** [Client(config)] and [Client(config, credentials)]: over [HttpClient]. *)
Definition connect_public `{HashOrder} `{N : Network} (config : RestConfig) (w : net)
    : outcome exn (Impl (T := Exec.client)) :=
  h ← make_client config default_pool_size w; Ok (make_public h).

Definition connect_signed `{HashOrder} `{N : Network} (config : RestConfig) (creds : Creds.Credentials)
    (w : net) : outcome exn (Impl (T := Exec.client)) :=
  h ← make_client config default_pool_size w; Ok (make_signed h creds).
End Client.

(** ** A transport with a fixed answer, for examples *)
Module RestWitness.
Import Tree HttpWitness.

(** What was sent, and the response every request gets. *)
Record mock : Type := Mock { posted : list string; answer : HttpResponse }.

Definition mock_send (what : string) : stM mock exn HttpResponse := λ m,
  (Ok (answer m), Mock (posted m ++ [what]) (answer m)).

#[export] Instance mock_transport : HttpTransport mock := {|
  t_set_api_key _ m := m;
  t_get path params := mock_send path;
  t_post path form headers := mock_send form;
  t_del path params := mock_send path;
  t_async_get path params := mock_send path;
  t_async_post path form headers := mock_send form;
  t_async_del path params := mock_send path
|}.

#[export] Instance mock_transport_laws : TransportLaws mock_transport.
Proof. by constructor. Qed.

Definition ok_response (b : string) : HttpResponse :=
  {| status_code := 200; body := b; headers := [("x-mbx-used-weight-1m", "12"); ("x-mbx-order-count-1d", "many")] |}.

(** An error page of a gateway: JSON, but not Binance's error object. *)
Definition gateway_error : HttpResponse :=
  {| status_code := 502; body := quoted "{'error': 'bad gateway'}"; headers := [] |}.

Definition anonymous (r : HttpResponse) : Client.Impl := Client.make_public (Mock [] r).
Definition authenticated (r : HttpResponse) : Client.Impl := Client.make_signed (Mock [] r) AuthWitness.creds.


Lemma public_get_accepts_iff_witness :
  (Client.public_get "/api/v3/depth" [] (anonymous gateway_error)).1 = Ok (quoted "{'error': 'bad gateway'}").
Proof.
  apply (Client.public_get_accepts_iff (L := TreeJson) (HT := mock_transport) "/api/v3/depth" [] (anonymous gateway_error) gateway_error
           (Mock ["/api/v3/depth"] gateway_error) (body gateway_error) eq_refl).
  split; [done|]. right. split; [done|].
  exists (JObj [("error", JStr "bad gateway")]). split; [vm_compute; reflexivity | by left].
Defined.
End RestWitness.
