(* ===== verification/RestLife.v ===== *)
(** * REST client objects: calls in flight, moves and destruction

    The asynchronous methods of src/rest/client.cpp are coroutines that
    keep [this] and read [impl_] twice: when they are started, to sign and
    send the request, and after the [co_await], to store the rate limits.
    Between the two the object may be moved from, assigned to or
    destroyed.  Client objects live at addresses and own a
    [Client::Impl]; the request of a call is handed to the transport of
    the [Impl] found at the start, the response is noted in the one found
    when the coroutine resumes. *)

From S2P Require Import Prelude Errors CppLib Query CoreTypes Json RestParse Auth HttpClient RestClient.
Import Exec.
Local Open Scope nat_scope.

Module RestLife.
Definition addr : Type := nat.

(** What the transport was asked: verb, target and body. *)
Definition ask : Type := verb * string * string.

(** The transport as the client's side sees it. *)
Record link : Type := Link { api_key : string; asked : list ask }.

(** The methods of [Client] that send a request; [now] is the time a
    signed one reads. *)
Inductive method : Type :=
| Ping
| ServerTime
| PublicGet (path : string) (params : Params)
| SignedGet (now : Z) (path : string) (params : Params)
| SignedPost (now : Z) (path : string) (params : Params)
| SignedDelete (now : Z) (path : string) (params : Params).

Inductive result : Type :=
| Alive (b : bool)
| Time (t : Timestamp)
| Body (s : string).

(** Where the coroutine of a call is: created and not yet started (an
    awaitable is lazy); suspended in [co_await] on a request of the
    transport of [p]; its response on the way to the executor it runs on;
    done, with the [Impl] that noted the response. *)
Inductive pc : Type :=
| Created
| Awaiting (p : nat)
| Responded (p : nat) (r : outcome exn HttpResponse)
| Done (p : nat) (noted : option nat) (r : outcome exn result)
| Refused (r : outcome exn result).      (* threw before it sent anything *)

Record frame : Type := Frame { this : addr; what : method; at_ : pc }.

Section life.
Context `{L : JsonLib} `{HO : HashOrder}.
Context (hmac_sha256 : string → string → list Z).

Definition Impl : Type := Client.Impl (T := link).

(** Objects with their [impl_], the [Impl]s there are, and the calls. *)
Record world : Type := World {
  objs : gmap addr (option nat);
  impls : gmap nat Impl;
  frames : list frame;
  next : nat
}.

Definition empty_world : world := World ∅ ∅ [] 0%nat.

(** [impl_->] of the object at [a]. *)
Definition deref (a : addr) (w : world) : outcome exn (nat * Impl) :=
  match objs w !! a with
  | None => Crash ub_dangling
  | Some None => Crash ub_null
  | Some (Some p) => match impls w !! p with Some i => Ok (p, i) | None => Crash ub_dangling end
  end.

(** The accessors of the counters. *)
Definition used_weight_1m (a : addr) (w : world) : outcome exn Z :=
  '(_, i) ← deref a w; Ok (Client.used_weight_1m i).
Definition order_count_10s (a : addr) (w : world) : outcome exn Z :=
  '(_, i) ← deref a w; Ok (Client.order_count_10s i).
Definition order_count_1d (a : addr) (w : world) : outcome exn Z :=
  '(_, i) ← deref a w; Ok (Client.order_count_1d i).

(** The body of a method up to the call of the transport. *)
Definition prepare (m : method) : stM Impl exn ask :=
  match m with
  | Ping => mret (get_, "/api/v3/ping", "")
  | ServerTime => mret (get_, "/api/v3/time", "")
  | PublicGet path params => mret (get_, target_of path params, "")
  | SignedGet now path params =>
      params ← Client.sign_params hmac_sha256 now params; mret (get_, target_of path params, "")
  | SignedPost now path params =>
      params ← Client.sign_params hmac_sha256 now params; mret (post_, path, query_loop params)
  | SignedDelete now path params =>
      params ← Client.sign_params hmac_sha256 now params; mret (delete_, target_of path params, "")
  end.

Definition send (q : ask) : stM Impl exn () :=
  Client.on_http (λ l, (Ok (), Link (api_key l) (asked l ++ [q]))).

(** The body of a method after [update_rate_limits]. *)
Definition conclude (m : method) (resp : HttpResponse) : outcome exn result :=
  match m with
  | Ping => Ok (Alive (bool_decide (status_code resp = 200%Z)))
  | ServerTime =>
      j ← parse_response (status_code resp) (body resp);
      ms ← value_i64 j "serverTime" 0%Z;
      t ← Timestamp_ms ms; Ok (Time t)
  | _ => _ ← Client.check_status resp; Ok (Body (body resp))
  end.

Definition set_impl (p : nat) (i : Impl) (w : world) : world :=
  World (objs w) (<[p := i]> (impls w)) (frames w) (next w).

Definition set_frame (k : nat) (f : frame) (w : world) : world :=
  World (objs w) (impls w) (<[k := f]> (frames w)) (next w).

Definition set_at (s : pc) (f : frame) : frame := Frame (this f) (what f) s.

(** [impl_->update_rate_limits(resp)] *)
Definition note (resp : HttpResponse) (p : nat) (i : Impl) (w : world) : world :=
  set_impl p (Client.update_rate_limits resp i) w.

Inductive action : Type :=
| Construct (a : addr) (auth : option Creds.Credentials)   (* Client(config), Client(config, credentials) *)
| CallAsync (a : addr) (m : method)
| Start (k : nat)                                          (* the coroutine first runs *)
| Respond (k : nat) (r : outcome exn HttpResponse)         (* the transport is done *)
| Resume (k : nat)                                         (* the coroutine runs on *)
| Call (a : addr) (m : method) (r : outcome exn HttpResponse)  (* a blocking method *)
| Move (dst src : addr)                                    (* Client(Client&&) *)
| Assign (dst src : addr)                                  (* operator=(Client&&) *)
| Destroy (a : addr).

(** The synchronous part of a method, on the object's [Impl]. *)
Definition begin (a : addr) (m : method) (w : world) : outcome exn (nat * world) :=
  '(p, i) ← deref a w;
  match prepare m i with
  | (Ok q, i') => Ok (p, set_impl p (send q i').2 w)
  | (Throw e, _) => Throw e
  | (Crash f, _) => Crash f
  end.

(** The rest, with the transport's answer. *)
Definition proceed (a : addr) (m : method) (r : outcome exn HttpResponse) (w : world)
    : outcome exn (option nat * outcome exn result * world) :=
  match r with
  | Ok resp =>
      '(p, i) ← deref a w;
      match conclude m resp with
      | Crash f => Crash f
      | o => Ok (Some p, o, note resp p i w)
      end
  | Throw e => Ok (None, Throw e, w)
  | Crash f => Crash f
  end.

Definition make (auth : option Creds.Credentials) : Impl :=
  match auth with
  | Some creds => Client.MkImpl (Link (Creds.api_key creds) []) (Some creds) (Some creds) 0%Z 0%Z 0%Z
  | None => Client.MkImpl (Link "" []) None None 0%Z 0%Z 0%Z
  end.

Definition remove (o : option nat) (w : world) : world :=
  match o with Some p => World (objs w) (delete p (impls w)) (frames w) (next w) | None => w end.

Definition put (a : addr) (o : option nat) (w : world) : world := World (<[a := o]> (objs w)) (impls w) (frames w) (next w).

(** [None] when the action is not possible in [w]. *)
Definition exec (act : action) (w : world) : option (outcome exn world) :=
  match act with
  | Construct a auth =>
      match objs w !! a with
      | Some _ => None
      | None => Some (Ok (World (<[a := Some (next w)]> (objs w)) (<[next w := make auth]> (impls w)) (frames w) (S (next w))))
      end
  | CallAsync a m => Some (Ok (World (objs w) (impls w) (frames w ++ [Frame a m Created]) (next w)))
  | Start k =>
      match frames w !! k with
      | Some (Frame a m Created as f) =>
          Some match begin a m w with
               | Ok (p, w') => Ok (set_frame k (set_at (Awaiting p) f) w')
               | Throw e => Ok (set_frame k (set_at (Refused (Throw e)) f) w)
               | Crash u => Crash u
               end
      | _ => None
      end
  | Respond k r =>
      match frames w !! k with
      | Some (Frame a m (Awaiting p) as f) =>
          match impls w !! p with
          | Some _ => Some (Ok (set_frame k (set_at (Responded p r) f) w))
          | None => None                       (* the transport is gone *)
          end
      | _ => None
      end
  | Resume k =>
      match frames w !! k with
      | Some (Frame a m (Responded p r) as f) =>
          Some ('(noted, o, w') ← proceed a m r w; Ok (set_frame k (set_at (Done p noted o) f) w'))
      | _ => None
      end
  | Call a m r =>
      Some match begin a m w with
           | Ok (_, w') => '(_, _, w'') ← proceed a m r w'; Ok w''
           | Throw _ => Ok w
           | Crash u => Crash u
           end
  | Move dst src =>
      match objs w !! dst, objs w !! src with
      | None, Some o => Some (Ok (put src None (put dst o w)))
      | _, _ => None
      end
  | Assign dst src =>
      match objs w !! dst, objs w !! src with
      | Some old, Some o =>
          if decide (dst = src) then Some (Ok w) else Some (Ok (remove old (put src None (put dst o w))))
      | _, _ => None
      end
  | Destroy a =>
      match objs w !! a with
      | Some o => Some (Ok (remove o (World (delete a (objs w)) (impls w) (frames w) (next w))))
      | None => None
      end
  end.

Definition step (w : world) (act : action) (w' : world) : Prop := exec act w = Some (Ok w').
Definition crashes (w : world) (act : action) (f : fatal) : Prop := exec act w = Some (Crash f).

Fixpoint exec_all (acts : list action) (w : world) : option world :=
  match acts with
  | [] => Some w
  | act :: acts => match exec act w with Some (Ok w') => exec_all acts w' | _ => None end
  end.

Lemma exec_all_run acts w w' : exec_all acts w = Some w' → run step w acts w'.
Proof.
  revert w. induction acts as [|act acts IH]; intros w; simpl; [intros [= ->]; constructor|].
  destruct (exec act w) as [[w1|e|f]|] eqn:He; try done. intros H. eapply run_cons; [exact He | by apply IH].
Qed.

(** The calls that will still use their object. *)
Definition pending (f : frame) : bool :=
  match at_ f with Created | Awaiting _ | Responded _ _ => true | _ => false end.

Definition busy (a : addr) (w : world) : Prop := ∃ f, f ∈ frames w ∧ this f = a ∧ pending f = true.

Definition busyb (a : addr) (w : world) : bool := existsb (λ f, bool_decide (this f = a) && pending f) (frames w).

Lemma busyb_spec a w : busy a w → busyb a w = true.
Proof.
  intros (f & Hf & Ha & Hp). apply existsb_exists. exists f. split; [by apply list_elem_of_In|].
  by rewrite bool_decide_true.
Qed.

(** How a program may use its clients: an object with a call in flight is
    neither moved from, assigned to nor destroyed, and no method is called
    on an object that has been moved from. *)
Definition allowed (w : world) (act : action) : Prop :=
  match act with
  | CallAsync a _ => ∃ p, objs w !! a = Some (Some p)
  | Call a _ r => (∃ p, objs w !! a = Some (Some p)) ∧ ∀ f, r ≠ Crash f
  | Move dst src => ¬ busy src w
  | Assign dst src => ¬ busy dst w ∧ ¬ busy src w
  | Destroy a => ¬ busy a w
  | Respond _ r => ∀ f, r ≠ Crash f
  | _ => True
  end.

Definition used (w : world) (act : action) (w' : world) : Prop := allowed w act ∧ step w act w'.

(** *** Objects own their [Impl], and calls in flight keep it *)

(** What a call in flight relies on. *)
Definition frame_ok (w : world) (f : frame) : Prop :=
  (pending f = true → ∃ p, objs w !! this f = Some (Some p) ∧
     match at_ f with Awaiting p' | Responded p' _ => p' = p | _ => True end) ∧
  match at_ f with
  | Responded _ r => ∀ u, r ≠ Crash u
  | Done p noted _ => noted = None ∨ noted = Some p
  | _ => True
  end.

Record sound (w : world) : Prop := {
  so_owned : ∀ a p, objs w !! a = Some (Some p) → is_Some (impls w !! p);
  so_alone : ∀ a b p, objs w !! a = Some (Some p) → objs w !! b = Some (Some p) → a = b;
  so_fresh : ∀ p, is_Some (impls w !! p) → (p < next w)%nat;
  so_frames : Forall (frame_ok w) (frames w)
}.

Lemma sound_deref w a p : sound w → objs w !! a = Some (Some p) → ∃ i, impls w !! p = Some i ∧ deref a w = Ok (p, i).
Proof. intros Hs Ha. destruct (so_owned _ Hs a p Ha) as [i Hi]. exists i. unfold deref. by rewrite Ha, Hi. Qed.

(** Steps that change an [Impl] in place and a frame. *)
Lemma sound_impl w p i : sound w → is_Some (impls w !! p) → sound (set_impl p i w).
Proof.
  intros [H1 H2 H3 H4] Hp. split; simpl; try done.
  - intros a q Hq. destruct (decide (p = q)) as [->|]; [by rewrite lookup_insert_eq|].
    rewrite lookup_insert_ne by done. by eapply H1.
  - intros q. destruct (decide (p = q)) as [->|]; [intros _; by apply H3|]. rewrite lookup_insert_ne by done. apply H3.
Qed.

Lemma sound_frame w k f : sound w → frame_ok w f → sound (set_frame k f w).
Proof. intros [H1 H2 H3 H4] Hf. split; try done. simpl. by apply Forall_insert. Qed.

Lemma frame_ok_at w k f : sound w → frames w !! k = Some f → frame_ok w f.
Proof. intros Hs Hk. by eapply (proj1 (Forall_lookup _ _) (so_frames _ Hs)). Qed.

Lemma begin_sound a m w p w' :
  sound w → begin a m w = Ok (p, w') → sound w' ∧ objs w' = objs w ∧ frames w' = frames w ∧ objs w !! a = Some (Some p).
Proof.
  intros Hs Hb. unfold begin, deref in Hb. destruct (objs w !! a) as [[q|]|] eqn:Ha; try done.
  destruct (impls w !! q) as [i|] eqn:Hi; [|done]. simpl in Hb.
  destruct (prepare m i) as [[x|e|f] i']; simplify_eq. split_and!; try done. by apply sound_impl.
Qed.

Lemma begin_crash a m w p f : sound w → objs w !! a = Some (Some p) → begin a m w ≠ Crash f.
Proof.
  intros Hs (i & _ & Hd)%(sound_deref w a p Hs). unfold begin. rewrite Hd. simpl.
  destruct m; simpl; try done; unfold mbind, stM_bind, Client.sign_params; by destruct (Client.signer i).
Qed.

Lemma proceed_sound a m r w noted o w' :
  sound w → proceed a m r w = Ok (noted, o, w') →
  sound w' ∧ objs w' = objs w ∧ frames w' = frames w ∧ (noted = None ∨ ∃ p, noted = Some p ∧ objs w !! a = Some (Some p)).
Proof.
  intros Hs Hp. unfold proceed, deref in Hp. destruct r as [resp|e|f]; [|simplify_eq; auto|done].
  destruct (objs w !! a) as [[q|]|] eqn:Ha; try done. destruct (impls w !! q) as [i|] eqn:Hi; [|done]. simpl in Hp.
  destruct (conclude m resp); simplify_eq; (split_and!; [by apply sound_impl | done | done | eauto]).
Qed.

Lemma proceed_crash a m r w p f :
  sound w → objs w !! a = Some (Some p) → (∀ u, r ≠ Crash u) → proceed a m r w = Crash f →
  ∃ resp, conclude m resp = Crash f.
Proof.
  intros Hs (i & _ & Hd)%(sound_deref w a p Hs) Hr. unfold proceed. destruct r as [resp|e|u]; [|done|by destruct (Hr u)].
  rewrite Hd. simpl. destruct (conclude m resp) eqn:Hc; try done. intros [= <-]. by exists resp.
Qed.

(** Objects change, and no call in flight is on one that does. *)
Lemma frames_kept w objs' impls' n :
  sound w → (∀ a, busy a w → objs' !! a = objs w !! a) →
  Forall (frame_ok (World objs' impls' (frames w) n)) (frames w).
Proof.
  intros Hs Hk. rewrite Forall_forall. intros f Hf. pose proof (so_frames _ Hs) as Hfs. rewrite Forall_forall in Hfs.
  destruct (Hfs f Hf) as [Hp Ha]. split; [|done]. intros Hpend. simpl. rewrite Hk by by exists f. by apply Hp.
Qed.

Lemma busy_object w a : sound w → busy a w → ∃ p, objs w !! a = Some (Some p).
Proof.
  intros Hs (f & Hf & <- & Hp). pose proof (so_frames _ Hs) as Hfs. rewrite Forall_forall in Hfs.
  destruct (Hfs f Hf) as [Hx _]. destruct (Hx Hp) as (p & ? & _). eauto.
Qed.

Lemma construct_sound w a auth :
  sound w → objs w !! a = None →
  sound (World (<[a := Some (next w)]> (objs w)) (<[next w := make auth]> (impls w)) (frames w) (S (next w))).
Proof.
  intros Hs Ha. pose proof Hs as [H1 H2 H3 _].
  assert (Hnew : ∀ b, objs w !! b ≠ Some (Some (next w))) by (intros b Hb; specialize (H3 _ (H1 _ _ Hb)); lia).
  split; simpl.
  - intros b p. destruct (decide (a = b)) as [->|].
    + rewrite lookup_insert_eq. intros [= <-]. by rewrite lookup_insert_eq.
    + rewrite lookup_insert_ne by done. intros Hb. rewrite lookup_insert_ne; [by eapply H1|]. intros <-. by eapply Hnew.
  - intros b b' p. rewrite !lookup_insert_Some. naive_solver.
  - intros p. rewrite lookup_insert_is_Some. intros [<-|[_ Hp]]; [lia|]. specialize (H3 p Hp). lia.
  - apply frames_kept; [done|]. intros b Hb. rewrite lookup_insert_ne; [done|]. intros <-.
    destruct (busy_object _ _ Hs Hb) as [p Hp]. congruence.
Qed.

(** [impl_] changes hands; [old] is what [dst] held before. *)
Lemma transfer_sound w dst src o old :
  sound w → dst ≠ src → objs w !! src = Some o → objs w !! dst = old → ¬ busy src w → ¬ busy dst w →
  sound (remove (default None old) (put src None (put dst o w))).
Proof.
  intros Hs Hne Hsrc Hdst Hbs Hbd. pose proof Hs as [H1 H2 H3 _].
  assert (Hobjs : ∀ a p, <[src := None]> (<[dst := o]> (objs w)) !! a = Some (Some p) →
            (a = dst ∧ o = Some p) ∨ (a ≠ dst ∧ a ≠ src ∧ objs w !! a = Some (Some p))).
  { intros a p. rewrite !lookup_insert_Some. naive_solver. }
  assert (Hsrc' : ∀ p, o = Some p → objs w !! src = Some (Some p)) by (intros p ->; done).
  assert (Hkeep : ∀ a, busy a w → <[src := None]> (<[dst := o]> (objs w)) !! a = objs w !! a).
  { intros a Hb. rewrite !lookup_insert_ne; [done | by intros -> | by intros ->]. }
  assert (Hbase : ∀ a p, <[src := None]> (<[dst := o]> (objs w)) !! a = Some (Some p) → is_Some (impls w !! p)).
  { intros a p [[-> Ho]|(_ & _ & Ha)]%Hobjs; [by eapply H1, Hsrc' | by eapply H1]. }
  assert (Halone : ∀ a b p, <[src := None]> (<[dst := o]> (objs w)) !! a = Some (Some p) →
            <[src := None]> (<[dst := o]> (objs w)) !! b = Some (Some p) → a = b).
  { intros a b p [[-> Ho]|(Ha1 & Ha2 & Ha)]%Hobjs [[-> Ho']|(Hb1 & Hb2 & Hb)]%Hobjs; [done|..|by eapply H2].
    - by destruct Hb2; eapply (H2 b src p Hb), Hsrc'.
    - by destruct Ha2; eapply (H2 a src p Ha), Hsrc'. }
  destruct old as [[q|]|]; simpl; split; simpl; try done; try (by apply frames_kept).
  - intros a p Ha. rewrite lookup_delete_ne; [by eapply Hbase|]. intros <-.
    destruct (Hobjs a q Ha) as [[-> Ho]|(Ha1 & Ha2 & Ha')].
    + apply Hne. by eapply (H2 dst src q), Hsrc'.
    + by destruct Ha1; eapply (H2 a dst q Ha').
  - intros p Hp. apply H3. rewrite lookup_delete_is_Some in Hp. by destruct Hp.
  - by apply (frames_kept w _ (impls w) (next w)).
  - by apply (frames_kept w _ (impls w) (next w)).
Qed.

Lemma destroy_sound w a o :
  sound w → objs w !! a = Some o → ¬ busy a w →
  sound (remove o (World (delete a (objs w)) (impls w) (frames w) (next w))).
Proof.
  intros Hs Ha Hb. pose proof Hs as [H1 H2 H3 _].
  assert (Hkeep : ∀ b, busy b w → delete a (objs w) !! b = objs w !! b).
  { intros b Hb'. rewrite lookup_delete_ne; [done | by intros ->]. }
  assert (Hobjs : ∀ b p, delete a (objs w) !! b = Some (Some p) → a ≠ b ∧ objs w !! b = Some (Some p))
    by (intros b p; by rewrite lookup_delete_Some).
  destruct o as [q|]; simpl; split; simpl; try done; try (by apply frames_kept).
  - intros b p [Hne Hp]%Hobjs. rewrite lookup_delete_ne; [by eapply H1|]. intros <-. by eapply Hne, H2.
  - intros b b' p [_ ?]%Hobjs [_ ?]%Hobjs. by eapply H2.
  - intros p Hp. apply H3. rewrite lookup_delete_is_Some in Hp. by destruct Hp.
  - intros b p [_ ?]%Hobjs. by eapply H1.
  - intros b b' p [_ ?]%Hobjs [_ ?]%Hobjs. by eapply H2.
Qed.

Lemma used_sound w act w' : sound w → used w act w' → sound w'.
Proof.
  intros Hs [Hall Hst]. unfold step in Hst. destruct act as [a auth|a m|k|k r|k|a m r|dst src|dst src|a]; simpl in Hst.
  - destruct (objs w !! a) eqn:Ha; [done|]. injection Hst as <-. by apply construct_sound.
  - injection Hst as <-. destruct Hs as [H1 H2 H3 H4]. split; try done. simpl. apply Forall_app. split; [done|].
    apply Forall_singleton. split; [|done]. intros _. destruct Hall as [p Hp]. by exists p.
  - destruct (frames w !! k) as [[a m []]|] eqn:Hk; try done. destruct (begin a m w) as [[p w1]|e|f] eqn:Hb; simplify_eq/=.
    + destruct (begin_sound _ _ _ _ _ Hs Hb) as (Hs1 & Ho & Hf & Ha). apply sound_frame; [done|].
      split; [|done]. intros _. exists p. by rewrite Ho.
    + by apply sound_frame.
  - destruct (frames w !! k) as [[a m []]|] eqn:Hk; try done. case_match; [|done]. injection Hst as <-.
    apply sound_frame; [done|]. destruct (frame_ok_at _ _ _ Hs Hk) as [Hp _]. split; [|exact Hall].
    intros _. by apply Hp.
  - destruct (frames w !! k) as [[a m [| |p r| |]]|] eqn:Hk; try done.
    destruct (proceed a m r w) as [[[noted o] w1]|e|f] eqn:Hp; simplify_eq/=.
    destruct (frame_ok_at _ _ _ Hs Hk) as [Hpend _]. destruct (Hpend eq_refl) as (q & Hq & Heq). simpl in Hq, Heq. subst q.
    destruct (proceed_sound _ _ _ _ _ _ _ Hs Hp) as (Hs1 & Ho & Hf & Hn). apply sound_frame; [done|].
    split; [done|]. simpl. destruct Hn as [->|(q & -> & Hq')]; [by left | right; congruence].
  - injection Hst as Hst. destruct (begin a m w) as [[p w1]|e|f] eqn:Hb; simplify_eq/=; [|done].
    destruct (begin_sound _ _ _ _ _ Hs Hb) as (Hs1 & _).
    destruct (proceed a m r w1) as [[[noted o] w2]|e|f] eqn:Hp; simplify_eq/=. by apply proceed_sound in Hp as (? & _).
  - destruct (objs w !! dst) eqn:Hd; [done|]. destruct (objs w !! src) as [o|] eqn:Ho; [|done]. injection Hst as <-.
    eapply (transfer_sound w dst src o None); try done; [congruence|].
    intros [p Hp]%(busy_object _ _ Hs). congruence.
  - destruct (objs w !! dst) as [old|] eqn:Hd; [|done]. destruct (objs w !! src) as [o|] eqn:Ho; [|done].
    case_decide; injection Hst as <-; [done|]. destruct Hall. by eapply (transfer_sound w dst src o (Some old)).
  - destruct (objs w !! a) as [o|] eqn:Ha; [|done]. injection Hst as <-. by apply destroy_sound.
Qed.

Lemma used_reachable acts w : run used empty_world acts w → sound w.
Proof.
  revert acts w. apply (run_invariant used (λ _ w, sound w)).
  - split; simpl; try done; intros *; rewrite ?lookup_empty; try done; by intros [? ?].
  - intros tr w act w' _ Hs Hu. by eapply used_sound.
Qed.


(** Storing the limits of a response leaves every other client alone. *)
Lemma note_deref w a b p i resp :
  sound w → objs w !! a = Some (Some p) →
  deref b (note resp p i w) = if decide (b = a) then Ok (p, Client.update_rate_limits resp i) else deref b w.
Proof.
  intros Hs Ha. unfold deref, note. simpl. case_decide as Hb; [subst; by rewrite Ha, lookup_insert_eq|].
  destruct (objs w !! b) as [[q|]|] eqn:Hq; try done. rewrite lookup_insert_ne; [done|].
  intros <-. by apply Hb, (so_alone _ Hs b a p).
Qed.

(** When a call resumes, the accessors of its client give what the response's headers
    say, and no other client changes. *)
Theorem calls_note_own_limits acts w k a m p resp w' b :
  run used empty_world acts w → frames w !! k = Some (Frame a m (Responded p (Ok resp))) → step w (Resume k) w' →
  ∃ x y z, used_weight_1m a w = Ok x ∧ order_count_10s a w = Ok y ∧ order_count_1d a w = Ok z ∧
    used_weight_1m a w' = Ok (Client.store_limit "x-mbx-used-weight-1m" (headers resp) x) ∧
    order_count_10s a w' = Ok (Client.store_limit "x-mbx-order-count-10s" (headers resp) y) ∧
    order_count_1d a w' = Ok (Client.store_limit "x-mbx-order-count-1d" (headers resp) z) ∧
    (b ≠ a → deref b w' = deref b w).
Proof.
  intros Hs%used_reachable Hk Hst. destruct (frame_ok_at _ _ _ Hs Hk) as [Hp _].
  destruct (Hp eq_refl) as (q & Ha & Heq). simpl in Ha, Heq. subst q. destruct (sound_deref _ _ _ Hs Ha) as (i & Hi & Hd).
  assert (Hw : ∀ c, deref c w' = if decide (c = a) then Ok (p, Client.update_rate_limits resp i) else deref c w).
  { intros c. rewrite <- (note_deref w a c p i resp Hs Ha). unfold step in Hst. simpl in Hst. rewrite Hk in Hst.
    unfold proceed in Hst. rewrite Hd in Hst. simpl in Hst. destruct (conclude m resp); simplify_eq/=; done. }
  exists (Client.used_weight_1m i), (Client.order_count_10s i), (Client.order_count_1d i).
  unfold used_weight_1m, order_count_10s, order_count_1d. rewrite !Hw, !decide_True, Hd by done.
  split_and!; try done. intros Hb. by rewrite decide_False.
Qed.

(** Moving a client hands its implementation, with pool, credentials and counters, to
    the new object, leaves a null one behind and touches no other object. *)
Theorem move_hands_over acts w dst src w' :
  run used empty_world acts w → step w (Move dst src) w' →
  deref dst w' = deref src w ∧ deref src w' = Crash ub_null ∧ impls w' = impls w ∧
  ∀ a, a ≠ dst → a ≠ src → deref a w' = deref a w.
Proof.
  intros Hs%used_reachable Hst. unfold step in Hst. simpl in Hst.
  destruct (objs w !! dst) eqn:Hd; [done|]. destruct (objs w !! src) as [o|] eqn:Ho; [|done]. injection Hst as <-.
  assert (dst ≠ src) by congruence. unfold deref. simpl. split_and!; [|by rewrite lookup_insert_eq | done |].
  - by rewrite lookup_insert_ne, lookup_insert_eq, Ho by done.
  - intros a Ha1 Ha2. by rewrite !lookup_insert_ne by done.
Qed.

(** A call in flight on the client at 1. *)
Definition in_flight (resp : HttpResponse) : list action :=
  [Construct 1 None; Construct 2 None; CallAsync 1 Ping; Start 0; Respond 0 (Ok resp)].

(** Moving a client with a call in flight makes the call go through a null pointer when
    it resumes, destroying it through a dangling one, and assigning another client to it
    makes it store the limits in the other client. *)
Theorem client_must_outlive_calls resp :
  (∃ w, run step empty_world (in_flight resp ++ [Move 3 1]) w ∧ crashes w (Resume 0) ub_null) ∧
  (∃ w, run step empty_world (in_flight resp ++ [Destroy 1]) w ∧ crashes w (Resume 0) ub_dangling) ∧
  (∃ w, run step empty_world (in_flight resp ++ [Assign 1 2; Resume 0]) w ∧
     at_ <$> frames w !! 0%nat = Some (Done 0 (Some 1%nat) (Ok (Alive (bool_decide (status_code resp = 200%Z)))))).
Proof.
  split_and!; eexists; (split; [by apply exec_all_run|]); reflexivity.
Qed.
End life.
End RestLife.

(** ** Example *)
Module RestLifeWitness.
Import RestLife Tree HttpWitness RestWitness AuthWitness.

(** Two interleaved calls on one client; once they are done it is moved,
    and used at its new address. *)
Definition program : list action :=
  [Construct 1 (Some creds); CallAsync 1 (PublicGet "/api/v3/depth" []); CallAsync 1 Ping; Start 0; Start 1;
   Respond 1 (Ok (ok_response "{}")); Respond 0 (Ok (ok_response "{}")); Resume 1; Resume 0;
   Move 2 1; Call 2 (SignedGet 1000%Z "/api/v3/account" []) (Ok (ok_response "{}"))].

Lemma program_allowed :
  ∃ w, run (used (L := TreeJson) toy_mac) empty_world program w ∧ length (frames w) = 2%nat.
Proof.
  eexists. split; [|shelve].
  repeat (eapply run_cons; [split; [|reflexivity]|]); [..|apply run_nil]; simpl; try done; try (by eexists).
  - intros Hb%busyb_spec. vm_compute in Hb. discriminate.
  - split; [by eexists | done].
  Unshelve. reflexivity.
Qed.


Lemma calls_note_own_limits_witness :
  ∃ w w', run (used (L := TreeJson) toy_mac) empty_world (take 7 program) w ∧
    step (L := TreeJson) toy_mac w (Resume 1) w' ∧ used_weight_1m 1 w' = Ok 12%Z.
Proof.
  destruct (exec_all (L := TreeJson) toy_mac (take 7 program) empty_world) as [w|] eqn:Hw; [|discriminate].
  assert (Hr : run (used (L := TreeJson) toy_mac) empty_world (take 7 program) w).
  { injection Hw as <-. repeat (eapply run_cons; [split; [|reflexivity]|]); [..|apply run_nil]; simpl; try done; by eexists. }
  destruct (exec (L := TreeJson) toy_mac (Resume 1) w) as [[w'|e|f]|] eqn:Hx; try (by injection Hw as <-).
  exists w, w'. split; [done|]. split; [done|].
  destruct (calls_note_own_limits (L := TreeJson) toy_mac (take 7 program) w 1 1 Ping 0 (ok_response "{}") w' 2 Hr)
    as (x & y & z & _ & _ & _ & -> & _); [by injection Hw as <- | exact Hx | reflexivity].
Defined.

Definition one_client : world := World {[1 := Some 0]} {[0 := make None]} [] 1.

Lemma move_hands_over_witness :
  ∃ w', step (L := TreeJson) toy_mac one_client (Move 2 1) w' ∧ deref 1 w' = Crash ub_null ∧ is_Ok (deref 2 w') = true.
Proof.
  eexists. split; [reflexivity|].
  edestruct (move_hands_over (L := TreeJson) toy_mac [Construct 1 None] one_client 2 1) as (H1 & H2 & _);
    [eapply run_cons; [split; [done | reflexivity] | apply run_nil] | reflexivity |].
  split; [exact H2 | by rewrite H1].
Defined.
End RestLifeWitness.
