(* ===== verification/Concurrent.v ===== *)
(** * Asynchronous calls side by side

    The composition of three components: the coroutines of
    src/rest/client.cpp (RestLife.v) start requests on the pooled
    transport, whose tasks interleave (HttpTasks.v) and exchange messages
    with the server (Exchanges.v).  The reference is the blocking client
    of RestClient.v alone with the same server. *)

From S2P Require Import Prelude Errors CppLib Query CoreTypes Json RestParse Auth HttpClient HttpTasks Exchanges RestClient RestLife.
Import Exec RestLife.
Local Open Scope nat_scope.

Module Concurrent.

(** Where a call is: called; its request a task of the transport; done,
    with the task's outcome and what the caller gets. *)
Inductive stage : Type :=
| Called
| InFlight (i : nat)
| Returned (i : nat) (ok : bool) (r : outcome exn result)
| Unsent (r : outcome exn result).

Record call : Type := MkCall { m_ : method; stage_ : stage }.

Section concurrent.
Context `{L : JsonLib} `{HO : HashOrder}.
Context (hmac_sha256 : string → string → list Z).
(** What the server answers. *)
Context (serve : ask → HttpResponse).
Context (pool_size : nat).

(** The client, its transport, the requests of the transport's tasks and
    the calls. *)
Record state : Type := State {
  impl : Impl;
  net_ : Exchange.state;
  reqs : list ask;
  calls : list call
}.

Definition init (c : Impl) : state := State c Exchange.init [] [].

Inductive event : Type :=
| Call (m : method)
| Start (k : nat)                        (* the coroutine runs to its co_await *)
| Net (e : Exchange.event)               (* the transport and the network *)
| Resume (k : nat) (e : exn).            (* the coroutine runs on; [e] is what a failed request threw *)

Definition set_call (k : nat) (s : stage) (c : call) (l : list call) : list call := <[k := MkCall (m_ c) s]> l.

(** The answer a task was given. *)
Definition answer_of (i : nat) (s : state) : option HttpResponse :=
  '(_, (_, j)) ← list_find (λ a, a.1 = i) (Exchange.answers (net_ s));
  serve <$> reqs s !! j.

Definition exec (e : event) (s : state) : option state :=
  match e with
  | Call m => Some (State (impl s) (net_ s) (reqs s) (calls s ++ [MkCall m Called]))
  | Start k =>
      match calls s !! k with
      | Some (MkCall m Called as c) =>
          match prepare hmac_sha256 m (impl s) with
          | (Ok q, i) =>
              n ← Exchange.exec pool_size (Exchange.Pooled Tasks.Spawn) (net_ s);
              Some (State (send q i).2 n (reqs s ++ [q]) (set_call k (InFlight (length (reqs s))) c (calls s)))
          | (Throw x, _) => Some (State (impl s) (net_ s) (reqs s) (set_call k (Unsent (Throw x)) c (calls s)))
          | (Crash f, _) => Some (State (impl s) (net_ s) (reqs s) (set_call k (Unsent (Crash f)) c (calls s)))
          end
      | _ => None
      end
  | Net e =>
      if Exchange.spawns e then None
      else n ← Exchange.exec pool_size e (net_ s); Some (State (impl s) n (reqs s) (calls s))
  | Resume k x =>
      match calls s !! k with
      | Some (MkCall m (InFlight i) as c) =>
          match Tasks.tasks (Exchange.sys (net_ s)) !! i with
          | Some (Tasks.Finished true) =>
              resp ← answer_of i s;
              Some (State (Client.update_rate_limits resp (impl s)) (net_ s) (reqs s)
                          (set_call k (Returned i true (conclude m resp)) c (calls s)))
          | Some (Tasks.Finished false) =>
              Some (State (impl s) (net_ s) (reqs s) (set_call k (Returned i false (Throw x)) c (calls s)))
          | _ => None
          end
      | _ => None
      end
  end.

(** No connection is added or removed while another request connects. *)
Definition step (s : state) (e : event) (s' : state) : Prop :=
  exec e s = Some s' ∧
  match e with Net ne => Exchange.quiet_step pool_size (net_ s) ne (net_ s') | _ => True end.

(** *** The reference: the blocking client, alone with the server *)

#[local] Instance serving : HttpTransport link := {|
  t_set_api_key k l := Link k (asked l);
  t_get path params l := (Ok (serve (get_, target_of path params, "")), l);
  t_post path form headers l := (Ok (serve (post_, path, form)), l);
  t_del path params l := (Ok (serve (delete_, target_of path params, "")), l);
  t_async_get path params l := (Ok (serve (get_, target_of path params, "")), l);
  t_async_post path form headers l := (Ok (serve (post_, path, form)), l);
  t_async_del path params l := (Ok (serve (delete_, target_of path params, "")), l)
|}.

Definition blocking (m : method) : stM Impl exn result :=
  match m with
  | Ping => b ← Client.ping; mret (Alive b)
  | ServerTime => t ← Client.server_time; mret (Time t)
  | PublicGet path params => b ← Client.public_get path params; mret (Body b)
  | SignedGet now path params => b ← Client.signed_get hmac_sha256 now path params; mret (Body b)
  | SignedPost now path params => b ← Client.signed_post hmac_sha256 now path params; mret (Body b)
  | SignedDelete now path params => b ← Client.signed_delete hmac_sha256 now path params; mret (Body b)
  end.

(** A blocking call in terms of the two halves of a coroutine. *)
Definition alone (m : method) (c : Impl) : outcome exn result :=
  q ← (prepare hmac_sha256 m c).1; conclude m (serve q).

Lemma blocking_alone m c : (blocking m c).1 = alone m c.
Proof.
  destruct m; unfold blocking, alone, prepare, Client.ping, Client.server_time, Client.public_get, Client.signed_get,
    Client.signed_post, Client.signed_delete, Client.sign_params, Client.on_http, Client.note_limits, mbind, stM_bind, lift,
    mret, stM_ret; simpl; try (destruct (Client.signer c) as [creds|]; [|done]); simpl; try done.
  - destruct (parse_response _ _) as [j|e|f]; simpl; [|done|done].
    destruct (value_i64 j "serverTime" 0) as [ms|e|f]; simpl; [|done|done]. by destruct (Timestamp_ms ms).
  - by destruct (Client.check_status _).
  - by destruct (Client.check_status _).
  - by destruct (Client.check_status _).
  - by destruct (Client.check_status _).
Qed.

(** Only the credentials matter for what is sent. *)
Lemma prepare_signer m c c' :
  Client.signer c = Client.signer c' → (prepare hmac_sha256 m c).1 = (prepare hmac_sha256 m c').1.
Proof.
  intros Hs. destruct m; try done; unfold prepare, mbind, stM_bind, Client.sign_params;
    rewrite Hs; by destruct (Client.signer c').
Qed.

(** Signing does not change the client. *)
Lemma prepare_impl m c : (prepare hmac_sha256 m c).2 = c.
Proof.
  destruct m; try done; unfold prepare, mbind, stM_bind, Client.sign_params; by destruct (Client.signer c).
Qed.

(** *** The invariant *)

Definition call_ok (c0 : Impl) (rs : list ask) (c : call) : Prop :=
  match stage_ c with
  | Called => True
  | InFlight i => ∃ q, rs !! i = Some q ∧ (prepare hmac_sha256 (m_ c) c0).1 = Ok q
  | Returned _ true r | Unsent r => r = alone (m_ c) c0
  | Returned _ false r => ∃ e, r = Throw e
  end.

Record agrees (c0 : Impl) (s : state) : Prop := {
  ag_net : Exchange.matched pool_size (net_ s);
  ag_counted : Exchange.counted (net_ s);
  ag_signer : Client.signer (impl s) = Client.signer c0;
  ag_tasks : length (reqs s) = length (Tasks.tasks (Exchange.sys (net_ s)));
  ag_calls : Forall (call_ok c0 (reqs s)) (calls s)
}.

Lemma event_length te s s' :
  Tasks.exec_event pool_size te s = Some s' → te ≠ Tasks.Spawn → length (Tasks.tasks s') = length (Tasks.tasks s).
Proof.
  unfold Tasks.exec_event, Tasks.update, Tasks.crash. destruct (Tasks.crashed s); [done|].
  intros H Hne. destruct te; try done; repeat case_match; simplify_eq/=; by rewrite ?length_insert.
Qed.

Lemma net_length e n n' :
  Exchange.exec pool_size e n = Some n' → Exchange.spawns e = false → Tasks.crashed (Exchange.sys n') = false →
  length (Tasks.tasks (Exchange.sys n')) = length (Tasks.tasks (Exchange.sys n)).
Proof.
  intros He%Exchange.exec_sys Hs Hcr. destruct (Exchange.pool_event e) as [te|] eqn:Hte.
  - apply event_length in He; [done|]. intros ->. destruct e as [[]| | |? []]; done.
  - destruct He as [->|?]; [done | congruence].
Qed.

Lemma call_ok_mono c0 rs q c : call_ok c0 rs c → call_ok c0 (rs ++ [q]) c.
Proof.
  destruct c as [m []]; simpl; try done. intros (q' & Hq & Hp). exists q'. split; [|done]. by apply lookup_app_l_Some.
Qed.

Lemma calls_update c0 rs k c st l :
  Forall (call_ok c0 rs) l → call_ok c0 rs (MkCall (m_ c) st) → Forall (call_ok c0 rs) (set_call k st c l).
Proof. apply Forall_insert. Qed.

Lemma spawn_matched n :
  Exchange.matched pool_size n → Exchange.counted n →
  ∃ n', Exchange.exec pool_size (Exchange.Pooled Tasks.Spawn) n = Some n' ∧
    Exchange.matched pool_size n' ∧ Exchange.counted n' ∧
    length (Tasks.tasks (Exchange.sys n')) = S (length (Tasks.tasks (Exchange.sys n))).
Proof.
  intros Hm Hc. pose proof (Tasks.ow_run _ _ (Exchange.ma_owns _ _ Hm)) as Hcr.
  destruct (Exchange.exec pool_size (Exchange.Pooled Tasks.Spawn) n) as [n'|] eqn:He.
  2:{ unfold Exchange.exec, Tasks.exec_event in He. by rewrite Hcr in He. }
  exists n'. split_and!; [done | | by eapply Exchange.step_counted |].
  - eapply Exchange.quiet_step_matched; [exact Hm|]. split; [exact He|]. intros te i [= <-]. done.
  - unfold Exchange.exec, Tasks.exec_event in He. rewrite Hcr in He. injection He as <-. simpl. rewrite length_app. simpl. lia.
Qed.

Lemma step_agrees c0 s e s' : agrees c0 s → step s e s' → agrees c0 s'.
Proof.
  intros [Hn Hco Hs Ht Hc] [He Hq]. destruct e as [m|k|e|k x]; simpl in He.
  - injection He as <-. split; try done. simpl. apply Forall_app. split; [done|]. by apply Forall_singleton.
  - destruct (calls s !! k) as [[m []]|] eqn:Hk; try done.
    pose proof (prepare_signer m (impl s) c0 Hs) as Hp.
    destruct (prepare hmac_sha256 m (impl s)) as [[q|x|f] i] eqn:Hpr; simpl in Hp.
    + destruct (spawn_matched _ Hn Hco) as (n & Hsp & Hn' & Hco' & Hl). simpl in He, Hsp. rewrite Hsp in He. injection He as <-.
      split; simpl; [done | done | | by rewrite length_app, Hl, Ht, Nat.add_1_r |].
      * pose proof (prepare_impl m (impl s)) as Hi. rewrite Hpr in Hi. simpl in Hi. by rewrite Hi.
      * apply calls_update; [eapply Forall_impl; [exact Hc|]; intros c; apply call_ok_mono|]. exists q. split; [|done].
        by apply list_lookup_middle.
    + injection He as <-. split; try done. simpl. apply calls_update; [done|]. cbn [call_ok stage_ m_]. unfold alone. by rewrite <- Hp.
    + injection He as <-. split; try done. simpl. apply calls_update; [done|]. cbn [call_ok stage_ m_]. unfold alone. by rewrite <- Hp.
  - destruct (Exchange.spawns e) eqn:Hsp; [done|]. destruct (Exchange.exec pool_size e (net_ s)) as [n|] eqn:Hx; [|done].
    injection He as <-. simpl in Hq. pose proof (Exchange.quiet_step_matched _ _ _ _ Hn Hq) as Hn'.
    split; simpl; [done | by eapply Exchange.step_counted | done | | done].
    rewrite (net_length e (net_ s) n); [done | done | done |]. apply (Tasks.ow_run _ _ (Exchange.ma_owns _ _ Hn')).
  - destruct (calls s !! k) as [[m [|i| |]]|] eqn:Hk; try done.
    destruct (Tasks.tasks (Exchange.sys (net_ s)) !! i) as [[| | |[]]|]; try done.
    2:{ injection He as <-. split; try done. simpl. apply calls_update; [done|]. by exists x. }
    destruct (answer_of i s) as [resp|] eqn:Ha; [|done]. injection He as <-. split; try done. simpl.
    apply calls_update; [done|]. cbn [call_ok stage_ m_]. unfold alone.
    assert (Hcall : call_ok c0 (reqs s) (MkCall m (InFlight i))) by by eapply (proj1 (Forall_lookup _ _) Hc).
    destruct Hcall as (q & Hrq & Hpq). cbn [m_] in Hpq. rewrite Hpq. simpl. f_equal. unfold answer_of in Ha.
    destruct (list_find _ _) as [[z [i' j]]|] eqn:Hf; [|done]. apply list_find_Some in Hf as (Hz & Hi & _). simpl in Hi, Ha.
    pose proof (Exchange.ma_own _ _ Hn) as Hown. apply (proj1 (Forall_lookup _ _) Hown) in Hz. simpl in Hz. subst.
    rewrite Hrq in Ha. by injection Ha as <-.
Qed.

(** A task that has succeeded was given an answer. *)
Lemma answer_there c0 s i q :
  agrees c0 s → reqs s !! i = Some q → Tasks.tasks (Exchange.sys (net_ s)) !! i = Some (Tasks.Finished true) →
  answer_of i s = Some (serve q).
Proof.
  intros Ha Hq Ht. destruct (Exchange.counted_phase _ _ _ (ag_counted _ _ Ha) Ht) as [ph Hp].
  destruct (Exchange.co_task _ (ag_counted _ _ Ha) _ _ _ Ht Hp) as (_ & _ & _ & Hg).
  unfold answer_of. destruct (list_find _ _) as [[z [i' j]]|] eqn:Hf.
  - apply list_find_Some in Hf as (Hz & Hi & _). pose proof (Exchange.ma_own _ _ (ag_net _ _ Ha)) as Hown.
    apply (proj1 (Forall_lookup _ _) Hown) in Hz. simpl in *. subst. by rewrite Hq.
  - apply list_find_None in Hf. unfold Exchange.got in Hg. simpl in Hg.
    destruct (filter _ _) as [|a l] eqn:Hfl; [done|]. assert (Hin : a ∈ filter (λ a, a.1 = i) (Exchange.answers (net_ s)))
      by (rewrite Hfl; left). apply list_elem_of_filter in Hin as [Hai Hin]. rewrite Forall_forall in Hf. by destruct (Hf _ Hin).
Qed.

(** C20: Asynchronous calls of one client side by side on the pooled transport, as long
    as no connection is added or removed while another request connects: a call whose
    request succeeds returns or throws exactly what the blocking method would alone with
    the same server, one that sends nothing throws what the blocking method throws, and
    no call is stuck: it can be started, and it can be resumed once its request is done,
    whether it succeeded or failed. *)
Theorem async_calls_as_alone c0 es s k m :
  run step (init c0) es s →
  (∀ i r, calls s !! k = Some (MkCall m (Returned i true r)) → r = (blocking m c0).1) ∧
  (∀ r, calls s !! k = Some (MkCall m (Unsent r)) → r = (blocking m c0).1) ∧
  (calls s !! k = Some (MkCall m Called) → ∃ s', step s (Start k) s') ∧
  (∀ i, calls s !! k = Some (MkCall m (InFlight i)) →
     (∃ t, Tasks.tasks (Exchange.sys (net_ s)) !! i = Some t) ∧
     ∀ ok x, Tasks.tasks (Exchange.sys (net_ s)) !! i = Some (Tasks.Finished ok) → ∃ s', step s (Resume k x) s').
Proof.
  intros Hr.
  assert (Ha : agrees c0 s).
  { revert es s Hr. apply (run_invariant step (λ _ s, agrees c0 s)).
    - split; simpl; [apply Exchange.matched_init | by split | done | done | constructor].
    - intros tr s e s' _ Ha Hst. by eapply step_agrees. }
  assert (Hok : ∀ st, calls s !! k = Some (MkCall m st) → call_ok c0 (reqs s) (MkCall m st))
    by (intros st Hst; by eapply (proj1 (Forall_lookup _ _) (ag_calls _ _ Ha))).
  rewrite blocking_alone. unfold step. split_and!.
  - by intros i r ?%Hok.
  - by intros r ?%Hok.
  - intros Hk. cbn [exec]. rewrite Hk. destruct (prepare hmac_sha256 m (impl s)) as [[q|x|f] i]; [|eauto..].
    destruct (spawn_matched _ (ag_net _ _ Ha) (ag_counted _ _ Ha)) as (n & -> & _). simpl. eauto.
  - intros i Hk. destruct (Hok _ Hk) as (q & Hq & Hp). split.
    + apply lookup_lt_is_Some. rewrite <- (ag_tasks _ _ Ha). by eapply lookup_lt_Some.
    + intros ok x Ht. cbn [exec]. rewrite Hk, Ht. destruct ok; [|eauto].
      rewrite (answer_there c0 s i q Ha Hq Ht). simpl. eauto.
Qed.
End concurrent.
End Concurrent.

(** ** Example: two calls whose answers arrive in the other order *)
Module ConcurrentWitness.
Import Concurrent Tree HttpWitness RestWitness AuthWitness TasksWitness.

(** The server answers with what it was asked for. *)
Definition echo (q : ask) : HttpResponse := ok_response q.1.2.

Fixpoint exec_quiet (es : list event) (s : state) : option state :=
  match es with
  | [] => Some s
  | e :: es =>
      match exec (L := TreeJson) toy_mac echo 4 e s with
      | Some s' =>
          if match e with
             | Net ne =>
                 match te ← Exchange.pool_event ne; Tasks.actor te with
                 | Some i => undisturbedb (Tasks.pool (Exchange.sys (net_ s))) (Tasks.pool (Exchange.sys (net_ s')))
                                          (Tasks.tasks (Exchange.sys (net_ s))) i
                 | None => true
                 end
             | _ => true
             end
          then exec_quiet es s' else None
      | None => None
      end
  end.

Lemma exec_quiet_step es s s' : exec_quiet es s = Some s' → run (step (L := TreeJson) toy_mac echo 4) s es s'.
Proof.
  revert s. induction es as [|e es IH]; intros s; simpl; [intros [= ->]; constructor|].
  destruct (exec (L := TreeJson) toy_mac echo 4 e s) as [s1|] eqn:He; [|done]. intros H.
  eapply run_cons; [|destruct (match e with Net _ => _ | _ => true end); [by apply IH | done]].
  split; [exact He|]. destruct e as [| |ne|]; try done.
  destruct (match te ← _; _ with Some i => _ | None => true end) eqn:Hq; [|done].
  split.
  - simpl in He. destruct (Exchange.spawns ne); [done|]. unfold Exchange.step.
    destruct (Exchange.exec 4 ne (net_ s)); [by injection He as <- | done].
  - intros te i Hte Hi. rewrite Hte in Hq. simpl in Hq. rewrite Hi in Hq. by apply undisturbedb_spec.
Qed.

Definition program : list event :=
  [Call (PublicGet "/api/v3/depth" []); Call (SignedGet 1000%Z "/api/v3/account" []); Start 1; Start 0;
   Net (Exchange.Pooled (Tasks.Run 0)); Net (Exchange.Pooled (Tasks.ConnectDone 0)); Net (Exchange.Wrote 0);
   Net (Exchange.Pooled (Tasks.Run 1)); Net (Exchange.Pooled (Tasks.ConnectDone 1)); Net (Exchange.Wrote 1);
   Net (Exchange.Answered 1 true); Resume 0 (beast_system_error "timeout"); Net (Exchange.Answered 0 true); Resume 1 (beast_system_error "timeout")].

Lemma async_calls_as_alone_witness :
  ∃ s r, run (step (L := TreeJson) toy_mac echo 4) (init (make (Some creds))) program s ∧
    calls s !! 0 = Some (MkCall (PublicGet "/api/v3/depth" []) (Returned 1 true r)) ∧
    r = (blocking (L := TreeJson) toy_mac echo (PublicGet "/api/v3/depth" []) (make (Some creds))).1 ∧
    r = Ok (Body "/api/v3/depth").
Proof.
  destruct (exec_quiet program (init (make (Some creds)))) as [s|] eqn:Hs; [|vm_compute in Hs; discriminate].
  apply exec_quiet_step in Hs as Hr. exists s, (Ok (Body "/api/v3/depth")). split; [done|].
  assert (Hc : calls s !! 0 = Some (MkCall (PublicGet "/api/v3/depth" []) (Returned 1 true (Ok (Body "/api/v3/depth")))))
    by (vm_compute in Hs; by injection Hs as <-).
  split; [exact Hc|]. split; [|done].
  exact (proj1 (async_calls_as_alone (L := TreeJson) toy_mac echo 4 (make (Some creds)) program s 0 _ Hr) _ _ Hc).
Defined.
End ConcurrentWitness.
