(* ===== verification/SubClients.v ===== *)
(** * The endpoint clients

    src/rest/market_data_client.cpp, trading_client.cpp and
    account_client.cpp: each method builds its parameters, calls one of
    the helpers of [Client] and parses the body that comes back.  The
    [async_*] methods are the same code over the asynchronous helpers. *)

From Stdlib Require Import Ascii SpecFloat.
From S2P Require Import Prelude Errors CppLib Query CoreTypes Json RestParse Auth HttpClient RestClient.
Import Client.
Local Open Scope Z_scope.

(** ** Request parameters (trading_client.cpp) *)
Section order_params.
Context `{HO : HashOrder}.

Definition set_opt {A} (k : string) (f : A → string) (v : option A) (m : Params) : Params :=
  match v with Some x => Query.set k (f x) m | None => m end.

Definition build_new_order_params (r : NewOrderRequest) : Params :=
  let params := Query.set "symbol" (nr_symbol r) [] in
  let params := Query.set "side" (side_to_string (nr_side r)) params in
  let params := Query.set "type" (order_type_to_string (nr_type r)) params in
  let params := Query.set "quantity" (Dbl.to_string (nr_quantity r)) params in
  let params :=
    if bool_decide (nr_time_in_force r ≠ GTC) || bool_decide (nr_type r = Limit)
    then Query.set "timeInForce" (time_in_force_to_string (nr_time_in_force r)) params
    else params in
  let params := set_opt "price" Dbl.to_string (nr_price r) params in
  let params := set_opt "newClientOrderId" id (nr_client_order_id r) params in
  set_opt "stopPrice" Dbl.to_string (nr_stop_price r) params.

Definition build_cancel_params (r : CancelOrderRequest) : Params :=
  let params := Query.set "symbol" (cr_symbol r) [] in
  let params := set_opt "orderId" Dec.to_string (cr_order_id r) params in
  set_opt "origClientOrderId" id (cr_client_order_id r) params.
End order_params.

Section endpoints.
Context `{L : JsonLib} `{HO : HashOrder} {T : Type} `{HT : HttpTransport T}.
Context (hmac_sha256 : string → string → list Z).

Definition symbol_params (symbol : Symbol) : Params := Query.set "symbol" symbol [].
Definition symbol_limit_params (symbol : Symbol) (limit : Z) : Params :=
  Query.set "limit" (Dec.to_string limit) (symbol_params symbol).

(** [auto json = detail::parse_response(200, body); return f(json);] *)
Definition parse_one {A} (f : json → outcome exn A) (body : string) : outcome exn A :=
  j ← parse_response 200 body; f j.

(** The same with [for (const auto& item : json) out.push_back(f(item));] *)
Definition parse_each {A} (f : json → outcome exn A) (body : string) : outcome exn (list A) :=
  j ← parse_response 200 body; traverse f (elements j).

(** *** MarketDataClient *)

Definition get_order_book (symbol : Symbol) (limit : Z) : stM Impl exn OrderBook :=
  body ← public_get "/api/v3/depth" (symbol_limit_params symbol limit);
  lift (parse_one (λ j, parse_order_book j symbol) body).

Definition get_recent_trades (symbol : Symbol) (limit : Z) : stM Impl exn (list Trade) :=
  body ← public_get "/api/v3/trades" (symbol_limit_params symbol limit);
  lift (parse_each parse_trade body).

Definition klines_params (symbol : Symbol) (interval : string) (limit : Z) : Params :=
  Query.set "limit" (Dec.to_string limit) (Query.set "interval" interval (symbol_params symbol)).

Definition get_klines (symbol : Symbol) (interval : string) (limit : Z) : stM Impl exn (list Kline) :=
  body ← public_get "/api/v3/klines" (klines_params symbol interval limit);
  lift (parse_each parse_kline body).

Definition get_ticker_24h (symbol : Symbol) : stM Impl exn Ticker24h :=
  body ← public_get "/api/v3/ticker/24hr" (symbol_params symbol);
  lift (parse_one parse_ticker_24h body).

Definition get_price_ticker (symbol : Symbol) : stM Impl exn Ticker :=
  body ← public_get "/api/v3/ticker/price" (symbol_params symbol);
  lift (parse_one parse_ticker body).

Definition get_all_price_tickers : stM Impl exn (list Ticker) :=
  body ← public_get "/api/v3/ticker/price" [];
  lift (parse_each parse_ticker body).

Definition async_get_order_book (symbol : Symbol) (limit : Z) : stM Impl exn OrderBook :=
  body ← async_public_get "/api/v3/depth" (symbol_limit_params symbol limit);
  lift (parse_one (λ j, parse_order_book j symbol) body).

Definition async_get_recent_trades (symbol : Symbol) (limit : Z) : stM Impl exn (list Trade) :=
  body ← async_public_get "/api/v3/trades" (symbol_limit_params symbol limit);
  lift (parse_each parse_trade body).

Definition async_get_klines (symbol : Symbol) (interval : string) (limit : Z) : stM Impl exn (list Kline) :=
  body ← async_public_get "/api/v3/klines" (klines_params symbol interval limit);
  lift (parse_each parse_kline body).

Definition async_get_ticker_24h (symbol : Symbol) : stM Impl exn Ticker24h :=
  body ← async_public_get "/api/v3/ticker/24hr" (symbol_params symbol);
  lift (parse_one parse_ticker_24h body).

Definition async_get_price_ticker (symbol : Symbol) : stM Impl exn Ticker :=
  body ← async_public_get "/api/v3/ticker/price" (symbol_params symbol);
  lift (parse_one parse_ticker body).

Definition async_get_all_price_tickers : stM Impl exn (list Ticker) :=
  body ← async_public_get "/api/v3/ticker/price" [];
  lift (parse_each parse_ticker body).

(** *** TradingClient; the clock is read once per call. *)
Context (now : Z).

Definition new_order (request : NewOrderRequest) : stM Impl exn Order :=
  body ← signed_post hmac_sha256 now "/api/v3/order" (build_new_order_params request);
  lift (parse_one parse_order body).

Definition test_new_order (request : NewOrderRequest) : stM Impl exn () :=
  _ ← signed_post hmac_sha256 now "/api/v3/order/test" (build_new_order_params request);
  mret ().

Definition query_order (symbol : Symbol) (order_id : OrderId) : stM Impl exn Order :=
  body ← signed_get hmac_sha256 now "/api/v3/order"
           (Query.set "orderId" (Dec.to_string order_id) (symbol_params symbol));
  lift (parse_one parse_order body).

Definition query_order_by_client_id (symbol : Symbol) (client_order_id : ClientOrderId) : stM Impl exn Order :=
  body ← signed_get hmac_sha256 now "/api/v3/order"
           (Query.set "origClientOrderId" client_order_id (symbol_params symbol));
  lift (parse_one parse_order body).

Definition cancel_order (request : CancelOrderRequest) : stM Impl exn Order :=
  body ← signed_delete hmac_sha256 now "/api/v3/order" (build_cancel_params request);
  lift (parse_one parse_order body).

Definition cancel_all_orders (symbol : Symbol) : stM Impl exn (list Order) :=
  body ← signed_delete hmac_sha256 now "/api/v3/openOrders" (symbol_params symbol);
  lift (parse_each parse_order body).

Definition get_open_orders (symbol : Symbol) : stM Impl exn (list Order) :=
  body ← signed_get hmac_sha256 now "/api/v3/openOrders" (symbol_params symbol);
  lift (parse_each parse_order body).

Definition get_all_open_orders : stM Impl exn (list Order) :=
  body ← signed_get hmac_sha256 now "/api/v3/openOrders" [];
  lift (parse_each parse_order body).

Definition get_all_orders (symbol : Symbol) (limit : Z) : stM Impl exn (list Order) :=
  body ← signed_get hmac_sha256 now "/api/v3/allOrders" (symbol_limit_params symbol limit);
  lift (parse_each parse_order body).

Definition async_new_order (request : NewOrderRequest) : stM Impl exn Order :=
  body ← async_signed_post hmac_sha256 now "/api/v3/order" (build_new_order_params request);
  lift (parse_one parse_order body).

Definition async_test_new_order (request : NewOrderRequest) : stM Impl exn () :=
  _ ← async_signed_post hmac_sha256 now "/api/v3/order/test" (build_new_order_params request);
  mret ().

Definition async_query_order (symbol : Symbol) (order_id : OrderId) : stM Impl exn Order :=
  body ← async_signed_get hmac_sha256 now "/api/v3/order"
           (Query.set "orderId" (Dec.to_string order_id) (symbol_params symbol));
  lift (parse_one parse_order body).

Definition async_query_order_by_client_id (symbol : Symbol) (client_order_id : ClientOrderId) : stM Impl exn Order :=
  body ← async_signed_get hmac_sha256 now "/api/v3/order"
           (Query.set "origClientOrderId" client_order_id (symbol_params symbol));
  lift (parse_one parse_order body).

Definition async_cancel_order (request : CancelOrderRequest) : stM Impl exn Order :=
  body ← async_signed_delete hmac_sha256 now "/api/v3/order" (build_cancel_params request);
  lift (parse_one parse_order body).

Definition async_cancel_all_orders (symbol : Symbol) : stM Impl exn (list Order) :=
  body ← async_signed_delete hmac_sha256 now "/api/v3/openOrders" (symbol_params symbol);
  lift (parse_each parse_order body).

Definition async_get_open_orders (symbol : Symbol) : stM Impl exn (list Order) :=
  body ← async_signed_get hmac_sha256 now "/api/v3/openOrders" (symbol_params symbol);
  lift (parse_each parse_order body).

Definition async_get_all_open_orders : stM Impl exn (list Order) :=
  body ← async_signed_get hmac_sha256 now "/api/v3/openOrders" [];
  lift (parse_each parse_order body).

Definition async_get_all_orders (symbol : Symbol) (limit : Z) : stM Impl exn (list Order) :=
  body ← async_signed_get hmac_sha256 now "/api/v3/allOrders" (symbol_limit_params symbol limit);
  lift (parse_each parse_order body).

(** *** AccountClient *)

Definition get_account_info : stM Impl exn AccountInfo :=
  body ← signed_get hmac_sha256 now "/api/v3/account" [];
  lift (parse_one parse_account_info body).

Definition get_account_trades (symbol : Symbol) (limit : Z) : stM Impl exn (list AccountTrade) :=
  body ← signed_get hmac_sha256 now "/api/v3/myTrades" (symbol_limit_params symbol limit);
  lift (parse_each parse_account_trade body).

Definition async_get_account_info : stM Impl exn AccountInfo :=
  body ← async_signed_get hmac_sha256 now "/api/v3/account" [];
  lift (parse_one parse_account_info body).

Definition async_get_account_trades (symbol : Symbol) (limit : Z) : stM Impl exn (list AccountTrade) :=
  body ← async_signed_get hmac_sha256 now "/api/v3/myTrades" (symbol_limit_params symbol limit);
  lift (parse_each parse_account_trade body).
End endpoints.

(** ** Properties *)
Section order_params_lemmas.
Context `{HO : HashOrder}.

Lemma set_opt_NoDup {A} k (f : A → string) v m : NoDup (keys m) → NoDup (keys (set_opt k f v m)).
Proof. destruct v; simpl; [apply set_NoDup | done]. Qed.

Lemma find_set_opt {A} k (f : A → string) v m k' :
  NoDup (keys m) →
  find k' (set_opt k f v m) =
  if decide (k' = k) then match v with Some x => Some (f x) | None => find k' m end else find k' m.
Proof. destruct v; simpl; [apply find_set | by case_decide]. Qed.

Lemma set_opt_clean {A} k (f : A → string) v m :
  (∀ x, v = Some x → pair_clean (k, f x)) → Forall pair_clean m → Forall pair_clean (set_opt k f v m).
Proof. destruct v; simpl; [intros H ?; apply Sign.set_clean; auto | done]. Qed.

Lemma set_if_NoDup (b : bool) k v m : NoDup (keys m) → NoDup (keys (if b then Query.set k v m else m)).
Proof. destruct b; [apply set_NoDup | done]. Qed.

Lemma find_set_if (b : bool) k v m k' :
  NoDup (keys m) →
  find k' (if b then Query.set k v m else m) =
  if decide (k' = k) then if b then Some v else find k' m else find k' m.
Proof. destruct b; [apply find_set | by case_decide]. Qed.

Lemma nil_NoDup : NoDup (keys []).
Proof. constructor. Qed.
End order_params_lemmas.

#[export] Hint Resolve nil_NoDup set_NoDup set_opt_NoDup set_if_NoDup : bintrade.

(** Look a key up in parameters built by a chain of assignments. *)
Ltac find_params :=
  repeat (first [rewrite find_set_opt by auto 12 with bintrade | rewrite find_set_if by auto 12 with bintrade
                | rewrite find_set by auto 12 with bintrade]; simpl).

Section order_params_props.
Context `{HO : HashOrder}.

Lemma build_new_order_params_NoDup r : NoDup (keys (build_new_order_params r)).
Proof. unfold build_new_order_params. auto 12 with bintrade. Qed.

Definition new_order_keys : list string :=
  ["symbol"; "side"; "type"; "quantity"; "timeInForce"; "price"; "newClientOrderId"; "stopPrice"].

Lemma new_order_quantity r :
  find "quantity" (build_new_order_params r) = Some (Dbl.to_string (nr_quantity r)).
Proof. unfold build_new_order_params. by find_params. Qed.

(** The parameters of a new order: symbol, side, type and quantity always, timeInForce
    unless it is GTC on a non-limit order, price, client id and stop price exactly when
    set, and nothing else. *)
Theorem new_order_params_exact r :
  let p := build_new_order_params r in
  NoDup (keys p) ∧
  find "symbol" p = Some (nr_symbol r) ∧
  find "side" p = Some (side_to_string (nr_side r)) ∧
  find "type" p = Some (order_type_to_string (nr_type r)) ∧
  find "quantity" p = Some (Dbl.to_string (nr_quantity r)) ∧
  find "timeInForce" p =
    (if decide (nr_time_in_force r = GTC ∧ nr_type r ≠ Limit) then None
     else Some (time_in_force_to_string (nr_time_in_force r))) ∧
  find "price" p = Dbl.to_string <$> nr_price r ∧
  find "newClientOrderId" p = nr_client_order_id r ∧
  find "stopPrice" p = Dbl.to_string <$> nr_stop_price r ∧
  ∀ k, k ∉ new_order_keys → find k p = None.
Proof.
  intros p. subst p. unfold build_new_order_params.
  split_and!; [by apply build_new_order_params_NoDup|..]; find_params; try done.
  - destruct (nr_time_in_force r), (nr_type r); done.
  - by destruct (nr_client_order_id r).
  - intros k Hk. unfold new_order_keys in Hk. rewrite !not_elem_of_cons in Hk.
    find_params. by rewrite !decide_False by naive_solver.
Qed.

Lemma print_micros_no_amp neg u : 0 ≤ u → no_char "&" (Dbl.print_micros neg u) = true.
Proof.
  intros Hu. unfold Dbl.print_micros. rewrite !no_char_app.
  assert (0 ≤ u / 10 ^ 6) by (apply Z.div_pos; lia).
  unfold Dec.print_nat. rewrite !Sign.digits_no_amp by auto using Dec.digits_range, Dec.pad_digits_range.
  by destruct neg.
Qed.

Lemma double_no_amp x : no_char "&" (Dbl.to_string x) = true.
Proof.
  destruct x as [s|s| |s m e]; simpl; [by apply print_micros_no_amp | by destruct s | done |].
  apply print_micros_no_amp, Dbl.micros_nonneg.
Qed.

(** Symbol and client order id without the separator. *)
Definition request_clean (r : NewOrderRequest) : Prop :=
  no_char "&" (nr_symbol r) = true ∧
  ∀ cid, nr_client_order_id r = Some cid → no_char "&" cid = true.

Lemma new_order_params_clean r : request_clean r → Forall pair_clean (build_new_order_params r).
Proof.
  intros [Hsym Hcid]. unfold build_new_order_params.
  assert (Hd : ∀ x, no_char "&" (Dbl.to_string x) = true) by apply double_no_amp.
  assert (∀ b k v m, pair_clean (k, v) → Forall pair_clean m →
            Forall pair_clean (if b : bool then Query.set k v m else m)) as Hif
    by (intros [] k v m ??; [by apply Sign.set_clean | done]).
  repeat first [apply set_opt_clean | apply Hif | apply Sign.set_clean | apply Forall_nil_2];
    intros; repeat split; simpl; auto;
    first [by destruct (nr_side r) | by destruct (nr_type r) | by destruct (nr_time_in_force r)].
Qed.

(** C34: The quantity on the wire is the request's finite quantity rounded to six
    decimals, to nearest: the sent decimal is within half a unit of the sixth place, and
    a quantity of at most half a millionth is sent as zero. *)
Theorem order_quantity_rounded r s m e :
  nr_quantity r = S754_finite s m e →
  ∃ str u, find "quantity" (build_new_order_params r) = Some str ∧
    Dbl.scan_decimal str = Some {| Dbl.d_neg := s; Dbl.d_mant := u; Dbl.d_exp := -6 |} ∧
    Z.abs (2 * (Z.pos m * 10 ^ 6 * 2 ^ Z.max 0 e - 2 ^ Z.max 0 (- e) * u)) ≤ 2 ^ Z.max 0 (- e) ∧
    (2 * Z.pos m * 10 ^ 6 * 2 ^ Z.max 0 e ≤ 2 ^ Z.max 0 (- e) → u = 0).
Proof.
  intros Hq. pose proof (new_order_quantity r) as Hf.
  exists (Dbl.to_string (nr_quantity r)), (Dbl.micros m e).
  split_and!; [done | rewrite Hq; apply Dbl.to_string_finite | apply Dbl.micros_error | apply Dbl.micros_dust].
Qed.
End order_params_props.

Section endpoint_props.
Context `{L : JsonLib} `{HO : HashOrder} {T : Type} `{HT : HttpTransport T}.
Context (hmac_sha256 : string → string → list Z).

Lemma bind_fst_throw {S A B} (m : stM S exn A) (k : A → stM S exn B) c e c' :
  m c = (Throw e, c') → (m ≫= k) c = (Throw e, c').
Proof. unfold mbind, stM_bind. by intros ->. Qed.

Lemma bind_same {S A B} (m m' : stM S exn A) (k : A → stM S exn B) c :
  m c = m' c → (m ≫= k) c = (m' ≫= k) c.
Proof. unfold mbind, stM_bind. by intros ->. Qed.

(** Without credentials every trading and account method throws AuthenticationException
    and leaves the client, its transport included, untouched: nothing is sent. *)
Theorem unauthenticated_sends_nothing now (c : Impl) request cancel symbol order_id cid limit :
  signer c = None →
  new_order hmac_sha256 now request c = (auth_error, c) ∧
  test_new_order hmac_sha256 now request c = (auth_error, c) ∧
  query_order hmac_sha256 now symbol order_id c = (auth_error, c) ∧
  query_order_by_client_id hmac_sha256 now symbol cid c = (auth_error, c) ∧
  cancel_order hmac_sha256 now cancel c = (auth_error, c) ∧
  cancel_all_orders hmac_sha256 now symbol c = (auth_error, c) ∧
  get_open_orders hmac_sha256 now symbol c = (auth_error, c) ∧
  get_all_open_orders hmac_sha256 now c = (auth_error, c) ∧
  get_all_orders hmac_sha256 now symbol limit c = (auth_error, c) ∧
  get_account_info hmac_sha256 now c = (auth_error, c) ∧
  get_account_trades hmac_sha256 now symbol limit c = (auth_error, c).
Proof.
  intros Hs. pose proof (λ path params, unsigned_throws hmac_sha256 now path params c Hs) as Hu.
  split_and!; apply bind_fst_throw; apply Hu.
Qed.

(** *** The asynchronous twins *)
Section async.
Context {TL : TransportLaws HT}.

Lemma async_public_get_eq path params c : async_public_get path params c = public_get path params c.
Proof using TL. unfold async_public_get, public_get. by rewrite law_async_get. Qed.

Lemma async_signed_get_eq now path params c :
  async_signed_get hmac_sha256 now path params c = signed_get hmac_sha256 now path params c.
Proof using TL.
  unfold async_signed_get, signed_get, sign_params. unfold mbind at 1 5, stM_bind at 1 5.
  destruct (signer c); [|done]. by rewrite law_async_get.
Qed.

Lemma async_signed_post_eq now path params c :
  async_signed_post hmac_sha256 now path params c = signed_post hmac_sha256 now path params c.
Proof using TL.
  unfold async_signed_post, signed_post, sign_params. unfold mbind at 1 5, stM_bind at 1 5.
  destruct (signer c); [|done]. by rewrite law_async_post.
Qed.

Lemma async_signed_delete_eq now path params c :
  async_signed_delete hmac_sha256 now path params c = signed_delete hmac_sha256 now path params c.
Proof using TL.
  unfold async_signed_delete, signed_delete, sign_params. unfold mbind at 1 5, stM_bind at 1 5.
  destruct (signer c); [|done]. by rewrite law_async_del.
Qed.

(** Every asynchronous method of the REST clients computes what its blocking twin
    computes, result and state, over any transport whose asynchronous and blocking calls
    agree. *)
Theorem async_methods_agree now (c : Impl) request cancel symbol order_id cid interval limit :
  (async_ping c = ping c ∧ async_server_time c = server_time c) ∧
  (async_get_order_book symbol limit c = get_order_book symbol limit c ∧
   async_get_recent_trades symbol limit c = get_recent_trades symbol limit c ∧
   async_get_klines symbol interval limit c = get_klines symbol interval limit c ∧
   async_get_ticker_24h symbol c = get_ticker_24h symbol c ∧
   async_get_price_ticker symbol c = get_price_ticker symbol c ∧
   async_get_all_price_tickers c = get_all_price_tickers c) ∧
  (async_new_order hmac_sha256 now request c = new_order hmac_sha256 now request c ∧
   async_test_new_order hmac_sha256 now request c = test_new_order hmac_sha256 now request c ∧
   async_query_order hmac_sha256 now symbol order_id c = query_order hmac_sha256 now symbol order_id c ∧
   async_query_order_by_client_id hmac_sha256 now symbol cid c =
     query_order_by_client_id hmac_sha256 now symbol cid c ∧
   async_cancel_order hmac_sha256 now cancel c = cancel_order hmac_sha256 now cancel c ∧
   async_cancel_all_orders hmac_sha256 now symbol c = cancel_all_orders hmac_sha256 now symbol c ∧
   async_get_open_orders hmac_sha256 now symbol c = get_open_orders hmac_sha256 now symbol c ∧
   async_get_all_open_orders hmac_sha256 now c = get_all_open_orders hmac_sha256 now c ∧
   async_get_all_orders hmac_sha256 now symbol limit c = get_all_orders hmac_sha256 now symbol limit c) ∧
  (async_get_account_info hmac_sha256 now c = get_account_info hmac_sha256 now c ∧
   async_get_account_trades hmac_sha256 now symbol limit c = get_account_trades hmac_sha256 now symbol limit c).
Proof using TL.
  split; [unfold async_ping, ping, async_server_time, server_time; by rewrite !law_async_get|].
  split_and!; apply bind_same; auto using async_public_get_eq, async_signed_get_eq,
    async_signed_post_eq, async_signed_delete_eq.
Qed.
End async.

(** *** Placing an order *)
Context (hmac_bytes : ∀ k m, Forall (λ b, 0 ≤ b < 256) (hmac_sha256 k m)).

(** Placing an order posts one form to /api/v3/order whose signature the exchange
    accepts and which decodes to exactly the parameters built from the request, provided
    inserting the signature does not reorder the map and symbol and client id contain no
    separator. *)
Theorem new_order_on_the_wire now r (c : Impl) creds :
  signer c = Some creds → order_stable HO → request_clean r →
  ∃ form,
    new_order hmac_sha256 now r c =
      (let '(o, c') := finish (t_post "/api/v3/order" form [] (http c)) c in
       (o ≫= parse_one parse_order, c')) ∧
    Sign.server_accepts hmac_sha256 (Creds.api_secret creds) form = true ∧
    ∀ k, k ≠ "timestamp" → k ≠ "signature" →
      find k (parse_query form) = find k (build_new_order_params r).
Proof using hmac_bytes.
  intros Hs Hst Hcl. pose proof (new_order_params_clean r Hcl) as Hpc.
  pose proof (build_new_order_params_NoDup r) as Hnd.
  exists (query_loop (Sign.sign_parameters hmac_sha256 creds now (build_new_order_params r))).
  split_and!.
  - unfold new_order, mbind at 1, stM_bind. rewrite (signed_post_spec _ _ _ _ _ creds) by done.
    destruct (finish _ _) as [[] ?]; done.
  - apply Sign.signed_query_verifies; try done. apply find_None.
    unfold build_new_order_params. by find_params.
  - intros k Hts Hsg. rewrite query_loop_join, parse_query_join by by apply Sign.sign_parameters_clean.
    rewrite Sign.sign_parameters_find by done. by rewrite !decide_False.
Qed.

(** *** Listing orders *)
Context {LL : JsonLaws L}.

(** get_open_orders on a successful response whose array elements describe orders
    returns exactly those orders, in order. *)
Theorem open_orders_complete now symbol (c : Impl) creds resp t j os :
  signer c = Some creds →
  t_get "/api/v3/openOrders" (Sign.sign_parameters hmac_sha256 creds now (symbol_params symbol)) (http c)
    = (Ok resp, t) →
  Exec.status_code resp < 400 → Exec.body resp ≠ "" → json_parse (Exec.body resp) = Ok j → Forall2 order_document (elements j) os →
  (get_open_orders hmac_sha256 now symbol c).1 = Ok os.
Proof using LL.
  intros Hs Ht Hst Hb Hj Hos. unfold get_open_orders, mbind at 1, stM_bind.
  rewrite (signed_get_spec _ _ _ _ _ creds), Ht by done. unfold finish, check_status. simpl.
  destruct (Z.leb_spec 400 (Exec.status_code resp)); [lia|]. simpl.
  unfold parse_one, parse_each, parse_response. rewrite decide_False, Hj by done. simpl.
  apply traverse_Ok_iff. eapply Forall2_impl; [done|]. intros x o Ho. by apply order_document_parses.
Qed.
End endpoint_props.

(** A client order id with a separator adds parameters of its own. *)
Definition injecting_request : NewOrderRequest :=
  {| nr_symbol := "BTCUSDT"; nr_side := Buy; nr_type := Market; nr_time_in_force := GTC;
     nr_quantity := Dbl.dzero; nr_price := None;
     nr_client_order_id := Some "x&recvWindow=60000"; nr_stop_price := None |}.

(** No percent-encoding: a client order id with a separator adds parameters of its own
    to the request. *)
Theorem client_id_injects_parameters :
  let p := build_new_order_params (HO := HttpWitness.insertion_order) injecting_request in
  find "recvWindow" p = None ∧
  find "recvWindow" (parse_query (query_loop p)) = Some "60000".
Proof. vm_compute. done. Qed.

(** ** Examples *)
Module SubClientsWitness.
Import Tree HttpWitness RestWitness AuthWitness.

(** 2^-30 of a coin: below half a unit of the sixth decimal. *)
Definition dust_order : NewOrderRequest :=
  {| nr_symbol := "BTCUSDT"; nr_side := Buy; nr_type := Limit; nr_time_in_force := GTC;
     nr_quantity := S754_finite false 4503599627370496 (-82); nr_price := Some (S754_finite false 1 3);
     nr_client_order_id := Some "my-order-1"; nr_stop_price := None |}.

Definition order_doc : json :=
  JObj [("symbol", JStr "BTCUSDT"); ("orderId", JInt 28); ("clientOrderId", JStr "abc");
        ("price", JStr "0.5"); ("origQty", JStr "10.0"); ("executedQty", JStr "0");
        ("cummulativeQuoteQty", JStr "0"); ("status", JStr "NEW"); ("timeInForce", JStr "GTC");
        ("type", JStr "LIMIT"); ("side", JStr "SELL"); ("time", JInt 1507725176595);
        ("updateTime", JInt 1507725176595)].

Definition orders_response : Exec.HttpResponse :=
  ok_response (quoted "[{'symbol':'BTCUSDT','orderId':28,'clientOrderId':'abc','price':'0.5','origQty':'10.0','executedQty':'0','cummulativeQuoteQty':'0','status':'NEW','timeInForce':'GTC','type':'LIMIT','side':'SELL','time':1507725176595,'updateTime':1507725176595}]").

Definition the_order : Order :=
  {| o_symbol := "BTCUSDT"; o_order_id := 28; o_client_order_id := "abc";
     o_price := S754_finite false 4503599627370496 (-53);
     o_orig_qty := S754_finite false 5629499534213120 (-49);
     o_executed_qty := Dbl.dzero; o_cummulative_quote_qty := Dbl.dzero; o_status := New;
     o_time_in_force := GTC; o_type := Limit; o_side := Sell;
     o_time := 1507725176595000000; o_update_time := 1507725176595000000 |}.

Lemma order_quantity_rounded_witness :
  find "quantity" (build_new_order_params dust_order) = Some "0.000000" ∧
  ∃ str u, find "quantity" (build_new_order_params dust_order) = Some str ∧ u = 0 ∧
    Dbl.scan_decimal str = Some {| Dbl.d_neg := false; Dbl.d_mant := u; Dbl.d_exp := -6 |}.
Proof.
  split; [vm_compute; reflexivity|].
  destruct (order_quantity_rounded dust_order false 4503599627370496 (-82) eq_refl)
    as (str & u & Hf & Hs & _ & Hd).
  exists str, u. split; [done|]. split; [apply Hd; vm_compute; discriminate | done].
Defined.

Lemma unauthenticated_sends_nothing_witness :
  new_order toy_mac 1000 dust_order (anonymous (ok_response "{}")) =
  (auth_error, anonymous (ok_response "{}")).
Proof.
  exact (proj1 (unauthenticated_sends_nothing toy_mac 1000 (anonymous (ok_response "{}")) dust_order
    {| cr_symbol := "BTCUSDT"; cr_order_id := None; cr_client_order_id := None |} "BTCUSDT" 1 "x" 10 eq_refl)).
Defined.

Lemma async_methods_agree_witness :
  async_ping (anonymous (ok_response "{}")) = ping (anonymous (ok_response "{}")).
Proof.
  exact (proj1 (proj1 (async_methods_agree toy_mac 1000 (anonymous (ok_response "{}")) dust_order
    {| cr_symbol := "BTCUSDT"; cr_order_id := None; cr_client_order_id := None |} "BTCUSDT" 1 "x" "1m" 10))).
Defined.

Lemma insertion_order_stable : order_stable insertion_order.
Proof. intros m kv. exists m, []. by rewrite app_nil_r. Qed.

Lemma new_order_on_the_wire_witness :
  ∃ form, Sign.server_accepts toy_mac (Creds.api_secret creds) form = true ∧
    find "symbol" (parse_query form) = Some "BTCUSDT".
Proof.
  destruct (new_order_on_the_wire toy_mac toy_mac_bytes 1000 dust_order
              (authenticated (ok_response "{}")) creds) as (form & _ & Hacc & Hf).
  - done.
  - exact insertion_order_stable.
  - split; [done|]. by intros cid [= <-].
  - exists form. split; [done|]. by rewrite Hf.
Defined.

Lemma order_doc_describes : order_document order_doc the_order.
Proof.
  constructor; try done; try (by eexists);
    try (by eexists; split; [by eexists | vm_compute; reflexivity]);
    by eexists _, _; split_and!; [done | done | done | vm_compute; split; [discriminate | reflexivity]].
Qed.

Lemma open_orders_complete_witness :
  (get_open_orders toy_mac 1000 "BTCUSDT" (authenticated orders_response)).1 = Ok [the_order].
Proof.
  apply (open_orders_complete (L := TreeJson) toy_mac 1000 "BTCUSDT" (authenticated orders_response) creds orders_response
           (Mock ["/api/v3/openOrders"] orders_response) (JArr [order_doc])).
  - done.
  - done.
  - simpl. lia.
  - done.
  - vm_compute. reflexivity.
  - constructor; [exact order_doc_describes | constructor].
Defined.
End SubClientsWitness.
