(* ===== verification/Session.v ===== *)
(** * A session: the REST clients over the pooled transport

    A program that owns one [Client] over [HttpClient] and calls methods of
    [MarketDataClient], [TradingClient] and [AccountClient] one after the
    other, each waiting for its answer.  [endpoint] is the table of what
    the exchange documents for each method (verb, whether it is signed,
    path, parameters), [wire_request] the request a method owes the wire,
    and [journal] the abstract specification of a session.  The theorems
    show that the three layers (endpoint clients, base client, pooled
    transport) implement it. *)

From Stdlib Require Import Ascii.
From S2P Require Import Prelude Errors CppLib Query CoreTypes Json RestParse Auth Hmac HttpClient RestClient SubClients HttpTasks.
Import Client Exec Pool Url.
Local Open Scope Z_scope.

Module Session.

(** The public methods of each class, with their arguments. *)
Inductive client_call : Type := Ping | ServerTime.

Inductive market_call : Type :=
  | GetOrderBook (symbol : Symbol) (limit : Z)
  | GetRecentTrades (symbol : Symbol) (limit : Z)
  | GetKlines (symbol : Symbol) (interval : string) (limit : Z)
  | GetTicker24h (symbol : Symbol)
  | GetPriceTicker (symbol : Symbol)
  | GetAllPriceTickers.

Inductive trading_call : Type :=
  | PlaceOrder (request : NewOrderRequest)
  | TestNewOrder (request : NewOrderRequest)
  | QueryOrder (symbol : Symbol) (order_id : OrderId)
  | QueryOrderByClientId (symbol : Symbol) (client_order_id : ClientOrderId)
  | CancelOrder (request : CancelOrderRequest)
  | CancelAllOrders (symbol : Symbol)
  | GetOpenOrders (symbol : Symbol)
  | GetAllOpenOrders
  | GetAllOrders (symbol : Symbol) (limit : Z).

Inductive account_call : Type :=
  | GetAccountInfo
  | GetAccountTrades (symbol : Symbol) (limit : Z).

Inductive call : Type :=
  | ClientCall (c : client_call)
  | MarketCall (c : market_call)
  | TradingCall (c : trading_call)
  | AccountCall (c : account_call).

Coercion ClientCall : client_call >-> call.
Coercion MarketCall : market_call >-> call.
Coercion TradingCall : trading_call >-> call.
Coercion AccountCall : account_call >-> call.

(** ** The specification *)
Section spec.
Context `{HO : HashOrder} (hmac_sha256 : string → string → list Z).

Record entry : Type := Entry { e_verb : verb; e_signed : bool; e_path : string; e_params : Params }.

Definition client_endpoint (c : client_call) : entry :=
  match c with
  | Ping => Entry get_ false "/api/v3/ping" []
  | ServerTime => Entry get_ false "/api/v3/time" []
  end.

Definition market_endpoint (c : market_call) : entry :=
  match c with
  | GetOrderBook s l => Entry get_ false "/api/v3/depth" (symbol_limit_params s l)
  | GetRecentTrades s l => Entry get_ false "/api/v3/trades" (symbol_limit_params s l)
  | GetKlines s i l => Entry get_ false "/api/v3/klines" (klines_params s i l)
  | GetTicker24h s => Entry get_ false "/api/v3/ticker/24hr" (symbol_params s)
  | GetPriceTicker s => Entry get_ false "/api/v3/ticker/price" (symbol_params s)
  | GetAllPriceTickers => Entry get_ false "/api/v3/ticker/price" []
  end.

Definition trading_endpoint (c : trading_call) : entry :=
  match c with
  | PlaceOrder r => Entry post_ true "/api/v3/order" (build_new_order_params r)
  | TestNewOrder r => Entry post_ true "/api/v3/order/test" (build_new_order_params r)
  | QueryOrder s i => Entry get_ true "/api/v3/order" (Query.set "orderId" (Dec.to_string i) (symbol_params s))
  | QueryOrderByClientId s i => Entry get_ true "/api/v3/order" (Query.set "origClientOrderId" i (symbol_params s))
  | CancelOrder r => Entry delete_ true "/api/v3/order" (build_cancel_params r)
  | CancelAllOrders s => Entry delete_ true "/api/v3/openOrders" (symbol_params s)
  | GetOpenOrders s => Entry get_ true "/api/v3/openOrders" (symbol_params s)
  | GetAllOpenOrders => Entry get_ true "/api/v3/openOrders" []
  | GetAllOrders s l => Entry get_ true "/api/v3/allOrders" (symbol_limit_params s l)
  end.

Definition account_endpoint (c : account_call) : entry :=
  match c with
  | GetAccountInfo => Entry get_ true "/api/v3/account" []
  | GetAccountTrades s l => Entry get_ true "/api/v3/myTrades" (symbol_limit_params s l)
  end.

Definition endpoint (cl : call) : entry :=
  match cl with
  | ClientCall c => client_endpoint c
  | MarketCall c => market_endpoint c
  | TradingCall c => trading_endpoint c
  | AccountCall c => account_endpoint c
  end.

(** Verb, target and body of a method; none when it must be signed and
    there are no credentials. *)
Definition request_line (auth : option Creds.Credentials) (now : Z) (cl : call) : option (verb * string * string) :=
  let '(Entry v signed path params) := endpoint cl in
  ps ← (if signed then (λ creds, Sign.sign_parameters hmac_sha256 creds now params) <$> auth
        else Some params);
  Some match v with post_ => (v, path, query_loop ps) | _ => (v, target_of path ps, "") end.

Definition key_of (auth : option Creds.Credentials) : string :=
  match auth with Some creds => Creds.api_key creds | None => "" end.

Definition header (server key body : string) : list (string * string) :=
  [("Host", server); ("User-Agent", "bintrade/0.1.0"); ("Accept", "application/json"); ("Connection", "keep-alive")]
  ++ (if decide (key = "") then [] else [("X-MBX-APIKEY", key)])
  ++ (if decide (body = "") then [] else [("Content-Type", "application/x-www-form-urlencoded")]).

Definition wire_request (server : string) (auth : option Creds.Credentials) (now : Z) (cl : call) : option request :=
  '(v, t, b) ← request_line auth now cl;
  Some {| q_method := v; q_target := t; q_fields := header server (key_of auth) b; q_body := b |}.

(** A session: each call, made at its time, puts its request on the wire
    once, or does not and fails; a call that was sent may fail too. *)
Inductive journal (server : string) (auth : option Creds.Credentials)
    : list (Z * call) → list bool → list request → Prop :=
  | journal_nil : journal server auth [] [] []
  | journal_sent now cl q ok cs oks qs :
      wire_request server auth now cl = Some q → journal server auth cs oks qs →
      journal server auth ((now, cl) :: cs) (ok :: oks) (q :: qs)
  | journal_unsent now cl cs oks qs :
      journal server auth cs oks qs → journal server auth ((now, cl) :: cs) (false :: oks) qs.
End spec.

(** ** The implementation *)
Section impl.
Context `{L : JsonLib} `{HO : HashOrder} `{N : Network}.
Context (hmac_sha256 : string → string → list Z).

Definition exec_client (c : client_call) : stM (Impl (T := client)) exn () :=
  match c with
  | Ping => _ ← ping; mret ()
  | ServerTime => _ ← server_time; mret ()
  end.

Definition exec_market (c : market_call) : stM (Impl (T := client)) exn () :=
  match c with
  | GetOrderBook s l => _ ← get_order_book s l; mret ()
  | GetRecentTrades s l => _ ← get_recent_trades s l; mret ()
  | GetKlines s i l => _ ← get_klines s i l; mret ()
  | GetTicker24h s => _ ← get_ticker_24h s; mret ()
  | GetPriceTicker s => _ ← get_price_ticker s; mret ()
  | GetAllPriceTickers => _ ← get_all_price_tickers; mret ()
  end.

Definition exec_trading (now : Z) (c : trading_call) : stM (Impl (T := client)) exn () :=
  match c with
  | PlaceOrder r => _ ← new_order hmac_sha256 now r; mret ()
  | TestNewOrder r => test_new_order hmac_sha256 now r
  | QueryOrder s i => _ ← query_order hmac_sha256 now s i; mret ()
  | QueryOrderByClientId s i => _ ← query_order_by_client_id hmac_sha256 now s i; mret ()
  | CancelOrder r => _ ← cancel_order hmac_sha256 now r; mret ()
  | CancelAllOrders s => _ ← cancel_all_orders hmac_sha256 now s; mret ()
  | GetOpenOrders s => _ ← get_open_orders hmac_sha256 now s; mret ()
  | GetAllOpenOrders => _ ← get_all_open_orders hmac_sha256 now; mret ()
  | GetAllOrders s l => _ ← get_all_orders hmac_sha256 now s l; mret ()
  end.

Definition exec_account (now : Z) (c : account_call) : stM (Impl (T := client)) exn () :=
  match c with
  | GetAccountInfo => _ ← get_account_info hmac_sha256 now; mret ()
  | GetAccountTrades s l => _ ← get_account_trades hmac_sha256 now s l; mret ()
  end.

Definition exec_call (now : Z) (cl : call) : stM (Impl (T := client)) exn () :=
  match cl with
  | ClientCall c => exec_client c
  | MarketCall c => exec_market c
  | TradingCall c => exec_trading now c
  | AccountCall c => exec_account now c
  end.

Fixpoint run_calls (calls : list (Z * call)) (c : Impl) : list (outcome exn ()) * Impl :=
  match calls with
  | [] => ([], c)
  | (now, cl) :: calls =>
      let '(o, c1) := exec_call now cl c in
      let '(os, c2) := run_calls calls c1 in (o :: os, c2)
  end.

(** [Client(config)] or [Client(config, credentials)] *)
Definition connect (config : RestConfig) (auth : option Creds.Credentials) (w : net) : outcome exn Impl :=
  match auth with
  | Some creds => connect_signed config creds w
  | None => connect_public config w
  end.

(** *** What a method does to the transport *)

(** [m] performs the request of [cl]: one call of [execute], and it
    succeeds only if that does; without credentials it does nothing. *)
Definition performs {A} (now : Z) (cl : call) (m : stM Impl exn A) : Prop := ∀ c o c',
  m c = (o, c') →
  match request_line hmac_sha256 (signer c) now cl with
  | None => is_Ok o = false ∧ c' = c
  | Some (v, t, b) => ∃ ro, execute v t b [] (http c) = (ro, http c') ∧ signer c' = signer c ∧
                            (is_Ok o → is_Ok ro)
  end.

Lemma performs_lift {A B} now cl (m : stM Impl exn A) (f : A → outcome exn B) :
  performs now cl m → performs now cl (x ← m; lift (f x)).
Proof.
  intros Hm c o c'. unfold mbind, stM_bind, lift. specialize (Hm c).
  destruct (m c) as [[x|e|f'] c1]; intros [= <- <-]; specialize (Hm _ _ eq_refl);
    destruct (request_line _ _ _ _) as [[[v t] b]|]; try done.
  - destruct Hm as (ro & ? & ? & ?). eauto.
  - by destruct Hm.
Qed.

Lemma performs_done {A} now cl (m : stM Impl exn A) :
  performs now cl m → performs now cl (_ ← m; mret ()).
Proof. apply (performs_lift now cl m (λ _, Ok ())). Qed.

Lemma finish_http (r : outcome exn HttpResponse * client) c o c' :
  finish r c = (o, c') → http c' = r.2 ∧ signer c' = signer c ∧ (is_Ok o → is_Ok r.1).
Proof. destruct r as [[resp|e|f] h]; unfold finish; simpl; by intros [= <- <-]. Qed.

Lemma performs_public_get now cl path params :
  endpoint cl = Entry get_ false path params → performs now cl (public_get path params).
Proof.
  intros He c o c'. rewrite public_get_spec. unfold request_line. rewrite He. simpl.
  intros (Hh & Hs & Ho)%finish_http. simpl in *. eexists. rewrite Hh. split; [apply surjective_pairing | done].
Qed.

Lemma performs_signed_get now cl path params :
  endpoint cl = Entry get_ true path params → performs now cl (signed_get hmac_sha256 now path params).
Proof.
  intros He c o c' Hm. unfold request_line. rewrite He. destruct (signer c) as [creds|] eqn:Hs; simpl.
  - rewrite (signed_get_spec _ _ _ _ _ creds Hs) in Hm. apply finish_http in Hm as (Hh & Hs' & Ho).
    simpl in *. eexists. rewrite Hh. split; [apply surjective_pairing|]. by rewrite Hs'.
  - rewrite (proj1 (unsigned_throws _ _ _ _ _ Hs)) in Hm. by injection Hm as <- <-.
Qed.

Lemma performs_signed_post now cl path params :
  endpoint cl = Entry post_ true path params → performs now cl (signed_post hmac_sha256 now path params).
Proof.
  intros He c o c' Hm. unfold request_line. rewrite He. destruct (signer c) as [creds|] eqn:Hs; simpl.
  - rewrite (signed_post_spec _ _ _ _ _ creds Hs) in Hm. apply finish_http in Hm as (Hh & Hs' & Ho).
    simpl in *. eexists. rewrite Hh. split; [apply surjective_pairing|]. by rewrite Hs'.
  - rewrite (proj1 (proj2 (unsigned_throws _ _ _ _ _ Hs))) in Hm. by injection Hm as <- <-.
Qed.

Lemma performs_signed_delete now cl path params :
  endpoint cl = Entry delete_ true path params → performs now cl (signed_delete hmac_sha256 now path params).
Proof.
  intros He c o c' Hm. unfold request_line. rewrite He. destruct (signer c) as [creds|] eqn:Hs; simpl.
  - rewrite (signed_delete_spec _ _ _ _ _ creds Hs) in Hm. apply finish_http in Hm as (Hh & Hs' & Ho).
    simpl in *. eexists. rewrite Hh. split; [apply surjective_pairing|]. by rewrite Hs'.
  - rewrite (proj2 (proj2 (unsigned_throws _ _ _ _ _ Hs))) in Hm. by injection Hm as <- <-.
Qed.

(** [ping] and [server_time] do not go through [public_get]. *)
Lemma performs_on_http {A} now cl path (f : HttpResponse → outcome exn A) :
  endpoint cl = Entry get_ false path [] →
  performs now cl (resp ← on_http (t_get path []); _ ← note_limits resp; lift (f resp)).
Proof.
  intros He c o c'. unfold mbind, stM_bind, on_http, note_limits, lift. unfold request_line.
  rewrite He. simpl. unfold get, async_get.
  destruct (execute _ _ _ _ _) as [[resp|e|f'] h]; intros [= <- <-]; eexists; by split_and!.
Qed.

Lemma performs_ext {A} now cl (m m' : stM Impl exn A) :
  (∀ c, m c = m' c) → performs now cl m → performs now cl m'.
Proof. intros Heq Hm c o c'. rewrite <- Heq. apply Hm. Qed.

Lemma performs_server_time now : performs now ServerTime server_time.
Proof.
  eapply performs_ext, (performs_on_http now ServerTime "/api/v3/time"
    (λ resp, j ← parse_response (status_code resp) (body resp); ms ← value_i64 j "serverTime" 0; Timestamp_ms ms));
    [|done].
  intros c. unfold server_time, mbind, stM_bind, on_http, note_limits, lift.
  destruct (t_get _ _ _) as [[resp|e|f'] h]; try done. destruct (parse_response _ _) as [j|e|f']; try done.
  simpl. by destruct (value_i64 _ _ _).
Qed.

Lemma exec_call_performs now cl : performs now cl (exec_call now cl).
Proof.
  destruct cl as [[]|[]|[]|[]]; unfold exec_call, exec_client, exec_market, exec_trading, exec_account;
    try apply performs_done.
  1: by apply (performs_on_http now Ping "/api/v3/ping" (λ resp, Ok (bool_decide (status_code resp = 200)))).
  1: apply performs_server_time.
  all: first [by apply performs_signed_post | apply performs_lift];
    first [by apply performs_public_get | by apply performs_signed_get
          | by apply performs_signed_post | by apply performs_signed_delete].
Qed.

(** *** The transport between calls *)
Context {NL : NetworkLaws N}.

(** Nothing in flight, at most one connection, and the request fields
    those of [server] and [key]. *)
Record resting (server key : string) (h : client) : Prop := {
  rest_calm : calm (pool_size_ h) (pool_ h);
  rest_one : (length (slots (pool_ h)) ≤ 1)%nat;
  rest_fields : ∀ b, request_fields h b [] = header server key b
}.

Lemma do_request_fields id m t b h c o c' :
  do_request id m t b h c = (o, c') → ∀ b' h', request_fields c' b' h' = request_fields c b' h'.
Proof. unfold do_request. intros Hr b' h'. repeat case_match; by simplify_eq. Qed.

Lemma sole_not_preconnected n id c :
  busy n id (pool_ c) → (length (slots (pool_ c)) ≤ 1)%nat → was_preconnected 0 id c = false.
Proof.
  intros Hb Hl. unfold was_preconnected. rewrite (busy_connected _ _ _ Hb). simpl.
  destruct (Nat.ltb_spec 1 (length (slots (pool_ c)))); [lia | done].
Qed.

(** From rest, [execute] sends its request at most once, exactly once if
    it returns a response, and is at rest again. *)
Lemma execute_resting server key v t b h o h' :
  resting server key h → execute v t b [] h = (o, h') →
  resting server key h' ∧
  (sent h' = sent h ++ [{| q_method := v; q_target := t; q_fields := header server key b; q_body := b |}] ∨
   sent h' = sent h ∧ is_Ok o = false).
Proof using NL.
  intros [Hc Hl Hf] Hx. pose proof Hx as Hx'.
  apply execute_from_calm in Hx' as (Hc' & _ & Hl' & _); [|done].
  unfold execute in Hx. cbn [execute_from max_attempts] in Hx.
  destruct (acquire_calm h Hc) as (oa & c1 & Ha & Hn1 & Hs1 & Hl1 & Hst).
  rewrite Ha in Hx. apply acquire_frame in Ha as [_ Hf1].
  destruct oa as [id|e|f]; [|injection Hx as <- <-|done].
  2:{ split; [|by right]. split; [done | lia |]. intros b'. by rewrite Hf1. }
  destruct (do_request id v t b [] c1) as [o2 c2] eqn:Hr.
  pose proof (do_request_fields _ _ _ _ _ _ _ _ Hr) as Hf2.
  apply do_request_frame in Hr as (Hp2 & Hn2 & Hs2 & Hf2').
  assert (Hrest : ∀ keep, h' = release id keep c2 → resting server key h' ∧
    sent h' = sent h ++ [{| q_method := v; q_target := t; q_fields := header server key b; q_body := b |}]).
  { intros keep ->. split; [split; [done | lia |]|].
    - intros b'. rewrite <- Hf, <- Hf1. apply Hf2.
    - simpl. by rewrite Hs2, Hs1, Hf1, Hf. }
  rewrite (sole_not_preconnected _ _ _ Hst ltac:(lia)) in Hx. simpl in Hx.
  destruct o2 as [resp|[]|f]; [..|by destruct (Hf2' f)];
    injection Hx as <- Hh'; symmetry in Hh'; apply Hrest in Hh' as [??]; auto.
Qed.

(** From rest, a method sends its request once, or fails. *)
Lemma performs_resting {A} server now cl (m : stM Impl exn A) c o c' :
  performs now cl m → resting server (key_of (signer c)) (http c) → m c = (o, c') →
  resting server (key_of (signer c)) (http c') ∧ signer c' = signer c ∧
  ((∃ q, wire_request hmac_sha256 server (signer c) now cl = Some q ∧ sent (http c') = sent (http c) ++ [q]) ∨
   sent (http c') = sent (http c) ∧ is_Ok o = false).
Proof using NL.
  intros Hm Hr He. apply Hm in He. unfold wire_request.
  destruct (request_line _ _ _ _) as [[[v t] b]|]; [|destruct He as [Hno ->]; auto].
  destruct He as (ro & Hx & Hs & Hok). apply (execute_resting server (key_of (signer c))) in Hx as [Hr1 Hsent]; [|done].
  split_and!; [done | done |]. destruct Hsent as [->|[-> Hno]]; [left; by eexists|right].
  split; [done|]. destruct (is_Ok o); [|done]. rewrite Hno in Hok. by destruct Hok.
Qed.

Lemma run_calls_journal server auth calls c os c' :
  resting server (key_of auth) (http c) → signer c = auth → run_calls calls c = (os, c') →
  resting server (key_of auth) (http c') ∧ signer c' = auth ∧
  ∃ qs, sent (http c') = sent (http c) ++ qs ∧
    journal hmac_sha256 server auth calls (is_Ok <$> os) qs.
Proof using NL.
  revert c os. induction calls as [|[now cl] calls IH]; intros c os Hr <-; simpl.
  { intros [= <- <-]. split_and!; [done | done |]. exists []. rewrite app_nil_r. by split; [|constructor]. }
  destruct (exec_call now cl c) as [o c1] eqn:He. destruct (run_calls calls c1) as [os' c2] eqn:Hrun.
  intros [= <- <-]. apply (performs_resting server now cl) in He as (Hr1 & Hs1 & Hsent); [|apply exec_call_performs | done].
  destruct (IH c1 os') as (? & ? & qs & Hqs & Hj); [done..|]. split_and!; [done | done |].
  rewrite Hqs. destruct Hsent as [(q & Hq & ->)|[-> Hno]].
  - eexists. rewrite <- (assoc_L (++)). split; [done|]. by apply journal_sent.
  - exists qs. split; [done|]. simpl. rewrite Hno. by apply journal_unsent.
Qed.

Lemma connect_resting config auth w c :
  connect config auth w = Ok c →
  ∃ url, from (rc_base_url config) = Ok url ∧ resting (host url) (key_of auth) (http c) ∧
    signer c = auth ∧ sent (http c) = [].
Proof.
  intros Hc. unfold connect, connect_signed, connect_public, make_client in Hc.
  destruct (from (rc_base_url config)) as [url|e|f]; [|by destruct auth..]. exists url. split; [done|].
  destruct auth as [creds|]; injection Hc as <-; (split_and!; [|done|done]); split; try done; simpl;
    try lia; split; [apply empty_inv | set_solver | apply empty_inv | set_solver].
Qed.

(** C3: A session of the REST clients refines its journal: whatever the network does, a
    program that makes any public calls of the client, market data, trading and account
    classes one after the other puts on the wire, in order, exactly the documented
    request of each call (verb, path, parameters, headers), once, or nothing for a call
    that fails; no call succeeds without its request having been sent, and the pool
    never holds more than one connection. *)
Theorem session_refines_journal config auth w c calls os c' :
  connect config auth w = Ok c → run_calls calls c = (os, c') →
  ∃ url, from (rc_base_url config) = Ok url ∧
    journal hmac_sha256 (host url) auth calls (is_Ok <$> os) (sent (http c')) ∧
    (length (slots (pool_ (http c'))) ≤ 1)%nat.
Proof using NL.
  intros (url & Hu & Hr & Hs & He)%connect_resting Hrun. exists url. split; [done|].
  apply (run_calls_journal (host url) auth) in Hrun as (Hr' & _ & qs & Hqs & Hj); [|done|done].
  rewrite Hqs, He. by split; [|apply (rest_one _ _ _ Hr')].
Qed.

(** *** What execute throws *)

Definition is_network (e : exn) : Prop := ∃ msg, e = bt (Exception_msg NetworkException msg).

(** Thrown while connecting. *)
Definition from_connect (e : exn) : Prop := ∃ id h p s w w', tls_connect id h p s w = (Throw e, w').

Lemma acquire_throws c e c' : acquire_connection c = (Throw e, c') → is_network e ∨ from_connect e.
Proof.
  unfold acquire_connection. destruct (acquire_begin _) as [[id|id r|id r] v]; [done|..];
    unfold do_connect; simpl; (destruct (negb _); [intros [= <- <-]; left; by eexists|]);
    (destruct (tls_connect _ _ _ _ _) as [[se|e'|f] w'] eqn:Ht; simpl;
     [|intros [= <- <-]; right; by repeat eexists|done]);
    unfold acquire_resume; simpl; repeat case_match; intros; simplify_eq.
Qed.

(** execute throws NetworkException, or what connecting threw. *)
Theorem execute_errors v t b h c e c' :
  execute v t b h c = (Throw e, c') → is_network e ∨ from_connect e.
Proof.
  unfold execute. generalize 0%nat as attempt, max_attempts as todo. intros attempt todo. revert attempt c.
  induction todo as [|todo IH]; intros attempt c; cbn [execute_from]; [intros [= <- <-]; left; by eexists|].
  destruct (acquire_connection c) as [[id|ea|f] c1] eqn:Ha; [|intros [= <- <-]; by eapply acquire_throws|done].
  destruct (do_request id v t b h c1) as [[resp|er|f] c2]; [done | |done].
  destruct er; try (intros [= <- <-]; left; by eexists). case_match; [intros [= <- <-]; left; by eexists | apply IH].
Qed.

(** A failed connect leaves execute as the exception of the network library, not as
    NetworkException: acquire_connection is called outside the try block. *)
Theorem connect_failure_escapes config pool_size w c e w' v t b h :
  make_client config pool_size w = Ok c → set_sni (host (parsed_url_ c)) w = true →
  tls_connect 0 (host (parsed_url_ c)) (port (parsed_url_ c)) None w = (Throw e, w') →
  (execute v t b h c).1 = Throw e.
Proof.
  unfold make_client. destruct (from _) as [url|e0|f]; [|done..]. intros [= <-] Hs Ht. simpl in *.
  unfold execute. cbn [execute_from max_attempts]. unfold acquire_connection, acquire_begin. simpl.
  unfold do_connect. simpl. rewrite Hs. simpl. rewrite lookup_empty, Ht. done.
Qed.

(** [execute] on a pool of two idle connections, the first of them stale:
    the request is sent again on the other one. *)
Lemma execute_two_idle v t b h i j e w :
  let q := {| q_method := v; q_target := t; q_fields := request_fields h b []; q_body := b |} in
  slots (pool_ h) = [Slot i false true; Slot j false true] →
  http_exchange i q (world h) = (Throw (beast_system_error e), w) →
  ∃ o h', execute v t b [] h = (o, h') ∧ sent h' = sent h ++ [q; q] ∧
    (is_Ok o ↔ is_Ok (http_exchange j q w).1).
Proof.
  intros q Hp Hx. unfold execute. cbn [execute_from max_attempts].
  unfold acquire_connection, acquire_begin. rewrite Hp. simpl. rewrite ?Hp.
  unfold was_preconnected. simpl. unfold do_request at 1. simpl.
  change (request_fields (with_pool h _) b []) with (request_fields h b []). fold q. rewrite Hx.
  unfold release, release_connection. simpl. rewrite (decide_True (P := i = i)) by done. simpl.
  unfold acquire_begin. simpl. unfold do_request. simpl.
  change {| q_method := v; q_target := t; q_fields := _; q_body := b |} with q.
  destruct (http_exchange j q w) as [[res|[]|f] w']; simpl; (do 2 eexists; split_and!; [done | | done]);
    simpl; by rewrite <- (assoc_L (++)).
Qed.

(** With two idle connections, an order whose answer is lost on the first is posted
    again on the second, which is reused too and not fresh: the exchange may execute it
    twice. *)
Theorem order_sent_twice now r (c : Impl) creds i j e w :
  signer c = Some creds → slots (pool_ (http c)) = [Slot i false true; Slot j false true] →
  (∀ q, http_exchange i q (world (http c)) = (Throw (beast_system_error e), w)) →
  ∃ o c' q, new_order hmac_sha256 now r c = (o, c') ∧ sent (http c') = sent (http c) ++ [q; q] ∧
    q_method q = post_ ∧ q_target q = "/api/v3/order".
Proof.
  intros Hs Hp Hx. destruct (new_order hmac_sha256 now r c) as [o c'] eqn:Hn.
  assert (Hpf : performs now (PlaceOrder r) (new_order hmac_sha256 now r))
    by (apply performs_lift; by apply performs_signed_post).
  apply Hpf in Hn. rewrite Hs in Hn. simpl in Hn. destruct Hn as (ro & Hex & _).
  destruct (execute_two_idle post_ "/api/v3/order"
    (query_loop (Sign.sign_parameters hmac_sha256 creds now (build_new_order_params r))) (http c) i j e w)
    as (o' & h' & Hex' & Hsent & _); [done | apply Hx |].
  rewrite Hex in Hex'. injection Hex' as <- <-. by eexists _, _, _.
Qed.
End impl.

(** ** What the exchange sees *)
Section server.
Context `{HO : HashOrder} (hmac_sha256 : string → string → list Z).
Context (hmac_bytes : ∀ k m, Forall (λ b, 0 ≤ b < 256) (hmac_sha256 k m)).

(** The part of a target after the first question mark. *)
Fixpoint after_question (s : string) : string :=
  match s with
  | EmptyString => ""
  | String a s => if decide (a = "?"%char) then s else after_question s
  end.

(** The parameters of a request, as the exchange reads them. *)
Definition payload (q : request) : string :=
  match q_method q with post_ => q_body q | _ => after_question (q_target q) end.

(** Strings the caller supplies have no separator in them. *)
Definition call_clean (cl : call) : Prop :=
  match cl with
  | ClientCall _ | AccountCall GetAccountInfo => True
  | MarketCall c =>
      match c with
      | GetAllPriceTickers => True
      | GetKlines s i _ => no_char "&" s = true ∧ no_char "&" i = true
      | GetOrderBook s _ | GetRecentTrades s _ | GetTicker24h s | GetPriceTicker s => no_char "&" s = true
      end
  | TradingCall c =>
      match c with
      | GetAllOpenOrders => True
      | PlaceOrder r | TestNewOrder r => request_clean r
      | QueryOrderByClientId s i => no_char "&" s = true ∧ no_char "&" i = true
      | CancelOrder r => no_char "&" (cr_symbol r) = true ∧
          ∀ cid, cr_client_order_id r = Some cid → no_char "&" cid = true
      | QueryOrder s _ | CancelAllOrders s | GetOpenOrders s | GetAllOrders s _ => no_char "&" s = true
      end
  | AccountCall (GetAccountTrades s _) => no_char "&" s = true
  end.

Lemma symbol_params_clean s : no_char "&" s = true → Forall pair_clean (symbol_params s).
Proof. intros Hs. unfold symbol_params. apply Sign.set_clean; [by repeat split | constructor]. Qed.

Lemma symbol_set_clean k v s :
  no_char "&" k = true → no_char "=" k = true → no_char "&" v = true → no_char "&" s = true →
  Forall pair_clean (Query.set k v (symbol_params s)).
Proof. intros. apply Sign.set_clean; [by repeat split | by apply symbol_params_clean]. Qed.

Lemma endpoint_clean cl : call_clean cl → Forall pair_clean (e_params (endpoint cl)).
Proof.
  destruct cl as [[]|[]|[]|[]]; simpl; intros Hc; try (by constructor); try (by apply symbol_params_clean);
    try (by apply new_order_params_clean); try (by apply symbol_set_clean; auto using Sign.to_string_no_amp).
  - destruct Hc. apply Sign.set_clean; [repeat split; apply Sign.to_string_no_amp | by apply symbol_set_clean].
  - destruct Hc. by apply symbol_set_clean.
  - destruct Hc as [Hs Hi]. unfold build_cancel_params.
    apply set_opt_clean; [intros cid Hcid; repeat split; by apply Hi|].
    apply set_opt_clean; [intros i _; repeat split; apply Sign.to_string_no_amp | by apply symbol_params_clean].
Qed.

Lemma endpoint_NoDup cl : NoDup (keys (e_params (endpoint cl))).
Proof.
  destruct cl as [[]|[]|[]|[]]; simpl; unfold symbol_limit_params, klines_params, symbol_params, build_cancel_params;
    auto 12 using build_new_order_params_NoDup with bintrade.
Qed.

Lemma endpoint_unsigned cl : "signature" ∉ keys (e_params (endpoint cl)).
Proof.
  apply find_None. destruct cl as [[]|[]|[]|[]]; simpl; unfold symbol_limit_params, klines_params, symbol_params,
    build_cancel_params, build_new_order_params; by find_params.
Qed.

Lemma after_question_app p s : no_char "?" p = true → after_question (p +:+ "?" +:+ s) = s.
Proof.
  induction p as [|a p IH]; simpl; [done|]. intros [Ha Hp]%andb_true_iff.
  rewrite str_app_cons. simpl. rewrite decide_False; [by apply IH|]. by apply negb_true_iff, bool_decide_eq_false in Ha.
Qed.

Lemma after_question_none p : no_char "?" p = true → after_question p = "".
Proof.
  induction p as [|a p IH]; simpl; [done|]. intros [Ha Hp]%andb_true_iff.
  rewrite decide_False; [by apply IH|]. by apply negb_true_iff, bool_decide_eq_false in Ha.
Qed.

Lemma after_question_target path ps : no_char "?" path = true → after_question (target_of path ps) = query_loop ps.
Proof.
  intros Hp. unfold target_of, build_query_string. destruct ps as [|p ps]; [by apply after_question_none|].
  rewrite (decide_False (P := p :: ps = [])) by done. case_decide as Hq.
  - rewrite Hq. by apply after_question_none.
  - by apply after_question_app.
Qed.

(** A signed request is accepted and says what the caller asked for. *)
Lemma wire_request_verifies server creds now cl q :
  order_stable HO → call_clean cl → e_signed (endpoint cl) = true →
  wire_request hmac_sha256 server (Some creds) now cl = Some q →
  Sign.server_accepts hmac_sha256 (Creds.api_secret creds) (payload q) = true ∧
  ∀ k, k ≠ "timestamp" → k ≠ "signature" →
    find k (parse_query (payload q)) = find k (e_params (endpoint cl)).
Proof using hmac_bytes.
  intros Hst Hcl Hsg Hq.
  pose proof (endpoint_clean cl Hcl) as Hpc. pose proof (endpoint_NoDup cl) as Hnd.
  pose proof (endpoint_unsigned cl) as Hns.
  assert (Hpl : payload q = query_loop (Sign.sign_parameters hmac_sha256 creds now (e_params (endpoint cl)))).
  { destruct cl as [[]|[]|[]|[]]; try done; injection Hq as <-; unfold payload; simpl; try done; by apply after_question_target. }
  rewrite Hpl. split; [by apply Sign.signed_query_verifies|]. intros k Hts Hsig.
  rewrite query_loop_join, parse_query_join by by apply Sign.sign_parameters_clean.
  rewrite Sign.sign_parameters_find by done. by rewrite !decide_False.
Qed.

Lemma journal_elem server auth cs oks qs q :
  journal hmac_sha256 server auth cs oks qs → q ∈ qs →
  ∃ now cl, (now, cl) ∈ cs ∧ wire_request hmac_sha256 server auth now cl = Some q.
Proof.
  induction 1 as [|now cl q' ok cs oks qs Hw _ IH|now cl cs oks qs _ IH]; [set_solver|..].
  - intros [->|Hq]%elem_of_cons; [exists now, cl; set_solver|].
    destruct (IH Hq) as (n & c & ? & ?). exists n, c. set_solver.
  - intros Hq. destruct (IH Hq) as (n & c & ? & ?). exists n, c. set_solver.
Qed.

Context `{L : JsonLib} `{N : Network} {NL : NetworkLaws N}.

(** C24: Every request a session puts on the wire belongs to a call that was made, with
    its verb and the API key; if the call is signed, the exchange accepts the signature
    and decodes exactly the call's parameters, provided inserting the signature does not
    reorder the map and no argument contains a separator. *)
Theorem session_requests_authentic config creds w c calls os c' q :
  connect config (Some creds) w = Ok c → run_calls hmac_sha256 calls c = (os, c') →
  order_stable HO → Forall (λ nc, call_clean nc.2) calls → q ∈ sent (http c') →
  ∃ now cl, (now, cl) ∈ calls ∧ (e_verb (endpoint cl) = q_method q) ∧
    (Creds.api_key creds ≠ "" → find "X-MBX-APIKEY" (q_fields q) = Some (Creds.api_key creds)) ∧
    (e_signed (endpoint cl) = true →
     Sign.server_accepts hmac_sha256 (Creds.api_secret creds) (payload q) = true ∧
     ∀ k, k ≠ "timestamp" → k ≠ "signature" →
       find k (parse_query (payload q)) = find k (e_params (endpoint cl))).
Proof using hmac_bytes NL.
  intros (url & Hu & Hr & Hs & He)%connect_resting Hrun Hst Hcl Hq.
  apply (run_calls_journal hmac_sha256 (host url) (Some creds)) in Hrun as (_ & _ & qs & Hqs & Hj); [|done|done].
  rewrite Hqs, He in Hq. destruct (journal_elem _ _ _ _ _ _ Hj Hq) as (now & cl & Hin & Hw).
  exists now, cl. split; [done|]. split_and!.
  - unfold wire_request, request_line in Hw. destruct (endpoint cl) as [v [] path ps]; simpl in *;
      destruct v; by simplify_eq/=.
  - intros Hk. unfold wire_request in Hw. destruct (request_line _ _ _ _) as [[[v t] b]|]; [|done].
    simplify_eq/=. unfold header, key_of. rewrite (decide_False (P := _ = "")) by done. done.
  - intros Hsg. eapply wire_request_verifies; try done.
    by apply (proj1 (Forall_forall _ _) Hcl (now, cl)).
Qed.
End server.
End Session.

(** ** Examples *)
Module SessionWitness.
Import Session Tree HttpWitness AuthWitness SubClientsWitness.

(** A ping, then an order whose connection is reset before the answer. *)
Definition calls : list (Z * call) :=
  [(1000, ClientCall Ping); (1001, TradingCall (PlaceOrder dust_order)); (1002, TradingCall GetAllOpenOrders)].

Definition answers : net := [reply "{}"; inl (beast_system_error "reset"); reply "[]"].

Definition session (auth : option Creds.Credentials) : Impl (T := client) :=
  match auth with Some creds => make_signed (start 4 answers) creds | None => make_public (start 4 answers) end.

Lemma session_refines_journal_witness :
  ∃ os c', run_calls toy_mac calls (session (Some creds)) = (os, c') ∧
    journal toy_mac "api.binance.com" (Some creds) calls (is_Ok <$> os) (sent (http c')).
Proof.
  destruct (run_calls toy_mac calls (session (Some creds))) as [os c'] eqn:Hr. exists os, c'. split; [done|].
  destruct (session_refines_journal (L := TreeJson) toy_mac RestConfig_default (Some creds) answers
              (session (Some creds)) calls os c') as (url & Hu & Hj & _); [vm_compute; reflexivity | done |].
  vm_compute in Hu. injection Hu as <-. exact Hj.
Defined.

Lemma clean_calls : Forall (λ nc, call_clean nc.2) calls.
Proof. repeat constructor; simpl. by intros cid [= <-]. Qed.

(** The order went out once although its answer was lost. *)
Example session_transcript :
  let '(os, c') := run_calls toy_mac calls (session (Some creds)) in
  is_Ok <$> os = [true; false; true] ∧ q_method <$> sent (http c') = [get_; post_; get_].
Proof. vm_compute. done. Qed.

(** Without credentials only the ping goes out. *)
Example public_session_transcript :
  let '(os, c') := run_calls toy_mac calls (session None) in
  is_Ok <$> os = [true; false; false] ∧ q_target <$> sent (http c') = ["/api/v3/ping"].
Proof. vm_compute. done. Qed.

Lemma session_requests_authentic_witness :
  ∃ os c' q, run_calls Sha256.hmac_sha256 calls (session (Some creds)) = (os, c') ∧ q ∈ sent (http c') ∧
    find "X-MBX-APIKEY" (q_fields q) = Some "key".
Proof.
  destruct (run_calls Sha256.hmac_sha256 calls (session (Some creds))) as [os c'] eqn:Hr.
  destruct (sent (http c')) as [|q qs] eqn:Hq; [vm_compute in Hr; by simplify_eq|].
  exists os, c', q. split; [done|]. assert (Hin : q ∈ sent (http c')) by (rewrite Hq; set_solver).
  split; [done|].
  destruct (session_requests_authentic (L := TreeJson) Sha256.hmac_sha256 Sha256.hmac_bytes RestConfig_default creds answers
              (session (Some creds)) calls os c' q) as (now & cl & _ & _ & Hk & _);
    [vm_compute; reflexivity | done | exact insertion_order_stable | exact clean_calls | done |].
  by apply Hk.
Defined.

(** The pool after two overlapping requests: two idle connections. *)
Definition two_idle : vec :=
  match Tasks.exec_events 4 TasksWitness.overlapping Tasks.init with
  | Some s => Tasks.pool s
  | None => empty_vec
  end.

Lemma order_sent_twice_witness :
  ∃ o c' q, new_order toy_mac 1000 dust_order
      (make_signed (with_pool (start 4 [inl (beast_system_error "reset"); reply "{}"]) two_idle) creds) = (o, c') ∧
    sent (http c') = [q; q] ∧ q_method q = post_.
Proof.
  destruct (order_sent_twice (L := TreeJson) toy_mac 1000 dust_order
      (make_signed (with_pool (start 4 [inl (beast_system_error "reset"); reply "{}"]) two_idle) creds)
      creds 0 1 "reset" [reply "{}"]) as (o & c' & q & Hn & Hs & Hm & _);
    [done | vm_compute; reflexivity | done |].
  by exists o, c', q.
Defined.

(** A network on which nothing can be reached. *)
Definition unreachable : Network := {|
  net := ();
  Exec.session := ();
  set_sni _ _ := true;
  tls_connect _ _ _ _ w := (Throw (beast_system_error "Connection refused"), w);
  http_exchange _ _ w := (Throw (beast_system_error "end of stream"), w)
|}.

Definition offline_client : client (N := unreachable) :=
  Exec.Client (N := unreachable) {| scheme := "https"; host := "api.binance.com"; port := "443" |} 4 "" ∅ empty_vec [] ().

Lemma execute_errors_witness :
  is_network (beast_system_error "Connection refused") ∨ from_connect (N := unreachable) (beast_system_error "Connection refused").
Proof.
  destruct (execute (N := unreachable) get_ "/api/v3/ping" "" [] offline_client) as [o c'] eqn:Hx.
  assert (Ho : o = Throw (beast_system_error "Connection refused")) by (vm_compute in Hx; by injection Hx as <- <-).
  subst o. exact (execute_errors (N := unreachable) get_ "/api/v3/ping" "" [] offline_client _ c' Hx).
Defined.

Lemma connect_failure_escapes_witness :
  (execute (N := unreachable) get_ "/api/v3/ping" "" [] offline_client).1 = Throw (beast_system_error "Connection refused").
Proof.
  apply (connect_failure_escapes (N := unreachable) RestConfig_default 4 () offline_client _ ()); vm_compute; reflexivity.
Defined.
End SessionWitness.
