(* ===== verification/Timeouts.v ===== *)
(** * Time limits of the REST transport

    The network of HttpClient.v taken apart into the operations that
    [do_connect] and [do_request] of src/rest/detail/http_client.cpp await:
    resolve, connect, handshake, write and read.  Each takes time, and
    [expires_after(config_.timeout)] bounds the ones that run on the stream;
    the resolver is not a stream and has no limit.  [timed] is the
    [Network] these operations make up, with a clock in milliseconds, so
    that every definition of HttpClient.v, and every client above it, runs
    on it unchanged. *)

From S2P Require Import Prelude Errors CppLib Query CoreTypes Json Auth HttpClient RestClient SubClients Session.
Import Exec Pool Url.
Local Open Scope Z_scope.

Module Timeouts.

(** What one operation did: how long it took, or would take without a
    limit, and how it ended. *)
Record report (A : Type) : Type := Report { took : Z; result : outcome exn A }.
Arguments Report {A}.
Arguments took {A}.
Arguments result {A}.

(** The operations as Asio, Beast and OpenSSL provide them. *)
Class Wire : Type := {
  wnet : Type;
  wsession : Type;
  endpoints : Type;
  w_set_sni : string → wnet → bool;
  w_resolve : string → string → wnet → report endpoints * wnet;
  w_connect : nat → endpoints → wnet → report () * wnet;
  w_handshake : nat → option wsession → wnet → report (option wsession) * wnet;
  w_write : nat → request → wnet → report () * wnet;
  w_read : nat → wnet → report raw_response * wnet
}.

(** They take time, fail by throwing, and name lookups take at most
    [limit] (which the system's resolver sets, not the library). *)
Class WireLaws (W : Wire) (limit : Z) : Prop := {
  law_resolve h p w : 0 ≤ took (w_resolve h p w).1 ≤ limit ∧ ∀ f, result (w_resolve h p w).1 ≠ Crash f;
  law_connect id e w : 0 ≤ took (w_connect id e w).1 ∧ ∀ f, result (w_connect id e w).1 ≠ Crash f;
  law_handshake id s w : 0 ≤ took (w_handshake id s w).1 ∧ ∀ f, result (w_handshake id s w).1 ≠ Crash f;
  law_write id q w : 0 ≤ took (w_write id q w).1 ∧ ∀ f, result (w_write id q w).1 ≠ Crash f;
  law_read id w : 0 ≤ took (w_read id w).1 ∧ ∀ f, result (w_read id w).1 ≠ Crash f
}.

Section timed.
Context `{W : Wire}.
(** [config_.timeout] in milliseconds. *)
Context (timeout : Z).

Record clocked : Type := Clocked { clock : Z; lower : wnet }.

(** Beast's error::timeout. *)
Definition timed_out : exn := beast_system_error "The socket was closed due to a timeout".

(** [co_await resolver.async_resolve(...)]: no limit. *)
Definition await {A} (op : wnet → report A * wnet) : stM clocked exn A := λ s,
  let '(r, w) := op (lower s) in (result r, Clocked (clock s + took r) w).

(** [expires_after(config_.timeout); co_await op] *)
Definition expires_after {A} (op : wnet → report A * wnet) : stM clocked exn A := λ s,
  let '(r, w) := op (lower s) in
  if took r <=? timeout then (result r, Clocked (clock s + took r) w)
  else (Throw timed_out, Clocked (clock s + timeout) w).

Definition timed_connect (id : nat) (host port : string) (sess : option wsession)
    : stM clocked exn (option wsession) :=
  eps ← await (w_resolve host port);
  _ ← expires_after (w_connect id eps);
  expires_after (w_handshake id sess).

Definition timed_exchange (id : nat) (q : request) : stM clocked exn raw_response :=
  _ ← expires_after (w_write id q);
  expires_after (w_read id).

Definition timed : Network := {|
  net := clocked;
  session := wsession;
  set_sni h s := w_set_sni h (lower s);
  tls_connect := timed_connect;
  http_exchange := timed_exchange
|}.
End timed.

Definition timeout_of (config : RestConfig) : Z := 1000 * rc_timeout config.

Section bounds.
Context `{W : Wire} (limit timeout : Z) {WL : WireLaws W limit} (Ht : 0 ≤ timeout).
Context `{HO : HashOrder}.

(** [m] takes between 0 and [n], and does not crash. *)
Definition takes {A} (n : Z) (m : stM clocked exn A) : Prop := ∀ s o s',
  m s = (o, s') → clock s ≤ clock s' ≤ clock s + n ∧ ∀ f, o ≠ Crash f.

Lemma takes_bind {A B} n1 n2 (m : stM clocked exn A) (k : A → stM clocked exn B) :
  0 ≤ n2 → takes n1 m → (∀ a, takes n2 (k a)) → takes (n1 + n2) (m ≫= k).
Proof.
  intros Hn Hm Hk s o s'. unfold mbind, stM_bind. destruct (m s) as [[a|e|f] s1] eqn:Hs; apply Hm in Hs as [Hb Hf].
  - intros [??]%Hk. split; [lia | done].
  - intros [= <- <-]. split; [lia | done].
  - by destruct (Hf f).
Qed.

Lemma takes_await {A} n (op : wnet → report A * wnet) :
  (∀ w, 0 ≤ took (op w).1 ≤ n ∧ ∀ f, result (op w).1 ≠ Crash f) → takes n (await op).
Proof.
  intros Hop s o s'. unfold await. specialize (Hop (lower s)). destruct (op (lower s)) as [r w]. simpl in Hop.
  intros [= <- <-]. simpl. split; [lia | apply Hop].
Qed.

Lemma takes_expires {A} (op : wnet → report A * wnet) :
  (∀ w, 0 ≤ took (op w).1 ∧ ∀ f, result (op w).1 ≠ Crash f) → takes timeout (expires_after timeout op).
Proof using Ht.
  intros Hop s o s'. unfold expires_after. specialize (Hop (lower s)). destruct (op (lower s)) as [r w]. simpl in Hop.
  destruct (Z.leb_spec (took r) timeout); intros [= <- <-]; simpl; (split; [lia|]); [apply Hop | done].
Qed.

Lemma limit_nonneg : wnet → 0 ≤ limit.
Proof using WL. intros w. destruct (law_resolve "" "" w) as [? _]. lia. Qed.

Lemma takes_connect id h p sess : takes (limit + 2 * timeout) (timed_connect timeout id h p sess).
Proof using Ht WL.
  replace (limit + 2 * timeout) with (limit + (timeout + timeout)) by lia.
  apply takes_bind; [lia | apply takes_await; intros; apply law_resolve|]. intros eps.
  apply takes_bind; [lia | apply takes_expires; intros; apply law_connect|]. intros _.
  apply takes_expires. intros. apply law_handshake.
Qed.

Lemma takes_exchange id q : takes (2 * timeout) (timed_exchange timeout id q).
Proof using Ht WL.
  replace (2 * timeout) with (timeout + timeout) by lia.
  apply takes_bind; [lia | apply takes_expires; intros; apply (law_write (limit := limit))|]. intros _.
  apply takes_expires. intros. apply (law_read (limit := limit)).
Qed.

#[export] Instance timed_laws : NetworkLaws (timed timeout).
Proof using Ht WL limit.
  split; simpl.
  - intros id h p s w f. destruct (timed_connect timeout id h p s w) as [o w'] eqn:He.
    apply takes_connect in He as [_ Hf]. apply Hf.
  - intros id q w f. destruct (timed_exchange timeout id q w) as [o w'] eqn:He.
    apply takes_exchange in He as [_ Hf]. apply Hf.
Qed.

#[local] Instance here : Network := timed timeout.

Definition time (c : client) : Z := clock (world c).

Lemma do_connect_time id (c : client) o c' :
  do_connect id c = (o, c') → time c ≤ time c' ≤ time c + (limit + 2 * timeout).
Proof using Ht WL.
  pose proof (limit_nonneg (lower (world c))). unfold do_connect, time. case_match; [intros [= <- <-]; lia|].
  destruct (tls_connect _ _ _ _ _) as [o1 w] eqn:He. apply takes_connect in He as [Hb Hf].
  destruct o1 as [se|e|f]; [intros [= <- <-]; done..|by destruct (Hf f)].
Qed.

Lemma acquire_time (c : client) o c' :
  acquire_connection c = (o, c') → time c ≤ time c' ≤ time c + (limit + 2 * timeout).
Proof using Ht WL.
  pose proof (limit_nonneg (lower (world c))). unfold acquire_connection.
  destruct (acquire_begin _) as [[id|id r|id r] v]; [intros [= <- <-]; unfold time; simpl; lia|..];
    (destruct (do_connect id (with_pool c v)) as [od cd] eqn:Hd; apply do_connect_time in Hd;
     destruct od as [[]|e|f]; [destruct (acquire_resume _ _ _) as [o' v']|..]; by intros [= <- <-]).
Qed.

Lemma do_request_time id m t b h (c : client) o c' :
  do_request id m t b h c = (o, c') → time c ≤ time c' ≤ time c + 2 * timeout.
Proof using Ht WL.
  unfold do_request, time. destruct (http_exchange _ _ _) as [o1 w] eqn:He.
  apply takes_exchange in He as [Hb _]. by destruct o1; intros [= <- <-].
Qed.

Definition attempt_limit : Z := limit + 4 * timeout.

Lemma execute_from_time todo attempt m t b h (c : client) o c' :
  execute_from todo attempt m t b h c = (o, c') → time c ≤ time c' ≤ time c + Z.of_nat todo * attempt_limit.
Proof using Ht WL.
  pose proof (limit_nonneg (lower (world c))) as Hl. unfold attempt_limit.
  revert attempt c Hl. induction todo as [|todo IH]; intros attempt c Hl; cbn [execute_from].
  { intros [= <- <-]. lia. }
  destruct (acquire_connection c) as [oa c1] eqn:Ha. apply acquire_time in Ha.
  destruct oa as [id|e|f]; [|intros [= <- <-]; lia..].
  destruct (do_request id m t b h c1) as [o2 c2] eqn:Hr. apply do_request_time in Hr.
  assert (Hrel : ∀ k, time (release id k c2) = time c2) by done.
  destruct o2 as [resp|[]|f]; try (intros [= <- <-]; rewrite ?Hrel; lia).
  case_match; [intros [= <- <-]; rewrite Hrel; lia|].
  intros Hx%IH; [|done]. rewrite Hrel in Hx. lia.
Qed.

(** One request takes at most two attempts of the resolver's limit plus four timeouts
    each. *)
Theorem request_time_bounded m t b h (c : client) o c' :
  execute m t b h c = (o, c') → time c ≤ time c' ≤ time c + 2 * (limit + 4 * timeout).
Proof using Ht WL. intros Hx%execute_from_time. unfold attempt_limit in Hx. done. Qed.

(** From rest a single attempt is made. *)
Lemma execute_resting_time server key v t b (h : client) o h' :
  Session.resting server key h → execute v t b [] h = (o, h') → time h ≤ time h' ≤ time h + attempt_limit.
Proof using Ht WL.
  intros [Hc Hl _] Hx. pose proof (limit_nonneg (lower (world h))) as Hlim. unfold attempt_limit.
  unfold execute in Hx. cbn [execute_from max_attempts] in Hx.
  destruct (acquire_calm h Hc) as (oa & c1 & Ha & _ & _ & Hl1 & Hst). rewrite Ha in Hx. apply acquire_time in Ha.
  destruct oa as [id|e|f]; [|injection Hx as <- <-; lia|done].
  destruct (do_request id v t b [] c1) as [o2 c2] eqn:Hr. apply do_request_time in Hr.
  assert (Hrel : ∀ k, time (release id k c2) = time c2) by done.
  rewrite (Session.sole_not_preconnected _ _ _ Hst ltac:(lia)) in Hx. simpl in Hx.
  destruct o2 as [resp|[]|f]; injection Hx as <- <-; rewrite ?Hrel; lia.
Qed.

Context `{L : JsonLib} (hmac_sha256 : string → string → list Z).

Lemma run_calls_time server auth calls (c : Client.Impl (T := client)) os c' :
  Session.resting server (Session.key_of auth) (Client.http c) → Client.signer c = auth →
  Session.run_calls hmac_sha256 calls c = (os, c') →
  time (Client.http c) ≤ time (Client.http c') ≤
    time (Client.http c) + Z.of_nat (length calls) * attempt_limit.
Proof using Ht WL.
  revert c os. induction calls as [|[now cl] calls IH]; intros c os Hr Hs; simpl.
  { intros [= <- <-]. rewrite Z.mul_0_l. lia. }
  pose proof (limit_nonneg (lower (world (Client.http c)))) as Hlim.
  destruct (Session.exec_call hmac_sha256 now cl c) as [o c1] eqn:He.
  destruct (Session.run_calls hmac_sha256 calls c1) as [os' c2] eqn:Hrun. intros [= <- <-].
  apply Session.exec_call_performs in He. rewrite Hs in He.
  destruct (Session.request_line _ _ _ _) as [[[v t] b]|].
  - destruct He as (ro & Hx & Hs1 & _). pose proof (execute_resting_time _ _ _ _ _ _ _ _ Hr Hx) as Htime.
    apply (Session.execute_resting server (Session.key_of auth)) in Hx as [Hr1 _]; [|done].
    destruct (IH c1 os'); [done | by rewrite Hs1 | done |]. rewrite Nat2Z.inj_succ, Z.mul_succ_l. lia.
  - destruct He as [_ ->]. destruct (IH c os'); [done..|]. rewrite Nat2Z.inj_succ, Z.mul_succ_l. unfold attempt_limit in *. lia.
Qed.
End bounds.

Section session.
Context `{W : Wire} (limit : Z) {WL : WireLaws W limit} `{HO : HashOrder} `{L : JsonLib}.
Context (hmac_sha256 : string → string → list Z) (config : RestConfig).
#[local] Instance network : Network := timed (timeout_of config).

(** C37: A session of n calls takes at most n times the resolver's limit plus four times
    the configured timeout: connect, handshake, write and read are each limited by it.
    *)
Theorem session_time_bounded auth w c calls os c' :
  0 ≤ rc_timeout config → Session.connect config auth w = Ok c →
  Session.run_calls hmac_sha256 calls c = (os, c') →
  0 ≤ clock (world (Client.http c')) - clock w ≤
    Z.of_nat (length calls) * (limit + 4 * (1000 * rc_timeout config)).
Proof using WL.
  intros Ht Hc Hrun. assert (Ht' : 0 ≤ timeout_of config) by (unfold timeout_of; lia).
  assert (Hw : world (Client.http c) = w).
  { clear -Hc. unfold Session.connect, Client.connect_signed, Client.connect_public, make_client in Hc.
    destruct (from _); [|by destruct auth..]. destruct auth; by injection Hc as <-. }
  assert (NL : NetworkLaws network) by (by apply (timed_laws limit)).
  apply Session.connect_resting in Hc as (url & _ & Hr & Hs & _).
  apply (run_calls_time limit (timeout_of config) Ht' hmac_sha256 (host url) auth) in Hrun; [|done..].
  change (clock (world (Client.http c)) ≤ clock (world (Client.http c')) ≤ clock (world (Client.http c)) +
    Z.of_nat (length calls) * (limit + 4 * (1000 * rc_timeout config))) in Hrun.
  rewrite Hw in Hrun. lia.
Qed.
End session.

(** *** The limit is one of operations, not of requests *)

(** A server that takes [d] for every operation and answers. *)
Definition slow (d : Z) (r : raw_response) : Wire := {|
  wnet := ();
  wsession := ();
  endpoints := ();
  w_set_sni _ _ := true;
  w_resolve _ _ w := (Report 0 (Ok ()), w);
  w_connect _ _ w := (Report d (Ok ()), w);
  w_handshake _ _ w := (Report d (Ok None), w);
  w_write _ _ w := (Report d (Ok ()), w);
  w_read _ w := (Report d (Ok r), w)
|}.

Lemma slow_laws d r : 0 ≤ d → WireLaws (slow d r) 0.
Proof. intros Hd. constructor; simpl; intros; (split; [lia | done]). Qed.

Section per_operation.
Context `{HO : HashOrder} (config : RestConfig) (r : raw_response).
#[local] Instance slow_server : Wire := slow (timeout_of config) r.
#[local] Instance slow_network : Network := timed (timeout_of config).

(** Against a server that takes the full timeout for each operation a request succeeds
    after four times the configured timeout. *)
Theorem timeout_is_per_operation t w c :
  0 < rc_timeout config → make_client config default_pool_size w = Ok c →
  ∃ resp c', execute get_ t "" [] c = (Ok resp, c') ∧ clock (world c') - clock w = 4 * timeout_of config.
Proof.
  intros Ht Hc. assert (Hle : (timeout_of config <=? timeout_of config) = true) by (apply Z.leb_le; lia).
  unfold make_client in Hc. destruct (from _) as [url|e|f]; [|done..]. injection Hc as <-.
  unfold execute. cbn [execute_from max_attempts].
  unfold acquire_connection, acquire_begin. simpl. unfold do_connect. simpl.
  unfold timed_connect, mbind, stM_bind, await, expires_after. simpl. rewrite !Hle. simpl.
  unfold acquire_resume, mark_connected. simpl. unfold deref. simpl.
  unfold do_request. simpl. unfold timed_exchange, mbind, stM_bind, expires_after. simpl. rewrite !Hle. simpl.
  do 2 eexists. split; [reflexivity|]. simpl. lia.
Qed.
End per_operation.
End Timeouts.

(** ** Examples *)
Module TimeoutsWitness.
Import Timeouts Session Tree HttpWitness AuthWitness.

Definition pong : raw_response := {| rr_status := 200; rr_body := "{}"; rr_fields := [] |}.

(** A server within the default limit of 30 s at every operation. *)
#[local] Instance server : Wire := slow 20000 pong.
#[local] Instance net_within : Network := timed (timeout_of RestConfig_default).

Definition begin : net := Clocked 0 ().

Definition fresh_client : client := Exec.Client {| scheme := "https"; host := "api.binance.com"; port := "443" |}
  default_pool_size "" ∅ empty_vec [] begin.

Lemma request_time_bounded_witness :
  ∃ o c', execute get_ "/api/v3/ping" "" [] fresh_client = (o, c') ∧ 0 ≤ clock (world c') ≤ 2 * (0 + 4 * 30000).
Proof.
  destruct (execute get_ "/api/v3/ping" "" [] fresh_client) as [o c'] eqn:Hx. exists o, c'. split; [done|].
  exact (request_time_bounded 0 (timeout_of RestConfig_default) (WL := slow_laws 20000 pong ltac:(lia)) ltac:(by vm_compute)
           get_ "/api/v3/ping" "" [] fresh_client o c' Hx).
Defined.

Lemma session_time_bounded_witness :
  ∃ os c', run_calls toy_mac [(1000, ClientCall Ping); (1001, ClientCall ServerTime)] (Client.make_public fresh_client) = (os, c') ∧
    0 ≤ clock (world (Client.http c')) - 0 ≤ 2 * (0 + 4 * (1000 * 30)).
Proof.
  destruct (run_calls toy_mac [(1000, ClientCall Ping); (1001, ClientCall ServerTime)] (Client.make_public fresh_client)) as [os c'] eqn:Hx.
  exists os, c'. split; [done|].
  exact (session_time_bounded 0 (WL := slow_laws 20000 pong ltac:(lia)) toy_mac RestConfig_default None begin
           (Client.make_public fresh_client) [(1000, ClientCall Ping); (1001, ClientCall ServerTime)] os c'
           ltac:(by vm_compute) ltac:(by vm_compute) Hx).
Defined.

(** A server that needs 40 s for an operation. *)
Example slow_server_times_out :
  (execute (N := timed (W := slow 40000 pong) 30000) get_ "/api/v3/ping" "" []
     (Exec.Client (N := timed (W := slow 40000 pong) 30000)
        {| scheme := "https"; host := "api.binance.com"; port := "443" |} 4 "" ∅ empty_vec []
        (Clocked (W := slow 40000 pong) 0 ()))).1 = Throw timed_out.
Proof. vm_compute. done. Qed.

Lemma timeout_is_per_operation_witness :
  ∃ c resp c', make_client (N := slow_network RestConfig_default pong) RestConfig_default default_pool_size
                 (Clocked (W := slow_server RestConfig_default pong) 0 ()) = Ok c ∧
    execute (N := slow_network RestConfig_default pong) get_ "/api/v3/ping" "" [] c = (Ok resp, c') ∧
    clock (W := slow_server RestConfig_default pong) (world (N := slow_network RestConfig_default pong) c') - 0 = 120000.
Proof.
  destruct (make_client (N := slow_network RestConfig_default pong) RestConfig_default default_pool_size
              (Clocked (W := slow_server RestConfig_default pong) 0 ())) as [c|e|f] eqn:Hc;
    [|vm_compute in Hc; discriminate..].
  destruct (timeout_is_per_operation RestConfig_default pong "/api/v3/ping"
              (Clocked (W := slow_server RestConfig_default pong) 0 ()) c ltac:(by vm_compute) Hc) as (resp & c' & H1 & H2).
  by exists c, resp, c'.
Defined.
End TimeoutsWitness.
