(* ===== verification/WsParse.v ===== *)
(** * include/bintrade/ws/detail/ws_parse.hpp: stream messages to structs

    The stream formats use one-letter keys.  Unlike the REST parsers these
    never subscript a key they have not tested, so the only undefined
    behaviour left is a price level with fewer than two entries and a time
    outside the clock's range. *)

From S2P Require Import Prelude Errors CppLib CoreTypes Json RestParse.
Local Open Scope Z_scope.

Section ws_parse.
Context `{L : JsonLib}.

Definition parse_trade_stream (j : json) : outcome exn Trade :=
  id ← value_u64 j "t" 0;
  price ← stod_value j "p" "0";
  qty ← stod_value j "q" "0";
  time ← time_value j "T";
  is_maker ← value_bool j "m" false;
  Ok {| t_id := id; t_order_id := 0; t_price := price; t_qty := qty;
        t_quote_qty := Dbl.dmul price qty; t_time := time;
        t_is_buyer := negb is_maker; t_is_maker := is_maker |}.

Definition parse_kline_stream (j : json) : outcome exn Kline :=
  k ← at_key j "k";
  open_time ← time_value k "t";
  close_time ← time_value k "T";
  open ← stod_value k "o" "0";
  high ← stod_value k "h" "0";
  low ← stod_value k "l" "0";
  close ← stod_value k "c" "0";
  volume ← stod_value k "v" "0";
  quote_volume ← stod_value k "q" "0";
  num_trades ← value_u64 k "n" 0;
  Ok {| k_open_time := open_time; k_open := open; k_high := high; k_low := low;
        k_close := close; k_volume := volume; k_close_time := close_time;
        k_quote_volume := quote_volume; k_num_trades := num_trades |}.

Definition parse_ticker_stream (j : json) : outcome exn Ticker :=
  symbol ← value_string j "s" "";
  price ← stod_value j "c" "0";
  time ← time_value j "E";
  Ok {| tk_symbol := symbol; tk_price := price; tk_time := time |}.

(** [if (j.contains(k)) for (const auto& x : j[k]) out.push_back(f(x));] *)
Definition each_if_present {A} (f : json → outcome exn A) (j : json) (k : string) : outcome exn (list A) :=
  if contains j k then v ← member j k; traverse f (elements v) else Ok [].

Definition parse_depth_stream (j : json) : outcome exn OrderBook :=
  symbol ← value_string j "s" "";
  last_update_id ← value_u64 j "u" 0;
  bids ← each_if_present parse_order_book_entry j "b";
  asks ← each_if_present parse_order_book_entry j "a";
  Ok {| ob_symbol := symbol; last_update_id := last_update_id; bids := bids; asks := asks |}.

Definition parse_order_update (j : json) : outcome exn Order :=
  symbol ← value_string j "s" "";
  order_id ← value_u64 j "i" 0;
  client_order_id ← value_string j "c" "";
  side ← (s ← value_string j "S" "BUY"; side_from_string s);
  type ← (s ← value_string j "o" "LIMIT"; order_type_from_string s);
  time_in_force ← (s ← value_string j "f" "GTC"; time_in_force_from_string s);
  orig_qty ← stod_value j "q" "0";
  price ← stod_value j "p" "0";
  executed_qty ← stod_value j "z" "0";
  cummulative_quote_qty ← stod_value j "Z" "0";
  status ← (s ← value_string j "X" "NEW"; order_status_from_string s);
  time ← time_value j "O";
  update_time ← time_value j "T";
  Ok {| o_symbol := symbol; o_order_id := order_id; o_client_order_id := client_order_id;
        o_price := price; o_orig_qty := orig_qty; o_executed_qty := executed_qty;
        o_cummulative_quote_qty := cummulative_quote_qty; o_status := status;
        o_time_in_force := time_in_force; o_type := type; o_side := side;
        o_time := time; o_update_time := update_time |}.

(** The loop body of [parse_account_update]. *)
Definition parse_balance_update (b : json) : outcome exn Balance :=
  asset ← value_string b "a" "";
  free ← stod_value b "f" "0";
  locked ← stod_value b "l" "0";
  Ok {| asset := asset; free := free; locked := locked |}.

Definition parse_account_update (j : json) : outcome exn AccountInfo :=
  update_time ← time_value j "u";
  balances ← each_if_present parse_balance_update j "B";
  Ok {| can_trade := false; can_withdraw := false; can_deposit := false;
        ai_update_time := update_time; account_type := ""; balances := balances |}.
End ws_parse.

Section ws_parse_props.
Context `{LL : JsonLaws}.
Hint Resolve stod_value_no_crash time_value_no_crash : nocrash.

Lemma at_key_no_crash f j k : no_crash f (at_key j k).
Proof using LL. rewrite law_at. repeat case_match; done. Qed.

Lemma each_if_present_no_crash {A} f (g : json → outcome exn A) j k :
  (∀ v x, lookup_member j k = Some v → x ∈ elements v → no_crash f (g x)) →
  no_crash f (each_if_present g j k).
Proof using LL.
  intros Hg. unfold each_if_present. destruct (contains j k) eqn:Hc; [|done].
  destruct (member_contained j k Hc) as (v & Hv & ->). simpl.
  apply no_crash_traverse. intros x Hx. by eapply Hg.
Qed.

Lemma balance_update_no_crash f b : no_crash f (parse_balance_update b).
Proof using LL. unfold parse_balance_update. no_crash_walk. Qed.

(** Every price level of the message has a price and a quantity. *)
Definition levels_ok (j : json) : Prop :=
  ∀ k v x, k = "b" ∨ k = "a" → lookup_member j k = Some v → x ∈ elements v → price_level x.

(** The six stream parsers have no undefined behaviour on any JSON value whose price
    levels have two entries, apart from a time outside the clock's range. *)
Theorem stream_parsers_defined f j :
  f ≠ ub_signed_overflow → levels_ok j →
  no_crash f (parse_trade_stream j) ∧ no_crash f (parse_kline_stream j) ∧
  no_crash f (parse_ticker_stream j) ∧ no_crash f (parse_depth_stream j) ∧
  no_crash f (parse_order_update j) ∧ no_crash f (parse_account_update j).
Proof using LL.
  intros Hf Hl.
  assert (∀ k, k = "b" ∨ k = "a" → no_crash f (each_if_present parse_order_book_entry j k)) as Hd.
  { intros k Hk. apply each_if_present_no_crash. intros v x Hv Hx.
    eapply order_book_entry_defined, Hl; eauto. }
  assert (no_crash f (each_if_present parse_balance_update j "B"))
    by (apply each_if_present_no_crash; intros; apply balance_update_no_crash).
  unfold parse_trade_stream, parse_kline_stream, parse_ticker_stream, parse_depth_stream,
    parse_order_update, parse_account_update.
  pose proof (at_key_no_crash f).
  split_and!; no_crash_walk.
Qed.

(** The message [j] reports the order [o]. *)
Record execution_report (j : json) (o : Order) : Prop := {
  er_object : is_object j = true;
  er_symbol : str_at j "s" (o_symbol o);
  er_id : u64_at j "i" (o_order_id o);
  er_client : str_at j "c" (o_client_order_id o);
  er_side : str_at j "S" (side_to_string (o_side o));
  er_type : str_at j "o" (order_type_to_string (o_type o));
  er_tif : str_at j "f" (time_in_force_to_string (o_time_in_force o));
  er_orig : double_at j "q" (o_orig_qty o);
  er_price : double_at j "p" (o_price o);
  er_exec : double_at j "z" (o_executed_qty o);
  er_quote : double_at j "Z" (o_cummulative_quote_qty o);
  er_status : str_at j "X" (order_status_to_string (o_status o));
  er_time : time_at_ms j "O" (o_time o);
  er_update : time_at_ms j "T" (o_update_time o)
}.

Lemma execution_report_parses j o : execution_report j o → parse_order_update j = Ok o.
Proof using LL.
  intros [Ho ?????????????]. unfold parse_order_update.
  erewrite !value_string_at, !stod_value_at, !time_value_at, value_u64_at by eauto. simpl.
  rewrite (proj2 (order_status_from_string_spec _ _) eq_refl),
    (proj2 (order_type_from_string_spec _ _) eq_refl), (proj2 (side_from_string_spec _ _) eq_refl),
    (proj2 (time_in_force_from_string_spec _ _) eq_refl). by destruct o.
Qed.

(** The same trade over REST and over the stream: the stream's
    [is_buyer] is the negation of the maker flag, REST's is the flag. *)
Lemma trade_stream_maker j t : parse_trade_stream j = Ok t → t_is_buyer t = negb (t_is_maker t).
Proof. unfold parse_trade_stream. intros H. repeat (apply bind_Ok_inv in H as (? & _ & H)). by injection H as <-. Qed.

Lemma trade_rest_maker j t : parse_trade j = Ok t → t_is_buyer t = t_is_maker t.
Proof.
  unfold parse_trade. intros H. do 5 (apply bind_Ok_inv in H as (? & _ & H)).
  apply bind_Ok_inv in H as (b & Hb & H). apply bind_Ok_inv in H as (m & Hm & H).
  injection H as <-. simpl. congruence.
Qed.

(** The same trade has opposite is_buyer over REST and over the stream. *)
Theorem buyer_flag_differs j j' t t' :
  parse_trade j = Ok t → parse_trade_stream j' = Ok t' → t_is_maker t = t_is_maker t' →
  t_is_buyer t ≠ t_is_buyer t'.
Proof.
  intros ->%trade_rest_maker ->%trade_stream_maker ->. by destruct (t_is_maker t').
Qed.
End ws_parse_props.

Module WsParseWitness.
Import Tree.

Definition depth_doc : json :=
  JObj [("e", JStr "depthUpdate"); ("s", JStr "BNBBTC"); ("u", JInt 160);
        ("b", JArr [JArr [JStr "0.0024"; JStr "10"]]); ("a", JArr [JArr [JStr "0.0026"; JStr "100"]])].

Lemma stream_parsers_defined_witness : no_crash ub_index_range (parse_depth_stream depth_doc).
Proof.
  apply (stream_parsers_defined (L := TreeJson) ub_index_range depth_doc); [done|].
  intros k v x [->| ->] Hv Hx; vm_compute in Hv; injection Hv as <-;
    (apply elem_of_cons in Hx as [->|Hx]; [split; [done | simpl; lia] | by apply not_elem_of_nil in Hx]).
Defined.

Definition rest_trade : json :=
  JObj [("id", JInt 1); ("price", JStr "4"); ("qty", JStr "2"); ("quoteQty", JStr "8");
        ("time", JInt 5); ("isBuyerMaker", JBool true)].
Definition stream_trade : json :=
  JObj [("e", JStr "trade"); ("t", JInt 1); ("p", JStr "4"); ("q", JStr "2"); ("T", JInt 5); ("m", JBool true)].

Lemma buyer_flag_differs_witness :
  ∃ t t', parse_trade rest_trade = Ok t ∧ parse_trade_stream stream_trade = Ok t' ∧ t_is_buyer t ≠ t_is_buyer t'.
Proof.
  destruct (parse_trade rest_trade) as [t|e|f] eqn:H1; [|vm_compute in H1; discriminate..].
  destruct (parse_trade_stream stream_trade) as [t'|e|f] eqn:H2; [|vm_compute in H2; discriminate..].
  exists t, t'. split; [done|]. split; [done|].
  apply (buyer_flag_differs (L := TreeJson) rest_trade stream_trade t t' H1 H2).
  vm_compute in H1, H2. injection H1 as <-. injection H2 as <-. reflexivity.
Defined.
End WsParseWitness.
