(* ===== verification/ParsedTypes.v ===== *)
(** * The types of parsed values

    The model keeps machine integers as [Z].  This file shows that what
    the parsers put into the model structs are values of the declared C++
    types: identifiers and counters in the range of [uint64_t], times
    counts of nanoseconds in the range of [int64_t] that are whole
    milliseconds.  [ensures Q m] says that whatever [m] returns satisfies
    [Q]; its rules follow the statements of the parsers. *)

From S2P Require Import Prelude Errors CppLib CoreTypes Json RestParse WsParse.
Local Open Scope Z_scope.

Definition ensures {E A} (Q : A → Prop) (m : outcome E A) : Prop := ∀ a, m = Ok a → Q a.

Lemma ensures_any {E A} (m : outcome E A) : ensures (λ _, True) m.
Proof. done. Qed.

Lemma ensures_Ok {E A} (Q : A → Prop) a : Q a → ensures (E := E) Q (Ok a).
Proof. by intros HQ ? [= <-]. Qed.

Lemma ensures_bind {E A B} (P : A → Prop) (Q : B → Prop) (m : outcome E A) k :
  ensures P m → (∀ a, P a → ensures Q (k a)) → ensures Q (x ← m; k x).
Proof. intros HP HQ b (a & Ha & Hb)%bind_Ok_inv. by eapply HQ; [apply HP|]. Qed.

Lemma ensures_weaken {E A} (P Q : A → Prop) (m : outcome E A) : ensures P m → (∀ a, P a → Q a) → ensures Q m.
Proof. intros HP HQ a Ha. by apply HQ, HP. Qed.

Lemma ensures_traverse {E A B} (Q : B → Prop) (f : A → outcome E B) l :
  (∀ x, ensures Q (f x)) → ensures (Forall Q) (traverse f l).
Proof.
  intros Hf ys Hys%traverse_Ok_iff. induction Hys as [|x y l ys Hy _ IH]; [constructor|].
  constructor; [by eapply Hf | done].
Qed.

(** A [Timestamp] made from milliseconds. *)
Definition time_ok (t : Timestamp) : Prop := in_i64 t ∧ (1000000 | t).

(** What a value of a model struct satisfies. *)
Class WellTyped (A : Type) : Type := well_typed : A → Prop.

#[global] Instance typed_Ticker : WellTyped Ticker := λ t, time_ok (tk_time t).
#[global] Instance typed_Ticker24h : WellTyped Ticker24h := λ t,
  time_ok (t24_open_time t) ∧ time_ok (t24_close_time t) ∧ in_u64 (t24_num_trades t).
#[global] Instance typed_OrderBook : WellTyped OrderBook := λ b, in_u64 (last_update_id b).
#[global] Instance typed_Kline : WellTyped Kline := λ k,
  time_ok (k_open_time k) ∧ time_ok (k_close_time k) ∧ in_u64 (k_num_trades k).
#[global] Instance typed_Trade : WellTyped Trade := λ t,
  in_u64 (t_id t) ∧ in_u64 (t_order_id t) ∧ time_ok (t_time t).
#[global] Instance typed_AccountTrade : WellTyped AccountTrade := λ t,
  in_u64 (at_id t) ∧ in_u64 (at_order_id t) ∧ time_ok (at_time t).
#[global] Instance typed_Order : WellTyped Order := λ o,
  in_u64 (o_order_id o) ∧ time_ok (o_time o) ∧ time_ok (o_update_time o).
#[global] Instance typed_AccountInfo : WellTyped AccountInfo := λ a, time_ok (ai_update_time a).
#[global] Instance typed_list {A} `{WellTyped A} : WellTyped (list A) := Forall well_typed.

Section parsed_types.
Context `{LL : JsonLaws}.

Lemma Timestamp_typed ms : ensures time_ok (Timestamp_ms ms).
Proof.
  unfold ensures, Timestamp_ms. intros t. destruct (in_i64b (ms * 1000000)) eqn:Hr; [|done].
  intros [= <-]. split; [by apply in_i64b_spec | by exists ms].
Qed.

Lemma time_value_typed j k : ensures time_ok (time_value j k).
Proof. unfold time_value. eapply ensures_bind; [apply ensures_any | intros; apply Timestamp_typed]. Qed.

Lemma time_at_typed j i : ensures time_ok (time_at j i).
Proof.
  unfold time_at. eapply ensures_bind; [apply ensures_any | intros v _].
  eapply ensures_bind; [apply ensures_any | intros; apply Timestamp_typed].
Qed.

Lemma value_u64_typed j k : ensures in_u64 (value_u64 j k 0).
Proof using LL. intros z. by apply value_u64_range. Qed.

Lemma get_u64_typed j i : ensures in_u64 (v ← index j i; get_u64 v).
Proof using LL. eapply ensures_bind; [apply ensures_any|]. intros v _ z. apply law_u64_range. Qed.
End parsed_types.

Create HintDb typed.
#[export] Hint Extern 0 (ensures _ (time_value _ _)) => apply time_value_typed : typed.
#[export] Hint Extern 0 (ensures _ (time_at _ _)) => apply time_at_typed : typed.
#[export] Hint Extern 0 (ensures _ (value_u64 _ _ _)) => apply value_u64_typed : typed.
#[export] Hint Extern 1 (ensures _ (mbind _ (index _ _))) => apply get_u64_typed : typed.
#[export] Hint Extern 2 (ensures _ _) => apply ensures_any : typed.

(** Walk down a parser, keeping what each field satisfies. *)
Ltac typed_walk :=
  repeat (eapply ensures_bind; [solve [auto with typed] | intros ? ?]); apply ensures_Ok.

Ltac typed_done :=
  cbv beta delta [well_typed typed_Ticker typed_Ticker24h typed_OrderBook typed_Kline typed_Trade typed_AccountTrade
                  typed_Order typed_AccountInfo]; simpl; by split_and?.

Section typed_parsers.
Context `{LL : JsonLaws}.

Lemma parse_order_typed j : ensures well_typed (parse_order j).
Proof using LL. unfold parse_order. typed_walk. typed_done. Qed.

Lemma parse_trade_typed j : ensures well_typed (parse_trade j).
Proof using LL. unfold parse_trade. typed_walk. typed_done. Qed.

Lemma parse_kline_typed j : ensures well_typed (parse_kline j).
Proof using LL. unfold parse_kline. typed_walk. typed_done. Qed.

Lemma parse_ticker_typed j : ensures well_typed (parse_ticker j).
Proof using LL. unfold parse_ticker. typed_walk. split; [done | by exists 0]. Qed.

Lemma parse_account_trade_typed j : ensures well_typed (parse_account_trade j).
Proof using LL. unfold parse_account_trade. typed_walk. typed_done. Qed.

Lemma traverse_typed {A} `{WellTyped A} (f : json → outcome exn A) l :
  (∀ x, ensures well_typed (f x)) → ensures well_typed (traverse f l).
Proof. apply ensures_traverse. Qed.

Lemma ticker_24h_typed j : ensures well_typed (parse_ticker_24h j).
Proof using LL. unfold parse_ticker_24h. typed_walk. typed_done. Qed.

Lemma order_book_typed j s : ensures well_typed (parse_order_book j s).
Proof using LL. unfold parse_order_book. typed_walk. typed_done. Qed.

Lemma account_info_typed j : ensures well_typed (parse_account_info j).
Proof using LL. unfold parse_account_info. typed_walk. typed_done. Qed.

End typed_parsers.

Module ParsedTypesWitness.
Import Tree.

End ParsedTypesWitness.
