(* ===== verification/MarketStream.v ===== *)
(** * src/ws/market_stream.cpp: subscriptions and message delivery

    [Delivery] is what happens to the messages of a stream after it is
    set up: called back on the I/O thread (Inline), or pushed into the
    SPSC queue by the I/O thread and taken out by the consumer thread
    (Queued).  It uses the queue through the bounded FIFO that
    SpscQueue.v shows it to refine.  [Market] is the class itself.
    src/ws/user_stream.cpp shares the delivery machinery (UserStream.v). *)

From S2P Require Import Prelude Errors CppLib CoreTypes Json RestParse WsParse SpscQueue.
Local Open Scope nat_scope.

(** ** Delivery of messages *)
Module Delivery.

(** [k_queue_capacity] *)
Definition k_queue_capacity : Z := 4096.

Section delivery.
(** What a message leads to: a callback with an event, or nothing. *)
Context {E : Type} (dispatch : string → outcome exn (option E)).

Record state : Type := State {
  mode : DispatchMode;
  queue : list string;        (* queue_state_->queue *)
  running : bool;             (* queue_state_->running *)
  consumer : bool;            (* consumer_thread exists *)
  delivered : list E;         (* callbacks made, in order *)
  crashed : bool
}.

Inductive label : Type :=
| Received (msg : string) (accepted : bool)   (* on_message on the I/O thread *)
| Taken (msg : string)                        (* try_pop of the consumer *)
| Polled                                      (* try_pop found nothing *)
| StopRequested                               (* stop_consumer *)
| Exited.                                     (* the consumer's loops are done *)

(** [dispatch_fn(msg)] on whichever thread. *)
Definition deliver (msg : string) (s : state) : state :=
  match dispatch msg with
  | Ok (Some e) => State (mode s) (queue s) (running s) (consumer s) (delivered s ++ [e]) (crashed s)
  | Ok None => s
  | _ => State (mode s) (queue s) (running s) (consumer s) (delivered s) true
  end.

Definition with_queue (q : list string) (s : state) : state :=
  State (mode s) q (running s) (consumer s) (delivered s) (crashed s).

(** One operation on [queue_state_->queue]. *)
Definition qstep : list string → Fifo.qlabel string → list string → Prop :=
  Fifo.bq_step (capn k_queue_capacity).

Inductive step : state → label → state → Prop :=
| recv_inline s msg :
    mode s = Inline → crashed s = false →
    step s (Received msg true) (deliver msg s)
| recv_push s msg q' :
    mode s = Queued → crashed s = false → qstep (queue s) (Fifo.Push msg) q' →
    step s (Received msg true) (with_queue q' s)
| recv_full s msg q' :
    mode s = Queued → crashed s = false → qstep (queue s) (Fifo.PushFull msg) q' →
    step s (Received msg false) (with_queue q' s)
| take s msg q' :
    consumer s = true → crashed s = false → qstep (queue s) (Fifo.Pop msg) q' →
    step s (Taken msg) (deliver msg (with_queue q' s))
| poll s q' :
    consumer s = true → running s = true → crashed s = false → qstep (queue s) Fifo.PopEmpty q' →
    step s Polled s
| stop s :
    crashed s = false →
    step s StopRequested (State (mode s) (queue s) false (consumer s) (delivered s) false)
| exit s q' :
    consumer s = true → running s = false → crashed s = false → qstep (queue s) Fifo.PopEmpty q' →
    step s Exited (State (mode s) (queue s) false false (delivered s) false).

Definition received (l : label) : option string := match l with Received m _ => Some m | _ => None end.
Definition accepted (l : label) : option string := match l with Received m true => Some m | _ => None end.
Definition taken (l : label) : option string := match l with Taken m => Some m | _ => None end.

Definition event_of (msg : string) : option E :=
  match dispatch msg with Ok o => o | _ => None end.

Definition init (m : DispatchMode) : state :=
  State m [] (bool_decide (m = Queued)) (bool_decide (m = Queued)) [] false.

Lemma deliver_delivered msg s :
  crashed (deliver msg s) = false → delivered (deliver msg s) = delivered s ++ option_list (event_of msg).
Proof.
  unfold deliver, event_of. destruct (dispatch msg) as [[e|]| |]; simpl; [done | | done | done].
  by rewrite app_nil_r.
Qed.

Lemma deliver_frame msg s :
  mode (deliver msg s) = mode s ∧ queue (deliver msg s) = queue s ∧
  consumer (deliver msg s) = consumer s ∧ (crashed s = true → crashed (deliver msg s) = true).
Proof. unfold deliver. by destruct (dispatch msg) as [[e|]| |]. Qed.

Definition delivery_inv (tr : list label) (s : state) : Prop :=
  (mode s = Inline → consumer s = false ∧ queue s = [] ∧
     (crashed s = false → delivered s = omap event_of (omap received tr))) ∧
  (mode s = Queued → omap accepted tr = omap taken tr ++ queue s ∧
     length (queue s) ≤ capn k_queue_capacity ∧
     (crashed s = false → delivered s = omap event_of (omap taken tr))).

Lemma step_mode s l s' : step s l s' → mode s' = mode s ∧ crashed s = false.
Proof. destruct 1; simpl; try done; destruct (deliver_frame msg s) as [? _]; try done.
  by destruct (deliver_frame msg (with_queue q' s)). Qed.

Lemma step_delivery_inv tr s l s' : delivery_inv tr s → step s l s' → delivery_inv (tr ++ [l]) s'.
Proof.
  intros [HI HQ] Hst. destruct (step_mode _ _ _ Hst) as [Hm Hc].
  unfold delivery_inv. rewrite !Hm, !omap_app. split; intros Hmode.
  - destruct (HI Hmode) as (Hco & Hq & Hd). specialize (Hd Hc).
    destruct Hst; simpl in *; rewrite ?app_nil_r; try congruence; try done.
    destruct (deliver_frame msg s) as (_ & -> & -> & _). split_and!; [done | done |].
    intros Hc'. rewrite deliver_delivered, Hd by done. by destruct (event_of msg).
  - destruct (HQ Hmode) as (Ha & Hl & Hd). specialize (Hd Hc).
    destruct Hst as [| ? ? ? ? ? Hq|? ? ? ? ? Hq|? ? ? ? ? Hq| | |]; simpl in *; rewrite ?app_nil_r; try congruence; try done.
    + inversion Hq; subst. rewrite Ha, <- (assoc_L (++)), length_app. simpl. split_and!; [done | lia | done].
    + by inversion Hq; subst.
    + destruct (deliver_frame msg (with_queue q' s)) as (_ & -> & _ & _). simpl.
      inversion Hq as [| |? ? Hq1| ]; subst. rewrite <- Hq1 in Ha, Hl. rewrite Ha, <- (assoc_L (++)).
      split_and!; [done | simpl in *; lia |].
      intros Hc'. rewrite deliver_delivered by done. simpl. rewrite Hd. by destruct (event_of msg).
Qed.

Lemma run_delivery_inv m tr s : run step (init m) tr s → delivery_inv tr s ∧ mode s = m.
Proof.
  revert tr s. apply (run_invariant step (λ tr s, delivery_inv tr s ∧ mode s = m)).
  - split; [|done]. split; simpl; intros ->; split_and!; simpl; try done; lia.
  - intros tr s l s' _ [Hi Hm] Hst. split; [by eapply step_delivery_inv|].
    destruct (step_mode _ _ _ Hst). congruence.
Qed.

Lemma accepted_sublist tr : omap accepted tr `sublist_of` omap received tr.
Proof. induction tr as [|[? []| | | |] tr IH]; simpl; by try constructor. Qed.

End delivery.
End Delivery.

(** ** MarketStream *)
Module Market.
Local Open Scope string_scope.

Section market.
Context `{L : JsonLib}.

Inductive subscription : Type :=
| Trades (symbol : Symbol)
| Klines (symbol : Symbol) (interval : string)
| Tickers (symbol : Symbol)
| Depth (symbol : Symbol).

(** The argument of the user's callback. *)
Inductive event : Type :=
| OnTrade (t : Trade)
| OnKline (k : Kline)
| OnTicker (t : Ticker)
| OnDepth (b : OrderBook).

Definition lower : string → string := Chars.lower.

Definition stream_name (sub : subscription) : string :=
  match sub with
  | Trades symbol => lower symbol +:+ "@trade"
  | Klines symbol interval => lower symbol +:+ "@kline_" +:+ interval
  | Tickers symbol => lower symbol +:+ "@ticker"
  | Depth symbol => lower symbol +:+ "@depth"
  end.

Definition event_tag (sub : subscription) : string :=
  match sub with
  | Trades _ => "trade" | Klines _ _ => "kline" | Tickers _ => "24hrTicker" | Depth _ => "depthUpdate"
  end.

Definition parse_event (sub : subscription) (j : json) : outcome exn event :=
  match sub with
  | Trades _ => t ← parse_trade_stream j; Ok (OnTrade t)
  | Klines _ _ => k ← parse_kline_stream j; Ok (OnKline k)
  | Tickers _ => t ← parse_ticker_stream j; Ok (OnTicker t)
  | Depth _ => b ← parse_depth_stream j; Ok (OnDepth b)
  end.

(** The lambda [dispatch_fn]: exceptions are logged and swallowed. *)
Definition dispatch_fn (sub : subscription) (msg : string) : outcome exn (option event) :=
  catch (j ← json_parse msg;
         e ← value_string j "e" "";
         if decide (e = event_tag sub) then ev ← parse_event sub j; Ok (Some ev) else Ok None)
        (λ _, Ok None).

(** [on_message] of the base class. *)
Inductive handler : Type :=
| NoHandler
| CallDispatch (sub : subscription)   (* Inline *)
| PushToQueue.                        (* Queued *)

Record stream : Type := Stream {
  dispatch_mode_ : DispatchMode;
  subscribed_ : bool;
  on_message : handler;
  queue_state_ : bool;                      (* allocated *)
  running : bool;
  consumer_thread : option subscription;    (* a joinable thread and what it captured *)
  io_thread : bool;                         (* WebSocketClient's thread is joinable *)
  connected_path : option string            (* of the live connection *)
}.

Definition make : stream := Stream Inline false NoHandler false false None false None.

Definition set_dispatch_mode (m : DispatchMode) : stM stream exn () := λ s,
  if subscribed_ s then (throw_validation "set_dispatch_mode must be called before subscribe", s)
  else (Ok (), Stream m (subscribed_ s) (on_message s) (queue_state_ s) (running s)
                      (consumer_thread s) (io_thread s) (connected_path s)).

(** Assigning to a joinable [std::thread] calls [std::terminate]. *)
Definition start_consumer (sub : subscription) : stM stream exn () := λ s,
  match consumer_thread s with
  | Some _ => (Crash std_terminate,
               Stream (dispatch_mode_ s) (subscribed_ s) (on_message s) true true
                      (consumer_thread s) (io_thread s) (connected_path s))
  | None => (Ok (), Stream (dispatch_mode_ s) (subscribed_ s) (on_message s) true true
                           (Some sub) (io_thread s) (connected_path s))
  end.

Definition install_dispatch (sub : subscription) : stM stream exn () := λ s,
  match dispatch_mode_ s with
  | Queued => start_consumer sub
                (Stream (dispatch_mode_ s) (subscribed_ s) PushToQueue true (running s)
                        (consumer_thread s) (io_thread s) (connected_path s))
  | Inline => (Ok (), Stream (dispatch_mode_ s) (subscribed_ s) (CallDispatch sub) (queue_state_ s)
                             (running s) (consumer_thread s) (io_thread s) (connected_path s))
  end.

(** [connect]; [err] is what the first connection attempt reports, empty
    on success (WebSocketClient.v). *)
Definition connect (err : string) (path : string) : stM stream exn () := λ s,
  if io_thread s then (Crash std_terminate, s)
  else if decide (err = "") then
    (Ok (), Stream (dispatch_mode_ s) (subscribed_ s) (on_message s) (queue_state_ s) (running s)
                   (consumer_thread s) true (Some path))
  else (throw_network ("WebSocket connect failed: " +:+ err),
        Stream (dispatch_mode_ s) (subscribed_ s) (on_message s) (queue_state_ s) (running s)
               (consumer_thread s) false None).

(** [subscribe_trades], [subscribe_klines], [subscribe_ticker],
    [subscribe_depth] *)
Definition subscribe (sub : subscription) (err : string) : stM stream exn () := λ s,
  (_ ← install_dispatch sub; connect err ("/ws/" +:+ stream_name sub))
    (Stream (dispatch_mode_ s) true (on_message s) (queue_state_ s) (running s)
            (consumer_thread s) (io_thread s) (connected_path s)).

(** [stop_consumer], once the consumer has drained the queue. *)
Definition stop_consumer (s : stream) : stream :=
  if queue_state_ s && running s then
    Stream (dispatch_mode_ s) (subscribed_ s) (on_message s) (queue_state_ s) false
           None (io_thread s) (connected_path s)
  else s.

(** [~MarketStream]: the consumer is joined; a thread that is still
    joinable when [queue_state_] goes would terminate the process. *)
Definition destroy (s : stream) : outcome exn () :=
  match consumer_thread (stop_consumer s) with
  | Some _ => Crash std_terminate
  | None => Ok ()
  end.

(** [operator=(MarketStream&&)] is memberwise: the base class first, whose
    old [Impl] disconnects and joins its I/O thread, then [queue_state_],
    whose old object is destroyed without [stop_consumer]. *)
Definition move_assign (src : stream) : stM stream exn () := λ dst,
  match consumer_thread dst with
  | Some _ => (Crash std_terminate, dst)
  | None => (Ok (), src)
  end.

(** *** Subscribing *)

(** A first subscription installs the handler of its mode, connects to its stream,
    freezes the dispatch mode, and its consumer can be stopped once. *)
Theorem subscribe_installs m sub :
  ∃ s0 s1 s2,
    set_dispatch_mode m make = (Ok (), s0) ∧
    subscribe sub "" s0 = (Ok (), s1) ∧
    connected_path s1 = Some ("/ws/" +:+ stream_name sub) ∧ io_thread s1 = true ∧
    (m = Inline → on_message s1 = CallDispatch sub ∧ consumer_thread s1 = None) ∧
    (m = Queued → on_message s1 = PushToQueue ∧ consumer_thread s1 = Some sub ∧ running s1 = true) ∧
    (∀ m', set_dispatch_mode m' s1 =
           (throw_validation "set_dispatch_mode must be called before subscribe", s1)) ∧
    stop_consumer s1 = s2 ∧ consumer_thread s2 = None ∧ stop_consumer s2 = s2.
Proof. by destruct m; do 3 eexists; split_and!. Qed.

(** A second subscription on the same object assigns a joinable thread and terminates
    the process; in Queued mode also after a first one that failed to connect. *)
Theorem second_subscribe_terminates sub err s s' sub' err' :
  subscribed_ s = false → consumer_thread s = None → io_thread s = false →
  (subscribe sub err s).2 = s' → (err = "" ∨ dispatch_mode_ s = Queued) →
  (subscribe sub' err' s').1 = Crash std_terminate.
Proof.
  intros Hs Hc Hi <- Hor. unfold subscribe, mbind, stM_bind, install_dispatch, start_consumer, connect.
  destruct s as [m ? ? ? ? ? ? ?]; simpl in *; subst. destruct m; simpl.
  - destruct Hor as [->|?]; [|done]. by rewrite decide_True.
  - by case_decide.
Qed.

(** *** The end of a stream *)

(** What a user calls before; exceptions are caught. *)
Inductive call : Type := CallSetMode (m : DispatchMode) | CallSubscribe (sub : subscription) (err : string).

Definition exec_call (c : call) : stM stream exn () :=
  match c with
  | CallSetMode m => set_dispatch_mode m
  | CallSubscribe sub err => subscribe sub err
  end.

Definition call_step (s : stream) (c : call) (s' : stream) : Prop :=
  ∃ o, exec_call c s = (o, s') ∧ ∀ f, o ≠ Crash f.

(** The consumer exists exactly in a subscribed Queued stream. *)
Definition consumer_ok (s : stream) : Prop :=
  (is_Some (consumer_thread s) → queue_state_ s = true ∧ running s = true) ∧
  (is_Some (consumer_thread s) ↔ dispatch_mode_ s = Queued ∧ subscribed_ s = true).

Lemma consumer_ok_call s c s' : consumer_ok s → call_step s c s' → consumer_ok s'.
Proof.
  intros [Hq Hc] (o & He & Ho). destruct s as [m sb h q r ct io path], c as [m'|sub err]; simpl in *.
  - unfold set_dispatch_mode in He. simpl in He. destruct sb; simplify_eq; (split; [done|]); simpl; [done|].
    rewrite Hc. naive_solver.
  - unfold subscribe, mbind, stM_bind, install_dispatch, start_consumer, connect in He. simpl in He.
    destruct m; simpl in He; [|destruct ct as [sub0|]; simpl in He].
    + assert (ct = None) as -> by (destruct ct; [exfalso; destruct Hc as [Hc _]; by destruct Hc|done]).
      repeat case_match; simplify_eq/=; (split; [by intros []|]); (split; [by intros []|by intros []]).
    + simplify_eq. by destruct (Ho std_terminate).
    + repeat case_match; simplify_eq/=; (split; [done|]); by split.
Qed.


(** *** Dispatch *)

Lemma dispatch_fn_no_throw sub msg e : dispatch_fn sub msg ≠ Throw e.
Proof. unfold dispatch_fn, catch. by case_match. Qed.

(** A market dispatch function never throws; it calls back with an event exactly when
    the message parses, carries the subscription's event tag and its payload parses; a
    message with another tag is ignored. *)
Theorem dispatch_total sub msg :
  (∀ e, dispatch_fn sub msg ≠ Throw e) ∧
  (∀ ev, dispatch_fn sub msg = Ok (Some ev) ↔
     ∃ j, json_parse msg = Ok j ∧ value_string j "e" "" = Ok (event_tag sub) ∧ parse_event sub j = Ok ev) ∧
  (∀ j s, json_parse msg = Ok j → value_string j "e" "" = Ok s → s ≠ event_tag sub →
     dispatch_fn sub msg = Ok None).
Proof.
  split; [apply dispatch_fn_no_throw|]. unfold dispatch_fn, catch. split.
  - intros ev. split.
    + intros H. case_match eqn:Hb; simplify_eq.
      apply bind_Ok_inv in Hb as (j & Hj & (s & Hs & Hb)%bind_Ok_inv). case_decide; simplify_eq.
      apply bind_Ok_inv in Hb as (ev' & Hev & [= ->]). by exists j.
    + intros (j & Hj & He & Hev). rewrite Hj. simpl. rewrite He. simpl.
      rewrite decide_True by done. by rewrite Hev.
  - intros j s Hj Hs Hne. rewrite Hj. simpl. rewrite Hs. simpl. by rewrite decide_False.
Qed.
End market.
End Market.

(** ** Examples *)
Module MarketWitness.
Import Tree Market Delivery.

Definition trade_msg : string := quoted "{'e':'trade','t':1,'p':'4','q':'2','T':5,'m':true}".

Definition trades (msg : string) : outcome exn (option event) := dispatch_fn (L := TreeJson) (Trades "BTCUSDT") msg.


Lemma second_subscribe_terminates_witness :
  (subscribe (Depth "ETHUSDT") "" (subscribe (Trades "BTCUSDT") "" make).2).1 = Crash std_terminate.
Proof.
  apply (second_subscribe_terminates (Trades "BTCUSDT") "" make); [done | done | done | done | by left].
Defined.
End MarketWitness.
