(* ===== verification/UserStream.v ===== *)
(** * src/ws/user_stream.cpp: the user data stream

    The listen-key life cycle over the HTTP transport, the routing of user
    events, and the three threads a started stream owns: the consumer (in
    Queued mode, Delivery in MarketStream.v), the WebSocket I/O thread and
    the keep-alive thread.  A [std::thread] that is assigned to or
    destroyed while joinable, or whose function throws, terminates the
    process ([Crash std_terminate]). *)

From Stdlib Require Import SpecFloat.
From S2P Require Import Prelude Errors CppLib Query CoreTypes Json RestParse Auth HttpClient RestClient WsParse MarketStream.
Local Open Scope Z_scope.

Module User.
Section user.
Context `{L : JsonLib} `{HO : HashOrder} {T : Type} `{HT : HttpTransport T}.
(** [HttpClient(rest_config_)], made for one call when none is injected. *)
Context (make_http : outcome exn T).

Inductive handler : Type := NoHandler | CallDispatch | PushToQueue.

Record stream : Type := Stream {
  credentials_ : Creds.Credentials;
  rest_http_ : option T;
  listen_key_ : string;
  order_callback_ : bool;            (* set *)
  account_callback_ : bool;
  dispatch_mode_ : DispatchMode;
  started_ : bool;
  on_message : handler;
  running : bool;
  consumer_thread : bool;            (* joinable *)
  keep_alive_thread_ : bool;
  stop_keep_alive_ : bool;
  io_thread : bool;
  connected_path : option string
}.

Definition make (creds : Creds.Credentials) (http : option T) : stream :=
  Stream creds http "" false false Inline false NoHandler false false false false false None.

Definition with_http_state (h : option T) (s : stream) : stream :=
  Stream (credentials_ s) h (listen_key_ s) (order_callback_ s) (account_callback_ s) (dispatch_mode_ s)
         (started_ s) (on_message s) (running s) (consumer_thread s) (keep_alive_thread_ s)
         (stop_keep_alive_ s) (io_thread s) (connected_path s).
Definition with_key (k : string) (s : stream) : stream :=
  Stream (credentials_ s) (rest_http_ s) k (order_callback_ s) (account_callback_ s) (dispatch_mode_ s)
         (started_ s) (on_message s) (running s) (consumer_thread s) (keep_alive_thread_ s)
         (stop_keep_alive_ s) (io_thread s) (connected_path s).
Definition with_callbacks (o a : bool) (s : stream) : stream :=
  Stream (credentials_ s) (rest_http_ s) (listen_key_ s) o a (dispatch_mode_ s)
         (started_ s) (on_message s) (running s) (consumer_thread s) (keep_alive_thread_ s)
         (stop_keep_alive_ s) (io_thread s) (connected_path s).
Definition with_mode (m : DispatchMode) (started : bool) (s : stream) : stream :=
  Stream (credentials_ s) (rest_http_ s) (listen_key_ s) (order_callback_ s) (account_callback_ s) m
         started (on_message s) (running s) (consumer_thread s) (keep_alive_thread_ s)
         (stop_keep_alive_ s) (io_thread s) (connected_path s).
Definition with_consumer (h : handler) (run thread : bool) (s : stream) : stream :=
  Stream (credentials_ s) (rest_http_ s) (listen_key_ s) (order_callback_ s) (account_callback_ s)
         (dispatch_mode_ s) (started_ s) h run thread (keep_alive_thread_ s)
         (stop_keep_alive_ s) (io_thread s) (connected_path s).
Definition with_keep_alive (thread stop : bool) (s : stream) : stream :=
  Stream (credentials_ s) (rest_http_ s) (listen_key_ s) (order_callback_ s) (account_callback_ s)
         (dispatch_mode_ s) (started_ s) (on_message s) (running s) (consumer_thread s) thread
         stop (io_thread s) (connected_path s).
Definition with_io (thread : bool) (path : option string) (s : stream) : stream :=
  Stream (credentials_ s) (rest_http_ s) (listen_key_ s) (order_callback_ s) (account_callback_ s)
         (dispatch_mode_ s) (started_ s) (on_message s) (running s) (consumer_thread s)
         (keep_alive_thread_ s) (stop_keep_alive_ s) thread path.

Definition set_order_update_callback (s : stream) : stream := with_callbacks true (account_callback_ s) s.
Definition set_account_update_callback (s : stream) : stream := with_callbacks (order_callback_ s) true s.

Definition set_dispatch_mode (m : DispatchMode) : stM stream exn () := λ s,
  if started_ s then (throw_validation "set_dispatch_mode must be called before start", s)
  else (Ok (), with_mode m (started_ s) s).

(** *** Listen keys *)

(** The injected transport, or one made for the call, with the API key. *)
Definition on_rest {A} (m : stM T exn A) : stM stream exn A := λ s,
  let key := Creds.api_key (credentials_ s) in
  match rest_http_ s with
  | Some h => let '(o, h') := m (t_set_api_key key h) in (o, with_http_state (Some h') s)
  | None => match make_http with
            | Ok h => ((m (t_set_api_key key h)).1, s)
            | Throw e => (Throw e, s)
            | Crash f => (Crash f, s)
            end
  end.

Definition create_listen_key : stM stream exn string :=
  resp ← on_rest (t_post "/api/v3/userDataStream" "" []);
  j ← lift (parse_response (Exec.status_code resp) (Exec.body resp));
  lift (value_string j "listenKey" "").

Definition renew_listen_key (listen_key : string) : stM stream exn () :=
  resp ← on_rest (t_post ("/api/v3/userDataStream?listenKey=" +:+ listen_key) "" []);
  lift (Client.check_status resp).

Definition delete_listen_key (listen_key : string) : stM stream exn () :=
  resp ← on_rest (t_del "/api/v3/userDataStream" [("listenKey", listen_key)]);
  lift (Client.check_status resp).

(** *** Dispatch *)

Inductive event : Type := OnOrder (o : Order) | OnAccount (a : AccountInfo).

Definition do_dispatch (orders accounts : bool) (raw_json : string) : outcome exn (option event) :=
  catch (j ← json_parse raw_json;
         event_type ← value_string j "e" "";
         if decide (event_type = "executionReport") then
           if orders then o ← parse_order_update j; Ok (Some (OnOrder o)) else Ok None
         else if decide (event_type = "outboundAccountPosition") then
           if accounts then a ← parse_account_update j; Ok (Some (OnAccount a)) else Ok None
         else Ok None)
        (λ _, Ok None).

(** *** Life cycle *)

Definition start_consumer : stM stream exn () := λ s,
  if consumer_thread s then (Crash std_terminate, with_consumer (on_message s) true true s)
  else (Ok (), with_consumer (on_message s) true true s).

Definition stop_consumer (s : stream) : stream :=
  if running s then with_consumer (on_message s) false false s else s.

Definition install : stM stream exn () := λ s,
  match dispatch_mode_ s with
  | Queued => start_consumer (with_consumer PushToQueue (running s) (consumer_thread s) s)
  | Inline => (Ok (), with_consumer CallDispatch (running s) (consumer_thread s) s)
  end.

Definition connect (err path : string) : stM stream exn () := λ s,
  if io_thread s then (Crash std_terminate, s)
  else if decide (err = "") then (Ok (), with_io true (Some path) s)
  else (throw_network ("WebSocket connect failed: " +:+ err), with_io false None s).

Definition start_keep_alive : stM stream exn () := λ s,
  if keep_alive_thread_ s then (Crash std_terminate, with_keep_alive true false s)
  else (Ok (), with_keep_alive true false s).

Definition start (err : string) : stM stream exn () := λ s,
  if negb (Creds.has_credentials (credentials_ s)) then
    (throw_auth "UserStream::start requires valid credentials", s)
  else
    (key ← create_listen_key;
     _ ← (λ s, (Ok (), with_key key s));
     if decide (key = "") then lift (throw_api 0 "Empty listenKey returned by Binance")
     else
       _ ← install;
       _ ← connect err ("/ws/" +:+ key);
       start_keep_alive) (with_mode (dispatch_mode_ s) true s).

Definition keep_alive : stM stream exn () := λ s,
  if decide (listen_key_ s = "") then (Ok (), s) else renew_listen_key (listen_key_ s) s.

(** A timeout of the keep-alive thread: nothing catches around
    [keep_alive()] there. *)
Definition keep_alive_tick : stM stream exn () := λ s,
  match keep_alive s with
  | (Throw _, s') => (Crash std_terminate, s')
  | r => r
  end.

Definition disconnect (s : stream) : stream := with_io false None s.

Definition stop : stM stream exn () := λ s,
  let s := stop_consumer s in
  let s := with_keep_alive false true s in
  if decide (listen_key_ s = "") then (Ok (), disconnect s)
  else match delete_listen_key (listen_key_ s) s with
       | (Crash f, s') => (Crash f, s')
       | (_, s') => (Ok (), disconnect (with_key "" s'))
       end.

(** [~UserStream], then the members: a joinable thread member terminates. *)
Definition destroy (s : stream) : outcome exn () :=
  let s := stop_consumer s in
  if keep_alive_thread_ s || consumer_thread s then Crash std_terminate else Ok ().

(** *** Properties *)

(** Without credentials start throws and does nothing. *)
Theorem start_requires_credentials err s :
  Creds.has_credentials (credentials_ s) = false →
  start err s = (throw_auth "UserStream::start requires valid credentials", s).
Proof. intros Hc. unfold start. by rewrite Hc. Qed.

(** No thread of the stream exists. *)
Definition idle (s : stream) : Prop :=
  consumer_thread s = false ∧ keep_alive_thread_ s = false ∧ io_thread s = false ∧ running s = false.

Lemma create_listen_key_Ok s h resp h1 j k :
  rest_http_ s = Some h →
  t_post "/api/v3/userDataStream" "" [] (t_set_api_key (Creds.api_key (credentials_ s)) h) = (Ok resp, h1) →
  parse_response (Exec.status_code resp) (Exec.body resp) = Ok j → value_string j "listenKey" "" = Ok k →
  create_listen_key s = (Ok k, with_http_state (Some h1) s).
Proof.
  intros Hh Hp Hj Hk. unfold create_listen_key, on_rest, mbind, stM_bind, lift.
  by rewrite Hh, Hp, Hj, Hk.
Qed.

(** A successful start, whichever the mode. *)
Lemma start_Ok s h resp h1 j k :
  Creds.has_credentials (credentials_ s) = true → idle s → rest_http_ s = Some h →
  t_post "/api/v3/userDataStream" "" [] (t_set_api_key (Creds.api_key (credentials_ s)) h) = (Ok resp, h1) →
  parse_response (Exec.status_code resp) (Exec.body resp) = Ok j → value_string j "listenKey" "" = Ok k →
  k ≠ "" →
  ∃ s1, start "" s = (Ok (), s1) ∧ credentials_ s1 = credentials_ s ∧ rest_http_ s1 = Some h1 ∧
    listen_key_ s1 = k ∧ connected_path s1 = Some ("/ws/" +:+ k) ∧ started_ s1 = true ∧
    io_thread s1 = true ∧ keep_alive_thread_ s1 = true ∧
    consumer_thread s1 = bool_decide (dispatch_mode_ s = Queued) ∧
    running s1 = bool_decide (dispatch_mode_ s = Queued) ∧
    on_message s1 = match dispatch_mode_ s with Queued => PushToQueue | Inline => CallDispatch end.
Proof.
  intros Hc (H1 & H2 & H3 & H4) Hh Hp Hj Hk Hne. unfold start. rewrite Hc. cbn [negb].
  unfold mbind at 1, stM_bind. rewrite (create_listen_key_Ok _ h resp h1 j k) by done.
  destruct s; simpl in *; subst. unfold mbind, stM_bind, lift, install, start_consumer, connect, start_keep_alive.
  rewrite decide_False by done. destruct dispatch_mode_0; simpl; eexists; split_and!; done.
Qed.


(** Destroying a started user stream without calling stop terminates the process: the
    keep-alive thread is still joinable. *)
Theorem destroy_without_stop_terminates s h resp h1 j k :
  Creds.has_credentials (credentials_ s) = true → idle s → rest_http_ s = Some h →
  t_post "/api/v3/userDataStream" "" [] (t_set_api_key (Creds.api_key (credentials_ s)) h) = (Ok resp, h1) →
  parse_response (Exec.status_code resp) (Exec.body resp) = Ok j → value_string j "listenKey" "" = Ok k →
  k ≠ "" →
  ∃ s1, start "" s = (Ok (), s1) ∧ destroy s1 = Crash std_terminate.
Proof.
  intros Hc Hi Hh Hp Hj Hk Hne.
  destruct (start_Ok s h resp h1 j k Hc Hi Hh Hp Hj Hk Hne) as (s1 & Hst & _ & _ & _ & _ & _ & _ & Hka & _).
  exists s1. split; [done|]. unfold destroy, stop_consumer. destruct (running s1); simpl; by rewrite Hka.
Qed.

(** keep_alive throws when the request fails; on the keep-alive thread nothing catches
    it and the process terminates. *)
Theorem keep_alive_failure_terminates s h e h' :
  listen_key_ s ≠ "" → rest_http_ s = Some h →
  t_post ("/api/v3/userDataStream?listenKey=" +:+ listen_key_ s) ""  []
    (t_set_api_key (Creds.api_key (credentials_ s)) h) = (Throw e, h') →
  (keep_alive s).1 = Throw e ∧ (keep_alive_tick s).1 = Crash std_terminate.
Proof.
  intros Hk Hh Hp. unfold keep_alive_tick, keep_alive. rewrite decide_False by done.
  unfold renew_listen_key, on_rest, mbind, stM_bind. by rewrite Hh, Hp.
Qed.

Context {LL : JsonLaws L}.

(** A message that is an execution report of an order reaches the order callback with
    that order if one is set, and is ignored otherwise. *)
Theorem user_events_routed accounts raw j o :
  json_parse raw = Ok j → value_string j "e" "" = Ok "executionReport" → execution_report j o →
  do_dispatch true accounts raw = Ok (Some (OnOrder o)) ∧ do_dispatch false accounts raw = Ok None.
Proof using LL.
  intros Hj He Ho. unfold do_dispatch, catch. rewrite Hj. simpl. rewrite He. simpl.
  by rewrite (execution_report_parses j o Ho).
Qed.
End user.
End User.

(** ** Examples *)
Module UserWitness.
Import Tree HttpWitness RestWitness User.

Definition key_response : Exec.HttpResponse := ok_response (quoted "{'listenKey':'pqia91'}").

Definition key_doc : json := JObj [("listenKey", JStr "pqia91")].

Definition fresh (m : DispatchMode) : stream :=
  with_mode m false (make AuthWitness.creds (Some (Mock [] key_response))).

Definition no_http : outcome exn mock := Throw (std_invalid_argument "Invalid base_url: ").

Lemma start_requires_credentials_witness :
  start no_http "" (make Creds.make_default (Some (Mock [] key_response))) =
  (throw_auth "UserStream::start requires valid credentials", make Creds.make_default (Some (Mock [] key_response))).
Proof. by apply start_requires_credentials. Defined.


Lemma destroy_without_stop_terminates_witness :
  ∃ s1, start no_http "" (fresh Inline) = (Ok (), s1) ∧ destroy s1 = Crash std_terminate.
Proof.
  apply (destroy_without_stop_terminates (L := TreeJson) no_http (fresh Inline) (Mock [] key_response) key_response
           (Mock [""] key_response) key_doc "pqia91");
    [done | done | done | done | vm_compute; reflexivity | done | done].
Defined.

(** A transport on which every request fails. *)
Definition offline : HttpTransport () := {|
  t_set_api_key _ t := t;
  t_get _ _ t := (throw_network "offline", t);
  t_post _ _ _ t := (throw_network "offline", t);
  t_del _ _ t := (throw_network "offline", t);
  t_async_get _ _ t := (throw_network "offline", t);
  t_async_post _ _ _ t := (throw_network "offline", t);
  t_async_del _ _ t := (throw_network "offline", t)
|}.

Lemma keep_alive_failure_terminates_witness :
  (keep_alive_tick (HT := offline) (Ok ()) (with_key "pqia91" (make AuthWitness.creds (Some ())))).1
  = Crash std_terminate.
Proof.
  eapply (keep_alive_failure_terminates (L := TreeJson) (HT := offline) (Ok ())
           (with_key "pqia91" (make AuthWitness.creds (Some ()))) ()); done.
Defined.

Definition report_doc : json :=
  JObj [("e", JStr "executionReport"); ("s", JStr "ETHBTC"); ("i", JInt 4293153); ("c", JStr "mine");
        ("S", JStr "BUY"); ("o", JStr "LIMIT"); ("f", JStr "GTC"); ("q", JStr "1"); ("p", JStr "0.5");
        ("z", JStr "0"); ("Z", JStr "0"); ("X", JStr "NEW"); ("O", JInt 1499405658657); ("T", JInt 1499405658657)].

Definition report_msg : string :=
  quoted "{'e':'executionReport','s':'ETHBTC','i':4293153,'c':'mine','S':'BUY','o':'LIMIT','f':'GTC','q':'1','p':'0.5','z':'0','Z':'0','X':'NEW','O':1499405658657,'T':1499405658657}".

Definition report_order : Order :=
  {| o_symbol := "ETHBTC"; o_order_id := 4293153; o_client_order_id := "mine";
     o_price := S754_finite false 4503599627370496 (-53);
     o_orig_qty := S754_finite false 4503599627370496 (-52);
     o_executed_qty := Dbl.dzero; o_cummulative_quote_qty := Dbl.dzero; o_status := New;
     o_time_in_force := GTC; o_type := Limit; o_side := Buy;
     o_time := 1499405658657000000; o_update_time := 1499405658657000000 |}.

Lemma report_doc_reports : execution_report report_doc report_order.
Proof.
  constructor; try done; try (by eexists);
    try (by eexists; split; [by eexists | vm_compute; reflexivity]);
    by eexists _, _; split_and!; [done | done | done | vm_compute; split; [discriminate | reflexivity]].
Qed.

Lemma user_events_routed_witness :
  do_dispatch true true report_msg = Ok (Some (OnOrder report_order)).
Proof.
  apply (user_events_routed (L := TreeJson) true report_msg report_doc report_order);
    [vm_compute; reflexivity | done | exact report_doc_reports].
Defined.
End UserWitness.
