(* ===== verification/WebSocketClient.v ===== *)
(** * src/ws/detail/websocket_client.cpp: the WebSocket client

    The client as a state machine: the caller's [connect], [disconnect]
    and [send], and the handlers the I/O thread runs inside
    [io_context::run] (read loop, ping timer, reconnect timer, posted
    work).  [pending] are the operations outstanding on the [io_context];
    it is stopped by [stop()] and by running out of work, and the sources
    never [restart()] it.  A handler runs to its end before the next one
    and before the caller acts (WsInterleave.v lets the caller in between);
    a read on a stream object that has been replaced can only be aborted.
    The network decides which handler runs next and with what result. *)

From S2P Require Import Prelude Errors CppLib CoreTypes HttpClient.
Local Open Scope Z_scope.

Module Wss.

(** [ParsedWssUrl::from] *)
Record ParsedWssUrl : Type := { host : string; port : string }.

Definition from (url : string) : outcome exn ParsedWssUrl :=
  match String.index 0 "://" url with
  | None => Throw (std_invalid_argument ("Invalid WebSocket URL: " +:+ url))
  | Some pos =>
      let '(h, p) := Url.host_and_port url (pos + 3) "443" in Ok {| host := h; port := p |}
  end.

(** An outstanding operation of the [io_context]. *)
Inductive op : Type :=
| Read (g : nat)                         (* async_read on stream object [g] *)
| Ping                                   (* ping_timer *)
| Reconnect (attempt delay : Z)          (* the timer of attempt_reconnect *)
| Close                                  (* posted by disconnect *)
| Send (msg : string).                   (* posted by send *)

#[global] Instance op_eq_dec : EqDecision op.
Proof. solve_decision. Defined.

(** The calls of the user's handlers. *)
Inductive callback : Type := OnMessage (msg : string) | OnError (msg : string).

Record client : Type := Client {
  connected : bool;
  should_stop : bool;
  current_path : string;
  ws : nat;                     (* the stream object; 0 is none *)
  pending : list op;
  ioc_stopped : bool;
  io_thread : bool;             (* joinable *)
  calls : list callback;        (* made so far *)
  on_message : bool;            (* handlers set *)
  on_error : bool
}.

(** A client before its first [connect], with the handlers set so far. *)
Definition fresh (m e : bool) : client := Client false false "" 0 [] false false [] m e.
Definition make : client := fresh false false.

Definition set_message_handler (c : client) : client :=
  Client (connected c) (should_stop c) (current_path c) (ws c) (pending c) (ioc_stopped c)
         (io_thread c) (calls c) true (on_error c).
Definition set_error_handler (c : client) : client :=
  Client (connected c) (should_stop c) (current_path c) (ws c) (pending c) (ioc_stopped c)
         (io_thread c) (calls c) (on_message c) true.

Section client.
Context (config : WebSocketConfig).

Definition set_flags (con stop : bool) (c : client) : client :=
  Client con stop (current_path c) (ws c) (pending c) (ioc_stopped c)
         (io_thread c) (calls c) (on_message c) (on_error c).
Definition with_pending (p : list op) (c : client) : client :=
  Client (connected c) (should_stop c) (current_path c) (ws c) p (ioc_stopped c)
         (io_thread c) (calls c) (on_message c) (on_error c).
(** [if (on_error) on_error(msg)] and the like. *)
Definition handled (cb : callback) (c : client) : bool :=
  match cb with OnMessage _ => on_message c | OnError _ => on_error c end.
Definition call (cb : callback) (c : client) : client :=
  Client (connected c) (should_stop c) (current_path c) (ws c) (pending c) (ioc_stopped c)
         (io_thread c) (calls c ++ (if handled cb c then [cb] else []))
         (on_message c) (on_error c).
(** [ws = std::make_unique<WsStream>(...)] *)
Definition new_stream (c : client) : client :=
  Client (connected c) (should_stop c) (current_path c) (S (ws c)) (pending c) (ioc_stopped c)
         (io_thread c) (calls c) (on_message c) (on_error c).

Definition add_op (o : op) (c : client) : client := with_pending (pending c ++ [o]) c.

Definition do_read (c : client) : client := if should_stop c then c else add_op (Read (ws c)) c.

(** Replacing [ping_timer] cancels the wait of the old one. *)
Definition cancel_ping (c : client) : client := with_pending (filter (λ o, o ≠ Ping) (pending c)) c.
Definition do_ping_timer (c : client) : client := add_op Ping (cancel_ping c).

Definition attempt_reconnect (attempt delay : Z) (c : client) : client :=
  if should_stop c then c
  else if wc_max_reconnect_attempts config <=? attempt then
    call (OnError "Max reconnect attempts reached -- giving up") c
  else add_op (Reconnect attempt delay) c.

(** [jitter(base)] in milliseconds, where [dist(rng)] yields the double
    [draw / 2^53]: the product of two doubles, rounded to 53 significant
    bits, and truncated by the cast. *)
Definition jitter (base draw : Z) : Z :=
  let n := base * draw in
  let s := Z.max 0 (Z.log2 n - 52) in
  Dbl.rne_div n (2 ^ s) * 2 ^ s / 2 ^ 53.

(** [uniform_real_distribution(0.75, 1.25)] *)
Definition drawn (draw : Z) : Prop := 3 * 2 ^ 51 ≤ draw ≤ 5 * 2 ^ 51.

(** [std::min(delay * 2, 60)] *)
Definition next_delay (delay : Z) : Z := Z.min (delay * 2) 60.

Definition handle_read_error (ec : string) (c : client) : client :=
  if should_stop c then c
  else attempt_reconnect 0 (wc_reconnect_interval config)
         (call (OnError ("Read error: " +:+ ec)) (set_flags false (should_stop c) c)).

Definition handle_read_ok (text : option string) (c : client) : client :=
  if should_stop c then c
  else do_read (match text with Some msg => call (OnMessage msg) c | None => c end).

(** The ping timer's handler; [res] is the error of [ws->ping], if any. *)
Definition handle_ping (res : option string) (c : client) : client :=
  if should_stop c then c
  else if connected c then
    match res with
    | Some ec => attempt_reconnect 0 (wc_reconnect_interval config)
                   (call (OnError ("Ping failed: " +:+ ec)) (set_flags false (should_stop c) c))
    | None => do_ping_timer c
    end
  else do_ping_timer c.

(** The reconnect timer's handler; [res] is the exception's text, if any. *)
Definition handle_reconnect (attempt delay : Z) (res : option string) (c : client) : client :=
  if should_stop c then c
  else
    let c := call (OnError ("Reconnecting (attempt " +:+ Dec.to_string (attempt + 1) +:+ ")...")) c in
    let c := new_stream c in
    match res with
    | None => do_ping_timer (do_read (set_flags true (should_stop c) c))
    | Some what =>
        attempt_reconnect (attempt + 1) (next_delay delay)
          (call (OnError ("Reconnect attempt failed: " +:+ what)) (set_flags false (should_stop c) c))
    end.

Definition handle_send (res : option string) (c : client) : client :=
  if connected c then
    match res with Some ec => call (OnError ("Send error: " +:+ ec)) c | None => c end
  else c.

(** What the I/O layer reports. *)
Inductive event : Type :=
| ReadText (msg : string)
| ReadBinary
| ReadError (g : nat) (ec : string)
| PingDue (res : option string)
| ReconnectDue (attempt delay : Z) (res : option string)
| CloseDue
| SendDue (msg : string) (res : option string).

Fixpoint remove_op (o : op) (l : list op) : option (list op) :=
  match l with
  | [] => None
  | o' :: l => if decide (o = o') then Some l else (λ l', o' :: l') <$> remove_op o l
  end.

(** Which operation completes. *)
Definition completes (e : event) (c : client) : op :=
  match e with
  | ReadText _ | ReadBinary => Read (ws c)
  | ReadError g _ => Read g
  | PingDue _ => Ping
  | ReconnectDue a d _ => Reconnect a d
  | CloseDue => Close
  | SendDue msg _ => Send msg
  end.

Definition stop_ioc (c : client) : client :=
  Client (connected c) (should_stop c) (current_path c) (ws c) (pending c) true
         (io_thread c) (calls c) (on_message c) (on_error c).

Definition handle (e : event) (c : client) : client :=
  match e with
  | ReadText msg => handle_read_ok (Some msg) c
  | ReadBinary => handle_read_ok None c
  | ReadError _ ec => handle_read_error ec c
  | PingDue res => handle_ping res c
  | ReconnectDue a d res => handle_reconnect a d res c
  | CloseDue => stop_ioc c
  | SendDue _ res => handle_send res c
  end.

(** [run()] stops the context when no work is left. *)
Definition run_dry (c : client) : client :=
  if decide (pending c = []) then stop_ioc c else c.

(** One handler on the I/O thread. *)
Definition exec_io (e : event) (c : client) : option client :=
  if negb (io_thread c) || ioc_stopped c then None
  else p ← remove_op (completes e c) (pending c);
       Some (run_dry (handle e (with_pending p c))).

(** *** The caller's side *)

(** [do_connect] on the new thread; [res] is the text of the exception
    it catches, if any.  Also what it passes to [notify_connect]. *)
Definition do_connect (res : option string) (c : client) : client * string :=
  let c := new_stream c in
  match res with
  | None => (do_ping_timer (do_read (set_flags true (should_stop c) c)), "")
  | Some what => (set_flags false (should_stop c) c, what)
  end.

(** [connect]: start the thread, wait for [notify_connect]; on an error
    stop, join and throw.  By then [run()] had nothing to do. *)
Definition connect (path : string) (res : option string) : stM client exn () := λ c,
  if io_thread c then (Crash std_terminate, c)
  else
    let c := Client (connected c) false path (ws c) (pending c) (ioc_stopped c) true (calls c) (on_message c) (on_error c) in
    let '(c, connect_error) := do_connect res c in
    if decide (connect_error = "") then (Ok (), run_dry c)
    else (throw_network ("WebSocket connect failed: " +:+ connect_error),
          Client (connected c) true (current_path c) (ws c) (pending c) true false (calls c) (on_message c) (on_error c)).

(** [disconnect] up to the join: flags, timer, posted close. *)
Definition disconnect (c : client) : client := add_op Close (cancel_ping (set_flags false true c)).

(** [io_thread.join()] returns once [run()] has returned. *)
Definition join (c : client) : option client :=
  if io_thread c && negb (ioc_stopped c) then None
  else Some (Client (connected c) (should_stop c) (current_path c) (ws c) (pending c)
                    (ioc_stopped c) false (calls c) (on_message c) (on_error c)).

Definition is_connected (c : client) : bool := connected c.

Definition send (msg : string) : stM client exn () := λ c,
  if is_connected c then (Ok (), add_op (Send msg) c)
  else (throw_network "WebSocket send failed: not connected", c).

Inductive action : Type :=
| Connect (path : string) (res : option string)
| Disconnect
| Join
| SendMsg (msg : string)
| Io (e : event).

(** [None] when the action is not possible; a crash ends the run. *)
Definition exec_action (a : action) (c : client) : option client :=
  match a with
  | Connect path res => match connect path res c with (Crash _, _) => None | (_, c') => Some c' end
  | Disconnect => Some (disconnect c)
  | Join => join c
  | SendMsg msg => Some (send msg c).2
  | Io e => exec_io e c
  end.

Definition step (c : client) (a : action) (c' : client) : Prop := exec_action a c = Some c'.

Fixpoint exec_actions (l : list action) (c : client) : option client :=
  match l with
  | [] => Some c
  | a :: l => match exec_action a c with Some c' => exec_actions l c' | None => None end
  end.

Lemma exec_actions_run l c c' : exec_actions l c = Some c' → run step c l c'.
Proof.
  revert c. induction l as [|a l IH]; intros c; simpl; [intros [= ->]; constructor|].
  destruct (exec_action a c) as [c1|] eqn:Ha; [|done]. intros H.
  eapply run_cons; [exact Ha | by apply IH].
Qed.

Lemma remove_op_perm o l l' : remove_op o l = Some l' → l ≡ₚ o :: l'.
Proof.
  revert l'. induction l as [|o' l IH]; intros l'; simpl; [done|]. case_decide as Ho.
  - intros [= <-]. by subst.
  - intros Hl. apply fmap_Some in Hl as (l1 & Hl1 & ->). rewrite (IH l1 Hl1). constructor.
Qed.

(** *** The reconnect schedule *)

Lemma jitter_bounds base draw :
  0 ≤ base < 2 ^ 50 → drawn draw → 3 * base / 4 ≤ jitter base draw ≤ 5 * base / 4.
Proof.
  unfold drawn, jitter. intros Hb Hd. set (n := base * draw). set (s := Z.max 0 (Z.log2 n - 52)).
  assert (Hn : 0 ≤ n < 2 ^ 104) by (unfold n; split; [nia|]; change (2 ^ 104) with (2 ^ 50 * 2 ^ 54); nia).
  assert (Hs : 0 ≤ s ≤ 51).
  { unfold s. destruct (decide (n = 0)) as [->|]; [done|]. assert (Z.log2 n < 104) by (apply Z.log2_lt_pow2; lia). lia. }
  assert (Hgrid : 2 ^ 51 = 2 ^ s * 2 ^ (51 - s)) by (rewrite <- Z.pow_add_r by lia; f_equal; lia).
  assert (Hp : 0 < 2 ^ s) by (apply Z.pow_pos_nonneg; lia).
  assert (H1 : 3 * base * 2 ^ (51 - s) ≤ Dbl.rne_div n (2 ^ s)).
  { apply Dbl.rne_div_ge; [done|]. transitivity (3 * 2 ^ 51 * base); [rewrite Hgrid; lia|]. unfold n. nia. }
  assert (H2 : Dbl.rne_div n (2 ^ s) ≤ 5 * base * 2 ^ (51 - s)).
  { apply Dbl.rne_div_le; [done|]. transitivity (5 * 2 ^ 51 * base); [unfold n; nia|]. rewrite Hgrid. lia. }
  assert (Hq : ∀ c, c * base * 2 ^ (51 - s) * 2 ^ s / 2 ^ 53 = c * base / 4).
  { intros c. change (2 ^ 53) with (4 * 2 ^ 51). replace (c * base * 2 ^ (51 - s) * 2 ^ s) with (c * base * 2 ^ 51) by (rewrite Hgrid; ring).
    by rewrite Z.div_mul_cancel_r. }
  split; [rewrite <- (Hq 3) | rewrite <- (Hq 5)]; (apply Z.div_le_mono; [lia|]); by apply Z.mul_le_mono_nonneg_r; [lia|].
Qed.

Fixpoint nth_delay (k : nat) : Z :=
  match k with O => wc_reconnect_interval config | S k => next_delay (nth_delay k) end.

Lemma nth_delay_closed k :
  0 ≤ wc_reconnect_interval config →
  nth_delay (S k) = Z.min (wc_reconnect_interval config * 2 ^ Z.of_nat (S k)) 60.
Proof.
  intros Hb. induction k as [|k IH].
  - simpl. unfold next_delay. change (2 ^ Z.of_nat 1) with 2. done.
  - change (nth_delay (S (S k))) with (next_delay (nth_delay (S k))). rewrite IH. unfold next_delay.
    rewrite (Nat2Z.inj_succ (S k)), Z.pow_succ_r by lia.
    assert (0 < 2 ^ Z.of_nat (S k)) by (apply Z.pow_pos_nonneg; lia). nia.
Qed.

Definition scheduled (o : op) : Prop :=
  match o with
  | Reconnect a d => 0 ≤ a < wc_max_reconnect_attempts config ∧ d = nth_delay (Z.to_nat a)
  | _ => True
  end.

Lemma add_op_sched o c : scheduled o → Forall scheduled (pending c) → Forall scheduled (pending (add_op o c)).
Proof. intros. simpl. rewrite Forall_app. by repeat constructor. Qed.

Lemma cancel_ping_sched c : Forall scheduled (pending c) → Forall scheduled (pending (cancel_ping c)).
Proof. intros H. simpl. rewrite Forall_forall in H |- *. intros o [_ Ho]%list_elem_of_filter. by apply H. Qed.

Lemma do_read_sched c : Forall scheduled (pending c) → Forall scheduled (pending (do_read c)).
Proof. intros H. unfold do_read. case_match; [done | by apply add_op_sched]. Qed.

Lemma do_ping_sched c : Forall scheduled (pending c) → Forall scheduled (pending (do_ping_timer c)).
Proof. intros H. unfold do_ping_timer. by apply add_op_sched, cancel_ping_sched. Qed.

Lemma attempt_sched a c :
  0 ≤ a → Forall scheduled (pending c) → Forall scheduled (pending (attempt_reconnect a (nth_delay (Z.to_nat a)) c)).
Proof.
  intros Ha H. unfold attempt_reconnect. case_match; [done|].
  destruct (Z.leb_spec (wc_max_reconnect_attempts config) a); [done|]. apply add_op_sched; [|done]. simpl. lia.
Qed.

Hint Resolve add_op_sched cancel_ping_sched do_read_sched do_ping_sched : bintrade.

Lemma handle_sched e c :
  Forall scheduled (pending c) → scheduled (completes e c) → Forall scheduled (pending (handle e c)).
Proof.
  intros H Hs. pose proof (attempt_sched 0) as Ha0. simpl in Ha0.
  destruct e as [msg| |g ec|res|a d res| |msg res]; simpl in *.
  - unfold handle_read_ok. case_match; auto with bintrade.
  - unfold handle_read_ok. case_match; auto with bintrade.
  - unfold handle_read_error. case_match; [done|]. by apply Ha0.
  - unfold handle_ping. repeat case_match; auto with bintrade. by apply Ha0.
  - unfold handle_reconnect. case_match; [done|]. destruct Hs as [Ha ->]. destruct res as [what|].
    + change (next_delay (nth_delay (Z.to_nat a))) with (nth_delay (S (Z.to_nat a))).
      replace (S (Z.to_nat a)) with (Z.to_nat (a + 1)) by lia. by apply attempt_sched; [lia|].
    + by apply do_ping_sched, do_read_sched.
  - done.
  - unfold handle_send. by repeat case_match.
Qed.

Lemma run_dry_pending c : pending (run_dry c) = pending c.
Proof. unfold run_dry. by case_decide. Qed.

Lemma exec_io_inv e c c' :
  exec_io e c = Some c' →
  ∃ p, io_thread c = true ∧ ioc_stopped c = false ∧ remove_op (completes e c) (pending c) = Some p ∧
       c' = run_dry (handle e (with_pending p c)).
Proof.
  unfold exec_io. destruct (io_thread c), (ioc_stopped c); simpl; try done.
  destruct (remove_op _ _) as [p|]; simpl; [|done]. intros [= <-]. by exists p.
Qed.

(** Calls are only ever added. *)
Lemma call_prefix cb c : calls c `prefix_of` calls (call cb c).
Proof. apply prefix_app_r. done. Qed.

Lemma attempt_prefix a d c : calls c `prefix_of` calls (attempt_reconnect a d c).
Proof. unfold attempt_reconnect. repeat case_match; [done | apply call_prefix | done]. Qed.

Lemma do_read_calls c : calls (do_read c) = calls c.
Proof. unfold do_read. by case_match. Qed.

Lemma handle_prefix e c : calls c `prefix_of` calls (handle e c).
Proof.
  assert (Hfail : ∀ a d cb b s c, calls c `prefix_of` calls (attempt_reconnect a d (call cb (set_flags b s c)))).
  { intros a d cb b s c0. etrans; [apply (call_prefix cb (set_flags b s c0)) | apply attempt_prefix]. }
  destruct e as [msg| |g ec|res|a d res| |msg res]; simpl; unfold handle_read_ok, handle_read_error, handle_ping, handle_reconnect, handle_send.
  - case_match; [done|]. rewrite do_read_calls. apply call_prefix.
  - case_match; [done|]. by rewrite do_read_calls.
  - case_match; [done | apply Hfail].
  - repeat case_match; [done | apply Hfail | done | done].
  - case_match; [done|]. set (cb := OnError _). destruct res as [what|].
    + etrans; [apply (call_prefix cb) | apply (Hfail _ _ _ _ _ (new_stream (call cb c)))].
    + simpl. rewrite do_read_calls. apply (call_prefix cb).
  - done.
  - repeat case_match; [apply call_prefix | done | done].
Qed.

Lemma run_dry_calls c : calls (run_dry c) = calls c.
Proof. unfold run_dry. by case_decide. Qed.

Lemma connect_calls path res c : calls (connect path res c).2 = calls c.
Proof.
  unfold connect. destruct (io_thread c); [done|]. destruct res as [what|]; simpl.
  - case_decide; [by simpl; rewrite run_dry_calls | done].
  - by rewrite run_dry_calls.
Qed.

Lemma send_calls msg c : calls (send msg c).2 = calls c.
Proof. unfold send. by case_match. Qed.

Lemma join_calls c c' : join c = Some c' → calls c' = calls c.
Proof. unfold join. case_match; [done|]. by intros [= <-]. Qed.

Lemma exec_io_prefix e c c' : exec_io e c = Some c' → calls c `prefix_of` calls c'.
Proof.
  intros (p & _ & _ & _ & ->)%exec_io_inv. rewrite run_dry_calls. apply (handle_prefix e (with_pending p c)).
Qed.

(** The messages among the calls are those read, while not stopped. *)
Definition text_of (cb : callback) : option string := match cb with OnMessage m => Some m | OnError _ => None end.
Definition event_text (e : event) : option string := match e with ReadText m => Some m | _ => None end.
Definition texts (c : client) : list string := omap text_of (calls c).

Lemma call_texts cb c :
  on_message c = true → texts (call cb c) = texts c ++ option_list (text_of cb).
Proof.
  intros Hm. unfold texts, call. simpl. rewrite omap_app. destruct cb; simpl; [by rewrite Hm|]. by destruct (on_error c).
Qed.

Lemma attempt_texts a d c : on_message c = true → texts (attempt_reconnect a d c) = texts c.
Proof.
  intros Hm. unfold attempt_reconnect. case_match; [done|]. case_match; [|done].
  by rewrite call_texts, app_nil_r.
Qed.

Lemma do_read_texts c : texts (do_read c) = texts c.
Proof. unfold texts. by rewrite do_read_calls. Qed.

(** Handlers keep the stop flag and the message handler. *)
Definition keeps (c c' : client) : Prop := should_stop c' = should_stop c ∧ on_message c' = on_message c.

Lemma attempt_keeps a d c c0 : keeps c0 c → keeps c0 (attempt_reconnect a d c).
Proof. unfold attempt_reconnect. by repeat case_match. Qed.

Lemma do_read_keeps c c0 : keeps c0 c → keeps c0 (do_read c).
Proof. unfold do_read. by case_match. Qed.

Lemma handle_keeps e c : keeps c (handle e c).
Proof.
  destruct e as [msg| |g ec|res|a d res| |msg res]; simpl; unfold handle_read_ok, handle_read_error, handle_ping,
    handle_reconnect, handle_send; repeat case_match; try done;
    first [by apply attempt_keeps | by apply do_read_keeps].
Qed.

Lemma handle_texts e c :
  should_stop c = false → on_message c = true →
  texts (handle e c) = texts c ++ option_list (event_text e).
Proof.
  intros Hs Hm. destruct e as [msg| |g ec|res|a d res| |msg res]; simpl; unfold handle_read_ok, handle_read_error, handle_ping,
    handle_reconnect, handle_send; rewrite ?Hs; rewrite ?app_nil_r.
  - by rewrite do_read_texts, call_texts.
  - by rewrite do_read_texts.
  - by rewrite attempt_texts, call_texts, app_nil_r.
  - repeat case_match; [by rewrite attempt_texts, call_texts, app_nil_r | done | done].
  - set (cb := OnError _). assert (Hr : ∀ b, texts (set_flags b (should_stop c) (new_stream (call cb c))) = texts c).
    { intros b. etrans; [exact (call_texts cb c Hm) | apply app_nil_r]. }
    destruct res as [what|]; [|etrans; [apply do_read_texts | apply Hr]].
    etrans; [by apply attempt_texts|]. rewrite call_texts, app_nil_r by done. apply Hr.
  - done.
  - repeat case_match; [by rewrite call_texts, app_nil_r | done | done].
Qed.

Lemma exec_io_texts e c c' :
  should_stop c = false → on_message c = true → exec_io e c = Some c' →
  should_stop c' = false ∧ on_message c' = true ∧ texts c' = texts c ++ option_list (event_text e).
Proof.
  intros Hs Hm (p & _ & _ & _ & ->)%exec_io_inv.
  destruct (handle_keeps e (with_pending p c)) as [Hs' Hm']. pose proof (handle_texts e (with_pending p c) Hs Hm) as Ht.
  unfold texts in *. rewrite run_dry_calls. unfold run_dry. case_decide; simpl in *; split_and!; congruence.
Qed.

Lemma completes_with_pending e p c : completes e (with_pending p c) = completes e c.
Proof. by destruct e. Qed.

Lemma step_sched c a c' : Forall scheduled (pending c) → step c a c' → Forall scheduled (pending c').
Proof.
  intros H Hst. unfold step, exec_action in Hst. destruct a as [path res| | |msg|e].
  - unfold connect in Hst. destruct (io_thread c); [done|]. destruct res as [what|]; simpl in Hst.
    + case_decide; injection Hst as <-; by rewrite ?run_dry_pending.
    + injection Hst as <-. rewrite run_dry_pending. by apply do_ping_sched, do_read_sched.
  - injection Hst as <-. unfold disconnect. by apply add_op_sched, cancel_ping_sched.
  - unfold join in Hst. case_match; [done|]. by injection Hst as <-.
  - injection Hst as <-. unfold send. case_match; simpl; [|done]. by apply add_op_sched.
  - apply exec_io_inv in Hst as (p & _ & _ & Hp & ->). rewrite run_dry_pending.
    apply remove_op_perm in Hp. rewrite Hp, Forall_cons in H. destruct H as [Ho Hp'].
    apply handle_sched; [done | by rewrite completes_with_pending].
Qed.

(** C26: Every reconnect timer that is ever outstanding belongs to an attempt below
    max_reconnect_attempts, and its delay is reconnect_interval for the first attempt
    and then doubles, capped at 60 seconds; the jittered wait, computed in binary64, is
    within 25 percent of it. *)
Theorem reconnect_schedule m e acts c a d :
  0 ≤ wc_reconnect_interval config < 2 ^ 40 →
  run step (fresh m e) acts c → Reconnect a d ∈ pending c →
  0 ≤ a < wc_max_reconnect_attempts config ∧
  d = (if decide (a = 0) then wc_reconnect_interval config
       else Z.min (wc_reconnect_interval config * 2 ^ a) 60) ∧
  ∀ draw, drawn draw → 750 * d ≤ jitter (1000 * d) draw ≤ 1250 * d.
Proof.
  intros Hb Hr Hin.
  assert (Hs : Forall scheduled (pending c)).
  { clear Hin. revert acts c Hr. apply (run_invariant step (λ _ c, Forall scheduled (pending c)));
      [constructor | eauto using step_sched]. }
  rewrite Forall_forall in Hs. destruct (Hs _ Hin) as [Ha Hd]. split; [done|].
  assert (Heq : d = (if decide (a = 0) then wc_reconnect_interval config
                     else Z.min (wc_reconnect_interval config * 2 ^ a) 60)).
  { rewrite Hd. case_decide as Ha0; [by subst|].
    replace (Z.to_nat a) with (S (Z.to_nat (a - 1))) by lia. rewrite nth_delay_closed by lia.
    do 3 f_equal. lia. }
  split; [done|]. intros draw Hdraw. assert (Hd0 : 0 ≤ d < 2 ^ 40).
  { rewrite Heq. case_decide; [done|]. assert (0 < 2 ^ a) by (apply Z.pow_pos_nonneg; lia). lia. }
  pose proof (jitter_bounds (1000 * d) draw ltac:(lia) Hdraw) as Hj.
  replace (3 * (1000 * d)) with (750 * d * 4) in Hj by lia. replace (5 * (1000 * d)) with (1250 * d * 4) in Hj by lia.
  by rewrite !Z.div_mul in Hj by lia.
Qed.

(** *** Supervision of the connection *)

(** The operations that keep the client going. *)
Definition is_chain (o : op) : bool := match o with Read _ | Reconnect _ _ => true | _ => false end.
Definition chain (l : list op) : list op := filter (λ o, is_chain o = true) l.

Definition gave_up : callback := OnError "Max reconnect attempts reached -- giving up".

Definition supervised (c : client) : Prop :=
  should_stop c = true ∨
  ((ioc_stopped c = true → pending c = []) ∧ (Close ∉ pending c) ∧
  ((connected c = true ∧ chain (pending c) = [Read (ws c)]) ∨
   (connected c = false ∧ ∃ a d, chain (pending c) = [Reconnect a d]) ∨
   (connected c = false ∧ chain (pending c) = [] ∧ (on_error c = true → gave_up ∈ calls c)))).

Lemma chain_app l1 l2 : chain (l1 ++ l2) = chain l1 ++ chain l2.
Proof. apply filter_app. Qed.

Lemma chain_cons_true o l : is_chain o = true → chain (o :: l) = o :: chain l.
Proof. intros. unfold chain. by rewrite filter_cons_True. Qed.

Lemma chain_cons_false o l : is_chain o = false → chain (o :: l) = chain l.
Proof. intros Ho. unfold chain. rewrite filter_cons_False; [done|]. by rewrite Ho. Qed.

Lemma chain_no_ping l : chain (filter (λ o, o ≠ Ping) l) = chain l.
Proof.
  induction l as [|o l IH]; [done|]. destruct (decide (o = Ping)) as [->|Ho].
  - rewrite filter_cons_False by tauto. by rewrite IH, chain_cons_false.
  - rewrite filter_cons_True by done. destruct (is_chain o) eqn:Hc.
    + by rewrite !chain_cons_true, IH.
    + by rewrite !chain_cons_false, IH.
Qed.

Lemma chain_remove_other o l l' : remove_op o l = Some l' → is_chain o = false → chain l' = chain l.
Proof.
  intros Hr Ho. revert l' Hr. induction l as [|o' l IH]; intros l'; simpl; [done|]. case_decide as Hd.
  - intros [= <-]. subst. by rewrite chain_cons_false.
  - intros (l1 & Hl1 & ->)%fmap_Some. destruct (is_chain o') eqn:Hc.
    + rewrite !chain_cons_true by done. f_equal. by apply IH.
    + rewrite !chain_cons_false by done. by apply IH.
Qed.

Lemma chain_remove_one o o' l l' :
  remove_op o l = Some l' → is_chain o = true → chain l = [o'] → o = o' ∧ chain l' = [].
Proof.
  intros Hr Ho. revert l' Hr. induction l as [|x l IH]; intros l'; simpl; [done|]. case_decide as Hd.
  - intros [= <-] Hl. subst. rewrite chain_cons_true in Hl by done. by injection Hl.
  - intros (l1 & Hl1 & ->)%fmap_Some Hl. destruct (is_chain x) eqn:Hc.
    + rewrite chain_cons_true in Hl by done. injection Hl as <- Hnil.
      apply remove_op_perm in Hl1. assert (o ∈ chain l) as Hin; [|rewrite Hnil in Hin; set_solver].
      apply list_elem_of_filter. split; [done|]. rewrite Hl1. set_solver.
    + rewrite chain_cons_false in Hl by done. rewrite chain_cons_false by done. by apply IH.
Qed.

Lemma chain_remove_nil o l l' : remove_op o l = Some l' → chain l = [] → chain l' = [] ∧ is_chain o = false.
Proof.
  intros Hr Hl. destruct (is_chain o) eqn:Ho.
  - apply remove_op_perm in Hr. assert (o ∈ chain l) as Hin; [|rewrite Hl in Hin; set_solver].
    apply list_elem_of_filter. split; [done|]. rewrite Hr. set_solver.
  - split; [|done]. by rewrite (chain_remove_other _ _ _ Hr Ho).
Qed.

Lemma pending_do_ping c : pending (do_ping_timer c) = filter (λ o, o ≠ Ping) (pending c) ++ [Ping].
Proof. done. Qed.

Lemma no_close_filter (l : list op) : Close ∉ l → Close ∉ filter (λ o, o ≠ Ping) l.
Proof. intros Hl [_ ?]%list_elem_of_filter. done. Qed.

(** A handler that asks for a reconnect, from a state with no chain left. *)
Lemma attempt_supervised a d c :
  should_stop c = false → connected c = false → ioc_stopped c = false → Close ∉ pending c →
  chain (pending c) = [] → supervised (run_dry (attempt_reconnect a d c)).
Proof.
  intros Hs Hc Hi Hcl Hch. right. unfold attempt_reconnect, run_dry. rewrite Hs.
  destruct (Z.leb_spec (wc_max_reconnect_attempts config) a).
  - case_decide as Hp; simpl in *; (split_and!; [first [congruence | done] | done | right; right; split_and!; [done | done |]]);
      intros He; simpl; rewrite He; set_solver.
  - rewrite decide_False by (simpl; by destruct (pending c)). simpl.
    rewrite Hi, chain_app, Hch. split_and!; [done | set_solver | right; left; split; [done | by exists a, d]].
Qed.

Lemma read_again_supervised c :
  should_stop c = false → connected c = true → ioc_stopped c = false → Close ∉ pending c →
  chain (pending c) = [] → supervised (run_dry (do_read c)).
Proof.
  intros Hs Hc Hi Hcl Hch. right. unfold do_read, run_dry. rewrite Hs.
  rewrite decide_False by (simpl; by destruct (pending c)). simpl.
  rewrite Hi, chain_app, Hch. split_and!; [done | set_solver | by left].
Qed.

(** Re-arming the ping timer leaves the chain alone. *)
Lemma ping_supervised c :
  ioc_stopped c = false → supervised c → supervised (run_dry (do_ping_timer c)).
Proof.
  intros Hi [Hs|(_ & Hcl & Hch)]; unfold run_dry; rewrite pending_do_ping, decide_False
    by (by destruct (filter (λ o, o ≠ Ping) (pending c))); [by left | right].
  rewrite pending_do_ping, chain_app, chain_no_ping, app_nil_r. simpl.
  split_and!; [by rewrite Hi | | exact Hch]. rewrite elem_of_app.
  intros [?%no_close_filter|?]; set_solver.
Qed.

Definition ping_failed (a : action) : bool :=
  match a with Io (PingDue (Some _)) => true | _ => false end.
Definition is_connect (a : action) : bool := match a with Connect _ _ => true | _ => false end.

Lemma stop_persists e c : should_stop c = true → should_stop (run_dry (handle e c)) = true.
Proof.
  intros Hs. assert (H : should_stop (handle e c) = true).
  { destruct e; simpl; unfold handle_read_ok, handle_read_error, handle_ping, handle_reconnect, handle_send;
      rewrite ?Hs; repeat case_match; done. }
  unfold run_dry. by case_decide.
Qed.

Lemma dry_supervised c : ioc_stopped c = false → supervised c → supervised (run_dry c).
Proof. unfold run_dry, supervised. case_decide as Hp; [|done]. simpl. rewrite Hp. naive_solver. Qed.

Lemma io_supervised e c c' :
  supervised c → (∀ ec, e ≠ PingDue (Some ec)) → exec_io e c = Some c' → supervised c'.
Proof.
  intros [Hs|(_ & Hcl & Hch)] Hne (p & _ & Hi & Hp & ->)%exec_io_inv; [left; by apply stop_persists|].
  destruct (should_stop c) eqn:Hs; [left; by apply stop_persists|].
  assert (Hclp : Close ∉ p).
  { apply remove_op_perm in Hp. intros Hin. apply Hcl. rewrite Hp. set_solver. }
  assert (Hother : is_chain (completes e c) = false → supervised (with_pending p c)).
  { intros Ho. right. simpl. rewrite (chain_remove_other _ _ _ Hp Ho). split_and!; [congruence | done | exact Hch]. }
  assert (Hmine : is_chain (completes e c) = true → chain p = [] ∧
    ((connected c = true ∧ completes e c = Read (ws c)) ∨
     (connected c = false ∧ ∃ a d, completes e c = Reconnect a d))).
  { intros Ho. destruct Hch as [[Hc Hch]|[(Hc & a & d & Hch)|(Hc & Hch & _)]].
    - destruct (chain_remove_one _ _ _ _ Hp Ho Hch). auto.
    - destruct (chain_remove_one _ _ _ _ Hp Ho Hch). eauto 6.
    - destruct (chain_remove_nil _ _ _ Hp Hch). congruence. }
  destruct e as [msg| |g ec|res|a d res| |msg res]; cbn [completes is_chain] in Hother, Hmine.
  - destruct (Hmine eq_refl) as [Hcp [[Hc _]|(_ & ? & ? & ?)]]; [|done]. simpl. unfold handle_read_ok. simpl. rewrite Hs.
    by apply read_again_supervised.
  - destruct (Hmine eq_refl) as [Hcp [[Hc _]|(_ & ? & ? & ?)]]; [|done]. simpl. unfold handle_read_ok. simpl. rewrite Hs.
    by apply read_again_supervised.
  - destruct (Hmine eq_refl) as [Hcp _]. simpl. unfold handle_read_error. simpl. rewrite Hs.
    by apply attempt_supervised.
  - destruct res as [ec|]; [by destruct (Hne ec)|]. simpl. unfold handle_ping. simpl. rewrite Hs.
    specialize (Hother eq_refl). case_match; by apply ping_supervised.
  - destruct (Hmine eq_refl) as [Hcp _]. simpl. unfold handle_reconnect. simpl. rewrite Hs.
    destruct res as [what|]; [by apply attempt_supervised|].
    apply ping_supervised; [unfold do_read; simpl; by rewrite ?Hs|].
    right. unfold do_read. simpl. rewrite ?Hs. simpl. rewrite chain_app, Hcp.
    split_and!; [by rewrite Hi | set_solver | by left].
  - apply remove_op_perm in Hp. destruct Hcl. rewrite Hp. set_solver.
  - specialize (Hother eq_refl). simpl. unfold handle_send. simpl.
    destruct (connected c) eqn:Hc; [|by apply dry_supervised].
    destruct res as [ec|]; [|by apply dry_supervised].
    apply dry_supervised; [done|]. destruct Hother as [?|(H1 & H2 & H3)]; [by left | right].
    split_and!; [done | done |]. simpl. destruct H3 as [?|[?|(? & ? & ?)]]; [by left | by right; left | simpl in *; congruence].
Qed.

Lemma step_supervised c a c' :
  supervised c → is_connect a = false → ping_failed a = false → step c a c' → supervised c'.
Proof.
  intros Hsup Hcon Hpf Hst. unfold step, exec_action in Hst. destruct a as [path res| | |msg|e]; [done|..].
  - injection Hst as <-. by left.
  - unfold join in Hst. case_match; [done|]. by injection Hst as <-.
  - injection Hst as <-. unfold send, is_connected. destruct (connected c) eqn:Hc; [|done]. simpl.
    destruct Hsup as [?|(Hi & Hcl & Hch)]; [by left | right]. simpl.
    rewrite chain_app, chain_cons_false, app_nil_r by done. rewrite Hc in Hch |- *.
    destruct Hch as [[_ Hch]|[[? _]|[? _]]]; [|done..].
    split_and!; [intros Hst; by rewrite (Hi Hst) in Hch | set_solver | by left].
  - eapply io_supervised; [done | | done]. by intros ec ->.
Qed.

(** C8: After a successful connect and until disconnect, if no ping fails the client is
    always in exactly one of three conditions: connected with one read outstanding,
    disconnected with one reconnect timer outstanding, or given up, with the error
    handler told so if one is set. *)
Theorem connection_supervised m e path acts c :
  run step (connect path None (fresh m e)).2 acts c →
  Forall (λ a, is_connect a = false ∧ ping_failed a = false) acts →
  should_stop c = false →
  (connected c = true ∧ chain (pending c) = [Read (ws c)]) ∨
  (connected c = false ∧ ∃ a d, chain (pending c) = [Reconnect a d]) ∨
  (connected c = false ∧ chain (pending c) = [] ∧ (on_error c = true → gave_up ∈ calls c)).
Proof.
  intros Hr Hall Hs.
  assert (Hsup : supervised c).
  { clear Hs. revert acts c Hr Hall. apply (run_invariant step (λ acts c,
      Forall (λ a, is_connect a = false ∧ ping_failed a = false) acts → supervised c)).
    - intros _. right. split_and!; [done | simpl; set_solver | by left].
    - intros tr c1 a c2 _ IH Hst [Htr Ha]%Forall_app. inversion_clear Ha as [|? ? [Hc Hp] _].
      eapply step_supervised; eauto. }
  destruct Hsup as [?|(_ & _ & H)]; [congruence | done].
Qed.

(** *** Where the machine gets stuck or doubles *)

(** A client that connects again after a disconnect, or after a failed first attempt,
    reports itself connected but no handler ever runs, because the stopped io_context is
    never restarted. *)
Theorem reconnected_client_is_deaf m e path path' what :
  what ≠ "" →
  (∃ c, run step (fresh m e) [Connect path None; Disconnect; Io CloseDue; Join; Connect path' None] c ∧
     is_connected c = true ∧ ∀ ev, exec_io ev c = None) ∧
  (∃ c, run step (fresh m e) [Connect path (Some what); Connect path' None] c ∧
     is_connected c = true ∧ ∀ ev, exec_io ev c = None).
Proof.
  intros Hw. split; eexists; (split; [apply exec_actions_run; simpl; unfold connect; simpl|]).
  - reflexivity.
  - done.
  - rewrite decide_False by done. simpl. reflexivity.
  - done.
Qed.

(** A failed ping starts a reconnect while the read is still outstanding; when the
    read is aborted it starts a second one. *)
Theorem ping_failure_doubles_reconnects m e path ec ec' :
  0 < wc_max_reconnect_attempts config →
  ∃ c, run step (fresh m e) [Connect path None; Io (PingDue (Some ec)); Io (ReadError 1 ec')] c ∧
    chain (pending c) = [Reconnect 0 (wc_reconnect_interval config);
                         Reconnect 0 (wc_reconnect_interval config)].
Proof.
  intros Hmax. eexists. split.
  - apply exec_actions_run. simpl. unfold exec_io. simpl.
    unfold handle_ping, handle_read_error, attempt_reconnect. simpl.
    destruct (Z.leb_spec (wc_max_reconnect_attempts config) 0); [lia|]. simpl. reflexivity.
  - done.
Qed.
End client.
End Wss.

(** ** Examples *)
Module WssWitness.
Import Wss.

(** The connection drops and two reconnects fail. *)
Definition losing : list action :=
  [Connect "/ws/btcusdt@trade" None; Io (ReadText "{}"); Io (ReadError 1 "End of file");
   Io (ReconnectDue 0 5 (Some "timed out")); Io (ReconnectDue 1 10 (Some "timed out"))].

(** [jitter] is the multiplication and truncation of binary64. *)
Definition jitter_by_doubles (base draw : positive) : Z :=
  match Dbl.dmul (SpecFloat.S754_finite false base 0) (SpecFloat.S754_finite false draw (-53)) with
  | SpecFloat.S754_finite _ m e => Z.shiftl (Z.pos m) e
  | _ => 0
  end.

Example jitter_agrees :
  map (λ d, jitter 5000 (Z.pos d)) [6755399441055744; 7000000000000001; 9007199254740991; 11258999068426239]%positive =
  map (jitter_by_doubles 5000) [6755399441055744; 7000000000000001; 9007199254740991; 11258999068426239]%positive.
Proof. reflexivity. Qed.

Lemma reconnect_schedule_witness :
  ∃ c, run (step WebSocketConfig_default) (fresh true true) losing c ∧ Reconnect 2 20 ∈ pending c ∧ 20 = Z.min (5 * 2 ^ 2) 60.
Proof.
  destruct (exec_actions WebSocketConfig_default losing (fresh true true)) as [c|] eqn:Hc; [|vm_compute in Hc; discriminate].
  apply exec_actions_run in Hc as Hr. exists c. split; [done|].
  assert (Hin : Reconnect 2 20 ∈ pending c).
  { vm_compute in Hc. injection Hc as <-. simpl. set_solver. }
  split; [done|].
  exact (proj1 (proj2 (reconnect_schedule WebSocketConfig_default true true losing c 2 20 ltac:(done) Hr Hin))).
Defined.

Definition live : client := (connect "/ws/btcusdt@trade" None (fresh true true)).2.

Lemma connection_supervised_witness :
  ∃ c, run (step WebSocketConfig_default) live [Io (ReadText "{}"); SendMsg "hi"; Io (PingDue None)] c ∧
    chain (pending c) = [Read (ws c)].
Proof.
  destruct (exec_actions WebSocketConfig_default [Io (ReadText "{}"); SendMsg "hi"; Io (PingDue None)] live)
    as [c|] eqn:Hc; [|vm_compute in Hc; discriminate].
  apply exec_actions_run in Hc as Hr. exists c. split; [done|].
  destruct (connection_supervised WebSocketConfig_default true true "/ws/btcusdt@trade" _ c Hr) as [[_ H]|[[H _]|[H _]]].
  - by repeat constructor.
  - vm_compute in Hc. injection Hc as <-. done.
  - exact H.
  - vm_compute in Hc. injection Hc as <-. discriminate H.
  - vm_compute in Hc. injection Hc as <-. discriminate H.
Defined.

Lemma reconnected_client_is_deaf_witness :
  ∃ c, run (step WebSocketConfig_default) (fresh true true)
         [Connect "/ws/a" None; Disconnect; Io CloseDue; Join; Connect "/ws/b" None] c ∧
       is_connected c = true ∧ ∀ ev, exec_io WebSocketConfig_default ev c = None.
Proof. exact (proj1 (reconnected_client_is_deaf WebSocketConfig_default true true "/ws/a" "/ws/b" "refused" ltac:(done))). Defined.

Lemma ping_failure_doubles_reconnects_witness :
  ∃ c, run (step WebSocketConfig_default) (fresh true true)
         [Connect "/ws/a" None; Io (PingDue (Some "reset")); Io (ReadError 1 "reset")] c ∧
       chain (pending c) = [Reconnect 0 5; Reconnect 0 5].
Proof. exact (ping_failure_doubles_reconnects WebSocketConfig_default true true "/ws/a" "reset" "reset" ltac:(done)). Defined.
End WssWitness.
