(* ===== verification/WsInterleave.v ===== *)
(** * src/ws/detail/websocket_client.cpp between the statements

    WebSocketClient.v runs each handler of the I/O thread in one step.
    Here a handler is the list of its accesses to shared state, and the
    caller's [disconnect] and [send] may come between any two of them;
    [disconnect] itself is split the same way.  Without interference a
    handler does what it does there ([handler_agrees]).  [ping_timer] is a
    pointer that the I/O thread replaces and [disconnect] follows. *)

From S2P Require Import Prelude Errors CppLib CoreTypes HttpClient WebSocketClient.
Local Open Scope nat_scope.

Module Fine.
Import Wss.

Section fine.
Context (config : WebSocketConfig).

(** One access of the I/O thread. *)
Inductive instr : Type :=
| ICheckStop                            (* if (should_stop.load()) return; *)
| IConnected (b : bool)                 (* connected.store(b) *)
| ICall (cb : callback)                 (* if (on_...) on_...(msg) *)
| INewStream                            (* ws = std::make_unique<WsStream>(...) *)
| IDoRead                               (* do_read: its check *)
| IRead                                 (* do_read: async_read *)
| IDoPing                               (* do_ping_timer *)
| IPing (res : option string)           (* if (connected.load()) ... ping *)
| ISchedule (attempt delay : Z)         (* attempt_reconnect after its check *)
| IWrite (res : option string)          (* the handler posted by send *)
| IStop.                                (* ioc.stop() *)

(** [attempt_reconnect(attempt, delay)] *)
Definition reconnect_instrs (attempt delay : Z) : list instr := [ICheckStop; ISchedule attempt delay].

(** The statements of a handler. *)
Definition instrs (e : event) : list instr :=
  match e with
  | ReadText msg => [ICheckStop; ICall (OnMessage msg); IDoRead]
  | ReadBinary => [ICheckStop; IDoRead]
  | ReadError _ ec =>
      [ICheckStop; IConnected false; ICall (OnError ("Read error: " +:+ ec)); ICheckStop]
      ++ reconnect_instrs 0 (wc_reconnect_interval config)
  | PingDue res => [ICheckStop; IPing res; IDoPing]
  | ReconnectDue a d res =>
      [ICheckStop; ICall (OnError ("Reconnecting (attempt " +:+ Dec.to_string (a + 1) +:+ ")...")); INewStream]
      ++ match res with
         | None => [IConnected true; IDoRead; IDoPing]
         | Some what => [IConnected false; ICall (OnError ("Reconnect attempt failed: " +:+ what))]
                        ++ reconnect_instrs (a + 1) (next_delay d)
         end
  | CloseDue => [IStop]
  | SendDue _ res => [IWrite res]
  end.

(** One access, and what is left of the handler. *)
Definition exec_instr (i : instr) (c : client) (rest : list instr) : client * list instr :=
  match i with
  | ICheckStop => (c, if should_stop c then [] else rest)
  | IConnected b => (set_flags b (should_stop c) c, rest)
  | ICall cb => (call cb c, rest)
  | INewStream => (new_stream c, rest)
  | IDoRead => (c, if should_stop c then rest else IRead :: rest)
  | IRead => (add_op (Read (ws c)) c, rest)
  | IDoPing => (do_ping_timer c, rest)
  | IPing res =>
      if connected c then
        match res with
        | Some ec => (c, [IConnected false; ICall (OnError ("Ping failed: " +:+ ec))]
                         ++ reconnect_instrs 0 (wc_reconnect_interval config))
        | None => (c, rest)
        end
      else (c, rest)
  | ISchedule a d =>
      (if (wc_max_reconnect_attempts config <=? a)%Z then call (OnError "Max reconnect attempts reached -- giving up") c
       else add_op (Reconnect a d) c, rest)
  | IWrite res =>
      (match res with Some ec => if connected c then call (OnError ("Send error: " +:+ ec)) c else c | None => c end, rest)
  | IStop => (stop_ioc c, rest)
  end.

(** Where [disconnect] is on the caller's thread. *)
Inductive dpc : Type :=
| DIdle
| DFlag                 (* connected.store(false) *)
| DLoad                 (* if (ping_timer) *)
| DCancel (timer : nat) (* ping_timer->cancel() through the pointer read *)
| DPost                 (* asio::post(ioc, close) *)
| DJoin
| DDone.

Record state : Type := State {
  cl : client;
  todo : list instr;     (* of the handler the I/O thread is in *)
  timer : nat;           (* the object [ping_timer] points to; 0 is none *)
  caller : dpc
}.

Inductive label : Type := Begin (e : event) | Micro | Disc | SendMsg (msg : string).

Definition next_timer (i : instr) (t : nat) : nat := match i with IDoPing => S t | _ => t end.

(** After its last statement the handler returns to [ioc.run()]. *)
Definition settle (c : client) (rest : list instr) : client := match rest with [] => run_dry c | _ => c end.

(** [None]: not possible.  A crash is a use of freed memory. *)
Definition exec (l : label) (s : state) : option (outcome exn state) :=
  match l with
  | Begin e =>
      match todo s with
      | [] => if negb (io_thread (cl s)) || ioc_stopped (cl s) then None
              else p ← remove_op (completes e (cl s)) (pending (cl s));
                   Some (Ok (State (with_pending p (cl s)) (instrs e) (timer s) (caller s)))
      | _ => None
      end
  | Micro =>
      match todo s with
      | [] => None
      | i :: rest => let '(c, rest) := exec_instr i (cl s) rest in
                     Some (Ok (State (settle c rest) rest (next_timer i (timer s)) (caller s)))
      end
  | Disc =>
      let set c p := Some (Ok (State c (todo s) (timer s) p)) in
      let c := cl s in
      match caller s with
      | DIdle => set (set_flags (connected c) true c) DFlag
      | DFlag => set (set_flags false (should_stop c) c) DLoad
      | DLoad => set c (match timer s with O => DPost | t => DCancel t end)
      | DCancel t => if decide (t = timer s) then set (cancel_ping c) DPost else Some (Crash ub_dangling)
      | DPost => set (add_op Close c) DJoin
      | DJoin => match todo s with
                 | [] => c' ← join c; set c' DDone
                 | _ => None
                 end
      | DDone => None
      end
  | SendMsg msg =>
      match caller s with
      | DIdle => Some (Ok (State (send msg (cl s)).2 (todo s) (timer s) (caller s)))
      | _ => None
      end
  end.

Definition step (s : state) (l : label) (s' : state) : Prop := exec l s = Some (Ok s').

Fixpoint exec_all (l : list label) (s : state) : option (outcome exn state) :=
  match l with
  | [] => Some (Ok s)
  | a :: l => match exec a s with Some (Ok s') => exec_all l s' | r => r end
  end.

Lemma fine_exec_run l s s' : exec_all l s = Some (Ok s') → run step s l s'.
Proof.
  revert s. induction l as [|a l IH]; intros s; simpl; [intros [= ->]; constructor|].
  destruct (exec a s) as [[s1| |]|] eqn:Ha; try done. intros H. eapply run_cons; [exact Ha | by apply IH].
Qed.

(** [connect] returns when [notify_connect] has run: the I/O thread is
    about to start the read loop and the ping timer. *)
Definition connected_client (m e : bool) (path : string) : state :=
  State (set_flags true false (new_stream (Client false false path 0 [] false true [] m e))) [IDoRead; IDoPing] 0 DIdle.

(** *** Without interference *)

Fixpoint run_instrs (fuel : nat) (l : list instr) (c : client) : client :=
  match fuel, l with
  | S fuel, i :: rest => let '(c, rest) := exec_instr i c rest in run_instrs fuel rest c
  | _, _ => c
  end.

(** A handler has at most eight statements. *)
Definition handler_fuel : nat := 8.

Lemma handle_instrs e c : run_instrs handler_fuel (instrs e) c = handle config e c.
Proof.
  unfold handler_fuel, instrs, reconnect_instrs.
  destruct e as [msg| |g ec|res|a d res| |msg res]; simpl;
    unfold handle_read_ok, handle_read_error, handle_ping, handle_reconnect, handle_send, attempt_reconnect, do_read; simpl.
  - destruct (should_stop c) eqn:Hs; [done|]. repeat (simpl; rewrite ?Hs). done.
  - destruct (should_stop c) eqn:Hs; [done|]. repeat (simpl; rewrite ?Hs). done.
  - destruct (should_stop c) eqn:Hs; [done|]. repeat (simpl; rewrite ?Hs). done.
  - destruct (should_stop c) eqn:Hs; [done|]. simpl. destruct (connected c), res; repeat (simpl; rewrite ?Hs); done.
  - destruct (should_stop c) eqn:Hs; [done|]. destruct res; repeat (simpl; rewrite ?Hs); done.
  - done.
  - by destruct res, (connected c).
Qed.

(** How many accesses a statement leads to. *)
Definition weight1 (i : instr) : nat := match i with IDoRead => 2 | IPing _ => 5 | _ => 1 end.
Fixpoint weight (l : list instr) : nat := match l with [] => 0 | i :: l => weight1 i + weight l end.

Lemma exec_instr_weight i c rest : weight (exec_instr i c rest).2 < weight (i :: rest).
Proof. destruct i; simpl; repeat case_match; simpl; lia. Qed.

Lemma weight_instrs e : weight (instrs e) ≤ handler_fuel.
Proof. unfold handler_fuel. destruct e; simpl; repeat case_match; simpl; lia. Qed.

Lemma micro_drain n l c t d :
  weight l ≤ n → l ≠ [] →
  ∃ k t', run step (State c l t d) (replicate k Micro) (State (run_dry (run_instrs n l c)) [] t' d) ∧ k ≤ n.
Proof.
  revert l c t. induction n as [|n IH]; intros l c t Hw Hne.
  - destruct l as [|i l]; [done|]. simpl in Hw. destruct i; simpl in Hw; lia.
  - destruct l as [|i rest]; [done|]. pose proof (exec_instr_weight i c rest) as Hlt. simpl.
    destruct (exec_instr i c rest) as [c1 rest1] eqn:He. simpl in Hlt, Hw.
    assert (Hst : step (State c (i :: rest) t d) Micro (State (settle c1 rest1) rest1 (next_timer i t) d))
      by (unfold step; simpl; by rewrite He).
    destruct rest1 as [|i1 rest1].
    + exists 1, (next_timer i t). split; [|lia]. apply run_one. by destruct n.
    + destruct (IH (i1 :: rest1) c1 (next_timer i t)) as (k & t' & Hr & Hk); [cbn [weight] in *; lia | done |].
      exists (S k), t'. split; [|lia]. simpl. by eapply run_cons.
Qed.

(** Without interference the statement-level handlers do in at most eight accesses what
    the atomic handlers of the state machine do in one step. *)
Theorem handler_agrees e s c' :
  todo s = [] → exec_io config e (cl s) = Some c' →
  ∃ k t', run step s (Begin e :: replicate k Micro) (State c' [] t' (caller s)) ∧ k ≤ handler_fuel.
Proof.
  intros Ht Hio. destruct (exec_io_inv _ _ _ _ Hio) as (p & Hth & Hst & Hp & ->).
  destruct (micro_drain handler_fuel (instrs e) (with_pending p (cl s)) (timer s) (caller s)) as (k & t' & Hr & Hk);
    [apply weight_instrs | by destruct e |].
  exists k, t'. split; [|done]. rewrite handle_instrs in Hr. eapply run_cons; [|exact Hr].
  unfold step. simpl. by rewrite Ht, Hth, Hst, Hp.
Qed.

(** *** Message callbacks around [disconnect] *)

Definition is_text (i : instr) : bool := match i with ICall (OnMessage _) => true | _ => false end.
Fixpoint text_calls (l : list instr) : nat :=
  match l with [] => 0 | i :: l => (if is_text i then 1 else 0) + text_calls l end.
(** Those a handler can still make once [should_stop] is set. *)
Definition armed (l : list instr) : nat := match l with ICheckStop :: _ => 0 | _ => text_calls l end.

Lemma armed_le l : armed l ≤ text_calls l.
Proof. destruct l as [|[] l]; simpl; lia. Qed.

Lemma exec_instr_text i c rest : text_calls (exec_instr i c rest).2 ≤ text_calls (i :: rest).
Proof. destruct i; simpl; repeat case_match; simpl; lia. Qed.

Lemma instrs_text e : text_calls (instrs e) ≤ 1.
Proof. destruct e; simpl; repeat case_match; simpl; lia. Qed.

Lemma exec_instr_flags i c rest :
  let c' := (exec_instr i c rest).1 in
  should_stop c' = should_stop c ∧ io_thread c' = io_thread c ∧ (Close ∈ pending c → Close ∈ pending c') ∧
  (ioc_stopped c' = false → ioc_stopped c = false) ∧ on_message c' = on_message c.
Proof.
  destruct i; simpl; repeat case_match; simpl; split_and!; try done; try set_solver.
  rewrite elem_of_app, list_elem_of_filter. naive_solver.
Qed.

(** [ioc.stop()] is the only statement of its handler. *)
Definition stop_alone (l : list instr) : Prop := IStop ∈ l → l = [IStop].

Lemma instrs_stop e : stop_alone (instrs e).
Proof. intros Hin. destruct e; simpl in *; repeat case_match; set_solver. Qed.

Lemma exec_instr_alone i c rest : stop_alone (i :: rest) → stop_alone (exec_instr i c rest).2.
Proof.
  intros H Hin. exfalso. assert (Hr : IStop ∈ rest → False).
  { intros Hr. specialize (H ltac:(set_solver)). injection H as -> ->. set_solver. }
  destruct i; simpl in Hin; repeat case_match; set_solver.
Qed.

(** The caller's phases and the flags; the life of the I/O thread. *)
Record sane (s : state) : Prop := {
  sane_text : text_calls (todo s) ≤ 1;
  sane_alone : stop_alone (todo s);
  sane_stop : caller s ≠ DIdle → should_stop (cl s) = true;
  sane_done : caller s = DDone → io_thread (cl s) = false ∧ todo s = [];
  sane_live : caller s ≠ DDone → io_thread (cl s) = true;
  sane_close : caller s = DJoin → ioc_stopped (cl s) = false → Close ∈ pending (cl s) ∨ todo s = [IStop]
}.

Lemma settle_frame c rest :
  should_stop (settle c rest) = should_stop c ∧ io_thread (settle c rest) = io_thread c ∧
  pending (settle c rest) = pending c ∧ calls (settle c rest) = calls c ∧ on_message (settle c rest) = on_message c ∧
  (ioc_stopped (settle c rest) = false → ioc_stopped c = false).
Proof. unfold settle, run_dry. destruct rest; [case_decide|]; done. Qed.

Lemma sane_begin e s s' : sane s → step s (Begin e) s' → sane s'.
Proof.
  intros [Ht Hal Hs Hd Hl Hc] Hst. unfold step, exec in Hst. destruct (todo s) eqn:Htodo; [|done].
  destruct (negb (io_thread (cl s)) || ioc_stopped (cl s)) eqn:Hg; [done|].
  apply orb_false_iff in Hg as [Hio Hioc]. apply negb_false_iff in Hio.
  destruct (remove_op (completes e (cl s)) (pending (cl s))) as [p|] eqn:Hp; simpl in Hst; [|done]. simplify_eq.
  constructor; simpl; [apply instrs_text | apply instrs_stop | done | | done |].
  - intros Hdd. destruct (Hd Hdd). congruence.
  - intros Hj _. destruct (Hc Hj Hioc) as [Hin|]; [|done]. apply remove_op_perm in Hp. rewrite Hp in Hin.
    apply elem_of_cons in Hin as [He|]; [|by left]. right. by destruct e.
Qed.

Lemma sane_micro s s' : sane s → step s Micro s' → sane s'.
Proof.
  intros [Ht Hal Hs Hd Hl Hc] Hst. unfold step, exec in Hst. destruct (todo s) as [|i rest] eqn:Htodo; [done|].
  pose proof (exec_instr_text i (cl s) rest) as H1. pose proof (exec_instr_alone i (cl s) rest Hal) as H2.
  destruct (exec_instr_flags i (cl s) rest) as (F1 & F2 & F3 & F4 & _).
  destruct (exec_instr i (cl s) rest) as [c1 rest1] eqn:He. simplify_eq. cbn [fst snd] in *.
  destruct (settle_frame c1 rest1) as (S1 & S2 & S3 & _ & _ & S4).
  constructor; simpl; rewrite ?S1, ?S2, ?S3, ?F1, ?F2; [lia | done | done | | done |].
  - intros Hdd. by destruct (Hd Hdd).
  - intros Hj Hns. destruct (Hc Hj (F4 (S4 Hns))) as [Hin|Hin]; [auto|].
    injection Hin as -> ->. simpl in He. simplify_eq. by specialize (S4 Hns).
Qed.

Lemma sane_disc s s' : sane s → step s Disc s' → sane s'.
Proof.
  intros [Ht Hal Hs Hd Hl Hc] Hst. unfold step, exec in Hst.
  assert (Hl' : caller s ≠ DDone → ∀ p, p ≠ DDone → io_thread (cl s) = true) by auto.
  destruct (caller s) eqn:Hca; simplify_eq.
  - constructor; simpl; try done; eauto.
  - constructor; simpl; try done; eauto.
  - destruct (timer s); constructor; simpl; try done; eauto.
  - case_decide; simplify_eq. constructor; simpl; try done; eauto.
  - constructor; simpl; try done; eauto. intros _ _. left. set_solver.
  - destruct (todo s) eqn:Htodo; [|done]. unfold join in Hst. case_match; [done|]. simpl in Hst. simplify_eq.
    constructor; simpl; try done; eauto.
Qed.

Lemma sane_send msg s s' : sane s → step s (SendMsg msg) s' → sane s'.
Proof.
  intros [Ht Hal Hs Hd Hl Hc] Hst. unfold step, exec in Hst. destruct (caller s) eqn:Hca; [|done..]. simplify_eq.
  assert (Hio : io_thread (send msg (cl s)).2 = io_thread (cl s)) by (unfold send; by case_match).
  constructor; simpl; try done. intros _. rewrite Hio. by apply Hl.
Qed.

Lemma sane_step s l s' : sane s → step s l s' → sane s'.
Proof. destruct l; eauto using sane_begin, sane_micro, sane_disc, sane_send. Qed.

Lemma sane_run m e path tr s : run step (connected_client m e path) tr s → sane s.
Proof.
  revert tr s. apply (run_invariant step (λ _ s, sane s)); [|eauto using sane_step].
  constructor; simpl; try done; [lia | intros Hin; set_solver].
Qed.

Lemma call_texts_le cb c :
  ∃ l, texts (call cb c) = texts c ++ l ∧ length l ≤ (if is_text (ICall cb) then 1 else 0).
Proof.
  unfold texts, call. simpl. rewrite omap_app. eexists. split; [done|].
  destruct cb; simpl; [destruct (on_message c) | destruct (on_error c)]; simpl; lia.
Qed.

(** With the flag set, a statement's text callbacks are paid for by what
    the handler was armed with. *)
Lemma stopped_micro i c rest :
  should_stop c = true →
  ∃ l, texts (exec_instr i c rest).1 = texts c ++ l ∧ length l + armed (exec_instr i c rest).2 ≤ armed (i :: rest).
Proof.
  intros Hs. pose proof (armed_le rest) as Hle.
  assert (Hquiet : ∀ c' n, texts c' = texts c → n ≤ armed (i :: rest) →
    ∃ l, texts c' = texts c ++ l ∧ length l + n ≤ armed (i :: rest)).
  { intros c' n Ht Hn. exists []. by rewrite app_nil_r. }
  destruct i; simpl in *; rewrite ?Hs; try (apply Hquiet; [done | simpl; lia]).
  - destruct (call_texts_le cb c) as (l & Hl & Hn). exists l. split; [done | simpl in Hn; lia].
  - repeat case_match; apply Hquiet; done || (simpl; lia).
  - destruct (call_texts_le (OnError "Max reconnect attempts reached -- giving up") c) as (l & Hl & Hn).
    simpl in Hn. destruct (wc_max_reconnect_attempts config <=? attempt)%Z; [exists l; split; [done | lia]|].
    apply Hquiet; [done | lia].
  - destruct res as [ec|]; [|apply Hquiet; [done | lia]].
    destruct (call_texts_le (OnError ("Send error: " +:+ ec)) c) as (l & Hl & Hn).
    simpl in Hn. destruct (connected c); [exists l; split; [done | lia] | apply Hquiet; [done | lia]].
Qed.

Lemma armed_instrs e : armed (instrs e) = 0.
Proof. by destruct e. Qed.

Lemma stopped_step s l s' :
  sane s → caller s ≠ DIdle → step s l s' →
  caller s' ≠ DIdle ∧
  ∃ k, texts (cl s') = texts (cl s) ++ k ∧ length k + armed (todo s') ≤ armed (todo s).
Proof.
  intros Hsane Hca Hst. pose proof (sane_stop _ Hsane Hca) as Hs. unfold step, exec in Hst. destruct l as [e| | |msg].
  - destruct (todo s); [|done]. case_match; [done|].
    destruct (remove_op _ _) as [p|]; simpl in Hst; [|done]. simplify_eq/=. split; [done|].
    exists []. rewrite app_nil_r, armed_instrs. split; [done | simpl; lia].
  - destruct (todo s) as [|i rest]; [done|]. destruct (stopped_micro i (cl s) rest Hs) as (k & Hk & Hn).
    destruct (exec_instr i (cl s) rest) as [c1 rest1]. simplify_eq/=. split; [done|].
    destruct (settle_frame c1 rest1) as (_ & _ & _ & Hcalls & _). exists k. unfold texts in *. by rewrite Hcalls.
  - assert (Hsame : ∀ c p, s' = State c (todo s) (timer s) p → texts c = texts (cl s) → p ≠ DIdle →
      caller s' ≠ DIdle ∧ ∃ k, texts (cl s') = texts (cl s) ++ k ∧ length k + armed (todo s') ≤ armed (todo s)).
    { intros c p -> Ht Hp. split; [done|]. exists []. by rewrite app_nil_r. }
    destruct (caller s); simplify_eq; try (by eapply Hsame; [reflexivity | |]).
    + destruct (timer s); by eapply Hsame; [reflexivity | |].
    + case_decide; simplify_eq. by eapply Hsame; [reflexivity | |].
    + destruct (todo s) eqn:Ht; [|done]. unfold join in Hst. case_match; simplify_eq/=. by eapply Hsame; [reflexivity | |].
  - by destruct (caller s).
Qed.


(** *** [disconnect] returns *)

(** What is left to do once the flag is set: a handler that has not
    checked it yet returns at once. *)
Definition work1 (i : instr) : nat :=
  match i with IRead | IDoPing | ISchedule _ _ => 3 | IPing _ => 7 | _ => 1 end.
Fixpoint work (l : list instr) : nat :=
  match l with [] => 0 | ICheckStop :: _ => 1 | i :: l => work1 i + work l end.
Definition io_left (s : state) : nat := work (todo s) + 2 * length (pending (cl s)).

Definition is_io (l : label) : bool := match l with Begin _ | Micro => true | _ => false end.
Fixpoint io_steps (tr : list label) : nat :=
  match tr with [] => 0 | l :: tr => (if is_io l then 1 else 0) + io_steps tr end.

Lemma io_steps_app tr1 tr2 : io_steps (tr1 ++ tr2) = io_steps tr1 + io_steps tr2.
Proof. induction tr1 as [|l tr1 IH]; [done|]. simpl. rewrite IH. lia. Qed.

Lemma work_instrs e : work (instrs e) = 1.
Proof. by destruct e. Qed.

Lemma stopped_work i c rest :
  should_stop c = true →
  work (exec_instr i c rest).2 + 2 * length (pending (exec_instr i c rest).1) < work (i :: rest) + 2 * length (pending c).
Proof.
  intros Hs. pose proof (length_filter (λ o, o ≠ Ping) (pending c)) as Hf.
  destruct i; simpl; rewrite ?Hs; repeat case_match; simpl; rewrite ?length_app; simpl; lia.
Qed.

Lemma joining_step s l s' :
  sane s → caller s = DJoin → step s l s' →
  (caller s' = DJoin ∧ is_io l = true ∧ io_left s' < io_left s) ∨
  (caller s' = DDone ∧ is_io l = false ∧ io_left s' = io_left s).
Proof.
  intros Hsane Hj Hst. pose proof (sane_stop _ Hsane) as Hs. rewrite Hj in Hs. specialize (Hs ltac:(done)).
  unfold step, exec in Hst. rewrite Hj in Hst. destruct l as [e| | |msg].
  - left. destruct (todo s) eqn:Ht; [|done]. case_match; [done|].
    destruct (remove_op _ _) as [p|] eqn:Hp; simpl in Hst; [|done]. simplify_eq/=. split_and!; [done | done|].
    unfold io_left. cbn [todo cl pending with_pending]. rewrite work_instrs, Ht. apply remove_op_perm in Hp. rewrite Hp. simpl. lia.
  - left. unfold io_left. destruct (todo s) as [|i rest]; [done|].
    pose proof (stopped_work i (cl s) rest Hs) as Hw.
    destruct (exec_instr i (cl s) rest) as [c1 rest1]. simplify_eq. cbn [todo cl caller].
    destruct (settle_frame c1 rest1) as (_ & _ & -> & _). done.
  - right. destruct (todo s) eqn:Ht; [|done]. unfold join in Hst. case_match; simplify_eq/=.
    unfold io_left. simpl. by rewrite Ht.
  - done.
Qed.

Lemma remove_op_in o l : o ∈ l → ∃ l', remove_op o l = Some l'.
Proof.
  induction l as [|o' l IH]; intros Hin; [by apply not_elem_of_nil in Hin|]. simpl. case_decide; [by eexists|].
  destruct IH as [l' Hl']; [set_solver|]. rewrite Hl'. by eexists.
Qed.

Lemma joining_progress s : sane s → caller s = DJoin → ∃ l s', step s l s'.
Proof.
  intros Hsane Hj. destruct (todo s) as [|i rest] eqn:Ht.
  - pose proof (sane_live _ Hsane) as Hio. rewrite Hj in Hio. specialize (Hio ltac:(done)).
    destruct (ioc_stopped (cl s)) eqn:Hst.
    + exists Disc. unfold step, exec. rewrite Hj, Ht. unfold join. rewrite Hio, Hst. simpl. by eexists.
    + destruct (sane_close _ Hsane Hj Hst) as [Hin|Hin]; [|congruence].
      destruct (remove_op_in _ _ Hin) as [p Hp]. exists (Begin CloseDue). unfold step, exec. rewrite Ht, Hio, Hst. simpl.
      rewrite Hp. simpl. by eexists.
  - exists Micro. unfold step, exec. rewrite Ht. destruct (exec_instr i (cl s) rest). by eexists.
Qed.


(** *** Two races *)

Ltac one_step := eapply run_cons; [unfold step, exec; lazy -[Z.leb String.append Dec.to_string wc_max_reconnect_attempts wc_reconnect_interval]; reflexivity|].

(** A disconnect that runs while a reconnect attempt is past its check leaves a client
    that reports itself connected after disconnect has returned. *)
Theorem disconnect_while_reconnecting m e path ec :
  (0 < wc_max_reconnect_attempts config)%Z →
  ∃ tr s, run step (connected_client m e path) tr s ∧ Begin (ReadError 1 ec) ∈ tr ∧ caller s = DDone ∧
    is_connected (cl s) = true.
Proof.
  intros Hmax. assert (Hle : (wc_max_reconnect_attempts config <=? 0)%Z = false) by lia.
  assert (Hrem : ∀ d, remove_op (Reconnect 0 d) [Ping; Reconnect 0 d] = Some [Ping]).
  { intros d. simpl. by rewrite decide_True. }
  exists ([Micro; Micro; Micro; Begin (ReadError 1 ec)] ++ replicate 6 Micro
          ++ [Begin (ReconnectDue 0 (wc_reconnect_interval config) None)]
          ++ replicate 3 Micro ++ replicate 5 Disc ++ replicate 3 Micro ++ [Begin CloseDue; Micro; Disc]).
  eexists. split; [|split; [set_solver|]].
  - cbn [app replicate]. do 9 one_step. eapply run_cons; [unfold step, exec; lazy -[Z.leb String.append Dec.to_string wc_max_reconnect_attempts wc_reconnect_interval]; rewrite Hle; reflexivity|].
    eapply run_cons; [unfold step, exec; lazy -[remove_op wc_reconnect_interval]; rewrite Hrem; reflexivity|].
    do 14 one_step. apply run_nil.
  - done.
Qed.

(** disconnect can read ping_timer just before the I/O thread replaces the timer, and
    then cancels a destroyed one. *)
Theorem disconnect_follows_freed_timer m e path :
  ∃ tr s, run step (connected_client m e path) tr s ∧ exec Disc s = Some (Crash ub_dangling).
Proof.
  exists ([Micro; Micro; Micro; Begin (PingDue None)] ++ replicate 2 Micro ++ replicate 3 Disc ++ [Micro]).
  eexists. split; [by apply fine_exec_run | done].
Qed.

(** *** [disconnect] from a callback *)

(** The I/O thread is about to make a message callback that calls
    [disconnect]: everything up to the join is done, and joining itself
    throws [std::system_error].  The lambdas of the streams catch it and
    the handler goes on; otherwise it leaves the thread function. *)
Definition callback_disconnects (caught : bool) (s : state) : option (outcome exn state) :=
  match todo s with
  | ICall (OnMessage _) :: rest =>
      if caught then Some (Ok (State (settle (disconnect (cl s)) rest) rest (timer s) (caller s)))
      else Some (Crash std_terminate)
  | _ => None
  end.

(** A message callback that calls disconnect joins its own thread, which throws: without
    a catch the process terminates; where the streams' lambdas catch it, the connection
    closes and the I/O thread ends but stays joinable, so that connecting again
    terminates. *)
Theorem disconnect_from_callback m e path msg :
  ∃ tr s, run step (connected_client m e path) (tr ++ [Begin (ReadText msg); Micro]) s ∧
    callback_disconnects false s = Some (Crash std_terminate) ∧
    ∃ s1 tr' s2, callback_disconnects true s = Some (Ok s1) ∧ run step s1 tr' s2 ∧
      todo s2 = [] ∧ ioc_stopped (cl s2) = true ∧ is_connected (cl s2) = false ∧
      (∀ l, is_io l = true → exec l s2 = None) ∧
      (∀ path' res, (connect path' res (cl s2)).1 = Crash std_terminate).
Proof.
  exists [Micro; Micro; Micro],
    (State (Client true false path 1 [Ping] false true [] m e) [ICall (OnMessage msg); IDoRead] 1 DIdle).
  split; [apply fine_exec_run; reflexivity|]. split; [reflexivity|].
  exists (State (Client false true path 1 [Close] false true [] m e) [IDoRead] 1 DIdle), [Micro; Begin CloseDue; Micro],
    (State (Client false true path 1 [] true true [] m e) [] 1 DIdle).
  split; [reflexivity|]. split; [apply fine_exec_run; reflexivity|].
  split_and!; [reflexivity | reflexivity | reflexivity | by intros [] | reflexivity].
Qed.
End fine.
End Fine.

(** ** Examples *)
Module FineWitness.
Import Wss Fine.

Definition cfg : WebSocketConfig := WebSocketConfig_default.
Definition opened : state := connected_client true true "/ws/btcusdt@trade".

(** The read loop and the ping timer have been started. *)
Definition running : list label := [Micro; Micro; Micro].

Definition ready : state := State (Client true false "/ws/btcusdt@trade" 1 [Read 1; Ping] false true [] true true) [] 1 DIdle.

Lemma to_ready : run (step cfg) opened running ready.
Proof. by apply fine_exec_run. Qed.

Lemma handler_agrees_witness :
  ∃ c k t, exec_io cfg (ReadText "hi") (cl ready) = Some c ∧
    run (step cfg) ready (Begin (ReadText "hi") :: replicate k Micro) (State c [] t DIdle) ∧ calls c = [OnMessage "hi"].
Proof.
  destruct (exec_io cfg (ReadText "hi") (cl ready)) as [c|] eqn:Hc; [|vm_compute in Hc; discriminate].
  destruct (handler_agrees cfg (ReadText "hi") ready c eq_refl Hc) as (k & t & Hr & _).
  exists c, k, t. split; [reflexivity|]. split; [exact Hr|]. vm_compute in Hc. injection Hc as <-. reflexivity.
Defined.

(** [disconnect] begins while a message is being handled. *)
Definition caught : list label := [Begin (ReadText "late"); Micro; Disc].



Lemma disconnect_while_reconnecting_witness :
  ∃ tr s, run (step cfg) opened tr s ∧ Begin (ReadError 1 "reset") ∈ tr ∧ caller s = DDone ∧ is_connected (cl s) = true.
Proof. apply (disconnect_while_reconnecting cfg true true "/ws/btcusdt@trade" "reset"). done. Defined.
End FineWitness.
