(* ===== verification/Handshake.v ===== *)
(** * The handshake of WebSocketClient::connect

    src/ws/detail/websocket_client.cpp: connect() starts the I/O thread
    and sleeps on a condition variable until do_connect() has called
    notify_connect().  WebSocketClient.v does this in one step; here the
    two threads take turns at every synchronisation operation, with
    spurious wake-ups, and the outcome is that of the one step. *)

From S2P Require Import Prelude Errors CppLib CoreTypes HttpClient WebSocketClient.
Local Open Scope nat_scope.

Module Handshake.
Section handshake.
(** What the connection attempt meets: nothing, or an exception's text. *)
Context (res : option string).

Inductive owner : Type := ByCaller | ByIo.

(** Where [connect] is. *)
Inductive cpc : Type :=
| CStart                            (* io_thread = std::thread(...) *)
| CLock                             (* unique_lock lk(connect_mutex) *)
| CPred                             (* the predicate of wait *)
| CAsleep                           (* in the wait, without the mutex *)
| CWoken                            (* taking the mutex again *)
| CUnlock                           (* the end of the block *)
| CTest                             (* if (!connect_error.empty()) *)
| CStop                             (* should_stop.store(true) *)
| CJoin                             (* io_thread.join() *)
| CReturned (o : outcome exn ()).

(** Where the I/O thread is. *)
Inductive ipc : Type :=
| INone
| IConnect                          (* the body of do_connect *)
| ILock                             (* notify_connect: scoped_lock *)
| ISet                              (* connect_done, connect_error *)
| IUnlock
| INotify                           (* connect_cv.notify_one() *)
| IServe                            (* read loop, ping timer, ioc.run() *)
| IRun                              (* ioc.run() with nothing to do *)
| IEnd.

#[global] Instance owner_eq_dec : EqDecision owner.
Proof. solve_decision. Defined.

Record state : Type := State {
  caller : cpc;
  io : ipc;
  mutex : option owner;
  connected : bool;
  should_stop : bool;
  connect_done : bool;
  connect_error : string
}.

Inductive label : Type := Caller | Io | Spurious.

Definition what : string := default "" res.

Definition set_caller (c : cpc) (m : option owner) (s : state) : state :=
  State c (io s) m (connected s) (should_stop s) (connect_done s) (connect_error s).
Definition set_io (i : ipc) (m : option owner) (s : state) : state :=
  State (caller s) i m (connected s) (should_stop s) (connect_done s) (connect_error s).

Definition exec (l : label) (s : state) : option state :=
  match l with
  | Caller =>
      match caller s with
      | CStart => Some (set_caller CLock (mutex s) (set_io IConnect (mutex s) s))
      | CLock | CWoken => match mutex s with None => Some (set_caller CPred (Some ByCaller) s) | _ => None end
      | CPred => if connect_done s then Some (set_caller CUnlock (mutex s) s) else Some (set_caller CAsleep None s)
      | CAsleep => None
      | CUnlock => Some (set_caller CTest None s)
      | CTest => Some (set_caller (if decide (connect_error s = "") then CReturned (Ok ()) else CStop) (mutex s) s)
      | CStop => Some (State CJoin (io s) (mutex s) (connected s) true (connect_done s) (connect_error s))
      | CJoin =>
          match io s with
          | IEnd => Some (set_caller (CReturned (throw_network ("WebSocket connect failed: " +:+ connect_error s))) (mutex s) s)
          | _ => None
          end
      | CReturned _ => None
      end
  | Io =>
      match io s with
      | INone | IServe | IEnd => None
      | IConnect =>
          Some (State (caller s) ILock (mutex s) (match res with None => true | Some _ => false end) (should_stop s)
                      (connect_done s) (connect_error s))
      | ILock => match mutex s with None => Some (set_io ISet (Some ByIo) s) | _ => None end
      | ISet => Some (State (caller s) IUnlock (mutex s) (connected s) (should_stop s) true what)
      | IUnlock => Some (set_io INotify None s)
      | INotify =>
          Some (State (match caller s with CAsleep => CWoken | c => c end)
                      (match res with None => IServe | Some _ => IRun end)
                      (mutex s) (connected s) (should_stop s) (connect_done s) (connect_error s))
      | IRun => Some (set_io IEnd (mutex s) s)
      end
  | Spurious => match caller s with CAsleep => Some (set_caller CWoken (mutex s) s) | _ => None end
  end.

Definition step (s : state) (l : label) (s' : state) : Prop := exec l s = Some s'.

Fixpoint exec_all (l : list label) (s : state) : option state :=
  match l with [] => Some s | a :: l => s' ← exec a s; exec_all l s' end.

Lemma handshake_exec_run l s s' : exec_all l s = Some s' → run step s l s'.
Proof.
  revert s. induction l as [|a l IH]; intros s; simpl; [intros [= ->]; constructor|].
  destruct (exec a s) as [s1|] eqn:Ha; simpl; [|done]. intros H. eapply run_cons; [exact Ha | by apply IH].
Qed.

(** [connect] has reset its fields. *)
Definition init : state := State CStart INone None false false false "".

(** *** The protocol *)

Definition caller_holds (c : cpc) : bool := match c with CPred | CUnlock => true | _ => false end.
Definition io_holds (i : ipc) : bool := match i with ISet | IUnlock => true | _ => false end.
Definition told (i : ipc) : bool := match i with INone | IConnect | ILock | ISet => false | _ => true end.
Definition will_notify (i : ipc) : bool := match i with IConnect | ILock | ISet | IUnlock | INotify => true | _ => false end.

(** The outcome of the one-step [connect]. *)
Definition result : outcome exn () :=
  if decide (what = "") then Ok () else throw_network ("WebSocket connect failed: " +:+ what).

(** The fields are determined by where the two threads are. *)
Definition shape (c : cpc) (i : ipc) : state :=
  State c i (if caller_holds c then Some ByCaller else if io_holds i then Some ByIo else None)
        (match i with INone | IConnect => false | _ => match res with None => true | Some _ => false end end)
        (match c with CJoin => true | CReturned _ => if decide (what = "") then false else true | _ => false end)
        (told i) (if told i then what else "").

(** Where they can be together. *)
Definition together (c : cpc) (i : ipc) : Prop :=
  match c with
  | CStart => i = INone
  | CLock | CWoken => i ≠ INone
  | CPred => i ≠ INone ∧ io_holds i = false
  | CAsleep => will_notify i = true
  | CUnlock => told i = true ∧ io_holds i = false
  | CTest => told i = true
  | CStop | CJoin => told i = true ∧ what ≠ ""
  | CReturned o => told i = true ∧ o = result ∧ (what ≠ "" → i = IEnd)
  end ∧
  match i with IServe => res = None | IRun | IEnd => res ≠ None | _ => True end.

Definition protocol (s : state) : Prop := s = shape (caller s) (io s) ∧ together (caller s) (io s).

Lemma handshake_init : protocol init.
Proof. by split. Qed.

Lemma handshake_step s l s' : protocol s → step s l s' → protocol s'.
Proof.
  intros [Hs [Hc Hi]] He. unfold step in He. rewrite Hs in He. revert Hc Hi He.
  generalize (caller s) (io s). clear s Hs. intros c i Hc Hi He.
  unfold protocol, shape, together, result in *.
  destruct l; destruct c; destruct i; simpl in *; try done; try (by destruct Hc); simplify_eq/=;
      repeat case_decide; repeat case_match; simplify_eq/=; (split; [reflexivity || idtac | split; simpl; try done; try tauto]).
  all: exfalso; naive_solver.
Qed.

Lemma handshake_run tr s : run step init tr s → protocol s.
Proof. revert tr s. apply (run_invariant step (λ _ s, protocol s)); eauto using handshake_init, handshake_step. Qed.

(** *** Progress *)

(** Steps left on each side; a wake-up costs the caller two more. *)
Definition caller_left (c : cpc) : nat :=
  match c with
  | CStart => 8 | CLock | CWoken => 7 | CPred => 6 | CAsleep => 5
  | CUnlock => 4 | CTest => 3 | CStop => 2 | CJoin => 1 | CReturned _ => 0
  end.
Definition io_left (i : ipc) : nat :=
  match i with
  | INone | IConnect => 8 | ILock => 7 | ISet => 6 | IUnlock => 5 | INotify => 4 | IRun => 1 | IServe | IEnd => 0
  end.

Definition is_spurious (l : label) : bool := match l with Spurious => true | _ => false end.
Fixpoint spurious (tr : list label) : nat :=
  match tr with [] => 0 | l :: tr => (if is_spurious l then 1 else 0) + spurious tr end.

Lemma spurious_app tr1 tr2 : spurious (tr1 ++ tr2) = spurious tr1 + spurious tr2.
Proof. induction tr1 as [|l tr1 IH]; simpl; [done | lia]. Qed.

Lemma left_step s l s' :
  protocol s → step s l s' →
  caller_left (caller s') + io_left (io s') + (if is_spurious l then 0 else 1)
    ≤ caller_left (caller s) + io_left (io s) + (if is_spurious l then 2 else 0).
Proof.
  intros [Hs [Hc Hi]] He. unfold step in He. rewrite Hs in He. revert Hc Hi He.
  generalize (caller s) (io s). clear s Hs. intros c i Hc Hi He.
  destruct l; destruct c; destruct i; simpl in *; try done; try (by destruct Hc); simplify_eq/=;
    repeat case_match; simpl; lia.
Qed.

Lemma handshake_progress s :
  protocol s → (∃ o, caller s = CReturned o) ∨ ∃ l s', is_spurious l = false ∧ step s l s'.
Proof.
  intros [Hs [Hc Hi]]. rewrite Hs. revert Hc Hi. generalize (caller s) (io s). clear s Hs. intros c i Hc Hi.
  destruct c; simpl in Hc; try (left; by eexists); right.
  all: try (exists Caller; eexists; split; [done | reflexivity]).
  all: destruct i; simpl in *; try done; try (by destruct Hc);
    try (exists Caller; eexists; split; [done | reflexivity]); try (exists Io; eexists; split; [done | reflexivity]).
  exfalso. apply Hc. unfold what. by rewrite Hi.
Qed.

Lemma connect_outcome path c :
  Wss.io_thread c = false →
  let '(o, c') := Wss.connect path res c in
  o = result ∧ Wss.connected c' = match res with None => true | Some _ => false end ∧
  Wss.should_stop c' = if decide (what = "") then false else true.
Proof.
  intros Hth. unfold Wss.connect, Wss.do_connect, result, what. rewrite Hth. destruct res as [w|]; simpl;
    [case_decide|]; unfold Wss.run_dry; repeat case_decide; done.
Qed.

(** C33: connect and the I/O thread, one synchronisation operation at a time: whatever
    the interleaving, connect returns within a bounded number of steps (more only for
    spurious wake-ups), no wake-up is lost, and it returns or throws, and leaves the
    flags, as the one-step connect of the state machine does; after a throw the I/O
    thread has ended. *)
Theorem connect_handshake path c tr s :
  Wss.io_thread c = false → run step init tr s →
  length tr ≤ 16 + 3 * spurious tr ∧
  ((∃ o, caller s = CReturned o) ∨ ∃ l s', is_spurious l = false ∧ step s l s') ∧
  ∀ o, caller s = CReturned o →
    let '(o', c') := Wss.connect path res c in
    o = o' ∧ connected s = Wss.connected c' ∧ should_stop s = Wss.should_stop c' ∧ (o ≠ Ok () → io s = IEnd).
Proof.
  intros Hth Hr. pose proof (handshake_run _ _ Hr) as Hp. split_and!.
  - assert (H : length tr + caller_left (caller s) + io_left (io s) ≤ 16 + 3 * spurious tr); [|lia].
    clear Hp. revert tr s Hr.
    apply (run_invariant step (λ tr s, length tr + caller_left (caller s) + io_left (io s) ≤ 16 + 3 * spurious tr));
      [simpl; lia|].
    intros tr s l s' Hr IH Hst. pose proof (left_step _ _ _ (handshake_run _ _ Hr) Hst) as Hl.
    rewrite length_app, spurious_app. simpl. destruct (is_spurious l); lia.
  - by apply handshake_progress.
  - intros o Ho. destruct Hp as [Hs [Hc Hi]]. rewrite Ho in Hs, Hc. destruct Hc as (Ht & -> & Hend).
    pose proof (connect_outcome path c Hth) as Hout. destruct (Wss.connect path res c) as [o' c'].
    destruct Hout as (-> & -> & ->). split_and!; [done | | |].
    + rewrite Hs. simpl. by destruct (io s).
    + by rewrite Hs.
    + intros Hne. apply Hend. intros Hw. apply Hne. unfold result. by rewrite decide_True.
Qed.
End handshake.
End Handshake.

(** ** Examples *)
Module HandshakeWitness.
Import Handshake.

(** The caller falls asleep, is woken for nothing, and then by the I/O
    thread, whose attempt has failed. *)
Definition failing : list label :=
  [Caller; Caller; Caller; Spurious; Caller; Caller; Io; Io; Io; Io; Io; Caller; Caller; Caller; Caller; Caller; Io; Caller].

Lemma connect_handshake_witness :
  ∃ s, run (step (Some "refused")) init failing s ∧
    caller s = CReturned (throw_network "WebSocket connect failed: refused") ∧ length failing ≤ 16 + 3 * spurious failing ∧
    io s = IEnd ∧ connected s = false.
Proof.
  destruct (exec_all (Some "refused") failing init) as [s|] eqn:Hs; [|vm_compute in Hs; discriminate].
  assert (Ho : caller s = CReturned (throw_network "WebSocket connect failed: refused"))
    by (vm_compute in Hs; injection Hs as <-; reflexivity).
  apply handshake_exec_run in Hs. exists s. split; [exact Hs|]. split; [exact Ho|].
  destruct (connect_handshake (Some "refused") "/ws/btcusdt@trade" Wss.make failing s eq_refl Hs) as (Hl & _ & Hres).
  split; [exact Hl|]. destruct (Hres _ Ho) as (_ & Hc & _ & Hend). split; [by apply Hend | exact Hc].
Defined.
End HandshakeWitness.
