(* ===== verification/Platform.v ===== *)
(** * src/core/platform/ and src/core/logger.cpp

    [Clock] converts performance-counter ticks to nanoseconds at 64 bits;
    an intermediate value outside the range is undefined behaviour.
    [Affinity] is the guard in front of the operating system's pinning
    call.  [Logger] is the once-initialised global logger; the [spdlog]
    objects appear as the fields the sources set. *)

From S2P Require Import Prelude Errors CppLib CoreTypes.
Local Open Scope Z_scope.

Module Clock.

(** The value of an [int64_t] operation. *)
Definition i64 (z : Z) : outcome exn Z := if in_i64b z then Ok z else Crash ub_signed_overflow.

Definition giga : Z := 1000000000.

(** [/] and [%] truncate towards zero. *)
Definition ticks_to_ns (ticks freq : Z) : outcome exn Z :=
  whole_seconds ← i64 (Z.quot ticks freq);
  remainder_ticks ← i64 (Z.rem ticks freq);
  a ← i64 (whole_seconds * giga);
  m ← i64 (remainder_ticks * giga);
  b ← i64 (Z.quot m freq);
  i64 (a + b).

(** [(ticks * 1e9) / freq], the expression the comment warns about. *)
Definition naive_ticks_to_ns (ticks freq : Z) : outcome exn Z :=
  m ← i64 (ticks * giga); i64 (Z.quot m freq).

(** POSIX: [tv_sec * 1e9 + tv_nsec] of [clock_gettime]. *)
Definition timespec_to_ns (tv_sec tv_nsec : Z) : outcome exn Z :=
  a ← i64 (tv_sec * giga); i64 (a + tv_nsec).

Lemma i64_ok z : in_i64 z → i64 z = Ok z.
Proof. intros Hz. unfold i64. by rewrite (proj2 (in_i64b_spec z) Hz). Qed.

(** Splitting off the whole seconds does not change the quotient. *)
Lemma quot_split ticks freq :
  freq ≠ 0 →
  Z.quot ticks freq * giga + Z.quot (Z.rem ticks freq * giga) freq = Z.quot (ticks * giga) freq.
Proof.
  intros Hf. pose proof (Z.quot_rem' ticks freq) as Hqr.
  replace (ticks * giga) with (Z.rem ticks freq * giga + (Z.quot ticks freq * giga) * freq)
    by (rewrite Hqr at 3; ring).
  rewrite Z.quot_add; [lia | done |].
  replace (Z.rem ticks freq * giga + Z.quot ticks freq * giga * freq) with (ticks * giga)
    by (rewrite Hqr at 1; ring).
  pose proof (Z.rem_sign_mul ticks freq Hf). unfold giga. nia.
Qed.

Lemma quot_nonpos a b : 0 < b → a ≤ 0 → Z.quot a b ≤ 0.
Proof.
  intros Hb Ha. pose proof (Z.quot_opp_l a b ltac:(lia)). pose proof (Z.quot_pos (- a) b ltac:(lia) Hb). lia.
Qed.

(** Truncated quotient and remainder have the sign of the dividend. *)
Lemma quot_rem_sign a b :
  0 < b →
  (0 ≤ a ∧ 0 ≤ Z.quot a b ∧ 0 ≤ Z.rem a b < b) ∨ (a ≤ 0 ∧ Z.quot a b ≤ 0 ∧ - b < Z.rem a b ≤ 0).
Proof.
  intros Hb. destruct (Z.le_ge_cases 0 a) as [Ha|Ha].
  - left. split; [done|]. split; [by apply Z.quot_pos; lia | by apply Z.rem_bound_pos; lia].
  - right. pose proof (Z.quot_opp_l a b ltac:(lia)) as Hq. pose proof (Z.rem_opp_l a b ltac:(lia)) as Hr.
    pose proof (Z.quot_pos (- a) b ltac:(lia) ltac:(lia)).
    pose proof (Z.rem_bound_pos (- a) b ltac:(lia) ltac:(lia)). lia.
Qed.

Lemma ticks_to_ns_value ticks freq :
  0 < freq ≤ 9223372036 → in_i64 (Z.quot (ticks * giga) freq) →
  ticks_to_ns ticks freq = Ok (Z.quot (ticks * giga) freq).
Proof.
  intros Hf Hr. rewrite <- quot_split in Hr |- * by lia. unfold ticks_to_ns.
  set (q := Z.quot ticks freq) in *. set (r := Z.rem ticks freq) in *.
  set (b := Z.quot (r * giga) freq) in *.
  assert (Hs : (0 ≤ q ∧ 0 ≤ r < freq ∧ 0 ≤ b) ∨ (q ≤ 0 ∧ - freq < r ≤ 0 ∧ b ≤ 0)).
  { destruct (quot_rem_sign ticks freq) as [(_ & ? & Hrb)|(_ & ? & Hrb)]; [lia|left|right];
      (split_and!; [done | lia | lia |]).
    - apply Z.quot_pos; unfold giga; lia.
    - apply quot_nonpos; unfold giga; lia. }
  assert (Hall : in_i64 q ∧ in_i64 r ∧ in_i64 (q * giga) ∧ in_i64 (r * giga) ∧ in_i64 b)
    by (clearbody b; unfold in_i64, giga in *; lia).
  destruct Hall as (H1 & H2 & H3 & H4 & H5).
  rewrite (i64_ok q H1), (i64_ok r H2). simpl. rewrite (i64_ok _ H3), (i64_ok _ H4). simpl.
  fold b. rewrite (i64_ok b H5). simpl. by apply i64_ok.
Qed.

(** ticks_to_ns returns the exact truncated quotient, with no intermediate 64-bit
    overflow, for every frequency up to 9.2 GHz and every tick count whose result fits.
    *)
Theorem ticks_to_ns_exact ticks freq :
  0 < freq ≤ 9223372036 → in_i64 (Z.quot (ticks * giga) freq) →
  ticks_to_ns ticks freq = Ok (Z.quot (ticks * giga) freq).
Proof. apply ticks_to_ns_value. Qed.

(** Windows: the frequency is asked for once ([static const k_freq]); the
    counter and the frequency come from the system. *)
Definition monotonic_now_ns_windows (query_frequency counter : Z) (k_freq : option Z) : outcome exn Z * option Z :=
  let f := match k_freq with Some f => f | None => query_frequency end in
  (ticks_to_ns counter f, Some f).

(** Two readings of the performance counter give times in order, computed with the
    frequency of the first call, whatever the system reports later. *)
Theorem windows_clock_monotonic q1 q2 c1 c2 :
  0 < q1 ≤ 9223372036 → 0 ≤ c1 ≤ c2 → in_i64 (Z.quot (c2 * giga) q1) →
  let '(o1, k1) := monotonic_now_ns_windows q1 c1 None in
  let '(o2, k2) := monotonic_now_ns_windows q2 c2 k1 in
  ∃ t1 t2, o1 = Ok t1 ∧ o2 = Ok t2 ∧ t1 ≤ t2 ∧ k2 = Some q1.
Proof.
  intros Hf Hc Hr. unfold monotonic_now_ns_windows.
  assert (Hle : 0 ≤ Z.quot (c1 * giga) q1 ≤ Z.quot (c2 * giga) q1)
    by (split; [apply Z.quot_pos; unfold giga; lia | apply Z.quot_le_mono; unfold giga; lia]).
  rewrite !ticks_to_ns_value by (done || (unfold in_i64 in *; lia)).
  eexists _, _. split_and!; [done | done | lia | done].
Qed.

Lemma windows_clock_monotonic_witness :
  let '(o1, k1) := monotonic_now_ns_windows 10000000 36000000001 None in
  let '(o2, k2) := monotonic_now_ns_windows 5 36000000002 k1 in
  ∃ t1 t2, o1 = Ok t1 ∧ o2 = Ok t2 ∧ t1 ≤ t2 ∧ k2 = Some 10000000.
Proof.
  exact (windows_clock_monotonic 10000000 5 36000000001 36000000002 ltac:(lia) ltac:(lia)
           ltac:(vm_compute; split; [discriminate | reflexivity])).
Defined.

Lemma ticks_to_ns_exact_witness :
  ticks_to_ns 36000000001 10000000 = Ok 3600000000100 ∧
  naive_ticks_to_ns 36000000001 10000000 = Crash ub_signed_overflow.
Proof.
  split; [|vm_compute; reflexivity].
  exact (ticks_to_ns_exact 36000000001 10000000 ltac:(lia) ltac:(vm_compute; split; [discriminate | reflexivity])).
Defined.
End Clock.

(** [platform::pin_thread_to_core]; [set_affinity] is the system call. *)
Module Affinity.
Inductive platform : Type := Linux | MacOS | Windows | Other.

Definition pin_thread_to_core (os : platform) (set_affinity : Z → bool) (core_id : Z) : bool :=
  if core_id <? 0 then true
  else match os with
       | Linux | MacOS => set_affinity core_id
       | Windows => if 64 <=? core_id then false else set_affinity (Z.shiftl 1 core_id)
       | Other => true
       end.
End Affinity.

Module Logger.

(** What the sources set on [g_logger]; [None] is the unset once-flag. *)
Record logger : Type := {
  level : LogLevel;
  pattern : string;
  is_async : bool;
  sinks : list nat
}.
Definition state : Type := option logger.

Definition console_sink : nat := 0.

Definition do_init (config : LogConfig) : logger :=
  {| level := lc_level config; pattern := lc_pattern config; is_async := lc_use_async config;
     sinks := [console_sink] |}.

(** [std::call_once(g_init_flag, do_init, config)] *)
Definition call_once (config : LogConfig) (s : state) : logger :=
  match s with Some l => l | None => do_init config end.

Inductive call : Type :=
| init_logging (config : LogConfig)
| get_logger
| set_log_sink (sink : nat)
| set_log_level (l : LogLevel).

Definition exec_call (c : call) (s : state) : state :=
  match c with
  | init_logging config => Some (call_once config s)
  | get_logger => Some (call_once LogConfig_default s)
  | set_log_sink sink =>
      let l := call_once LogConfig_default s in
      Some {| level := level l; pattern := pattern l; is_async := is_async l; sinks := [sink] |}
  | set_log_level lv =>
      let l := call_once LogConfig_default s in
      Some {| level := lv; pattern := pattern l; is_async := is_async l; sinks := sinks l |}
  end.

Definition exec_calls (cs : list call) (s : state) : state := foldl (λ s c, exec_call c s) s cs.

(** The configuration the first call brings. *)
Definition first_config (c : call) : LogConfig :=
  match c with init_logging config => config | _ => LogConfig_default end.

Definition level_of (acc : LogLevel) (c : call) : LogLevel :=
  match c with set_log_level l => l | _ => acc end.

Lemma exec_calls_some cs l :
  ∃ l', exec_calls cs (Some l) = Some l' ∧ pattern l' = pattern l ∧ is_async l' = is_async l ∧
        level l' = foldl level_of (level l) cs.
Proof.
  revert l. induction cs as [|c cs IH]; intros l; simpl; [by exists l|].
  destruct c as [cfg| |sk|lv]; simpl;
    match goal with |- context [exec_calls cs (Some ?x)] => destruct (IH x) as (l' & H1 & H2 & H3 & H4) end;
    exists l'; by rewrite ?H2, ?H3, ?H4.
Qed.

(** Pattern and mode of the global logger come from the first call; its level is the
    last one set. *)
Theorem logger_first_config_wins c cs :
  ∃ l, exec_calls (c :: cs) None = Some l ∧
    pattern l = lc_pattern (first_config c) ∧ is_async l = lc_use_async (first_config c) ∧
    level l = foldl level_of (lc_level (first_config c)) (c :: cs).
Proof.
  simpl. destruct c as [cfg| |sk|lv]; simpl;
    match goal with |- context [exec_calls cs (Some ?x)] => destruct (exec_calls_some cs x) as (l & H1 & H2 & H3 & H4) end;
    exists l; by rewrite ?H2, ?H3, ?H4.
Qed.
End Logger.
