(* ===== verification/BaseClient.v ===== *)
(** * src/ws/client.cpp: the WebSocket base class of the streams

    [ws::Client] owns a [WebSocketClient] and the user's two callbacks and
    installs lambdas that capture [this].  Client objects live at
    addresses: a moved-from object stays at its address with a null
    [impl_], a destroyed one is gone.  The state machine of
    WebSocketClient.v says which handler calls are made; here they go
    through the captured [this] to the callbacks.  [U] is the state the
    user's callbacks work on; a callback is a state transformer that may
    throw.  Callbacks that call back into the client are not modelled. *)

From S2P Require Import Prelude Errors CppLib CoreTypes HttpClient WebSocketClient MarketStream.
Local Open Scope nat_scope.

Module Base.
Definition addr : Type := nat.

Section base.
Context {U : Type}.

Definition MessageCallback : Type := string → stM U exn ().
Definition ErrorCallback : Type := error_code → string → stM U exn ().

(** [Client::Impl].  [msg_this] and [err_this] are what the handlers given
    to [ws] captured; [members] is false once the destructor has run
    [on_error] and [on_message]'s destructors, which it does before
    [ws]'s. *)
Record Impl : Type := MkImpl {
  config : WebSocketConfig;
  ws : Wss.client;
  msg_this : option addr;
  err_this : option addr;
  on_message : option MessageCallback;
  on_error : option ErrorCallback;
  members : bool
}.

Record world : Type := World { objs : gmap addr (option Impl); user : U }.

Definition put (a : addr) (o : option Impl) (w : world) : world := World (<[a := o]> (objs w)) (user w).

(** [impl_->] of the object at [a]. *)
Definition deref (a : addr) : stM world exn Impl := λ w,
  match objs w !! a with
  | None => (Crash ub_dangling, w)
  | Some None => (Crash ub_null, w)
  | Some (Some i) => (Ok i, w)
  end.

Definition store (a : addr) (i : Impl) : stM world exn () := λ w, (Ok (), put a (Some i) w).

Definition with_ws (c : Wss.client) (i : Impl) : Impl :=
  MkImpl (config i) c (msg_this i) (err_this i) (on_message i) (on_error i) (members i).

(** *** The public interface *)

(** [Client(config)]: a bad URL throws out of the constructor. *)
Definition construct (a : addr) (cfg : WebSocketConfig) : stM world exn () :=
  _ ← lift (Wss.from (wc_base_url cfg));
  store a (MkImpl cfg Wss.make None None None None true).

Definition do_connect (a : addr) (path : string) (res : option string) : stM world exn () :=
  i ← deref a;
  let '(o, c) := Wss.connect path res (ws i) in
  _ ← store a (with_ws c i);
  lift o.

Definition connect (a : addr) (stream_name : string) (res : option string) : stM world exn () :=
  do_connect a stream_name res.

(** [disconnect] up to the join, and the join. *)
Definition disconnect (a : addr) : stM world exn () :=
  i ← deref a; store a (with_ws (Wss.disconnect (ws i)) i).

Definition join (a : addr) (w : world) : option (outcome exn () * world) :=
  match deref a w with
  | (Ok i, _) => c ← Wss.join (ws i); Some (store a (with_ws c i) w)
  | (Throw e, w') => Some (Throw e, w')
  | (Crash f, w') => Some (Crash f, w')
  end.

Definition is_connected (a : addr) : stM world exn bool := i ← deref a; mret (Wss.is_connected (ws i)).

Definition send (a : addr) (message : string) : stM world exn () :=
  i ← deref a;
  let '(o, c) := Wss.send message (ws i) in
  _ ← store a (with_ws c i);
  lift o.

Definition set_message_callback (a : addr) (callback : option MessageCallback) : stM world exn () :=
  i ← deref a;
  store a (MkImpl (config i) (Wss.set_message_handler (ws i)) (Some a) (err_this i) callback (on_error i) (members i)).

Definition set_error_callback (a : addr) (callback : option ErrorCallback) : stM world exn () :=
  i ← deref a;
  store a (MkImpl (config i) (Wss.set_error_handler (ws i)) (msg_this i) (Some a) (on_message i) callback (members i)).

(** A callback works on the user's state only. *)
Definition on_user (m : stM U exn ()) : stM world exn () := λ w,
  let '(o, u) := m (user w) in (o, World (objs w) u).

(** [impl_->on_message] while [Impl] is being destroyed. *)
Definition callbacks (i : Impl) : stM world exn () :=
  if members i then mret () else lift (Crash ub_dangling).

Definition deliver_message (this : addr) (msg : string) : stM world exn () :=
  i ← deref this;
  _ ← callbacks i;
  match on_message i with Some f => on_user (f msg) | None => mret () end.

(** [std::error_code{}]: value 0 of the system category. *)
Definition no_error : error_code := {| ec_value := 0; ec_category := {| cat_name := "system"; cat_message := λ _, "" |} |}.

Definition deliver_error (this : addr) (msg : string) : stM world exn () :=
  i ← deref this;
  _ ← callbacks i;
  match on_error i with Some f => on_user (f no_error msg) | None => mret () end.

(** *** Moves and destruction *)

(** [Client(Client&&)]: [impl_] changes hands, [src] keeps a null one. *)
Definition move_construct (dst src : addr) : stM world exn () := λ w,
  match objs w !! src with
  | Some o => (Ok (), put src None (put dst o w))
  | None => (Crash ub_dangling, w)
  end.

(** The first step of [~Impl]; the destructor of [ws] then disconnects
    and joins, and the object goes. *)
Definition destroy_members (a : addr) : stM world exn () := λ w,
  match objs w !! a with
  | Some (Some i) =>
      (Ok (), put a (Some (MkImpl (config i) (ws i) (msg_this i) (err_this i) None None false)) w)
  | Some None => (Ok (), w)
  | None => (Crash ub_dangling, w)
  end.

(** [operator=(Client&&)]: the new [impl_] is in place before the old one
    is destroyed; [old] is where the old one lives meanwhile. *)
Definition move_assign (dst src old : addr) : stM world exn () := λ w,
  match objs w !! src, objs w !! dst with
  | Some o, Some o' =>
      if decide (dst = src) then (Ok (), w)
      else let w' := put src None (put dst o w) in
           match o' with
           | Some _ => destroy_members old (put old o' w')
           | None => (Ok (), w')
           end
  | _, _ => (Crash ub_dangling, w)
  end.

Definition free (a : addr) : stM world exn () := λ w, (Ok (), World (delete a (objs w)) (user w)).

(** *** The I/O thread *)

(** The lambda behind one call that [WebSocketClient] makes. *)
Definition invoke (i : Impl) (cb : Wss.callback) : stM world exn () :=
  match cb with
  | Wss.OnMessage msg => match msg_this i with Some this => deliver_message this msg | None => mret () end
  | Wss.OnError msg => match err_this i with Some this => deliver_error this msg | None => mret () end
  end.

Fixpoint invoke_all (i : Impl) (l : list Wss.callback) : stM world exn () :=
  match l with
  | [] => mret ()
  | cb :: l => _ ← invoke i cb; invoke_all i l
  end.

(** Nothing between a handler and the thread function catches. *)
Definition terminate_on_throw {A} (r : outcome exn A * world) : outcome exn A * world :=
  match r with (Throw _, w) => (Crash std_terminate, w) | _ => r end.

(** One handler of the client that the object at [a] owns. *)
Definition io (a : addr) (e : Wss.event) (w : world) : option (outcome exn () * world) :=
  match objs w !! a with
  | Some (Some i) =>
      c ← Wss.exec_io (config i) e (ws i);
      let made := drop (length (Wss.calls (ws i))) (Wss.calls c) in
      Some (terminate_on_throw (invoke_all i made (put a (Some (with_ws c i)) w)))
  | _ => None
  end.

Inductive action : Type :=
| Construct (a : addr) (cfg : WebSocketConfig)
| Connect (a : addr) (path : string) (res : option string)
| Disconnect (a : addr)
| Join (a : addr)
| Send (a : addr) (msg : string)
| SetMessage (a : addr) (cb : option MessageCallback)
| SetError (a : addr) (cb : option ErrorCallback)
| Move (dst src : addr)
| Assign (dst src old : addr)          (* [old] is a new address *)
| DestroyMembers (a : addr)
| Free (a : addr)
| Io (a : addr) (e : Wss.event)
| Other (m : stM U exn ()).            (* the user's own code *)

(** [None] when the action is not possible in [w]. *)
Definition exec (act : action) (w : world) : option (outcome exn () * world) :=
  match act with
  | Construct a cfg => Some (construct a cfg w)
  | Connect a path res => Some (connect a path res w)
  | Disconnect a => Some (disconnect a w)
  | Join a => join a w
  | Send a msg => Some (send a msg w)
  | SetMessage a cb => Some (set_message_callback a cb w)
  | SetError a cb => Some (set_error_callback a cb w)
  | Move dst src => Some (move_construct dst src w)
  | Assign dst src old => match objs w !! old with Some _ => None | None => Some (move_assign dst src old w) end
  | DestroyMembers a => Some (destroy_members a w)
  | Free a => Some (free a w)
  | Io a e => io a e w
  | Other m => Some (on_user m w)
  end.

(** A crash ends the run. *)
Definition step (w : world) (act : action) (w' : world) : Prop :=
  ∃ o, exec act w = Some (o, w') ∧ ∀ f, o ≠ Crash f.

Definition crashes (w : world) (act : action) (f : fatal) : Prop :=
  ∃ w', exec act w = Some (Crash f, w').

Lemma step_Ok w act w' : exec act w = Some (Ok (), w') → step w act w'.
Proof. intros He. by exists (Ok ()). Qed.

(** Execute a list of actions none of which may crash. *)
Fixpoint exec_all (l : list action) (w : world) : option world :=
  match l with
  | [] => Some w
  | a :: l => match exec a w with
              | Some (Crash _, _) | None => None
              | Some (_, w') => exec_all l w'
              end
  end.

Lemma base_exec_run l w w' : exec_all l w = Some w' → run step w l w'.
Proof.
  revert w. induction l as [|a l IH]; intros w; simpl; [intros [= ->]; constructor|].
  destruct (exec a w) as [[o w1]|] eqn:Ha; [|done]. intros H.
  eapply run_cons; [exists o; split; [exact Ha|] | apply IH]; destruct o; done.
Qed.

(** *** Forwarding *)

(** The callbacks on a list of calls. *)
Fixpoint deliver_calls (m : option MessageCallback) (e : option ErrorCallback) (l : list Wss.callback)
    : stM U exn () :=
  match l with
  | [] => mret ()
  | Wss.OnMessage msg :: l => _ ← match m with Some f => f msg | None => mret () end; deliver_calls m e l
  | Wss.OnError msg :: l => _ ← match e with Some f => f no_error msg | None => mret () end; deliver_calls m e l
  end.

(** The lambdas captured the object's own address. *)
Definition linked (a : addr) (i : Impl) : Prop :=
  members i = true ∧
  (msg_this i = Some a ∨ (msg_this i = None ∧ on_message i = None)) ∧
  (err_this i = Some a ∨ (err_this i = None ∧ on_error i = None)).

(** What the user may do with a connected client. *)
Definition ws_action (a : addr) (act : action) : option Wss.action :=
  match act with
  | Connect b path res => if decide (b = a) then Some (Wss.Connect path res) else None
  | Disconnect b => if decide (b = a) then Some Wss.Disconnect else None
  | Join b => if decide (b = a) then Some Wss.Join else None
  | Send b msg => if decide (b = a) then Some (Wss.SendMsg msg) else None
  | Io b e => if decide (b = a) then Some (Wss.Io e) else None
  | _ => None
  end.

Definition solo (a : addr) (act : action) : Prop := is_Some (ws_action a act).

Lemma with_ws_ws c i : ws (with_ws c i) = c.
Proof. done. Qed.

Lemma with_ws_twice c c' i : with_ws c' (with_ws c i) = with_ws c' i.
Proof. done. Qed.

Lemma with_ws_same i : with_ws (ws i) i = i.
Proof. by destruct i. Qed.

Lemma linked_with_ws a c i : linked a i → linked a (with_ws c i).
Proof. done. Qed.

Lemma deliver_calls_app m e l1 l2 u u1 :
  deliver_calls m e l1 u = (Ok (), u1) → deliver_calls m e (l1 ++ l2) u = deliver_calls m e l2 u1.
Proof.
  revert u. induction l1 as [|cb l1 IH]; intros u; simpl; [by intros [= <-]|].
  unfold mbind, stM_bind, mret, stM_ret. destruct cb.
  - destruct m as [f|]; [destruct (f msg u) as [[[]| |] u2]; [apply IH | done | done] | apply IH].
  - destruct e as [f|]; [destruct (f no_error msg u) as [[[]| |] u2]; [apply IH | done | done] | apply IH].
Qed.

(** Through the captured [this], the calls reach the object's callbacks. *)
Lemma invoke_linked a c i w cb :
  objs w !! a = Some (Some (with_ws c i)) → linked a i →
  invoke i cb w = (let '(o, u) := deliver_calls (on_message i) (on_error i) [cb] (user w) in (o, World (objs w) u)).
Proof.
  intros Ha (Hm & Hmt & Het). destruct w as [os u]; simpl in *.
  destruct cb; simpl; unfold mbind, stM_bind, mret, stM_ret.
  - destruct Hmt as [->|[-> ->]]; [|done].
    unfold deliver_message, deref, callbacks, on_user, mbind, stM_bind, mret, stM_ret. simpl. rewrite Ha. simpl. rewrite Hm.
    destruct (on_message i) as [f|]; [|done]. simpl. by destruct (f msg u) as [[[]|e'|f'] u1].
  - destruct Het as [->|[-> ->]]; [|done].
    unfold deliver_error, deref, callbacks, on_user, mbind, stM_bind, mret, stM_ret. simpl. rewrite Ha. simpl. rewrite Hm.
    destruct (on_error i) as [f|]; [|done]. simpl. by destruct (f no_error msg u) as [[[]|e'|f'] u1].
Qed.

Lemma invoke_all_linked a c i w l :
  objs w !! a = Some (Some (with_ws c i)) → linked a i →
  invoke_all i l w = (let '(o, u) := deliver_calls (on_message i) (on_error i) l (user w) in (o, World (objs w) u)).
Proof.
  intros Ha Hl. revert w Ha. induction l as [|cb l IH]; intros w Ha; simpl; [by destruct w|].
  unfold mbind at 1, stM_bind at 1. rewrite (invoke_linked a c) by done. simpl.
  destruct cb; unfold mbind, stM_bind, mret, stM_ret.
  - destruct (on_message i) as [f|]; [destruct (f msg (user w)) as [[[]|e'|f'] u1]; [|done|done] |]; by rewrite IH.
  - destruct (on_error i) as [f|]; [destruct (f no_error msg (user w)) as [[[]|e'|f'] u1]; [|done|done] |]; by rewrite IH.
Qed.


(** One action of the user or of the I/O thread on a linked object. *)
Lemma solo_step a i w act wa w' :
  objs w !! a = Some (Some i) → linked a i → ws_action a act = Some wa → step w act w' →
  ∃ c, Wss.exec_action (config i) wa (ws i) = Some c ∧ objs w' !! a = Some (Some (with_ws c i)) ∧
    deliver_calls (on_message i) (on_error i) (drop (length (Wss.calls (ws i))) (Wss.calls c)) (user w)
      = (Ok (), user w').
Proof.
  intros Ha Hl Hact (o & He & Hok).
  assert (Hself : ∀ c, Wss.calls c = Wss.calls (ws i) →
    deliver_calls (on_message i) (on_error i) (drop (length (Wss.calls (ws i))) (Wss.calls c)) (user w) = (Ok (), user w)).
  { intros c ->. by rewrite drop_all. }
  unfold exec, connect, do_connect, disconnect, join, send, store, mbind, stM_bind, deref, lift in He.
  destruct act; simpl in Hact; try done; case_decide; simplify_eq; cbn beta iota in He.
  - rewrite Ha in He.
    pose proof (Wss.connect_calls path res (ws i)) as Hc. cbn [Wss.exec_action].
    destruct (Wss.connect path res (ws i)) as [o1 c]. simplify_eq/=.
    exists c. split_and!; [|apply lookup_insert_eq | by apply Hself].
    destruct o as [| |f]; [done | done | by destruct (Hok f)].
  - rewrite Ha in He. simplify_eq/=.
    eexists. split_and!; [done | apply lookup_insert_eq | by apply Hself].
  - rewrite Ha in He.
    destruct (Wss.join (ws i)) as [c|] eqn:Hj; simplify_eq/=.
    exists c. split_and!; [done | apply lookup_insert_eq | apply Hself; by eapply Wss.join_calls].
  - rewrite Ha in He.
    pose proof (Wss.send_calls msg (ws i)) as Hc. cbn [Wss.exec_action].
    destruct (Wss.send msg (ws i)) as [o1 c]. simplify_eq/=.
    exists c. split_and!; [done | apply lookup_insert_eq | by apply Hself].
  - unfold io in He. rewrite Ha in He.
    destruct (Wss.exec_io (config i) e (ws i)) as [c|] eqn:Hio; [|done]. cbn [mbind option_bind] in He.
    rewrite (invoke_all_linked a c) in He by (done || apply lookup_insert_eq). simpl in He.
    exists c. simpl. destruct (deliver_calls _ _ _ _) as [[[]|x|f] u]; simplify_eq/=.
    + split_and!; [done | apply lookup_insert_eq | done].
    + by destruct (Hok std_terminate).
    + by destruct (Hok f).
Qed.

Lemma drop_prefix_app {A} (l l1 l2 : list A) :
  l `prefix_of` l1 → l1 `prefix_of` l2 → drop (length l) l2 = drop (length l) l1 ++ drop (length l1) l2.
Proof.
  intros [k1 ->] [k2 ->]. rewrite <- (assoc_L (++)), !drop_app_length, (assoc_L (++)), drop_app_length. done.
Qed.


(** *** Safety of an object that stays where it is *)

(** A callback that does not fail. *)
Definition total_callbacks (i : Impl) : Prop :=
  (∀ f msg u, on_message i = Some f → (f msg u).1 = Ok ()) ∧
  (∀ f msg u, on_error i = Some f → (f no_error msg u).1 = Ok ()).

Lemma deliver_calls_total i l u :
  total_callbacks i → (deliver_calls (on_message i) (on_error i) l u).1 = Ok ().
Proof.
  intros [Hm He]. revert u. induction l as [|[msg|msg] l IH]; intros u; [done| |];
    simpl; unfold mbind, stM_bind, mret, stM_ret.
  - destruct (on_message i) as [f|] eqn:Hf; [|done]. specialize (Hm f msg u eq_refl).
    destruct (f msg u) as [[[]| |] u1]; simpl in *; [apply IH | done | done].
  - destruct (on_error i) as [f|] eqn:Hf; [|done]. specialize (He f msg u eq_refl).
    destruct (f no_error msg u) as [[[]| |] u1]; simpl in *; [apply IH | done | done].
Qed.

(** The only way left to crash is to connect a client that is connected. *)
Lemma solo_safe a i w act f :
  objs w !! a = Some (Some i) → linked a i → total_callbacks i → solo a act → crashes w act f →
  Wss.io_thread (ws i) = true ∧ f = std_terminate ∧ ∃ path res, act = Connect a path res.
Proof.
  intros Ha Hl Ht [wa Hact] (w' & He).
  unfold exec, connect, do_connect, disconnect, join, send, store, mbind, stM_bind, deref, lift in He.
  destruct act; simpl in Hact; try done; case_decide; simplify_eq; cbn beta iota in He; unfold io in He; rewrite Ha in He.
  - unfold Wss.connect, Wss.do_connect in He.
    destruct (Wss.io_thread (ws i)); [simplify_eq; eauto 6|].
    destruct res; simpl in He; [case_decide|]; simplify_eq.
  - done.
  - destruct (Wss.join (ws i)); simpl in He; congruence.
  - unfold Wss.send in He. destruct (Wss.is_connected (ws i)); discriminate He.
  - destruct (Wss.exec_io (config i) e (ws i)) as [c|] eqn:Hio; [|done]. cbn [mbind option_bind] in He.
    rewrite (invoke_all_linked a c) in He by (done || apply lookup_insert_eq). simpl in He.
    pose proof (deliver_calls_total i (drop (length (Wss.calls (ws i))) (Wss.calls c)) (user w) Ht) as Hd.
    destruct (deliver_calls _ _ _ _) as [[[]| |] u]; simplify_eq/=.
Qed.

(** A base client that is neither moved nor destroyed, with callbacks that do not throw,
    has no undefined behaviour; it can only terminate, and only by connecting a client
    whose I/O thread still runs. *)
Theorem unmoved_client_safe a i w0 acts w act f :
  objs w0 !! a = Some (Some i) → linked a i → total_callbacks i →
  run step w0 acts w → Forall (solo a) (acts ++ [act]) → crashes w act f →
  f = std_terminate ∧ ∃ path res c, act = Connect a path res ∧
    objs w !! a = Some (Some (with_ws c i)) ∧ Wss.io_thread c = true.
Proof.
  intros Ha Hl Ht Hr [Hacts Hact]%Forall_app Hcr.
  assert (Hobj : ∃ c, objs w !! a = Some (Some (with_ws c i))).
  { clear Hcr. revert acts w Hr Hacts. apply (run_invariant step (λ acts w, Forall (solo a) acts → _)).
    - intros _. exists (ws i). by rewrite with_ws_same.
    - intros acts w1 act1 w2 _ IH Hst [Hacts Hact1]%Forall_app.
      destruct (IH Hacts) as [c1 Hc1]. apply Forall_singleton in Hact1 as [wa Hwa].
      destruct (solo_step a (with_ws c1 i) w1 act1 wa w2 Hc1 Hl Hwa Hst) as (c2 & _ & Ho & _). by exists c2. }
  destruct Hobj as [c Hc]. rewrite Forall_singleton in Hact.
  destruct (solo_safe a (with_ws c i) w act f) as (Hio & -> & path & res & ->); try done.
  split; [done|]. by exists path, res, c.
Qed.

(** *** Messages of a client in use, without an error callback *)

Fixpoint deliver_all (f : MessageCallback) (l : list string) : stM U exn () :=
  match l with [] => mret () | m :: l => _ ← f m; deliver_all f l end.

Lemma deliver_calls_texts (f : MessageCallback) l u :
  deliver_calls (Some f) None l u = deliver_all f (omap Wss.text_of l) u.
Proof.
  revert u. induction l as [|[msg|msg] l IH]; intros u; [done| |]; simpl; unfold mbind, stM_bind.
  - destruct (f msg u) as [[[]| |] u1]; [apply IH | done | done].
  - unfold mret, stM_ret. apply IH.
Qed.

Lemma deliver_all_app f l1 l2 u u1 :
  deliver_all f l1 u = (Ok (), u1) → deliver_all f (l1 ++ l2) u = deliver_all f l2 u1.
Proof.
  revert u. induction l1 as [|m l1 IH]; intros u; simpl; [by intros [= <-]|].
  unfold mbind, stM_bind. destruct (f m u) as [[[]| |] u2]; [apply IH | done | done].
Qed.

Lemma deliver_all_ext f g l u : (∀ msg u, f msg u = g msg u) → deliver_all f l u = deliver_all g l u.
Proof.
  intros H. revert u. induction l as [|m l IH]; intros u; [done|]. simpl. unfold mbind, stM_bind.
  rewrite H. by destruct (g m u) as [[[]| |] u1].
Qed.

(** The object while it is connected or trying to be. *)
Definition in_use (a : addr) (i : Impl) (w : world) : Prop :=
  ∃ c, objs w !! a = Some (Some (with_ws c i)) ∧ Wss.should_stop c = false ∧ Wss.on_message c = true.

Lemma io_delivers a i f w e w' :
  linked a i → on_message i = Some f → on_error i = None →
  in_use a i w → step w (Io a e) w' →
  in_use a i w' ∧ deliver_all f (option_list (Wss.event_text e)) (user w) = (Ok (), user w').
Proof.
  intros Hl Hm He (c & Ho & Hs & Hom) Hst.
  destruct (solo_step a (with_ws c i) w (Io a e) (Wss.Io e) w' Ho Hl) as (c' & Hc' & Ho' & Hd);
    [by simpl; rewrite decide_True | done |].
  destruct (Wss.exec_io_texts _ _ _ _ Hs Hom Hc') as (Hs' & Hom' & Ht).
  destruct (Wss.exec_io_prefix _ _ _ _ Hc') as [l Hcalls].
  split; [by exists c'|]. rewrite Hcalls in Hd. simpl in Hd. rewrite drop_app_length, Hm, He, deliver_calls_texts in Hd.
  unfold Wss.texts in Ht. rewrite Hcalls, omap_app in Ht. apply app_inv_head in Ht. by rewrite <- Ht.
Qed.

Lemma send_in_use a i w msg w' :
  linked a i → in_use a i w → step w (Send a msg) w' → in_use a i w' ∧ user w' = user w.
Proof.
  intros Hl (c & Ho & Hs & Hom) Hst.
  destruct (solo_step a (with_ws c i) w (Send a msg) (Wss.SendMsg msg) w' Ho Hl) as (c' & Hc' & Ho' & Hd);
    [by simpl; rewrite decide_True | done |].
  simpl in Hc'. simplify_eq. rewrite Wss.send_calls in Hd. simpl in Hd. rewrite drop_all in Hd. injection Hd as <-.
  split; [|done]. eexists. split; [done|]. unfold Wss.send. by case_match.
Qed.

(** What goes on while the user does not disconnect. *)
Inductive client_action (a : addr) : action → Prop :=
| use_io e : client_action a (Io a e)
| use_send msg : client_action a (Send a msg).

Definition text_read (act : action) : option string :=
  match act with Io _ e => Wss.event_text e | _ => None end.

Lemma messages_delivered a i f w0 acts w :
  linked a i → on_message i = Some f → on_error i = None → in_use a i w0 →
  run step w0 acts w → Forall (client_action a) acts →
  deliver_all f (omap text_read acts) (user w0) = (Ok (), user w).
Proof.
  intros Hl Hm He Hu Hr Hacts.
  enough (in_use a i w ∧ deliver_all f (omap text_read acts) (user w0) = (Ok (), user w)) by tauto.
  revert acts w Hr Hacts. apply (run_invariant step (λ acts w, Forall (client_action a) acts → _)); [done|].
  intros acts w1 act w2 _ IH Hst [Hacts Hact]%Forall_app. rewrite Forall_singleton in Hact.
  destruct (IH Hacts) as [Hin Hd]. rewrite omap_app, (deliver_all_app _ _ _ _ _ Hd). destruct Hact as [e|msg]; simpl.
  - destruct (io_delivers a i f w1 e w2 Hl Hm He Hin Hst) as [Hin' Hd']. split; [done|].
    by destruct (Wss.event_text e).
  - destruct (send_in_use a i w1 msg w2 Hl Hin Hst) as [Hin' ->]. by split.
Qed.

(** *** Moves *)

(** A live client at [a] with a message callback. *)
Definition live_client (a : addr) (cfg : WebSocketConfig) (cb : MessageCallback) (path : string) : list action :=
  [Construct a cfg; SetMessage a (Some cb); Connect a path None].

Definition empty_world (u : U) : world := World ∅ u.

(** The object that [live_client] leaves. *)
Definition live_impl (a : addr) (cfg : WebSocketConfig) (cb : MessageCallback) (path : string) : Impl :=
  MkImpl cfg (Wss.connect path None (Wss.fresh true false)).2 (Some a) None (Some cb) None true.

Lemma live_client_runs a cfg cb path u p :
  Wss.from (wc_base_url cfg) = Ok p →
  exec_all (live_client a cfg cb path) (empty_world u) = Some (World {[a := Some (live_impl a cfg cb path)]} u).
Proof.
  intros Hu. unfold live_client, exec_all, exec, construct, connect, do_connect, set_message_callback, store, mbind, stM_bind, deref, lift.
  rewrite Hu. unfold put, empty_world. cbn [objs user]. rewrite lookup_insert_eq. cbn [objs user].
  rewrite lookup_insert_eq, !insert_insert_eq. simpl. rewrite insert_insert_eq. reflexivity.
Qed.

(** What a lambda finds at the [this] it captured. *)
Definition this_fails (o : option (option Impl)) : option fatal :=
  match o with
  | None => Some ub_dangling
  | Some None => Some ub_null
  | Some (Some i) => if members i then None else Some ub_dangling
  end.

Lemma deliver_fails this msg w f :
  this_fails (objs w !! this) = Some f →
  terminate_on_throw ((_ ← deliver_message this msg; mret ()) w) = (Crash f, w).
Proof.
  intros Hf. unfold deliver_message, deref, callbacks, mbind, stM_bind, this_fails in *.
  destruct (objs w !! this) as [[i|]|]; simplify_eq; try done. by destruct (members i); simplify_eq.
Qed.

(** A text message for a client with the I/O state of [live_client]. *)
Lemma live_text a b cfg cb path i w msg f :
  objs w !! b = Some (Some i) → config i = cfg → ws i = ws (live_impl a cfg cb path) → msg_this i = Some a →
  (∀ c, this_fails (objs (put b (Some (with_ws c i)) w) !! a) = Some f) →
  crashes w (Io b (Wss.ReadText msg)) f.
Proof.
  intros Hb Hcfg Hws Hthis Hf.
  assert (∃ c, Wss.exec_io cfg (Wss.ReadText msg) (ws i) = Some c ∧
               drop (length (Wss.calls (ws i))) (Wss.calls c) = [Wss.OnMessage msg]) as (c & Hc & Hd).
  { rewrite Hws. by eexists. }
  eexists. unfold exec, io. rewrite Hb, Hcfg, Hc. cbn [mbind option_bind]. rewrite Hd.
  unfold invoke_all, invoke. rewrite Hthis. by rewrite (deliver_fails a msg _ f).
Qed.

(** A callback that crashes on the message. *)
Lemma live_callback_crashes a cfg cb path w msg f u :
  objs w !! a = Some (Some (live_impl a cfg cb path)) → cb msg (user w) = (Crash f, u) →
  crashes w (Io a (Wss.ReadText msg)) f.
Proof.
  intros Ha Hcb. set (i := live_impl a cfg cb path) in *.
  assert (∃ c, Wss.exec_io cfg (Wss.ReadText msg) (ws i) = Some c ∧
               drop (length (Wss.calls (ws i))) (Wss.calls c) = [Wss.OnMessage msg]) as (c & Hc & Hd)
    by by eexists.
  eexists. unfold exec, io. rewrite Ha. change (config i) with cfg. rewrite Hc. cbn [mbind option_bind]. rewrite Hd.
  rewrite (invoke_all_linked a c) by (first [apply lookup_insert_eq | split_and!; [done | by left | by right]]).
  simpl. unfold mbind, stM_bind. by rewrite Hcb.
Qed.

(** Moving a connected client leaves its handlers with the address of the old object:
    the next message goes through a null impl_, and through freed memory once the old
    object is gone. *)
Theorem moved_client_crashes a b cfg cb path u p msg :
  a ≠ b → Wss.from (wc_base_url cfg) = Ok p →
  ∃ w, run step (empty_world u) (live_client a cfg cb path ++ [Move b a]) w ∧
    crashes w (Io b (Wss.ReadText msg)) ub_null ∧
    ∃ w', run step w [Free a] w' ∧ crashes w' (Io b (Wss.ReadText msg)) ub_dangling.
Proof.
  intros Hab Hu. pose proof (base_exec_run _ _ _ (live_client_runs a cfg cb path u p Hu)) as Hr.
  eexists. split; [eapply run_snoc; [exact Hr|]; apply step_Ok|].
  { unfold exec, move_construct. cbn [objs]. rewrite lookup_singleton_eq. reflexivity. }
  unfold put. cbn [objs user]. split; [|eexists; split; [apply run_one, step_Ok; reflexivity|]].
  - eapply (live_text a b cfg cb path (live_impl a cfg cb path)); try done; cbn [objs put].
    + by rewrite lookup_insert_ne, lookup_insert_eq.
    + intros c. by rewrite lookup_insert_ne, lookup_insert_eq.
  - eapply (live_text a b cfg cb path (live_impl a cfg cb path)); try done; cbn [objs put free].
    + by rewrite lookup_delete_ne, lookup_insert_ne, lookup_insert_eq.
    + intros c. by rewrite lookup_insert_ne, lookup_delete_eq.
Qed.

(** *** Destruction *)

Lemma live_destroy_dangles a cfg cb path u msg :
  ∃ w, step (World {[a := Some (live_impl a cfg cb path)]} u) (DestroyMembers a) w ∧
    crashes w (Io a (Wss.ReadText msg)) ub_dangling.
Proof.
  eexists. split; [apply step_Ok|].
  { unfold exec, destroy_members. cbn [objs]. rewrite lookup_singleton_eq. reflexivity. }
  eapply (live_text a a cfg cb path); cbn [objs put]; try apply lookup_insert_eq; try done.
  intros c. by rewrite lookup_insert_eq.
Qed.

(** Destroying a connected client destroys the callbacks before the WebSocket client
    stops its I/O thread: a message in between uses a destroyed callback. *)
Theorem destroy_while_connected_dangles a cfg cb path u p msg :
  Wss.from (wc_base_url cfg) = Ok p →
  ∃ w, run step (empty_world u) (live_client a cfg cb path ++ [DestroyMembers a]) w ∧
    crashes w (Io a (Wss.ReadText msg)) ub_dangling.
Proof.
  intros Hu. pose proof (base_exec_run _ _ _ (live_client_runs a cfg cb path u p Hu)) as Hr.
  destruct (live_destroy_dangles a cfg cb path u msg) as (w & Hw & Hc). exists w. split; [by eapply run_snoc | done].
Qed.

Lemma io_needs_thread a e w i :
  objs w !! a = Some (Some i) → Wss.io_thread (ws i) = false → io a e w = None.
Proof. intros Ha Ht. unfold io. rewrite Ha. unfold Wss.exec_io. by rewrite Ht. Qed.

(** A client whose I/O thread has been joined can be destroyed: no handler can run at
    any point of the destruction. *)
Theorem destroy_after_disconnect_safe a i w :
  objs w !! a = Some (Some i) → Wss.io_thread (ws i) = false →
  ∃ w1 w2 w3 w4,
    step w (DestroyMembers a) w1 ∧ step w1 (Disconnect a) w2 ∧ step w2 (Join a) w3 ∧ step w3 (Free a) w4 ∧
    (∀ e, io a e w = None ∧ io a e w1 = None ∧ io a e w2 = None ∧ io a e w3 = None) ∧
    objs w4 !! a = None ∧ user w4 = user w.
Proof.
  intros Ha Ht.
  set (i1 := MkImpl (config i) (ws i) (msg_this i) (err_this i) None None false).
  set (i2 := with_ws (Wss.disconnect (ws i)) i1).
  assert (Hj : ∃ c3, Wss.join (ws i2) = Some c3 ∧ Wss.io_thread c3 = false).
  { unfold Wss.join. simpl. rewrite Ht. simpl. by eexists. }
  destruct Hj as (c3 & Hj & Ht3).
  exists (put a (Some i1) w), (put a (Some i2) w), (put a (Some (with_ws c3 i2)) w), (World (delete a (objs w)) (user w)).
  split_and!; try apply step_Ok; try done.
  - unfold exec, destroy_members. by rewrite Ha.
  - unfold exec, disconnect, mbind, stM_bind, deref, store, put. cbn [objs user]. rewrite lookup_insert_eq. simpl.
    by rewrite insert_insert_eq.
  - unfold exec, join, deref, store, put. cbn [objs user]. rewrite lookup_insert_eq, Hj. simpl. by rewrite insert_insert_eq.
  - unfold exec, free, put. cbn [objs user]. by rewrite delete_insert_eq.
  - intros e. by split_and!; eapply io_needs_thread; try apply lookup_insert_eq.
  - apply lookup_delete_eq.
Qed.
End base.

Arguments world : clear implicits.
Arguments Impl : clear implicits.
Arguments action : clear implicits.
End Base.

(** ** Examples *)
Module BaseWitness.
Import Base.

(** A callback that records the messages. *)
Definition record (msg : string) : stM (list string) exn () := λ u, (Ok (), u ++ [msg]).

Definition cfg : WebSocketConfig := WebSocketConfig_default.
Definition url : Wss.ParsedWssUrl := {| Wss.host := "stream.binance.com"; Wss.port := "9443" |}.
Definition path : string := "/ws/btcusdt@trade".

Definition live : world (list string) := World {[1 := Some (live_impl 1 cfg record path)]} [].

Lemma live_linked : linked 1 (live_impl 1 cfg record path).
Proof. split_and!; [done | by left | by right]. Qed.


Lemma unmoved_client_safe_witness :
  crashes live (Connect 1 path None) std_terminate ∧
  ∀ f, crashes live (Connect 1 path None) f → f = std_terminate.
Proof.
  split; [eexists; vm_compute; reflexivity|]. intros f Hf.
  apply (unmoved_client_safe 1 (live_impl 1 cfg record path) live [] live (Connect 1 path None) f);
    [reflexivity | exact live_linked | split; intros ? ? ? [= <-]; reflexivity | constructor | apply Forall_singleton; by eexists | exact Hf].
Defined.

Lemma moved_client_crashes_witness :
  ∃ w, run step (empty_world []) (live_client 1 cfg record path ++ [Move 2 1]) w ∧
    crashes w (Io 2 (Wss.ReadText "a")) ub_null ∧
    ∃ w', run step w [Free 1] w' ∧ crashes w' (Io 2 (Wss.ReadText "a")) ub_dangling.
Proof.
  apply (moved_client_crashes 1 2 cfg record path [] url "a"); [done | vm_compute; reflexivity].
Defined.

Lemma destroy_while_connected_dangles_witness :
  ∃ w, run step (empty_world []) (live_client 1 cfg record path ++ [DestroyMembers 1]) w ∧
    crashes w (Io 1 (Wss.ReadText "a")) ub_dangling.
Proof. apply (destroy_while_connected_dangles 1 cfg record path [] url "a"). vm_compute. reflexivity. Defined.

(** A client that was connected and then disconnected and joined. *)
Lemma destroy_after_disconnect_safe_witness :
  ∃ w w4, run step live [Disconnect 1; Io 1 Wss.CloseDue; Join 1] w ∧
    run step w [DestroyMembers 1; Disconnect 1; Join 1; Free 1] w4 ∧ objs w4 !! 1 = None.
Proof.
  destruct (exec_all [Disconnect 1; Io 1 Wss.CloseDue; Join 1] live) as [w|] eqn:Hw; [|vm_compute in Hw; discriminate].
  apply base_exec_run in Hw as Hr.
  destruct (objs w !! 1) as [[i|]|] eqn:Hi;
    [|vm_compute in Hw; injection Hw as <-; vm_compute in Hi; discriminate..].
  destruct (destroy_after_disconnect_safe 1 i w) as (w1 & w2 & w3 & w4 & H1 & H2 & H3 & H4 & _ & H5 & _).
  - exact Hi.
  - vm_compute in Hw. injection Hw as <-. vm_compute in Hi. injection Hi as <-. reflexivity.
  - exists w, w4. split; [exact Hr|]. split; [|exact H5].
    do 3 (eapply run_cons; [eassumption|]). by apply run_one.
Defined.
End BaseWitness.
