(* ===== verification/StreamLife.v ===== *)
(** * A market stream on its connection

    The composition of three components: the WebSocket client
    (WebSocketClient.v) reads messages, the base class (BaseClient.v)
    forwards them to the callback that src/ws/market_stream.cpp installs,
    and the dispatch machinery (MarketStream.v) brings them to the user.
    Also the order in which ~MarketStream takes these apart. *)

From S2P Require Import Prelude Errors CppLib CoreTypes Json RestParse WsParse SpscQueue HttpClient WebSocketClient MarketStream BaseClient.
Import Base.
Local Open Scope nat_scope.

Module Life.
Section life.
Context {E : Type} (dispatch : string → outcome exn (option E)).
(** [dispatch_fn] catches every exception (MarketStream.v). *)
Context (HnT : ∀ msg e, dispatch msg ≠ Throw e).
(** Whether the producer's n-th attempt reads an old [tail_] and finds the
    queue full although it is not. *)
Context (stale : nat → bool).

(** What the callbacks work on: the queue with its consumer and the
    callbacks made so far, and whether [queue_state_] still exists. *)
Record ustate : Type := UState {
  st : Delivery.state (E := E);
  attempts : nat;
  queue_alive : bool
}.

Definition with_st (s : Delivery.state) (u : ustate) : ustate := UState s (attempts u) (queue_alive u).

(** [dispatch_fn(msg)] *)
Definition dispatch_fn (msg : string) : stM ustate exn () := λ u,
  match dispatch msg with
  | Ok _ => (Ok (), with_st (Delivery.deliver dispatch msg (st u)) u)
  | Throw e => (Throw e, u)
  | Crash f => (Crash f, u)
  end.

(** [(void)state->queue.try_push(std::string(msg))] *)
Definition push (msg : string) : stM ustate exn () := λ u,
  let q := Delivery.queue (st u) in
  if negb (queue_alive u) then (Crash ub_dangling, u)
  else if bool_decide (length q < capn Delivery.k_queue_capacity) && negb (stale (attempts u)) then
    (Ok (), UState (Delivery.with_queue (q ++ [msg]) (st u)) (S (attempts u)) true)
  else (Ok (), UState (st u) (S (attempts u)) true).

(** The callback [install_dispatch] sets. *)
Definition installed (m : DispatchMode) : string → stM ustate exn () :=
  match m with Inline => dispatch_fn | Queued => push end.

(** One iteration of the consumer's loops. *)
Definition consume : stM ustate exn () := λ u,
  let s := st u in
  if negb (Delivery.consumer s) then (Ok (), u)
  else match Delivery.queue s with
       | msg :: q => dispatch_fn msg (with_st (Delivery.with_queue q s) u)
       | [] => if Delivery.running s then (Ok (), u)
               else (Ok (), with_st (Delivery.State (Delivery.mode s) [] false false (Delivery.delivered s) false) u)
       end.

Definition start (m : DispatchMode) : ustate := UState (Delivery.init m) 0 true.

(** A live stream: what [subscribe_*] leaves, on the world level. *)
Definition subscribed (a : addr) (cfg : WebSocketConfig) (m : DispatchMode) (path : string) : list (action ustate) :=
  live_client a cfg (installed m) path.

(** The stream in use: its I/O thread, its consumer, and [send]. *)
Inductive stream_action (a : addr) : action ustate → Prop :=
| use_io e : stream_action a (Io a e)
| use_send msg : stream_action a (Send a msg)
| use_consumer : stream_action a (Other consume).

Definition tracks (m : DispatchMode) (tr : list Delivery.label) (u : ustate) : Prop :=
  run (Delivery.step dispatch) (Delivery.init m) tr (st u) ∧ queue_alive u = true ∧ Delivery.crashed (st u) = false.

Lemma run_mode m tr s : run (Delivery.step dispatch) (Delivery.init m) tr s → Delivery.mode s = m.
Proof. by intros [_ ?]%Delivery.run_delivery_inv. Qed.

Lemma deliver_not_crashed msg s o :
  dispatch msg = Ok o → Delivery.crashed s = false → Delivery.crashed (Delivery.deliver dispatch msg s) = false.
Proof. intros Hd Hc. unfold Delivery.deliver. rewrite Hd. by destruct o. Qed.

(** The installed callback is one [Received] step of the delivery. *)
Lemma installed_tracks m tr u msg u' :
  tracks m tr u → installed m msg u = (Ok (), u') →
  ∃ acc, tracks m (tr ++ [Delivery.Received msg acc]) u'.
Proof.
  intros (Hr & Ha & Hc) Hi. pose proof (run_mode _ _ _ Hr) as Hm. destruct m; simpl in Hi.
  - unfold dispatch_fn in Hi. destruct (dispatch msg) as [o| |] eqn:Hd; simplify_eq. exists true.
    split_and!; [|done|by eapply deliver_not_crashed]. eapply run_snoc; [done|]. by apply Delivery.recv_inline.
  - unfold push in Hi. rewrite Ha in Hi. cbn [negb] in Hi.
    destruct (bool_decide_reflect (length (Delivery.queue (st u)) < capn Delivery.k_queue_capacity)) as [Hlt|];
      [destruct (stale (attempts u))|]; simplify_eq/=.
    2: { exists true. split_and!; [|done|done]. eapply run_snoc; [done|].
         by apply Delivery.recv_push; [..|constructor]. }
    all: exists false; split_and!; [|done|done]; eapply run_snoc; [done|]; simpl.
    all: replace (st u) with (Delivery.with_queue (Delivery.queue (st u)) (st u)) at 2 by (by destruct (st u)).
    all: by apply Delivery.recv_full; [..|constructor].
Qed.

Lemma consume_tracks m tr u u' :
  tracks m tr u → consume u = (Ok (), u') →
  ∃ l, tracks m (tr ++ l) u' ∧ omap Delivery.received l = [].
Proof.
  intros (Hr & Ha & Hc) Hi. unfold consume in Hi.
  assert (Hsame : u' = u → ∃ l, tracks m (tr ++ l) u' ∧ omap Delivery.received l = []).
  { intros ->. exists []. by rewrite app_nil_r. }
  destruct (Delivery.consumer (st u)) eqn:Hco; simpl in Hi; [|simplify_eq; auto].
  destruct (Delivery.queue (st u)) as [|msg q] eqn:Hq.
  - destruct (Delivery.running (st u)) eqn:Hru; [simplify_eq; auto|].
    simplify_eq/=. exists [Delivery.Exited]. split; [|done]. split_and!; [|done|done].
    eapply run_snoc; [done|]. rewrite <- Hq. eapply Delivery.exit; [done | done | done |]. rewrite Hq. constructor.
  - unfold dispatch_fn in Hi. destruct (dispatch msg) as [o| |] eqn:Hd; simplify_eq/=.
    exists [Delivery.Taken msg]. split; [|done]. split_and!; [|done|by eapply deliver_not_crashed].
    eapply run_snoc; [done|]. eapply Delivery.take; [done | done |]. rewrite Hq. constructor.
Qed.

(** *** From the socket to the user *)

Lemma use_tracks a (i : Impl ustate) m tr w act w' :
  linked a i → on_message i = Some (installed m) → on_error i = None →
  in_use a i w → tracks m tr (user w) → stream_action a act → step w act w' →
  in_use a i w' ∧ ∃ l, tracks m (tr ++ l) (user w') ∧ omap Delivery.received l = option_list (text_read act).
Proof.
  intros Hl Hm He Hu Ht Hact Hst. destruct Hact as [e|msg|]; simpl.
  - destruct (io_delivers a i (installed m) w e w' Hl Hm He Hu Hst) as [Hu' Hd]. split; [done|].
    destruct (Wss.event_text e) as [msg|]; simpl in *.
    + unfold mbind, stM_bind in Hd. destruct (installed m msg (user w)) as [[[]| |] u1] eqn:Hi; simplify_eq/=.
      injection Hd as ->. destruct (installed_tracks m tr (user w) msg (user w') Ht Hi) as [acc Hacc].
      by exists [Delivery.Received msg acc].
    + injection Hd as <-. exists []. by rewrite app_nil_r.
  - destruct (send_in_use a i w msg w' Hl Hu Hst) as [Hu' ->]. split; [done|]. exists []. by rewrite app_nil_r.
  - destruct Hst as (o & Hex & Hok). simpl in Hex. unfold on_user in Hex.
    destruct (consume (user w)) as [o1 u1] eqn:Hc. simplify_eq/=.
    split; [destruct Hu as (c & Ho & Hs & Hom); by exists c|].
    destruct o as [[]|e|f]; [|exfalso|by destruct (Hok f)].
    { destruct (consume_tracks m tr (user w) u1 Ht Hc) as (l & Hl1 & Hl2). by exists l. }
    clear - Hc HnT. unfold consume, dispatch_fn in Hc. repeat case_match; simplify_eq. by eapply HnT.
Qed.

(** A subscribed stream is in use and has delivered nothing. *)
Lemma live_impl_linked a cfg m path :
  linked a (live_impl a cfg (installed m) path) ∧
  on_message (live_impl a cfg (installed m) path) = Some (installed m) ∧
  on_error (live_impl a cfg (installed m) path) = None.
Proof. split_and!; [split_and!; [done | by left | by right] | done | done]. Qed.

Lemma live_run a cfg m path p acts w :
  Wss.from (wc_base_url cfg) = Ok p →
  run step (World {[a := Some (live_impl a cfg (installed m) path)]} (start m)) acts w →
  Forall (stream_action a) acts →
  in_use a (live_impl a cfg (installed m) path) w ∧
  ∃ tr, tracks m tr (user w) ∧ omap Delivery.received tr = omap text_read acts.
Proof using HnT.
  intros Hu Hr. destruct (live_impl_linked a cfg m path) as (Hl & Hm & He).
  revert acts w Hr. apply (run_invariant step (λ acts w, Forall (stream_action a) acts → _)).
  - intros _. split; [eexists; split; [apply lookup_singleton_eq | done]|].
    exists []. split; [|done]. split_and!; [constructor | done | done].
  - intros acts w1 act w2 _ IH Hst [Hacts Hact]%Forall_app. rewrite Forall_singleton in Hact.
    destruct (IH Hacts) as (Hin & tr & Htr & Hrec).
    destruct (use_tracks a _ m tr w1 act w2 Hl Hm He Hin Htr Hact Hst) as (Hin' & l & Hl1 & Hl2).
    split; [done|]. exists (tr ++ l). split; [done|]. rewrite !omap_app, Hrec, Hl2. simpl. by destruct (text_read act).
Qed.

(** What is read from the socket and what the user is told. *)
Lemma delivery_end_to_end a cfg m path p acts w :
  Wss.from (wc_base_url cfg) = Ok p →
  exec_all (subscribed a cfg m path) (empty_world (start m)) = Some w →
  ∀ w', run step w acts w' → Forall (stream_action a) acts →
  let read := omap text_read acts in
  let s := st (user w') in
  match m with
  | Inline => Delivery.delivered s = omap (Delivery.event_of dispatch) read
  | Queued => ∃ taken, (taken ++ Delivery.queue s) `sublist_of` read ∧ length (Delivery.queue s) ≤ 4096 ∧
                Delivery.delivered s = omap (Delivery.event_of dispatch) taken
  end.
Proof using HnT.
  intros Hu Hsub w' Hr Hacts. unfold subscribed in Hsub. rewrite (live_client_runs a cfg _ path _ p Hu) in Hsub.
  simplify_eq. destruct (live_run a cfg m path p acts w' Hu Hr Hacts) as (_ & tr & (Htr & _ & Hc) & Hrec).
  destruct (Delivery.run_delivery_inv dispatch m tr _ Htr) as [[Hi Hq] Hmode]. rewrite <- Hrec. destruct m; simpl.
  - by apply Hi.
  - destruct (Hq Hmode) as (Hacc & Hlen & Hd). exists (omap Delivery.taken tr).
    rewrite <- Hacc. split_and!; [apply Delivery.accepted_sublist | done | by apply Hd].
Qed.

(** *** ~MarketStream *)

(** [stop_consumer()]: the flag, then the join, possible once the
    consumer's thread has left its loops. *)
Definition request_stop : stM ustate exn () := λ u,
  let s := st u in
  (Ok (), with_st (Delivery.State (Delivery.mode s) (Delivery.queue s) false (Delivery.consumer s) (Delivery.delivered s) (Delivery.crashed s)) u).

(** [queue_state_] is a member of the derived class: it goes before the
    base class, whose destructor stops the I/O thread. *)
Definition free_queue : stM ustate exn () := λ u, (Ok (), UState (st u) (attempts u) false).

(** ~MarketStream joins the consumer and frees the queue while the I/O thread of the
    base class still runs: a message that arrives then is pushed into freed memory. *)
Theorem queued_destroy_dangles a cfg path p msg :
  Wss.from (wc_base_url cfg) = Ok p →
  ∃ w, run step (empty_world (start Queued))
         (subscribed a cfg Queued path ++ [Other request_stop; Other consume; Other free_queue]) w ∧
    Delivery.consumer (st (user w)) = false ∧ crashes w (Io a (Wss.ReadText msg)) ub_dangling.
Proof.
  intros Hu. pose proof (base_exec_run _ _ _ (live_client_runs a cfg (installed Queued) path (start Queued) p Hu)) as Hr.
  eexists. split; [eapply run_app; [exact Hr|]; apply base_exec_run; reflexivity|]. split; [done|].
  eapply (live_callback_crashes a cfg (installed Queued) path); [apply lookup_singleton_eq | reflexivity].
Qed.
End life.

Section market.
Context `{L : JsonLib}.

End market.
End Life.

(** ** Examples *)
Module LifeWitness.
Import Tree Market Life.

Definition trade_msg : string := quoted "{'e':'trade','t':1,'p':'4','q':'2','T':5,'m':true}".

Definition trades : subscription := Trades "BTCUSDT".
Definition dispatch : string → outcome exn (option event) := Market.dispatch_fn (L := TreeJson) trades.
Definition never : nat → bool := λ _, false.

Definition wss_url : Wss.ParsedWssUrl :=
  {| Wss.host := "stream.binance.com"; Wss.port := "9443" |}.

(** Subscribe, read a trade and noise, consume. *)
Definition reading : list (action (ustate (E := event))) :=
  [Io 7 (Wss.ReadText trade_msg); Io 7 (Wss.ReadText "noise"); Other (consume dispatch)].

Definition started (m : DispatchMode) : option (world (ustate (E := event))) :=
  exec_all (subscribed dispatch never 7 WebSocketConfig_default m "/ws/btcusdt@trade") (empty_world (start m)).


Lemma queued_destroy_dangles_witness :
  ∃ w, run step (empty_world (start Queued))
         (subscribed dispatch never 7 WebSocketConfig_default Queued "/ws/btcusdt@trade"
          ++ [Other request_stop; Other (consume dispatch); Other free_queue]) w ∧
    Delivery.consumer (st (user w)) = false ∧ crashes w (Io 7 (Wss.ReadText "late")) ub_dangling.
Proof.
  apply (queued_destroy_dangles dispatch never 7 WebSocketConfig_default "/ws/btcusdt@trade" wss_url "late").
  vm_compute. reflexivity.
Defined.
End LifeWitness.
