(* ===== verification/UserLife.v ===== *)
(** * The user stream on its connection, and how streams end

    [UserLife] puts the dispatcher of src/ws/user_stream.cpp on the
    connection of StreamLife.v, follows its threads through any sequence
    of calls, and has what [stop] leaves behind in the queue.  [Drain] is
    the end of the consumer thread that user_stream.cpp and
    market_stream.cpp share: [stop_consumer] clears [running] and joins a
    thread that first empties the queue. *)

From S2P Require Import Prelude Errors CppLib Query CoreTypes Json RestParse Auth HttpClient RestClient WsParse SpscQueue WebSocketClient MarketStream UserStream BaseClient StreamLife.
Local Open Scope nat_scope.

(** ** Stopping the consumer *)
Module Drain.
Import Delivery.
Section drain.
Context {E : Type} (dispatch : string → outcome exn (option E)).
(** [dispatch_fn] catches every exception. *)
Context (HnT : ∀ msg e, dispatch msg ≠ Throw e).

Definition quiet (l : label) : Prop := received l = None.

(** The consumer after [running] was cleared. *)
Definition stopping (s : state (E := E)) : Prop :=
  consumer s = true ∧ running s = false ∧ crashed s = false.

Definition todo (s : state (E := E)) : nat := if consumer s then S (length (queue s)) else 0.

(** Without new messages every step of the consumer is progress. *)
Lemma quiet_step_progress s l s' :
  step dispatch s l s' → quiet l → running s = false → l ≠ StopRequested →
  running s' = false ∧ todo s' < todo s.
Proof.
  intros Hst Hq Hr Hl. destruct Hst as [| | |s msg q' Hc Hcr Hs|s q' Hc Hru|s|s q' Hc]; simplify_eq/=; try congruence.
  - inversion Hs as [| |? ? Hq1|]; subst. unfold todo, deliver. simpl.
    destruct (dispatch msg) as [[e|]|e|f]; simpl; rewrite Hc, <- Hq1; (split; [done | simpl; lia]).
  - unfold todo. rewrite Hc. split; [done | simpl; lia].
Qed.

(** What the drain keeps: nothing new, nothing crashed. *)
Lemma quiet_step_frame q s l s' :
  (∀ msg f, msg ∈ q → dispatch msg ≠ Crash f) → queue s ⊆ q →
  step dispatch s l s' → quiet l → crashed s' = false ∧ queue s' ⊆ q.
Proof using HnT.
  intros Hok Hq Hst Hl. destruct Hst as [| | |s msg q' Hc Hcr Hs| | |]; simplify_eq/=; try done.
  inversion Hs as [| |? ? Hq1|]; subst. rewrite <- Hq1 in Hq. unfold deliver.
  destruct (dispatch msg) as [[e|]|e|f] eqn:Hd; simpl; try (split; [done | set_solver]).
  - by destruct (HnT msg e).
  - destruct (Hok msg f); [set_solver | done].
Qed.

(** Until it has left, the consumer can go on. *)
Lemma stopping_steps s :
  consumer s = true → running s = false → crashed s = false →
  ∃ l s', quiet l ∧ l ≠ StopRequested ∧ step dispatch s l s'.
Proof.
  intros Hc Hr Hcr. destruct (queue s) as [|msg q] eqn:Hq.
  - exists Exited. eexists. split_and!; [done | done |]. eapply exit; [done | done | done |]. constructor.
  - exists (Taken msg). eexists. split_and!; [done | done |]. eapply take; [done | done |]. rewrite Hq. constructor.
Qed.

Lemma quiet_accepted tr : Forall quiet tr → omap accepted tr = [].
Proof. induction 1 as [|[? []| | | |] tr Hl _ IH]; simpl; try done. Qed.

(** Once running is cleared and no message arrives, the consumer leaves after at most
    one step per waiting message and one more, can always take a step until it has left,
    and has then delivered every message the queue accepted, in order. *)
Theorem consumer_drains tr s tr' s' :
  run (step dispatch) (init Queued) tr s → stopping s →
  (∀ msg f, msg ∈ queue s → dispatch msg ≠ Crash f) →
  run (step dispatch) s tr' s' → Forall quiet tr' → StopRequested ∉ tr' →
  length tr' ≤ S (length (queue s)) ∧
  (consumer s' = true → ∃ l s'', quiet l ∧ l ≠ StopRequested ∧ step dispatch s' l s'') ∧
  omap accepted tr = omap taken (tr ++ tr') ++ queue s' ∧
  delivered s' = omap (event_of dispatch) (omap taken (tr ++ tr')).
Proof using HnT.
  intros Hr Hs Hok Hrun Hq Hns.
  assert (H : (running s' = false ∧ length tr' + todo s' ≤ S (length (queue s))) ∧ crashed s' = false ∧ queue s' ⊆ queue s).
  { revert tr' s' Hrun Hq Hns.
    apply (run_invariant (step dispatch) (λ tr' s', Forall quiet tr' → StopRequested ∉ tr' →
             (running s' = false ∧ length tr' + todo s' ≤ S (length (queue s))) ∧ crashed s' = false ∧ queue s' ⊆ queue s)).
    - intros _ _. destruct Hs as (Hc & Hru & Hcr). split_and!; try done. unfold todo. rewrite Hc. simpl. lia.
    - intros tr' s1 l s2 _ IH Hst [Hq Hql]%Forall_app Hns. rewrite Forall_singleton in Hql.
      rewrite not_elem_of_app in Hns. destruct Hns as [Hns Hl]. destruct (IH Hq Hns) as ([Hru Hle] & Hcr & Hsub).
      destruct (quiet_step_progress s1 l s2 Hst Hql Hru) as [? ?]; [set_solver|].
      split; [split; [done|]; rewrite length_app; simpl; lia | by eapply quiet_step_frame]. }
  destruct H as ([Hru Hle] & Hcr & _).
  destruct (run_delivery_inv dispatch Queued (tr ++ tr') s') as [[_ Hinv] Hm]; [by eapply run_app|].
  destruct (Hinv Hm) as (Hacc & _ & Hdel). rewrite omap_app, (quiet_accepted tr'), app_nil_r in Hacc by done.
  split_and!; [lia | by intros; apply stopping_steps | done | by apply Hdel].
Qed.

(** While messages keep arriving the stopped consumer never has to leave: for every n
    there is a run in which it takes n messages after the stop and has not left. *)
Theorem drain_unbounded msg n :
  dispatch msg = Ok None →
  ∃ tr s, run (step dispatch) (init Queued) (StopRequested :: tr) s ∧ length (omap taken tr) = n ∧ stopping s.
Proof.
  intros Hd.
  assert (Hs0 : ∃ s, step dispatch (init Queued) StopRequested s ∧ stopping s ∧ queue s = [] ∧ mode s = Queued).
  { eexists. split; [by apply stop | done]. }
  destruct Hs0 as (s0 & Hst0 & Hs0 & Hq0 & Hm0).
  assert (H : ∃ tr s, run (step dispatch) s0 tr s ∧ length (omap taken tr) = n ∧ stopping s ∧ queue s = [] ∧ mode s = Queued).
  { induction n as [|n (tr & s & Hr & Hn & (Hc & Hru & Hcr) & Hq & Hm)].
    { exists [], s0. split_and!; try done. constructor. }
    set (s1 := with_queue [msg] s).
    assert (H1 : step dispatch s (Received msg true) s1).
    { eapply (recv_push dispatch s msg [msg]); [done | done |]. rewrite Hq. apply (Fifo.bq_push _ []). simpl. vm_compute. lia. }
    exists ((tr ++ [Received msg true]) ++ [Taken msg]), (deliver dispatch msg (with_queue [] s1)).
    split_and!.
    - eapply run_snoc; [by eapply run_snoc|]. eapply (take dispatch s1 msg []); [done | done | constructor].
    - rewrite !omap_app, !length_app, Hn. simpl. lia.
    - unfold deliver. rewrite Hd. by split_and!.
    - unfold deliver. by rewrite Hd.
    - unfold deliver. by rewrite Hd. }
  destruct H as (tr & s & Hr & Hn & Hs & _). exists tr, s. split; [by eapply run_cons | done].
Qed.
End drain.
End Drain.

(** ** The user stream *)
Module UserLife.
Import Base Life.

Section end_to_end.
Context `{L : JsonLib}.

Lemma do_dispatch_no_throw orders accounts msg e : User.do_dispatch orders accounts msg ≠ Throw e.
Proof. unfold User.do_dispatch, catch. by case_match. Qed.

Context {LL : JsonLaws L}.

End end_to_end.

(** *** The threads of a user stream through its calls *)
Section threads.
Context `{L : JsonLib} `{HO : HashOrder} {T : Type} `{HT : HttpTransport T}.
Context (make_http : outcome exn T).

(** What a user calls; exceptions are caught.  [err] is what connecting
    reports, empty on success. *)
Inductive call : Type :=
| CallSetMode (m : DispatchMode)
| CallSetOrder
| CallSetAccount
| CallStart (err : string)
| CallKeepAlive
| CallStop.

Definition exec_call (c : call) : stM (User.stream (T := T)) exn () :=
  match c with
  | CallSetMode m => User.set_dispatch_mode m
  | CallSetOrder => λ s, (Ok (), User.set_order_update_callback s)
  | CallSetAccount => λ s, (Ok (), User.set_account_update_callback s)
  | CallStart err => User.start make_http err
  | CallKeepAlive => User.keep_alive make_http
  | CallStop => User.stop make_http
  end.

Definition call_step (s : User.stream (T := T)) (c : call) (s' : User.stream (T := T)) : Prop :=
  ∃ o, exec_call c s = (o, s') ∧ ∀ f, o ≠ Crash f.

(** A consumer only in a stream that has been started in Queued mode, and
    joined by [stop_consumer]; the keep-alive thread and the I/O thread
    come and go together. *)
Record threads_ok (s : User.stream (T := T)) : Prop := {
  to_consumer : User.consumer_thread s = User.running s;
  to_queued : User.consumer_thread s = true → User.dispatch_mode_ s = Queued ∧ User.started_ s = true;
  to_pair : User.keep_alive_thread_ s = User.io_thread s
}.

(** A stream that differs only in its transport, key and callbacks. *)
Definition same_threads (s s' : User.stream (T := T)) : Prop :=
  User.consumer_thread s' = User.consumer_thread s ∧ User.running s' = User.running s ∧
  User.dispatch_mode_ s' = User.dispatch_mode_ s ∧ User.started_ s' = User.started_ s ∧
  User.keep_alive_thread_ s' = User.keep_alive_thread_ s ∧ User.io_thread s' = User.io_thread s.

Lemma same_threads_ok s s' : same_threads s s' → threads_ok s → threads_ok s'.
Proof. intros (H1 & H2 & H3 & H4 & H5 & H6) [???]. split; [congruence | by rewrite H1, H3, H4 | congruence]. Qed.

Lemma on_rest_threads {A} (m : stM T exn A) s o s' : User.on_rest make_http m s = (o, s') → same_threads s s'.
Proof. unfold User.on_rest. repeat case_match; intros; by simplify_eq. Qed.

Lemma bind_lift_threads {A B} (m : stM (User.stream (T := T)) exn A) (f : A → outcome exn B) s o s' :
  (∀ o s', m s = (o, s') → same_threads s s') → (x ← m; lift (f x)) s = (o, s') → same_threads s s'.
Proof.
  intros Hm. unfold mbind, stM_bind, lift. destruct (m s) as [[a|e|fa] s1] eqn:Hs; intros [= <- <-]; by eapply Hm.
Qed.

Lemma create_listen_key_threads s o s' : User.create_listen_key make_http s = (o, s') → same_threads s s'.
Proof.
  unfold User.create_listen_key. intros H.
  eapply (bind_lift_threads (User.on_rest make_http (t_post "/api/v3/userDataStream" "" []))
    (λ resp, j ← parse_response (Exec.status_code resp) (Exec.body resp); value_string j "listenKey" ""));
    [intros ??; apply on_rest_threads|].
  rewrite <- H. unfold mbind, stM_bind, lift. destruct (User.on_rest _ _ _) as [[resp|e|f] s1]; try done.
  simpl. by destruct (parse_response _ _).
Qed.

Lemma renew_threads k s o s' : User.renew_listen_key make_http k s = (o, s') → same_threads s s'.
Proof. apply bind_lift_threads. intros ??. apply on_rest_threads. Qed.

Lemma delete_threads k s o s' : User.delete_listen_key make_http k s = (o, s') → same_threads s s'.
Proof. apply bind_lift_threads. intros ??. apply on_rest_threads. Qed.

Lemma stop_consumer_ok s :
  threads_ok s → User.consumer_thread (User.stop_consumer s) = false ∧ User.running (User.stop_consumer s) = false ∧
    User.keep_alive_thread_ (User.stop_consumer s) = User.keep_alive_thread_ s ∧
    User.io_thread (User.stop_consumer s) = User.io_thread s ∧ User.listen_key_ (User.stop_consumer s) = User.listen_key_ s.
Proof. intros [Hc _ _]. unfold User.stop_consumer. destruct (User.running s) eqn:Hr; [done|]. by rewrite Hc, Hr. Qed.

(** Starting: what it needs and what it leaves. *)
Lemma start_body_ok k err s o s' :
  threads_ok s → User.started_ s = true →
  (_ ← User.install; _ ← User.connect err ("/ws/" +:+ k); User.start_keep_alive) s = (o, s') →
  (∀ f, o ≠ Crash f) → threads_ok s' ∧ User.io_thread s = false ∧ User.consumer_thread s = false ∧
    User.io_thread s' = is_Ok o.
Proof.
  intros [H1 H2 H3] Hst. destruct s as [cr h lk oc ac md sd om ru ct ka sk io cp]. simpl in *. subst.
  unfold mbind, stM_bind, User.install, User.start_consumer, User.connect, User.start_keep_alive. simpl.
  destruct md; simpl; [destruct ru; [by destruct H2|] | destruct ru; simpl].
  - destruct io; simpl; [intros [= <- <-] Hf; by destruct (Hf std_terminate)|].
    case_decide; simpl; intros [= <- <-] _; (split_and!; try done); by split.
  - intros [= <- <-] Hf. by destruct (Hf std_terminate).
  - destruct io; simpl; [intros [= <- <-] Hf; by destruct (Hf std_terminate)|].
    case_decide; simpl; intros [= <- <-] _; (split_and!; try done); by split.
Qed.

Lemma started_ok s : threads_ok s → threads_ok (User.with_mode (User.dispatch_mode_ s) true s).
Proof. intros [H1 H2 H3]. split; simpl; [done | | done]. intros H. by destruct (H2 H). Qed.

Lemma start_ok err s o s' :
  threads_ok s → User.start make_http err s = (o, s') → (∀ f, o ≠ Crash f) → threads_ok s'.
Proof.
  intros Hok. unfold User.start. case_match; [by intros [= <- <-]|].
  unfold mbind at 1, stM_bind at 1. destruct (User.create_listen_key _ _) as [ok s1] eqn:Hk.
  assert (Hst : User.started_ s1 = true) by (apply create_listen_key_threads in Hk as (_ & _ & _ & -> & _); done).
  assert (Hok1 : threads_ok s1) by (eapply same_threads_ok; [by eapply create_listen_key_threads | by apply started_ok]).
  destruct ok as [key|e|f]; [|intros [= <- <-]; done..].
  unfold mbind at 1, stM_bind at 1. destruct (decide (key = "")).
  - intros [= <- <-] _. by eapply same_threads_ok; [|exact Hok1].
  - intros Hb Hf. eapply start_body_ok; [| |exact Hb | done]; [by eapply same_threads_ok; [|exact Hok1] | done].
Qed.

Lemma stop_ok s o s' :
  threads_ok s → User.stop make_http s = (o, s') → (∀ f, o ≠ Crash f) → threads_ok s' ∧ User.idle s'.
Proof.
  intros Hok. destruct (stop_consumer_ok s Hok) as (H1 & H2 & H3 & H4 & H5). unfold User.stop.
  set (s1 := User.with_keep_alive false true (User.stop_consumer s)).
  assert (Hgoal : ∀ s2, same_threads s1 s2 → threads_ok (User.disconnect s2) ∧ User.idle (User.disconnect s2)).
  { intros s2 (A1 & A2 & A3 & A4 & A5 & A6). unfold s1 in *. simpl in *. split.
    - split; simpl; rewrite ?A1, ?A2, ?A5, ?H1, ?H2; done.
    - unfold User.idle. simpl. by rewrite A1, A2, A5, H1, H2. }
  case_decide; [intros [= <- <-] _; by apply Hgoal|].
  destruct (User.delete_listen_key _ _ s1) as [od s2] eqn:Hd. apply delete_threads in Hd.
  destruct od as [[]|e|f]; intros [= <- <-] Hf; [by apply Hgoal | by apply Hgoal | by destruct (Hf f)].
Qed.

Lemma call_ok s c s' : threads_ok s → call_step s c s' → threads_ok s'.
Proof.
  intros Hok (o & He & Hf). destruct c as [m| | |err| |]; simpl in He.
  - unfold User.set_dispatch_mode in He. destruct (User.started_ s) eqn:Hs; simplify_eq; [done|].
    destruct Hok as [H1 H2 H3]. split; simpl; [done | | done]. intros H. destruct (H2 H). congruence.
  - simplify_eq. by eapply same_threads_ok; [|exact Hok].
  - simplify_eq. by eapply same_threads_ok; [|exact Hok].
  - by eapply start_ok.
  - unfold User.keep_alive in He. case_decide; [by simplify_eq|].
    eapply same_threads_ok; [by eapply renew_threads | done].
  - by eapply stop_ok.
Qed.

End threads.

(** *** What stop leaves behind *)
Section restart.
Context {E : Type} (dispatch : string → outcome exn (option E)) (stale : nat → bool).

(** [start_consumer] on a [queue_state_] that an earlier session left. *)
Definition start_consumer : stM (ustate (E := E)) exn () := λ u,
  let s := st u in
  (Ok (), with_st (Delivery.State (Delivery.mode s) (Delivery.queue s) true true (Delivery.delivered s) (Delivery.crashed s)) u).

End restart.
End UserLife.

(** ** Examples *)
Module UserLifeWitness.
Import Tree User Life UserLife UserWitness HttpWitness RestWitness.

Definition orders : string → outcome exn (option User.event) := User.do_dispatch (L := TreeJson) true true.
Definition never : nat → bool := λ _, false.

Definition wss_url : Wss.ParsedWssUrl :=
  {| Wss.host := "stream.binance.com"; Wss.port := "9443" |}.

Definition started (m : DispatchMode) : option (Base.world (ustate (E := User.event))) :=
  Base.exec_all (subscribed orders never 7 WebSocketConfig_default m "/ws/pqia91") (Base.empty_world (Life.start m)).

(** [stop] joins the consumer and closes the connection; an execution
    report that arrives in between is queued. *)
Definition stopping_late : list (Base.action (ustate (E := User.event))) :=
  [Base.Other request_stop; Base.Other (consume orders); Base.Io 7 (Wss.ReadText report_msg); Base.Disconnect 7].

(** [start] again: the same queue, a new consumer. *)
Definition restarting : list (Base.action (ustate (E := User.event))) :=
  [Base.Other start_consumer; Base.Other (consume orders)].

(** The consumer and the callbacks made once [stop] is through, and the
    callbacks made once [start] has been called again. *)
Definition stop_then_start : option (bool * list User.event * list User.event) :=
  w ← started Queued;
  w1 ← Base.exec_all stopping_late w;
  w2 ← Base.exec_all restarting w1;
  Some (Delivery.consumer (st (Base.user w1)), Delivery.delivered (st (Base.user w1)),
        Delivery.delivered (st (Base.user w2))).

(** stop ends the consumer before the connection: a message read in between stays in the
    queue and is delivered after the next start. *)
Theorem stale_message_after_restart : stop_then_start = Some (false, [], [OnOrder report_order]).
Proof. vm_compute. reflexivity. Qed.

Definition reading : list (Base.action (ustate (E := User.event))) :=
  [Base.Io 7 (Wss.ReadText report_msg); Base.Io 7 (Wss.ReadText "noise"); Base.Other (consume orders)].



Lemma consumer_drains_witness :
  ∃ tr s, run (Delivery.step orders) (Delivery.init Queued) tr s ∧
    ∀ tr' s', run (Delivery.step orders) s tr' s' → Forall Drain.quiet tr' → Delivery.StopRequested ∉ tr' → length tr' ≤ 2.
Proof.
  set (s := Delivery.State Queued ["noise"] false true ([] : list User.event) false).
  assert (Hr : run (Delivery.step orders) (Delivery.init Queued) [Delivery.Received "noise" true; Delivery.StopRequested] s).
  { eapply run_cons; [apply (Delivery.recv_push orders (Delivery.init Queued) "noise" ["noise"]); [done | done|]|].
    { apply (Fifo.bq_push _ []). vm_compute. lia. }
    eapply run_cons; [by apply Delivery.stop | apply run_nil]. }
  eexists _, s. split; [exact Hr|]. intros tr' s' Hrun Hq Hn.
  apply (Drain.consumer_drains orders (do_dispatch_no_throw true true) _ s tr' s' Hr); [done | | exact Hrun | exact Hq | exact Hn].
  intros msg f Hin. apply list_elem_of_singleton in Hin as ->. vm_compute. done.
Defined.

Lemma drain_unbounded_witness :
  ∃ tr s, run (Delivery.step orders) (Delivery.init Queued) (Delivery.StopRequested :: tr) s ∧
    length (omap Delivery.taken tr) = 5 ∧ Drain.stopping s.
Proof. apply (Drain.drain_unbounded orders "noise" 5). vm_compute. reflexivity. Defined.
End UserLifeWitness.
