(* ===== verification/TypedStreams.v ===== *)
(** * include/bintrade/ws: typed streams and handler traits

    typed_market_stream.hpp, typed_user_stream.hpp and handler_traits.hpp.
    The handler's methods are chosen at compile time: a [MarketHandler]
    says for each [requires]-expression whether the handler type has the
    method, and what it does to the state [U] the handler works on; it may
    throw.  The typed streams are compared with MarketStream and
    UserStream, whose lambdas are restated here with the user's
    [std::function]s in place; an empty one throws when called. *)

From S2P Require Import Prelude Errors CppLib CoreTypes Json RestParse WsParse WebSocketClient MarketStream UserStream BaseClient.
Import Base.

Module Typed.
Section typed.
Context `{L : JsonLib} {U : Type}.

(** A method or a callback on an argument of type [A]. *)
Definition method (A : Type) : Type := A → stM U exn ().

(** [catch (const std::exception&) {}] *)
Definition swallow (m : stM U exn ()) : stM U exn () := catch_st m (λ _, mret ()).

(** *** handler_traits.hpp *)

Record FunctionalMarketHandler : Type := {
  on_trade_fn : option (method Trade);
  on_kline_fn : option (method Kline);
  on_ticker_fn : option (method Ticker);
  on_order_book_fn : option (method OrderBook)
}.

(** [if (f) { f(x); }] *)
Definition call_if_set {A} (f : option (method A)) : method A :=
  λ x, match f with Some f => f x | None => mret () end.

Definition fn_on_trade (h : FunctionalMarketHandler) : method Trade := call_if_set (on_trade_fn h).
Definition fn_on_kline (h : FunctionalMarketHandler) : method Kline := call_if_set (on_kline_fn h).
Definition fn_on_ticker (h : FunctionalMarketHandler) : method Ticker := call_if_set (on_ticker_fn h).
Definition fn_on_order_book (h : FunctionalMarketHandler) : method OrderBook := call_if_set (on_order_book_fn h).

Record FunctionalUserHandler : Type := {
  on_order_update_fn : option (method Order);
  on_account_update_fn : option (method AccountInfo)
}.

Definition fn_on_order_update (h : FunctionalUserHandler) : method Order := call_if_set (on_order_update_fn h).
Definition fn_on_account_update (h : FunctionalUserHandler) : method AccountInfo := call_if_set (on_account_update_fn h).

(** *** typed_market_stream.hpp *)

(** The methods the [Handler] type has. *)
Record MarketHandler : Type := {
  on_trade : option (method Trade);
  on_kline : option (method Kline);
  on_ticker : option (method Ticker);
  on_order_book : option (method OrderBook)
}.

Definition to_lower : string → string := Chars.lower.

(** The lambda of [subscribe_trades]. *)
Definition trade_message (handler_ : MarketHandler) (msg : string) : stM U exn () :=
  swallow (j ← lift (json_parse msg);
           e ← lift (value_string j "e" "");
           if decide (e = "trade") then
             match on_trade handler_ with
             | Some on_trade => t ← lift (parse_trade_stream j); on_trade t
             | None => mret ()
             end
           else mret ()).

Definition kline_message (handler_ : MarketHandler) (msg : string) : stM U exn () :=
  swallow (j ← lift (json_parse msg);
           e ← lift (value_string j "e" "");
           if decide (e = "kline") then
             match on_kline handler_ with
             | Some on_kline => k ← lift (parse_kline_stream j); on_kline k
             | None => mret ()
             end
           else mret ()).

Definition ticker_message (handler_ : MarketHandler) (msg : string) : stM U exn () :=
  swallow (j ← lift (json_parse msg);
           e ← lift (value_string j "e" "");
           if decide (e = "24hrTicker") then
             match on_ticker handler_ with
             | Some on_ticker => t ← lift (parse_ticker_stream j); on_ticker t
             | None => mret ()
             end
           else mret ()).

Definition depth_message (handler_ : MarketHandler) (msg : string) : stM U exn () :=
  swallow (j ← lift (json_parse msg);
           e ← lift (value_string j "e" "");
           if decide (e = "depthUpdate") then
             match on_order_book handler_ with
             | Some on_order_book => b ← lift (parse_depth_stream j); on_order_book b
             | None => mret ()
             end
           else mret ()).

(** The stream is the base object at [a]; [res] is the text of the error
    that the first connection attempt meets, if any. *)
Definition subscribe_trades (a : addr) (h : MarketHandler) (symbol : Symbol) (res : option string)
    : stM (world U) exn () :=
  let stream_name := to_lower symbol +:+ "@trade" in
  _ ← set_message_callback a (Some (trade_message h));
  connect a ("/ws/" +:+ stream_name) res.

Definition subscribe_klines (a : addr) (h : MarketHandler) (symbol : Symbol) (interval : string) (res : option string)
    : stM (world U) exn () :=
  let stream_name := to_lower symbol +:+ "@kline_" +:+ interval in
  _ ← set_message_callback a (Some (kline_message h));
  connect a ("/ws/" +:+ stream_name) res.

Definition subscribe_ticker (a : addr) (h : MarketHandler) (symbol : Symbol) (res : option string)
    : stM (world U) exn () :=
  let stream_name := to_lower symbol +:+ "@ticker" in
  _ ← set_message_callback a (Some (ticker_message h));
  connect a ("/ws/" +:+ stream_name) res.

Definition subscribe_depth (a : addr) (h : MarketHandler) (symbol : Symbol) (res : option string)
    : stM (world U) exn () :=
  let stream_name := to_lower symbol +:+ "@depth" in
  _ ← set_message_callback a (Some (depth_message h));
  connect a ("/ws/" +:+ stream_name) res.

(** *** typed_user_stream.hpp *)

Record UserHandler : Type := {
  on_order_update : option (method Order);
  on_account_update : option (method AccountInfo)
}.

Definition do_dispatch (handler_ : UserHandler) (raw_json : string) : stM U exn () :=
  swallow (j ← lift (json_parse raw_json);
           event_type ← lift (value_string j "e" "");
           if decide (event_type = "executionReport") then
             match on_order_update handler_ with
             | Some on_order_update => o ← lift (parse_order_update j); on_order_update o
             | None => mret ()
             end
           else if decide (event_type = "outboundAccountPosition") then
             match on_account_update handler_ with
             | Some on_account_update => i ← lift (parse_account_update j); on_account_update i
             | None => mret ()
             end
           else mret ()).

(** *** The streams with [std::function] callbacks *)

(** Calling a [std::function]. *)
Definition call_fn {A} (f : option (method A)) : method A :=
  λ x, match f with Some f => f x | None => lift (Throw std_bad_function_call) end.

(** The callback of a [MarketStream] subscription on its event. *)
Definition fire (h : FunctionalMarketHandler) (ev : Market.event) : stM U exn () :=
  match ev with
  | Market.OnTrade t => call_fn (on_trade_fn h) t
  | Market.OnKline k => call_fn (on_kline_fn h) k
  | Market.OnTicker t => call_fn (on_ticker_fn h) t
  | Market.OnDepth b => call_fn (on_order_book_fn h) b
  end.

(** The lambda [dispatch_fn] of [MarketStream::subscribe_*]. *)
Definition market_lambda (sub : Market.subscription) (h : FunctionalMarketHandler) (msg : string) : stM U exn () :=
  swallow (j ← lift (json_parse msg);
           e ← lift (value_string j "e" "");
           if decide (e = Market.event_tag sub) then ev ← lift (Market.parse_event sub j); fire h ev
           else mret ()).

(** [UserStream::do_dispatch]. *)
Definition user_lambda (h : FunctionalUserHandler) (raw_json : string) : stM U exn () :=
  swallow (j ← lift (json_parse raw_json);
           event_type ← lift (value_string j "e" "");
           if decide (event_type = "executionReport") then
             match on_order_update_fn h with
             | Some order_callback => o ← lift (parse_order_update j); order_callback o
             | None => mret ()
             end
           else if decide (event_type = "outboundAccountPosition") then
             match on_account_update_fn h with
             | Some account_callback => i ← lift (parse_account_update j); account_callback i
             | None => mret ()
             end
           else mret ()).

(** *** Lemmas *)

Lemma swallow_lift {A} (m : outcome exn A) (k : A → stM U exn ()) u :
  swallow (x ← lift m; k x) u =
  match m with Ok x => swallow (k x) u | Throw _ => (Ok (), u) | Crash f => (Crash f, u) end.
Proof. by destruct m. Qed.

Lemma swallow_ret u : swallow (mret ()) u = (Ok (), u).
Proof. done. Qed.

(** An empty [std::function] and a skipped call look the same. *)
Lemma swallow_call {A} (f : option (method A)) (x : A) u :
  swallow (call_fn f x) u = swallow (call_if_set f x) u.
Proof. by destruct f. Qed.

(** *** Typed and untyped market streams *)

Definition typed_message (h : MarketHandler) (sub : Market.subscription) : string → stM U exn () :=
  match sub with
  | Market.Trades _ => trade_message h
  | Market.Klines _ _ => kline_message h
  | Market.Tickers _ => ticker_message h
  | Market.Depth _ => depth_message h
  end.

Definition typed_subscribe (a : addr) (h : MarketHandler) (sub : Market.subscription) (res : option string)
    : stM (world U) exn () :=
  match sub with
  | Market.Trades symbol => subscribe_trades a h symbol res
  | Market.Klines symbol interval => subscribe_klines a h symbol interval res
  | Market.Tickers symbol => subscribe_ticker a h symbol res
  | Market.Depth symbol => subscribe_depth a h symbol res
  end.

(** Which of the handler's methods an event is for, if it has it. *)
Definition method_for (h : MarketHandler) (ev : Market.event) : option (stM U exn ()) :=
  match ev with
  | Market.OnTrade t => (λ m, m t) <$> on_trade h
  | Market.OnKline k => (λ m, m k) <$> on_kline h
  | Market.OnTicker t => (λ m, m t) <$> on_ticker h
  | Market.OnDepth b => (λ m, m b) <$> on_order_book h
  end.

Definition has_method (h : MarketHandler) (sub : Market.subscription) : bool :=
  match sub with
  | Market.Trades _ => bool_decide (is_Some (on_trade h))
  | Market.Klines _ _ => bool_decide (is_Some (on_kline h))
  | Market.Tickers _ => bool_decide (is_Some (on_ticker h))
  | Market.Depth _ => bool_decide (is_Some (on_order_book h))
  end.

Definition run_event (k : Market.event → stM U exn ()) (r : outcome exn (option Market.event)) : stM U exn () :=
  λ u, match r with
       | Ok (Some ev) => swallow (k ev) u
       | Crash f => (Crash f, u)
       | _ => (Ok (), u)
       end.

(** The lambda of a [MarketStream] in terms of what it dispatches. *)
Lemma market_lambda_spec sub h msg u :
  market_lambda sub h msg u = run_event (fire h) (Market.dispatch_fn sub msg) u.
Proof.
  unfold market_lambda, run_event, Market.dispatch_fn, catch. rewrite swallow_lift.
  destruct (json_parse msg) as [j|e|f]; simpl; [|done|done]. rewrite swallow_lift.
  destruct (value_string j "e" "") as [e|e|f]; simpl; [|done|done]. case_decide; [|done].
  rewrite swallow_lift. by destruct (Market.parse_event sub j).
Qed.

Context {LL : JsonLaws L}.

Definition run_method (h : MarketHandler) : Market.event → stM U exn () := λ ev, from_option id (mret ()) (method_for h ev).

(** What a typed stream does with a message, from what MarketStream
    dispatches. *)
Lemma typed_message_spec h sub msg u :
  typed_message h sub msg u =
  if has_method h sub then run_event (run_method h) (Market.dispatch_fn sub msg) u else (Ok (), u).
Proof using LL.
  unfold run_event, Market.dispatch_fn, catch.
  pose proof (law_parse_total msg) as Hp.
  assert (Hv : ∀ j f, value_string j "e" "" ≠ Crash f) by (intros; apply value_string_total).
  destruct sub; unfold typed_message, trade_message, kline_message, ticker_message, depth_message, has_method;
    rewrite swallow_lift; (destruct (json_parse msg) as [j|e|f]; simpl; [|by case_match|by destruct (Hp f)]);
    rewrite swallow_lift; specialize (Hv j); (destruct (value_string j "e" "") as [e|e|f]; simpl; [|by case_match|by destruct (Hv f)]);
    case_decide; try (by case_match).
  - destruct (on_trade h) as [m|] eqn:Hm; simpl; [|done]. rewrite swallow_lift.
    destruct (parse_trade_stream j); simpl; [|done|done]. unfold run_method. simpl. by rewrite Hm.
  - destruct (on_kline h) as [m|] eqn:Hm; simpl; [|done]. rewrite swallow_lift.
    destruct (parse_kline_stream j); simpl; [|done|done]. unfold run_method. simpl. by rewrite Hm.
  - destruct (on_ticker h) as [m|] eqn:Hm; simpl; [|done]. rewrite swallow_lift.
    destruct (parse_ticker_stream j); simpl; [|done|done]. unfold run_method. simpl. by rewrite Hm.
  - destruct (on_order_book h) as [m|] eqn:Hm; simpl; [|done]. rewrite swallow_lift.
    destruct (parse_depth_stream j); simpl; [|done|done]. unfold run_method. simpl. by rewrite Hm.
Qed.

(** [TypedMarketStream<FunctionalMarketHandler>]: all methods exist. *)
Definition functional_market (h : FunctionalMarketHandler) : MarketHandler :=
  {| on_trade := Some (fn_on_trade h); on_kline := Some (fn_on_kline h);
     on_ticker := Some (fn_on_ticker h); on_order_book := Some (fn_on_order_book h) |}.

(** C28: TypedMarketStream with the functional handler does to any sequence of messages
    what MarketStream with the same functions does, for every subscription, although one
    tests for an empty function and the other catches its exception. *)
Theorem typed_market_equivalent h sub msgs u :
  deliver_all (typed_message (functional_market h) sub) msgs u = deliver_all (market_lambda sub h) msgs u.
Proof using LL.
  apply deliver_all_ext. intros msg u1. rewrite typed_message_spec, market_lambda_spec.
  assert (has_method (functional_market h) sub = true) as -> by (by destruct sub).
  unfold run_event. destruct (Market.dispatch_fn sub msg) as [[ev|]| |]; [|done|done|done].
  destruct ev; symmetry; apply swallow_call.
Qed.

(** The object after the constructor. *)
Definition constructed (cfg : WebSocketConfig) : Impl U := MkImpl cfg Wss.make None None None None true.

Lemma typed_subscribe_connects a h sub cfg u :
  typed_subscribe a h sub None (World {[a := Some (constructed cfg)]} u) =
  (Ok (), World {[a := Some (live_impl a cfg (typed_message h sub) ("/ws/" +:+ Market.stream_name sub))]} u).
Proof.
  destruct sub; unfold typed_subscribe, subscribe_trades, subscribe_klines, subscribe_ticker, subscribe_depth,
    set_message_callback, connect, do_connect, store, mbind, stM_bind, deref, lift, put; cbn [objs user];
    rewrite lookup_singleton_eq; cbn [objs user]; rewrite lookup_insert_eq; simpl;
    by rewrite !insert_singleton_eq.
Qed.

(** A typed market stream, from the socket to the handler: after a successful
    subscription the handler's method runs on exactly the events of the messages read,
    in order, and not at all if the handler type lacks the method. *)
Theorem typed_market_end_to_end a h sub cfg u w acts w' :
  typed_subscribe a h sub None (World {[a := Some (constructed cfg)]} u) = (Ok (), w) →
  run step w acts w' → Forall (client_action a) acts →
  deliver_all (λ msg, if has_method h sub then run_event (run_method h) (Market.dispatch_fn sub msg) else mret ())
    (omap text_read acts) u = (Ok (), user w').
Proof using LL.
  rewrite typed_subscribe_connects. intros [= <-] Hr Hacts.
  rewrite (deliver_all_ext _ (typed_message h sub))
    by (intros msg u1; rewrite typed_message_spec; by destruct (has_method h sub)).
  apply (messages_delivered a (live_impl a cfg (typed_message h sub) ("/ws/" +:+ Market.stream_name sub))
           (typed_message h sub)) in Hr;
    try done.
  - split_and!; [done | by left | by right].
  - eexists. split; [apply lookup_singleton_eq | done].
Qed.

(** *** Typed and untyped user streams *)

Definition functional_user (h : FunctionalUserHandler) : UserHandler :=
  {| on_order_update := Some (fn_on_order_update h); on_account_update := Some (fn_on_account_update h) |}.

Lemma user_times_only f j :
  f ≠ ub_signed_overflow → no_crash f (parse_order_update j) ∧ no_crash f (parse_account_update j).
Proof using LL.
  intros Hf. assert (no_crash f (each_if_present parse_balance_update j "B"))
    by (apply each_if_present_no_crash; intros; apply balance_update_no_crash).
  pose proof (stod_value_no_crash f) as ?. pose proof (λ j k, time_value_no_crash f j k Hf) as ?.
  unfold parse_order_update, parse_account_update. split; no_crash_walk.
Qed.

(** C29: TypedUserStream's dispatch with the functional handler does what UserStream's
    dispatch with the same callbacks does, on every message whose times are within the
    clock's range. *)
Theorem typed_user_equivalent h raw_json u :
  (∀ j, json_parse raw_json = Ok j →
     no_crash ub_signed_overflow (parse_order_update j) ∧ no_crash ub_signed_overflow (parse_account_update j)) →
  do_dispatch (functional_user h) raw_json u = user_lambda h raw_json u.
Proof using LL.
  intros Htime. unfold do_dispatch, user_lambda. rewrite !swallow_lift.
  destruct (json_parse raw_json) as [j|e|f]; [|done|done]. rewrite !swallow_lift.
  destruct (value_string j "e" "") as [e|e|f]; [|done|done].
  assert (Hdef : ∀ f, no_crash f (parse_order_update j) ∧ no_crash f (parse_account_update j)).
  { intros f. destruct (decide (f = ub_signed_overflow)) as [->|]; [by apply Htime | by apply user_times_only]. }
  case_decide; [|case_decide; [|done]]; simpl; unfold fn_on_order_update, fn_on_account_update; rewrite swallow_lift.
  - destruct (parse_order_update j) as [o|x|f] eqn:Ho; [| |by destruct (proj1 (Hdef f))];
      destruct (on_order_update_fn h); rewrite ?swallow_lift, ?Ho; done.
  - destruct (parse_account_update j) as [o|x|f] eqn:Ho; [| |by destruct (proj2 (Hdef f))];
      destruct (on_account_update_fn h); rewrite ?swallow_lift, ?Ho; done.
Qed.

(** The handler's method on an event of the user stream. *)
Definition run_user (h : UserHandler) (r : outcome exn (option User.event)) : stM U exn () :=
  match r with
  | Ok (Some (User.OnOrder o)) => swallow (from_option (λ f, f o) (mret ()) (on_order_update h))
  | Ok (Some (User.OnAccount i)) => swallow (from_option (λ f, f i) (mret ()) (on_account_update h))
  | Ok None => mret ()
  | Throw e => lift (Throw e)
  | Crash f => lift (Crash f)
  end.

(** [if constexpr (requires ...)] is to the handler's type what the empty
    test is to the callbacks of UserStream. *)
Definition user_events (h : UserHandler) : string → outcome exn (option User.event) :=
  User.do_dispatch (bool_decide (is_Some (on_order_update h))) (bool_decide (is_Some (on_account_update h))).

Lemma typed_dispatch_spec h raw_json u : do_dispatch h raw_json u = run_user h (user_events h raw_json) u.
Proof.
  unfold do_dispatch, user_events, User.do_dispatch. rewrite swallow_lift.
  destruct (json_parse raw_json) as [j|e|f]; [|done|done]. simpl. rewrite swallow_lift.
  destruct (value_string j "e" "") as [e|e|f]; [|done|done]. simpl.
  case_decide; [|case_decide; [|apply swallow_ret]].
  - destruct (on_order_update h) as [m|] eqn:Hm; simpl; [|apply swallow_ret]. rewrite swallow_lift.
    destruct (parse_order_update j); simpl; rewrite ?Hm; done.
  - destruct (on_account_update h) as [m|] eqn:Hm; simpl; [|apply swallow_ret]. rewrite swallow_lift.
    destruct (parse_account_update j); simpl; rewrite ?Hm; done.
Qed.

(** A typed user stream in Inline mode, from the socket to the handler: the handler's
    methods run on exactly the events of the messages read, in order, and only those its
    type has. *)
Theorem typed_user_end_to_end a h path cfg u acts w' :
  run step (World {[a := Some (live_impl a cfg (do_dispatch h) path)]} u) acts w' → Forall (client_action a) acts →
  deliver_all (λ msg, run_user h (user_events h msg)) (omap text_read acts) u = (Ok (), user w').
Proof.
  intros Hr Hacts. rewrite (deliver_all_ext _ (do_dispatch h)) by (intros msg u1; by rewrite typed_dispatch_spec).
  apply (messages_delivered a (live_impl a cfg (do_dispatch h) path) (do_dispatch h)) in Hr; try done.
  - split_and!; [done | by left | by right].
  - eexists. split; [apply lookup_singleton_eq | done].
Qed.
End typed.

Arguments MarketHandler : clear implicits.
Arguments UserHandler : clear implicits.
Arguments FunctionalMarketHandler : clear implicits.
Arguments FunctionalUserHandler : clear implicits.
End Typed.

(** ** Examples *)
Module TypedWitness.
Import Tree Typed.

Definition trade_msg : string := quoted "{'e':'trade','t':1,'p':'4','q':'2','T':5,'m':true}".
Definition ticker_msg : string := quoted "{'e':'24hrTicker','s':'BTCUSDT','c':'4','E':5}".

(** A handler that counts trades and has no other method. *)
Definition counting : MarketHandler nat :=
  {| on_trade := Some (λ _ n, (Ok (), S n)); on_kline := None; on_ticker := None; on_order_book := None |}.

Definition sub : Market.subscription := Market.Trades "BTCUSDT".

Definition session : list (action nat) :=
  [Io 3 (Wss.ReadText trade_msg); Io 3 (Wss.ReadText ticker_msg); Io 3 (Wss.ReadText trade_msg)].

Definition subscribed : world nat :=
  World {[3 := Some (live_impl 3 WebSocketConfig_default (typed_message (L := TreeJson) counting sub) "/ws/btcusdt@trade")]} 0.

Lemma typed_market_end_to_end_witness :
  ∃ w', run step subscribed session w' ∧ user w' = 2.
Proof.
  assert (Hs : user <$> exec_all session subscribed = Some 2) by (vm_compute; reflexivity).
  destruct (exec_all session subscribed) as [w'|] eqn:Hw; [clear Hs | discriminate Hs].
  apply base_exec_run in Hw. exists w'. split; [exact Hw|].
  pose proof (typed_market_end_to_end (L := TreeJson) 3 counting sub WebSocketConfig_default 0 subscribed session w') as H.
  specialize (H (typed_subscribe_connects 3 counting sub WebSocketConfig_default 0) Hw ltac:(repeat constructor)).
  revert H. generalize (user w'). intros n H. vm_compute in H. congruence.
Defined.

(** Two callbacks set, two empty. *)
Definition functions : FunctionalMarketHandler nat :=
  {| on_trade_fn := Some (λ _ n, (Ok (), S n)); on_kline_fn := None;
     on_ticker_fn := Some (λ _ n, (Throw std_bad_function_call, n)); on_order_book_fn := None |}.

Lemma typed_market_equivalent_witness :
  deliver_all (typed_message (functional_market functions) sub) [trade_msg; "noise"] 5 = (Ok (), 6) ∧
  deliver_all (market_lambda (L := TreeJson) sub functions) [trade_msg; "noise"] 5 = (Ok (), 6).
Proof.
  split; [|vm_compute; reflexivity].
  rewrite (typed_market_equivalent (L := TreeJson) functions sub [trade_msg; "noise"] 5). vm_compute. reflexivity.
Defined.

Definition orders : FunctionalUserHandler nat :=
  {| on_order_update_fn := Some (λ _ n, (Ok (), S n)); on_account_update_fn := None |}.

Lemma typed_user_equivalent_witness :
  do_dispatch (L := TreeJson) (functional_user orders) UserWitness.report_msg 0 =
  user_lambda (L := TreeJson) orders UserWitness.report_msg 0.
Proof.
  apply (typed_user_equivalent (L := TreeJson)). intros j Hj. vm_compute in Hj. injection Hj as <-.
  split; vm_compute; discriminate.
Defined.
End TypedWitness.
