(* ===== verification/KeepAlive.v ===== *)
(** * The keep-alive thread of src/ws/user_stream.cpp

    The thread that [start] creates and the part of [stop] that ends it,
    one synchronisation operation per step: the mutex, the condition
    variable with timeouts and spurious wake-ups, the flag.  A wait on the
    condition variable releases the mutex and sleeps in one step; a notify
    wakes the sleeper.  Time is in nanoseconds of the steady clock and
    passes in steps of its own.  [keep_alive()] itself is
    [User.keep_alive]; here it takes time and returns or throws. *)

From S2P Require Import Prelude.
Local Open Scope Z_scope.

Module KeepAlive.

(** [k_interval = std::chrono::minutes{25}] *)
Definition minutes (m : Z) : Z := m * 60 * 1000000000.
Definition k_interval : Z := minutes 25.

Inductive owner : Type := ByThread | ByStop.

(** Where the thread is. *)
Inductive kpc : Type :=
| KStart                            (* unique_lock lk(keep_alive_mutex_) *)
| KTest                             (* while (!stop_keep_alive_) *)
| KPred (wakeup : Z)                (* the predicate of wait_until *)
| KAsleep (wakeup : Z)              (* in the wait, without the mutex *)
| KWoken (wakeup : Z) (timeout : bool)   (* taking the mutex again *)
| KBack (wakeup : Z) (timeout : bool)    (* back with the mutex *)
| KRenew                            (* keep_alive(), without the mutex *)
| KRelock                           (* lk.lock() *)
| KDone.

(** Where [stop] is. *)
Inductive spc : Type := SIdle | SLock | SSet | SUnlock | SNotify | SJoin | SDone.

#[global] Instance owner_eq_dec : EqDecision owner.
Proof. solve_decision. Defined.
#[global] Instance kpc_eq_dec : EqDecision kpc.
Proof. solve_decision. Defined.
#[global] Instance spc_eq_dec : EqDecision spc.
Proof. solve_decision. Defined.

Record state : Type := State {
  thread : kpc;
  stopper : spc;
  mutex : option owner;
  stop_keep_alive_ : bool;
  now : Z;
  sent : list Z;          (* when requests for the key began, newest first *)
  terminated : bool       (* keep_alive() threw on the thread *)
}.

Inductive label : Type := Thread | Stop | Time (d : Z).

Definition set_thread (k : kpc) (m : option owner) (s : state) : state :=
  State k (stopper s) m (stop_keep_alive_ s) (now s) (sent s) (terminated s).
Definition set_stopper (p : spc) (m : option owner) (s : state) : state :=
  State (thread s) p m (stop_keep_alive_ s) (now s) (sent s) (terminated s).

(** [keep_alive_cv_.notify_one()] *)
Definition notify (k : kpc) : kpc := match k with KAsleep w => KWoken w false | _ => k end.

Inductive sync : state → label → state → Prop :=
| k_start s : thread s = KStart → mutex s = None → sync s Thread (set_thread KTest (Some ByThread) s)
| k_exit s : thread s = KTest → stop_keep_alive_ s = true → sync s Thread (set_thread KDone None s)
| k_wait s : thread s = KTest → stop_keep_alive_ s = false →
    sync s Thread (set_thread (KPred (now s + k_interval)) (mutex s) s)
| k_pred_true s w : thread s = KPred w → stop_keep_alive_ s = true → sync s Thread (set_thread KTest (mutex s) s)
| k_sleep s w : thread s = KPred w → stop_keep_alive_ s = false → sync s Thread (set_thread (KAsleep w) None s)
| k_timeout s w : thread s = KAsleep w → w ≤ now s → sync s Thread (set_thread (KWoken w true) (mutex s) s)
| k_spurious s w : thread s = KAsleep w → sync s Thread (set_thread (KWoken w false) (mutex s) s)
| k_reacquire s w t : thread s = KWoken w t → mutex s = None →
    sync s Thread (set_thread (KBack w t) (Some ByThread) s)
| k_again s w : thread s = KBack w false → sync s Thread (set_thread (KPred w) (mutex s) s)
| k_stopped s w : thread s = KBack w true → stop_keep_alive_ s = true → sync s Thread (set_thread KTest (mutex s) s)
| k_renew s w : thread s = KBack w true → stop_keep_alive_ s = false →
    sync s Thread (State KRenew (stopper s) None (stop_keep_alive_ s) (now s) (now s :: sent s) (terminated s))
| k_renewed s : thread s = KRenew → sync s Thread (set_thread KRelock (mutex s) s)
| k_throws s : thread s = KRenew →
    sync s Thread (State KRenew (stopper s) (mutex s) (stop_keep_alive_ s) (now s) (sent s) true)
| k_relock s : thread s = KRelock → mutex s = None → sync s Thread (set_thread KTest (Some ByThread) s)
| s_call s : stopper s = SIdle → sync s Stop (set_stopper SLock (mutex s) s)
| s_lock s : stopper s = SLock → mutex s = None → sync s Stop (set_stopper SSet (Some ByStop) s)
| s_set s : stopper s = SSet →
    sync s Stop (State (thread s) SUnlock (mutex s) true (now s) (sent s) (terminated s))
| s_unlock s : stopper s = SUnlock → sync s Stop (set_stopper SNotify None s)
| s_notify s : stopper s = SNotify →
    sync s Stop (State (notify (thread s)) SJoin (mutex s) (stop_keep_alive_ s) (now s) (sent s) (terminated s))
| s_join s : stopper s = SJoin → thread s = KDone → sync s Stop (set_stopper SDone (mutex s) s)
| time_passes s d : 0 ≤ d →
    sync s (Time d) (State (thread s) (stopper s) (mutex s) (stop_keep_alive_ s) (now s + d) (sent s) (terminated s)).

(** [std::terminate] ends everything. *)
Definition step (s : state) (l : label) (s' : state) : Prop := terminated s = false ∧ sync s l s'.

(** [start] has created the thread; the key was requested at [created]. *)
Definition init (created start : Z) : state := State KStart SIdle None false start [created] false.

(** *** The protocol *)

Definition thread_holds (k : kpc) : bool :=
  match k with KTest | KPred _ | KBack _ _ => true | _ => false end.
Definition stop_holds (p : spc) : bool := match p with SSet | SUnlock => true | _ => false end.
(** The flag is set from [SUnlock] on. *)
Definition flag_set (p : spc) : bool := match p with SIdle | SLock | SSet => false | _ => true end.
(** A sleeping thread will still be notified. *)
Definition will_notify (p : spc) : bool := match p with SJoin | SDone => false | _ => true end.

Record protocol (s : state) : Prop := {
  p_thread : thread_holds (thread s) = bool_decide (mutex s = Some ByThread);
  p_stop : stop_holds (stopper s) = bool_decide (mutex s = Some ByStop);
  p_flag : stop_keep_alive_ s = flag_set (stopper s);
  p_awake : ∀ w, thread s = KAsleep w → will_notify (stopper s) = true;
  p_done : stopper s = SDone → thread s = KDone
}.

Lemma protocol_init created start : protocol (init created start).
Proof. by constructor. Qed.

Lemma protocol_step s l s' : protocol s → step s l s' → protocol s'.
Proof.
  intros [Ht Hs Hf Ha Hd] [_ Hst]. destruct s as [k p m f t snt term]; simpl in *.
  inversion Hst; subst; simpl in *; subst; simpl in *; constructor; simpl in *;
    repeat case_bool_decide; try done; try (by destruct p); try (by destruct m as [[]|]); try (by destruct k);
    naive_solver.
Qed.

Lemma protocol_run created start tr s : run step (init created start) tr s → protocol s.
Proof.
  revert tr s. apply (run_invariant step (λ _ s, protocol s));
    [apply protocol_init | eauto using protocol_step].
Qed.

(** *** Stopping *)

(** How many more steps the thread takes once the flag is set. *)
Definition steps_left (k : kpc) : nat :=
  match k with
  | KDone => 0 | KTest => 1 | KPred _ | KBack _ true | KRelock | KStart => 2
  | KBack _ false | KWoken _ true | KRenew => 3 | KWoken _ false => 4 | KAsleep _ => 5
  end.

Definition is_thread (l : label) : bool := match l with Thread => true | _ => false end.
Definition thread_steps (tr : list label) : nat := length (filter is_thread tr).

Lemma flagged_progress s :
  protocol s → stopper s = SJoin → terminated s = false → thread s = KDone ∨ ∃ s', step s Thread s'.
Proof.
  intros [Ht Hs Hf Ha Hd] Hj Hterm. rewrite Hj in *. simpl in *.
  destruct (mutex s) as [[]|] eqn:Hm; simpl in *; [|done|];
    destruct (thread s) as [| |w|w|w t|w t| | |] eqn:Hk; simpl in *; try done; try (by left);
    try (by specialize (Ha w eq_refl)); right.
  - eexists. split; [done|]. by apply k_exit.
  - eexists. split; [done|]. by eapply k_pred_true.
  - destruct t; eexists; (split; [done|]); [by eapply k_stopped | by eapply k_again].
  - eexists. split; [done|]. by apply k_start.
  - eexists. split; [done|]. by eapply k_reacquire.
  - eexists. split; [done|]. by eapply k_renewed.
  - eexists. split; [done|]. by apply k_relock.
Qed.

Lemma flagged_step s l s' :
  protocol s → stopper s = SJoin ∨ stopper s = SDone → step s l s' → terminated s' = false →
  (stopper s' = SJoin ∨ stopper s' = SDone) ∧
  ((if is_thread l then 1 else 0) + steps_left (thread s') ≤ steps_left (thread s))%nat.
Proof.
  intros [Ht Hs Hf Ha Hd] Hj [_ Hst] Hterm. destruct s as [k p m f t snt term]; simpl in *.
  assert (f = true) as -> by (destruct Hj as [-> | ->]; done).
  inversion Hst; subst; simpl in *; subst; simpl in *; try done; try (by destruct Hj); try (split; [by auto|lia]);
    try (split; [by auto|by destruct t0; simpl; lia]).
  all: exfalso; destruct Hj as [-> | ->]; by specialize (Ha w eq_refl).
Qed.

(** C21: When stop has set the flag and notified, the keep-alive thread takes at most
    four more steps, can always take one until it has finished, and then the join
    returns: no notification is lost and no deadlock arises, whatever timeouts and
    spurious wake-ups happen. *)
Theorem stop_joins_keep_alive created start tr s tr' s' :
  run step (init created start) tr s → stopper s = SJoin →
  run step s tr' s' → terminated s' = false →
  (thread_steps tr' ≤ 4)%nat ∧
  (stopper s' = SJoin → thread s' = KDone ∨ ∃ s'', step s' Thread s'') ∧
  (thread s' = KDone → stopper s' = SJoin → ∃ s'', step s' Stop s'') ∧
  (stopper s' = SDone → thread s' = KDone).
Proof.
  intros Hr Hj Hr' Hterm.
  assert (Hprot : protocol s') by (eapply protocol_run, run_app; done).
  assert (Hbound : (thread_steps tr' + steps_left (thread s') ≤ steps_left (thread s))%nat).
  { assert (H : terminated s' = false → (stopper s' = SJoin ∨ stopper s' = SDone) ∧
                (thread_steps tr' + steps_left (thread s') ≤ steps_left (thread s))%nat); [|by apply H].
    clear Hterm Hprot. revert tr' s' Hr'.
    apply (run_invariant step (λ tr' s', terminated s' = false → _)); [intros _; split; [by left | done]|].
    intros tr' s1 l s2 Hr1 IH Hst Hterm. assert (Ht1 : terminated s1 = false) by apply Hst.
    destruct (IH Ht1) as [Hj1 Hb1].
    destruct (flagged_step s1 l s2) as [Hj2 Hb2]; [eapply protocol_run, run_app; done | done | done | done |].
    split; [done|]. unfold thread_steps in *. rewrite filter_app, length_app.
    assert (length (filter is_thread [l]) = if is_thread l then 1 else 0)%nat as -> by (by destruct l). lia. }
  split_and!.
  - assert (steps_left (thread s) ≤ 4)%nat; [|lia].
    destruct (thread s) eqn:Hk; simpl; try lia; [|by destruct timeout; lia..].
    exfalso. pose proof (p_awake s (protocol_run _ _ _ _ Hr) _ Hk) as Hn. by rewrite Hj in Hn.
  - intros Hj'. by apply flagged_progress.
  - intros Hk Hj'. eexists. split; [done|]. by apply s_join.
  - apply (p_done s' Hprot).
Qed.

(** *** Spacing of the renewals *)

(** Time passes only while the thread sleeps, up to its deadline, or
    renews, for at most [R]: the thread is scheduled when it can run. *)
Section spacing.
Context (R : Z).

Definition last_sent (s : state) : Z := default 0 (head (sent s)).

Definition may_pass (s : state) (d : Z) : Prop :=
  match thread s with
  | KAsleep w => now s + d ≤ w
  | KRenew => now s + d ≤ last_sent s + R
  | KDone => True
  | _ => d = 0
  end.

Definition prompt_step (s : state) (l : label) (s' : state) : Prop :=
  step s l s' ∧ match l with Time d => may_pass s d | _ => True end.

(** Consecutive requests are at least [lo] and at most [hi] apart. *)
Fixpoint spaced (lo hi : Z) (l : list Z) : Prop :=
  match l with
  | y :: (x :: _) as rest => lo ≤ y - x ≤ hi ∧ spaced lo hi rest
  | _ => True
  end.

Definition on_time (s : state) : Prop :=
  match thread s with
  | KStart | KTest | KRenew | KRelock => last_sent s ≤ now s ≤ last_sent s + R
  | KPred w | KAsleep w | KWoken w false | KBack w false =>
      now s ≤ w ∧ last_sent s + k_interval ≤ w ≤ last_sent s + R + k_interval
  | KWoken w true | KBack w true => now s = w ∧ last_sent s + k_interval ≤ w ≤ last_sent s + R + k_interval
  | KDone => True
  end.

Record timing (s : state) : Prop := {
  t_on_time : stop_keep_alive_ s = false → on_time s;
  t_sent : sent s ≠ [];
  t_spaced : spaced k_interval (k_interval + R) (sent s)
}.

Lemma spaced_cons x l :
  l ≠ [] → k_interval ≤ x - default 0 (head l) ≤ k_interval + R →
  spaced k_interval (k_interval + R) l → spaced k_interval (k_interval + R) (x :: l).
Proof. destruct l as [|y l]; [done|]. done. Qed.

Lemma timing_step s l s' : 0 ≤ R → timing s → prompt_step s l s' → timing s'.
Proof.
  intros HR [Hot Hne Hsp] [[_ Hst] Hp]. destruct s as [k p m f t snt term]; simpl in *.
  unfold on_time, may_pass, last_sent in *. simpl in *.
  inversion Hst; subst; simpl in *; subst; constructor; simpl in *; try done; unfold on_time, last_sent; simpl;
    try (intros; specialize (Hot eq_refl) || specialize (Hot ltac:(done)); unfold k_interval, minutes in *; simpl in *; lia).
  - apply (spaced_cons t snt); [done | | done]. specialize (Hot eq_refl). lia.
  - intros Hf. specialize (Hot Hf). destruct k as [| |w|w|w []|w []| | |]; simpl in *; done.
  - intros Hf. specialize (Hot Hf). destruct k as [| |w|w|w []|w []| | |]; simpl in *; lia.
Qed.

Lemma timing_run created start tr s :
  0 ≤ R → created ≤ start ≤ created + R → run prompt_step (init created start) tr s → timing s.
Proof.
  intros HR Hs. revert tr s. apply (run_invariant prompt_step (λ _ s, timing s)).
  - constructor; [intros _; unfold on_time, last_sent; simpl; lia | done | done].
  - eauto using timing_step.
Qed.

End spacing.
End KeepAlive.

(** ** Examples *)
Module KeepAliveWitness.
Import KeepAlive.

Lemma sync_eq s l s1 s2 : sync s l s1 → s1 = s2 → sync s l s2.
Proof. by intros ? <-. Qed.

(** [stop] is called while the thread sleeps. *)
Definition asleep (w : Z) : state := State (KAsleep w) SIdle None false 0 [0] false.

Lemma to_asleep : run step (init 0 0) [Thread; Thread; Thread] (asleep k_interval).
Proof.
  eapply run_cons; [split; [done | by apply k_start]|].
  eapply run_cons; [split; [done | by apply k_wait]|].
  apply run_one. split; [done|]. eapply sync_eq; [by apply (k_sleep _ k_interval) | reflexivity].
Qed.

(** [stop] has notified and joins. *)
Definition joining : state := State (KWoken k_interval false) SJoin None true 0 [0] false.

Lemma to_joining : run step (asleep k_interval) [Stop; Stop; Stop; Stop; Stop] joining.
Proof.
  eapply run_cons; [split; [done | by apply s_call]|].
  eapply run_cons; [split; [done | by apply s_lock]|].
  eapply run_cons; [split; [done | by apply s_set]|].
  eapply run_cons; [split; [done | by apply s_unlock]|].
  apply run_one. split; [done|]. eapply sync_eq; [by apply s_notify | reflexivity].
Qed.

Lemma stop_joins_keep_alive_witness :
  run step (init 0 0) ([Thread; Thread; Thread] ++ [Stop; Stop; Stop; Stop; Stop]) joining ∧
  ∃ s', step joining Thread s'.
Proof.
  assert (Hr : run step (init 0 0) ([Thread; Thread; Thread] ++ [Stop; Stop; Stop; Stop; Stop]) joining)
    by (eapply run_app; [exact to_asleep | exact to_joining]).
  split; [exact Hr|].
  destruct (stop_joins_keep_alive 0 0 _ joining [] joining Hr eq_refl (run_nil _ _) eq_refl) as (_ & Hp & _).
  destruct (Hp eq_refl) as [Hd|Hs]; [discriminate Hd | exact Hs].
Defined.

(** A first renewal after 25 minutes that takes two. *)
Definition renewing : state := State KRenew SIdle None false (k_interval + minutes 2) [k_interval; 0] false.

Lemma to_renewing :
  run (prompt_step (minutes 2)) (init 0 0)
    [Thread; Thread; Thread; Time k_interval; Thread; Thread; Thread; Time (minutes 2)] renewing.
Proof.
  eapply run_cons; [split; [split; [done | by apply k_start] | done]|].
  eapply run_cons; [split; [split; [done | by apply k_wait] | done]|].
  eapply run_cons; [split; [split; [done | by eapply (k_sleep _ k_interval)] | done]|].
  eapply run_cons; [split; [split; [done | by apply (time_passes _ k_interval)] | done]|].
  eapply run_cons; [split; [split; [done | by eapply (k_timeout _ k_interval)] | done]|].
  eapply run_cons; [split; [split; [done | by eapply (k_reacquire _ k_interval true)] | done]|].
  eapply run_cons; [split; [split; [done | by eapply (k_renew _ k_interval)] | done]|].
  apply run_one. split; [split; [done|] | done]. eapply sync_eq; [by apply (time_passes _ (minutes 2)) | reflexivity].
Qed.

End KeepAliveWitness.
