(* ===== verification/Conformance.v ===== *)
(** * The unit tests of the repository, evaluated on the model

    tests/unit holds what the authors expect of the code.  Each example
    below runs a definition of this library on the input of one of those
    tests (the fixtures of tests/fixtures/binance_responses.hpp are copied
    as they are) and compares the result with the expected one.  [dec m k]
    is the double nearest to m / 10^k, as the compiler reads a literal. *)

From Stdlib Require Import SpecFloat.
From S2P Require Import Prelude Errors CppLib Query CoreTypes Json RestParse Auth Hmac HttpClient RestClient SubClients WsParse MarketStream UserStream.
Import Tree HttpWitness RestWitness.
Local Open Scope Z_scope.

Module Conformance.

Definition of_int (z : Z) : Dbl.double := binary_normalize 53 1024 z 0 false.
Definition dec (m k : Z) : Dbl.double := SFdiv 53 1024 (of_int m) (of_int (10 ^ k)).

(** Milliseconds of the tests as nanoseconds of [Timestamp]. *)
Definition ms (t : Z) : Timestamp := t * 1000000.

Definition on {A} (f : json → outcome exn A) (text : string) : outcome exn A := j ← json_parse (quoted text); f j.

Definition api_code {A} (r : outcome exn A) : option Z :=
  match r with Throw (bt e) => http_code e | _ => None end.

(** ** tests/unit/core/types_test.cpp *)

Example side_from_string_test :
  side_from_string "BUY" = Ok Buy ∧ side_from_string "SELL" = Ok Sell ∧
  is_Ok (side_from_string "INVALID") = false ∧ is_Ok (side_from_string "") = false ∧
  is_Ok (side_from_string "Buy") = false ∧ is_Ok (side_from_string "sell") = false.
Proof. vm_compute. done. Qed.

(** ** tests/unit/rest/detail/json_parse_test.cpp *)

(** CheckApiErrorTest and ParseResponseTest *)
Example check_api_error_test :
  on (check_api_error 200) "{'code': 0, 'msg': 'success'}" = Ok () ∧
  on (check_api_error 400) "{'code': -1100, 'msg': 'Illegal characters found in parameter'}" =
    Throw (bt (ApiException (-1100) "Illegal characters found in parameter")) ∧
  api_code (on (check_api_error 401) "{'code': -2014, 'msg': 'API-key format invalid.'}") = Some (-2014) ∧
  on (check_api_error 400) "{'code': -1100}" = Ok () ∧ on (check_api_error 400) "{'msg': 'error'}" = Ok ().
Proof. vm_compute. done. Qed.

Example parse_response_test :
  (j ← parse_response 200 (quoted "{'serverTime': 1234567890000}"); value_i64 j "serverTime" 0) = Ok 1234567890000 ∧
  is_Ok (parse_response 200 "") = true ∧ is_Some (api_code (parse_response 400 "")) ∧
  api_code (parse_response 400 (quoted "{'code': -1121, 'msg': 'Invalid symbol.'}")) = Some (-1121).
Proof. vm_compute. split_and!; [done | done | by eexists | done]. Qed.

(** ParseTickerTest *)
Example parse_ticker_test :
  on parse_ticker "{'symbol': 'BTCUSDT', 'price': '42000.00000000'}" =
    Ok {| tk_symbol := "BTCUSDT"; tk_price := dec 42000 0; tk_time := 0 |} ∧
  on parse_ticker "{}" = Ok {| tk_symbol := ""; tk_price := dec 0 0; tk_time := 0 |} ∧
  on parse_ticker "{'symbol': 'XRPBTC', 'price': '0.00002345'}" =
    Ok {| tk_symbol := "XRPBTC"; tk_price := dec 2345 8; tk_time := 0 |}.
Proof. vm_compute. done. Qed.

(** ParseTicker24hTest *)
Example parse_ticker_24h_test :
  on parse_ticker_24h "{'symbol': 'BNBBTC', 'priceChange': '0.00015000', 'priceChangePercent': '0.150', 'openPrice': '0.09900000', 'highPrice': '0.10200000', 'lowPrice': '0.09880000', 'lastPrice': '0.10015000', 'volume': '12345.60000000', 'quoteVolume': '1234.56789000', 'openTime': 1499040000000, 'closeTime': 1499126400000, 'count': 10000}" =
  Ok {| t24_symbol := "BNBBTC"; t24_open := dec 99 3; t24_high := dec 102 3; t24_low := dec 988 4;
        t24_close := dec 10015 5; t24_volume := dec 123456 1; t24_quote_volume := dec 123456789 5;
        t24_open_time := ms 1499040000000; t24_close_time := ms 1499126400000; t24_num_trades := 10000;
        t24_price_change := dec 15 5; t24_price_change_percent := dec 15 2 |}.
Proof. vm_compute. reflexivity. Qed.

(** ParseOrderBookTest *)
Example parse_order_book_test :
  on (λ j, parse_order_book j "ETHBTC")
     "{'lastUpdateId': 1027024, 'bids': [['4.00000000', '431.00000000']], 'asks': [['4.00000200', '12.00000000']]}" =
  Ok {| ob_symbol := "ETHBTC"; last_update_id := 1027024;
        bids := [{| obe_price := dec 4 0; obe_quantity := dec 431 0 |}];
        asks := [{| obe_price := dec 4000002 6; obe_quantity := dec 12 0 |}] |}.
Proof. vm_compute. reflexivity. Qed.

(** ParseTradeTest *)
Example parse_trade_test :
  on parse_trade "{'id': 28457, 'price': '4.00000100', 'qty': '12.00000000', 'quoteQty': '48.00001200', 'time': 1499865549590, 'isBuyerMaker': true}" =
  Ok {| t_id := 28457; t_order_id := 0; t_price := dec 4000001 6; t_qty := dec 12 0; t_quote_qty := dec 48000012 6;
        t_time := ms 1499865549590; t_is_buyer := true; t_is_maker := true |}.
Proof. vm_compute. reflexivity. Qed.

(** ParseKlineTest *)
Example parse_kline_test :
  on parse_kline "[1499040000000, '0.01634790', '0.80000000', '0.01575800', '0.01577100', '148976.11427815', 1499644799999, '2434.19055334', 308]" =
  Ok {| k_open_time := ms 1499040000000; k_open := dec 1634790 8; k_high := dec 8 1; k_low := dec 15758 6;
        k_close := dec 15771 6; k_volume := dec 14897611427815 8; k_close_time := ms 1499644799999;
        k_quote_volume := dec 243419055334 8; k_num_trades := 308 |}.
Proof. vm_compute. reflexivity. Qed.

(** ParseOrderTest *)
Example parse_order_test :
  on parse_order "{'symbol': 'LTCBTC', 'orderId': 1, 'clientOrderId': 'myOrder1', 'price': '0.1', 'origQty': '1.0', 'executedQty': '0.0', 'cummulativeQuoteQty': '0.0', 'status': 'NEW', 'timeInForce': 'GTC', 'type': 'LIMIT', 'side': 'BUY', 'time': 1499827319559, 'updateTime': 1499827319559}" =
  Ok {| o_symbol := "LTCBTC"; o_order_id := 1; o_client_order_id := "myOrder1"; o_price := dec 1 1;
        o_orig_qty := dec 1 0; o_executed_qty := dec 0 0; o_cummulative_quote_qty := dec 0 0; o_status := New;
        o_time_in_force := GTC; o_type := Limit; o_side := Buy; o_time := ms 1499827319559;
        o_update_time := ms 1499827319559 |}.
Proof. vm_compute. reflexivity. Qed.

Example parse_order_defaults_test :
  on parse_order "{}" =
  Ok {| o_symbol := ""; o_order_id := 0; o_client_order_id := ""; o_price := dec 0 0;
        o_orig_qty := dec 0 0; o_executed_qty := dec 0 0; o_cummulative_quote_qty := dec 0 0; o_status := New;
        o_time_in_force := GTC; o_type := Limit; o_side := Buy; o_time := 0; o_update_time := 0 |}.
Proof. vm_compute. reflexivity. Qed.

(** ** tests/unit/rest/client_test.cpp *)

Definition response (status : Z) (text : string) (hs : Params) : Exec.HttpResponse :=
  {| Exec.status_code := status; Exec.body := quoted text; Exec.headers := hs |}.

(** ClientPingTest and ClientServerTimeTest *)
Example ping_test :
  (Client.ping (anonymous (response 200 "{}" []))).1 = Ok true ∧
  (Client.ping (anonymous (response 503 "" []))).1 = Ok false ∧
  (Client.server_time (anonymous (response 200 "{'serverTime':1704067200000}" []))).1 = Ok (ms 1704067200000) ∧
  api_code (Client.server_time (anonymous (response 400 "{'code':-1121,'msg':'Invalid symbol.'}" []))).1 = Some (-1121).
Proof. vm_compute. done. Qed.

(** ClientErrorTest *)
Example public_get_test :
  let run r := (Client.public_get "/api/v3/anything" [] (anonymous r)).1 in
  api_code (run (response 400 "{'code':-1121,'msg':'Invalid symbol.'}" [])) = Some (-1121) ∧
  api_code (run (response 429 "{'code':-1015,'msg':'Too many requests.'}" [])) = Some (-1015) ∧
  api_code (run (response 401 "{'code':-2014,'msg':'API-key format invalid.'}" [])) = Some (-2014) ∧
  run (response 200 "{'result':'ok'}" []) = Ok (quoted "{'result':'ok'}").
Proof. vm_compute. done. Qed.

(** ClientRateLimitTest *)
Example rate_limit_test :
  let run hs := (Client.ping (anonymous (response 200 "{}" hs))).2 in
  Client.used_weight_1m (run [("x-mbx-used-weight-1m", "42")]) = 42 ∧
  Client.used_weight_1m (run [("x-mbx-used-weight-1m", "not-a-number")]) = -1 ∧
  Client.used_weight_1m (run []) = 0 ∧ Client.order_count_10s (run [("x-mbx-order-count-10s", "5")]) = 5.
Proof. vm_compute. done. Qed.

(** ** tests/unit/rest/trading_client_test.cpp *)

Definition order_text (status executed quote updated : string) : string :=
  "{'symbol':'BTCUSDT','orderId':123456789,'clientOrderId':'myOrder1','price':'42000.00','origQty':'1.000','executedQty':'"
  +:+ executed +:+ "','cummulativeQuoteQty':'" +:+ quote +:+ "','status':'" +:+ status
  +:+ "','type':'LIMIT','side':'BUY','timeInForce':'GTC','time':1704067200000,'updateTime':" +:+ updated +:+ "}".

Definition new_order_response : string := order_text "NEW" "0.000" "0.00" "1704067200000".
Definition cancel_order_response : string := order_text "CANCELED" "0.000" "0.00" "1704067202000".

Definition limit_buy : NewOrderRequest :=
  {| nr_symbol := "BTCUSDT"; nr_side := Buy; nr_type := Limit; nr_time_in_force := GTC; nr_quantity := dec 1 0;
     nr_price := Some (dec 42000 0); nr_client_order_id := None; nr_stop_price := None |}.

Definition new_order_result : Order :=
  {| o_symbol := "BTCUSDT"; o_order_id := 123456789; o_client_order_id := "myOrder1"; o_price := dec 42000 0;
     o_orig_qty := dec 1 0; o_executed_qty := dec 0 0; o_cummulative_quote_qty := dec 0 0; o_status := New;
     o_time_in_force := GTC; o_type := Limit; o_side := Buy; o_time := ms 1704067200000;
     o_update_time := ms 1704067200000 |}.

(** NewOrderLimitBuyCallsCorrectEndpoint, NewOrderThrowsApiExceptionOnError,
    TestNewOrderCallsTestEndpoint *)
Example new_order_test :
  let run r := (new_order Sha256.hmac_sha256 1704067200000 limit_buy (authenticated r)).1 in
  run (response 200 new_order_response []) = Ok new_order_result ∧
  api_code (run (response 400 "{'code':-1121,'msg':'Invalid symbol.'}" [])) = Some (-1121) ∧
  (test_new_order Sha256.hmac_sha256 1704067200000 limit_buy (authenticated (response 200 "{}" []))).1 = Ok ().
Proof. vm_compute. done. Qed.

(** What is posted, with the real MAC: the decimal form the exchange gets. *)
Example new_order_form :
  posted (Client.http (new_order Sha256.hmac_sha256 1704067200000 limit_buy (authenticated (response 200 new_order_response []))).2) =
  ["symbol=BTCUSDT&side=BUY&type=LIMIT&quantity=1.000000&timeInForce=GTC&price=42000.000000&timestamp=1704067200000&signature="
   +:+ Sign.sign Sha256.hmac_sha256 AuthWitness.creds
     "symbol=BTCUSDT&side=BUY&type=LIMIT&quantity=1.000000&timeInForce=GTC&price=42000.000000&timestamp=1704067200000"].
Proof. vm_compute. reflexivity. Qed.

(** CancelOrderByOrderIdCallsCorrectEndpoint, CancelAllOrdersReturnsEmptyVectorWhenNoOrders *)
Example cancel_order_test :
  (o ← (cancel_order Sha256.hmac_sha256 1 {| cr_symbol := "BTCUSDT"; cr_order_id := Some 123456789; cr_client_order_id := None |}
          (authenticated (response 200 cancel_order_response []))).1; Ok (o_status o)) = Ok Canceled ∧
  (cancel_all_orders Sha256.hmac_sha256 1 "BTCUSDT" (authenticated (response 200 "[]" []))).1 = Ok [] ∧
  (get_open_orders Sha256.hmac_sha256 1 "BTCUSDT" (authenticated (response 200 ("[" +:+ new_order_response +:+ "]") []))).1 =
    Ok [new_order_result].
Proof. vm_compute. done. Qed.

(** ** tests/unit/ws *)

(** WsParseTradeStreamTest *)
Example parse_trade_stream_test :
  on parse_trade_stream "{'t':1,'p':'2.5','q':'4.0','T':0,'m':false}" =
    Ok {| t_id := 1; t_order_id := 0; t_price := dec 25 1; t_qty := dec 4 0; t_quote_qty := dec 10 0; t_time := 0;
          t_is_buyer := true; t_is_maker := false |}.
Proof. vm_compute. reflexivity. Qed.

(** WsParseKlineStreamTest: the k member is read with at() *)
Example parse_kline_stream_test :
  on parse_kline_stream "{'e': 'kline', 'E': 123456789, 's': 'BNBBTC', 'k': {'t': 123400000, 'T': 123460000, 'o': '0.0010', 'c': '0.0020', 'h': '0.0025', 'l': '0.0015', 'v': '1000', 'q': '1.0000', 'n': 100, 'x': false}}" =
    Ok {| k_open_time := ms 123400000; k_open := dec 1 3; k_high := dec 25 4; k_low := dec 15 4; k_close := dec 2 3;
          k_volume := dec 1000 0; k_close_time := ms 123460000; k_quote_volume := dec 1 0; k_num_trades := 100 |} ∧
  match on parse_kline_stream "{'e':'kline'}" with Throw (json_out_of_range _) => True | _ => False end.
Proof. vm_compute. done. Qed.

Definition ws_order_update : string :=
  quoted "{'e':'executionReport','E':1704067200123,'s':'BTCUSDT','S':'BUY','o':'LIMIT','f':'GTC','q':'1.000','p':'42000.00','x':'NEW','X':'NEW','i':123456789,'l':'0.000','z':'0.000','L':'0.00','n':'0.00','N':'BTC','T':1704067200100,'t':0,'O':1704067200000,'Z':'0.00'}".

Definition ws_account_update : string :=
  quoted "{'e':'outboundAccountPosition','E':1704067200123,'u':1704067200100,'B':[{'a':'BTC','f':'1.50000000','l':'0.50000000'},{'a':'USDT','f':'50000.00','l':'10000.00'}]}".

(** UserStreamTest: DispatchMessage* *)
Example user_dispatch_test :
  (match User.do_dispatch true true ws_order_update with
   | Ok (Some (User.OnOrder o)) => o_symbol o = "BTCUSDT"
   | _ => False
   end) ∧
  (match User.do_dispatch true true ws_account_update with
   | Ok (Some (User.OnAccount a)) => length (balances a) = 2%nat
   | _ => False
   end) ∧
  User.do_dispatch true true (quoted "{'e':'unknownEvent','data':{}}") = Ok None ∧
  User.do_dispatch true true "{{not valid json}}" = Ok None ∧
  User.do_dispatch false false ws_order_update = Ok None ∧ User.do_dispatch false false ws_account_update = Ok None.
Proof. vm_compute. done. Qed.

(** StartCallsCreateListenKeyAndConnectsToListenKeyPath, StopIsNoOpBeforeStart *)
Example user_start_test :
  let '(o, s) := User.start UserWitness.no_http ""
                   (User.make AuthWitness.creds (Some (Mock [] (response 200 "{'listenKey':'test-listen-key-abc'}" [])))) in
  o = Ok () ∧ User.connected_path s = Some "/ws/test-listen-key-abc" ∧
  (User.stop UserWitness.no_http (User.make AuthWitness.creds (Some (Mock [] (response 200 "{}" []))))).1 = Ok ().
Proof. vm_compute. done. Qed.

(** ** tests/unit/auth/signer_test.cpp *)

Definition hex_only (s : string) : bool :=
  forallb (λ c, ((48 <=? Chars.code c) && (Chars.code c <=? 57)) || ((97 <=? Chars.code c) && (Chars.code c <=? 102)))
          (String.list_ascii_of_string s).

Definition test_creds : Creds.Credentials := Creds.make "test_api_key" "test_api_secret".

(** SignProducesHexString, EmptyQuerySignatureIsValid64HexChars,
    DifferentInputProducesDifferentSignature *)
Example sign_test :
  let sig q := Sign.sign Sha256.hmac_sha256 test_creds q in
  String.length (sig "symbol=BTCUSDT&side=BUY&type=LIMIT") = 64%nat ∧ hex_only (sig "symbol=BTCUSDT&side=BUY&type=LIMIT") = true ∧
  String.length (sig "") = 64%nat ∧ hex_only (sig "") = true ∧ String.eqb (sig "query_a") (sig "query_b") = false.
Proof. vm_compute. done. Qed.

(** The worked example of Binance's API documentation. *)
Example binance_documented_signature :
  Sign.sign Sha256.hmac_sha256
    (Creds.make "vmPUZE6mv9SD5VNHk4HlWFsOr6aKE2zvsw0MuIgwCIPy6utIco14y7Ju91duEh8A"
                "NhqPtmdSJYdKjVHjA7PZj4Mge3R5YNiP1e3UZjInClVN65XAbvqqM6A7H5fATj0j")
    "symbol=LTCBTC&side=BUY&type=LIMIT&timeInForce=GTC&quantity=1&price=0.1&recvWindow=5000&timestamp=1499827319559" =
  "c8db56825ae71d6d79447849e617115f4a920fa2acdcab2b053c4b2838bd6b71".
Proof. vm_compute. reflexivity. Qed.

(** The digest of the signer test's example, evaluated; it is not the one its comment
    gives. *)
Theorem signer_comment_vector :
  Sign.sign Sha256.hmac_sha256 (Creds.make "key" "secret") "symbol=BTCUSDT" =
    "d312dbdcf67849b63f049d75c36ef9faf2ec9bd835bd9ec589a2fc386640a2f0" ∧
  String.prefix "2e8f10e6" (Sign.sign Sha256.hmac_sha256 (Creds.make "key" "secret") "symbol=BTCUSDT") = false.
Proof. vm_compute. done. Qed.
End Conformance.
