(* ===== verification/Examples.v ===== *)
(** * The example programs

    [main] of src/examples/place_order_example.cpp,
    market_data_example.cpp and websocket_stream_example.cpp: what each
    puts on the wire, prints and returns.  The first two run on the
    transport of HttpClient.v through the clients of Session.v, the third
    on the connection of StreamLife.v.  The asynchronous example is in
    Executors.v. *)

From Stdlib Require Import SpecFloat.
From S2P Require Import Prelude Errors CppLib Query CoreTypes Json RestParse Auth Hmac HttpClient RestClient SubClients Session WebSocketClient MarketStream BaseClient StreamLife.
Import Client Exec.
Local Open Scope Z_scope.

Module Programs.

(** A line on standard output or standard error, with the value in it. *)
Inductive line : Type :=
| PriceLine (price : Price)
| BookLine (bids asks : nat)
| PlacedLine (id : OrderId)
| StatusLine (status : string)
| TradeLine (price : Price) (qty : Quantity) (is_buyer : bool)
| BintradeError (what : string)
| StdError (what : string).

(** ** The REST programs *)
Section rest.
Context `{L : JsonLib} `{HO : HashOrder} `{N : Network}.
Context (hmac_sha256 : string → string → list Z).

(** The lines printed so far and the client object. *)
Record console : Type := Console { out : list line; the_client : Impl (T := client) }.

Definition print (l : line) : stM console exn () := λ s, (Ok (), Console (out s ++ [l]) (the_client s)).

Definition with_client {A} (m : stM Impl exn A) : stM console exn A := λ s,
  let '(o, c) := m (the_client s) in (o, Console (out s) c).

(** The two catch clauses. *)
Definition caught (e : exn) : line :=
  match e with
  | bt e => BintradeError (what e)
  | e => StdError (exn_what e)
  end.

(** How a program ended: its exit status, its lines and its requests. *)
Record ended : Type := Ended { status : outcome exn Z; lines : list line; requests : list request }.

(** The try block: a client is constructed and used. *)
Definition main (config : RestConfig) (auth : option Creds.Credentials) (body : stM console exn ()) (w : net) : ended :=
  match Session.connect config auth w with
  | Throw e => Ended (Ok 1) [caught e] []
  | Crash f => Ended (Crash f) [] []
  | Ok c =>
      let '(o, s) := body (Console [] c) in
      let sent := sent (http (the_client s)) in
      match o with
      | Ok _ => Ended (Ok 0) (out s) sent
      | Throw e => Ended (Ok 1) (out s ++ [caught e]) sent
      | Crash f => Ended (Crash f) (out s) sent
      end
  end.

(** *** place_order_example.cpp *)
Definition creds : Creds.Credentials := Creds.make "YOUR_API_KEY" "YOUR_API_SECRET".

Definition testnet : RestConfig :=
  {| rc_base_url := "https://testnet.binance.vision"; rc_timeout := rc_timeout RestConfig_default;
     rc_use_testnet := true; rc_proxy := rc_proxy RestConfig_default; rc_verify_ssl := rc_verify_ssl RestConfig_default |}.

(** 0.001 and 40000.0 in binary64. *)
Definition order : NewOrderRequest :=
  {| nr_symbol := "BTCUSDT"; nr_side := Buy; nr_type := Limit; nr_time_in_force := GTC;
     nr_quantity := S754_finite false 4611686018427388 (-62);
     nr_price := Some (S754_finite false 5497558138880000 (-37));
     nr_client_order_id := None; nr_stop_price := None |}.

Definition place_order_main (now : Z) : net → ended := main testnet (Some creds) (
  result ← with_client (new_order hmac_sha256 now order);
  _ ← print (PlacedLine (o_order_id result));
  print (StatusLine (order_status_to_string (o_status result)))).

(** *** market_data_example.cpp *)
Definition market_data_main : net → ended := main RestConfig_default None (
  ticker ← with_client (get_price_ticker "BTCUSDT");
  _ ← print (PriceLine (tk_price ticker));
  orderbook ← with_client (get_order_book "BTCUSDT" 5);
  print (BookLine (length (bids orderbook)) (length (asks orderbook)))).

(** *** What they do *)
Context {NL : NetworkLaws N}.

(** The client of a program is at rest when its body starts. *)
Lemma main_starts config auth w url :
  Url.from (rc_base_url config) = Ok url →
  ∃ c, Session.resting (Url.host url) (Session.key_of auth) (http c) ∧ signer c = auth ∧ sent (http c) = [] ∧
    ∀ body, main config auth body w =
      let '(o, s) := body (Console [] c) in
      let sent := sent (http (the_client s)) in
      match o with
      | Ok _ => Ended (Ok 0) (out s) sent
      | Throw e => Ended (Ok 1) (out s ++ [caught e]) sent
      | Crash f => Ended (Crash f) (out s) sent
      end.
Proof.
  intros Hu. unfold main. destruct (Session.connect config auth w) as [c|e|f] eqn:Hc.
  - apply Session.connect_resting in Hc as Hr. destruct Hr as (url' & Hu' & Hr & Hs & He). rewrite Hu in Hu'. injection Hu' as <-. exists c. by split_and!.
  - unfold Session.connect, connect_signed, connect_public, make_client in Hc. rewrite Hu in Hc. by destruct auth.
  - unfold Session.connect, connect_signed, connect_public, make_client in Hc. rewrite Hu in Hc. by destruct auth.
Qed.

Definition testnet_url : Url.ParsedUrl := {| Url.scheme := "https"; Url.host := "testnet.binance.vision"; Url.port := "443" |}.
Definition binance_url : Url.ParsedUrl := {| Url.scheme := "https"; Url.host := "api.binance.com"; Url.port := "443" |}.

Lemma testnet_parses : Url.from (rc_base_url testnet) = Ok testnet_url.
Proof. vm_compute. reflexivity. Qed.

Lemma binance_parses : Url.from (rc_base_url RestConfig_default) = Ok binance_url.
Proof. vm_compute. reflexivity. Qed.

Lemma new_order_performs now r : Session.performs hmac_sha256 now (Session.TradingCall (Session.PlaceOrder r)) (new_order hmac_sha256 now r).
Proof. apply Session.performs_lift. by apply Session.performs_signed_post. Qed.

Lemma price_ticker_performs now s : Session.performs hmac_sha256 now (Session.MarketCall (Session.GetPriceTicker s)) (get_price_ticker s).
Proof. apply Session.performs_lift. by apply Session.performs_public_get. Qed.

Lemma order_book_performs now s l : Session.performs hmac_sha256 now (Session.MarketCall (Session.GetOrderBook s l)) (get_order_book s l).
Proof. apply Session.performs_lift. by apply Session.performs_public_get. Qed.

(** The order example posts at most one order, to the test network, which verifies and
    says 0.001000 at 40000.000000; it returns 0 only after printing what the exchange
    answered to it. *)
Theorem place_order_example now w :
  (∀ k m, Forall (λ b, 0 ≤ b < 256) (hmac_sha256 k m)) → order_stable HO →
  let e := place_order_main now w in
  (requests e = [] ∨
   ∃ q, requests e = [q] ∧ q_method q = post_ ∧ q_target q = "/api/v3/order" ∧
     find "Host" (q_fields q) = Some "testnet.binance.vision" ∧
     Sign.server_accepts hmac_sha256 "YOUR_API_SECRET" (q_body q) = true ∧
     find "quantity" (parse_query (q_body q)) = Some "0.001000" ∧
     find "price" (parse_query (q_body q)) = Some "40000.000000") ∧
  (status e = Ok 0 → ∃ q id st, requests e = [q] ∧ lines e = [PlacedLine id; StatusLine st]).
Proof using NL.
  intros Hb Hst e. unfold e, place_order_main.
  destruct (main_starts testnet (Some creds) w testnet_url testnet_parses) as (c & Hr & Hs & He & Hm).
  rewrite Hm. clear Hm. rewrite <- Hs in Hr. unfold mbind, stM_bind, with_client. simpl.
  destruct (new_order hmac_sha256 now order c) as [o c'] eqn:Ho.
  apply (Session.performs_resting hmac_sha256 (Url.host testnet_url) now (Session.TradingCall (Session.PlaceOrder order))) in Ho as (_ & _ & Hsent);
    [|apply new_order_performs | exact Hr].
  rewrite He, Hs in Hsent. destruct Hsent as [(q & Hq & Hsent)|[Hsent Hno]].
  2: { destruct o; simpl; try done; rewrite Hsent; by split; [left|]. }
  apply (Session.wire_request_verifies hmac_sha256 Hb) in Hq as Hv; [|done | by split | done].
  destruct Hv as [Hacc Hpar].
  assert (Hline : q_method q = post_ ∧ q_target q = "/api/v3/order" ∧ find "Host" (q_fields q) = Some "testnet.binance.vision")
    by (injection Hq as <-; done).
  destruct Hline as (Hpost & Htgt & Hhost). unfold Session.payload in *. rewrite Hpost in *.
  split.
  - right. exists q. rewrite !Hpar by done. split_and!; try done.
    + by destruct o.
    + simpl. unfold build_new_order_params. by find_params.
    + simpl. unfold build_new_order_params. by find_params.
  - destruct o; simpl; try done. intros _. eauto.
Qed.

Definition ticker_request : Session.call := Session.MarketCall (Session.GetPriceTicker "BTCUSDT").
Definition book_request : Session.call := Session.MarketCall (Session.GetOrderBook "BTCUSDT" 5).

(** The market data example sends the price request and then the depth request, in this
    order and each once; it returns 0 only after both, with one line for each. *)
Theorem market_data_example w :
  let e := market_data_main w in
  ∃ q1 q2, Session.wire_request hmac_sha256 "api.binance.com" None 0 ticker_request = Some q1 ∧
    Session.wire_request hmac_sha256 "api.binance.com" None 0 book_request = Some q2 ∧
    requests e `prefix_of` [q1; q2] ∧
    (status e = Ok 0 → requests e = [q1; q2] ∧ ∃ p b a, lines e = [PriceLine p; BookLine b a]).
Proof using NL.
  destruct (Session.wire_request hmac_sha256 "api.binance.com" None 0 ticker_request) as [q1|] eqn:Hw1; [|done].
  destruct (Session.wire_request hmac_sha256 "api.binance.com" None 0 book_request) as [q2|] eqn:Hw2; [|done].
  exists q1, q2. split; [done|]. split; [done|]. unfold market_data_main.
  destruct (main_starts RestConfig_default None w binance_url binance_parses) as (c & Hr & Hs & He & ->).
  rewrite <- Hs in Hr. unfold mbind, stM_bind, with_client, print. cbn [the_client out].
  destruct (get_price_ticker "BTCUSDT" c) as [o c1] eqn:H1.
  apply (Session.performs_resting hmac_sha256 (Url.host binance_url) 0 ticker_request) in H1 as (Hr1 & Hs1 & Hq1);
    [|apply price_ticker_performs | exact Hr].
  change (Url.host binance_url) with "api.binance.com" in *. rewrite He, Hs, Hw1 in Hq1. rewrite <- Hs1 in Hr1.
  assert (H1 : sent (http c1) = [q1] ∨ sent (http c1) = [] ∧ is_Ok o = false)
    by (destruct Hq1 as [(? & [= <-] & ?)|]; auto).
  assert (Hpre : sent (http c1) `prefix_of` [q1; q2])
    by (destruct H1 as [->|[-> _]]; [apply prefix_cons|]; apply prefix_nil).
  destruct o as [tk|e|f]; [|by split..]. cbn [the_client].
  destruct H1 as [H1|[]]; [|done]. destruct (get_order_book "BTCUSDT" 5 c1) as [o c2] eqn:H2.
  apply (Session.performs_resting hmac_sha256 "api.binance.com" 0 book_request) in H2 as (_ & _ & Hq2);
    [|apply order_book_performs | exact Hr1].
  rewrite Hs1, Hs, Hw2, H1 in Hq2. rewrite H1 in Hpre.
  destruct Hq2 as [(? & [= <-] & Hq2)|[Hq2 Hno]]; destruct o; simpl; rewrite Hq2; try done; split; eauto.
Qed.
End rest.

(** ** The streaming program *)
Section stream.
Context `{L : JsonLib} (stale : nat → bool).
(** Where [stream] lives. *)
Context (a : Base.addr).

Definition trades : Market.subscription := Market.Trades "BTCUSDT".
Definition dispatch : string → outcome exn (option Market.event) := Market.dispatch_fn trades.

(** [MarketStream stream; stream.subscribe_trades("BTCUSDT", ...)] *)
Definition websocket_main : list (Base.action (Life.ustate (E := Market.event))) :=
  Life.subscribed dispatch stale a WebSocketConfig_default Inline (String.append "/ws/" (Market.stream_name trades)).

(** What the callback prints. *)
Definition print_trade (ev : Market.event) : option line :=
  match ev with
  | Market.OnTrade t => Some (TradeLine (t_price t) (t_qty t) (t_is_buyer t))
  | _ => None
  end.

Definition printed (w : Base.world (Life.ustate (E := Market.event))) : list line :=
  omap print_trade (Delivery.delivered (Life.st (Base.user w))).

Definition stream_url : Wss.ParsedWssUrl := {| Wss.host := "stream.binance.com"; Wss.port := "9443" |}.

Lemma stream_parses : Wss.from (wc_base_url WebSocketConfig_default) = Ok stream_url.
Proof. vm_compute. reflexivity. Qed.

(** The streaming example prints every trade read while it sleeps, in order; but it ends
    by destroying a connected stream, and a message that arrives then uses a destroyed
    callback. *)
Theorem websocket_example w acts w' msg :
  Base.exec_all websocket_main (Base.empty_world (Life.start Inline)) = Some w →
  run Base.step w acts w' → Forall (Life.stream_action dispatch a) acts →
  printed w' = omap print_trade (omap (Delivery.event_of dispatch) (omap Base.text_read acts)) ∧
  ∃ w2, Base.step w (Base.DestroyMembers a) w2 ∧ Base.crashes w2 (Base.Io a (Wss.ReadText msg)) ub_dangling.
Proof.
  intros Hs Hr Ha. split.
  - unfold printed. f_equal. by apply (Life.delivery_end_to_end dispatch (Market.dispatch_fn_no_throw trades) stale a WebSocketConfig_default
      Inline _ stream_url acts w stream_parses Hs w').
  - unfold websocket_main, Life.subscribed in Hs. rewrite (Base.live_client_runs _ _ _ _ _ stream_url stream_parses) in Hs.
    injection Hs as <-. apply Base.live_destroy_dangles.
Qed.
End stream.
End Programs.

(** ** Runs *)
Module ProgramsWitness.
Import Programs Tree HttpWitness AuthWitness SubClientsWitness.

Definition placed : string :=
  quoted "{'symbol':'BTCUSDT','orderId':28,'clientOrderId':'x','price':'40000','origQty':'0.001','executedQty':'0','cummulativeQuoteQty':'0','status':'NEW','timeInForce':'GTC','type':'LIMIT','side':'BUY'}".

Definition placing : net := [reply placed].

(** The order is placed and printed, with the real signature. *)
Example place_order_runs :
  let e := place_order_main (L := TreeJson) Sha256.hmac_sha256 1700000000000 placing in
  status e = Ok 0 ∧ lines e = [PlacedLine 28; StatusLine "NEW"] ∧ q_body <$> requests e =
    ["symbol=BTCUSDT&side=BUY&type=LIMIT&quantity=0.001000&timeInForce=GTC&price=40000.000000&timestamp=1700000000000&signature=a85d0a7bbf5cba816bea3bdfca0ff9741c0ade748ad5c4c20243738ddea49c03"].
Proof. vm_compute. done. Qed.

Lemma place_order_example_witness :
  ∃ q, requests (place_order_main (L := TreeJson) Sha256.hmac_sha256 1700000000000 placing) = [q] ∧
    find "quantity" (parse_query (q_body q)) = Some "0.001000".
Proof.
  destruct (place_order_example (L := TreeJson) Sha256.hmac_sha256 1700000000000 placing
              Sha256.hmac_bytes insertion_order_stable) as [[H|(q & Hq & _ & _ & _ & _ & Hf & _)] _].
  - vm_compute in H. discriminate.
  - by exists q.
Defined.

Definition price : string := quoted "{'symbol':'BTCUSDT','price':'4'}".
Definition depth : string := quoted "{'lastUpdateId':1,'bids':[['3','1']],'asks':[['5','1'],['6','2']]}".

Definition quotes : net := [reply price; reply depth].

Lemma market_data_example_witness :
  length (requests (market_data_main (L := TreeJson) quotes)) = 2%nat.
Proof.
  destruct (market_data_example (L := TreeJson) toy_mac quotes) as (q1 & q2 & _ & _ & _ & H).
  destruct H as [-> _]; [vm_compute; reflexivity | done].
Defined.

(** Both requests go out and both lines are printed; a lost second answer
    is an error after the first line. *)
Example market_data_runs :
  lines (market_data_main (L := TreeJson) quotes) = [PriceLine (S754_finite false 4503599627370496 (-50)); BookLine 1 2] ∧
  let e := market_data_main (L := TreeJson) [reply price; inl (beast_system_error "reset")] in
  status e = Ok 1 ∧ length (lines e) = 2%nat ∧ last (lines e) = Some (BintradeError "reset").
Proof. vm_compute. done. Qed.

Lemma websocket_example_witness :
  ∃ w w2, Base.exec_all (websocket_main (L := TreeJson) (λ _, false) 7%nat) (Base.empty_world (Life.start Inline)) = Some w ∧
    printed w = [] ∧ Base.step w (Base.DestroyMembers 7%nat) w2 ∧
    Base.crashes w2 (Base.Io 7%nat (Wss.ReadText "late")) ub_dangling.
Proof.
  eexists. pose proof (Base.live_client_runs 7%nat WebSocketConfig_default
    (Life.installed (dispatch (L := TreeJson)) (λ _, false) Inline) (String.append "/ws/" (Market.stream_name trades))
    (Life.start Inline) stream_url stream_parses) as Hw.
  edestruct (websocket_example (L := TreeJson) (λ _, false) 7%nat) as (Hp & w2 & Hd & Hc);
    [exact Hw | apply run_nil | constructor |].
  exists w2. split; [exact Hw|]. by split.
Defined.
End ProgramsWitness.
